(* ===== verification/_CoqProject ===== *)
-Q . S2P
Prelude.v
Types.v
Extents.v
Index.v
IndexInv.v
IndexProps.v
OS.v
Decimal.v
Persist.v
Store.v
Cache.v
CacheConc.v
CacheConcProps.v
ChunkStore.v
ChunkProps.v
Fuse.v
FuseData.v
FuseInv.v
FuseProps.v
FuseWitness.v
FsSpec.v
SpecAbs.v
SpecIndex.v
SpecNames.v
SpecRefine.v
Frame.v
SpecDemo.v
Compaction.v
Strconv.v
Config.v
CompactProps.v
CompactWitness.v
Broker.v
BrokerProps.v
Web.v
BrokerService.v
S3.v
S3Props.v
ConfigProps.v
Command.v
CommandProps.v
Main.v
MainProps.v
Durable.v
Life.v
CompactRun.v
FuseConc.v
FuseConcProps.v
FuseConcDemo.v
Session.v
TreeConc.v
FuseConcSpec.v
LinearDemo.v
Daemon.v
DaemonProps.v
MainDemo.v
MachineDemo.v
S3Demo.v
CommandDemo.v
DurableDemo.v
SessionDemo.v
CacheConcDemo.v
