(* ===== verification/Prelude.v ===== *)
(** * fusey: a verification development

    fusey is a FUSE file system that keeps its data in an object store. File
    contents are appended to a log of chunks; an index in memory maps names to
    inodes and ranges of files to extents of chunks; the index is written to a
    local snapshot and to an object next to the chunks, from which another
    machine can take over. This library models the Go program under src/ and
    proves that it keeps what was written.

    ** The program and its model

    A request of the kernel reaches a handler of internal/fuse/fs.go, which
    reads and changes the index (internal/index) and the chunk store
    (internal/chunks/chunk_store.go). The chunk store has one active chunk in
    memory, and seals it into a [Store] when it is full: a directory, a broker
    behind presigned URLs, or an S3 bucket. Sealed chunks are read through a
    disk cache. The command (cmd/fusey/main.go) loads the configuration, picks
    the store, loads the index, mounts, persists periodically and on shutdown,
    and runs the compactor (internal/compaction), which rewrites chunks that are
    mostly dead.

    - Prelude: machine integers, byte slices, outcomes of calls ([outcome]: a
      result or an error with the state it left, or a panic), shared lemmas.
    - Types, Extents, Index: src/internal/index/types.go and index.go. [Index] is
      a record of finite maps; every method of the Go type is a function on it.
      Extents has the in-place filtering of an extent slice, aliasing included.
      IndexInv and IndexProps have its invariant and theorems.
    - OS: the calls of Go's os package, on a disk with injected faults.
    - Decimal, Strconv: fmt.Sprintf and Sscanf on chunk ids; strconv and
      time.ParseDuration.
    - Persist: src/internal/index/persist.go. The CBOR library is the class
      [CborCodec]; its laws ([CborLaws]) say what its default options do: the
      encoder takes any payload, the decoder gives back exactly those whose text
      is UTF-8 and whose arrays and maps have at most 131072 elements, and
      rejects the others. An index whose payload the decoder takes is
      [loadable].
    - Store: src/internal/chunks/store.go as the classes [Store] and
      [ObjectStore] of operations on a world, with the laws [StoreLaws] and
      [ObjectLaws] that clients rely on; local.go ([LocalStore]) satisfies them.
    - Cache: src/internal/chunks/cache.go as one goroutine runs it. CacheConc and
      CacheConcProps: the same code with many goroutines in it.
    - ChunkStore, ChunkProps: src/internal/chunks/chunk_store.go over any store.
    - Fuse: src/internal/fuse/fs.go, one function per handler; FuseData (contents
      of files), FuseInv (the invariant of index, chunks and cache together),
      FuseProps and FuseWitness. FuseConc, FuseConcProps and FuseConcDemo: the
      requests as threads, one step per call of a component.
    - FsSpec: the file system that the handlers implement, as a tree of nodes
      with bytes and attributes, and for each request the answers it may get and
      the tree after it. SpecAbs: the tree that an index and its chunks stand
      for; SpecIndex, SpecNames: what each index operation does to it;
      SpecRefine: every handler refines the specification; SpecDemo runs it.
      Frame: what one call of the index leaves alone.
    - Compaction: src/internal/compaction/compactor.go; CompactProps and
      CompactWitness.
    - Broker, BrokerProps: src/internal/chunks/broker.go, which satisfies the
      laws over any network and broker that do ([BrokerLaws]). Web: the parts of
      HTTP and Python that the broker uses (JSON, percent-encoding, header
      lookup, int). BrokerService: src/broker/main.py, which does.
    - S3, S3Props, S3Demo: src/internal/chunks/s3.go over an SDK client.
    - Config, ConfigProps: src/internal/config/config.go.
    - Command, CommandProps, Main, MainProps, MainDemo, CommandDemo, MachineDemo:
      src/cmd/fusey/main.go: dispatch, store choice, persist function, loading,
      compaction run, unmounting. MachineDemo runs several of them one after the
      other on one machine.
    - Durable: what every request does to the store and to the local disk. Life:
      the life of a daemon, requests beside any number of goroutines that run
      the persist function one call at a time.
      CompactRun: the command "fusey compact" between two daemons. Session: a
      life as its users see it, requests with their answers, over the
      specification. TreeConc, FuseConcSpec, LinearDemo: interleaved requests
      over the specification. Daemon, DaemonProps: the parent and the daemon of a mount
      as a step relation (runMount and runDaemon), with both write ends of the
      pipe and the goroutine of the ticker. DurableDemo, SessionDemo and
      CacheConcDemo run them.

    ** What the theorems show

    Refinement: [SpecRefine.handlers_refine] says that every handler answers as
    the specification of FsSpec allows and leaves the tree it asks for, on every
    branch; [SpecRefine.runs_refine] is the same for sequences of requests.
    [Session.session_durable] adds the start and the end of a daemon: its
    answers are a run of the specification, and the next daemon goes on from
    the tree at which the run ended. [Session.compact_keeps_tree] puts a
    compaction between the two, which may end in any way.

    Durability: [Life.daemon_life_durable], [Life.crash_recovers],
    [DaemonProps.shutdown_durable] say that whenever the remote dirty flag is
    clear, as after a persist that returned, and after a crash at any time, the
    next daemon sees the files that were published. It may run on a machine
    without local files, or, when the local flag is clear too, in the cache
    directory of the last one, whose snapshot and cached chunks it then finds
    ([Life.machine_ready] says what they must be, and that the daemon leaves
    them so; a new mount draws a new directory, so this is about a daemon that is
    started with the same id). Its start fails only for an I/O error, or because
    the index is not loadable ([Life.starts_with]).
    [FuseProps.Fsync_snapshot_complete] is about fsync and the local snapshot,
    [ChunkProps.flush_then_recover] about the chunk log,
    [MainProps.persistFn_publishes] about one call of the persist function,
    [CompactProps.Compact_preserves_files] about a compaction cycle. (The last is
    over a persist function that keeps the durable index in a state of its own,
    [PersistLaws]; the command's persist function cannot marshal compacted
    names, so that its cycles never get to that point, which is
    [MainProps.Compact_never_moves]; CompactRun has the cycle with it.)

    ** Conditions

    The theorems above exclude what the program does not bear, by hypotheses
    that say so:
    - [SpecRefine.avoids_split]: no write strictly inside an extent that is not
      the last of its file. The kernel does send such writes, and they lose data
      ([IndexProps.WriteExtent_inner_split_loses]).
    - [Life.calm]: no request changes the index while a goroutine is between
      [Save] and [MarkClean] of the persist function, or, access times apart,
      between the flush of the active chunk and [MarkRemoteClean]. Such requests
      do come; [Life.late_change_not_published], [MainDemo.persist_race_dangling]
      and [MainDemo.persist_race_lost_update] say what then happens.
    - [Persist.loadable], see above; [Life.foreign_text_never_loads] says what
      happens otherwise.
    - [FuseProps.panics]: statfs with a block size of zero, which the
      configuration accepts, panics.
    - [SpecRefine.kernel_ok], [FuseProps.req_ok]: the kernel names nodes it was
      told of, resizes files only, does not unlink directories or rename an entry
      onto itself, and keeps offsets within int64.
    - [Life.machine_ready]: a compaction or a daemon does not start in a cache
      directory with an old snapshot ([MachineDemo.compact_twice_rolls_back]).
    - [BrokerService.PlatformLaws]: the disk of the broker does not fail in the
      middle of a write ([BrokerService.upload_not_atomic]).

    Contents: [FuseProps.Read_returns_content], [Write_updates_content],
    [Setattr_sets_length], [Create_then_Lookup], [Write_fails_cleanly] relate each
    handler to the byte content of files; [IndexProps.WriteExtent_maps_range] and
    [ChunkProps.chunk_log_survives] are the two halves below them.

    Invariants: [IndexProps.reachable_wf] and [FuseProps.requests_keep_invariant]
    hold after any sequence of operations, whatever the disk and the store do.

    Interfaces: [BrokerProps.BrokerStore_laws], [S3Props.S3Store_laws] and
    [CommandProps.chooseStore_laws] discharge, for each store, the laws against
    which everything above was proved; [BrokerService.reference_broker_laws]
    discharges those of the broker, and [BrokerService.broker_confined] says
    which request may change which of its files.

    Concurrency: [FuseConcSpec.requests_linearize] (requests that interleave
    call by call change the tree as a sequence of whole requests does; the
    inode that a create has made and not yet named is nobody else's),
    [FuseConcProps.reads_see_one_version] and
    [writes_commit_atomically] (requests that interleave: a read returns one
    version of the bytes, a write takes effect at one call),
    [CacheConcProps.concurrent_reads] and [all_calls_return] (cache),
    [Life.late_change_not_published] (what goes wrong when requests interleave
    with the persist function at the wrong place),
    [DaemonProps.mount_protocol] and [mount_resolves] (the two processes).

    Equivalences and round trips: [FuseConcProps.requests_alone],
    [CacheConcProps.readRange_alone],
    [MainProps.persist_steps_sequential], [ConfigProps.Load_iff] and
    [Load_roundtrip], [Persist.persist_roundtrip].

    Defects that the model exhibits are theorems, too: a write inside an
    extent loses the next one ([IndexProps.WriteExtent_inner_split_loses]),
    compaction cannot move live data ([MainProps.Compact_never_moves]),
    past 10^8 chunks a session overwrites one
    ([ChunkProps.RecoverNextSeq_overwrites]), a name that is not UTF-8 makes a
    file system that cannot be mounted again ([Life.foreign_text_never_loads]),
    a rename onto itself, a create on an existing name, overlapping
    prefixes, relative mountpoints, sizes of zero, answers that differ from the
    specification of the repository ([SpecDemo.rename_errors],
    [SpecDemo.answers_differ]), two writes that pass the check of the
    capacity together ([FuseConcDemo.capacity_race]), a symbolic link that is
    saved without its target ([LinearDemo.symlink_saved_without_target]), a
    second compaction on one machine that rolls the file system back
    ([MachineDemo.compact_twice_rolls_back]), a compaction beside a daemon, a
    failed persist that is not recovered, ids of the broker that name
    directories, uploads that are not atomic
    ([BrokerService.upload_not_atomic]).

    ** Bounds and fuel

    Printing a 64-bit number uses 20 digits of fuel, enough for 2^64. The chunk
    size is below 2^62, so that buffer offsets do not overflow int64; sequence
    numbers are below 2^63 and, where recovery parses them, at most 10^8, the
    range of "%08d". [withRetry] makes four attempts, as the constant says. The
    listing loop of S3 runs for as many pages as the bucket has, an argument that
    [S3Laws] relates to the bucket. Duration texts use their length as fuel. A
    goroutine in readRange takes at most 14 steps, the two processes of a mount
    at most 23. Operations are total functions, and the theorem on an operation
    says what holds on each of its outcomes, errors included; the theorems on the
    life of a daemon begin where it has started.

    ** Parameters

    The CBOR codec, the HTTP client with its URL parser and JSON decoder, what
    FastAPI answers to a request that no route matches, whether the disk of the
    broker fails in the middle of a write, the AWS SDK client, the JSON codec of the pid file, the clock, the random bytes of a
    daemon id, the order in which Go iterates over a map, and the outcomes of
    fork, mount and unmount. Each law that is assumed of one of them has an
    instance that satisfies it (LocalStore, BrokerService, S3Demo, FuseWitness).

    ** Not modelled

    Log output and the text of error messages; go-fuse below the handlers (inode
    numbers and attributes are what the handlers hand to it); the internals of
    the CBOR, HTTP and AWS libraries; permissions of files on the host; FastAPI
    beyond what the decorators of the broker ask of it. A method of the index or
    of the chunk store is one step, since it runs under a mutex; a read of a
    sealed chunk, which releases it, is one step in FuseConc, and CacheConc has
    the steps within. Requests interleave at their calls in FuseConc; they
    are whole steps, beside the calls of the persist function, in Life, Session
    and Daemon. That the calls of the operating system, of the stores and of
    go-fuse return is assumed. A slice expression panics beyond the length of
    its slice; Go allows it up to the capacity, which no call of the program
    makes use of. After a compaction the theorems speak of the
    next daemon on a machine without local files; MachineDemo shows why. *)
From stdpp Require Export ssreflect gmap strings list pretty numbers sorting.
From Stdlib Require Export ZArith Lia.
From Stdlib Require Strings.Byte Strings.Ascii.

#[global] Open Scope Z_scope.
#[global] Set Default Goal Selector "!".

(** ** Machine integers

    Go's fixed-width integers are modelled by [Z]; every arithmetic operation
    that the source performs at a fixed width is followed by the wrap-around
    of that width. *)

Definition i64 (z : Z) : Z := (z + 2 ^ 63) mod 2 ^ 64 - 2 ^ 63.
Definition i32 (z : Z) : Z := (z + 2 ^ 31) mod 2 ^ 32 - 2 ^ 31.
Definition u32 (z : Z) : Z := z mod 2 ^ 32.
Definition u64 (z : Z) : Z := z mod 2 ^ 64.

Abbreviation int64_max := (2 ^ 63 - 1).

(** [is_i64 z]: [z] is the value of some [int64]. *)
Definition is_i64 (z : Z) : Prop := - 2 ^ 63 <= z < 2 ^ 63.
Definition is_u32 (z : Z) : Prop := 0 <= z < 2 ^ 32.
Definition is_u64 (z : Z) : Prop := 0 <= z < 2 ^ 64.

Declare Scope go_scope.
Delimit Scope go_scope with go.
(** [int64] addition and subtraction. *)
Notation "a +! b" := (i64 (a + b)) (at level 50, left associativity) : go_scope.
Notation "a -! b" := (i64 (a - b)) (at level 50, left associativity) : go_scope.
#[global] Open Scope go_scope.

(** Go's [/] and [%] on signed integers truncate towards zero. *)
Definition go_div (a b : Z) : Z := Z.quot a b.
Definition go_mod (a b : Z) : Z := Z.rem a b.

Lemma i64_small z : is_i64 z → i64 z = z.
Proof. rw /is_i64 /i64 => ?. rw Z.mod_small; lia. Qed.

Lemma i64_range z : is_i64 (i64 z).
Proof.
  rw /is_i64 /i64. pose proof (Z.mod_pos_bound (z + 2 ^ 63) (2 ^ 64)). lia.
Qed.

Lemma u32_small z : is_u32 z → u32 z = z.
Proof. rw /is_u32 /u32 => ?. rw Z.mod_small; lia. Qed.

Lemma u64_small z : is_u64 z → u64 z = z.
Proof. rw /is_u64 /u64 => ?. rw Z.mod_small; lia. Qed.

(** [i64_simp] removes every wrap-around whose argument [lia] can bound. *)
Ltac i64_simp :=
  repeat match goal with
  | |- context [i64 ?z] => rw (i64_small z); [|rw /is_i64; lia]
  | H : context [i64 ?z] |- _ =>
      rw (i64_small z) in H; [|rw /is_i64; lia]
  end.

(** ** Bytes *)

Abbreviation byte := Byte.byte.
Abbreviation zero_byte := Byte.x00.
Abbreviation bytes := (list Byte.byte).

#[global] Instance byte_eq_decision : EqDecision byte := Byte.byte_eq_dec.

(** [len b] is Go's [int64(len(b))]. *)
Definition len {A} (l : list A) : Z := Z.of_nat (length l).

Lemma len_app {A} (l k : list A) : len (l ++ k) = len l + len k.
Proof. rw /len length_app. lia. Qed.

Lemma len_nonneg {A} (l : list A) : 0 <= len l.
Proof. rw /len. lia. Qed.

Lemma len_replicate {A} n (x : A) : len (replicate n x) = Z.of_nat n.
Proof. by rw /len length_replicate. Qed.

(** [slice b lo n] is the [n] bytes of [b] from [lo] on. *)
Definition slice {A} (b : list A) (lo n : Z) : list A :=
  take (Z.to_nat n) (drop (Z.to_nat lo) b).

Lemma len_slice {A} (b : list A) lo n :
  0 <= lo → 0 <= n → lo + n <= len b → len (slice b lo n) = n.
Proof. rw /slice /len => ???. rw length_take length_drop. lia. Qed.

Lemma lookup_slice {A} (b : list A) lo n i :
  0 <= lo → Z.of_nat i < n → slice b lo n !! i = b !! (Z.to_nat lo + i)%nat.
Proof.
  rw /slice => ??. rw lookup_take_lt; [|lia]. by rw lookup_drop.
Qed.

(** A slice that lies inside [b] is unchanged when [b] grows. *)
Lemma slice_app_l {A} (b c : list A) lo n :
  0 <= lo → 0 <= n → lo + n <= len b → slice (b ++ c) lo n = slice b lo n.
Proof.
  rw /slice /len => ???. rw drop_app_le; [|lia].
  rw take_app_le //. rw length_drop. lia.
Qed.

(** The slice that starts where [b] ends is what was appended. *)
Lemma slice_app_r {A} (b c : list A) : slice (b ++ c) (len b) (len c) = c.
Proof. rw /slice /len !Nat2Z.id drop_app_length take_ge //. Qed.

Lemma slice_full {A} (b : list A) : slice b 0 (len b) = b.
Proof. rw /slice /len Nat2Z.id drop_0 take_ge //. Qed.

(** A slice of a slice. *)
Lemma slice_slice {A} (b : list A) lo n lo' n' :
  0 <= lo → 0 <= lo' → 0 <= n' → lo' + n' <= n →
  slice (slice b lo n) lo' n' = slice b (lo + lo') n'.
Proof.
  rw /slice => ????. rw skipn_firstn_comm drop_drop take_take.
  f_equal; [lia|]. f_equal. lia.
Qed.

Create HintDb fusey.
Create Rewrite HintDb len.
#[export] Hint Resolve len_nonneg i64_range : fusey.
#[export] Hint Rewrite @len_app @len_replicate : len.

(** [len_simp] normalises lengths and finishes with [lia]. *)
Ltac len_simp := autorewrite with len in *; try lia.

(** ** Outcomes

    A Go function that may return an error or panic. The state is returned
    with an error as well: a function that fails half way has already changed
    what it changed. A panic has no resulting state. *)

Inductive outcome (E S A : Type) : Type :=
| Ret (a : A) (s : S)
| Fail (e : E) (s : S)
| Crash.
Arguments Ret {E S A} a s.
Arguments Fail {E S A} e s.
Arguments Crash {E S A}.

Definition obind {E S A B} (m : outcome E S A) (k : A → S → outcome E S B) :
    outcome E S B :=
  match m with
  | Ret a s => k a s
  | Fail e s => Fail e s
  | Crash => Crash
  end.

Notation "'let!' x ',' s := m 'in' k" := (obind m (fun x s => k))
  (at level 10, x pattern, s name, m at level 100, k at level 200) : go_scope.

(** [ok m]: the call returns without an error. *)
Definition is_ret {E S A} (m : outcome E S A) : bool :=
  match m with Ret _ _ => true | _ => false end.

(** The state after the call, whether or not it failed. *)
Definition out_state {E S A} (m : outcome E S A) : option S :=
  match m with Ret _ s | Fail _ s => Some s | Crash => None end.

Lemma obind_ret_inv {E S A B} (m : outcome E S A) k (b : B) s :
  obind m k = Ret b s → ∃ a s', m = Ret a s' ∧ k a s' = Ret b s.
Proof. destruct m => //= ?. eauto. Qed.

(** ** Results without a state *)

Inductive res (E A : Type) : Type :=
| Ok (a : A)
| Err (e : E).
Arguments Ok {E A} a.
Arguments Err {E A} e.

Definition rbind {E A B} (m : res E A) (k : A → res E B) : res E B :=
  match m with Ok a => k a | Err e => Err e end.

Definition is_ok {E A} (m : res E A) : bool :=
  match m with Ok _ => true | Err _ => false end.

Notation "'let?' x := m 'in' k" := (rbind m (fun x => k))
  (at level 10, x pattern, m at level 100, k at level 200) : go_scope.

(** Mapping a fallible function over a list, stopping at the first error. *)
Fixpoint rmap {E A B} (f : A → res E B) (l : list A) : res E (list B) :=
  match l with
  | [] => Ok []
  | x :: l => let? y := f x in let? ys := rmap f l in Ok (y :: ys)
  end.

Lemma rmap_ok {E A B} (f : A → res E B) (g : A → B) l :
  (∀ x, x ∈ l → f x = Ok (g x)) → rmap f l = Ok (g <$> l).
Proof.
  elim: l => [//|x l IH] Hf /=. rw Hf; [|left].
  rw /= IH // => y ?. apply Hf. by right.
Qed.

Lemma rmap_err {E A B} (f : A → res E B) l x e :
  x ∈ l → f x = Err e → ∃ e', rmap f l = Err e'.
Proof.
  move=> Hin Hx. elim: l Hin => [|y l IH] Hin; [by apply not_elem_of_nil in Hin|].
  simpl. destruct (f y) eqn:Hy; [|by eauto].
  destruct (IH) as [e' He].
  - apply elem_of_cons in Hin as [->|?]; [congruence|done].
  - rw /= He. eauto.
Qed.

(** ** Sums over finite maps *)

Section map_count.
Context `{Countable K} {A : Type} `{EqDecision A}.
Implicit Types m : gmap K A.

(** How many keys of [m] have the value [c]. *)
Definition count_val (c : A) m : nat := size (filter (fun kv => kv.2 = c) m).

Lemma count_val_insert_fresh c m k v :
  m !! k = None →
  count_val c (<[k:=v]> m) = ((if decide (v = c) then 1 else 0) + count_val c m)%nat.
Proof.
  rw /count_val => Hk. case_decide as Hv.
  - rw map_filter_insert_True // map_size_insert_None //.
    apply map_lookup_filter_None. by left.
  - rw map_filter_insert_False // delete_id //.
Qed.

Lemma count_val_delete c m k v :
  m !! k = Some v →
  (count_val c m =
   (if decide (v = c) then 1 else 0) + count_val c (delete k m))%nat.
Proof.
  move=> Hk. rw -{1}(insert_delete_id m k v) //.
  rw count_val_insert_fresh // lookup_delete_eq //.
Qed.

Lemma count_val_empty c : count_val c (∅ : gmap K A) = 0%nat.
Proof. by rw /count_val map_filter_empty map_size_empty. Qed.

Lemma count_val_zero c m : count_val c m = 0%nat ↔ ∀ k, m !! k ≠ Some c.
Proof.
  rw /count_val map_size_empty_iff. split.
  - move=> He k Hk. assert (filter (fun kv => kv.2 = c) m !! k = Some c) as Hf.
    { by apply map_lookup_filter_Some. }
    rw He lookup_empty in Hf. done.
  - move=> Hn. apply map_eq => k. rw lookup_empty.
    apply map_lookup_filter_None. right => v Hv /= ?. subst. by eapply Hn.
Qed.
End map_count.
