(* ===== verification/Types.v ===== *)
(** Data of the index (src/internal/index/types.go): file types, inodes,
    extents, directory entries and snapshots, with the setters the operations
    of [Index] use and the mode and block arithmetic. *)
From S2P Require Import Prelude.

(** [FileType] is a [uint32] holding the type bits of the mode word. *)
Definition FileType : Type := Z.
Definition Regular : FileType := 0x8000.
Definition Directory : FileType := 0x4000.
Definition Symlink : FileType := 0xA000.
Definition BlockDev : FileType := 0x6000.
Definition CharDev : FileType := 0x2000.
Definition Fifo : FileType := 0x1000.
Definition Socket : FileType := 0xC000.

Module Inode.
Record t := mk {
  Ino : Z;
  FileType : FileType;
  Mode : Z;
  Nlink : Z;
  UID : Z;
  GID : Z;
  Size : Z;
  Atime : Z;
  Mtime : Z;
  Ctime : Z;
  Blksize : Z;
  Blocks : Z;
  Rdev : Z;
}.

Definition set_Mode v (n : t) : t :=
  mk (Ino n) (FileType n) v (Nlink n) (UID n) (GID n) (Size n) (Atime n)
     (Mtime n) (Ctime n) (Blksize n) (Blocks n) (Rdev n).
Definition set_Nlink v (n : t) : t :=
  mk (Ino n) (FileType n) (Mode n) v (UID n) (GID n) (Size n) (Atime n)
     (Mtime n) (Ctime n) (Blksize n) (Blocks n) (Rdev n).
Definition set_UID v (n : t) : t :=
  mk (Ino n) (FileType n) (Mode n) (Nlink n) v (GID n) (Size n) (Atime n)
     (Mtime n) (Ctime n) (Blksize n) (Blocks n) (Rdev n).
Definition set_GID v (n : t) : t :=
  mk (Ino n) (FileType n) (Mode n) (Nlink n) (UID n) v (Size n) (Atime n)
     (Mtime n) (Ctime n) (Blksize n) (Blocks n) (Rdev n).
Definition set_Size v (n : t) : t :=
  mk (Ino n) (FileType n) (Mode n) (Nlink n) (UID n) (GID n) v (Atime n)
     (Mtime n) (Ctime n) (Blksize n) (Blocks n) (Rdev n).
Definition set_Atime v (n : t) : t :=
  mk (Ino n) (FileType n) (Mode n) (Nlink n) (UID n) (GID n) (Size n) v
     (Mtime n) (Ctime n) (Blksize n) (Blocks n) (Rdev n).
Definition set_Mtime v (n : t) : t :=
  mk (Ino n) (FileType n) (Mode n) (Nlink n) (UID n) (GID n) (Size n) (Atime n)
     v (Ctime n) (Blksize n) (Blocks n) (Rdev n).
Definition set_Ctime v (n : t) : t :=
  mk (Ino n) (FileType n) (Mode n) (Nlink n) (UID n) (GID n) (Size n) (Atime n)
     (Mtime n) v (Blksize n) (Blocks n) (Rdev n).
Definition set_Blocks v (n : t) : t :=
  mk (Ino n) (FileType n) (Mode n) (Nlink n) (UID n) (GID n) (Size n) (Atime n)
     (Mtime n) (Ctime n) (Blksize n) v (Rdev n).

(** Go's zero value of the struct. *)
Definition zero : t := mk 0 0 0 0 0 0 0 0 0 0 0 0 0.

(** [n.FullMode()]. *)
Definition FullMode (n : t) : Z := Z.lor (FileType n) (Mode n).
End Inode.

#[global] Instance Inode_eq_dec : EqDecision Inode.t.
Proof. solve_decision. Defined.

Module Extent.
Record t := mk {
  ChunkID : string;
  ChunkOffset : Z;
  Length : Z;
  FileOffset : Z;
}.

Definition set_Length v (e : t) : t :=
  mk (ChunkID e) (ChunkOffset e) v (FileOffset e).

(** Go's zero value of the struct. *)
Definition zero : t := mk "" 0 0 0.
End Extent.

#[global] Instance Extent_eq_dec : EqDecision Extent.t.
Proof. solve_decision. Defined.

Module DirEntry.
Record t := mk { ParentIno : Z; Name : string; ChildIno : Z }.
End DirEntry.

#[global] Instance DirEntry_eq_dec : EqDecision DirEntry.t.
Proof. solve_decision. Defined.

Module Snapshot.
Record t := mk {
  Inodes : gmap Z Inode.t;
  DirEntries : list DirEntry.t;
  ExtentMap : gmap Z (list Extent.t);
  SymlinkTargets : gmap Z string;
  Xattrs : gmap Z (gmap string string);
  NextIno : Z;
}.
End Snapshot.

(** The number of 512-byte blocks needed to hold [size] bytes. *)
Definition blocks512 (size : Z) : Z := go_div (size +! 511) 512.

(** The permission bits of a mode word never meet the type bits. *)
Definition perm_mode (m : Z) : Prop := 0 <= m < 2 ^ 12.

Lemma FullMode_type (n : Inode.t) :
  perm_mode (Inode.Mode n) →
  Inode.FileType n ∈ [Regular; Directory; Symlink; BlockDev; CharDev; Fifo; Socket] →
  Z.land (Inode.FullMode n) 0xF000 = Inode.FileType n ∧
  Z.land (Inode.FullMode n) 0xFFF = Inode.Mode n.
Proof.
  rw /perm_mode /Inode.FullMode => Hm Hft.
  assert (Z.land (Inode.Mode n) (Z.ones 12) = Inode.Mode n) as Hlow.
  { rw Z.land_ones; [|lia]. rw Z.mod_small; lia. }
  assert (Z.land (Inode.Mode n) 0xF000 = 0) as Hhigh.
  { rw -Hlow -Z.land_assoc. by rw (_ : Z.land (Z.ones 12) 0xF000 = 0) // Z.land_0_r. }
  change 0xFFF with (Z.ones 12).
  rw !Z.land_lor_distr_l Hlow Hhigh Z.lor_0_r.
  revert Hft. rw !elem_of_cons elem_of_nil.
  by move=> [->|[->|[->|[->|[->|[->|[->|[]]]]]]]].
Qed.

(** [blocks512] is the rounded-up quotient on every size that fits. *)
Lemma blocks512_spec size :
  0 <= size <= int64_max - 511 →
  (blocks512 size - 1) * 512 < size <= blocks512 size * 512.
Proof.
  rw /blocks512 /go_div => ?. i64_simp.
  rw Z.quot_div_nonneg; [|lia|lia].
  pose proof (Z.div_mod (size + 511) 512). pose proof (Z.mod_pos_bound (size + 511) 512).
  lia.
Qed.
