(* ===== verification/Extents.v ===== *)
(** Extent lists: the loops of [WriteExtent] and [trimExtents]
    (src/internal/index/index.go) and what they do to the mapping from file
    offsets to chunk bytes.

    [WriteExtent] filters [idx.extents[ino]] in place: [surviving] starts as
    [idx.extents[ino][:0]] and so shares the backing array that the [range]
    loop reads. The loop is modelled with that array explicit, its spare
    capacity included; [write_extents_spare] shows that the result does not
    depend on the spare capacity, [write_extents_correct] that it is the
    intended list whenever no extent but the last one strictly contains the
    written range, and [write_extents_inner_split] what it is otherwise. *)
From S2P Require Import Prelude Types.

(** ** What one extent covers *)

Definition eEnd (e : Extent.t) : Z := Extent.FileOffset e +! Extent.Length e.

(** Offsets and lengths are non-negative and their sums fit in [int64]. *)
Definition wf_extent (e : Extent.t) : Prop :=
  0 <= Extent.ChunkOffset e ∧ 0 <= Extent.Length e ∧ 0 <= Extent.FileOffset e ∧
  Extent.FileOffset e + Extent.Length e <= int64_max ∧
  Extent.ChunkOffset e + Extent.Length e <= int64_max.

Definition covers (e : Extent.t) (o : Z) : Prop :=
  Extent.FileOffset e <= o < Extent.FileOffset e + Extent.Length e.

#[global] Instance covers_dec e o : Decision (covers e o).
Proof. rw /covers. apply _. Defined.

(** Where byte [o] of the file is stored, according to [e]. *)
Definition point (e : Extent.t) (o : Z) : option (string * Z) :=
  if decide (covers e o)
  then Some (Extent.ChunkID e, Extent.ChunkOffset e + (o - Extent.FileOffset e))
  else None.

(** Where byte [o] of a file with these extents is stored. A later extent of
    the list wins, as it does in [FileHandle.Read]. *)
Fixpoint locate (exts : list Extent.t) (o : Z) : option (string * Z) :=
  match exts with
  | [] => None
  | e :: exts =>
      match locate exts o with Some r => Some r | None => point e o end
  end.

Definition disjoint_extents (e1 e2 : Extent.t) : Prop :=
  ∀ o, covers e1 o → covers e2 o → False.

(** ** The loop of WriteExtent *)

(** The entries that the body of the loop appends for one extent, when
    [off, end_) is written. *)
Definition survivors (off end_ : Z) (e : Extent.t) : list Extent.t :=
  if (eEnd e <=? off) || (Extent.FileOffset e >=? end_) then [e]
  else
    (if Extent.FileOffset e <? off
     then [Extent.mk (Extent.ChunkID e) (Extent.ChunkOffset e)
                     (off -! Extent.FileOffset e) (Extent.FileOffset e)]
     else []) ++
    (if eEnd e >? end_
     then [Extent.mk (Extent.ChunkID e)
                     (Extent.ChunkOffset e +! (end_ -! Extent.FileOffset e))
                     (eEnd e -! end_) end_]
     else []).

(** The slice [surviving]: the first [k] slots of the array that the loop
    reads, or, once an [append] has run out of capacity, an array of its own. *)
Inductive surviving := Shared (k : nat) | Own (l : list Extent.t).

(** The array behind [idx.extents[ino]] (as long as its capacity) and
    [surviving]. *)
Definition wstate : Type := list Extent.t * surviving.

Definition contents (st : wstate) : list Extent.t :=
  match st.2 with Shared k => take k st.1 | Own l => l end.

(** [surviving = append(surviving, x)]. *)
Definition append1 (st : wstate) (x : Extent.t) : wstate :=
  match st.2 with
  | Shared k =>
      if decide (k < length st.1)%nat
      then (<[k:=x]> st.1, Shared (S k))
      else (st.1, Own (take k st.1 ++ [x]))
  | Own l => (st.1, Own (l ++ [x]))
  end.

(** [for _, e := range idx.extents[ino]] from slot [i] on, [n] more rounds:
    each round reads its slot of the array as it is at that time. *)
Fixpoint write_loop (off end_ : Z) (i n : nat) (st : wstate) : wstate :=
  match n with
  | O => st
  | S n =>
      match st.1 !! i with
      | None => st
      | Some e =>
          write_loop off end_ (S i) n (foldl append1 st (survivors off end_ e))
      end
  end.

(** The extent list that [WriteExtent] stores; [spare] are the slots of the
    backing array beyond the length of the slice. *)
Definition write_extents (spare exts : list Extent.t) (ext : Extent.t) : list Extent.t :=
  let off := Extent.FileOffset ext in
  let end_ := off +! Extent.Length ext in
  contents (append1
    (write_loop off end_ 0 (length exts) (exts ++ spare, Shared 0)) ext).

(** The intended result: the parts outside the written range, then the new
    extent. *)
Definition write_spec (exts : list Extent.t) (ext : Extent.t) : list Extent.t :=
  flat_map (survivors (Extent.FileOffset ext) (eEnd ext)) exts ++ [ext].

(** [e] reaches beyond both ends of the written range, so that the loop
    appends two entries for it. *)
Definition splits (off end_ : Z) (e : Extent.t) : bool :=
  (Extent.FileOffset e <? off) && (eEnd e >? end_).

(** No extent but the last one is split. *)
Fixpoint no_inner_split (off end_ : Z) (exts : list Extent.t) : bool :=
  match exts with
  | [] => true
  | [_] => true
  | e :: exts => negb (splits off end_ e) && no_inner_split off end_ exts
  end.

(** ** trimExtents *)

Fixpoint trim_extents (newSize : Z) (exts : list Extent.t) : list Extent.t :=
  match exts with
  | [] => []
  | e :: exts =>
      if Extent.FileOffset e >=? newSize then trim_extents newSize exts
      else
        (if eEnd e >? newSize
         then Extent.set_Length (newSize -! Extent.FileOffset e) e else e)
        :: trim_extents newSize exts
  end.

(** ** Lemmas *)

Lemma locate_app l k o :
  locate (l ++ k) o = match locate k o with Some r => Some r | None => locate l o end.
Proof.
  elim: l => [|e l IH] /=; [by destruct (locate k o)|].
  rw IH. by destruct (locate k o).
Qed.

Lemma locate_None l o : locate l o = None ↔ ∀ e, e ∈ l → ¬ covers e o.
Proof.
  elim: l => [|e l IH] /=; [split; [set_solver|done]|].
  rw /point. destruct (locate l o) eqn:Hl.
  - split; [done|]. move=> Hc.
    assert (Some p = None) by (apply IH => e' ?; apply Hc; by right). done.
  - case_decide; split => //.
    + move=> Hc. exfalso. by eapply Hc; [left|].
    + intros _ e' [->|?]%elem_of_cons; [done|]. by apply IH.
Qed.

Lemma eEnd_wf e : wf_extent e → eEnd e = Extent.FileOffset e + Extent.Length e.
Proof. rw /wf_extent /eEnd => ?. by i64_simp. Qed.

(** [zcases] splits the integer comparisons of the loop bodies. *)
Ltac zcases :=
  repeat match goal with
  | |- context [(?a <=? ?b)%Z] => destruct (Z.leb_spec a b)
  | |- context [(?a <? ?b)%Z] => destruct (Z.ltb_spec a b)
  | |- context [(?a >=? ?b)%Z] => rw (Z.geb_leb a b)
  | |- context [(?a >? ?b)%Z] => rw (Z.gtb_ltb a b)
  end; simpl.

(** What the entries appended for one extent say about an offset. *)
Lemma locate_survivors off end_ e o :
  wf_extent e → 0 <= off <= end_ → end_ <= int64_max →
  locate (survivors off end_ e) o =
  if decide (off <= o < end_) then None else point e o.
Proof.
  move=> Hwf Hoe Hmax. rw /survivors (eEnd_wf _ Hwf).
  destruct Hwf as (?&?&?&?&?).
  zcases; i64_simp; rw /point /covers /=; repeat case_decide; try lia; try done;
    do 2 f_equal; lia.
Qed.

Lemma locate_flat_survivors off end_ exts o :
  Forall wf_extent exts → 0 <= off <= end_ → end_ <= int64_max →
  locate (flat_map (survivors off end_) exts) o =
  if decide (off <= o < end_) then None else locate exts o.
Proof.
  move=> Hwf ??. elim: Hwf => [|e l He _ IH] /=; [by case_decide|].
  rw locate_app IH locate_survivors //. by case_decide.
Qed.

Lemma survivors_wf off end_ e :
  wf_extent e → 0 <= off <= end_ → end_ <= int64_max →
  Forall wf_extent (survivors off end_ e).
Proof.
  move=> Hwf Hoe Hmax. rw /survivors (eEnd_wf _ Hwf). move: (Hwf) => [?[?[?[??]]]].
  zcases; i64_simp; repeat constructor; rw /wf_extent /=; try lia; try done.
Qed.

(** *** The intended list *)

(** The intended list maps the written range to the new extent and every
    other offset to where it was. *)
Lemma locate_write_spec exts ext o :
  Forall wf_extent exts → wf_extent ext →
  locate (write_spec exts ext) o =
  if decide (covers ext o) then point ext o else locate exts o.
Proof.
  move=> Hwf He. rw /write_spec locate_app /=.
  rw locate_flat_survivors //.
  2,3: rw ?(eEnd_wf _ He); destruct He; lia.
  rw (eEnd_wf _ He) /point /covers. repeat case_decide; done || lia.
Qed.

Lemma write_spec_wf exts ext :
  Forall wf_extent exts → wf_extent ext → Forall wf_extent (write_spec exts ext).
Proof.
  move=> Hwf He. rw /write_spec. apply Forall_app; split; [|by constructor].
  elim: Hwf => [|e l ? _ IH] //=. apply Forall_app; split; [|done].
  apply survivors_wf => //; rw (eEnd_wf _ He); destruct He; lia.
Qed.

(** *** The in-place loop *)

(** [surviving] never points beyond the array it shares. *)
Definition wf_wstate (st : wstate) : Prop :=
  match st.2 with Shared k => (k <= length st.1)%nat | Own _ => True end.

Lemma append1_wf st x : wf_wstate st → wf_wstate (append1 st x).
Proof.
  destruct st as [arr [k|l]]; rw /wf_wstate /append1 /= => // ?.
  case_decide; rw /= ?length_insert //; lia.
Qed.

Lemma contents_append1 st x :
  wf_wstate st → contents (append1 st x) = contents st ++ [x].
Proof.
  destruct st as [arr [k|l]]; rw /wf_wstate /contents /append1 //= => ?.
  case_decide => //=.
  rw (take_S_r _ _ x); [|by apply list_lookup_insert_eq].
  by rw take_insert_ge.
Qed.

(** An append writes at most the slot just after the current contents. *)
Lemma append1_slot st x j :
  wf_wstate st → j ≠ length (contents st) → (append1 st x).1 !! j = st.1 !! j.
Proof.
  destruct st as [arr [k|l]]; rw /wf_wstate /contents /append1 //= => ?.
  rw length_take => ?. case_decide => //=.
  rw list_lookup_insert_ne //. lia.
Qed.

Lemma foldl_append1_wf xs st : wf_wstate st → wf_wstate (foldl append1 st xs).
Proof. elim: xs st => [//|x xs IH] st ? /=. by apply IH, append1_wf. Qed.

Lemma contents_foldl_append1 xs st :
  wf_wstate st → contents (foldl append1 st xs) = contents st ++ xs.
Proof.
  elim: xs st => [|x xs IH] st ? /=; [by rw app_nil_r|].
  rw IH; [|by apply append1_wf]. by rw contents_append1 // -app_assoc.
Qed.

Lemma foldl_append1_slot xs st j :
  wf_wstate st → (length (contents st) + length xs <= j)%nat →
  (foldl append1 st xs).1 !! j = st.1 !! j.
Proof.
  elim: xs st => [//|x xs IH] st ? /= ?. rw IH; [|by apply append1_wf|].
  - apply append1_slot; [done|lia].
  - rw contents_append1 // length_app /=. lia.
Qed.

Lemma write_loop_wf off end_ n i st :
  wf_wstate st → wf_wstate (write_loop off end_ i n st).
Proof.
  elim: n i st => [//|n IH] i st ? /=. destruct (st.1 !! i) => //.
  by apply IH, foldl_append1_wf.
Qed.

(** As long as every round finds its slot unwritten, the loop computes the
    concatenation of the entries. *)
Lemma write_loop_correct off end_ rest i st :
  wf_wstate st →
  (∀ j e, rest !! j = Some e → st.1 !! (i + j)%nat = Some e) →
  (∀ m, (0 < m < length rest)%nat →
     (length (contents st) + length (flat_map (survivors off end_) (take m rest))
      <= i + m)%nat) →
  contents (write_loop off end_ i (length rest) st) =
  contents st ++ flat_map (survivors off end_) rest.
Proof.
  elim: rest i st => [|e rest IH] i st Hwf Hslot Hroom; [by rw /= app_nil_r|].
  pose proof (Hslot 0%nat e eq_refl) as Hi. rw Nat.add_0_r in Hi.
  rw /= Hi IH.
  - rw contents_foldl_append1 // -app_assoc //.
  - by apply foldl_append1_wf.
  - move=> j e' Hj. rw foldl_append1_slot //.
    + move: (Hslot (S j) e' Hj). by rw Nat.add_succ_r.
    + apply lookup_lt_Some in Hj. pose proof (Hroom 1%nat) as H1.
      rw /= app_nil_r in H1. lia.
  - move=> m Hm. rw contents_foldl_append1 // length_app.
    pose proof (Hroom (S m)) as HS. rw /= length_app in HS. lia.
Qed.

Lemma survivors_length off end_ e :
  (length (survivors off end_ e) <= if splits off end_ e then 2 else 1)%nat.
Proof.
  rw /survivors /splits. rw !Z.gtb_ltb !Z.geb_leb.
  destruct (eEnd e <=? off), (end_ <=? Extent.FileOffset e),
    (Extent.FileOffset e <? off), (end_ <? eEnd e); simpl; lia.
Qed.

Lemma no_inner_split_room off end_ exts m :
  no_inner_split off end_ exts = true → (m < length exts)%nat →
  (length (flat_map (survivors off end_) (take m exts)) <= m)%nat.
Proof.
  elim: exts m => [|e exts IH] [|m] //= Hns Hm; try lia.
  destruct exts as [|e' exts]; [simpl in *; lia|].
  apply andb_true_iff in Hns as [He Hns].
  rw length_app. pose proof (survivors_length off end_ e) as Hl.
  apply negb_true_iff in He. rw He in Hl.
  specialize (IH m Hns). simpl in *. lia.
Qed.

(** The in-place loop computes the intended list unless it splits an extent
    that is not the last. *)
Lemma write_extents_correct spare exts ext :
  no_inner_split (Extent.FileOffset ext) (eEnd ext) exts = true →
  write_extents spare exts ext = write_spec exts ext.
Proof.
  move=> Hns. rw /write_extents /write_spec -/(eEnd ext).
  assert (wf_wstate (exts ++ spare, Shared 0)) as Hwf by (rw /wf_wstate /=; lia).
  rw contents_append1; [|by apply write_loop_wf]. f_equal.
  rw write_loop_correct //.
  - move=> j e Hj /=. by apply lookup_app_l_Some.
  - move=> m Hm. rw {1}/contents /=. apply no_inner_split_room; [done|lia].
Qed.

(** *** Splitting an extent that is not the last *)

(** Once the tail of a split extent has overwritten the next slot, every
    remaining round reads that tail and appends it again. *)
Lemma write_loop_repeats off end_ t n i arr k :
  survivors off end_ t = [t] → arr !! i = Some t → k = S i →
  (i + n <= length arr)%nat →
  contents (write_loop off end_ i n (arr, Shared k)) = take k arr ++ replicate n t.
Proof.
  move=> Ht. elim: n i arr k => [|n IH] i arr k Hi -> Hn; [by rw /= app_nil_r|].
  rw /= Hi Ht /= {1}/append1 /=. case_decide as Hk.
  - rw IH //; [|by apply list_lookup_insert_eq|rw length_insert; lia].
    rw (take_S_r _ _ t); [|by apply list_lookup_insert_eq].
    by rw take_insert_ge // -app_assoc.
  - assert (n = 0%nat) as -> by lia. done.
Qed.

Lemma write_loop_app off end_ pre i n st :
  (∀ e, e ∈ pre → survivors off end_ e = [e]) →
  (∀ j e, pre !! j = Some e → st.1 !! (i + j)%nat = Some e) →
  wf_wstate st → contents st = take i st.1 → (∃ k, st.2 = Shared k) →
  (i + length pre <= length st.1)%nat → i = length (contents st) →
  write_loop off end_ i (length pre + n) st =
  write_loop off end_ (i + length pre) n (st.1, Shared (i + length pre)).
Proof.
  elim: pre i st => [|e pre IH] i [arr s] Hs Hslot Hwf Hc [k /= Hk] Hlen Hi; subst s.
  - rw /contents /= in Hi. rw length_take in Hi. rw /wf_wstate /= in Hwf.
    rw /= Nat.add_0_r. by replace k with i by lia.
  - pose proof (Hslot 0%nat e eq_refl) as He. rw Nat.add_0_r /= in He.
    simpl in Hlen. rw /contents /= length_take in Hi. rw /wf_wstate /= in Hwf.
    assert (k = i) as -> by lia.
    rw /= He Hs; [|by left]. rw /= {1}/append1 /=. case_decide; [|lia].
    rw (list_insert_id arr i e) //.
    rw IH /=; [by rw Nat.add_succ_r| | |rw /wf_wstate /=; lia|done|by eauto|lia|].
    + move=> e' ?. apply Hs. by right.
    + move=> j e' Hj. move: (Hslot (S j) e' Hj). by rw Nat.add_succ_r.
    + rw /contents /= length_take. lia.
Qed.

(** The head and the tail of [e] around the written range. *)
Definition head_of (off : Z) (e : Extent.t) : Extent.t :=
  Extent.mk (Extent.ChunkID e) (Extent.ChunkOffset e)
            (off -! Extent.FileOffset e) (Extent.FileOffset e).
Definition tail_of (end_ : Z) (e : Extent.t) : Extent.t :=
  Extent.mk (Extent.ChunkID e)
            (Extent.ChunkOffset e +! (end_ -! Extent.FileOffset e))
            (eEnd e -! end_) end_.

Lemma survivors_split off end_ e :
  off <= end_ → splits off end_ e = true →
  survivors off end_ e = [head_of off e; tail_of end_ e].
Proof.
  rw /splits /survivors !Z.gtb_ltb => ? /andb_true_iff [/Z.ltb_lt ? /Z.ltb_lt ?].
  rw Z.geb_leb. destruct (Z.leb_spec (eEnd e) off); [lia|].
  destruct (Z.leb_spec end_ (Extent.FileOffset e)); [lia|]. simpl.
  destruct (Z.ltb_spec (Extent.FileOffset e) off); [|lia].
  by destruct (Z.ltb_spec end_ (eEnd e)); [|lia].
Qed.

Lemma survivors_outside off end_ e :
  eEnd e <= off ∨ end_ <= Extent.FileOffset e → survivors off end_ e = [e].
Proof.
  rw /survivors Z.geb_leb. move=> [/Z.leb_le ->|/Z.leb_le ->] //. by rw orb_true_r.
Qed.

(** When an extent that is not the last is split and the others are outside
    the written range, every extent after the split one is replaced by a copy
    of the split extent's tail. *)
Lemma write_extents_inner_split spare pre x post ext :
  let off := Extent.FileOffset ext in
  let end_ := eEnd ext in
  off <= end_ → splits off end_ x = true →
  (∀ e, e ∈ pre → eEnd e <= off ∨ end_ <= Extent.FileOffset e) →
  (0 < length post)%nat →
  write_extents spare (pre ++ x :: post) ext =
  pre ++ [head_of off x] ++ replicate (S (length post)) (tail_of end_ x) ++ [ext].
Proof.
  move=> off end_ Hoe Hx Hpre Hpost. rw /write_extents -/(eEnd ext) -/off -/end_.
  set arr := (pre ++ x :: post) ++ spare.
  assert (arr !! length pre = Some x) as Hax.
  { rw /arr -app_assoc. by apply list_lookup_middle. }
  rw length_app (write_loop_app _ _ pre 0 _ (arr, Shared 0)) //=.
  2: { move=> e ?. by apply survivors_outside, Hpre. }
  2: { move=> j e Hj. rw /arr -app_assoc. by apply lookup_app_l_Some. }
  2: { rw /wf_wstate /=. lia. }
  2: { by eauto. }
  2: { rw /arr !length_app. lia. }
  rw Hax survivors_split //=. set h := head_of off x. set t := tail_of end_ x.
  assert (length pre < length arr)%nat by (by apply lookup_lt_Some in Hax).
  assert (S (length pre + length post) <= length arr)%nat.
  { rw /arr !length_app /=. lia. }
  rw {3}/append1 /=. case_decide; [|lia].
  rw {2}/append1 /= length_insert. case_decide; [|lia].
  rw contents_append1.
  2: { apply write_loop_wf. rw /wf_wstate /= !length_insert. lia. }
  rw (write_loop_repeats _ _ t) //.
  - rw (take_S_r _ _ t); [|apply list_lookup_insert_eq; rw length_insert; lia].
    rw take_insert_ge // (take_S_r _ _ h); [|by apply list_lookup_insert_eq].
    rw take_insert_ge //.
    rw (_ : take (length pre) arr = pre) ?{1}/arr -?app_assoc ?take_app_length //.
  - apply survivors_outside. right. rw /t /tail_of /=. lia.
  - apply list_lookup_insert_eq. rw length_insert. lia.
  - rw !length_insert. lia.
Qed.

(** The bytes that only the extents after the split one stored are gone. *)
Lemma locate_inner_split spare pre x post ext o :
  wf_extent x → wf_extent ext → Forall wf_extent post →
  splits (Extent.FileOffset ext) (eEnd ext) x = true →
  (∀ e, e ∈ pre ++ post → disjoint_extents x e) →
  (∀ e e', e ∈ pre → e' ∈ post → disjoint_extents e e') →
  Forall wf_extent pre → (∀ e, e ∈ pre → 0 < Extent.Length e) →
  (∃ e, e ∈ post ∧ covers e o) →
  locate (write_extents spare (pre ++ x :: post) ext) o = None.
Proof.
  move=> Hx He Hpost Hs Hd Hd' Hpre Hpl [y [Hy Hyo]].
  move: (Hs). rw /splits Z.gtb_ltb (eEnd_wf _ Hx) (eEnd_wf _ He) =>
    /andb_true_iff [/Z.ltb_lt ? /Z.ltb_lt ?].
  destruct (He) as (?&?&?&?&?). destruct (Hx) as (?&?&?&?&?).
  assert (¬ covers x o) as Hxo.
  { move=> ?. eapply (Hd y) => //. set_solver. }
  rw write_extents_inner_split //.
  - apply locate_None => e. rw !elem_of_app list_elem_of_singleton elem_of_replicate.
    rw /covers in Hxo Hyo *.
    move=> [Hin|[->|[[-> _]|/list_elem_of_singleton ->]]] /=; rw ?(eEnd_wf _ Hx) ?(eEnd_wf _ He).
    + move=> ?. by eapply (Hd' e y).
    + i64_simp. lia.
    + i64_simp. lia.
    + lia.
  - rw (eEnd_wf _ He). lia.
  - move=> e Hin. rw Forall_forall in Hpre. pose proof (Hpre e Hin) as Hwe.
    rw (eEnd_wf _ Hwe) (eEnd_wf _ He).
    destruct (decide (Extent.FileOffset e + Extent.Length e <= Extent.FileOffset ext)); [by left|].
    destruct (decide (Extent.FileOffset ext + Extent.Length ext <= Extent.FileOffset e)); [by right|].
    exfalso. apply (Hd e ltac:(set_solver)
      (Z.max (Extent.FileOffset e) (Extent.FileOffset x))); rw /covers.
    + destruct Hwe. specialize (Hpl e Hin). lia.
    + specialize (Hpl e Hin). lia.
  - destruct post; [set_solver|simpl; lia].
Qed.

(** *** The spare capacity does not matter *)

(** Two runs over arrays that agree on the first [n] slots. [surviving] gets
    an array of its own only after those slots are all written. *)
Definition wsim (n : nat) (st1 st2 : wstate) : Prop :=
  wf_wstate st1 ∧ wf_wstate st2 ∧ contents st1 = contents st2 ∧
  (n <= length st1.1)%nat ∧ (n <= length st2.1)%nat ∧
  (∀ j, (j < n)%nat → st1.1 !! j = st2.1 !! j) ∧
  ((length (contents st1) < n)%nat →
     (∃ k, st1.2 = Shared k) ∧ (∃ k, st2.2 = Shared k)).

Lemma append1_slot_shared st x k :
  st.2 = Shared k → (k < length st.1)%nat →
  append1 st x = (<[k:=x]> st.1, Shared (S k)).
Proof. rw /append1 => -> ?. by case_decide. Qed.

Lemma append1_length st x : length (append1 st x).1 = length st.1.
Proof.
  destruct st as [arr [k|l]]; rw /append1 //=. case_decide => //=.
  by rw length_insert.
Qed.

Lemma append1_wsim n st1 st2 x : wsim n st1 st2 → wsim n (append1 st1 x) (append1 st2 x).
Proof.
  move=> [Hw1 [Hw2 [Hc [Hl1 [Hl2 [Hj Hs]]]]]]. rw /wsim !append1_length.
  split_and!; try done; try by apply append1_wf.
  - by rw !contents_append1 // Hc.
  - destruct (decide (length (contents st1) < n)%nat) as [Hlt|Hge].
    + destruct (Hs Hlt) as [[k1 E1] [k2 E2]].
      assert (k1 = length (contents st1) ∧ k2 = length (contents st2)) as [-> ->].
      { rw /contents E1 E2 !length_take. rw /wf_wstate E1 in Hw1.
        rw /wf_wstate E2 in Hw2. lia. }
      rw -Hc in E2. move=> j Hjn.
      rw (append1_slot_shared _ _ _ E1) ?(append1_slot_shared _ _ _ E2) /=; [|lia..].
      destruct (decide (j = length (contents st1))) as [->|].
      * rw !list_lookup_insert_eq //; lia.
      * rw !list_lookup_insert_ne //. by apply Hj.
    + move=> j Hjn. rw !append1_slot //; [by apply Hj|rw -Hc; lia|lia].
  - rw contents_append1 // length_app /= => Hlt.
    destruct Hs as [[k1 E1] [k2 E2]]; [lia|].
    assert (k1 = length (contents st1) ∧ k2 = length (contents st2)) as [-> ->].
    { rw /contents E1 E2 !length_take. rw /wf_wstate E1 in Hw1.
      rw /wf_wstate E2 in Hw2. lia. }
    rw -Hc in E2.
    rw (append1_slot_shared _ _ _ E1) ?(append1_slot_shared _ _ _ E2) /=; [|lia..]. eauto.
Qed.

Lemma foldl_append1_wsim n xs st1 st2 :
  wsim n st1 st2 → wsim n (foldl append1 st1 xs) (foldl append1 st2 xs).
Proof. elim: xs st1 st2 => [//|x xs IH] st1 st2 ? /=. by apply IH, append1_wsim. Qed.

Lemma write_loop_wsim off end_ n m i st1 st2 :
  wsim n st1 st2 → (i + m <= n)%nat →
  wsim n (write_loop off end_ i m st1) (write_loop off end_ i m st2).
Proof.
  elim: m i st1 st2 => [//|m IH] i st1 st2 Hsim Hm /=.
  pose proof Hsim as (_&_&_&?&?&Hj&_). rw -Hj; [|lia].
  destruct (lookup_lt_is_Some_2 st1.1 i) as [e ->]; [lia|].
  apply IH; [|lia]. by apply foldl_append1_wsim.
Qed.

(** The stored list is the same whatever spare capacity the slice has. *)
Lemma write_extents_spare spare exts ext :
  write_extents spare exts ext = write_extents [] exts ext.
Proof.
  rw /write_extents.
  eapply (append1_wsim (length exts)), write_loop_wsim; [|lia].
  rw /wsim /wf_wstate /contents /= !length_app. split_and!; try lia; [done| |eauto].
  move=> j ?. by rw !lookup_app_l.
Qed.

(** *** trimExtents *)

Lemma locate_trim newSize exts o :
  Forall wf_extent exts → is_i64 newSize →
  locate (trim_extents newSize exts) o =
  if decide (o < newSize) then locate exts o else None.
Proof.
  rw /is_i64 => Hwf Hn. elim: Hwf => [|e l He _ IH] /=; [by case_decide|].
  destruct (Z.geb_spec (Extent.FileOffset e) newSize) as [Hge|Hlt].
  - rw IH. case_decide; [|done]. destruct (locate l o); [done|].
    rw /point /covers. case_decide; [lia|done].
  - rw /= IH. case_decide as Ho.
    + destruct (locate l o); [done|]. rw (eEnd_wf _ He) Z.gtb_ltb.
      destruct (Z.ltb_spec newSize (Extent.FileOffset e + Extent.Length e)); [|done].
      destruct He as (?&?&?&?&?). rw /point /covers /=. i64_simp.
      by repeat case_decide; try lia.
    + rw (eEnd_wf _ He) Z.gtb_ltb. destruct He as (?&?&?&?&?).
      destruct (Z.ltb_spec newSize (Extent.FileOffset e + Extent.Length e));
        rw /point /covers /=; i64_simp; by repeat case_decide; try lia.
Qed.

Lemma trim_wf newSize exts :
  Forall wf_extent exts → is_i64 newSize → Forall wf_extent (trim_extents newSize exts).
Proof.
  rw /is_i64 => Hwf Hn. elim: Hwf => [//|e l He _ IH] /=.
  destruct (Z.geb_spec (Extent.FileOffset e) newSize); [done|].
  constructor; [|done]. rw (eEnd_wf _ He) Z.gtb_ltb.
  destruct (Z.ltb_spec newSize (Extent.FileOffset e + Extent.Length e)); [|done].
  destruct He as (?&?&?&?&?). rw /wf_extent /=. i64_simp. lia.
Qed.

(** After trimming nothing reaches beyond the new size. *)
Lemma trim_bounded newSize exts :
  Forall wf_extent exts → is_i64 newSize →
  Forall (fun e => eEnd e <= newSize) (trim_extents newSize exts).
Proof.
  rw /is_i64 => Hwf Hn. elim: Hwf => [//|e l He _ IH] /=.
  destruct (Z.geb_spec (Extent.FileOffset e) newSize); [done|].
  constructor; [|done]. rw (eEnd_wf _ He) Z.gtb_ltb.
  destruct (Z.ltb_spec newSize (Extent.FileOffset e + Extent.Length e)).
  - destruct He as (?&?&?&?&?). rw /eEnd /=. i64_simp. lia.
  - by rw (eEnd_wf _ He).
Qed.

(** *** Extents of one file do not overlap *)

(** How many extents of the list cover an offset. *)
Definition cover_count (exts : list Extent.t) (o : Z) : nat :=
  length (filter (fun e => covers e o) exts).

Definition non_overlapping (exts : list Extent.t) : Prop :=
  ∀ o, (cover_count exts o <= 1)%nat.

Lemma cover_count_app l k o :
  cover_count (l ++ k) o = (cover_count l o + cover_count k o)%nat.
Proof. by rw /cover_count filter_app length_app. Qed.

Lemma cover_count_one e o : cover_count [e] o = if decide (covers e o) then 1%nat else 0%nat.
Proof. rw /cover_count filter_cons. by case_decide. Qed.

Lemma cover_count_survivors off end_ e o :
  wf_extent e → 0 <= off <= end_ → end_ <= int64_max →
  cover_count (survivors off end_ e) o =
  if decide (off <= o < end_) then 0%nat else cover_count [e] o.
Proof.
  move=> Hwf Hoe Hmax. rw cover_count_one /survivors (eEnd_wf _ Hwf).
  destruct Hwf as (?&?&?&?&?).
  zcases; i64_simp; rw ?cover_count_one /cover_count ?filter_cons /covers /=;
    repeat case_decide; try lia; done.
Qed.

Lemma write_spec_cover_count exts ext o :
  Forall wf_extent exts → wf_extent ext →
  cover_count (write_spec exts ext) o =
  if decide (covers ext o) then 1%nat else cover_count exts o.
Proof.
  move=> Hwf He. rw /write_spec cover_count_app cover_count_one.
  assert (cover_count (flat_map (survivors (Extent.FileOffset ext) (eEnd ext)) exts) o =
    if decide (covers ext o) then 0%nat else cover_count exts o) as ->.
  { elim: Hwf => [|e l Hw _ IH] /=; [by case_decide|].
    rw cover_count_app IH cover_count_survivors // ?(eEnd_wf _ He).
    - rw /covers (cover_count_app [e] l). by repeat case_decide.
    - destruct He; lia.
    - destruct He; lia. }
  case_decide; lia.
Qed.

Lemma write_spec_non_overlapping exts ext :
  Forall wf_extent exts → wf_extent ext → non_overlapping exts →
  non_overlapping (write_spec exts ext).
Proof.
  move=> ?? Hn o. rw write_spec_cover_count //. case_decide; [lia|]. apply Hn.
Qed.

Lemma trim_cover_count newSize exts o :
  Forall wf_extent exts → is_i64 newSize →
  (cover_count (trim_extents newSize exts) o <= cover_count exts o)%nat.
Proof.
  rw /is_i64 => Hwf Hn. elim: Hwf => [//|e l He _ IH] /=.
  rw (cover_count_app [e] l).
  destruct (Z.geb_spec (Extent.FileOffset e) newSize); [lia|].
  rw (cover_count_app [_] (trim_extents _ _)) (eEnd_wf _ He) Z.gtb_ltb !cover_count_one.
  destruct (Z.ltb_spec newSize (Extent.FileOffset e + Extent.Length e)); [|lia].
  destruct He as (?&?&?&?&?). rw /covers /=. i64_simp.
  repeat case_decide; lia.
Qed.
