(* ===== verification/Index.v ===== *)
(** The in-memory index (src/internal/index/index.go): its state and every
    operation on it.

    Inodes are reached through pointers stored in one map; each pointer
    belongs to one key, so an assignment through a pointer is an [alter] of
    that key, and an assignment through the pointer of a deleted inode changes
    nothing. Maps of maps follow Go: reading through a missing inner map finds
    nothing, assigning through one panics ([Crash]). The order in which Go
    ranges over a map is unspecified; an operation whose result depends on it
    either uses the order of [map_to_list] where every order gives the same
    result up to permutation, or takes the order as an argument
    ([LiveExtents]). The read-write mutex makes each operation atomic. *)
From S2P Require Import Prelude Types Extents.

Definition RootIno : Z := 1.

Record Index := mkIndex {
  inodes : gmap Z Inode.t;
  dirIndex : gmap Z (gmap string Z);
  extents : gmap Z (list Extent.t);
  symlinks : gmap Z string;
  xattrs : gmap Z (gmap string string);
  nextIno : Z;
  blockSize : Z;
  dirty : bool;
  remoteDirty : bool;
}.

Definition on_inodes f (i : Index) : Index :=
  mkIndex (f (inodes i)) (dirIndex i) (extents i) (symlinks i) (xattrs i)
          (nextIno i) (blockSize i) (dirty i) (remoteDirty i).
Definition on_dirIndex f (i : Index) : Index :=
  mkIndex (inodes i) (f (dirIndex i)) (extents i) (symlinks i) (xattrs i)
          (nextIno i) (blockSize i) (dirty i) (remoteDirty i).
Definition on_extents f (i : Index) : Index :=
  mkIndex (inodes i) (dirIndex i) (f (extents i)) (symlinks i) (xattrs i)
          (nextIno i) (blockSize i) (dirty i) (remoteDirty i).
Definition on_symlinks f (i : Index) : Index :=
  mkIndex (inodes i) (dirIndex i) (extents i) (f (symlinks i)) (xattrs i)
          (nextIno i) (blockSize i) (dirty i) (remoteDirty i).
Definition on_xattrs f (i : Index) : Index :=
  mkIndex (inodes i) (dirIndex i) (extents i) (symlinks i) (f (xattrs i))
          (nextIno i) (blockSize i) (dirty i) (remoteDirty i).
Definition set_nextIno v (i : Index) : Index :=
  mkIndex (inodes i) (dirIndex i) (extents i) (symlinks i) (xattrs i)
          v (blockSize i) (dirty i) (remoteDirty i).
Definition set_dirty v (i : Index) : Index :=
  mkIndex (inodes i) (dirIndex i) (extents i) (symlinks i) (xattrs i)
          (nextIno i) (blockSize i) v (remoteDirty i).
Definition set_remoteDirty v (i : Index) : Index :=
  mkIndex (inodes i) (dirIndex i) (extents i) (symlinks i) (xattrs i)
          (nextIno i) (blockSize i) (dirty i) v.

(** [idx.dirty = true; idx.remoteDirty = true]. *)
Definition mark_dirty (i : Index) : Index := set_remoteDirty true (set_dirty true i).

(** Assignment through the pointer stored under [ino]. *)
Definition on_inode (ino : Z) (f : Inode.t → Inode.t) (i : Index) : Index :=
  on_inodes (alter f ino) i.

Definition set_mctime (now : Z) (n : Inode.t) : Inode.t :=
  Inode.set_Ctime now (Inode.set_Mtime now n).

(** The errors the operations return, one per [fmt.Errorf] site. *)
Inductive IdxErr :=
| InodeNotFound (ino : Z)
| NotADirectory (ino : Z)
| ParentNotFound (ino : Z)
| ChildNotFound (ino : Z)
| EntryExists (name : string) (dir : Z)
| EntryNotFound (name : string) (dir : Z)
| DirNotEmpty (ino : Z)
| SourceNotFound (name : string) (dir : Z)
| DstDirNotEmpty (ino : Z)
| NotRegular (ino : Z)
| NotSymlink (ino : Z)
| XattrNotFound (name : string) (ino : Z).

(** [idx.dirIndex[p][name]]. *)
Definition dir_lookup (i : Index) (p : Z) (name : string) : option Z :=
  dirIndex i !! p ≫= lookup name.

(** ** Construction *)

(** The mode of the root is [0o755]. *)
Definition New (blockSize now : Z) : Index :=
  mkIndex
    {[ RootIno := Inode.mk RootIno Directory 0x1ED 1 0 0 0 now now now blockSize 0 0 ]}
    {[ RootIno := ∅ ]} ∅ ∅ ∅ (RootIno + 1) blockSize false false.

(** One round of the loop that rebuilds [dirIndex]. *)
Definition add_entry (d : gmap Z (gmap string Z)) (e : DirEntry.t) :
    gmap Z (gmap string Z) :=
  <[DirEntry.ParentIno e :=
      <[DirEntry.Name e := DirEntry.ChildIno e]> (default ∅ (d !! DirEntry.ParentIno e))]> d.

(** One round of the loop that gives every directory an entry. *)
Definition ensure_dir (ino : Z) (n : Inode.t) (d : gmap Z (gmap string Z)) :
    gmap Z (gmap string Z) :=
  if decide (Inode.FileType n = Directory)
  then match d !! ino with None => <[ino := ∅]> d | Some _ => d end
  else d.

Definition FromSnapshot (snap : Snapshot.t) (blockSize : Z) : Index :=
  mkIndex (Snapshot.Inodes snap)
    (map_fold ensure_dir (foldl add_entry ∅ (Snapshot.DirEntries snap)) (Snapshot.Inodes snap))
    (Snapshot.ExtentMap snap) (Snapshot.SymlinkTargets snap) (Snapshot.Xattrs snap)
    (Snapshot.NextIno snap) blockSize false false.

(** The entries of one directory, as [Snapshot] and [Readdir] list them. *)
Definition entries_of (p : Z) (children : gmap string Z) : list DirEntry.t :=
  (fun nc => DirEntry.mk p nc.1 nc.2) <$> map_to_list children.

Definition Index_Snapshot (i : Index) : Snapshot.t :=
  Snapshot.mk (inodes i)
    (flat_map (fun pc => entries_of pc.1 pc.2) (map_to_list (dirIndex i)))
    (extents i) (symlinks i) (xattrs i) (nextIno i).

(** ** Dirty flags *)

Definition IsDirty (i : Index) : bool := dirty i.
Definition MarkClean (i : Index) : Index := set_dirty false i.
Definition IsRemoteDirty (i : Index) : bool := remoteDirty i.
Definition MarkRemoteClean (i : Index) : Index := set_remoteDirty false i.

(** ** Reads *)

Definition GetInode (i : Index) (ino : Z) : Inode.t * bool :=
  match inodes i !! ino with Some n => (n, true) | None => (Inode.zero, false) end.

Definition Index_Lookup (i : Index) (parentIno : Z) (name : string) : Z * bool :=
  match dirIndex i !! parentIno with
  | None => (0, false)
  | Some children =>
      match children !! name with Some c => (c, true) | None => (0, false) end
  end.

Definition Index_Readdir (i : Index) (ino : Z) : res IdxErr (list DirEntry.t) :=
  match inodes i !! ino with
  | None => Err (InodeNotFound ino)
  | Some n =>
      if decide (Inode.FileType n ≠ Directory) then Err (NotADirectory ino)
      else Ok (entries_of ino (default ∅ (dirIndex i !! ino)))
  end.

Definition GetExtents (i : Index) (ino : Z) : option (list Extent.t) := extents i !! ino.
Definition GetSymlink (i : Index) (ino : Z) : option string := symlinks i !! ino.
Definition GetXattrs (i : Index) (ino : Z) : gmap string string := default ∅ (xattrs i !! ino).
Definition BlockSz (i : Index) : Z := blockSize i.

(** ** Mutations *)

Definition CreateInode (fileType mode uid gid rdev now : Z) (i : Index) :
    outcome IdxErr Index Z :=
  let ino := nextIno i in
  let i := set_nextIno (u64 (nextIno i + 1)) i in
  let startNlink := if decide (fileType = Directory) then 1 else 0 in
  let inode :=
    Inode.mk ino fileType mode startNlink uid gid 0 now now now (blockSize i) 0 rdev in
  let i := on_inodes <[ino := inode]> i in
  let i := if decide (fileType = Regular) then on_extents <[ino := []]> i else i in
  let i := if decide (fileType = Directory) then on_dirIndex <[ino := ∅]> i else i in
  Ret ino (mark_dirty i).

Definition AddDirEntry (parentIno : Z) (name : string) (childIno now : Z) (i : Index) :
    outcome IdxErr Index unit :=
  match inodes i !! parentIno with
  | None => Fail (ParentNotFound parentIno) i
  | Some parent =>
  if decide (Inode.FileType parent ≠ Directory) then Fail (NotADirectory parentIno) i else
  match inodes i !! childIno with
  | None => Fail (ChildNotFound childIno) i
  | Some _ =>
  match dir_lookup i parentIno name with
  | Some _ => Fail (EntryExists name parentIno) i
  | None =>
  match dirIndex i !! parentIno with
  | None => Crash
  | Some children =>
      let i := on_dirIndex <[parentIno := <[name := childIno]> children]> i in
      let i := on_inode childIno (fun n => Inode.set_Nlink (u32 (Inode.Nlink n + 1)) n) i in
      let i := on_inode childIno (Inode.set_Ctime now) i in
      let i := on_inode parentIno (set_mctime now) i in
      Ret tt (mark_dirty i)
  end end end end.

(** [freeThreshold]: the link count at which no directory entry is left. *)
Definition free_threshold (n : Inode.t) : Z :=
  if decide (Inode.FileType n = Directory) then 1 else 0.

(** The five [delete]s that free an inode. *)
Definition free_inode (ino : Z) (i : Index) : Index :=
  on_dirIndex (delete ino) (on_xattrs (delete ino) (on_symlinks (delete ino)
    (on_extents (delete ino) (on_inodes (delete ino) i)))).

Definition RemoveDirEntry (parentIno : Z) (name : string) (now : Z) (i : Index) :
    outcome IdxErr Index unit :=
  match inodes i !! parentIno with
  | None => Fail (ParentNotFound parentIno) i
  | Some _ =>
  match dir_lookup i parentIno name with
  | None => Fail (EntryNotFound name parentIno) i
  | Some childIno =>
  match inodes i !! childIno with
  | None => Crash
  | Some child =>
  if decide (Inode.FileType child = Directory ∧
             (0 < size (default ∅ (dirIndex i !! childIno)))%nat)
  then Fail (DirNotEmpty childIno) i else
      let i := on_dirIndex (alter (delete name) parentIno) i in
      let nlink := u32 (Inode.Nlink child - 1) in
      let i := on_inode childIno (Inode.set_Nlink nlink) i in
      let i := if nlink <=? free_threshold child then free_inode childIno i
               else on_inode childIno (Inode.set_Ctime now) i in
      let i := on_inode parentIno (set_mctime now) i in
      Ret tt (mark_dirty i)
  end end end.

(** The block of [Rename] that drops an existing destination. *)
Definition rename_drop_dst (dstParent : Z) (dstName : string) (i : Index) :
    outcome IdxErr Index unit :=
  match dir_lookup i dstParent dstName with
  | None => Ret tt i
  | Some dstChildIno =>
  match inodes i !! dstChildIno with
  | None => Crash
  | Some dstChild =>
  if decide (Inode.FileType dstChild = Directory ∧
             (0 < size (default ∅ (dirIndex i !! dstChildIno)))%nat)
  then Fail (DstDirNotEmpty dstChildIno) i else
      let nlink := u32 (Inode.Nlink dstChild - 1) in
      let i := on_inode dstChildIno (Inode.set_Nlink nlink) i in
      Ret tt (if nlink <=? free_threshold dstChild then free_inode dstChildIno i else i)
  end end.

Definition Index_Rename (srcParent : Z) (srcName : string) (dstParent : Z)
    (dstName : string) (now : Z) (i : Index) : outcome IdxErr Index unit :=
  match dir_lookup i srcParent srcName with
  | None => Fail (SourceNotFound srcName srcParent) i
  | Some srcChildIno =>
  let srcChild := inodes i !! srcChildIno in
  let! _, i := rename_drop_dst dstParent dstName i in
  let i := on_dirIndex (alter (delete srcName) srcParent) i in
  match dirIndex i !! dstParent, srcChild with
  | Some children, Some _ =>
      let i := on_dirIndex <[dstParent := <[dstName := srcChildIno]> children]> i in
      let i := on_inode srcChildIno (Inode.set_Ctime now) i in
      let i := on_inode srcParent (set_mctime now) i in
      let i := if decide (dstParent ≠ srcParent)
               then on_inode dstParent (set_mctime now) i else i in
      Ret tt (mark_dirty i)
  | _, _ => Crash
  end end.

(** [idx.trimExtents(ino, newSize)]. *)
Definition trimExtents (ino newSize : Z) (i : Index) : Index :=
  on_extents <[ino := trim_extents newSize (default [] (extents i !! ino))]> i.

Definition opt_set {A} (f : A → Inode.t → Inode.t) (o : option A) (n : Inode.t) : Inode.t :=
  match o with Some v => f v n | None => n end.

Definition SetAttr (ino : Z) (mode uid gid size atime mtime : option Z) (now : Z)
    (i : Index) : outcome IdxErr Index unit :=
  match inodes i !! ino with
  | None => Fail (InodeNotFound ino) i
  | Some inode =>
      let i := on_inode ino (fun n =>
        opt_set Inode.set_Mtime mtime (opt_set Inode.set_Atime atime
          (opt_set Inode.set_GID gid (opt_set Inode.set_UID uid
            (opt_set Inode.set_Mode mode n))))) i in
      let i :=
        match size with
        | Some newSize =>
            if decide (newSize ≠ Inode.Size inode) then
              let i := if decide (Inode.FileType inode = Regular)
                       then trimExtents ino newSize i else i in
              on_inode ino (fun n => Inode.set_Mtime now
                (Inode.set_Blocks (blocks512 newSize) (Inode.set_Size newSize n))) i
            else i
        | None => i
        end in
      let i := on_inode ino (Inode.set_Ctime now) i in
      Ret tt (mark_dirty i)
  end.

(** [if newSize > inode.Size { inode.Size = newSize; inode.Blocks = ... }]. *)
Definition grow_size (newSize : Z) (n : Inode.t) : Inode.t :=
  if newSize >? Inode.Size n
  then Inode.set_Blocks (blocks512 newSize) (Inode.set_Size newSize n) else n.

Definition AppendExtent (ino : Z) (ext : Extent.t) (now : Z) (i : Index) :
    outcome IdxErr Index unit :=
  match inodes i !! ino with
  | None => Fail (InodeNotFound ino) i
  | Some inode =>
  if decide (Inode.FileType inode ≠ Regular) then Fail (NotRegular ino) i else
      let i := on_extents <[ino := default [] (extents i !! ino) ++ [ext]]> i in
      let newSize := Extent.FileOffset ext +! Extent.Length ext in
      let i := on_inode ino (fun n => set_mctime now (grow_size newSize n)) i in
      Ret tt (mark_dirty i)
  end.

Definition WriteExtent (ino : Z) (ext : Extent.t) (now : Z) (i : Index) :
    outcome IdxErr Index unit :=
  match inodes i !! ino with
  | None => Fail (InodeNotFound ino) i
  | Some inode =>
  if decide (Inode.FileType inode ≠ Regular) then Fail (NotRegular ino) i else
      let end_ := Extent.FileOffset ext +! Extent.Length ext in
      let i := on_extents
                 <[ino := write_extents [] (default [] (extents i !! ino)) ext]> i in
      let i := on_inode ino (fun n => set_mctime now (grow_size end_ n)) i in
      Ret tt (mark_dirty i)
  end.

Definition SetSymlink (ino : Z) (target : string) (now : Z) (i : Index) :
    outcome IdxErr Index unit :=
  match inodes i !! ino with
  | None => Fail (InodeNotFound ino) i
  | Some inode =>
  if decide (Inode.FileType inode ≠ Symlink) then Fail (NotSymlink ino) i else
      let i := on_symlinks <[ino := target]> i in
      let i := on_inode ino (fun n =>
        Inode.set_Ctime now (Inode.set_Size (Z.of_nat (String.length target)) n)) i in
      Ret tt (mark_dirty i)
  end.

Definition SetXattr (ino : Z) (name value : string) (now : Z) (i : Index) :
    outcome IdxErr Index unit :=
  match inodes i !! ino with
  | None => Fail (InodeNotFound ino) i
  | Some _ =>
      let i := on_xattrs <[ino := <[name := value]> (default ∅ (xattrs i !! ino))]> i in
      let i := on_inode ino (Inode.set_Ctime now) i in
      Ret tt (mark_dirty i)
  end.

Definition RemoveXattr (ino : Z) (name : string) (now : Z) (i : Index) :
    outcome IdxErr Index unit :=
  match inodes i !! ino with
  | None => Fail (InodeNotFound ino) i
  | Some _ =>
  match xattrs i !! ino ≫= lookup name with
  | None => Fail (XattrNotFound name ino) i
  | Some _ =>
      let i := on_xattrs (alter (delete name) ino) i in
      let i := on_inode ino (Inode.set_Ctime now) i in
      Ret tt (mark_dirty i)
  end end.

Definition TouchAtime (ino now : Z) (i : Index) : Index :=
  match inodes i !! ino with
  | Some _ => set_dirty true (on_inode ino (Inode.set_Atime now) i)
  | None => i
  end.

(** ** Scans *)

Definition GetParentIno (i : Index) (ino : Z) : Z :=
  if decide (ino = RootIno) then RootIno
  else
    match filter (fun pc : Z * gmap string Z => ino ∈ (map_to_list pc.2).*2)
                 (map_to_list (dirIndex i)) with
    | (p, _) :: _ => p
    | [] => ino
    end.

Definition UsedBytes (i : Index) : Z :=
  map_fold (fun _ n total =>
    if decide (Inode.FileType n = Regular) then total +! Inode.Size n else total)
    0 (inodes i).

(** [order] is the order in which the loop meets the keys of [idx.extents]. *)
Definition LiveExtents (order : list Z) (i : Index) : list Extent.t :=
  flat_map (fun ino => default [] (extents i !! ino)) order.

(** [remap] has the key [(chunkID, chunkOffset)]. *)
Definition remap_extent (remap : gmap (string * Z) Extent.t) (e : Extent.t) : Extent.t :=
  match remap !! (Extent.ChunkID e, Extent.ChunkOffset e) with
  | Some e' => e'
  | None => e
  end.

Definition RemapExtents (remap : gmap (string * Z) Extent.t) (i : Index) : Index :=
  mark_dirty (on_extents (fun m => (fun exts : list Extent.t => remap_extent remap <$> exts) <$> (m : gmap Z (list Extent.t))) i).
