(* ===== verification/IndexInv.v ===== *)
(** The structural invariant of the index and its preservation by every
    operation.

    The invariant of an index is stated on three views: the skeleton of the
    inodes (number, type, link count), the set of directories, and the
    directory entries as one flat map from (parent, name) to child. The
    lemmas named [core_*] treat the elementary changes of these views; the
    operations of [Index] are compositions of them. *)
From S2P Require Import Prelude Types Extents Index.

(** ** Views *)

Record skel := mkSkel { sk_ino : Z; sk_type : FileType; sk_nlink : Z }.

Definition skel_of (n : Inode.t) : skel :=
  mkSkel (Inode.Ino n) (Inode.FileType n) (Inode.Nlink n).

Definition skeleton (i : Index) : gmap Z skel := skel_of <$> inodes i.
Definition dirs (i : Index) : gset Z := dom (dirIndex i).
Definition flatten (d : gmap Z (gmap string Z)) : gmap (Z * string) Z :=
  map_uncurry (M1 := gmap Z) (M2 := gmap string) (M12 := gmap (Z * string)) d.
Definition entries (i : Index) : gmap (Z * string) Z := flatten (dirIndex i).

(** The link count that a directory has from its own "." entry. *)
Definition self_links (ft : FileType) : Z := if decide (ft = Directory) then 1 else 0.

(** How many directory entries name [ino]. *)
Definition refs (F : gmap (Z * string) Z) (ino : Z) : Z := Z.of_nat (count_val ino F).

(** ** The invariant *)

Record wf_core (sk : gmap Z skel) (D : gset Z) (F : gmap (Z * string) Z) (next : Z) : Prop := {
  core_root : ∃ nl, sk !! RootIno = Some (mkSkel RootIno Directory nl);
  core_key : ∀ ino s, sk !! ino = Some s → sk_ino s = ino ∧ 0 < ino < next;
  core_dirs : ∀ p, p ∈ D ↔ ∃ s, sk !! p = Some s ∧ sk_type s = Directory;
  core_entry : ∀ p nm c, F !! (p, nm) = Some c → p ∈ D ∧ is_Some (sk !! c) ∧ c ≠ RootIno;
  core_nlink : ∀ ino s, sk !! ino = Some s →
    sk_nlink s = refs F ino + self_links (sk_type s) ∧ sk_nlink s < 2 ^ 32;
}.

(** [ino] exists and has the given type. *)
Definition typed (sk : gmap Z skel) (ino : Z) (ft : FileType) : Prop :=
  sk_type <$> sk !! ino = Some ft.

Record wf_index (i : Index) : Prop := {
  wf_struct : wf_core (skeleton i) (dirs i) (entries i) (nextIno i);
  wf_next : nextIno i <= 2 ^ 64 - 1;
  wf_ext : ∀ ino, is_Some (extents i !! ino) → typed (skeleton i) ino Regular;
  wf_sym : ∀ ino, is_Some (symlinks i !! ino) → typed (skeleton i) ino Symlink;
  wf_xat : ∀ ino, is_Some (xattrs i !! ino) → is_Some (skeleton i !! ino);
}.

(** The call does not panic and leaves a well-formed index, whether it
    returns or fails. *)
Definition preserves {E A} (m : outcome E Index A) : Prop :=
  match out_state m with Some i => wf_index i | None => False end.

(** ** Views of the elementary updates *)

Section flat.
Implicit Types d : gmap Z (gmap string Z).

Lemma flat_lookup d p nm :
  flatten d !! (p, nm) = d !! p ≫= lookup nm.
Proof. apply lookup_map_uncurry. Qed.

Lemma flat_insert d p ch nm c :
  d !! p = Some ch →
  flatten (<[p := <[nm := c]> ch]> d) =
  <[(p, nm) := c]> (flatten d).
Proof.
  move=> Hp. apply map_eq => -[p' nm']. rw flat_lookup.
  destruct (decide (p = p')) as [<-|].
  - rw lookup_insert_eq /=. destruct (decide (nm = nm')) as [<-|].
    + by rw !lookup_insert_eq.
    + rw !lookup_insert_ne ?flat_lookup ?Hp //. congruence.
  - rw !lookup_insert_ne ?flat_lookup //. congruence.
Qed.

Lemma flat_delete d p nm :
  flatten (alter (delete nm) p d) =
  delete (p, nm) (flatten d).
Proof.
  apply map_eq => -[p' nm']. rw flat_lookup lookup_alter. case_decide as Hp.
  - subst p'. destruct (decide (nm = nm')) as [<-|].
    + rw lookup_delete_eq. destruct (d !! p) => //=. by rw lookup_delete_eq.
    + rw lookup_delete_ne ?flat_lookup; [|congruence].
      destruct (d !! p) => //=. by rw lookup_delete_ne.
  - rw lookup_delete_ne ?flat_lookup //. congruence.
Qed.

Lemma flat_free d c :
  default ∅ (d !! c) = ∅ →
  flatten (delete c d) = flatten d.
Proof.
  move=> Hc. apply map_eq => -[p nm]. rw !flat_lookup lookup_delete.
  case_decide => //. subst p. destruct (d !! c) as [ch|] => //=.
  simpl in Hc. by rw Hc lookup_empty.
Qed.

Lemma flat_new d c :
  d !! c = None → flatten (<[c := ∅]> d) = flatten d.
Proof.
  move=> Hc. apply map_eq => -[p nm]. rw !flat_lookup lookup_insert.
  case_decide => //. subst p. by rw Hc /= lookup_empty.
Qed.

Lemma dom_alter_dir d p nm : dom (alter (delete nm) p d) = dom d.
Proof. apply dom_alter_L. Qed.
End flat.

Lemma entries_dir_lookup i p nm : entries i !! (p, nm) = dir_lookup i p nm.
Proof. apply flat_lookup. Qed.

Lemma skel_alter_id f ino (m : gmap Z Inode.t) :
  (∀ n, skel_of (f n) = skel_of n) → skel_of <$> alter f ino m = skel_of <$> m.
Proof.
  move=> Hf. apply map_eq => k. rw !lookup_fmap lookup_alter.
  case_decide; [|done]. subst k. destruct (m !! ino); [exact (f_equal Some (Hf _))|done].
Qed.

Lemma skel_alter_nlink f ino (m : gmap Z Inode.t) n v :
  m !! ino = Some n → (∀ n, skel_of (f n) = mkSkel (Inode.Ino n) (Inode.FileType n) (v n)) →
  skel_of <$> alter f ino m =
  <[ino := mkSkel (Inode.Ino n) (Inode.FileType n) (v n)]> (skel_of <$> m).
Proof.
  move=> Hn Hf. apply map_eq => k. rw lookup_fmap lookup_alter lookup_insert.
  case_decide as Hk; [|by rw lookup_fmap]. subst. rw Hn. exact (f_equal Some (Hf _)).
Qed.

(** ** Elementary changes *)

Lemma refs_insert F k c ino :
  F !! k = None → refs (<[k := c]> F) ino = refs F ino + (if decide (c = ino) then 1 else 0).
Proof. rw /refs => ?. rw count_val_insert_fresh //. case_decide; lia. Qed.

Lemma refs_delete F k c ino :
  F !! k = Some c → refs (delete k F) ino = refs F ino - (if decide (c = ino) then 1 else 0).
Proof.
  rw /refs => Hk. rw (count_val_delete ino F k c) //. case_decide; lia.
Qed.

Lemma refs_zero F ino : refs F ino = 0 ↔ ∀ k, F !! k ≠ Some ino.
Proof. rw /refs -count_val_zero. lia. Qed.

Lemma refs_nonneg F ino : 0 <= refs F ino.
Proof. rw /refs. lia. Qed.

(** A fresh inode without entries. *)
Lemma core_create sk D F next ft :
  wf_core sk D F next → RootIno < next →
  wf_core (<[next := mkSkel next ft (self_links ft)]> sk)
    (if decide (ft = Directory) then {[next]} ∪ D else D) F (next + 1).
Proof.
  move=> [Hr Hk Hd He Hn] Hroot. assert (sk !! next = None) as Hfresh.
  { destruct (sk !! next) eqn:E => //. apply Hk in E. lia. }
  split.
  - destruct Hr as [nl Hr]. exists nl. rw lookup_insert_ne //. lia.
  - move=> ino s. rw lookup_insert. case_decide as E.
    + move=> [<-] /=. subst. rw /RootIno in Hroot. lia.
    + move=> /Hk. lia.
  - move=> p. destruct (decide (next = p)) as [<-|E].
    + rw lookup_insert_eq. case_decide as Hft.
      * split; [by eauto|]. move=> _. by apply elem_of_union_l, elem_of_singleton.
      * split.
        -- move=> /Hd [s [Hs _]]. congruence.
        -- move=> [s [[<-] /= ?]]. done.
    + rw lookup_insert_ne // -Hd. case_decide; [|done].
      rw elem_of_union elem_of_singleton. clear -E. naive_solver.
  - move=> p nm c HF. destruct (He _ _ _ HF) as (?&?&?). split_and!; [| |done].
    + case_decide; [by apply elem_of_union_r|done].
    + rw lookup_insert_is_Some'. by right.
  - move=> ino s. rw lookup_insert. case_decide as E; [|apply Hn].
    move=> [<-] /=. subst ino. assert (refs F next = 0) as ->.
    { apply refs_zero => -[p nm] HF. destruct (He _ _ _ HF) as (_&[? ?]&_). congruence. }
    rw /self_links. case_decide; lia.
Qed.

(** A new entry for an existing inode. *)
Lemma core_link sk D F next p nm c s :
  wf_core sk D F next → p ∈ D → F !! (p, nm) = None → sk !! c = Some s → c ≠ RootIno →
  sk_nlink s + 1 < 2 ^ 32 →
  wf_core (<[c := mkSkel (sk_ino s) (sk_type s) (sk_nlink s + 1)]> sk) D
    (<[(p, nm) := c]> F) next.
Proof.
  move=> [Hr Hk Hd He Hn] Hp HF Hc Hroot Hmax. split.
  - destruct Hr as [nl Hr]. exists nl. rw lookup_insert_ne //.
  - move=> ino s'. rw lookup_insert. case_decide; [|apply Hk].
    move=> [<-] /=. subst. by apply Hk.
  - move=> p'. rw lookup_insert Hd. case_decide; [|done]. subst. rw Hc.
    split; move=> [s' [[<-] ?]]; eauto.
  - move=> p' nm' c'. rw lookup_insert. case_decide as E.
    + move=> [<-]. simplify_eq. split_and!; [done| |done].
      rw lookup_insert_is_Some'. by left.
    + move=> /He [? [? ?]]. split_and!; [done| |done].
      rw lookup_insert_is_Some'. by right.
  - move=> ino s'. rw lookup_insert. rw refs_insert //. case_decide as E.
    + move=> [<-] /=. subst. destruct (Hn _ _ Hc). lia.
    + move=> /Hn. lia.
Qed.

(** An entry is removed and its inode stays. *)
Lemma core_unlink sk D F next p nm c s :
  wf_core sk D F next → F !! (p, nm) = Some c → sk !! c = Some s →
  wf_core (<[c := mkSkel (sk_ino s) (sk_type s) (sk_nlink s - 1)]> sk) D
    (delete (p, nm) F) next.
Proof.
  move=> [Hr Hk Hd He Hn] HF Hc. destruct (He _ _ _ HF) as (Hp & _ & Hroot). split.
  - destruct Hr as [nl Hr]. exists nl. rw lookup_insert_ne //.
  - move=> ino s'. rw lookup_insert. case_decide; [|apply Hk].
    move=> [<-] /=. subst. by apply Hk.
  - move=> p'. rw lookup_insert Hd. case_decide; [|done]. subst. rw Hc.
    split; move=> [s' [[<-] ?]]; eauto.
  - move=> p' nm' c'. rw lookup_delete_Some. move=> [_ /He [? [? ?]]].
    split_and!; [done| |done]. rw lookup_insert_is_Some'. by right.
  - move=> ino s'. rw lookup_insert. rw (refs_delete _ _ _ _ HF). case_decide as E.
    + move=> [<-] /=. subst. destruct (Hn _ _ Hc). lia.
    + move=> /Hn. lia.
Qed.

(** An inode that no entry names, and that contains none, is freed. *)
Lemma core_free sk D F next c s :
  wf_core sk D F next → sk !! c = Some s → sk_nlink s <= self_links (sk_type s) →
  c ≠ RootIno → (∀ nm, F !! (c, nm) = None) →
  wf_core (delete c sk) (D ∖ {[c]}) F next.
Proof.
  move=> [Hr Hk Hd He Hn] Hc Hnl Hroot Hempty.
  assert (∀ k, F !! k ≠ Some c) as Hno.
  { apply refs_zero. destruct (Hn _ _ Hc). pose proof (refs_nonneg F c). lia. }
  split.
  - destruct Hr as [nl Hr]. exists nl. rw lookup_delete_ne //.
  - move=> ino s'. rw lookup_delete_Some. move=> [_ ?]. by apply Hk.
  - move=> p. rw elem_of_difference elem_of_singleton Hd lookup_delete.
    case_decide; clear Hr Hk Hd He Hn; naive_solver.
  - move=> p nm c' HF. destruct (He _ _ _ HF) as (?&?&?).
    assert (c' ≠ c) by (move=> ?; subst; by eapply Hno).
    split_and!; [|by rw lookup_delete_ne|done].
    apply elem_of_difference. split; [done|].
    move=> /elem_of_singleton ?. subst. rw Hempty in HF. done.
  - move=> ino s'. rw lookup_delete_Some. move=> [_ ?]. by apply Hn.
Qed.

(** An entry moves to a free name. *)
Lemma core_move sk D F next sp sn dp dn c :
  wf_core sk D F next → F !! (sp, sn) = Some c → dp ∈ D → F !! (dp, dn) = None →
  wf_core sk D (<[(dp, dn) := c]> (delete (sp, sn) F)) next.
Proof.
  move=> [Hr Hk Hd He Hn] HF Hdp Hdst.
  assert (delete (sp, sn) F !! (dp, dn) = None) as Hfree.
  { apply lookup_delete_None. by right. }
  split => //.
  - move=> p nm c'. rw lookup_insert. case_decide.
    + move=> [<-]. simplify_eq. destruct (He _ _ _ HF) as (?&?&?). done.
    + rw lookup_delete_Some. move=> [_ ?]. by eapply He.
  - move=> ino s' /Hn. rw refs_insert // (refs_delete _ _ _ _ HF). lia.
Qed.

(** ** The operations *)

Section operations.
Implicit Types i : Index.

Lemma skeleton_lookup i ino : skeleton i !! ino = skel_of <$> inodes i !! ino.
Proof. apply lookup_fmap. Qed.

Lemma skeleton_Some i ino n : inodes i !! ino = Some n → skeleton i !! ino = Some (skel_of n).
Proof. rw skeleton_lookup => ->. done. Qed.

Lemma typed_of i ino n :
  inodes i !! ino = Some n → typed (skeleton i) ino (Inode.FileType n).
Proof. move=> Hn. by rw /typed (skeleton_Some _ _ _ Hn). Qed.

Lemma typed_insert sk ino c s ft :
  (sk_type <$> sk !! c = Some (sk_type s) ∨ sk !! c = None) →
  typed sk ino ft → typed (<[c := s]> sk) ino ft.
Proof.
  rw /typed lookup_insert => Hc Ht. case_decide; [|done]. subst.
  destruct Hc as [Hc|Hc]; rw Hc in Ht => //.
Qed.

(** Operations that change neither the skeleton nor the entries. *)
Lemma wf_same_core i i' :
  wf_index i → skeleton i' = skeleton i → dirIndex i' = dirIndex i →
  nextIno i' = nextIno i →
  (∀ ino, is_Some (extents i' !! ino) →
     is_Some (extents i !! ino) ∨ typed (skeleton i) ino Regular) →
  (∀ ino, is_Some (symlinks i' !! ino) →
     is_Some (symlinks i !! ino) ∨ typed (skeleton i) ino Symlink) →
  (∀ ino, is_Some (xattrs i' !! ino) →
     is_Some (xattrs i !! ino) ∨ is_Some (skeleton i !! ino)) →
  wf_index i'.
Proof.
  move=> [Hs Hn He Hy Hx] Esk Ed En He' Hy' Hx'.
  split; rw ?/dirs ?/entries ?Esk ?Ed ?En //.
  - move=> ino /He' [/He|]; done.
  - move=> ino /Hy' [/Hy|]; done.
  - move=> ino /Hx' [/Hx|]; done.
Qed.

(** The root of a well-formed index has number 1, so [nextIno] is above it. *)
Lemma wf_root_next i : wf_index i → RootIno < nextIno i.
Proof. move=> [[[nl Hr] Hk _ _ _] _ _ _ _]. apply Hk in Hr. lia. Qed.

Lemma CreateInode_preserves ft mode uid gid rdev now i :
  wf_index i → nextIno i < 2 ^ 64 - 1 →
  preserves (CreateInode ft mode uid gid rdev now i).
Proof.
  move=> Hwf Hmax. pose proof (wf_root_next _ Hwf) as Hroot. rw /RootIno in Hroot.
  rw /preserves /CreateInode /=. rw u64_small; [|rw /is_u64; lia].
  destruct Hwf as [Hs Hn He Hy Hx].
  assert (skeleton i !! nextIno i = None) as Hfresh.
  { destruct (skeleton i !! nextIno i) eqn:E => //. apply Hs in E. lia. }
  assert (dirIndex i !! nextIno i = None) as Hd.
  { apply not_elem_of_dom. move=> /(core_dirs _ _ _ _ Hs) [s [E _]]. congruence. }
  set i' := mark_dirty _.
  assert (skeleton i' = <[nextIno i := mkSkel (nextIno i) ft (self_links ft)]> (skeleton i)) as Esk.
  { rw /i' /skeleton /self_links. repeat case_decide; by rw /= fmap_insert. }
  assert (entries i' = entries i) as Een.
  { rw /i' /entries. repeat case_decide; rw /= ?flat_new //. }
  assert (dirs i' = if decide (ft = Directory) then {[nextIno i]} ∪ dirs i else dirs i) as Ed.
  { rw /i' /dirs. repeat case_decide; rw /= ?dom_insert_L //. }
  assert (nextIno i' = nextIno i + 1) as Enx.
  { rw /i'. by repeat case_decide. }
  split.
  - rw Esk Een Ed Enx. by apply core_create.
  - lia.
  - move=> ino. rw Esk. rw /i'. destruct (decide (ino = nextIno i)) as [->|].
    + rw /typed lookup_insert_eq /=. repeat case_decide; simpl; try (move=> _; congruence).
      all: move=> /He; rw /typed Hfresh //.
    + move=> Hino. rw /typed lookup_insert_ne //. apply He.
      move: Hino. repeat case_decide; rw /= ?lookup_insert_ne //.
  - move=> ino Hino. rw Esk. apply typed_insert; [by right|]. apply Hy.
    move: Hino. rw /i'. by repeat case_decide.
  - move=> ino Hino. rw Esk lookup_insert_is_Some'. right. apply Hx.
    move: Hino. rw /i'. by repeat case_decide.
Qed.
End operations.

Section entry_operations.
Implicit Types i : Index.

Lemma set_mctime_skel now n : skel_of (set_mctime now n) = skel_of n.
Proof. done. Qed.

Lemma set_Ctime_skel now n : skel_of (Inode.set_Ctime now n) = skel_of n.
Proof. done. Qed.

(** A directory of a well-formed index has an entry map. *)
Lemma wf_dir_children i p n :
  wf_index i → inodes i !! p = Some n → Inode.FileType n = Directory →
  is_Some (dirIndex i !! p).
Proof.
  move=> Hwf Hp Hd. apply elem_of_dom, (core_dirs _ _ _ _ (wf_struct _ Hwf)).
  exists (skel_of n). split; [by apply skeleton_Some|done].
Qed.

(** The child of an entry exists and is not the root. *)
Lemma wf_entry_child i p nm c :
  wf_index i → dir_lookup i p nm = Some c →
  p ∈ dirs i ∧ c ≠ RootIno ∧ ∃ n, inodes i !! c = Some n.
Proof.
  rw -entries_dir_lookup => Hwf /(core_entry _ _ _ _ (wf_struct _ Hwf)) [? [[s Hs] ?]].
  split_and!; try done. rw skeleton_lookup in Hs. apply fmap_Some in Hs as (n & ? & _). eauto.
Qed.

Lemma AddDirEntry_preserves p nm c now i :
  wf_index i → c ≠ RootIno →
  (∀ n, inodes i !! c = Some n → Inode.Nlink n + 1 < 2 ^ 32) →
  preserves (AddDirEntry p nm c now i).
Proof.
  move=> Hwf Hc Hmax. rw /preserves /AddDirEntry.
  destruct (inodes i !! p) as [np|] eqn:Hp; [|done]. case_decide as Hdir; [done|].
  destruct (inodes i !! c) as [nc|] eqn:Hcn; [|done].
  destruct (dir_lookup i p nm) eqn:Hl; [done|].
  destruct (wf_dir_children i p np Hwf Hp Hdir) as [ch Hch].
  rw Hch /=. destruct Hwf as [Hs Hn He Hy Hx].
  pose proof (core_nlink _ _ _ _ Hs _ _ (skeleton_Some _ _ _ Hcn)) as [Hnl Hnb].
  pose proof (refs_nonneg (entries i) c). specialize (Hmax _ eq_refl).
  assert (0 <= self_links (sk_type (skel_of nc))) by (rw /self_links; case_decide; lia).
  set i' := mark_dirty _.
  assert (skeleton i' = <[c := mkSkel (Inode.Ino nc) (Inode.FileType nc) (Inode.Nlink nc + 1)]>
                          (skeleton i)) as Esk.
  { rw /i' /skeleton /= skel_alter_id // skel_alter_id //.
    rw (skel_alter_nlink _ _ _ nc (fun n => u32 (Inode.Nlink n + 1))) //.
    rw u32_small //. rw /is_u32. simpl in *. lia. }
  split.
  - rw Esk /entries /dirs /i' /= flat_insert //.
    rw dom_insert_L (_ : {[p]} ∪ dom (dirIndex i) = dom (dirIndex i)).
    + apply (core_link _ _ _ _ p nm c (skel_of nc)) => //.
      * by apply elem_of_dom.
      * by rw flat_lookup -/(dir_lookup i p nm).
      * by apply skeleton_Some.
    + apply subseteq_union_1_L, singleton_subseteq_l. by apply elem_of_dom.
  - done.
  - move=> ino /He ?. rw Esk. apply typed_insert; [|done]. left.
    by rw (skeleton_Some _ _ _ Hcn).
  - move=> ino /Hy ?. rw Esk. apply typed_insert; [|done]. left.
    by rw (skeleton_Some _ _ _ Hcn).
  - move=> ino /Hx ?. rw Esk lookup_insert_is_Some'. by right.
Qed.

(** Dropping the entry (p, nm) of child [c]: the link count is decremented,
    the entry removed and, at the threshold, the inode freed. *)
Definition drop_entry (p : Z) (nm : string) (c : Z) (nlink : Z) (free : bool) (i : Index) : Index :=
  let i := on_inode c (Inode.set_Nlink nlink) (on_dirIndex (alter (delete nm) p) i) in
  if free then free_inode c i else i.

Lemma u32_pred n : 0 < n < 2 ^ 32 → u32 (n - 1) = n - 1.
Proof. move=> ?. apply u32_small. rw /is_u32. lia. Qed.

(** A named child has a positive link count. *)
Lemma wf_named_nlink i p nm c n :
  wf_index i → dir_lookup i p nm = Some c → inodes i !! c = Some n →
  free_threshold n < Inode.Nlink n < 2 ^ 32.
Proof.
  move=> Hwf Hl Hn. pose proof (wf_struct _ Hwf) as Hs.
  destruct (core_nlink _ _ _ _ Hs _ _ (skeleton_Some _ _ _ Hn)) as [Hnl ?].
  rw -entries_dir_lookup in Hl.
  assert (refs (entries i) c ≠ 0) as Hr.
  { move=> /refs_zero Hz. by eapply Hz. }
  pose proof (refs_nonneg (entries i) c). rw /= /self_links in Hnl. rw /free_threshold.
  simpl in *. lia.
Qed.

(** An inode that the emptiness check lets pass has no children. *)
Lemma removable_children i c n :
  wf_core (skeleton i) (dirs i) (entries i) (nextIno i) → inodes i !! c = Some n →
  ¬ (Inode.FileType n = Directory ∧ (0 < size (default ∅ (dirIndex i !! c)))%nat) →
  default ∅ (dirIndex i !! c) = ∅.
Proof.
  move=> Hs Hn Hempty. destruct (decide (Inode.FileType n = Directory)) as [Hd|Hd].
  - apply map_size_empty_iff. apply not_and_l in Hempty as [?|?]; [done|lia].
  - assert (dirIndex i !! c = None) as ->; [|done].
    apply not_elem_of_dom. move=> /(core_dirs _ _ _ _ Hs) [s [Hc Hd']].
    rw (skeleton_Some _ _ _ Hn) in Hc. by simplify_eq.
Qed.

Lemma drop_entry_wf i p nm c n :
  wf_index i → dir_lookup i p nm = Some c → inodes i !! c = Some n →
  ¬ (Inode.FileType n = Directory ∧ (0 < size (default ∅ (dirIndex i !! c)))%nat) →
  wf_index (drop_entry p nm c (u32 (Inode.Nlink n - 1))
              (u32 (Inode.Nlink n - 1) <=? free_threshold n) i).
Proof.
  move=> Hwf Hl Hn Hempty. pose proof (wf_named_nlink _ _ _ _ _ Hwf Hl Hn) as Hnl.
  destruct (wf_entry_child _ _ _ _ Hwf Hl) as (Hp & Hroot & _).
  assert (0 <= free_threshold n) by (rw /free_threshold; case_decide; lia).
  rw u32_pred; [|lia].
  destruct Hwf as [Hs Hnx He Hy Hx]. set i1 := on_inode c (Inode.set_Nlink (Inode.Nlink n - 1))
    (on_dirIndex (alter (delete nm) p) i).
  set sn := mkSkel (Inode.Ino n) (Inode.FileType n) (Inode.Nlink n - 1).
  assert (skeleton i1 = <[c := sn]> (skeleton i)) as Esk.
  { rw /i1 /skeleton /=.
    by rw (skel_alter_nlink _ _ _ n (fun _ => Inode.Nlink n - 1)). }
  assert (wf_core (skeleton i1) (dirs i1) (entries i1) (nextIno i1)) as Hs1.
  { rw Esk /dirs /entries /i1 /= dom_alter_dir flat_delete.
    apply (core_unlink _ _ _ _ p nm c (skel_of n)) => //.
    - by rw flat_lookup -/(dir_lookup i p nm).
    - by apply skeleton_Some. }
  assert (∀ ino ft, typed (skeleton i) ino ft → typed (skeleton i1) ino ft) as Hty.
  { move=> ino ft ?. rw Esk. apply typed_insert; [|done]. left.
    by rw (skeleton_Some _ _ _ Hn). }
  rw /drop_entry -/i1. destruct (Z.leb_spec (Inode.Nlink n - 1) (free_threshold n)) as [Hfree|Hkeep].
  - assert (skeleton (free_inode c i1) = delete c (skeleton i1)) as Esk'.
    { by rw /skeleton /= fmap_delete. }
    assert (default ∅ (dirIndex i1 !! c) = ∅) as Hch.
    { pose proof (removable_children i c n Hs Hn Hempty) as Hc.
      rw /i1 /= lookup_alter. case_decide as E; [rw E|done].
      destruct (dirIndex i !! c) => //=. simpl in Hc. by rw Hc delete_empty. }
    split => //.
    + rw Esk' /dirs /entries /= dom_delete_L flat_free //.
      apply (core_free _ _ _ _ c sn) => //.
      * by rw Esk lookup_insert_eq.
      * move=> nm'. rw -/(entries i1) entries_dir_lookup /dir_lookup.
        destruct (dirIndex i1 !! c) as [ch|] => //=. simpl in Hch. by rw Hch lookup_empty.
    + move=> ino /= /lookup_delete_is_Some [? /He ?]. rw Esk' /typed lookup_delete_ne //. by apply Hty.
    + move=> ino /= /lookup_delete_is_Some [? /Hy ?]. rw Esk' /typed lookup_delete_ne //. by apply Hty.
    + move=> ino /= /lookup_delete_is_Some [? /Hx ?]. rw Esk' lookup_delete_ne //.
      rw Esk lookup_insert_is_Some'. by right.
  - split => //.
    + move=> ino /He ?. by apply Hty.
    + move=> ino /Hy ?. by apply Hty.
    + move=> ino /Hx ?. rw Esk lookup_insert_is_Some'. by right.
Qed.
End entry_operations.

Section link_operations.
Implicit Types i j : Index.

(** Two indexes with the same views up to metadata. *)
Definition same_views i j : Prop :=
  skeleton i = skeleton j ∧ dirIndex i = dirIndex j ∧ nextIno i = nextIno j ∧
  extents i = extents j ∧ symlinks i = symlinks j ∧ xattrs i = xattrs j.

Lemma wf_same_views i j : wf_index i → same_views j i → wf_index j.
Proof.
  move=> Hwf [Es [Ed [En [Ee [Ey Ex]]]]].
  apply (wf_same_core i); rw ?Ee ?Ey ?Ex //; auto.
Qed.

Lemma same_views_on_inode i ino f :
  (∀ n, skel_of (f n) = skel_of n) → same_views (on_inode ino f i) i.
Proof. move=> Hf. rw /same_views /skeleton /= skel_alter_id //. Qed.

Lemma same_views_dirty i : same_views (mark_dirty i) i.
Proof. done. Qed.

Lemma same_views_trans i j k : same_views i j → same_views j k → same_views i k.
Proof. rw /same_views. intuition congruence. Qed.

Lemma RemoveDirEntry_preserves p nm now i :
  wf_index i → preserves (RemoveDirEntry p nm now i).
Proof.
  move=> Hwf. rw /preserves /RemoveDirEntry. destruct (inodes i !! p); [|done].
  destruct (dir_lookup i p nm) as [c|] eqn:Hl; [|done].
  destruct (wf_entry_child _ _ _ _ Hwf Hl) as (_ & _ & n & Hn). rw Hn.
  case_decide as Hempty; [done|]. simpl.
  eapply wf_same_views; [by eapply (drop_entry_wf i p nm c n)|].
  eapply same_views_trans; [apply same_views_dirty|].
  eapply same_views_trans; [by apply same_views_on_inode|].
  rw /drop_entry. destruct (_ <=? _); [done|]. by apply same_views_on_inode.
Qed.

(** What the destination block of [Rename] leaves: all entries, and the
    inodes of an index [j] in which the destination entry is gone. *)
Lemma rename_drop_dst_spec dp dn i :
  wf_index i → dp ∈ dirs i →
  match rename_drop_dst dp dn i with
  | Ret _ i1 =>
      dp ∈ dirs i1 ∧ entries i1 = entries i ∧
      ∃ j, wf_index j ∧ skeleton i1 = skeleton j ∧ dirs i1 = dirs j ∧
        entries j = delete (dp, dn) (entries i) ∧ nextIno i1 = nextIno j ∧
        extents i1 = extents j ∧ symlinks i1 = symlinks j ∧ xattrs i1 = xattrs j
  | Fail _ i1 => i1 = i
  | Crash => False
  end.
Proof.
  move=> Hwf Hdp. rw /rename_drop_dst.
  destruct (dir_lookup i dp dn) as [c|] eqn:Hl.
  2: { split_and!; [done..|]. exists i. split_and!; try done.
       rw delete_id // entries_dir_lookup //. }
  destruct (wf_entry_child _ _ _ _ Hwf Hl) as (_ & _ & n & Hn). rw Hn.
  case_decide as Hempty; [done|].
  pose proof (removable_children _ _ _ (wf_struct _ Hwf) Hn Hempty) as Hch.
  assert (dp ≠ c) as Hne.
  { move=> ?. subst. rw /dir_lookup in Hl. destruct (dirIndex i !! c); [|done].
    simpl in *. by rw Hch lookup_empty in Hl. }
  pose proof (drop_entry_wf i dp dn c n Hwf Hl Hn Hempty) as Hj.
  set j := drop_entry _ _ _ _ _ _ in Hj.
  destruct (u32 (Inode.Nlink n - 1) <=? free_threshold n) eqn:Hfree.
  - split_and!.
    + rw /dirs /= dom_delete_L. apply elem_of_difference. by rw not_elem_of_singleton.
    + by rw /entries /= flat_free.
    + exists j. split_and!; try done.
      * by rw /j /dirs /= !dom_delete_L dom_alter_dir.
      * rw /j /entries /= flat_free ?flat_delete //.
        rw lookup_alter. by case_decide.
  - split_and!; try done. exists j. split_and!; try done.
    + by rw /j /dirs /= dom_alter_dir.
    + by rw /j /entries /= flat_delete.
Qed.

(** [Rename] keeps the invariant when the destination directory exists and
    the two names differ (as rename(2) guarantees to a file system). *)
Lemma Rename_preserves sp sn dp dn now i :
  wf_index i → dp ∈ dirs i → (sp, sn) ≠ (dp, dn) →
  preserves (Index_Rename sp sn dp dn now i).
Proof.
  move=> Hwf Hdp Hne. rw /preserves /Index_Rename.
  destruct (dir_lookup i sp sn) as [c|] eqn:Hl; [|done].
  destruct (wf_entry_child _ _ _ _ Hwf Hl) as (_ & _ & n & Hn). rw Hn.
  pose proof (rename_drop_dst_spec dp dn i Hwf Hdp) as Hdst.
  destruct (rename_drop_dst dp dn i) as [[] i1|e i1|]; simpl; [|by subst|done].
  destruct Hdst as (Hdp1 & He1 & j & Hj & Esk & Ed & Ee & En & Ex & Ey & Ea).
  assert (is_Some (alter (delete sn) sp (dirIndex i1) !! dp)) as [ch Hch].
  { rw -elem_of_dom dom_alter_dir //. }
  rw Hch /=. set i2 := on_dirIndex _ _.
  eapply (wf_same_views i2).
  2: { eapply same_views_trans; [apply same_views_dirty|]. case_decide.
       - do 3 (eapply same_views_trans; [by apply same_views_on_inode|]). done.
       - do 2 (eapply same_views_trans; [by apply same_views_on_inode|]). done. }
  assert (dirs i2 = dirs j) as Ed2.
  { rw -Ed /i2 /dirs /= dom_insert_L dom_alter_dir.
    apply subseteq_union_1_L, singleton_subseteq_l. done. }
  assert (entries i2 = <[(dp, dn) := c]> (delete (sp, sn) (entries j))) as Ee2.
  { rw /i2 {1}/entries /= flat_insert // flat_delete -/(entries i1) He1 Ee.
    by rw delete_delete insert_delete_eq. }
  split; rw -?/(skeleton i1) /i2 /= ?Ex ?Ey ?Ea; try apply Hj.
  - rw -/i2 Ed2 Ee2 (_ : skeleton i2 = skeleton j) // En.
    apply core_move; [apply Hj| | |].
    + rw Ee lookup_delete_ne ?entries_dir_lookup //.
    + by rw -Ed.
    + by rw Ee lookup_delete_eq.
  - by rw En; apply Hj.
  - move=> ino Hi. rw (_ : skeleton _ = skeleton j) //. by apply Hj.
  - move=> ino Hi. rw (_ : skeleton _ = skeleton j) //. by apply Hj.
  - move=> ino Hi. rw (_ : skeleton _ = skeleton j) //. by apply Hj.
Qed.
End link_operations.

Section attribute_operations.
Implicit Types i : Index.

Lemma New_wf bs now : wf_index (New bs now).
Proof.
  assert (skeleton (New bs now) = {[RootIno := mkSkel RootIno Directory 1]}) as Esk.
  { rw /skeleton /= map_fmap_singleton //. }
  assert (entries (New bs now) = ∅) as Een.
  { apply map_empty => -[p nm]. rw entries_dir_lookup /dir_lookup /New.
    cbn [dirIndex]. rw lookup_singleton. case_decide => //=. }
  split; rw ?Esk ?Een; [|rw /= /RootIno; lia|by move=> ino [? ?]..].
  split.
  - exists 1. by rw lookup_singleton_eq.
  - move=> ino s /lookup_singleton_Some [<- <-] /=. rw /RootIno. lia.
  - move=> p. rw /dirs /= dom_singleton_L elem_of_singleton. split.
    + move=> ->. rw lookup_singleton_eq. eauto.
    + move=> [s [/lookup_singleton_Some [<- _] _]]. done.
  - move=> p nm c. by rw lookup_empty.
  - move=> ino s /lookup_singleton_Some [<- <-] /=.
    rw /refs count_val_empty. done.
Qed.

Lemma skel_opt_set {A} (f : A → Inode.t → Inode.t) o n :
  (∀ a n, skel_of (f a n) = skel_of n) → skel_of (opt_set f o n) = skel_of n.
Proof. destruct o => //= Hf. Qed.

Lemma set_trim_same i ino newSize :
  typed (skeleton i) ino Regular → wf_index i → wf_index (trimExtents ino newSize i).
Proof.
  move=> Ht Hwf. apply (wf_same_core i) => //=; auto.
  move=> k. rw lookup_insert_is_Some'. move=> [<-|]; auto.
Qed.

Lemma SetAttr_preserves ino mode uid gid sz atime mtime now i :
  wf_index i → preserves (SetAttr ino mode uid gid sz atime mtime now i).
Proof.
  move=> Hwf. rw /preserves /SetAttr. destruct (inodes i !! ino) as [n|] eqn:Hn; [|done].
  simpl. eapply wf_same_views;
    [|eapply same_views_trans; [apply same_views_dirty|by apply same_views_on_inode]].
  set i1 := on_inode ino _ i.
  assert (same_views i1 i) as Hsv.
  { apply same_views_on_inode => m. by rw !skel_opt_set. }
  assert (wf_index i1) as Hwf1 by by eapply wf_same_views.
  destruct sz as [newSize|]; [|done]. case_decide; [|done].
  eapply wf_same_views; [|by apply same_views_on_inode].
  case_decide as Hr; [|done]. apply set_trim_same; [|done].
  destruct Hsv as [-> _]. rw -Hr. by apply typed_of.
Qed.

(** The inode update of [AppendExtent] and [WriteExtent]. *)
Lemma grow_size_skel now newSize n :
  skel_of (set_mctime now (grow_size newSize n)) = skel_of n.
Proof. rw /grow_size. by destruct (_ >? _). Qed.

(** Setting the extents of a regular file. *)
Lemma set_extents_wf i ino exts :
  typed (skeleton i) ino Regular → wf_index i → wf_index (on_extents <[ino := exts]> i).
Proof.
  move=> Ht Hwf. apply (wf_same_core i) => //=; auto.
  move=> k. rw lookup_insert_is_Some'. move=> [<-|]; auto.
Qed.

Lemma AppendExtent_preserves ino ext now i :
  wf_index i → preserves (AppendExtent ino ext now i).
Proof.
  move=> Hwf. rw /preserves /AppendExtent. destruct (inodes i !! ino) as [n|] eqn:Hn; [|done].
  case_decide as Hr; [done|]. simpl. eapply wf_same_views;
    [|eapply same_views_trans; [apply same_views_dirty|
      apply same_views_on_inode => m; apply grow_size_skel]].
  apply set_extents_wf; [|done]. rw -Hr. by apply typed_of.
Qed.

Lemma WriteExtent_preserves ino ext now i :
  wf_index i → preserves (WriteExtent ino ext now i).
Proof.
  move=> Hwf. rw /preserves /WriteExtent. destruct (inodes i !! ino) as [n|] eqn:Hn; [|done].
  case_decide as Hr; [done|]. simpl. eapply wf_same_views;
    [|eapply same_views_trans; [apply same_views_dirty|
      apply same_views_on_inode => m; apply grow_size_skel]].
  apply set_extents_wf; [|done]. rw -Hr. by apply typed_of.
Qed.

Lemma SetSymlink_preserves ino target now i :
  wf_index i → preserves (SetSymlink ino target now i).
Proof.
  move=> Hwf. rw /preserves /SetSymlink. destruct (inodes i !! ino) as [n|] eqn:Hn; [|done].
  case_decide as Hr; [done|]. simpl. eapply wf_same_views;
    [|eapply same_views_trans; [apply same_views_dirty|by apply same_views_on_inode]].
  apply (wf_same_core i) => //=; auto.
  move=> k. rw lookup_insert_is_Some'. move=> [<-|]; [|auto].
  right. rw -Hr. by apply typed_of.
Qed.

Lemma SetXattr_preserves ino name value now i :
  wf_index i → preserves (SetXattr ino name value now i).
Proof.
  move=> Hwf. rw /preserves /SetXattr. destruct (inodes i !! ino) as [n|] eqn:Hn; [|done].
  simpl. eapply wf_same_views;
    [|eapply same_views_trans; [apply same_views_dirty|by apply same_views_on_inode]].
  apply (wf_same_core i) => //=; auto.
  move=> k. rw lookup_insert_is_Some'. move=> [<-|]; [|auto].
  right. rw (skeleton_Some _ _ _ Hn). eauto.
Qed.

Lemma RemoveXattr_preserves ino name now i :
  wf_index i → preserves (RemoveXattr ino name now i).
Proof.
  move=> Hwf. rw /preserves /RemoveXattr. destruct (inodes i !! ino) as [n|] eqn:Hn; [|done].
  destruct (xattrs i !! ino ≫= lookup name); [|done].
  simpl. eapply wf_same_views;
    [|eapply same_views_trans; [apply same_views_dirty|by apply same_views_on_inode]].
  apply (wf_same_core i) => //=; auto.
  move=> k. rw lookup_alter. case_decide; [|auto]. subst. rw fmap_is_Some. auto.
Qed.

Lemma TouchAtime_wf ino now i : wf_index i → wf_index (TouchAtime ino now i).
Proof.
  move=> Hwf. rw /TouchAtime. destruct (inodes i !! ino); [|done].
  eapply wf_same_views; [done|].
  by apply (same_views_trans _ (on_inode ino (Inode.set_Atime now) i)),
    same_views_on_inode.
Qed.

Lemma RemapExtents_wf remap i : wf_index i → wf_index (RemapExtents remap i).
Proof.
  move=> Hwf. apply (wf_same_core i) => //=; auto.
  move=> ino. rw lookup_fmap fmap_is_Some. auto.
Qed.
End attribute_operations.

#[export] Hint Resolve New_wf CreateInode_preserves AddDirEntry_preserves
  RemoveDirEntry_preserves Rename_preserves SetAttr_preserves AppendExtent_preserves
  WriteExtent_preserves SetSymlink_preserves SetXattr_preserves RemoveXattr_preserves
  TouchAtime_wf RemapExtents_wf : fusey.
