(* ===== verification/IndexProps.v ===== *)
(** Properties of the index: reachable states, what writing and truncating do
    to the mapping from file offsets to chunk bytes, link counting, dirty
    flags and the scans. *)
From S2P Require Import Prelude Types Extents Index IndexInv.

(** ** Runs of the index *)

Inductive idx_op :=
| OpCreate (fileType mode uid gid rdev now : Z)
| OpAdd (p : Z) (name : string) (c now : Z)
| OpRemove (p : Z) (name : string) (now : Z)
| OpRename (sp : Z) (sn : string) (dp : Z) (dn : string) (now : Z)
| OpSetAttr (ino : Z) (mode uid gid size atime mtime : option Z) (now : Z)
| OpAppend (ino : Z) (ext : Extent.t) (now : Z)
| OpWrite (ino : Z) (ext : Extent.t) (now : Z)
| OpSymlink (ino : Z) (target : string) (now : Z)
| OpSetXattr (ino : Z) (name value : string) (now : Z)
| OpRemoveXattr (ino : Z) (name : string) (now : Z)
| OpTouch (ino now : Z)
| OpRemap (remap : gmap (string * Z) Extent.t)
| OpMarkClean
| OpMarkRemoteClean.

(** One call, its result dropped. *)
Definition run_op (o : idx_op) (i : Index) : outcome IdxErr Index unit :=
  match o with
  | OpCreate ft m u g r now => let! _, i := CreateInode ft m u g r now i in Ret tt i
  | OpAdd p nm c now => AddDirEntry p nm c now i
  | OpRemove p nm now => RemoveDirEntry p nm now i
  | OpRename sp sn dp dn now => Index_Rename sp sn dp dn now i
  | OpSetAttr ino m u g s a mt now => SetAttr ino m u g s a mt now i
  | OpAppend ino e now => AppendExtent ino e now i
  | OpWrite ino e now => WriteExtent ino e now i
  | OpSymlink ino t now => SetSymlink ino t now i
  | OpSetXattr ino nm v now => SetXattr ino nm v now i
  | OpRemoveXattr ino nm now => RemoveXattr ino nm now i
  | OpTouch ino now => Ret tt (TouchAtime ino now i)
  | OpRemap remap => Ret tt (RemapExtents remap i)
  | OpMarkClean => Ret tt (MarkClean i)
  | OpMarkRemoteClean => Ret tt (MarkRemoteClean i)
  end.

(** What the callers of the index guarantee: inode numbers and link counts
    are not exhausted, the root is never linked, and a rename has an existing
    destination directory and two different names. *)
Definition op_ok (o : idx_op) (i : Index) : Prop :=
  match o with
  | OpCreate _ _ _ _ _ _ => nextIno i < 2 ^ 64 - 1
  | OpAdd _ _ c _ =>
      c ≠ RootIno ∧ ∀ n, inodes i !! c = Some n → Inode.Nlink n + 1 < 2 ^ 32
  | OpRename sp sn dp dn _ => dp ∈ dirs i ∧ (sp, sn) ≠ (dp, dn)
  | _ => True
  end.

(** The states of an index: a new one, and what a call leaves, whether it
    returned or failed. *)
Inductive reachable : Index → Prop :=
| reach_new bs now : reachable (New bs now)
| reach_op i o i' :
    reachable i → op_ok o i → out_state (run_op o i) = Some i' → reachable i'.

Lemma run_op_preserves o i : wf_index i → op_ok o i → preserves (run_op o i).
Proof.
  move=> Hwf. destruct o; simpl; try by auto with fusey.
  - move=> ?. by apply (CreateInode_preserves fileType mode uid gid rdev now).
  - move=> [? ?]. auto with fusey.
  - move=> [? ?]. auto with fusey.
  - move=> _. by apply TouchAtime_wf.
  - move=> _. by apply RemapExtents_wf.
  - move=> _. by eapply wf_same_views.
  - move=> _. by eapply wf_same_views.
Qed.

Lemma reachable_inv i : reachable i → wf_index i.
Proof.
  elim=> [bs now|j o j' _ Hwf Hok Hout]; [apply New_wf|].
  pose proof (run_op_preserves o j Hwf Hok) as H. by rw /preserves Hout in H.
Qed.

(** C7: every reachable index satisfies the structural invariant (root is a
    directory, entries name existing inodes, link counts equal the number of
    entries, side tables only for live inodes of the right type), and no call
    made from one within the callers' guarantees panics. *)
Theorem reachable_wf i :
  reachable i →
  wf_index i ∧ ∀ o, op_ok o i → run_op o i ≠ Crash.
Proof.
  move=> /reachable_inv Hwf. split; [done|]. move=> o Hok E. pose proof (run_op_preserves o i Hwf Hok) as H.
  by rw /preserves E in H.
Qed.

Definition demo_run : Index :=
  match out_state (CreateInode Regular 0x1A4 0 0 0 5 (New 4096 1)) with
  | Some i => match out_state (AddDirEntry RootIno "a" 2 6 i) with Some i => i | None => i end
  | None => New 4096 1
  end.

Lemma demo_run_reachable : reachable demo_run.
Proof.
  apply (reach_op (match out_state (CreateInode Regular 0x1A4 0 0 0 5 (New 4096 1)) with
                   | Some i => i | None => New 4096 1 end) (OpAdd RootIno "a" 2 6)).
  - apply (reach_op (New 4096 1) (OpCreate Regular 0x1A4 0 0 0 5)).
    + apply reach_new.
    + vm_compute. reflexivity.
    + vm_compute. reflexivity.
  - split; [discriminate|]. move=> n Hn. vm_compute in Hn.
    injection Hn as <-. reflexivity.
  - vm_compute. reflexivity.
Qed.

Lemma reachable_wf_witness : wf_index demo_run ∧ run_op (OpRemove RootIno "a" 7) demo_run ≠ Crash.
Proof.
  destruct (reachable_wf demo_run demo_run_reachable) as [H1 H2].
  split; [exact H1|]. exact (H2 (OpRemove RootIno "a" 7) I).
Defined.

(** Renaming an entry onto itself breaks the invariant: the destination
    block takes a link from the file and frees it, and the entry that is put
    back names an inode that no longer exists. *)
Theorem Rename_onto_itself_breaks :
  match Index_Rename RootIno "a" RootIno "a" 7 demo_run with
  | Ret _ i =>
      dir_lookup i RootIno "a" = Some 2 ∧ inodes i !! 2 = None ∧ ¬ wf_index i
  | _ => False
  end.
Proof.
  assert (∀ i, dir_lookup i RootIno "a" = Some 2 → inodes i !! 2 = None → ¬ wf_index i) as Hbad.
  { move=> i Hl Hn Hwf. destruct (wf_entry_child _ _ _ _ Hwf Hl) as (_ & _ & n & Hn').
    congruence. }
  assert (match Index_Rename RootIno "a" RootIno "a" 7 demo_run with
          | Ret _ i => dir_lookup i RootIno "a" = Some 2 ∧ inodes i !! 2 = None
          | _ => False end) as H by (vm_compute; done).
  destruct (Index_Rename _ _ _ _ _ _); try done. destruct H as [Hl Hn]. eauto.
Qed.

(** ** Writing and truncating *)

Definition file_extents (i : Index) (ino : Z) : list Extent.t := default [] (extents i !! ino).
Definition file_size (i : Index) (ino : Z) : Z := Inode.Size (GetInode i ino).1.
Definition is_regular (i : Index) (ino : Z) : Prop :=
  ∃ n, inodes i !! ino = Some n ∧ Inode.FileType n = Regular.

(** Everything about the other inodes is as before. *)
Definition others_unchanged (ino : Z) (i i' : Index) : Prop :=
  dirIndex i' = dirIndex i ∧ symlinks i' = symlinks i ∧ xattrs i' = xattrs i ∧
  nextIno i' = nextIno i ∧
  ∀ k, k ≠ ino → inodes i' !! k = inodes i !! k ∧ extents i' !! k = extents i !! k.

Lemma file_size_grow i j ino newSize now n :
  inodes i !! ino = Some n →
  inodes j = inodes i →
  file_size (mark_dirty (on_inode ino (fun n => set_mctime now (grow_size newSize n)) j)) ino =
  Z.max (file_size i ino) newSize.
Proof.
  move=> Hn Hj. rw /file_size /GetInode /= Hj lookup_alter_eq Hn /= /grow_size Z.gtb_ltb.
  destruct (Z.ltb_spec (Inode.Size n) newSize) => /=; lia.
Qed.

(** The state that [WriteExtent] leaves for a regular file. *)
Lemma WriteExtent_ret ino ext now i :
  is_regular i ino →
  ∃ i', WriteExtent ino ext now i = Ret tt i' ∧
    file_extents i' ino = write_extents [] (file_extents i ino) ext ∧
    file_size i' ino = Z.max (file_size i ino) (eEnd ext) ∧
    others_unchanged ino i i'.
Proof.
  move=> [n [Hn Hr]]. rw /WriteExtent Hn decide_False; [|by move=> ?].
  eexists. split; [done|]. split_and!.
  - by rw /file_extents /= lookup_insert_eq.
  - by eapply file_size_grow.
  - split_and!; [done..|]. move=> k ?. rw /= lookup_alter_ne // lookup_insert_ne //.
Qed.

(** C20: a write to a regular file, when no extent but the last one reaches
    beyond both ends of the written range, maps exactly the written range to
    the new chunk bytes and every other offset to where it was, grows the size
    to the end of the write, keeps extents well-formed and disjoint, and
    touches no other inode. *)
Theorem WriteExtent_maps_range ino ext now i :
  is_regular i ino → wf_extent ext → Forall wf_extent (file_extents i ino) →
  no_inner_split (Extent.FileOffset ext) (eEnd ext) (file_extents i ino) = true →
  ∃ i', WriteExtent ino ext now i = Ret tt i' ∧
    (∀ o, locate (file_extents i' ino) o =
       if decide (covers ext o)
       then Some (Extent.ChunkID ext, Extent.ChunkOffset ext + (o - Extent.FileOffset ext))
       else locate (file_extents i ino) o) ∧
    file_size i' ino = Z.max (file_size i ino) (Extent.FileOffset ext + Extent.Length ext) ∧
    Forall wf_extent (file_extents i' ino) ∧
    (non_overlapping (file_extents i ino) → non_overlapping (file_extents i' ino)) ∧
    others_unchanged ino i i'.
Proof.
  move=> Hr He Hwf Hns. destruct (WriteExtent_ret ino ext now i Hr) as (i' & Ei & Ex & Es & Eo).
  exists i'. rw write_extents_correct // in Ex. rw Ex Es (eEnd_wf _ He).
  split_and!; try done.
  - move=> o. rw locate_write_spec // /point. by case_decide.
  - by apply write_spec_wf.
  - move=> ?. by apply write_spec_non_overlapping.
Qed.

(** A file of 12 bytes in one chunk, written by three calls. *)
Definition demo_ext (off : Z) : Extent.t := Extent.mk "chunk-00000000" off 4 off.
Definition demo_file (exts : list Extent.t) (size : Z) : Index :=
  mkIndex {[ 1 := Inode.mk 1 Directory 0x1ED 1 0 0 0 1 1 1 4096 0 0;
             2 := Inode.mk 2 Regular 0x1A4 1 0 0 size 1 1 1 4096 1 0 ]}
          {[ 1 := {[ "a" := 2 ]} ]} {[ 2 := exts ]} ∅ ∅ 3 4096 false false.

Lemma demo_extents_wf : Forall wf_extent [demo_ext 0; demo_ext 4; demo_ext 8].
Proof. repeat constructor; vm_compute; discriminate. Qed.

Lemma WriteExtent_maps_range_witness :
  let i := demo_file [demo_ext 0; demo_ext 4; demo_ext 8] 12 in
  let ext := Extent.mk "chunk-00000001" 0 6 3 in
  ∃ i', WriteExtent 2 ext 9 i = Ret tt i' ∧
    locate (file_extents i' 2) 5 = Some ("chunk-00000001", 2) ∧
    locate (file_extents i' 2) 10 = Some ("chunk-00000000", 10).
Proof.
  destruct (WriteExtent_maps_range 2 (Extent.mk "chunk-00000001" 0 6 3) 9
              (demo_file [demo_ext 0; demo_ext 4; demo_ext 8] 12)) as (i' & E & Hl & _).
  - eexists. split; reflexivity.
  - vm_compute. repeat split; discriminate.
  - exact demo_extents_wf.
  - reflexivity.
  - exists i'. split; [exact E|]. rw !Hl. split; reflexivity.
Defined.

(** C37: a write that falls strictly inside an extent that is not the last one
    of its file loses every byte stored by the extents after it: the extents
    are filtered in place, and the second entry appended for the split extent
    overwrites the next slot before the loop reads it. *)
Theorem WriteExtent_inner_split_loses ino ext now i pre x post :
  is_regular i ino → file_extents i ino = pre ++ x :: post →
  Forall wf_extent (pre ++ x :: post) → wf_extent ext →
  splits (Extent.FileOffset ext) (eEnd ext) x = true →
  (∀ e, e ∈ pre ++ post → disjoint_extents x e) →
  (∀ e e', e ∈ pre → e' ∈ post → disjoint_extents e e') →
  (∀ e, e ∈ pre → 0 < Extent.Length e) →
  ∃ i', WriteExtent ino ext now i = Ret tt i' ∧
    ∀ e o, e ∈ post → covers e o → locate (file_extents i' ino) o = None.
Proof.
  move=> Hr Hf Hwf He Hs Hd Hd' Hp.
  destruct (WriteExtent_ret ino ext now i Hr) as (i' & Ei & Ex & _ & _).
  exists i'. split; [done|]. move=> e o Hin Hc. rw Ex Hf.
  move: Hwf => /Forall_app [? /Forall_cons [? ?]].
  apply locate_inner_split => //. eauto.
Qed.

Lemma WriteExtent_inner_split_loses_witness :
  let i := demo_file [demo_ext 0; demo_ext 4; demo_ext 8] 12 in
  locate (file_extents i 2) 9 = Some ("chunk-00000000", 9) ∧
  ∃ i', WriteExtent 2 (Extent.mk "chunk-00000001" 0 2 1) 9 i = Ret tt i' ∧
    locate (file_extents i' 2) 9 = None.
Proof.
  split; [reflexivity|].
  destruct (WriteExtent_inner_split_loses 2 (Extent.mk "chunk-00000001" 0 2 1) 9
              (demo_file [demo_ext 0; demo_ext 4; demo_ext 8] 12)
              [] (demo_ext 0) [demo_ext 4; demo_ext 8]) as (i' & E & Hl).
  - eexists. split; reflexivity.
  - reflexivity.
  - exact demo_extents_wf.
  - vm_compute. repeat split; discriminate.
  - reflexivity.
  - move=> e Hin o. rw /covers.
    apply elem_of_cons in Hin as [->|Hin]; [simpl; lia|].
    apply list_elem_of_singleton in Hin as ->. simpl. lia.
  - move=> e e' Hin. by apply elem_of_nil in Hin.
  - move=> e Hin. by apply elem_of_nil in Hin.
  - exists i'. split; [exact E|]. apply (Hl (demo_ext 8) 9).
    + right. left.
    + rw /covers /=. lia.
Defined.

(** The list that [WriteExtent] stores does not depend on the spare capacity of
    the slice it filters in place. *)
Lemma WriteExtent_capacity_irrelevant (spare1 spare2 exts : list Extent.t) (ext : Extent.t) :
  write_extents spare1 exts ext = write_extents spare2 exts ext.
Proof. by rw (write_extents_spare spare1) (write_extents_spare spare2). Qed.

(** Setting the size of a regular file to a different value drops exactly
    the mapping at and beyond the new size and records the new size; growing
    adds a hole. *)
Theorem SetAttr_truncates ino newSize now i :
  is_regular i ino → is_i64 newSize → newSize ≠ file_size i ino →
  Forall wf_extent (file_extents i ino) →
  ∃ i', SetAttr ino None None None (Some newSize) None None now i = Ret tt i' ∧
    (∀ o, locate (file_extents i' ino) o =
       if decide (o < newSize) then locate (file_extents i ino) o else None) ∧
    Forall (fun e => eEnd e <= newSize) (file_extents i' ino) ∧
    Forall wf_extent (file_extents i' ino) ∧
    file_size i' ino = newSize ∧ others_unchanged ino i i'.
Proof.
  move=> [n [Hn Hr]] Hi Hne Hwf. rw /file_size /GetInode Hn /= in Hne.
  rw /SetAttr Hn decide_True // decide_True //.
  eexists. split; [done|]. rw /file_extents /= lookup_insert_eq /=. split_and!.
  - move=> o. by apply locate_trim.
  - by apply trim_bounded.
  - by apply trim_wf.
  - by rw /file_size /GetInode /= !lookup_alter_eq Hn.
  - split_and!; [done..|]. move=> k ?. rw /= !lookup_alter_ne // lookup_insert_ne //.
Qed.

Lemma SetAttr_truncates_witness :
  let i := demo_file [demo_ext 0; demo_ext 4; demo_ext 8] 12 in
  ∃ i', SetAttr 2 None None None (Some 6) None None 9 i = Ret tt i' ∧
    locate (file_extents i' 2) 5 = Some ("chunk-00000000", 5) ∧
    locate (file_extents i' 2) 6 = None.
Proof.
  destruct (SetAttr_truncates 2 6 9 (demo_file [demo_ext 0; demo_ext 4; demo_ext 8] 12))
    as (i' & E & Hl & _).
  - eexists. split; reflexivity.
  - rw /is_i64. lia.
  - vm_compute. discriminate.
  - exact demo_extents_wf.
  - exists i'. split; [exact E|]. rw !Hl. split; reflexivity.
Defined.

(** ** Links *)

(** Removing an entry of a well-formed index removes just that entry; a
    child that other entries still name keeps its data with one link less, and
    the last entry takes the inode, its extents, symlink target, attributes
    and entry map with it. *)
Theorem RemoveDirEntry_counts_links p nm now i c n :
  wf_index i → is_Some (inodes i !! p) → dir_lookup i p nm = Some c →
  inodes i !! c = Some n →
  ¬ (Inode.FileType n = Directory ∧ (0 < size (default ∅ (dirIndex i !! c)))%nat) →
  ∃ i', RemoveDirEntry p nm now i = Ret tt i' ∧
    entries i' = delete (p, nm) (entries i) ∧
    (1 < refs (entries i) c →
       (∃ n', inodes i' !! c = Some n' ∧ Inode.Nlink n' = Inode.Nlink n - 1) ∧
       extents i' !! c = extents i !! c) ∧
    (refs (entries i) c = 1 →
       inodes i' !! c = None ∧ extents i' !! c = None ∧ symlinks i' !! c = None ∧
       xattrs i' !! c = None ∧ dirIndex i' !! c = None).
Proof.
  move=> Hwf [np Hp] Hl Hn Hempty. rw /RemoveDirEntry Hp Hl Hn decide_False //.
  pose proof (wf_named_nlink _ _ _ _ _ Hwf Hl Hn) as Hb.
  destruct (core_nlink _ _ _ _ (wf_struct _ Hwf) _ _ (skeleton_Some _ _ _ Hn)) as [Hnl _].
  pose proof (removable_children _ _ _ (wf_struct _ Hwf) Hn Hempty) as Hch.
  rw /= -/(free_threshold n) in Hnl.
  assert (free_threshold n = self_links (Inode.FileType n)) as Hth by done.
  assert (0 <= free_threshold n) by (rw /free_threshold; case_decide; lia).
  rw u32_pred; [|lia]. eexists. split; [done|].
  destruct (Z.leb_spec (Inode.Nlink n - 1) (free_threshold n)).
  - split_and!; [|simpl in *; lia|].
    + rw /entries /= flat_free ?flat_delete // lookup_alter.
      case_decide as E; [rw E|done]. destruct (dirIndex i !! c) => //=.
      simpl in Hch. by rw Hch delete_empty.
    + move=> _. cbn. rw !lookup_delete_eq. split_and!; [|done..].
      rw lookup_alter. case_decide as E; [rw E|]; by rw lookup_delete_eq.
  - split_and!; [by rw /entries /= flat_delete| |simpl in *; lia].
    move=> _. split; [|done]. cbn.
    rw (lookup_alter (set_mctime now)) lookup_alter_eq lookup_alter_eq Hn.
    case_decide as E; [subst p|]; simpl.
    + rw !lookup_alter_eq Hn /=. eauto.
    + eauto.
Qed.

Lemma RemoveDirEntry_counts_links_witness :
  ∃ i', RemoveDirEntry RootIno "a" 9 demo_run = Ret tt i' ∧
    inodes i' !! 2 = None ∧ extents i' !! 2 = None.
Proof.
  destruct (RemoveDirEntry_counts_links RootIno "a" 9 demo_run 2
    (Inode.mk 2 Regular 0x1A4 1 0 0 0 5 5 6 4096 0 0)) as (i' & E & _ & _ & H).
  - exact (reachable_inv _ demo_run_reachable).
  - eexists. reflexivity.
  - reflexivity.
  - reflexivity.
  - move=> [H _]. vm_compute in H. discriminate.
  - exists i'. split; [exact E|]. destruct H as (?&?&_); [reflexivity|]. by split.
Defined.

(** ** Dirty flags *)

Definition structural (o : idx_op) : bool :=
  match o with OpTouch _ _ | OpMarkClean | OpMarkRemoteClean => false | _ => true end.

(** Every mutation but an access-time update leaves the index dirty both
    for the local and for the remote copy; an access-time update of an
    existing inode makes only the local copy dirty. *)
Theorem dirty_flags o i i' :
  run_op o i = Ret tt i' →
  (structural o = true → IsDirty i' = true ∧ IsRemoteDirty i' = true) ∧
  (∀ ino now, o = OpTouch ino now → IsRemoteDirty i' = IsRemoteDirty i ∧
     (is_Some (inodes i !! ino) → IsDirty i' = true)).
Proof.
  move=> Hrun. split.
  - destruct o => //= _; move: Hrun; rw /= /AddDirEntry /RemoveDirEntry /Index_Rename
      /SetAttr /AppendExtent /WriteExtent /SetSymlink /SetXattr /RemoveXattr;
      intros; simplify_eq/=; try done; repeat (case_match; simplify_eq/=; try done).
    all: destruct (rename_drop_dst _ _ _) => //=; simplify_eq/=.
    all: by repeat (case_match; simplify_eq/=; try done).
  - move=> ino now ?. subst. simpl in Hrun. simplify_eq. rw /TouchAtime.
    destruct (inodes i !! ino) => //.
Qed.

Lemma dirty_flags_witness :
  ∃ i', run_op (OpTouch 2 9) (demo_file [] 0) = Ret tt i' ∧
    IsDirty i' = true ∧ IsRemoteDirty i' = false.
Proof.
  eexists. split; [reflexivity|].
  destruct (dirty_flags (OpTouch 2 9) (demo_file [] 0) _ eq_refl) as [_ H].
  destruct (H 2 9 eq_refl) as [H1 H2]. split; [|exact H1]. apply H2. eexists. reflexivity.
Defined.

(** ** Scans *)

(** For an inode other than the root, [GetParentIno] returns a directory
    that has an entry for it when there is one, and the inode itself when
    there is none; for the root it returns the root. *)
Theorem GetParentIno_finds i ino :
  GetParentIno i RootIno = RootIno ∧
  (ino ≠ RootIno → (∃ p nm, dir_lookup i p nm = Some ino) →
     ∃ nm, dir_lookup i (GetParentIno i ino) nm = Some ino) ∧
  (ino ≠ RootIno → ¬ (∃ p nm, dir_lookup i p nm = Some ino) → GetParentIno i ino = ino).
Proof.
  rw /GetParentIno. split; [done|].
  split => Hne Hex; rw (decide_False _ _ Hne).
  - destruct Hex as (p & nm & Hl). rw /dir_lookup in Hl.
    apply bind_Some in Hl as (ch & Hp & Hnm).
    destruct (filter _ _) as [|[p' ch'] l] eqn:Hf.
    + assert ((p, ch) ∈ ([] : list (Z * gmap string Z))) as Hin; [|by apply elem_of_nil in Hin].
      rw -Hf list_elem_of_filter /=. split; [|by apply elem_of_map_to_list].
      apply list_elem_of_fmap. exists (nm, ino). split; [done|]. by apply elem_of_map_to_list.
    + assert ((p', ch') ∈ (p', ch') :: l) as Hin by left.
      rw -Hf list_elem_of_filter /= in Hin. destruct Hin as [Hc Hp'].
      apply elem_of_map_to_list in Hp'. apply list_elem_of_fmap in Hc as ([nm' c] & -> & Hc).
      apply elem_of_map_to_list in Hc. exists nm'. by rw /dir_lookup Hp' /= Hc.
  - destruct (filter _ _) as [|[p' ch'] l] eqn:Hf; [done|]. exfalso. apply Hex.
    assert ((p', ch') ∈ (p', ch') :: l) as Hin by left.
    rw -Hf list_elem_of_filter /= in Hin. destruct Hin as [Hc Hp'].
    apply elem_of_map_to_list in Hp'. apply list_elem_of_fmap in Hc as ([nm' c] & -> & Hc).
    apply elem_of_map_to_list in Hc. exists p', nm'. by rw /dir_lookup Hp' /= Hc.
Qed.

(** The exact sum of the sizes of the regular files. *)
Definition regular_total (i : Index) : Z :=
  map_fold (fun _ n total =>
    if decide (Inode.FileType n = Regular) then total + Inode.Size n else total)
    0 (inodes i).

Lemma i64_add_i64 a b : i64 (i64 a + b) = i64 (a + b).
Proof.
  rw /i64. rw (_ : (a + 2 ^ 63) mod 2 ^ 64 - 2 ^ 63 + b + 2 ^ 63 =
    (a + 2 ^ 63) mod 2 ^ 64 + b); [|lia].
  rw Z.add_mod_idemp_l; [|lia]. do 2 f_equal. lia.
Qed.

(** [UsedBytes] is that sum, wrapped to 64 bits. *)
Lemma UsedBytes_sum i : UsedBytes i = i64 (regular_total i).
Proof.
  rw /UsedBytes /regular_total !map_fold_foldr.
  elim: (map_to_list (inodes i)) => [//|[k n] l IH] /=.
  rw IH. case_decide; [by rw i64_add_i64|done].
Qed.

(** Adding an inode to the map adds its size. *)
Lemma regular_total_insert i ino n :
  inodes i !! ino = None →
  regular_total (on_inodes <[ino := n]> i) =
  regular_total i + if decide (Inode.FileType n = Regular) then Inode.Size n else 0.
Proof.
  move=> Hn. rw /regular_total /= map_fold_insert_L //.
  - case_decide; lia.
  - move=> j1 j2 z1 z2 y *. repeat case_decide; lia.
Qed.
