(* ===== verification/OS.v ===== *)
(** The parts of Go's [os] and [path/filepath] packages that fusey uses, as a
    file system with injected faults.

    A disk is a map from paths to contents together with the list of faults
    that the next calls meet; theorems quantify over that list. Directories
    are not represented: [MkdirAll] either succeeds or fails. *)
From S2P Require Import Prelude.

(** What goes wrong in one call: nothing; the call fails without an effect;
    a write fails after storing the first [n] bytes. *)
Inductive fault := NoFault | FaultNow | FaultAfter (n : nat).

Record Disk := mkDisk { files : gmap string bytes; faults : list fault }.

Inductive OsErr := ErrNotExist | ErrIO.

Definition next_fault (d : Disk) : fault := default NoFault (head (faults d)).
Definition pop_fault (d : Disk) : Disk := mkDisk (files d) (tail (faults d)).
Definition on_files f (d : Disk) : Disk := mkDisk (f (files d)) (faults d).

(** [filepath.Join(dir, name)] for a clean [dir] and a [name] without
    separators. *)
Definition Join (dir name : string) : string := (dir +:+ "/" +:+ name)%string.

(** [os.WriteFile]: creates or truncates, then writes. *)
Definition os_WriteFile (path : string) (data : bytes) (d : Disk) : outcome OsErr Disk unit :=
  let f := next_fault d in
  let d := pop_fault d in
  match f with
  | NoFault => Ret tt (on_files <[path := data]> d)
  | FaultNow => Fail ErrIO d
  | FaultAfter n => Fail ErrIO (on_files <[path := take n data]> d)
  end.

(** [os.Rename]: replaces the destination atomically. *)
Definition os_Rename (src dst : string) (d : Disk) : outcome OsErr Disk unit :=
  let f := next_fault d in
  let d := pop_fault d in
  match f with
  | NoFault =>
      match files d !! src with
      | None => Fail ErrNotExist d
      | Some data => Ret tt (on_files (fun m => <[dst := data]> (delete src m)) d)
      end
  | _ => Fail ErrIO d
  end.

(** [os.Remove]. *)
Definition os_Remove (path : string) (d : Disk) : outcome OsErr Disk unit :=
  let f := next_fault d in
  let d := pop_fault d in
  match f with
  | NoFault =>
      match files d !! path with
      | None => Fail ErrNotExist d
      | Some _ => Ret tt (on_files (delete path) d)
      end
  | _ => Fail ErrIO d
  end.

(** [os.ReadFile]. *)
Definition os_ReadFile (path : string) (d : Disk) : outcome OsErr Disk bytes :=
  let f := next_fault d in
  let d := pop_fault d in
  match f with
  | NoFault =>
      match files d !! path with
      | None => Fail ErrNotExist d
      | Some data => Ret data d
      end
  | _ => Fail ErrIO d
  end.

(** [os.MkdirAll]. *)
Definition os_MkdirAll (path : string) (d : Disk) : outcome OsErr Disk unit :=
  match next_fault d with
  | NoFault => Ret tt (pop_fault d)
  | _ => Fail ErrIO (pop_fault d)
  end.

(** [os.Stat(path).Size()]. *)
Definition os_Stat_Size (path : string) (d : Disk) : outcome OsErr Disk Z :=
  let! data, d := os_ReadFile path d in Ret (len data) d.

(** [os.Open] followed by [f.ReadAt(make([]byte, length), offset)]: an error
    unless [length] bytes were read; [make] with a negative length panics. *)
Definition os_ReadAt (path : string) (offset length : Z) (d : Disk) : outcome OsErr Disk bytes :=
  let! data, d := os_ReadFile path d in
  if length <? 0 then Crash
  else if offset <? 0 then Fail ErrIO d
  else if offset + length <=? len data then Ret (slice data offset length) d
  else if length =? 0 then Ret [] d
  else Fail ErrIO d.

(** Writing [data] to [path ++ ".tmp"] and renaming it to [path]: the common
    pattern of the index snapshot, the chunk cache and the local store. *)
Definition tmp_name (path : string) : string := (path +:+ ".tmp")%string.

Lemma tmp_name_ne path : tmp_name path ≠ path.
Proof.
  move=> H. apply (f_equal String.length) in H. revert H. rw /tmp_name.
  induction path as [|c path IH]; [done|]. move=> /= [H]. by apply IH.
Qed.

(** Whatever the faults, another path than the two keeps its content. *)
Definition same_except (ps : list string) (d d' : Disk) : Prop :=
  ∀ p, p ∉ ps → files d' !! p = files d !! p.

Lemma os_WriteFile_frame path data d d' :
  out_state (os_WriteFile path data d) = Some d' → same_except [path] d d'.
Proof.
  rw /os_WriteFile. destruct (next_fault d) => /= -[<-] p Hp //=;
    rw lookup_insert_ne //; set_solver.
Qed.

Lemma os_WriteFile_ret path data d u d' :
  os_WriteFile path data d = Ret u d' → files d' = <[path := data]> (files d).
Proof. rw /os_WriteFile. by destruct (next_fault d) => //= -[_ <-]. Qed.

Lemma os_Rename_ret src dst d u d' :
  os_Rename src dst d = Ret u d' →
  ∃ data, files d !! src = Some data ∧ files d' = <[dst := data]> (delete src (files d)).
Proof.
  rw /os_Rename. destruct (next_fault d) => //=. destruct (files d !! src) => //=.
  move=> [_ <-] /=. eauto.
Qed.

Lemma os_Rename_fail src dst d e d' :
  os_Rename src dst d = Fail e d' → files d' = files d.
Proof.
  rw /os_Rename. destruct (next_fault d) => /=; [|by move=> [_ <-]..].
  destruct (files d !! src) => //=. by move=> [_ <-].
Qed.

Lemma os_ReadFile_files path d d' :
  out_state (os_ReadFile path d) = Some d' → files d' = files d.
Proof.
  rw /os_ReadFile. destruct (next_fault d) => /=; [|by move=> [<-]..].
  destruct (files d !! path); by move=> [<-].
Qed.

Lemma os_ReadFile_ret path d data d' :
  os_ReadFile path d = Ret data d' → files d !! path = Some data ∧ files d' = files d.
Proof.
  rw /os_ReadFile. destruct (next_fault d) => //=. destruct (files d !! path) => //=.
  by move=> [-> <-].
Qed.

Lemma os_ReadFile_crash path d : os_ReadFile path d ≠ Crash.
Proof. rw /os_ReadFile. by destruct (next_fault d), (files (pop_fault d) !! path). Qed.

Lemma os_ReadAt_cases path off n d : (0 <= off)%Z → (0 <= n)%Z →
  match os_ReadAt path off n d with
  | Ret b d' => files d' = files d ∧ ∃ data, files d !! path = Some data ∧
      ((0 < n)%Z → (off + n <= len data)%Z ∧ b = slice data off n)
  | Fail _ d' => files d' = files d
  | Crash => False
  end.
Proof.
  move=> Ho Hn. rw /os_ReadAt.
  destruct (os_ReadFile path d) as [data d1|e d1|] eqn:H => /=.
  - apply os_ReadFile_ret in H as [Hd Hf].
    destruct (Z.ltb_spec n 0); [lia|]. destruct (Z.ltb_spec off 0); [lia|].
    destruct (Z.leb_spec (off + n) (len data)); [split; [done|]; eauto|].
    destruct (Z.eqb_spec n 0); [|done]. split; [done|]. exists data. split; [done|]. lia.
  - by apply (os_ReadFile_files path d); rw H.
  - by apply os_ReadFile_crash in H.
Qed.
