(* ===== verification/Decimal.v ===== *)
(** Chunk identifiers as text: Go's [fmt.Sprintf("%08d")] and the two
    [fmt.Sscanf] formats that read it back, with their round trips. Used by
    the index persistence (src/internal/index/persist.go) and by the chunk
    store (src/internal/chunks/chunk_store.go). *)
From S2P Require Import Prelude.
From Stdlib Require Import Strings.Ascii.
#[local] Open Scope Z_scope.

(** ** Printing *)

(** The decimal digits of [n >= 0], most significant first; 20 digits are
    enough for every 64-bit value. *)
Fixpoint dec_digits (fuel : nat) (n : Z) (acc : list Z) : list Z :=
  match fuel with
  | O => acc
  | S fuel =>
      if n <? 10 then n :: acc else dec_digits fuel (n / 10) (n mod 10 :: acc)
  end.

Definition digits (n : Z) : list Z := dec_digits 20 n [].

Definition digit_char (d : Z) : ascii := ascii_of_N (Z.to_N (48 + d)).

Fixpoint digit_string (ds : list Z) : string :=
  match ds with
  | [] => EmptyString
  | d :: ds => String (digit_char d) (digit_string ds)
  end.

(** Zero padding on the left to [w] digits. *)
Definition zero_pad (w : nat) (ds : list Z) : list Z := replicate (w - length ds) 0 ++ ds.

(** [fmt.Sprintf("%08d", n)]: the sign counts towards the width. *)
Definition Sprintf_08d (n : Z) : string :=
  if n <? 0 then String "-"%char (digit_string (zero_pad 7 (digits (- n))))
  else digit_string (zero_pad 8 (digits n)).

(** [fmt.Sprintf("%d", n)]. *)
Definition Sprintf_d (n : Z) : string :=
  if n <? 0 then String "-"%char (digit_string (digits (- n)))
  else digit_string (digits n).

(** ** Scanning *)

Definition char_digit (c : ascii) : option Z :=
  let n := Z.of_N (N_of_ascii c) in
  if (48 <=? n) && (n <=? 57) then Some (n - 48) else None.

(** The longest prefix of digits. *)
Fixpoint scan_digits (s : string) : list Z :=
  match s with
  | EmptyString => []
  | String c s => match char_digit c with Some d => d :: scan_digits s | None => [] end
  end.

Definition value (ds : list Z) : Z := foldl (fun acc d => acc * 10 + d) 0 ds.

(** [s.SkipSpace()] in [Sscanf]: blanks are skipped, a newline is an error. *)
Fixpoint skip_space (s : string) : option string :=
  match s with
  | EmptyString => Some EmptyString
  | String c s' =>
      let n := N_of_ascii c in
      if (n =? 10)%N then None
      else if (n =? 9)%N || (n =? 11)%N || (n =? 12)%N || (n =? 13)%N || (n =? 32)%N
      then skip_space s' else Some s
  end.

(** [fmt.Sscanf(s, "%d", &v)] with [v] a [uint32]: at least one digit, a value
    that fits; what follows the digits is not looked at. *)
Definition scan_uint32 (s : string) : option Z :=
  match skip_space s with
  | None => None
  | Some s =>
      match scan_digits s with
      | [] => None
      | ds => if value ds <? 2 ^ 32 then Some (value ds) else None
      end
  end.

Fixpoint str_take (n : nat) (s : string) : string :=
  match n, s with
  | S n, String c s => String c (str_take n s)
  | _, _ => EmptyString
  end.

(** The verb ["%08d"] with an [int]: a sign is accepted, and sign and digits
    together are at most 8 characters. *)
Definition scan_int_w8 (s : string) : option Z :=
  match skip_space s with
  | None => None
  | Some s =>
      match str_take 8 s with
      | String c s' as s =>
          let neg := Ascii.eqb c "-"%char in
          let body := if neg || Ascii.eqb c "+"%char then s' else s in
          match scan_digits body with
          | [] => None
          | ds => Some (if neg then - value ds else value ds)
          end
      | EmptyString => None
      end
  end.

(** [strings.HasPrefix] with the rest of the string. *)
Fixpoint strip_prefix (p s : string) : option string :=
  match p, s with
  | EmptyString, _ => Some s
  | String a p, String b s => if Ascii.eqb a b then strip_prefix p s else None
  | _, _ => None
  end.

Definition chunkIDPrefix : string := "chunk-".

(** [fmt.Sprintf("chunk-%08d", seq)]. *)
Definition format_chunk_id (seq : Z) : string := (chunkIDPrefix +:+ Sprintf_08d seq)%string.

(** [fmt.Sscanf(id, "chunk-%08d", &seq)], [None] when nothing was scanned. *)
Definition scan_chunk_id (id : string) : option Z :=
  match strip_prefix chunkIDPrefix id with
  | None => None
  | Some rest => scan_int_w8 rest
  end.

(** ** Lemmas *)

Lemma value_app ds es : value (ds ++ es) = foldl (fun acc d => acc * 10 + d) (value ds) es.
Proof. by rw /value foldl_app. Qed.

Lemma value_snoc ds d : value (ds ++ [d]) = value ds * 10 + d.
Proof. by rw value_app. Qed.

Lemma value_zeros n ds : value (replicate n 0 ++ ds) = value ds.
Proof. rw value_app. f_equal. elim: n => [//|n IH]. by rw replicate_S_end value_snoc IH. Qed.

Definition is_digit (d : Z) : Prop := 0 <= d < 10.

Lemma dec_digits_spec fuel n acc :
  0 <= n < 10 ^ Z.of_nat fuel → (0 < fuel)%nat →
  ∃ ds, dec_digits fuel n acc = ds ++ acc ∧ value ds = n ∧ Forall is_digit ds ∧ ds ≠ [].
Proof.
  elim: fuel n acc => [|fuel IH] n acc Hn Hf; [lia|]. simpl.
  destruct (Z.ltb_spec n 10) as [|Hge].
  - exists [n]. split_and!; try done. repeat constructor; lia.
  - rw Nat2Z.inj_succ Z.pow_succ_r in Hn; [|lia].
    destruct fuel as [|fuel]; [simpl in Hn; lia|].
    destruct (IH (n / 10) (n mod 10 :: acc)) as (ds & -> & Hv & Hd & Hne); [|lia|].
    + split; [apply Z.div_pos; lia|]. apply Z.div_lt_upper_bound; lia.
    + exists (ds ++ [n mod 10]). rw -app_assoc value_snoc Hv. split_and!; [done| | |].
      * pose proof (Z.div_mod n 10). lia.
      * apply Forall_app. split; [done|]. repeat constructor; apply Z.mod_pos_bound; lia.
      * by destruct ds.
Qed.

Lemma digits_spec n :
  0 <= n < 2 ^ 64 → value (digits n) = n ∧ Forall is_digit (digits n) ∧ digits n ≠ [].
Proof.
  move=> Hn. assert (2 ^ 64 <= 10 ^ Z.of_nat 20) by (vm_compute; discriminate).
  destruct (dec_digits_spec 20 n []) as (ds & E & ?); [lia|lia|].
  by rw /digits E app_nil_r.
Qed.

Lemma digit_cases d :
  is_digit d → d = 0 ∨ d = 1 ∨ d = 2 ∨ d = 3 ∨ d = 4 ∨ d = 5 ∨ d = 6 ∨ d = 7 ∨ d = 8 ∨ d = 9.
Proof. rw /is_digit. lia. Qed.

Lemma char_digit_char d : is_digit d → char_digit (digit_char d) = Some d.
Proof.
  by move=> /digit_cases [->|[->|[->|[->|[->|[->|[->|[->|[->| ->]]]]]]]]].
Qed.

Lemma scan_digit_string ds : Forall is_digit ds → scan_digits (digit_string ds) = ds.
Proof.
  elim=> [//|d l Hd _ IH] /=. by rw char_digit_char // IH.
Qed.

Lemma skip_space_digits ds : Forall is_digit ds → skip_space (digit_string ds) = Some (digit_string ds).
Proof.
  case=> [//|d l /digit_cases Hd _].
  by destruct Hd as [->|[->|[->|[->|[->|[->|[->|[->|[->| ->]]]]]]]]].
Qed.

Lemma str_length_app (a b : string) : String.length (a +:+ b)%string = (String.length a + String.length b)%nat.
Proof. elim: a => [//|x a IH]. exact (f_equal Datatypes.S IH). Qed.

Lemma str_app_assoc (a b c : string) : (a +:+ b +:+ c)%string = ((a +:+ b) +:+ c)%string.
Proof. elim: a => [//|x a IH]. exact (f_equal (String x) IH). Qed.

Lemma strip_prefix_app p s : strip_prefix p (p +:+ s)%string = Some s.
Proof.
  elim: p => [//|c p IH]. change (String c p +:+ s)%string with (String c (p +:+ s)%string).
  rw /strip_prefix -/strip_prefix Ascii.eqb_refl. done.
Qed.

Lemma zero_pad_digits w ds : Forall is_digit ds → Forall is_digit (zero_pad w ds).
Proof.
  move=> ?. apply Forall_app. split; [|done]. apply Forall_replicate. rw /is_digit. lia.
Qed.

Lemma Sprintf_08d_nonneg n : 0 <= n → Sprintf_08d n = digit_string (zero_pad 8 (digits n)).
Proof. rw /Sprintf_08d => ?. by destruct (Z.ltb_spec n 0); [lia|]. Qed.

(** Reading back what was printed. *)
Lemma scan_uint32_Sprintf n : 0 <= n < 2 ^ 32 → scan_uint32 (Sprintf_08d n) = Some n.
Proof.
  move=> Hn. rw Sprintf_08d_nonneg; [|lia].
  destruct (digits_spec n) as (Hv & Hd & Hne); [lia|].
  pose proof (zero_pad_digits 8 _ Hd) as Hp.
  rw /scan_uint32 skip_space_digits // scan_digit_string //.
  assert (value (zero_pad 8 (digits n)) = n) as Hz by by rw /zero_pad value_zeros.
  destruct (zero_pad 8 (digits n)) eqn:E.
  - rw /zero_pad in E. by apply app_eq_nil in E as [_ ?].
  - rw Hz. by destruct (Z.ltb_spec n (2 ^ 32)); [|lia].
Qed.

Lemma digit_string_inj ds es :
  Forall is_digit ds → Forall is_digit es → digit_string ds = digit_string es → ds = es.
Proof. move=> Hd He E. by rw -(scan_digit_string ds) // E scan_digit_string. Qed.

(** Different sequence numbers give different identifiers. *)
Lemma format_chunk_id_inj m n :
  0 <= m < 2 ^ 63 → 0 <= n < 2 ^ 63 → format_chunk_id m = format_chunk_id n → m = n.
Proof.
  move=> Hm Hn E. assert (Sprintf_08d m = Sprintf_08d n) as E'.
  { apply (f_equal (strip_prefix chunkIDPrefix)) in E. rw /format_chunk_id !strip_prefix_app in E.
    by injection E. }
  rw !Sprintf_08d_nonneg in E'; [|lia..].
  destruct (digits_spec m) as (Hv & Hd & _); [lia|].
  destruct (digits_spec n) as (Hv' & Hd' & _); [lia|].
  apply digit_string_inj in E'; [|by apply zero_pad_digits..].
  apply (f_equal value) in E'. by rw /zero_pad !value_zeros Hv Hv' in E'.
Qed.

Lemma dec_digits_length fuel n acc k :
  0 <= n < 10 ^ Z.of_nat k → (0 < k)%nat →
  (length (dec_digits fuel n acc) <= k + length acc)%nat.
Proof.
  elim: fuel n acc k => [|fuel IH] n acc k Hn Hk; [simpl; lia|]. simpl.
  destruct (Z.ltb_spec n 10) as [|Hge]; [simpl; lia|].
  destruct k as [|[|k]]; [lia|simpl in Hn; lia|].
  rw Nat2Z.inj_succ Z.pow_succ_r in Hn; [|lia].
  specialize (IH (n / 10) (n mod 10 :: acc) (S k)). simpl in *. assert (0 <= n / 10 < 10 ^ Z.of_nat (S k)).
  { split; [apply Z.div_pos; lia|]. apply Z.div_lt_upper_bound; lia. }
  lia.
Qed.

Lemma str_take_digits n ds : (length ds <= n)%nat → str_take n (digit_string ds) = digit_string ds.
Proof.
  elim: n ds => [|n IH] [|d ds] //= Hl; [lia|]. by rw IH; [|lia].
Qed.

(** A first character that is a digit is not a sign. *)
Lemma digit_not_sign d :
  is_digit d → Ascii.eqb (digit_char d) "-"%char = false ∧ Ascii.eqb (digit_char d) "+"%char = false.
Proof. by move=> /digit_cases [->|[->|[->|[->|[->|[->|[->|[->|[->| ->]]]]]]]]]. Qed.

(** The eight-character scan reads back every identifier of at most eight
    digits. *)
Lemma scan_chunk_id_format n :
  0 <= n < 10 ^ 8 → scan_chunk_id (format_chunk_id n) = Some n.
Proof.
  move=> Hn. assert (10 ^ 8 < 2 ^ 64) by done.
  rw /scan_chunk_id /format_chunk_id strip_prefix_app Sprintf_08d_nonneg; [|lia].
  destruct (digits_spec n) as (Hv & Hd & Hne); [lia|].
  pose proof (zero_pad_digits 8 _ Hd) as Hp.
  rw /scan_int_w8 skip_space_digits // str_take_digits.
  - assert (value (zero_pad 8 (digits n)) = n) as Hz by by rw /zero_pad value_zeros.
    destruct (zero_pad 8 (digits n)) as [|d ds] eqn:E.
    { rw /zero_pad in E. by apply app_eq_nil in E as [_ ?]. }
    pose proof (scan_digit_string _ Hp) as Hs. apply Forall_cons in Hp as [Hdd _].
    destruct (digit_not_sign d Hdd) as [E1 E2]. 
    change (digit_string (d :: ds)) with (String (digit_char d) (digit_string ds)) in *.
    cbv zeta iota. rw E1 E2. change (false || false) with false. cbv iota. by rw Hs Hz.
  - pose proof (dec_digits_length 20 n [] 8 ltac:(done) ltac:(lia)) as Hl.
    rw /zero_pad length_app length_replicate. rw -/(digits n) in Hl.
    change (length []) with 0%nat in Hl. lia.
Qed.

Lemma value_bound ds : Forall is_digit ds → 0 <= value ds < 10 ^ Z.of_nat (length ds).
Proof.
  induction ds as [|d ds IH] using rev_ind => Hd; [by vm_compute|].
  apply Forall_app in Hd as [Hds Hd]. apply Forall_cons in Hd as [Hd _].
  specialize (IH Hds). rw value_snoc length_app Nat2Z.inj_add Z.pow_add_r; [|lia..].
  change (10 ^ Z.of_nat (length [d])) with 10. rw /is_digit in Hd. lia.
Qed.

Lemma scan_digits_digits s : Forall is_digit (scan_digits s).
Proof.
  elim: s => [|c s IH] /=; [by constructor|].
  rw /char_digit. destruct (_ && _) eqn:E; [|by constructor].
  constructor; [|done]. rw /is_digit. lia.
Qed.

Lemma scan_digits_length s : (length (scan_digits s) <= String.length s)%nat.
Proof. elim: s => [//|c s IH] /=. destruct (char_digit c) => /=; lia. Qed.

Lemma str_take_length n s : (String.length (str_take n s) <= n)%nat.
Proof. elim: n s => [|n IH] [|c s] //=; [lia|]. specialize (IH s). lia. Qed.

(** The scan of at most eight characters. *)
Lemma scan_chunk_id_bound id n : scan_chunk_id id = Some n → n < 10 ^ 8.
Proof.
  rw /scan_chunk_id /scan_int_w8. destruct (strip_prefix _ id) as [r|] => //.
  destruct (skip_space r) as [r'|] => //.
  pose proof (str_take_length 8 r') as Hl. destruct (str_take 8 r') as [|c s'] => //.
  cbv zeta. generalize (Ascii.eqb c "-") as neg => neg.
  set (body := if neg || Ascii.eqb c "+" then s' else String c s').
  assert (String.length body <= 8)%nat as Hb by (rw /body; destruct (_ || _); simpl in *; lia).
  pose proof (scan_digits_length body). pose proof (value_bound _ (scan_digits_digits body)) as Hv.
  assert (10 ^ Z.of_nat (length (scan_digits body)) <= 10 ^ 8) by (apply Z.pow_le_mono_r; lia).
  destruct (scan_digits body) => //. destruct neg => -[<-]; lia.
Qed.

(** ** Whole numbers *)

(** A string of digits only. *)
Fixpoint parse_digits (s : string) : option (list Z) :=
  match s with
  | EmptyString => Some []
  | String c s =>
      match char_digit c with
      | None => None
      | Some d => match parse_digits s with Some ds => Some (d :: ds) | None => None end
      end
  end.

Definition unsigned (s : string) : option Z :=
  match parse_digits s with None | Some [] => None | Some ds => Some (value ds) end.

(** [strconv.ParseInt(s, 10, bits)]: an optional sign, digits, a value in
    range. *)
Definition ParseInt (bits : Z) (s : string) : option Z :=
  match s with
  | EmptyString => None
  | String c r =>
      if Ascii.eqb c "-"%char then
        match unsigned r with
        | Some v => if v <=? 2 ^ (bits - 1) then Some (- v) else None
        | None => None
        end
      else
        match unsigned (if Ascii.eqb c "+"%char then r else s) with
        | Some v => if v <? 2 ^ (bits - 1) then Some v else None
        | None => None
        end
  end.

Lemma parse_digit_string ds : Forall is_digit ds → parse_digits (digit_string ds) = Some ds.
Proof.
  elim=> [//|d l Hd _ IH].
  change (digit_string (d :: l)) with (String (digit_char d) (digit_string l)).
  rw /parse_digits -/parse_digits char_digit_char // IH. done.
Qed.

Lemma unsigned_digits n : 0 <= n < 2 ^ 64 → unsigned (digit_string (digits n)) = Some n.
Proof.
  move=> Hn. destruct (digits_spec n) as (Hv & Hd & Hne); [lia|].
  rw /unsigned parse_digit_string //. destruct (digits n) eqn:E; [done|]. by rw Hv.
Qed.

Lemma parse_digits_Forall s ds : parse_digits s = Some ds → Forall is_digit ds.
Proof.
  elim: s ds => [|c s IH] ds; simpl; [by move=> [<-]; constructor|].
  rw /char_digit. destruct (_ && _) eqn:E; [|done]. destruct (parse_digits s) as [l|]; [|done].
  move=> [<-]. constructor; [|by apply IH]. rw /is_digit. lia.
Qed.

Lemma unsigned_nonneg s v : unsigned s = Some v → 0 <= v.
Proof.
  rw /unsigned. destruct (parse_digits s) as [ds|] eqn:E; [|done].
  destruct ds as [|d ds]; [done|]. move=> [<-]. apply value_bound. by eapply parse_digits_Forall.
Qed.

Lemma ParseInt_range bits s v : 0 < bits → ParseInt bits s = Some v → - 2 ^ (bits - 1) <= v < 2 ^ (bits - 1).
Proof.
  move=> Hb. rw /ParseInt. destruct s as [|c r]; [done|].
  assert (0 < 2 ^ (bits - 1)) by (apply Z.pow_pos_nonneg; lia).
  destruct (Ascii.eqb c "-").
  - destruct (unsigned r) as [u|] eqn:E; [|done]. apply unsigned_nonneg in E.
    destruct (Z.leb_spec u (2 ^ (bits - 1))); [|done]. move=> [<-]. lia.
  - destruct (unsigned _) as [u|] eqn:E; [|done]. apply unsigned_nonneg in E.
    destruct (Z.ltb_spec u (2 ^ (bits - 1))); [|done]. move=> [<-]. lia.
Qed.

(** Reading back what [%d] prints. *)
Lemma ParseInt_Sprintf n : - 2 ^ 63 <= n < 2 ^ 63 → ParseInt 64 (Sprintf_d n) = Some n.
Proof.
  move=> Hn. rw /Sprintf_d. destruct (Z.ltb_spec n 0).
  - rw /ParseInt Ascii.eqb_refl unsigned_digits; [|lia].
    destruct (Z.leb_spec (- n) (2 ^ (64 - 1))); [f_equal; lia|]. change (2 ^ (64 - 1)) with (2 ^ 63) in *. lia.
  - destruct (digits_spec n) as (Hv & Hd & Hne); [lia|]. pose proof (unsigned_digits n ltac:(lia)) as Hu.
    destruct (digits n) as [|d l] eqn:E; [done|]. apply Forall_cons in Hd as [Hd _].
    destruct (digit_not_sign d Hd) as [H1 H2].
    change (digit_string (d :: l)) with (String (digit_char d) (digit_string l)) in *.
    rw /ParseInt H1 H2 Hu. destruct (Z.ltb_spec n (2 ^ (64 - 1))); [done|].
    change (2 ^ (64 - 1)) with (2 ^ 63) in *. lia.
Qed.
