(* ===== verification/Persist.v ===== *)
(** Persistence of the index (src/internal/index/persist.go): the wire form
    of a snapshot, the conversions, and saving and loading through the disk
    and as bytes.

    The CBOR library is a parameter: a codec for wire snapshots ([CborCodec]).
    Its decoder, with the default options that persist.go uses, refuses text that
    is not UTF-8 and arrays and maps of more than 131072 elements, which its
    encoder does not check; [CborLaws] says that decoding gives back what was
    encoded for the snapshots that pass these checks ([decodable]), and fails for
    the others. An index whose snapshot passes them is [loadable]. *)
From S2P Require Import Prelude Types Extents Index IndexInv IndexProps OS Decimal.

Definition snapshotFile : string := "index.cbor".

(** ** Wire types *)

Module cborInode.
Record t := mk {
  Ino : Z; FileType : Z; Mode : Z; Nlink : Z; UID : Z; GID : Z; Size : Z;
  Atime : Z; Mtime : Z; Ctime : Z; Blksize : Z; Blocks : Z; Rdev : Z }.
End cborInode.

Module cborExtent.
Record t := mk { ChunkSeq : Z; ChunkOffset : Z; Length : Z; FileOffset : Z }.
End cborExtent.

Module cborDirEntry.
Record t := mk { ParentIno : Z; Name : string; ChildIno : Z }.
End cborDirEntry.

Module cborSnapshot.
Record t := mk {
  Inodes : gmap Z cborInode.t;
  DirEntries : list cborDirEntry.t;
  ExtentMap : gmap Z (list cborExtent.t);
  SymlinkTargets : gmap Z string;
  Xattrs : gmap Z (gmap string string);
  NextIno : Z;
}.
End cborSnapshot.

Inductive PersistErr :=
| BadChunkID (id : string)   (* "encode snapshot" *)
| MarshalFailed              (* "marshal snapshot" *)
| MkdirFailed
| WriteFailed
| RenameFailed
| NotExist                   (* os.ErrNotExist, unwrapped *)
| ReadFailed
| UnmarshalFailed.

(** ** Conversions *)

Definition parseChunkSeq (id : string) : res PersistErr Z :=
  match strip_prefix chunkIDPrefix id with
  | None => Err (BadChunkID id)
  | Some rest => match scan_uint32 rest with Some seq => Ok seq | None => Err (BadChunkID id) end
  end.

Definition chunkSeqToID (seq : Z) : string := format_chunk_id seq.

Definition toWireInode (n : Inode.t) : cborInode.t :=
  cborInode.mk (Inode.Ino n) (Inode.FileType n) (Inode.Mode n) (Inode.Nlink n)
    (Inode.UID n) (Inode.GID n) (Inode.Size n) (Inode.Atime n) (Inode.Mtime n)
    (Inode.Ctime n) (Inode.Blksize n) (Inode.Blocks n) (Inode.Rdev n).

Definition toWireDirEntry (d : DirEntry.t) : cborDirEntry.t :=
  cborDirEntry.mk (DirEntry.ParentIno d) (DirEntry.Name d) (DirEntry.ChildIno d).

Definition toWireExtent (e : Extent.t) : res PersistErr cborExtent.t :=
  let? seq := parseChunkSeq (Extent.ChunkID e) in
  Ok (cborExtent.mk seq (Extent.ChunkOffset e) (Extent.Length e) (Extent.FileOffset e)).

(** The loop over [snap.ExtentMap]. *)
Definition toWireExtents (m : gmap Z (list Extent.t)) : res PersistErr (gmap Z (list cborExtent.t)) :=
  let? l := rmap (fun p : Z * list Extent.t =>
                    let? wexts := rmap toWireExtent p.2 in Ok (p.1, wexts))
                 (map_to_list m) in
  Ok (list_to_map l).

Definition toWireSnapshot (snap : Snapshot.t) : res PersistErr cborSnapshot.t :=
  let? wexts := toWireExtents (Snapshot.ExtentMap snap) in
  Ok (cborSnapshot.mk (toWireInode <$> Snapshot.Inodes snap)
        (toWireDirEntry <$> Snapshot.DirEntries snap) wexts
        (Snapshot.SymlinkTargets snap) (Snapshot.Xattrs snap) (Snapshot.NextIno snap)).

Definition fromWireInode (w : cborInode.t) : Inode.t :=
  Inode.mk (cborInode.Ino w) (cborInode.FileType w) (cborInode.Mode w) (cborInode.Nlink w)
    (cborInode.UID w) (cborInode.GID w) (cborInode.Size w) (cborInode.Atime w)
    (cborInode.Mtime w) (cborInode.Ctime w) (cborInode.Blksize w) (cborInode.Blocks w)
    (cborInode.Rdev w).

Definition fromWireDirEntry (w : cborDirEntry.t) : DirEntry.t :=
  DirEntry.mk (cborDirEntry.ParentIno w) (cborDirEntry.Name w) (cborDirEntry.ChildIno w).

Definition fromWireExtent (w : cborExtent.t) : Extent.t :=
  Extent.mk (chunkSeqToID (cborExtent.ChunkSeq w)) (cborExtent.ChunkOffset w)
    (cborExtent.Length w) (cborExtent.FileOffset w).

Definition fromWireSnapshot (ws : cborSnapshot.t) : Snapshot.t :=
  Snapshot.mk (fromWireInode <$> cborSnapshot.Inodes ws)
    (fromWireDirEntry <$> cborSnapshot.DirEntries ws)
    ((fun wexts : list cborExtent.t => fromWireExtent <$> wexts) <$> cborSnapshot.ExtentMap ws)
    (cborSnapshot.SymlinkTargets ws) (cborSnapshot.Xattrs ws) (cborSnapshot.NextIno ws).

(** ** Saving and loading *)

Class CborCodec := {
  cbor_Marshal : cborSnapshot.t → option bytes;
  cbor_Unmarshal : bytes → option cborSnapshot.t;
}.

(** [utf8.Valid]: the byte ranges of the Unicode standard. *)
Definition byte_in (lo hi : N) (c : Ascii.ascii) : bool :=
  ((lo <=? Ascii.N_of_ascii c) && (Ascii.N_of_ascii c <=? hi))%N.

Definition continuation : Ascii.ascii → bool := byte_in 128 191.

Fixpoint utf8_valid (s : string) : bool :=
  match s with
  | "" => true
  | String a s =>
      if byte_in 0 127 a then utf8_valid s else
      match s with
      | "" => false
      | String b s =>
          if byte_in 194 223 a then continuation b && utf8_valid s else
          match s with
          | "" => false
          | String c s =>
              if byte_in 224 239 a then
                byte_in (if byte_in 224 224 a then 160 else 128)%N (if byte_in 237 237 a then 159 else 191)%N b &&
                continuation c && utf8_valid s
              else
                match s with
                | "" => false
                | String d s =>
                    byte_in 240 244 a &&
                    byte_in (if byte_in 240 240 a then 144 else 128)%N (if byte_in 244 244 a then 143 else 191)%N b &&
                    continuation c && continuation d && utf8_valid s
                end
          end
      end
  end%string.

(** [MaxArrayElements] and [MaxMapPairs] of the decoder. *)
Definition few (n : nat) : bool := Z.of_nat n <=? 131072.

(** What the decoder accepts of what the encoder writes. *)
Definition decodable (ws : cborSnapshot.t) : bool :=
  few (size (cborSnapshot.Inodes ws)) &&
  few (length (cborSnapshot.DirEntries ws)) &&
  forallb (fun e => utf8_valid (cborDirEntry.Name e)) (cborSnapshot.DirEntries ws) &&
  few (size (cborSnapshot.ExtentMap ws)) &&
  forallb (fun p => few (length p.2)) (map_to_list (cborSnapshot.ExtentMap ws)) &&
  few (size (cborSnapshot.SymlinkTargets ws)) &&
  forallb (fun p => utf8_valid p.2) (map_to_list (cborSnapshot.SymlinkTargets ws)) &&
  few (size (cborSnapshot.Xattrs ws)) &&
  forallb (fun p : Z * gmap string string => few (size p.2) &&
             forallb (fun q => utf8_valid q.1 && utf8_valid q.2) (map_to_list p.2))
    (map_to_list (cborSnapshot.Xattrs ws)).

Class CborLaws (C : CborCodec) : Prop := {
  cbor_roundtrip ws data :
    decodable ws = true → cbor_Marshal ws = Some data → cbor_Unmarshal data = Some ws;
  cbor_rejects ws data :
    decodable ws = false → cbor_Marshal ws = Some data → cbor_Unmarshal data = None;
}.

Section codec.
Context `{C : CborCodec}.

(** [Marshal]; also the first two steps of [Save]. *)
Definition Index_Marshal (i : Index) : res PersistErr bytes :=
  let? wire := toWireSnapshot (Index_Snapshot i) in
  match cbor_Marshal wire with Some data => Ok data | None => Err MarshalFailed end.

Definition Index_Unmarshal (data : bytes) (bs : Z) : res PersistErr Index :=
  match cbor_Unmarshal data with
  | None => Err UnmarshalFailed
  | Some ws => Ok (FromSnapshot (fromWireSnapshot ws) bs)
  end.

(** [Save]: the index and the disk are the state. *)
Definition Save (dir : string) (s : Index * Disk) : outcome PersistErr (Index * Disk) unit :=
  let (i, d) := s in
  match Index_Marshal i with
  | Err e => Fail e (i, d)
  | Ok data =>
  match os_MkdirAll dir d with
  | Fail _ d => Fail MkdirFailed (i, d)
  | Crash => Crash
  | Ret _ d =>
  let tmp := tmp_name (Join dir snapshotFile) in
  match os_WriteFile tmp data d with
  | Fail _ d => Fail WriteFailed (i, d)
  | Crash => Crash
  | Ret _ d =>
  let dst := Join dir snapshotFile in
  match os_Rename tmp dst d with
  | Fail _ d => Fail RenameFailed (i, d)
  | Crash => Crash
  | Ret _ d => Ret tt (MarkClean i, d)
  end end end end.

Definition Load (dir : string) (bs : Z) (d : Disk) : outcome PersistErr Disk Index :=
  match os_ReadFile (Join dir snapshotFile) d with
  | Fail ErrNotExist d => Fail NotExist d
  | Fail ErrIO d => Fail ReadFailed d
  | Crash => Crash
  | Ret data d =>
      match Index_Unmarshal data bs with Err e => Fail e d | Ok i => Ret i d end
  end.
End codec.

(** ** Round trips *)

(** An identifier that the chunk store gives to a chunk. *)
Definition canonical_id (id : string) : Prop :=
  ∃ seq, 0 <= seq < 2 ^ 32 ∧ id = format_chunk_id seq.

Definition canonical_extents (m : gmap Z (list Extent.t)) : Prop :=
  ∀ ino exts, m !! ino = Some exts → Forall (fun e => canonical_id (Extent.ChunkID e)) exts.

Lemma parseChunkSeq_format seq :
  0 <= seq < 2 ^ 32 → parseChunkSeq (chunkSeqToID seq) = Ok seq.
Proof.
  move=> ?. rw /parseChunkSeq /chunkSeqToID /format_chunk_id strip_prefix_app.
  by rw scan_uint32_Sprintf.
Qed.

(** The wire extent of a canonical extent. *)
Definition wire_extent (e : Extent.t) : cborExtent.t :=
  match toWireExtent e with Ok w => w | Err _ => cborExtent.mk 0 0 0 0 end.

Lemma toWireExtent_canonical e :
  canonical_id (Extent.ChunkID e) →
  toWireExtent e = Ok (wire_extent e) ∧ fromWireExtent (wire_extent e) = e.
Proof.
  move=> [seq [Hs He]]. rw /wire_extent /toWireExtent He parseChunkSeq_format //.
  split; [done|]. rw /fromWireExtent /= /chunkSeqToID -He. by destruct e.
Qed.

Lemma toWireExtents_canonical m :
  canonical_extents m →
  toWireExtents m = Ok ((fun exts : list Extent.t => wire_extent <$> exts) <$> m).
Proof.
  move=> Hc. rw /toWireExtents (rmap_ok _ (fun p => (p.1, wire_extent <$> p.2))).
  - rw /=. f_equal. rw -(list_to_map_to_list ((fun exts : list Extent.t => wire_extent <$> exts) <$> m)).
    by rw map_to_list_fmap.
  - move=> [ino exts] /elem_of_map_to_list Hm /=.
    rw (rmap_ok _ wire_extent) // => e He. apply toWireExtent_canonical.
    specialize (Hc _ _ Hm). rw Forall_forall in Hc. by apply Hc.
Qed.

(** The wire form of a snapshot whose extents are canonical. *)
Definition wire_snapshot (snap : Snapshot.t) : cborSnapshot.t :=
  cborSnapshot.mk (toWireInode <$> Snapshot.Inodes snap) (toWireDirEntry <$> Snapshot.DirEntries snap)
    ((fun exts : list Extent.t => wire_extent <$> exts) <$> Snapshot.ExtentMap snap)
    (Snapshot.SymlinkTargets snap) (Snapshot.Xattrs snap) (Snapshot.NextIno snap).

Lemma toWireSnapshot_canonical snap :
  canonical_extents (Snapshot.ExtentMap snap) → toWireSnapshot snap = Ok (wire_snapshot snap).
Proof. move=> Hc. by rw /toWireSnapshot toWireExtents_canonical. Qed.

(** The index has a snapshot that the decoder accepts: no name, symlink target
    or extended attribute that is not UTF-8, and no table with too many rows. *)
Definition loadable (i : Index) : bool := decodable (wire_snapshot (Index_Snapshot i)).

Lemma wire_roundtrip snap :
  canonical_extents (Snapshot.ExtentMap snap) → fromWireSnapshot (wire_snapshot snap) = snap.
Proof.
  move=> Hc.
  destruct snap as [nodes des exts syms xas nx]. rw /fromWireSnapshot /=. f_equal.
  - rw -map_fmap_compose. rw -{2}(map_fmap_id nodes). apply map_fmap_ext => ino n _. by destruct n.
  - rw -list_fmap_compose. rw -{2}(list_fmap_id des). apply list_fmap_ext => k e _. by destruct e.
  - rw -map_fmap_compose. rw -{2}(map_fmap_id exts). apply map_fmap_ext => ino es Hes /=.
    rw -list_fmap_compose. rw -{2}(list_fmap_id es). apply list_fmap_ext => k e He /=.
    apply toWireExtent_canonical. specialize (Hc _ _ Hes). by eapply Forall_lookup_1 in Hc.
Qed.

(** An extent whose chunk is not named chunk-NNNNNNNN makes the conversion
    fail. *)
Lemma toWireSnapshot_fails snap ino exts e :
  Snapshot.ExtentMap snap !! ino = Some exts → e ∈ exts →
  strip_prefix chunkIDPrefix (Extent.ChunkID e) = None →
  ∃ err, toWireSnapshot snap = Err err.
Proof.
  move=> Hm He Hp. assert (∃ err, toWireExtent e = Err err) as [err Herr].
  { rw /toWireExtent /parseChunkSeq Hp /=. eauto. }
  destruct (rmap_err _ _ _ _ He Herr) as [err1 H1].
  destruct (rmap_err (fun p : Z * list Extent.t =>
      let? wexts := rmap toWireExtent p.2 in Ok (p.1, wexts))
    (map_to_list (Snapshot.ExtentMap snap)) (ino, exts) err1) as [err2 H2].
  - by apply elem_of_map_to_list.
  - by rw /= H1.
  - exists err2. by rw /toWireSnapshot /toWireExtents H2.
Qed.

(** ** Rebuilding the index from its snapshot *)

(** A directory map is determined by its directories and its entries. *)
Lemma flatten_ext d1 d2 : dom d1 = dom d2 → flatten d1 = flatten d2 → d1 = d2.
Proof.
  move=> Hdom Hf. apply map_eq => p.
  destruct (d1 !! p) as [c1|] eqn:E1, (d2 !! p) as [c2|] eqn:E2; [|exfalso..|done].
  - f_equal. apply map_eq => nm. pose proof (f_equal (lookup (p, nm)) Hf) as H.
    by rw !flat_lookup E1 E2 in H.
  - apply not_elem_of_dom in E2. apply E2. rw -Hdom. by apply elem_of_dom.
  - apply not_elem_of_dom in E1. apply E1. rw Hdom. by apply elem_of_dom.
Qed.

Definition entry_key (e : DirEntry.t) : Z * string := (DirEntry.ParentIno e, DirEntry.Name e).

Lemma flatten_add_entry d e :
  flatten (add_entry d e) = <[entry_key e := DirEntry.ChildIno e]> (flatten d).
Proof.
  rw /add_entry /entry_key. destruct (d !! DirEntry.ParentIno e) as [ch|] eqn:E; simpl.
  - by apply flat_insert.
  - rw -(insert_insert_eq d (DirEntry.ParentIno e) _ ∅) flat_insert ?lookup_insert_eq //.
    by rw flat_new.
Qed.

(** The entries rebuilt from a list that agrees with [F] are those of the
    list. *)
Lemma flatten_add_entries F es d :
  (∀ e, e ∈ es → F !! entry_key e = Some (DirEntry.ChildIno e)) → flatten d ⊆ F →
  flatten (foldl add_entry d es) ⊆ F ∧ flatten d ⊆ flatten (foldl add_entry d es) ∧
  ∀ e, e ∈ es → flatten (foldl add_entry d es) !! entry_key e = Some (DirEntry.ChildIno e).
Proof.
  elim: es d => [|e es IH] d Hes Hd /=.
  { split_and!; [done..|]. move=> e He. by apply elem_of_nil in He. }
  pose proof (Hes e ltac:(left)) as He.
  destruct (IH (add_entry d e)) as (H1 & H2 & H3).
  - move=> e' ?. apply Hes. by right.
  - rw flatten_add_entry. by apply insert_subseteq_l.
  - rw flatten_add_entry in H2. split_and!; [done| |].
    + apply map_subseteq_spec => k v Hk. rw map_subseteq_spec in H2. apply H2.
      destruct (decide (entry_key e = k)) as [<-|]; [|by rw lookup_insert_ne].
      rw lookup_insert_eq. eapply lookup_weaken in Hk; [|done]. congruence.
    + move=> e' /elem_of_cons [->|?]; [|by apply H3].
      eapply lookup_weaken; [|done]. by rw lookup_insert_eq.
Qed.

Lemma dom_add_entries es d :
  dom (foldl add_entry d es) = dom d ∪ list_to_set (DirEntry.ParentIno <$> es).
Proof.
  elim: es d => [|e es IH] d /=; [by rw union_empty_r_L|].
  rw IH /add_entry dom_insert_L. set_solver.
Qed.

Lemma elem_of_snapshot_entries i e :
  e ∈ Snapshot.DirEntries (Index_Snapshot i) ↔
  entries i !! entry_key e = Some (DirEntry.ChildIno e).
Proof.
  rw /= list_elem_of_In in_flat_map entries_dir_lookup /dir_lookup. split.
  - move=> [[p ch] [/list_elem_of_In /elem_of_map_to_list Hp /list_elem_of_In He]].
    apply list_elem_of_fmap in He as ([nm c] & -> & Hc).
    apply elem_of_map_to_list in Hc. by rw /= Hp.
  - move=> /bind_Some [ch [Hp Hc]]. exists (DirEntry.ParentIno e, ch).
    rw - !list_elem_of_In. split; [by apply elem_of_map_to_list|].
    apply list_elem_of_fmap. exists (DirEntry.Name e, DirEntry.ChildIno e).
    split; [by destruct e|]. by apply elem_of_map_to_list.
Qed.

Lemma ensure_dirs_spec d0 (m : gmap Z Inode.t) :
  flatten (map_fold ensure_dir d0 m) = flatten d0 ∧
  (∀ p, p ∈ dom (map_fold ensure_dir d0 m) ↔
     p ∈ dom d0 ∨ ∃ n, m !! p = Some n ∧ Inode.FileType n = Directory).
Proof.
  apply (map_fold_weak_ind (fun d m => flatten d = flatten d0 ∧
    ∀ p, p ∈ dom d ↔ p ∈ dom d0 ∨ ∃ n, m !! p = Some n ∧ Inode.FileType n = Directory)).
  - split; [done|]. move=> p. split; [by left|]. by move=> [//|[n [Hn _]]].
  - move=> ino n m' d Hfresh [Hf Hd]. rw /ensure_dir. split.
    + case_decide; [|done]. destruct (d !! ino) eqn:E; [done|]. by rw flat_new.
    + move=> p. destruct (decide (ino = p)) as [<-|Hne].
      * rw lookup_insert_eq. case_decide as Hft.
        -- split; [eauto|]. move=> _. destruct (d !! ino) eqn:E; [by apply elem_of_dom|].
           rw dom_insert_L. set_solver.
        -- rw Hd Hfresh. split; [|naive_solver]. by move=> [?|[? [? ?]]]; [left|].
      * rw lookup_insert_ne // -Hd. case_decide; [|done].
        destruct (d !! ino) eqn:E; [done|]. rw dom_insert_L. set_solver.
Qed.

(** The flags that a freshly loaded index has. *)
Definition reloaded (i : Index) (bs : Z) : Index :=
  mkIndex (inodes i) (dirIndex i) (extents i) (symlinks i) (xattrs i) (nextIno i) bs false false.

Lemma FromSnapshot_Snapshot i bs :
  wf_index i → FromSnapshot (Index_Snapshot i) bs = reloaded i bs.
Proof.
  move=> Hwf. rw /FromSnapshot /reloaded. f_equal.
  set es := Snapshot.DirEntries (Index_Snapshot i).
  destruct (flatten_add_entries (entries i) es ∅) as (H1 & _ & H3).
  { move=> e. by rw elem_of_snapshot_entries. }
  { apply map_subseteq_spec => -[p nm] c. rw flat_lookup lookup_empty //. }
  destruct (ensure_dirs_spec (foldl add_entry ∅ es) (inodes i)) as [Hf Hd].
  assert (flatten (foldl add_entry ∅ es) = entries i) as Hfe.
  { apply map_eq => -[p nm]. apply option_eq => c. split.
    { move=> Hc. by eapply lookup_weaken. }
    move=> Hc. apply (H3 (DirEntry.mk p nm c)). by apply elem_of_snapshot_entries. }
  apply flatten_ext; [|by rw -/es Hf].
  apply set_eq => p. rw Hd -/(dirs i) (core_dirs _ _ _ _ (wf_struct _ Hwf)).
  rw dom_add_entries dom_empty_L union_empty_l_L elem_of_list_to_set.
  split.
  - move=> [/list_elem_of_fmap [e [-> He]]|[n [Hn Hft]]].
    + apply elem_of_snapshot_entries in He.
      by apply (core_entry _ _ _ _ (wf_struct _ Hwf)), proj1,
        (core_dirs _ _ _ _ (wf_struct _ Hwf)) in He.
    + exists (skel_of n). split; [by apply skeleton_Some|done].
  - move=> [s [Hs Hft]]. right. rw skeleton_lookup in Hs.
    apply fmap_Some in Hs as (n & Hn & ->). eauto.
Qed.

(** ** What keeps an index from being loaded *)

(** The text of an index: names, symlink targets, extended attributes. *)
Inductive text_of (i : Index) (t : string) : Prop :=
| text_name p c : entries i !! (p, t) = Some c → text_of i t
| text_target ino : symlinks i !! ino = Some t → text_of i t
| text_xattr ino m v : xattrs i !! ino = Some m → m !! t = Some v → text_of i t
| text_value ino m x : xattrs i !! ino = Some m → m !! x = Some t → text_of i t.

Lemma loadable_text i t : loadable i = true → text_of i t → utf8_valid t = true.
Proof.
  rw /loadable /decodable !andb_true_iff. intros ((((((((_ & _) & Hn) & _) & _) & _) & Hs) & _) & Hx) Ht.
  rw !forallb_forall in Hn Hs Hx. destruct Ht as [p c He|ino Hl|ino m v Hm Hv|ino m x Hm Hv].
  - apply (Hn (cborDirEntry.mk p t c)), list_elem_of_In, list_elem_of_fmap.
    exists (DirEntry.mk p t c). split; [done|]. by apply elem_of_snapshot_entries.
  - by apply (Hs (ino, t)), list_elem_of_In, elem_of_map_to_list.
  - specialize (Hx (ino, m)). rw andb_true_iff forallb_forall in Hx. destruct Hx as [_ Hx].
    { by apply list_elem_of_In, elem_of_map_to_list. }
    specialize (Hx (t, v)). rw andb_true_iff in Hx. by apply Hx, list_elem_of_In, elem_of_map_to_list.
  - specialize (Hx (ino, m)). rw andb_true_iff forallb_forall in Hx. destruct Hx as [_ Hx].
    { by apply list_elem_of_In, elem_of_map_to_list. }
    specialize (Hx (x, t)). rw andb_true_iff in Hx. by apply Hx, list_elem_of_In, elem_of_map_to_list.
Qed.

Lemma New_loadable bs now : loadable (New bs now) = true.
Proof. done. Qed.

(** Shortest and longest sequences, an overlong one, a surrogate, a value above
    U+10FFFF, a sequence that ends early. *)
Example utf8_examples :
  (λ l, utf8_valid (String.string_of_list_ascii (Ascii.ascii_of_N <$> l))) <$>
    [[127]; [194; 128]; [223; 191]; [224; 160; 128]; [237; 159; 191]; [240; 144; 128; 128]; [244; 143; 191; 191];
     [255]; [192; 128]; [224; 159; 191]; [237; 160; 128]; [244; 144; 128; 128]; [226; 130]; [128]]%N =
  [true; true; true; true; true; true; true; false; false; false; false; false; false; false].
Proof. vm_compute. reflexivity. Qed.

(** ** Properties of Save, Load, Marshal and Unmarshal *)

Section properties.
Context `{C : CborCodec}.

Lemma Marshal_ok i ws :
  toWireSnapshot (Index_Snapshot i) = Ok ws →
  Index_Marshal i = match cbor_Marshal ws with Some data => Ok data | None => Err MarshalFailed end.
Proof. rw /Index_Marshal => ->. done. Qed.

(** The bytes of a loadable index give it back, and those of another index are
    refused. *)
Lemma Unmarshal_Marshal `{!CborLaws C} i bs data :
  wf_index i → canonical_extents (extents i) → Index_Marshal i = Ok data →
  Index_Unmarshal data bs = if loadable i then Ok (reloaded i bs) else Err UnmarshalFailed.
Proof.
  move=> Hwf Hc Hm. rw (Marshal_ok _ _ (toWireSnapshot_canonical (Index_Snapshot i) Hc)) in Hm.
  destruct (cbor_Marshal _) as [data'|] eqn:E; [|done]. simplify_eq. rw /Index_Unmarshal /loadable.
  destruct (decodable _) eqn:Ed; [|by rw (cbor_rejects _ _ Ed E)].
  by rw (cbor_roundtrip _ _ Ed E) wire_roundtrip // FromSnapshot_Snapshot.
Qed.

(** How a call of [Save] ends. *)
Lemma Save_cases dir i d i' d' :
  out_state (Save dir (i, d)) = Some (i', d') →
  let dst := Join dir snapshotFile in
  (∃ e, Save dir (i, d) = Fail e (i', d') ∧ i' = i ∧ files d' !! dst = files d !! dst) ∨
  (∃ data, Save dir (i, d) = Ret tt (i', d') ∧ i' = MarkClean i ∧
     Index_Marshal i = Ok data ∧ files d' !! dst = Some data).
Proof.
  rw /Save. destruct (Index_Marshal i) as [data|e]; [|by move=> /= [<- <-]; left; eauto].
  set dst := Join dir snapshotFile. pose proof (tmp_name_ne dst) as Hne.
  destruct (os_MkdirAll dir d) as [[] d1|e d1|] eqn:E1; [| |done].
  2: { move=> /= [<- <-]. left. eexists. split_and!; [done..|].
       revert E1. rw /os_MkdirAll. by destruct (next_fault d) => // -[_ <-]. }
  assert (files d1 = files d) as F1.
  { revert E1. rw /os_MkdirAll. by destruct (next_fault d) => // -[<-]. }
  destruct (os_WriteFile (tmp_name dst) data d1) as [[] d2|e d2|] eqn:E2; [| |done].
  2: { move=> /= [<- <-]. left. eexists. split_and!; [done..|].
       rw (os_WriteFile_frame (tmp_name dst) data d1 d2) ?E2 ?F1 //. set_solver. }
  apply os_WriteFile_ret in E2.
  destruct (os_Rename (tmp_name dst) dst d2) as [[] d3|e d3|] eqn:E3; [| |done].
  - move=> /= [<- <-]. right. exists data. apply os_Rename_ret in E3 as (data' & Hd & E3).
    rw E2 lookup_insert_eq in Hd. simplify_eq. by rw E3 lookup_insert_eq.
  - move=> /= [<- <-]. left. eexists. split_and!; [done..|].
    by rw (os_Rename_fail _ _ _ _ _ E3) E2 lookup_insert_ne // F1.
Qed.

Lemma Save_crash dir i d : Save dir (i, d) ≠ Crash.
Proof.
  rw /Save. destruct (Index_Marshal i) => //.
  rw /os_MkdirAll /os_WriteFile /os_Rename. by repeat case_match.
Qed.

(** [Save] touches the snapshot file and its temporary file only. *)
Lemma Save_frame dir i d i' d' :
  out_state (Save dir (i, d)) = Some (i', d') →
  let dst := Join dir snapshotFile in same_except [dst; tmp_name dst] d d'.
Proof.
  rw /Save. destruct (Index_Marshal i) as [data|e]; [|by move=> /= [_ <-]].
  set dst := Join dir snapshotFile.
  destruct (os_MkdirAll dir d) as [[] d1|e d1|] eqn:E1; [| |done].
  all: assert (files d1 = files d) as F1
    by (revert E1; rw /os_MkdirAll; destruct (next_fault d) => E; by simplify_eq/=).
  2: { move=> /= [_ <-] p _. by rw F1. }
  destruct (os_WriteFile (tmp_name dst) data d1) as [[] d2|e d2|] eqn:E2; [| |done].
  all: assert (∀ p, p ∉ [dst; tmp_name dst] → files d2 !! p = files d !! p) as F2
    by (move=> p Hp; rw - F1; apply (os_WriteFile_frame (tmp_name dst) data d1); [by rw E2|set_solver]).
  2: { by move=> /= [_ <-]. }
  destruct (os_Rename (tmp_name dst) dst d2) as [[] d3|e d3|] eqn:E3; [| |done].
  - move=> /= [_ <-] p Hp. apply os_Rename_ret in E3 as (data' & _ & ->).
    rw lookup_insert_ne; [|set_solver]. rw lookup_delete_ne; [|set_solver]. by apply F2.
  - move=> /= [_ <-] p Hp. rw (os_Rename_fail _ _ _ _ _ E3). by apply F2.
Qed.
End properties.

(** C21: saving and loading an index that satisfies its invariant and whose
    extents name chunks of the chunk store. If its names, symlink targets and
    extended attributes are UTF-8 and none of its tables has more than 131072
    rows, it comes back unchanged, with clean flags, from the snapshot that
    [Save] writes and from the bytes of [Marshal]; otherwise both still succeed
    in writing it, and what they write cannot be loaded. *)
Theorem persist_roundtrip `{C : CborCodec, !CborLaws C} dir bs i d i' d' :
  wf_index i → canonical_extents (extents i) → Save dir (i, d) = Ret tt (i', d') →
  (next_fault d' = NoFault →
     Load dir bs d' = if loadable i then Ret (reloaded i bs) (pop_fault d')
                      else Fail UnmarshalFailed (pop_fault d')) ∧
  ∃ data, Index_Marshal i = Ok data ∧
    Index_Unmarshal data bs = if loadable i then Ok (reloaded i bs) else Err UnmarshalFailed.
Proof.
  move=> Hwf Hc Hs. destruct (Save_cases dir i d i' d') as [(?&?&_)|(data & _ & _ & Hm & Hf)];
    [by rw Hs|congruence|].
  pose proof (Unmarshal_Marshal i bs data Hwf Hc Hm) as Hu. split; [|eauto].
  move=> Hnf. rw /Load /os_ReadFile Hnf /= Hf Hu. by destruct (loadable i).
Qed.

(** C33: whatever faults the disk injects, [Save] either returns, and the
    snapshot file holds the complete new snapshot and the index is clean, or
    fails, and the snapshot file and the index, its dirty flag included, are
    as they were; it never leaves a partial snapshot. *)
Theorem Save_atomic `{C : CborCodec} dir i d :
  let dst := Join dir snapshotFile in
  match Save dir (i, d) with
  | Ret _ (i', d') =>
      i' = MarkClean i ∧ ∃ data, Index_Marshal i = Ok data ∧ files d' !! dst = Some data
  | Fail _ (i', d') => i' = i ∧ files d' !! dst = files d !! dst
  | Crash => False
  end.
Proof.
  destruct (Save dir (i, d)) as [[] [i' d']|e [i' d']|] eqn:E.
  - destruct (Save_cases dir i d i' d') as [(?&?&_)|(data&_&?&?&?)]; rw ?E //; [congruence|eauto].
  - destruct (Save_cases dir i d i' d') as [(?&_&?&?)|(data&?&_)]; rw ?E //. congruence.
  - by apply Save_crash in E.
Qed.

(** An index with an extent in a chunk whose identifier does not start
    with "chunk-" cannot be persisted: [Marshal] and [Save] fail, and [Save]
    leaves the index and the disk as they were. *)
Theorem unpersistable_chunk_id `{C : CborCodec} dir i d ino exts e :
  extents i !! ino = Some exts → e ∈ exts →
  strip_prefix chunkIDPrefix (Extent.ChunkID e) = None →
  ∃ err, Index_Marshal i = Err err ∧ Save dir (i, d) = Fail err (i, d).
Proof.
  move=> Hm He Hp. destruct (toWireSnapshot_fails (Index_Snapshot i) ino exts e) as [err Herr] => //.
  exists err. assert (Index_Marshal i = Err err) as Hi by by rw /Index_Marshal Herr.
  split; [done|]. by rw /Save Hi.
Qed.

(** ** A codec

    The wire snapshots are countable, which gives a concrete codec with the
    assumed laws. *)

#[global] Instance cborInode_eq_dec : EqDecision cborInode.t.
Proof. solve_decision. Defined.
#[global] Instance cborExtent_eq_dec : EqDecision cborExtent.t.
Proof. solve_decision. Defined.
#[global] Instance cborDirEntry_eq_dec : EqDecision cborDirEntry.t.
Proof. solve_decision. Defined.
#[global] Instance cborSnapshot_eq_dec : EqDecision cborSnapshot.t.
Proof. solve_decision. Defined.

(** Records go through lists, whose encoding is linear in their parts. *)
#[global] Instance cborInode_countable : Countable cborInode.t.
Proof.
  refine (inj_countable
    (fun n => [cborInode.Ino n; cborInode.FileType n; cborInode.Mode n; cborInode.Nlink n;
               cborInode.UID n; cborInode.GID n; cborInode.Size n; cborInode.Atime n;
               cborInode.Mtime n; cborInode.Ctime n; cborInode.Blksize n; cborInode.Blocks n;
               cborInode.Rdev n])
    (fun l => match l with
              | [a; b; c; d; e; f; g; h; i; j; k; l; m] => Some (cborInode.mk a b c d e f g h i j k l m)
              | _ => None
              end) _).
  by intros [].
Defined.
#[global] Instance cborExtent_countable : Countable cborExtent.t.
Proof.
  refine (inj_countable
    (fun e => [cborExtent.ChunkSeq e; cborExtent.ChunkOffset e; cborExtent.Length e; cborExtent.FileOffset e])
    (fun l => match l with [a; b; c; d] => Some (cborExtent.mk a b c d) | _ => None end) _).
  by intros [].
Defined.
#[global] Instance cborDirEntry_countable : Countable cborDirEntry.t.
Proof.
  refine (inj_countable'
    (fun e => (cborDirEntry.ParentIno e, cborDirEntry.Name e, cborDirEntry.ChildIno e))
    (fun '(a, b, c) => cborDirEntry.mk a b c) _).
  by intros [].
Defined.
#[global] Instance cborSnapshot_countable : Countable cborSnapshot.t.
Proof.
  refine (inj_countable
    (fun s => [encode (cborSnapshot.Inodes s); encode (cborSnapshot.DirEntries s);
               encode (cborSnapshot.ExtentMap s); encode (cborSnapshot.SymlinkTargets s);
               encode (cborSnapshot.Xattrs s); encode (cborSnapshot.NextIno s)])
    (fun l => match l with
              | [a; b; c; d; e; f] =>
                  a ← decode a; b ← decode b; c ← decode c; d ← decode d; e ← decode e; f ← decode f;
                  Some (cborSnapshot.mk a b c d e f)
              | _ => None
              end) _).
  intros []. by rw !decode_encode.
Defined.

(** A positive as its bits, one per byte. *)
Fixpoint pos_bytes (p : positive) : bytes :=
  match p with
  | xI p => Byte.x01 :: pos_bytes p
  | xO p => Byte.x00 :: pos_bytes p
  | xH => []
  end.

Fixpoint bytes_pos (b : bytes) : positive :=
  match b with
  | [] => xH
  | Byte.x01 :: b => xI (bytes_pos b)
  | _ :: b => xO (bytes_pos b)
  end.

Lemma bytes_pos_bytes p : bytes_pos (pos_bytes p) = p.
Proof. elim: p => [p IH|p IH|] //=; by rw IH. Qed.

Definition count_codec : CborCodec := {|
  cbor_Marshal ws := Some (pos_bytes (encode ws));
  cbor_Unmarshal b := ws ← decode (bytes_pos b); if decodable ws then Some ws else None;
|}.

Lemma count_codec_laws : CborLaws count_codec.
Proof. split=> ws data Hd /= [<-]; by rw bytes_pos_bytes decode_encode /= Hd. Qed.

(** ** Witnesses *)

(** A file with one extent. *)
Definition demo_data : Index :=
  match AppendExtent 2 (demo_ext 0) 8 demo_run with Ret _ i => i | _ => demo_run end.

Lemma demo_data_wf : wf_index demo_data.
Proof.
  pose proof (AppendExtent_preserves 2 (demo_ext 0) 8 demo_run
                (reachable_inv _ demo_run_reachable)) as H.
  rw /demo_data. rw /preserves in H.
  destruct (AppendExtent 2 (demo_ext 0) 8 demo_run) eqn:E; try apply H;
    exact (reachable_inv _ demo_run_reachable).
Qed.

Lemma demo_data_extents : extents demo_data = {[ 2 := [demo_ext 0] ]}.
Proof. vm_compute. reflexivity. Qed.

Lemma demo_data_canonical : canonical_extents (extents demo_data).
Proof.
  rw demo_data_extents => ino exts /lookup_singleton_Some [_ <-].
  constructor; [|done]. exists 0. split; [lia|reflexivity].
Qed.

Lemma demo_data_loadable : loadable demo_data = true.
Proof. vm_compute. reflexivity. Qed.

Lemma persist_roundtrip_witness :
  ∃ i' d', Save (C := count_codec) "cache" (demo_data, mkDisk ∅ []) = Ret tt (i', d') ∧
    Load (C := count_codec) "cache" 4096 d' = Ret (reloaded demo_data 4096) (pop_fault d').
Proof.
  assert (match Save (C := count_codec) "cache" (demo_data, mkDisk ∅ []) with
          | Ret _ (_, d') => next_fault d' | _ => FaultNow end = NoFault) as H
    by (vm_compute; reflexivity).
  destruct (Save (C := count_codec) "cache" (demo_data, mkDisk ∅ [])) as [[] [i' d']| |] eqn:E;
    [|discriminate|discriminate].
  exists i', d'. split; [reflexivity|].
  pose proof (proj1 (@persist_roundtrip count_codec count_codec_laws "cache" 4096 demo_data
    (mkDisk ∅ []) i' d' demo_data_wf demo_data_canonical E) H) as HL.
  rw demo_data_loadable in HL. exact HL.
Defined.

Lemma unpersistable_chunk_id_witness :
  ∃ err, Save (C := count_codec) "cache"
    (demo_file [Extent.mk "compacted-17-0" 0 4 0] 4, mkDisk ∅ []) =
    Fail err (demo_file [Extent.mk "compacted-17-0" 0 4 0] 4, mkDisk ∅ []).
Proof.
  destruct (@unpersistable_chunk_id count_codec "cache"
    (demo_file [Extent.mk "compacted-17-0" 0 4 0] 4) (mkDisk ∅ []) 2
    [Extent.mk "compacted-17-0" 0 4 0] (Extent.mk "compacted-17-0" 0 4 0)) as (err & _ & H).
  - reflexivity.
  - left.
  - reflexivity.
  - exists err. exact H.
Defined.
