(* ===== verification/Store.v ===== *)
(** The backing store: the interface of src/internal/chunks/store.go as a
    type class of operations on a world, the laws its clients rely on, and
    the directory-backed implementation (src/internal/chunks/local.go), which
    satisfies them. *)
From S2P Require Import Prelude OS Decimal.
From Stdlib Require Import Strings.Ascii.
#[local] Open Scope Z_scope.

Inductive StoreErr := ErrNotFound | ErrStore.

(** [Store]; the context argument, through which a caller can make a call
    fail, is not represented here: a failing call returns an error. *)
Class Store (W : Type) := {
  Put : string → bytes → W → outcome StoreErr W unit;
  GetRange : string → Z → Z → W → outcome StoreErr W bytes;
  Delete : string → W → outcome StoreErr W unit;
  List : W → outcome StoreErr W (list string);
  Size : string → W → outcome StoreErr W Z;
}.

(** [ObjectStore]. *)
Class ObjectStore (W : Type) `{Store W} := {
  PutRaw : string → bytes → W → outcome StoreErr W unit;
  GetRaw : string → W → outcome StoreErr W bytes;
  IndexKey : string;
}.

(** Names of chunk objects consist of letters, digits, dashes and underscores;
    the index object and temporary files have a dot. *)
Definition name_char (c : ascii) : bool :=
  let n := N_of_ascii c in
  (48 <=? n)%N && (n <=? 57)%N || (65 <=? n)%N && (n <=? 90)%N || (97 <=? n)%N && (n <=? 122)%N ||
  Ascii.eqb c "-"%char || Ascii.eqb c "_"%char.

Fixpoint chunk_name (s : string) : bool :=
  match s with
  | EmptyString => true
  | String c s => name_char c && chunk_name s
  end.

(** What the clients of a store rely on. [obj w id] is the object that the
    store holds under [id]. A call that fails may or may not have taken
    effect on the object it names, and has no other effect. *)
Class StoreLaws {W} (S : Store W) (obj : W → string → option bytes) : Prop := {
  Put_law id data w : chunk_name id = true →
    match Put id data w with
    | Ret _ w' => ∀ k, chunk_name k = true →
        obj w' k = if decide (k = id) then Some data else obj w k
    | Fail _ w' =>
        (∀ k, chunk_name k = true → k ≠ id → obj w' k = obj w k) ∧
        (obj w' id = obj w id ∨ obj w' id = Some data)
    | Crash => False
    end;
  GetRange_law id off n w : chunk_name id = true → 0 <= off → 0 <= n →
    match GetRange id off n w with
    | Ret b w' => (∀ k, chunk_name k = true → obj w' k = obj w k) ∧
        ∃ data, obj w id = Some data ∧ (0 < n → off + n <= len data → b = slice data off n)
    | Fail _ w' => ∀ k, chunk_name k = true → obj w' k = obj w k
    | Crash => False
    end;
  Delete_law id w : chunk_name id = true →
    match Delete id w with
    | Ret _ w' => ∀ k, chunk_name k = true →
        obj w' k = if decide (k = id) then None else obj w k
    | Fail _ w' =>
        (∀ k, chunk_name k = true → k ≠ id → obj w' k = obj w k) ∧
        (obj w' id = obj w id ∨ obj w' id = None)
    | Crash => False
    end;
  List_law w :
    match List w with
    | Ret ids w' => (∀ k, chunk_name k = true → obj w' k = obj w k) ∧
        ∀ k, chunk_name k = true → k ∈ ids ↔ is_Some (obj w k)
    | Fail _ w' => ∀ k, chunk_name k = true → obj w' k = obj w k
    | Crash => False
    end;
  Size_law id w : chunk_name id = true →
    match Size id w with
    | Ret n w' => (∀ k, chunk_name k = true → obj w' k = obj w k) ∧
        ∃ data, obj w id = Some data ∧ n = len data
    | Fail _ w' => ∀ k, chunk_name k = true → obj w' k = obj w k
    | Crash => False
    end;
}.

(** What the command relies on of an object store besides [StoreLaws]:
    [raw w] is the object under the index key. Chunk operations leave it
    alone, index operations leave the chunks alone, and a failed write leaves
    the old index or the complete new one. *)
Class ObjectLaws {W} {S : Store W} (O : ObjectStore W)
    (obj : W → string → option bytes) (raw : W → option bytes) : Prop := {
  Put_raw id data w : chunk_name id = true →
    match Put id data w with Ret _ w' | Fail _ w' => raw w' = raw w | Crash => True end;
  GetRange_raw id off n w : chunk_name id = true →
    match GetRange id off n w with Ret _ w' | Fail _ w' => raw w' = raw w | Crash => True end;
  Delete_raw id w : chunk_name id = true →
    match Delete id w with Ret _ w' | Fail _ w' => raw w' = raw w | Crash => True end;
  Size_raw id w : chunk_name id = true →
    match Size id w with Ret _ w' | Fail _ w' => raw w' = raw w | Crash => True end;
  List_raw w :
    match List w with Ret _ w' | Fail _ w' => raw w' = raw w | Crash => True end;
  PutRaw_law data w :
    match PutRaw IndexKey data w with
    | Ret _ w' => raw w' = Some data ∧ ∀ k, chunk_name k = true → obj w' k = obj w k
    | Fail _ w' => (raw w' = raw w ∨ raw w' = Some data) ∧ ∀ k, chunk_name k = true → obj w' k = obj w k
    | Crash => False
    end;
  GetRaw_law w :
    match GetRaw IndexKey w with
    | Ret data w' => raw w = Some data ∧ raw w' = raw w ∧ ∀ k, chunk_name k = true → obj w' k = obj w k
    | Fail e w' => (e = ErrNotFound → raw w = None) ∧ raw w' = raw w ∧
        ∀ k, chunk_name k = true → obj w' k = obj w k
    | Crash => False
    end;
}.

(** ** Chunk names *)

Lemma chunk_name_app a b : chunk_name (a +:+ b)%string = chunk_name a && chunk_name b.
Proof.
  elim: a => [//|c a IH].
  change (chunk_name (String c a +:+ b)%string) with (name_char c && chunk_name (a +:+ b)%string).
  rw IH. by rw andb_assoc.
Qed.

Lemma chunk_name_digits ds : Forall is_digit ds → chunk_name (digit_string ds) = true.
Proof.
  elim=> [//|d l /digit_cases Hd _ IH].
  change (chunk_name (digit_string (d :: l)))
    with (name_char (digit_char d) && chunk_name (digit_string l)).
  rw IH. by destruct Hd as [->|[->|[->|[->|[->|[->|[->|[->|[->| ->]]]]]]]]].
Qed.

Lemma chunk_name_format n : 0 <= n < 2 ^ 63 → chunk_name (format_chunk_id n) = true.
Proof.
  move=> Hn. rw /format_chunk_id chunk_name_app Sprintf_08d_nonneg; [|lia].
  rw chunk_name_digits //. apply zero_pad_digits, digits_spec. lia.
Qed.

Lemma chunk_name_tmp p : chunk_name (tmp_name p) = false.
Proof. rw /tmp_name chunk_name_app andb_false_r //. Qed.

Lemma strip_prefix_inv p s r : strip_prefix p s = Some r → s = (p +:+ r)%string.
Proof.
  elim: p s => [s [->] //|a p IH [//|b s]] /=.
  case: Ascii.eqb_spec => // -> /IH ->. done.
Qed.

(** ** LocalStore *)

(** The order of file names. *)
Definition name_le (a b : string) : Prop := String.leb a b = true.
#[global] Instance name_le_dec : RelDecision name_le.
Proof. move=> a b. rw /name_le. apply _. Defined.

Module LocalStore.
Section local.
Variable dir : string.

(** [NewLocalStore(dir)]: the store is its directory. *)
Definition NewLocalStore (d : Disk) : outcome StoreErr Disk string :=
  match os_MkdirAll dir d with
  | Ret _ d => Ret dir d
  | Fail _ d => Fail ErrStore d
  | Crash => Crash
  end.

Definition path (id : string) : string := Join dir id.

Definition Put (id : string) (data : bytes) (d : Disk) : outcome StoreErr Disk unit :=
  let p := path id in
  let tmp := tmp_name p in
  match os_WriteFile tmp data d with
  | Fail _ d => Fail ErrStore d
  | Crash => Crash
  | Ret _ d =>
  match os_Rename tmp p d with
  | Fail _ d => Fail ErrStore d
  | Crash => Crash
  | Ret _ d => Ret tt d
  end end.

Definition GetRange (id : string) (offset length : Z) (d : Disk) : outcome StoreErr Disk bytes :=
  match os_ReadAt (path id) offset length d with
  | Ret b d => Ret b d
  | Fail _ d => Fail ErrStore d
  | Crash => Crash
  end.

Definition Delete (id : string) (d : Disk) : outcome StoreErr Disk unit :=
  match os_Remove (path id) d with
  | Ret _ d => Ret tt d
  | Fail ErrNotExist d => Ret tt d
  | Fail ErrIO d => Fail ErrStore d
  | Crash => Crash
  end.

(** The name of a file that lies directly in [dir]. *)
Definition name_in_dir (p : string) : option string :=
  match strip_prefix (Join dir EmptyString) p with
  | Some name =>
      if existsb (fun c => Ascii.eqb c "/"%char) (String.list_ascii_of_string name)
      then None else Some name
  | None => None
  end.

(** [os.ReadDir] sorts by name. *)
Definition List (d : Disk) : outcome StoreErr Disk (list string) :=
  match next_fault d with
  | NoFault =>
      Ret (merge_sort name_le
             (omap (fun pc => name_in_dir pc.1) (map_to_list (files d)))) (pop_fault d)
  | _ => Fail ErrStore (pop_fault d)
  end.

Definition Size (id : string) (d : Disk) : outcome StoreErr Disk Z :=
  match os_Stat_Size (path id) d with
  | Ret n d => Ret n d
  | Fail _ d => Fail ErrStore d
  | Crash => Crash
  end.

Definition store : Store Disk := {|
  Store.Put := Put; Store.GetRange := GetRange; Store.Delete := Delete;
  Store.List := List; Store.Size := Size;
|}.

Definition obj (d : Disk) (id : string) : option bytes := files d !! path id.

Lemma Join_inj a b : Join dir a = Join dir b → a = b.
Proof.
  rw /Join !str_app_assoc => H. apply (f_equal (strip_prefix (dir +:+ "/")%string)) in H.
  rw !strip_prefix_app in H. by injection H.
Qed.

Lemma path_ne_tmp k id : chunk_name k = true → path k ≠ tmp_name (path id).
Proof.
  move=> Hk. rw /path /tmp_name {2}/Join - !str_app_assoc => H.
  apply (Join_inj k (id +:+ ".tmp")%string) in H. subst.
  by rw chunk_name_app andb_false_r in Hk.
Qed.

Lemma path_inj k id : path k = path id → k = id.
Proof. apply Join_inj. Qed.

Lemma name_in_dir_path k : chunk_name k = true → name_in_dir (path k) = Some k.
Proof.
  move=> Hk. rw /name_in_dir /path /Join.
  change ("/" +:+ "")%string with "/"%string. rw str_app_assoc strip_prefix_app.
  elim: k Hk => [//|c k IH] /= /andb_prop [Hc /IH].
  destruct (Ascii.eqb_spec c "/") as [->|]; [done|].
  by destruct (existsb _ _).
Qed.

Lemma name_in_dir_inv p k : name_in_dir p = Some k → p = path k.
Proof.
  rw /name_in_dir. destruct (strip_prefix _ p) as [n|] eqn:H => //.
  destruct (existsb _ _) => // -[<-]. apply strip_prefix_inv in H.
  by rw H /path /Join - str_app_assoc.
Qed.

Lemma Put_ret id data d u d' k :
  Put id data d = Ret u d' → chunk_name k = true →
  obj d' k = if decide (k = id) then Some data else obj d k.
Proof.
  rw /Put /obj. move=> + /path_ne_tmp Hk. specialize (Hk id).
  destruct (os_WriteFile _ _ d) as [u1 d1| |] eqn:H1 => //=.
  destruct (os_Rename _ _ d1) as [u2 d2| |] eqn:H2 => //= -[_ <-].
  apply os_WriteFile_ret in H1. apply os_Rename_ret in H2 as (data' & Hd & ->).
  rw H1 lookup_insert_eq in Hd. injection Hd as <-. rw H1.
  case_decide as E; [subst; apply lookup_insert_eq|].
  rw !lookup_insert_ne ?lookup_delete_ne ?lookup_insert_ne //; try by apply not_eq_sym.
  move=> /path_inj. by apply not_eq_sym.
Qed.

Lemma Put_fail id data d e d' k :
  Put id data d = Fail e d' → chunk_name k = true → obj d' k = obj d k.
Proof.
  rw /Put /obj. move=> + /path_ne_tmp Hk. specialize (Hk id).
  destruct (os_WriteFile _ _ d) as [u1 d1|e1 d1|] eqn:H1 => //=.
  - destruct (os_Rename _ _ d1) as [u2 d2|e2 d2|] eqn:H2 => //= -[_ <-].
    apply os_WriteFile_ret in H1. apply os_Rename_fail in H2 as ->.
    rw H1 lookup_insert_ne //.
  - move=> [_ <-]. apply (os_WriteFile_frame (tmp_name (path id)) data d); [by rw H1|]. set_solver.
Qed.

Lemma List_ids d ids d' k :
  List d = Ret ids d' → chunk_name k = true → k ∈ ids ↔ is_Some (obj d k).
Proof.
  rw /List. destruct (next_fault d) => //= -[<- _] Hk.
  rw merge_sort_Permutation list_elem_of_omap /obj. split.
  - move=> [[p c] [/elem_of_map_to_list Hp /= /name_in_dir_inv E]]. subst. by exists c.
  - move=> [c Hc]. exists (path k, c). split; [by apply elem_of_map_to_list|].
    by apply name_in_dir_path.
Qed.
Lemma Delete_cases id d :
  match Delete id d with
  | Ret _ d' => files d' = delete (path id) (files d)
  | Fail _ d' => files d' = files d
  | Crash => False
  end.
Proof.
  rw /Delete /os_Remove. destruct (next_fault d) => //=.
  destruct (files d !! path id) eqn:H => //=. by rw delete_id.
Qed.

Lemma Size_cases id d :
  match Size id d with
  | Ret n d' => files d' = files d ∧ ∃ data, obj d id = Some data ∧ n = len data
  | Fail _ d' => files d' = files d
  | Crash => False
  end.
Proof.
  rw /Size /os_Stat_Size /os_ReadFile /obj. destruct (next_fault d) => //=.
  destruct (files d !! path id) => //=. eauto.
Qed.

(** The directory store keeps the laws. *)
#[global] Instance laws : StoreLaws store obj.
Proof.
  split.
  - move=> id data d Hid /=. destruct (Put id data d) as [u d'|e d'|] eqn:H.
    + move=> k. by apply (Put_ret id data d u).
    + split; [move=> k Hk _|left]; by apply (Put_fail id data d e).
    + revert H. rw /Put /os_WriteFile /os_Rename.
      destruct (next_fault d) => //=. destruct (next_fault _) => //=.
      by rw lookup_insert_eq.
  - move=> id off n d Hid Ho Hn /=. rw /GetRange.
    move: (os_ReadAt_cases (path id) off n d Ho Hn).
    destruct (os_ReadAt _ _ _ d) => //=; rw /obj.
    + move=> [-> [data [Hd Hr]]]. split; [done|]. exists data. split; [done|].
      move=> ? _. by apply Hr.
    + by move=> ->.
  - move=> id d Hid /=. move: (Delete_cases id d). destruct (Delete id d) => //=; rw /obj => ->.
    + move=> k Hk. case_decide as E; [subst; apply lookup_delete_eq|].
      rw lookup_delete_ne //. move=> /path_inj. by apply not_eq_sym.
    + split; [done|]. by left.
  - move=> d /=. destruct (List d) as [ids d'|e d'|] eqn:H.
    + split; [|move=> k; by apply (List_ids d ids d')].
      move: H. rw /List. by destruct (next_fault d) => //= -[_ <-].
    + move: H. rw /List. by destruct (next_fault d) => //= -[_ <-].
    + move: H. rw /List. by destruct (next_fault d).
  - move=> id d Hid /=. move: (Size_cases id d). destruct (Size id d) => //=; rw /obj.
    + by move=> [-> ?].
    + by move=> ->.
Qed.
End local.
End LocalStore.
