(* ===== verification/Cache.v ===== *)
(** The disk cache of sealed chunks (src/internal/chunks/cache.go), as one
    goroutine at a time runs it: between two calls no fetch is in flight, so
    the [inflight] table is empty when a call looks a chunk up in it. CacheConc.v
    has the goroutines that wait for each other. *)
From S2P Require Import Prelude OS Decimal Store.
#[local] Open Scope Z_scope.

Record chunkCache := mkCache { dir : string }.

(** The backing store and the local file system, the two things outside the
    process that a chunk store talks to. *)
Record world W := mkWorld { backing : W; local : Disk }.
Arguments mkWorld {W}. Arguments backing {W}. Arguments local {W}.

Inductive ChunkErr :=
  | ErrExceedsMax | ErrOutOfBounds | ErrBacking (e : StoreErr) | ErrCache (e : OsErr).

(** A call of the store, and a call of the file system. *)
Definition on_backing {W A} (m : W → outcome StoreErr W A) (w : world W)
    : outcome ChunkErr (world W) A :=
  match m (backing w) with
  | Ret a b => Ret a (mkWorld b (local w))
  | Fail e b => Fail (ErrBacking e) (mkWorld b (local w))
  | Crash => Crash
  end.

Definition on_local {W A} (m : Disk → outcome OsErr Disk A) (w : world W)
    : outcome ChunkErr (world W) A :=
  match m (local w) with
  | Ret a d => Ret a (mkWorld (backing w) d)
  | Fail e d => Fail (ErrCache e) (mkWorld (backing w) d)
  | Crash => Crash
  end.

(** ** Operations *)

Definition newChunkCache (baseDir : string) (d : Disk) : outcome OsErr Disk chunkCache :=
  let dir := Join baseDir "chunks" in
  let! _, d := os_MkdirAll dir d in
  Ret (mkCache dir) d.

Definition readFileSlice (path : string) (offset length : Z) (d : Disk)
    : outcome OsErr Disk bytes :=
  os_ReadAt path offset length d.

Definition writeAtomic (path : string) (data : bytes) (d : Disk) : outcome OsErr Disk unit :=
  let tmp := tmp_name path in
  let! _, d := os_WriteFile tmp data d in
  match os_Rename tmp path d with
  | Fail e d => Fail e (default d (out_state (os_Remove tmp d)))
  | r => r
  end.

Definition put (c : chunkCache) (chunkID : string) (data : bytes) (d : Disk)
    : outcome OsErr Disk unit :=
  writeAtomic (Join (dir c) chunkID) data d.

Section operations.
Context {W : Type} {S : Store W}.

Definition fetchFullChunk (chunkID : string) (w : world W) : outcome ChunkErr (world W) bytes :=
  let! size, w := on_backing (Size chunkID) w in
  on_backing (GetRange chunkID 0 size) w.

(** [data[offset:offset+length]]; a slice expression out of bounds panics. *)
Definition go_slice (data : bytes) (offset length : Z) (w : world W)
    : outcome ChunkErr (world W) bytes :=
  let end_ := offset +! length in
  if (0 <=? offset) && (offset <=? end_) && (end_ <=? len data)
  then Ret (slice data offset (end_ - offset)) w else Crash.

Definition readRange (c : chunkCache) (chunkID : string) (offset length : Z) (w : world W)
    : outcome ChunkErr (world W) bytes :=
  let path := Join (dir c) chunkID in
  match on_local (readFileSlice path offset length) w with
  | Ret data w => Ret data w
  | Crash => Crash
  | Fail _ w =>
  match on_local (readFileSlice path offset length) w with
  | Ret data w => Ret data w
  | Crash => Crash
  | Fail _ w =>
    let! data, w := fetchFullChunk chunkID w in
    let! _, w := on_local (writeAtomic path data) w in
    go_slice data offset length w
  end end.
End operations.

(** ** Paths *)

Lemma Join_ne_tmp d k id : chunk_name k = true → Join d k ≠ tmp_name (Join d id).
Proof. apply LocalStore.path_ne_tmp. Qed.

(** What the cache holds for a chunk. *)
Definition cached (c : chunkCache) (d : Disk) (id : string) : option bytes :=
  files d !! Join (dir c) id.

(** An atomic write changes the named chunk only, and only if it returns. *)
Lemma writeAtomic_cases c id data d :
  match writeAtomic (Join (dir c) id) data d with
  | Ret _ d' => ∀ k, chunk_name k = true →
      cached c d' k = if decide (k = id) then Some data else cached c d k
  | Fail _ d' => ∀ k, chunk_name k = true → cached c d' k = cached c d k
  | Crash => False
  end.
Proof.
  rw /writeAtomic. destruct (os_WriteFile _ data d) as [u d1|e d1|] eqn:H1 => /=; last first.
  { revert H1. rw /os_WriteFile. by destruct (next_fault d). }
  { move=> k /(Join_ne_tmp (dir c) k id) Hk.
    apply (os_WriteFile_frame (tmp_name (Join (dir c) id)) data d); [by rw H1|]. set_solver. }
  apply os_WriteFile_ret in H1.
  assert (∀ k, chunk_name k = true → cached c d1 k = cached c d k) as H1'.
  { move=> k /(Join_ne_tmp (dir c) k id) Hk. by rw /cached H1 lookup_insert_ne. }
  destruct (os_Rename _ _ d1) as [u2 d2|e d2|] eqn:H2.
  - apply os_Rename_ret in H2 as (data' & Hd & H2).
    rw H1 lookup_insert_eq in Hd. injection Hd as <-.
    move=> k Hk. rw /cached H2. case_decide as E; [subst; apply lookup_insert_eq|].
    rw lookup_insert_ne; [|by move=> /LocalStore.Join_inj /(@eq_sym _ _ _)].
    rw lookup_delete_ne; [by apply H1'|]. by apply not_eq_sym, Join_ne_tmp.
  - apply os_Rename_fail in H2. move=> k Hk. rw - H1' // /cached - H2 /os_Remove.
    destruct (next_fault d2) => //=. destruct (files d2 !! _) => //=.
    rw lookup_delete_ne //. by apply not_eq_sym, Join_ne_tmp.
  - revert H2. rw /os_Rename. destruct (next_fault d1) => //=. by destruct (files d1 !! _).
Qed.


(** ** Reading through the cache *)

Lemma prefix_slice (f data : bytes) off n :
  f `prefix_of` data → 0 <= off → 0 <= n → off + n <= len f →
  slice f off n = slice data off n.
Proof. move=> [k ->] ???. by rw slice_app_l. Qed.

Section correctness.
Context {W : Type} {S : Store W} (obj : W → string → option bytes) {L : StoreLaws S obj}.
Variable c : chunkCache.

(** A chunk in the cache is a prefix of the chunk in the store: a process
    that shares the store may have fetched it while it was still growing, and
    a read past the prefix fetches it again. An empty object is outside the
    contract, since no byte of it is ever read. *)
Definition coherent_at (w : world W) (id : string) : Prop :=
  ∀ f data, cached c (local w) id = Some f → obj (backing w) id = Some data →
    data ≠ [] → f `prefix_of` data.

(** A fetch does not change the objects, and what it returns is the chunk. *)
Lemma fetchFullChunk_cases id w : chunk_name id = true →
  match fetchFullChunk id w with
  | Ret b w' => local w' = local w ∧
      (∀ k, chunk_name k = true → obj (backing w') k = obj (backing w) k) ∧
      ∃ data, obj (backing w) id = Some data ∧ (data ≠ [] → b = data)
  | Fail _ w' => local w' = local w ∧
      ∀ k, chunk_name k = true → obj (backing w') k = obj (backing w) k
  | Crash => False
  end.
Proof.
  move=> Hid. rw /fetchFullChunk /on_backing. pose proof (Size_law (obj:=obj) id (backing w) Hid) as HS. revert HS.
  destruct (Size id (backing w)) as [n b1|e b1|] => //=.
  move=> [H1 [data [Hd ->]]]. pose proof (GetRange_law (obj:=obj) id 0 (len data) b1 Hid) as H'. revert H'.
  pose proof (len_nonneg data).
  destruct (GetRange id 0 (len data) b1) as [b b2|e b2|] => /= H'; [| |by apply H'; lia].
  - destruct H' as [H2 (data' & Hd' & Hs)]; [lia|lia|].
    split; [done|]. split; [by move=> k Hk; rw H2 // H1|].
    exists data. split; [done|]. rw H1 // Hd in Hd'. injection Hd' as <-.
    move=> Hne. rw Hs; [apply slice_full| |lia]. destruct data => //.
  - split; [done|]. move=> k Hk. rw H'; [|lia..|done]. by apply H1.
Qed.

(** What a read leaves: the same objects, the same cached chunks but for the
    one that it read, and that one still coherent. *)
Definition read_frame (id : string) (w w' : world W) : Prop :=
  (∀ k, chunk_name k = true → obj (backing w') k = obj (backing w) k) ∧
  (∀ k, chunk_name k = true → k ≠ id → cached c (local w') k = cached c (local w) k) ∧
  (coherent_at w id → coherent_at w' id).

Lemma read_frame_refl id w : read_frame id w w.
Proof. done. Qed.

Lemma read_frame_trans id w1 w2 w3 :
  read_frame id w1 w2 → read_frame id w2 w3 → read_frame id w1 w3.
Proof.
  move=> [A [B C]] [A' [B' C']]. split; [by move=> k Hk; rw A' // A|].
  split; [by move=> k Hk ?; rw B' // B|]. auto.
Qed.

Lemma read_frame_same id w w' : chunk_name id = true →
  (∀ k, chunk_name k = true → obj (backing w') k = obj (backing w) k) →
  (∀ k, chunk_name k = true → cached c (local w') k = cached c (local w) k) →
  read_frame id w w'.
Proof.
  move=> Hid A B. split; [done|]. split; [by auto|]. rw /coherent_at. by rw A // B.
Qed.

Lemma on_local_read id off n w : chunk_name id = true → 0 <= off → 0 < n →
  match on_local (readFileSlice (Join (dir c) id) off n) w with
  | Ret b w' => read_frame id w w' ∧
      ∃ f, cached c (local w) id = Some f ∧ off + n <= len f ∧ b = slice f off n
  | Fail _ w' => read_frame id w w'
  | Crash => False
  end.
Proof.
  move=> Hid Ho Hn. rw /on_local /readFileSlice.
  pose proof (os_ReadAt_cases (Join (dir c) id) off n (local w)) as HR. revert HR.
  destruct (os_ReadAt _ _ _ _) as [b d|e d|] => /= HR.
  - destruct HR as [Hf (f & H1 & H2)]; [lia..|]. destruct H2; [lia|]. split; [|eauto].
    apply read_frame_same => // k _. by rw /cached /= Hf.
  - apply read_frame_same => // k _. rw /cached /= HR //; lia.
  - apply HR; lia.
Qed.

Lemma go_slice_ret (data : bytes) off n (w : world W) :
  0 <= off → 0 <= n → off + n <= len data → off + n < 2 ^ 63 →
  go_slice data off n w = Ret (slice data off n) w.
Proof.
  move=> Ho Hn Hl Hm. rw /go_slice i64_small; [|rw /is_i64; lia].
  assert ((0 <=? off) && (off <=? off + n) && (off + n <=? len data) = true) as -> by lia.
  by replace (off + n - off) with n by lia.
Qed.

(** A read in range of a coherent chunk returns its bytes or an error, and
    never panics. *)
Lemma readRange_cases id off n w data :
  chunk_name id = true → 0 <= off → 0 < n → coherent_at w id →
  obj (backing w) id = Some data → off + n <= len data → off + n < 2 ^ 63 →
  match readRange c id off n w with
  | Ret b w' => read_frame id w w' ∧ b = slice data off n
  | Fail _ w' => read_frame id w w'
  | Crash => False
  end.
Proof.
  move=> Hid Ho Hn Hc Hd Hl Hm. assert (data ≠ []) as Hne by (intros ->; rw /len /= in Hl; lia).
  rw /readRange.
  pose proof (on_local_read id off n w Hid Ho Hn) as H1. revert H1.
  destruct (on_local _ w) as [b w1|e w1|] => // [[F [f [Hf [Hfl ->]]]]|F1].
  { split; [done|]. apply prefix_slice; [by apply Hc|lia..]. }
  pose proof (on_local_read id off n w1 Hid Ho Hn) as H1. revert H1.
  assert (coherent_at w1 id) as Hc1 by (by apply F1).
  assert (obj (backing w1) id = Some data) as Hd1 by (rw (proj1 F1) //).
  destruct (on_local _ w1) as [b w2|e2 w2|] => // [[F [f [Hf [Hfl ->]]]]|F2].
  { split; [by eapply read_frame_trans|]. apply prefix_slice; [by apply Hc1|lia..]. }
  assert (obj (backing w2) id = Some data) as Hd2 by (rw (proj1 F2) //).
  assert (read_frame id w w2) as F by by eapply read_frame_trans.
  pose proof (fetchFullChunk_cases id w2 Hid) as H3. revert H3.
  destruct (fetchFullChunk id w2) as [b w3|e3 w3|] => //=; last first.
  { move=> [El Ho']. eapply read_frame_trans; [done|]. apply read_frame_same => //.
    move=> k _. by rw El. }
  move=> [El [Ho' [data' [Hd' Hb]]]]. rw Hd2 in Hd'. injection Hd' as <-.
  assert (b = data) as -> by by apply Hb.
  rw /on_local. pose proof (writeAtomic_cases c id data (local w3)) as H4. revert H4.
  destruct (writeAtomic _ _ _) as [u d4|e4 d4|] => //= H4; last first.
  { eapply read_frame_trans; [done|]. apply read_frame_same => //= k Hk. by rw H4 // El. }
  rw go_slice_ret; [|lia..]. split; [|done]. eapply read_frame_trans; [done|].
  split; [done|]. split; [by move=> k Hk Hne'; rw H4 // decide_False // El|].
  move=> _ f dt /=. rw H4 // decide_True //= Ho' // Hd2 => -[<-] [<-] //.
Qed.
End correctness.
