(* ===== verification/CacheConcProps.v ===== *)
(** What holds of concurrent reads through the chunk cache: the invariant of
    the lock and of the table of fetches, the invariant of the data, progress
    and termination, and the agreement with the sequential function. *)
From S2P Require Import Prelude OS Decimal Store Cache CacheConc.
#[local] Open Scope Z_scope.

(** ** The control state of a goroutine *)

(** What matters of a program counter for the lock and the table. *)
Inductive ctl := Outside | Held | Waits (f : nat) | Awake (f : nat)
  | Fetches (f : nat) | Published (f : nat) | Clears (f : nat).

Definition ctl_of (p : pc) : ctl :=
  match p with
  | Start | WantLock | Finishing _ | Returned _ => Outside
  | Recheck | Table => Held
  | Waiting f => Waits f
  | Woken f => Awake f
  | Sizing f | Getting f _ | WritingTmp f _ | Renaming f _ | Cleaning f _ | Publishing f _ => Fetches f
  | Relock f _ => Published f
  | Clearing f _ => Clears f
  end.

Definition holds (x : ctl) : bool := match x with Held | Clears _ => true | _ => false end.
Definition fetching (x : ctl) : option nat :=
  match x with Fetches f | Published f | Clears f => Some f | _ => None end.
Definition awaits (x : ctl) : option nat := match x with Waits f | Awake f => Some f | _ => None end.
Definition unpublished (x : ctl) : bool := match x with Fetches _ => true | _ => false end.

(** How a step changes the control state and the shared fields. *)
Inductive cstep {W} (t : nat) (k : string) (s : shared W) : ctl → shared W → ctl → Prop :=
  | c_stay x w : cstep t k s x (with_world s w) x
  | c_leave x w : holds x = false → fetching x = None → cstep t k s x (with_world s w) Outside
  | c_wake f i : fetches s !! f = Some i → ready i = true → cstep t k s (Waits f) s (Awake f)
  | c_lock x y : mu s = None → (x, y) = (Outside, Held) ∨ (∃ f, (x, y) = (Published f, Clears f)) →
      cstep t k s x (with_mu s (Some t)) y
  | c_unlock w : cstep t k s Held (with_world (with_mu s None) w) Outside
  | c_join f : inflight s !! k = Some f → cstep t k s Held (with_mu s None) (Waits f)
  | c_register : inflight s !! k = None →
      cstep t k s Held (mkShared (sw s) None (<[k := length (fetches s)]> (inflight s)) (fetches s ++ [mkFetch false None]))
        (Fetches (length (fetches s)))
  | c_publish f e : cstep t k s (Fetches f) (mkShared (sw s) (mu s) (inflight s) (<[f := mkFetch true e]> (fetches s))) (Published f)
  | c_clear f : cstep t k s (Clears f) (mkShared (sw s) None (delete k (inflight s)) (fetches s)) Outside.

Lemma with_world_id {W} (s : shared W) : with_world s (sw s) = s.
Proof. by destruct s. Qed.

Section control.
Context {W : Type} {S : Store W}.
Variable c : chunkCache.
Implicit Types s : conc W.

Lemma advance_cstep heed dn t r p (s s' : shared W) p' :
  advance c heed dn t r p s = Some (s', p') → p' ≠ Returned Panicked →
  cstep t (chunkID r) s (ctl_of p) s' (ctl_of p').
Proof.
  rw /advance /doing => H Hp. destruct heed, p => //=; repeat case_match; simplify_eq => //=;
    try (by apply c_stay); try (by apply c_leave); try (by apply c_unlock); try (by apply c_join);
    try (by apply c_register); try (by apply c_publish); try (by apply c_clear);
    try (apply c_lock; [done|by eauto]); try (rw -{2}(with_world_id s'); by constructor).
  by eapply c_wake.
Qed.

(** The lock is held by the goroutine that is in a critical section; an entry
    of the table belongs to exactly one goroutine, which fetches that chunk;
    a goroutine waits for a fetch in the table or for one that is published. *)
Record control s : Prop := {
  lock_held t : mu (sh s) = Some t → ∃ th, threads s !! t = Some th ∧ holds (ctl_of (at_ th)) = true;
  lock_own t th : threads s !! t = Some th → holds (ctl_of (at_ th)) = true → mu (sh s) = Some t;
  table_owned k f : inflight (sh s) !! k = Some f →
    ∃ t th, threads s !! t = Some th ∧ chunkID (req th) = k ∧ fetching (ctl_of (at_ th)) = Some f;
  fetcher t th f : threads s !! t = Some th → fetching (ctl_of (at_ th)) = Some f →
    inflight (sh s) !! chunkID (req th) = Some f ∧
    ∃ i, fetches (sh s) !! f = Some i ∧ ready i = negb (unpublished (ctl_of (at_ th)));
  one_fetcher t t' th th' f : threads s !! t = Some th → threads s !! t' = Some th' →
    fetching (ctl_of (at_ th)) = Some f → fetching (ctl_of (at_ th')) = Some f → t = t';
  waiter t th f : threads s !! t = Some th → awaits (ctl_of (at_ th)) = Some f →
    ∃ i, fetches (sh s) !! f = Some i ∧
      (ready i = false → ctl_of (at_ th) = Waits f ∧ inflight (sh s) !! chunkID (req th) = Some f);
}.

(** A goroutine of the next state is the one that moved or an old one. *)
Lemma moved {l : list thread} {t th' t1 th1} :
  <[t := th']> l !! t1 = Some th1 → (t1 = t ∧ th1 = th') ∨ (t1 ≠ t ∧ l !! t1 = Some th1).
Proof. intros H. apply list_lookup_insert_Some in H as [(-> & <- & _)|[? ?]]; auto. Qed.

(** The three things a step can do to the lock, to the table, to the fetches. *)
Lemma cstep_lock t k (s s' : shared W) x y : cstep t k s x s' y →
  (mu s' = mu s ∧ holds y = holds x) ∨
  (mu s = None ∧ mu s' = Some t ∧ holds x = false ∧ holds y = true) ∨
  (holds x = true ∧ mu s' = None ∧ holds y = false).
Proof.
  destruct 1 as [| x w Hh | | x y Hm [[= -> ->]|[f [= -> ->]]] | | | | |] => /=; auto 6.
Qed.

Lemma cstep_table t k (s s' : shared W) x y : cstep t k s x s' y →
  (inflight s' = inflight s ∧ fetching y = fetching x) ∨
  (inflight s !! k = None ∧ inflight s' = <[k := length (fetches s)]> (inflight s) ∧
   fetching x = None ∧ y = Fetches (length (fetches s)) ∧ fetches s' = fetches s ++ [mkFetch false None]) ∨
  (inflight s' = delete k (inflight s) ∧ fetching y = None ∧ ∃ f, x = Clears f).
Proof.
  destruct 1 as [| x w Hh Hf | | x y Hm [[= -> ->]|[f [= -> ->]]] | | | | |] => /=;
    try (left; split; [done|congruence]).
  - right; left. done.
  - right; right. by eauto.
Qed.

Lemma cstep_fetches t k (s s' : shared W) x y : cstep t k s x s' y →
  (fetches s' = fetches s ∧ (is_Some (fetching y) → unpublished y = unpublished x)) ∨
  (fetches s' = fetches s ++ [mkFetch false None] ∧ y = Fetches (length (fetches s))) ∨
  (∃ f e, fetches s' = <[f := mkFetch true e]> (fetches s) ∧ x = Fetches f ∧ y = Published f).
Proof.
  destruct 1 as [| x w Hh Hf | | x y Hm [[= -> ->]|[f [= -> ->]]] | | | | |] => /=;
    try (left; split; [done|by move=> [? ?]]).
  - by right; left.
  - right; right. eauto.
Qed.

(** A fetch stays in the list; its channel is closed by its fetcher only. *)
Lemma cstep_fetch_kept t k (s s' : shared W) x y f i : cstep t k s x s' y → fetches s !! f = Some i →
  fetches s' !! f = Some i ∨ (x = Fetches f ∧ ∃ e, fetches s' !! f = Some (mkFetch true e)).
Proof.
  intros Hc Hi. destruct (cstep_fetches _ _ _ _ _ _ Hc) as [[-> _]|[[-> _]|(g & e & -> & -> & _)]]; [by left| |].
  - left. by apply lookup_app_l_Some.
  - destruct (decide (f = g)) as [->|Hne]; [right|left; by rw list_lookup_insert_ne].
    split; [done|]. exists e. apply list_lookup_insert_eq. by eapply lookup_lt_Some.
Qed.

Section preservation.
Context (s : conc W) (s' : shared W) (t : nat) (th : thread) (p' : pc) (b : bool).
Hypothesis Hs : control s.
Hypothesis Ht : threads s !! t = Some th.
Hypothesis Hc : cstep t (chunkID (req th)) (sh s) (ctl_of (at_ th)) s' (ctl_of p').
Let th' := mkThread (req th) p' b.

Lemma self_moved : <[t := th']> (threads s) !! t = Some th'.
Proof. apply list_lookup_insert_eq. by eapply lookup_lt_Some. Qed.

Lemma others_stay t1 th1 : t1 ≠ t → threads s !! t1 = Some th1 → <[t := th']> (threads s) !! t1 = Some th1.
Proof. intros Hne H. by rw list_lookup_insert_ne. Qed.

Lemma lock_held_step t1 : mu s' = Some t1 →
  ∃ th1, <[t := th']> (threads s) !! t1 = Some th1 ∧ holds (ctl_of (at_ th1)) = true.
Proof.
  intros Hm. destruct (cstep_lock _ _ _ _ _ _ Hc) as [[Em Eh]|[(_ & Em & _ & Eh)|(_ & Em & _)]]; [| |congruence].
  - rw Em in Hm. destruct (lock_held s Hs t1 Hm) as (th1 & H1 & Hh).
    destruct (decide (t1 = t)) as [->|Hne]; [|by eauto using others_stay].
    exists th'. split; [apply self_moved|]. simpl. rw Eh. by simplify_eq.
  - rw Hm in Em. injection Em as ->. exists th'. split; [apply self_moved|done].
Qed.

Lemma lock_own_step t1 th1 : <[t := th']> (threads s) !! t1 = Some th1 →
  holds (ctl_of (at_ th1)) = true → mu s' = Some t1.
Proof.
  intros H1 Hh. destruct (moved H1) as [[-> ->]|[Hne H1']]; simpl in *.
  - destruct (cstep_lock _ _ _ _ _ _ Hc) as [[Em Eh]|[(_ & Em & _ & Eh)|(_ & _ & Eh)]]; [|done|congruence].
    rw Em. apply (lock_own s Hs t th Ht). congruence.
  - pose proof (lock_own s Hs t1 th1 H1' Hh) as Hm.
    destruct (cstep_lock _ _ _ _ _ _ Hc) as [[Em Eh]|[(Em & _)|(Eh & _)]]; [congruence..|].
    pose proof (lock_own s Hs t th Ht Eh). congruence.
Qed.

Lemma table_owned_step k f : inflight s' !! k = Some f →
  ∃ t1 th1, <[t := th']> (threads s) !! t1 = Some th1 ∧ chunkID (req th1) = k ∧ fetching (ctl_of (at_ th1)) = Some f.
Proof.
  intros Hk. destruct (cstep_table _ _ _ _ _ _ Hc) as [[Ei Ef]|[(_ & Ei & _ & Ey & _)|(Ei & _)]]; rw Ei in Hk.
  - destruct (table_owned s Hs k f Hk) as (t1 & th1 & H1 & Ek & Hf).
    destruct (decide (t1 = t)) as [->|Hne]; [|by eauto 7 using others_stay].
    simplify_eq. exists t, th'. split; [apply self_moved|]. split; [done|]. simpl. congruence.
  - apply lookup_insert_Some in Hk as [[<- <-]|[Hne Hk]].
    { exists t, th'. split; [apply self_moved|]. simpl. by rw Ey. }
    destruct (table_owned s Hs k f Hk) as (t1 & th1 & H1 & Ek & Hf).
    exists t1, th1. split; [|done]. apply others_stay; [|done]. intros ->. simplify_eq.
  - apply lookup_delete_Some in Hk as [Hne Hk].
    destruct (table_owned s Hs k f Hk) as (t1 & th1 & H1 & Ek & Hf).
    exists t1, th1. split; [|done]. apply others_stay; [|done]. intros ->. simplify_eq.
Qed.

Lemma fetch_index t1 th1 f : threads s !! t1 = Some th1 → fetching (ctl_of (at_ th1)) = Some f → (f < length (fetches (sh s)))%nat.
Proof. intros H1 Hf. destruct (fetcher s Hs t1 th1 f H1 Hf) as (_ & i & Hi & _). by eapply lookup_lt_Some. Qed.

Lemma one_fetcher_step t1 t2 th1 th2 f :
  <[t := th']> (threads s) !! t1 = Some th1 → <[t := th']> (threads s) !! t2 = Some th2 →
  fetching (ctl_of (at_ th1)) = Some f → fetching (ctl_of (at_ th2)) = Some f → t1 = t2.
Proof.
  assert (∀ t2 th2, t2 ≠ t → threads s !! t2 = Some th2 →
    fetching (ctl_of p') = Some f → fetching (ctl_of (at_ th2)) = Some f → False) as Hd.
  { intros t3 th3 Hne H3 Ep E3.
    destruct (cstep_table _ _ _ _ _ _ Hc) as [[Ei Ef]|[(_ & _ & _ & Ey & _)|(_ & Ef & _)]]; [| |congruence].
    - apply Hne. apply (one_fetcher s Hs t3 t th3 th f); [done..|congruence].
    - rw Ey /= in Ep. injection Ep as <-. pose proof (fetch_index t3 th3 _ H3 E3). lia. }
  intros H1 H2 E1 E2. destruct (moved H1) as [[-> ->]|[N1 H1']], (moved H2) as [[-> ->]|[N2 H2']]; simpl in *; [done| | |].
  - destruct (Hd t2 th2); done.
  - destruct (Hd t1 th1); done.
  - by apply (one_fetcher s Hs t1 t2 th1 th2 f).
Qed.

Lemma fetcher_step t1 th1 f : <[t := th']> (threads s) !! t1 = Some th1 → fetching (ctl_of (at_ th1)) = Some f →
  inflight s' !! chunkID (req th1) = Some f ∧
  ∃ i, fetches s' !! f = Some i ∧ ready i = negb (unpublished (ctl_of (at_ th1))).
Proof.
  intros H1 Hf. destruct (moved H1) as [[-> ->]|[Hne H1']]; simpl in *.
  - destruct (cstep_table _ _ _ _ _ _ Hc) as [[Ei Ef]|[(_ & Ei & _ & Ey & Efs)|(_ & Ef & _)]]; [| |congruence].
    + rw Ef in Hf. destruct (fetcher s Hs t th f Ht Hf) as (Hi & i & Hfi & Hr). rw Ei. split; [done|].
      destruct (cstep_fetches _ _ _ _ _ _ Hc) as [[-> Hu]|[[_ Ey]|(g & e & -> & Ex & ->)]].
      * exists i. split; [done|]. rw Hu; [done|]. rw Ef Hf. by eauto.
      * pose proof (fetch_index t th f Ht Hf). rw - Ef Ey /= in Hf. injection Hf as <-. lia.
      * rw Ex /= in Hf. injection Hf as ->. exists (mkFetch true e). split; [|done].
        apply list_lookup_insert_eq. by eapply lookup_lt_Some.
    + rw Ey /= in Hf |- *. injection Hf as <-. rw Ei lookup_insert_eq Efs. split; [done|].
      exists (mkFetch false None). split; [|done]. by apply list_lookup_middle.
  - destruct (fetcher s Hs t1 th1 f H1' Hf) as (Hi & i & Hfi & Hr). split.
    + destruct (cstep_table _ _ _ _ _ _ Hc) as [[-> _]|[(Hn & -> & _)|(-> & _ & g & Eg)]]; [done| |].
      * rw lookup_insert_ne //. congruence.
      * rw lookup_delete_ne //. intros Ek. destruct (fetcher s Hs t th g Ht) as [Hg' _]; [by rw Eg|].
        apply Hne. apply (one_fetcher s Hs t1 t th1 th f); [done..|]. rw Eg /=. congruence.
    + exists i. split; [|done]. destruct (cstep_fetch_kept _ _ _ _ _ _ f i Hc Hfi) as [?|[Ex _]]; [done|].
      destruct Hne. apply (one_fetcher s Hs t1 t th1 th f); [done..|]. by rw Ex.
Qed.

(** Nobody joins or leaves a fetch that is not published but its waiters. *)
Lemma waiter_step t1 th1 f : <[t := th']> (threads s) !! t1 = Some th1 → awaits (ctl_of (at_ th1)) = Some f →
  ∃ i, fetches s' !! f = Some i ∧
    (ready i = false → ctl_of (at_ th1) = Waits f ∧ inflight s' !! chunkID (req th1) = Some f).
Proof.
  intros H1 Hf. destruct (moved H1) as [[-> ->]|[Hne H1']]; simpl in *.
  - assert (awaits (ctl_of p') = Some f ∧ awaits (ctl_of (at_ th)) = Some f ∧ s' = with_world (sh s) (sw s') ∧ ctl_of (at_ th) = ctl_of p' ∨
      (∃ i, ctl_of p' = Awake f ∧ fetches s' !! f = Some i ∧ ready i = true) ∨
      (ctl_of p' = Waits f ∧ inflight (sh s) !! chunkID (req th) = Some f ∧ s' = with_mu (sh s) None)) as Hcase.
    { revert Hf. destruct Hc as [| | | x y Hm [[= -> ->]|[g [= -> ->]]] | | | | |]; simpl; try done; intros Hf.
      - by left.
      - injection Hf as ->. right; left. eauto.
      - injection Hf as ->. by right; right. }
    destruct Hcase as [(_ & Hw & -> & Ec)|[(i & _ & Hi & Hr)|(Ep & Hk & ->)]].
    + rw - Ec. by apply (waiter s Hs t th f Ht).
    + exists i. split; [done|]. congruence.
    + rw Ep. simpl. destruct (table_owned s Hs _ f Hk) as (t2 & th2 & H2 & E2 & F2).
      destruct (fetcher s Hs t2 th2 f H2 F2) as (_ & i & Hi & _). eauto.
  - destruct (waiter s Hs t1 th1 f H1' Hf) as (i & Hi & Hw).
    destruct (cstep_fetch_kept _ _ _ _ _ _ f i Hc Hi) as [Hi'|[Ex [e He]]]; [|by exists (mkFetch true e)].
    exists i. split; [done|]. intros Hr. destruct (Hw Hr) as [Ew Ek]. split; [done|].
    destruct (cstep_table _ _ _ _ _ _ Hc) as [[-> _]|[(Hn & -> & _)|(-> & _ & g & Eg)]]; [done| |].
    + rw lookup_insert_ne //. congruence.
    + rw lookup_delete_ne //. intros E. destruct (fetcher s Hs t th g Ht) as (Hg' & i' & Hi2 & Hr'); [by rw Eg|].
      rw E Ek in Hg'. injection Hg' as ->. rw Eg /= in Hr'. congruence.
Qed.

Lemma control_cstep : control (mkConc s' (<[t := th']> (threads s))).
Proof.
  split; simpl; [exact lock_held_step|exact lock_own_step|exact table_owned_step|exact fetcher_step
    |exact one_fetcher_step|exact waiter_step].
Qed.
End preservation.
End control.

(** ** The data *)

Lemma tmp_name_inj p q : tmp_name p = tmp_name q → p = q.
Proof.
  rw /tmp_name. elim: p q => [|x p IH] [|y q] // H.
  - apply (f_equal String.length) in H. rw !str_length_app /= in H. lia.
  - apply (f_equal String.length) in H. rw !str_length_app /= in H. lia.
  - injection H as <- H. f_equal. by apply IH.
Qed.

(** A disk that injects no fault. *)
Definition reliable (d : Disk) : Prop := Forall (λ f, f = NoFault) (faults d).

Lemma reliable_next d : reliable d → next_fault d = NoFault.
Proof. rw /reliable /next_fault. by destruct (faults d) => // /Forall_cons [-> _]. Qed.

Lemma reliable_pop d m : reliable d → reliable (mkDisk m (faults (pop_fault d))).
Proof. rw /reliable /=. destruct (faults d) => //= /Forall_cons [_ ?] //. Qed.

Section data.
Context {W : Type} {S : Store W} (obj : W → string → option bytes) {L : StoreLaws S obj}.
Variables (c : chunkCache) (w0 : world W).
Implicit Types s : shared W.
Implicit Types w : world W.

(** The chunk in the store when the calls were made. *)
Definition chunk (k : string) : option bytes := obj (backing w0) k.

(** A call asks for a range inside the chunk, as an extent of a file does. *)
Definition in_range (r : call) : Prop :=
  chunk_name (chunkID r) = true ∧ 0 <= off r ∧ 0 < cnt r ∧ off r + cnt r < 2 ^ 63 ∧
  ∃ data, chunk (chunkID r) = Some data ∧ off r + cnt r <= len data.

Record world_ok w : Prop := {
  objects_kept k : chunk_name k = true → obj (backing w) k = chunk k;
  cache_coherent k : chunk_name k = true → coherent_at obj c w k;
  still_reliable : reliable (local w0) → reliable (local w);
}.

(** The whole chunk is in the cache. *)
Definition on_disk w (k : string) : Prop := cached c (local w) k = chunk k.

Definition tmp_of (k : string) : string := tmp_name (Join (dir c) k).

(** The error that a fetch published. *)
Definition accounted (fs : list inflightFetch) (e : CallErr) : Prop := ∃ f, fs !! f = Some (mkFetch true (Some e)).

Definition thread_ok (s : shared W) (th : thread) : Prop :=
  let k := chunkID (req th) in
  match at_ th with
  | Waiting f | Woken f => fetches s !! f = Some (mkFetch true None) → on_disk (sw s) k
  | Getting _ n => ∀ data, chunk k = Some data → n = len data
  | WritingTmp _ b | Finishing (Ok b) => chunk k = Some b
  | Renaming _ b => chunk k = Some b ∧ files (local (sw s)) !! tmp_of k = Some b
  | Publishing _ (Ok b) => chunk k = Some b ∧ on_disk (sw s) k
  | Relock f (Ok b) | Clearing f (Ok b) => chunk k = Some b ∧ on_disk (sw s) k
  | Relock f (Err e) | Clearing f (Err e) => fetches s !! f = Some (mkFetch true (Some e))
  | Finishing (Err e) => accounted (fetches s) e
  | Returned (Got b) => ∃ data, chunk k = Some data ∧ b = slice data (off (req th)) (cnt (req th))
  | Returned (Failed e) =>
      accounted (fetches s) e ∨ (e = ErrContext ∧ cancelled th = true) ∨
      ∃ o, e = OfCache (ErrCache o) ∧ ¬ reliable (local w0)
  | Returned Panicked => False
  | _ => True
  end.

(** What a step of a goroutine that reads chunk [k] does to the disk; [own]
    says that it is the one that fetches [k]. *)
Definition disk_frame (k : string) (own : bool) w w' : Prop :=
  (∀ k1, chunk_name k1 = true → on_disk w k1 → on_disk w' k1) ∧
  (∀ k1, k1 ≠ k ∨ own = false → files (local w') !! tmp_of k1 = files (local w) !! tmp_of k1).

(** A step that changes no file. *)
Record same_files w w' : Prop := {
  sf_files : files (local w') = files (local w);
  sf_objects k : chunk_name k = true → obj (backing w') k = obj (backing w) k;
  sf_reliable : reliable (local w) → reliable (local w');
}.

Lemma same_files_pop w : same_files w (mkWorld (backing w) (pop_fault (local w))).
Proof. split; [done..|]. apply reliable_pop. Qed.
#[local] Hint Resolve same_files_pop : core.

Lemma same_files_ok k w w' : same_files w w' → world_ok w → world_ok w' ∧ disk_frame k false w w'.
Proof.
  intros [Ef Eo Er] [Ho Hc Hr]. split; [|by rw /disk_frame /on_disk /cached Ef].
  split; [intros; by rw Eo // Ho| |auto].
  intros k1 Hk. rw /coherent_at /cached Ef Eo //. by apply Hc.
Qed.

Lemma read_cases r w : in_range r → world_ok w →
  match on_local (readFileSlice (Join (dir c) (chunkID r)) (off r) (cnt r)) w with
  | Ret b w' => same_files w w' ∧ ∃ data, chunk (chunkID r) = Some data ∧ b = slice data (off r) (cnt r)
  | Fail e w' => same_files w w' ∧ (on_disk w (chunkID r) → ∃ o, e = ErrCache o ∧ ¬ reliable (local w))
  | Crash => False
  end.
Proof.
  intros (Hk & Ho & Hn & Hm & data & Hd & Hl) [Hobj Hc _].
  assert (data ≠ []) as Hne by (intros ->; rw /len /= in Hl; lia).
  rw /on_local /readFileSlice /os_ReadAt /os_ReadFile.
  assert (∀ f, files (local w) !! Join (dir c) (chunkID r) = Some f → f `prefix_of` data) as Hp.
  { intros f Hf. apply (Hc _ Hk f data); [done|by rw Hobj|done]. }
  destruct (next_fault (local w)) eqn:En; simpl.
  2,3: split; [done|]; intros _; exists ErrIO; split; [done|];
    intros Hrel; by rw reliable_next in En.
  destruct (files (local w) !! _) as [f|] eqn:Hf; simpl.
  2:{ split; [done|]. rw /on_disk /cached Hf Hd. by intros. }
  destruct (Z.ltb_spec (cnt r) 0); [lia|]. destruct (Z.ltb_spec (off r) 0); [lia|].
  destruct (Z.leb_spec (off r + cnt r) (len f)).
  - split; [done|]. exists data. split; [done|]. apply prefix_slice; [by apply Hp|lia..].
  - destruct (Z.eqb_spec (cnt r) 0); [lia|]. split; [done|].
    rw /on_disk /cached Hf Hd. intros [= ->]. lia.
Qed.

Lemma size_cases k w : chunk_name k = true → world_ok w →
  match on_backing (Size k) w with
  | Ret n w' => same_files w w' ∧ ∀ data, chunk k = Some data → n = len data
  | Fail _ w' => same_files w w'
  | Crash => False
  end.
Proof.
  intros Hk [Ho _ _]. rw /on_backing. pose proof (Size_law (obj:=obj) k (backing w) Hk) as H.
  destruct (Size k (backing w)) as [n b|e b|]; [|by split|done].
  destruct H as [H1 (data & Hd & ->)]. rw Ho // in Hd. split; [by split|]. intros data' Hd'. congruence.
Qed.

Lemma get_cases k n w : chunk_name k = true → world_ok w →
  (∃ data, chunk k = Some data ∧ 0 < len data ∧ n = len data) →
  match on_backing (GetRange k 0 n) w with
  | Ret b w' => same_files w w' ∧ chunk k = Some b
  | Fail _ w' => same_files w w'
  | Crash => False
  end.
Proof.
  intros Hk [Ho _ _] (data & Hd & Hpos & ->). rw /on_backing.
  pose proof (GetRange_law (obj:=obj) k 0 (len data) (backing w) Hk ltac:(lia) ltac:(lia)) as H.
  destruct (GetRange k 0 (len data) (backing w)) as [b v|e v|]; [|by split|done].
  destruct H as [H1 (data' & Hd' & Hb)]. split; [by split|]. rw Ho // Hd in Hd'. injection Hd' as <-.
  rw Hb; [|lia..]. by rw slice_full.
Qed.

(** A change of the temporary file of [k] only. *)
Lemma tmp_change k w d' : chunk_name k = true → world_ok w →
  (∀ p, p ≠ tmp_of k → files d' !! p = files (local w) !! p) → (reliable (local w) → reliable d') →
  world_ok (mkWorld (backing w) d') ∧ disk_frame k true w (mkWorld (backing w) d').
Proof.
  intros Hk [Ho Hc Hr] Hf Hd.
  assert (∀ k1, chunk_name k1 = true → cached c d' k1 = cached c (local w) k1) as He.
  { intros k1 H1. rw /cached Hf //. by apply Join_ne_tmp. }
  split; [split; simpl; auto|].
  - intros k1 H1. rw /coherent_at /= He //. by apply Hc.
  - split; [intros k1 H1; rw /on_disk /= He //|].
    intros k1 [Hne|?]; [|done]. rw /= Hf // /tmp_of. intros E. apply Hne.
    by apply tmp_name_inj, LocalStore.Join_inj in E.
Qed.

Lemma write_cases k data w : chunk_name k = true → world_ok w →
  match on_local (os_WriteFile (tmp_of k) data) w with
  | Ret _ w' => world_ok w' ∧ disk_frame k true w w' ∧ files (local w') !! tmp_of k = Some data
  | Fail _ w' => world_ok w' ∧ disk_frame k true w w'
  | Crash => False
  end.
Proof.
  intros Hk Hw. rw /on_local /os_WriteFile.
  destruct (next_fault (local w)); [rw (assoc and); split; [|apply lookup_insert_eq]| |];
    (apply tmp_change; [done..|intros p Hp; by rw /= ?lookup_insert_ne|by apply reliable_pop]).
Qed.

Lemma rename_cases k data w : chunk_name k = true → world_ok w → chunk k = Some data →
  files (local w) !! tmp_of k = Some data →
  match os_Rename (tmp_of k) (Join (dir c) k) (local w) with
  | Ret _ d => let w' := mkWorld (backing w) d in world_ok w' ∧ disk_frame k true w w' ∧ on_disk w' k
  | Fail _ d => same_files w (mkWorld (backing w) d)
  | Crash => False
  end.
Proof.
  intros Hk [Ho Hc Hr] Hd Ht. rw /os_Rename. destruct (next_fault (local w)); [|done..].
  rw Ht /=. assert (∀ k1, chunk_name k1 = true →
    <[Join (dir c) k := data]> (delete (tmp_of k) (files (local w))) !! Join (dir c) k1 =
    if decide (k1 = k) then Some data else files (local w) !! Join (dir c) k1) as He.
  { intros k1 H1. case_decide as E; [subst; apply lookup_insert_eq|].
    rw lookup_insert_ne; [|by move=> /LocalStore.Join_inj /(@eq_sym _ _ _)].
    rw lookup_delete_ne //. by apply not_eq_sym, Join_ne_tmp. }
  split; [|split].
  - split; simpl; [done| |by intros ?%Hr; apply reliable_pop].
    intros k1 H1 f dt. rw /cached /= He //. case_decide as E; [|by apply Hc]. subst.
    rw Ho // Hd. by intros [= <-] [= <-].
  - split; [intros k1 H1; rw /on_disk /cached /= He //; by case_decide as E; [subst|]|].
    intros k1 [Hne|?]; [|done]. simpl. rw lookup_insert_ne; [|by apply Join_ne_tmp].
    rw lookup_delete_ne //. by move=> /tmp_name_inj /LocalStore.Join_inj /(@eq_sym _ _ _).
  - rw /on_disk /cached /= He // decide_True //.
Qed.

Lemma remove_cases k w : chunk_name k = true → world_ok w →
  match on_local (os_Remove (tmp_of k)) w with
  | Ret _ w' | Fail _ w' => world_ok w' ∧ disk_frame k true w w'
  | Crash => False
  end.
Proof.
  intros Hk Hw. rw /on_local /os_Remove.
  destruct (next_fault (local w)); [destruct (files (pop_fault (local w)) !! tmp_of k)| |];
    (apply tmp_change; [done..|intros p Hp; by rw /= ?lookup_delete_ne|by apply reliable_pop]).
Qed.

(** ** One step *)

Definition owns (p : pc) : bool := match fetching (ctl_of p) with Some _ => true | None => false end.

(** What the goroutine that moves leaves: a sound world, the files of the
    others, and its own condition at the place it has come to. *)
Definition step_ok (r : call) (b own : bool) (s : shared W) (x : shared W * pc) : Prop :=
  world_ok (sw x.1) ∧ disk_frame (chunkID r) own (sw s) (sw x.1) ∧ thread_ok x.1 (mkThread r x.2 b).

Lemma disk_frame_own k own w w' : disk_frame k false w w' → disk_frame k own w w'.
Proof. intros [H1 H2]. split; [done|]. intros k1 _. apply H2. by right. Qed.

Lemma disk_frame_refl k own w : disk_frame k own w w.
Proof. done. Qed.

Lemma same_files_step r b own s w' p : same_files (sw s) w' → world_ok (sw s) →
  thread_ok (with_world s w') (mkThread r p b) → step_ok r b own s (with_world s w', p).
Proof.
  intros Hs Hw Ht. destruct (same_files_ok (chunkID r) _ _ Hs Hw). split; [done|]. split; [|done].
  by apply disk_frame_own.
Qed.

Lemma doing_ok {A} r b own s (m : outcome ChunkErr (world W) A) ret fail :
  match m with
  | Ret a w' => step_ok r b own s (with_world s w', ret a)
  | Fail e w' => step_ok r b own s (with_world s w', fail e)
  | Crash => False
  end → step_ok r b own s (doing s m ret fail).
Proof. by destruct m. Qed.

Lemma quiet_step r b own s s' p : world_ok (sw s) → sw s' = sw s →
  thread_ok s' (mkThread r p b) → step_ok r b own s (s', p).
Proof. intros Hw E Ht. rw /step_ok /= E. done. Qed.

(** The steps of the goroutine that fetches, up to the publication. *)
Lemma fetch_step t r b p s x heed : in_range r → world_ok (sw s) → thread_ok s (mkThread r p b) →
  unpublished (ctl_of p) = true → (∀ f y, p ≠ Publishing f y) →
  advance c heed b t r p s = Some x → step_ok r b true s x.
Proof.
  intros (Hk & Ho & Hn & Hm & data & Hd & Hl) Hw Ht Hu Hp.
  assert (0 < len data) as Hpos by lia.
  destruct p as [| | | | | |f|f n|f dt|f dt|f e|f y|f y|f y|y|y]; try done; destruct heed; simpl; try done.
  - destruct b => // -[= <-]. by apply quiet_step.
  - intros [= <-]. apply doing_ok. pose proof (size_cases (chunkID r) (sw s) Hk Hw) as H.
    destruct (on_backing _ _) as [n w'|e w'|]; [destruct H|..]; try done; by apply same_files_step.
  - destruct b => // -[= <-]. by apply quiet_step.
  - intros [= <-]. apply doing_ok.
    pose proof (get_cases (chunkID r) n (sw s) Hk Hw (ex_intro _ data (conj Hd (conj Hpos (Ht data Hd))))) as H.
    destruct (on_backing _ _) as [n' w'|e w'|]; [destruct H|..]; try done; by apply same_files_step.
  - intros [= <-]. apply doing_ok. pose proof (write_cases (chunkID r) dt (sw s) Hk Hw) as H.
    rw /tmp_of in H. destruct (on_local _ _) as [n' w'|e w'|]; [|by destruct H|done].
    destruct H as (H1 & H2 & H3). split; [done|]. split; [done|]. by split.
  - intros [= <-]. destruct Ht as [Hc Hf]. pose proof (rename_cases (chunkID r) dt (sw s) Hk Hw Hc Hf) as H.
    rw /tmp_of in H. destruct (os_Rename _ _ _) as [n' w'|e w'|]; [|by apply same_files_step|done].
    destruct H as (H1 & H2 & H3). split; [done|]. split; [done|]. by split.
  - intros [= <-]. apply doing_ok. pose proof (remove_cases (chunkID r) (sw s) Hk Hw) as H.
    rw /tmp_of in H. destruct (on_local _ _) as [n' w'|e' w'|]; [by destruct H..|done].
  - by destruct (Hp f y).
Qed.

(** A read whose result the goroutine returns. *)
Lemma read_step r b own s fail : in_range r → world_ok (sw s) →
  (∀ e w', same_files (sw s) w' → (on_disk (sw s) (chunkID r) → ∃ o, e = ErrCache o ∧ ¬ reliable (local (sw s))) →
    thread_ok (with_world s w') (mkThread r (fail e) b)) →
  step_ok r b own s (doing s (on_local (readFileSlice (Join (dir c) (chunkID r)) (off r) (cnt r)) (sw s))
    (λ x, Returned (Got x)) fail).
Proof.
  intros Hr Hw Hf. apply doing_ok. pose proof (read_cases r (sw s) Hr Hw) as HR.
  destruct (on_local _ _) as [a w'|e w'|]; [| |done]; destruct HR as [Hs He]; apply same_files_step; auto.
Qed.

(** The other steps, given what the lock and the table say about the fetch
    that the goroutine joins, waits for or publishes. *)
Lemma other_step t r b p s x heed : in_range r → world_ok (sw s) → thread_ok s (mkThread r p b) →
  (∀ f y, p = Publishing f y → is_Some (fetches s !! f)) →
  (∀ f, p = Woken f → ∃ e, fetches s !! f = Some (mkFetch true e)) →
  (∀ f, inflight s !! chunkID r = Some f → fetches s !! f = Some (mkFetch true None) → on_disk (sw s) (chunkID r)) →
  unpublished (ctl_of p) = false ∨ (∃ f y, p = Publishing f y) →
  advance c heed b t r p s = Some x → step_ok r b (owns p) s x.
Proof.
  intros Hr Hw Ht Hi Ha Hj Hu.
  destruct p as [| | | |f|f|f|f n|f dt|f dt|f e|f y|f y|f y|y|y];
    try (by destruct Hu as [?|(? & ? & ?)]); destruct heed; simpl; try done.
  - intros [= <-]. by apply read_step.
  - destruct (mu s) => // -[= <-]. by apply quiet_step.
  - intros [= <-]. pose proof (read_cases r (sw s) Hr Hw) as HR.
    destruct (on_local _ _) as [a w'|e w'|]; [| |done]; destruct HR as [Hs He]; [|by apply same_files_step].
    by apply (same_files_step r b false (with_mu s None)).
  - destruct (inflight s !! chunkID r) as [f|] eqn:Ef; intros [= <-]; apply quiet_step; try done.
    exact (Hj f eq_refl).
  - destruct b => // -[= <-]. apply quiet_step; [done..|]. rw /thread_ok /=. by auto.
  - destruct (fetches s !! f) as [[[] e]|] eqn:Ef => // -[= <-]. apply quiet_step; [done..|]. rw /thread_ok /= Ef in Ht |- *. done.
  - destruct (Ha f eq_refl) as [e Ef]. rw /thread_ok /= Ef in Ht. rw Ef. destruct e as [e|]; intros [= <-].
    + apply quiet_step; [done..|]. rw /thread_ok /=. left. by exists f.
    + apply read_step; [done..|]. intros e w' _ He. rw /thread_ok /=. right; right.
      destruct (He (Ht eq_refl)) as (o & -> & Hn). exists o. split; [done|]. intros Hrel. by apply Hn, Hw.
  - intros [= <-]. apply quiet_step; [done..|]. rw /thread_ok /=. destruct y as [d|e]; [done|].
    destruct (Hi f _ eq_refl) as [i Hfi]. apply list_lookup_insert_eq. by eapply lookup_lt_Some.
  - destruct (mu s) => // -[= <-]. by apply quiet_step.
  - intros [= <-]. apply quiet_step; [done..|]. rw /thread_ok /= in Ht |- *. destruct y as [d|e]; [by destruct Ht|]. by exists f.
  - by destruct y.
  - destruct y as [d|e]; intros [= <-]; [|apply quiet_step; [done..|by left]].
    destruct Hr as (Hk & Ho & Hn & Hm & data & Hd & Hl). rw /thread_ok /= Hd in Ht. injection Ht as <-.
    rw go_slice_ret; [|lia..]. apply quiet_step; [done..|]. rw /thread_ok /=. eauto.
Qed.

(** ** The invariant *)

Record inv (s : conc W) : Prop := {
  inv_control : control s;
  inv_world : world_ok (sw (sh s));
  inv_range t th : threads s !! t = Some th → in_range (req th);
  inv_thread t th : threads s !! t = Some th → thread_ok (sh s) th;
}.

(** Two goroutines that fetch do not fetch the same chunk. *)
Lemma fetchers_apart (s : conc W) t t1 th th1 f f1 : control s →
  threads s !! t = Some th → threads s !! t1 = Some th1 →
  fetching (ctl_of (at_ th)) = Some f → fetching (ctl_of (at_ th1)) = Some f1 →
  chunkID (req th) = chunkID (req th1) → t = t1.
Proof.
  intros Hc H H1 Hf Hf1 Ek. destruct (fetcher s Hc t th f H Hf) as [E _].
  destruct (fetcher s Hc t1 th1 f1 H1 Hf1) as [E1 _].
  apply (one_fetcher s Hc t t1 th th1 f); [done..|]. congruence.
Qed.

Lemma published_pc p f : ctl_of p = Published f → ∃ y, p = Relock f y.
Proof. destruct p => //= -[= ->]. eauto. Qed.

Section stability.
Context (s : conc W) (s' : shared W) (t : nat) (th : thread) (p' : pc).
Hypothesis Hs : inv s.
Hypothesis Ht : threads s !! t = Some th.
Hypothesis Hc : cstep t (chunkID (req th)) (sh s) (ctl_of (at_ th)) s' (ctl_of p').
Hypothesis Hf : disk_frame (chunkID (req th)) (owns (at_ th)) (sw (sh s)) (sw s').
Hypothesis Hown : thread_ok s' (mkThread (req th) p' (cancelled th)).

Lemma published_kept f e : fetches (sh s) !! f = Some (mkFetch true e) → fetches s' !! f = Some (mkFetch true e).
Proof.
  intros Hi. destruct (cstep_fetch_kept _ _ _ _ _ _ f _ Hc Hi) as [?|[Ex _]]; [done|].
  destruct (fetcher s (inv_control s Hs) t th f Ht) as (_ & i & Hi' & Hr); [by rw Ex|].
  rw Ex /= in Hr. rw Hi in Hi'. injection Hi' as <-. done.
Qed.

Lemma accounted_kept e : accounted (fetches (sh s)) e → accounted (fetches s') e.
Proof. intros [f Hi]. exists f. by apply published_kept. Qed.

(** Who waits for the fetch that is published finds the chunk in the cache. *)
Lemma waiter_kept t1 th1 f : threads s !! t1 = Some th1 → awaits (ctl_of (at_ th1)) = Some f →
  (fetches (sh s) !! f = Some (mkFetch true None) → on_disk (sw (sh s)) (chunkID (req th1))) →
  fetches s' !! f = Some (mkFetch true None) → on_disk (sw s') (chunkID (req th1)).
Proof.
  intros H1 Ha Hold Hnew. pose proof (inv_control s Hs) as HC.
  destruct (waiter s HC t1 th1 f H1 Ha) as (i & Hi & Hw).
  destruct (cstep_fetch_kept _ _ _ _ _ _ f i Hc Hi) as [Hi'|[Ex _]].
  { rw Hnew in Hi'. injection Hi' as <-. apply Hf; [|by apply Hold]. by apply (inv_range s Hs t1). }
  destruct (fetcher s HC t th f Ht) as (Hk & i' & Hi' & Hr); [by rw Ex|].
  rw Hi in Hi'. injection Hi' as <-. rw Ex /= in Hr. destruct (Hw Hr) as [_ Hk1].
  destruct (table_owned s HC _ f Hk1) as (t2 & th2 & H2 & E2 & F2).
  assert (t2 = t) as -> by by apply (one_fetcher s HC t2 t th2 th f); [..|rw Ex].
  rw Ht in H2. injection H2 as <-. rw - E2.
  destruct (cstep_fetches _ _ _ _ _ _ Hc) as [[E _]|[[E _]|(g & e & _ & Eg & Ep)]].
  - rw - E Hnew in Hi. by injection Hi as <-.
  - rw E in Hnew. rw lookup_app_l in Hnew; [|by eapply lookup_lt_Some]. rw Hi in Hnew. by injection Hnew as ->.
  - rw Ex in Eg. injection Eg as <-. destruct (published_pc _ _ Ep) as [y Ey].
    pose proof Hown as Ho. rw Ey in Ho. destruct y as [d|e']; [by destruct Ho|]. rw /thread_ok /= Hnew in Ho. done.
Qed.

Lemma thread_ok_stable t1 th1 : t1 ≠ t → threads s !! t1 = Some th1 → thread_ok s' th1.
Proof.
  intros Hne H1. pose proof (inv_thread s Hs t1 th1 H1) as Hok.
  pose proof (proj1 (inv_range s Hs t1 th1 H1)) as Hk. destruct Hf as [Hd Htmp].
  pose proof (waiter_kept t1 th1) as HW.
  rw /thread_ok in Hok |- *.
  destruct (at_ th1) as [| | | |f|f|f|f n|f dt|f dt|f e|f [y|e]|f [y|e]|f [y|e]|[y|e]|[b|e|]] eqn:Ea;
    try done; try (destruct Hok; split; by auto); try (by apply published_kept); try (by apply accounted_kept).
  - by apply HW.
  - by apply HW.
  - destruct Hok as [Hc1 Hf1]. split; [done|]. rw - Hf1. apply Htmp. rw /owns.
    destruct (fetching (ctl_of (at_ th))) as [g|] eqn:Eg; [left|by right]. intros E. apply Hne.
    apply (fetchers_apart s t1 t th1 th f g (inv_control s Hs)); try done. by rw Ea.
  - destruct Hok as [Ha|Ho]; [left; by apply accounted_kept|by right].
Qed.
End stability.

(** ** Preservation *)

(** A fetch of the table that is published without an error has left the chunk
    in the cache. *)
Lemma published_on_disk (s : conc W) k f : inv s → inflight (sh s) !! k = Some f →
  fetches (sh s) !! f = Some (mkFetch true None) → on_disk (sw (sh s)) k.
Proof.
  intros [HC _ _ HT] Hk Hf. destruct (table_owned s HC k f Hk) as (t & th & H & <- & F).
  destruct (fetcher s HC t th f H F) as (_ & i & Hi & Hr). rw Hf in Hi. injection Hi as <-.
  pose proof (HT t th H) as Hok. rw /thread_ok in Hok. clear H.
  destruct (at_ th) as [| | | | | | | | | | | |g [d|e]|g [d|e]|y|y]; try done; try (by destruct Hok).
  all: simpl in F; injection F as ->; congruence.
Qed.

Lemma mover_ok (s : conc W) t th heed x : inv s → threads s !! t = Some th →
  advance c heed (cancelled th) t (req th) (at_ th) (sh s) = Some x →
  step_ok (req th) (cancelled th) (owns (at_ th)) (sh s) x.
Proof.
  intros Hs Ht Ha. pose proof Hs as [HC HW HR HT]. pose proof (HR t th Ht) as Hr.
  assert (thread_ok (sh s) (mkThread (req th) (at_ th) (cancelled th))) as Hok.
  { pose proof (HT t th Ht). by destruct th. }
  assert ((unpublished (ctl_of (at_ th)) = true ∧ owns (at_ th) = true ∧ ∀ f y, at_ th ≠ Publishing f y) ∨
    (unpublished (ctl_of (at_ th)) = false ∨ ∃ f y, at_ th = Publishing f y)) as [(Hu & -> & Hn)|Hu].
  { destruct (at_ th); simpl; eauto 6; by left. }
  { by eapply fetch_step. }
  eapply other_step; try done; clear Ha Hok Hu.
  - intros f y E. destruct (fetcher s HC t th f Ht) as (_ & i & Hi & _); [by rw E|]. by eauto.
  - intros f E. destruct (waiter s HC t th f Ht) as ([[] e] & Hi & Hw); [by rw E|by eauto|].
    destruct Hw as [Hw _]; [done|]. by rw E in Hw.
  - intros f. by apply published_on_disk.
Qed.

Lemma inv_step (s s' : conc W) : inv s → step c s s' → inv s'.
Proof.
  intros Hs Hst. destruct Hst as [t heed th s s' p Ht Ha|t th s Ht Hn].
  - destruct (mover_ok s t th heed _ Hs Ht Ha) as (Hw & Hf & Hok). simpl in *.
    assert (cstep t (chunkID (req th)) (sh s) (ctl_of (at_ th)) s' (ctl_of p)) as Hc.
    { eapply advance_cstep; [done|]. by intros ->. }
    split; simpl; [|done|..].
    + by apply control_cstep; [apply Hs|..].
    + intros t1 th1 H1. destruct (moved H1) as [[-> ->]|[Hne H1']]; [|by eapply inv_range]. simpl.
      by eapply inv_range.
    + intros t1 th1 H1. destruct (moved H1) as [[-> ->]|[Hne H1']]; [done|].
      by apply (thread_ok_stable s s' t th p Hs Ht Hc Hf Hok t1).
  - assert (inv (mkConc (with_world (sh s) (sw (sh s))) (<[t := mkThread (req th) (at_ th) true]> (threads s)))) as HI;
      [|by rw with_world_id in HI].
    split; simpl; [|apply Hs|..].
    + apply control_cstep; [apply Hs|done|apply c_stay].
    + intros t1 th1 H1. destruct (moved H1) as [[-> ->]|[Hne H1']];
        [exact (inv_range s Hs t th Ht)|exact (inv_range s Hs t1 th1 H1')].
    + intros t1 th1 H1. rw with_world_id. destruct (moved H1) as [[-> ->]|[Hne H1']]; [|by eapply inv_thread].
      pose proof (inv_thread s Hs t th Ht) as Hok. revert Hok. rw /thread_ok /=.
      destruct (at_ th) as [| | | | | | | | | | | | | | |[]]; try done. intros [?|[[? _]|?]]; auto.
Qed.

Lemma inv_entering rs : (∀ k, chunk_name k = true → coherent_at obj c w0 k) → Forall in_range rs →
  inv (entering w0 rs).
Proof.
  intros Hc Hr. assert (∀ t th, threads (entering w0 rs) !! t = Some th → at_ th = Start ∧ in_range (req th)) as Hth.
  { intros t th H. apply list_lookup_fmap_Some in H as (r & -> & H). split; [done|]. by eapply Forall_lookup. }
  split; [split|..]; simpl; try done.
  - intros t th H. by rw (proj1 (Hth t th H)).
  - intros t th f H. by rw (proj1 (Hth t th H)).
  - intros t t' th th' f H. by rw (proj1 (Hth t th H)).
  - intros t th f H. by rw (proj1 (Hth t th H)).
  - intros t th H. by apply (Hth t).
  - intros t th H. rw /thread_ok. by rw (proj1 (Hth t th H)).
Qed.

Lemma inv_reachable rs (s : conc W) : (∀ k, chunk_name k = true → coherent_at obj c w0 k) → Forall in_range rs →
  rtc (step c) (entering w0 rs) s → inv s.
Proof.
  intros Hc Hr Hst. assert (inv (entering w0 rs)) as H0 by by apply inv_entering.
  clear Hc Hr. induction Hst as [|s1 s2 s3 H12 _ IH]; [done|]. by eapply IH, inv_step.
Qed.

(** ** Progress *)

Definition returned (p : pc) : bool := match p with Returned _ => true | _ => false end.

(** A goroutine that does not wait for the lock or for a fetch can move. *)
Lemma can_move t (r : call) b p s :
  match p with
  | WantLock | Relock _ _ => mu s = None
  | Waiting f => ∃ e, fetches s !! f = Some (mkFetch true e)
  | Returned _ => False
  | _ => True
  end → is_Some (advance c false b t r p s).
Proof.
  destruct p as [| | | |f|f| | | | | | | | |[]|]; simpl; try done.
  - by intros ->.
  - by destruct (inflight s !! chunkID r).
  - by intros [e ->].
  - by destruct (fetches s !! f) as [[? []]|].
  - by intros ->.
Qed.

(** While a call has not returned, some goroutine can move without a context
    being cancelled: the holder of the lock, or one that fetches, or any. *)
Lemma progress (s : conc W) t th : inv s → threads s !! t = Some th → returned (at_ th) = false →
  ∃ t' th', threads s !! t' = Some th' ∧
    is_Some (advance c false (cancelled th') t' (req th') (at_ th') (sh s)).
Proof.
  intros [HC _ _ _] Ht Hr. destruct (mu (sh s)) as [m|] eqn:Em.
  { destruct (lock_held s HC m Em) as (th' & Ht' & Hh). exists m, th'. split; [done|]. apply can_move.
    by destruct (at_ th'). }
  assert ((∃ f, at_ th = Waiting f) ∨ is_Some (advance c false (cancelled th) t (req th) (at_ th) (sh s))) as [[f Ea]|Hm].
  { destruct (at_ th) as [| | | |f| | | | | | | | | | |] eqn:Ea; [..|done]; try (right; by apply can_move). eauto. }
  2:{ eauto. }
  destruct (waiter s HC t th f Ht) as ([[] e] & Hi & Hk); [by rw Ea| |].
  - exists t, th. split; [done|]. apply can_move. rw Ea. eauto.
  - destruct (table_owned s HC _ f (proj2 (Hk eq_refl))) as (t' & th' & Ht' & _ & Hf).
    destruct (fetcher s HC t' th' f Ht' Hf) as (_ & i & Hi' & Hu). rw Hi in Hi'. injection Hi' as <-.
    exists t', th'. split; [done|]. apply can_move. by destruct (at_ th').
Qed.
End data.

(** ** Termination *)

(** How many steps a goroutine has before it at most. *)
Definition rank (p : pc) : nat :=
  match p with
  | Start => 13 | WantLock => 12 | Recheck => 11 | Table => 10
  | Sizing _ => 9 | Getting _ _ => 8 | WritingTmp _ _ => 7 | Renaming _ _ => 6 | Cleaning _ _ => 5
  | Publishing _ _ => 4 | Relock _ _ => 3 | Clearing _ _ => 2 | Finishing _ => 1
  | Waiting _ => 2 | Woken _ => 1 | Returned _ => 0
  end%nat.

Definition thread_rank (th : thread) : nat := (rank (at_ th) + if cancelled th then 0 else 1)%nat.
Definition total_rank {W} (s : conc W) : nat := sum_list_with thread_rank (threads s).

Lemma sum_insert {A} (f : A → nat) (l : list A) i x y : l !! i = Some x →
  (sum_list_with f (<[i := y]> l) + f x = sum_list_with f l + f y)%nat.
Proof.
  elim: l i => [//|a l IH] [|i] /=; [by intros [= ->]; lia|]. intros Hi. pose proof (IH i Hi). lia.
Qed.

Section termination.
Context {W : Type} {S : Store W}.
Variable c : chunkCache.

Lemma advance_rank heed dn t r p (s s' : shared W) p' :
  advance c heed dn t r p s = Some (s', p') → (rank p' < rank p)%nat.
Proof.
  rw /advance /doing => H. destruct heed, p => //=; repeat case_match; simplify_eq => //=; lia.
Qed.

Lemma step_rank (s s' : conc W) : step c s s' → (total_rank s' < total_rank s)%nat.
Proof.
  rw /total_rank. destruct 1 as [t heed th s s' p Ht Ha|t th s Ht Hn] => /=.
  - pose proof (sum_insert thread_rank _ t th (mkThread (req th) p (cancelled th)) Ht) as E.
    apply advance_rank in Ha. rw /thread_rank /= in E. rw /thread_rank. lia.
  - pose proof (sum_insert thread_rank _ t th (mkThread (req th) (at_ th) true) Ht) as E.
    rw /thread_rank /= Hn in E. rw /thread_rank. lia.
Qed.

Lemma steps_rank n (s s' : conc W) : nsteps (step c) n s s' → (n + total_rank s' <= total_rank s)%nat.
Proof. induction 1 as [|n s1 s2 s3 H12 _ IH]; [lia|]. apply step_rank in H12. lia. Qed.

Lemma entering_rank (w : world W) rs : total_rank (entering w rs) = (14 * length rs)%nat.
Proof. rw /total_rank /=. elim: rs => [//|r rs IH] /=. rw IH /thread_rank /=. lia. Qed.
End termination.

(** ** The properties *)

Section claims.
Context {W : Type} {S : Store W} (obj : W → string → option bytes) {L : StoreLaws S obj}.
Variable c : chunkCache.

(** A run of a schedule: which goroutine moves, and whether it heeds its
    context. *)
Fixpoint run (l : list (nat * bool)) (s : conc W) : option (conc W) :=
  match l with
  | [] => Some s
  | (t, heed) :: l =>
      match threads s !! t with
      | Some th =>
          match advance c heed (cancelled th) t (req th) (at_ th) (sh s) with
          | Some (s', p) => run l (mkConc s' (<[t := mkThread (req th) p (cancelled th)]> (threads s)))
          | None => None
          end
      | None => None
      end
  end.

Lemma run_steps l s s' : run l s = Some s' → rtc (step c) s s'.
Proof.
  elim: l s => [|[t heed] l IH] s /=; [by intros [= ->]|].
  destruct (threads s !! t) as [th|] eqn:Ht => //. destruct (advance _ _ _ _ _ _ _) as [[s1 p]|] eqn:Ha => // /IH.
  apply rtc_l. by eapply step_run.
Qed.

Lemma requests_kept (s s' : conc W) : rtc (step c) s s' → req <$> threads s' = req <$> threads s.
Proof.
  induction 1 as [|s1 s2 s3 H12 _ IH]; [done|]. rw IH. destruct H12 as [t heed th s s' p Ht _|t th s Ht _];
    simpl; rw list_fmap_insert /= list_insert_id // list_lookup_fmap Ht //.
Qed.

(** C15: However the calls of [readRange] interleave, at most one goroutine
    fetches a chunk at a time; a call that returns data returns the bytes of
    the chunk that it asked for; one that fails reports the error that a
    fetch published, or that its own context was cancelled, or an error of the
    local disk that only a faulty disk gives; none panics; and the cache
    stays coherent with a store that is left as it was. *)
Theorem concurrent_reads w rs s :
  (∀ k, chunk_name k = true → coherent_at obj c w k) → Forall (in_range obj w) rs →
  rtc (step c) (entering w rs) s →
  (∀ t t' th th', threads s !! t = Some th → threads s !! t' = Some th' → owns (at_ th) = true →
     owns (at_ th') = true → chunkID (req th) = chunkID (req th') → t = t') ∧
  (∀ t r, rs !! t = Some r → ∃ th, threads s !! t = Some th ∧ req th = r ∧
     match at_ th with
     | Returned (Got b) => ∃ data, obj (backing w) (chunkID r) = Some data ∧ b = slice data (off r) (cnt r)
     | Returned (Failed e) =>
         accounted (fetches (sh s)) e ∨ (e = ErrContext ∧ cancelled th = true) ∨
         ∃ o, e = OfCache (ErrCache o) ∧ ¬ reliable (local w)
     | Returned Panicked => False
     | _ => True
     end) ∧
  (∀ k, chunk_name k = true → obj (backing (sw (sh s))) k = obj (backing w) k ∧ coherent_at obj c (sw (sh s)) k).
Proof.
  intros Hc Hr Hst. pose proof (inv_reachable obj c w rs s Hc Hr Hst) as [HC HW HR HT]. split_and!.
  - intros t t' th th' H H' Ho Ho'. rw /owns in Ho Ho'.
    destruct (fetching (ctl_of (at_ th))) eqn:E => //. destruct (fetching (ctl_of (at_ th'))) eqn:E' => //.
    by eapply fetchers_apart.
  - intros t r Hrt. assert ((req <$> threads s) !! t = Some r) as Ht.
    { rw (requests_kept _ _ Hst) /= - list_fmap_compose list_lookup_fmap Hrt //. }
    apply list_lookup_fmap_Some in Ht as (th & -> & Ht). exists th. split; [done|]. split; [done|].
    pose proof (HT t th Ht) as Hok. rw /thread_ok in Hok. by destruct (at_ th) as [| | | | | | | | | | | | | | |[]].
  - intros k Hk. split; [by apply HW|]. by apply HW.
Qed.

Lemma all_can_return w (s : conc W) : inv obj c w s →
  ∃ s', rtc (step c) s s' ∧ ∀ t th, threads s' !! t = Some th → returned (at_ th) = true.
Proof.
  remember (total_rank s) as m eqn:Em. revert s Em. induction (lt_wf m) as [m _ IH]. intros s -> HI.
  destruct (decide (Forall (λ th, returned (at_ th) = true) (threads s))) as [Hall|Hn].
  { exists s. split; [done|]. intros t th Ht. by eapply Forall_lookup in Hall. }
  apply not_Forall_Exists, Exists_exists in Hn as (th & Hin & Hn); [|apply _].
  apply list_elem_of_lookup in Hin as [t Ht]. destruct (progress obj c w s t th HI Ht) as (t' & th' & Ht' & [[s1 p] Ha]).
  { by apply not_true_is_false. }
  pose proof (step_run c t' false th' s s1 p Ht' Ha) as Hst.
  destruct (IH _ (step_rank c _ _ Hst) _ eq_refl (inv_step obj c w _ _ HI Hst)) as (s2 & H2 & Hall).
  exists s2. split; [|done]. by eapply rtc_l.
Qed.

(** C25: Calls of [readRange] always return: a run of [n] calls has at most
    [14 * n] steps, and while one of them has not returned some goroutine can
    move without any context being cancelled, so from every state that is
    reached all calls can return. *)
Theorem all_calls_return w rs s :
  (∀ k, chunk_name k = true → coherent_at obj c w k) → Forall (in_range obj w) rs →
  rtc (step c) (entering w rs) s →
  (∀ n s', nsteps (step c) n (entering w rs) s' → (n <= 14 * length rs)%nat) ∧
  (∀ t th, threads s !! t = Some th → returned (at_ th) = false →
     ∃ t' th', threads s !! t' = Some th' ∧
       is_Some (advance c false (cancelled th') t' (req th') (at_ th') (sh s))) ∧
  ∃ s', rtc (step c) s s' ∧ ∀ t th, threads s' !! t = Some th → returned (at_ th) = true.
Proof.
  intros Hc Hr Hst. pose proof (inv_reachable obj c w rs s Hc Hr Hst) as HI. split_and!.
  - intros n s' Hn. apply steps_rank in Hn. rw entering_rank in Hn. lia.
  - intros t th. by apply (progress obj c w).
  - by apply (all_can_return w s).
Qed.

Lemma drive_next n r p (s s' : shared W) p' : advance c false false 0 r p s = Some (s', p') →
  drive c (Datatypes.S n) r p s = drive c n r p' s'.
Proof. by rw /= => ->. Qed.

Lemma drive_stop n r x (s : shared W) : drive c n r (Returned x) s = (s, Returned x).
Proof. by destruct n. Qed.

(** What the caller sees of a goroutine that was alone. *)
Definition outcome_of (m : outcome ChunkErr (world W) bytes) (x : shared W * pc) : Prop :=
  match m with
  | Ret b w' => x.2 = Returned (Got b) ∧ sw x.1 = w' ∧ mu x.1 = None ∧ inflight x.1 = ∅
  | Fail e w' => x.2 = Returned (Failed (OfCache e)) ∧ sw x.1 = w' ∧ mu x.1 = None ∧ inflight x.1 = ∅
  | Crash => x.2 = Returned Panicked
  end.

(** From the publication on. *)
Lemma drive_publish n r f w fs (y : res ChunkErr bytes) :
  outcome_of (match y with Ok data => go_slice data (off r) (cnt r) w | Err e => Fail e w end)
    (drive c (4 + n) r (Publishing f (match y with Ok data => Ok data | Err e => Err (OfCache e) end))
       (mkShared w None (<[chunkID r := f]> ∅) fs)).
Proof.
  cbn [Nat.add]. do 3 (erewrite drive_next; [|done]). rw /= delete_insert_id //. destruct y as [data|e].
  - rw /go_slice. destruct (_ && _) => /=; by rw drive_stop.
  - by rw drive_stop.
Qed.

Lemma os_Remove_total path d : os_Remove path d ≠ Crash.
Proof. rw /os_Remove. destruct (next_fault d) => //. by destruct (files _ !! _). Qed.

(** The fetch of a goroutine that is alone. *)
Lemma drive_fetch n r f w fs :
  outcome_of (let! data, w := fetchFullChunk (chunkID r) w in
              let! _, w := on_local (writeAtomic (Join (dir c) (chunkID r)) data) w in
              go_slice data (off r) (cnt r) w)
    (drive c (9 + n) r (Sizing f) (mkShared w None (<[chunkID r := f]> ∅) fs)).
Proof.
  pose proof (λ n w, drive_publish n r f w fs) as HP. cbn [Nat.add] in *. rw /fetchFullChunk.
  destruct (on_backing (Size (chunkID r)) w) as [sz w1|e w1|] eqn:H1; (erewrite drive_next; [|by rw /= /doing H1]);
    [|exact (HP _ w1 (Err e))|by rw drive_stop].
  cbn [obind]. destruct (on_backing (GetRange (chunkID r) 0 sz) w1) as [data w2|e w2|] eqn:H2;
    (erewrite drive_next; [|by rw /= /doing H2]); [|exact (HP _ w2 (Err e))|by rw drive_stop].
  cbn [obind]. rw /writeAtomic /on_local.
  set (path := Join (dir c) (chunkID r)).
  destruct (os_WriteFile (tmp_name path) data (local w2)) as [u d3|e d3|] eqn:H3;
    (erewrite drive_next; [|by rw /= /doing /on_local H3]); [|exact (HP _ _ (Err (ErrCache e)))|by rw drive_stop].
  cbn [obind]. destruct (os_Rename (tmp_name path) path d3) as [v d4|e d4|] eqn:H4;
    (erewrite drive_next; [|by rw /= H4]); [exact (HP _ _ (Ok data))| |by rw drive_stop].
  cbn [obind]. destruct (os_Remove (tmp_name path) d4) as [v d5|e' d5|] eqn:H5;
    [| |by apply os_Remove_total in H5]; (erewrite drive_next; [|by rw /= /doing /on_local H5]);
    exact (HP _ _ (Err (ErrCache e))).
Qed.

(** C30: A goroutine that is alone in [readRange] computes the sequential
    function: it returns within 13 steps, with the same result and the same
    world, and leaves the lock free and the table empty. *)
Theorem readRange_alone r w fs :
  let x := drive c 13 r Start (mkShared w None ∅ fs) in
  match readRange c (chunkID r) (off r) (cnt r) w with
  | Ret b w' => x.2 = Returned (Got b) ∧ sw x.1 = w' ∧ mu x.1 = None ∧ inflight x.1 = ∅
  | Fail e w' => x.2 = Returned (Failed (OfCache e)) ∧ sw x.1 = w' ∧ mu x.1 = None ∧ inflight x.1 = ∅
  | Crash => x.2 = Returned Panicked
  end.
Proof.
  intros x. change (outcome_of (readRange c (chunkID r) (off r) (cnt r) w) x). subst x.
  set (s0 := mkShared w None ∅ fs). rw /readRange.
  set (path := Join (dir c) (chunkID r)). set (rd := readFileSlice path (off r) (cnt r)).
  destruct (on_local rd w) as [b w1|e w1|] eqn:H1.
  - erewrite drive_next; [|by rw /= /doing H1]. by rw drive_stop.
  - erewrite drive_next; [|by rw /= /doing H1]. erewrite drive_next; [|done].
    destruct (on_local rd w1) as [b w2|e2 w2|] eqn:H2.
    + erewrite drive_next; [|by rw /= H2]. by rw drive_stop.
    + erewrite drive_next; [|by rw /= H2]. erewrite drive_next; [|by rw /= lookup_empty].
      apply (drive_fetch 0).
    + erewrite drive_next; [|by rw /= H2]. by rw drive_stop.
  - erewrite drive_next; [|by rw /= /doing H1]. by rw drive_stop.
Qed.
End claims.
