(* ===== verification/ChunkStore.v ===== *)
(** The chunk store (src/internal/chunks/chunk_store.go): an append-only log
    of chunks, the last one in memory, the others sealed in the backing store.
    Every method but [Read] runs under the mutex, and [Read] copies the buffer
    under it, so each operation is one step here. *)
From S2P Require Import Prelude Types OS Decimal Store Cache.
#[local] Open Scope Z_scope.

Record ChunkStore := mkCS {
  maxChunkSize : Z;
  cache : option chunkCache;
  activeID : string;
  activeBuf : bytes;
  activeDirty : bool;
  nextSeq : Z;
}.

Definition set_cache v cs :=
  mkCS (maxChunkSize cs) v (activeID cs) (activeBuf cs) (activeDirty cs) (nextSeq cs).
Definition set_activeID v cs :=
  mkCS (maxChunkSize cs) (cache cs) v (activeBuf cs) (activeDirty cs) (nextSeq cs).
Definition set_activeBuf v cs :=
  mkCS (maxChunkSize cs) (cache cs) (activeID cs) v (activeDirty cs) (nextSeq cs).
Definition set_activeDirty v cs :=
  mkCS (maxChunkSize cs) (cache cs) (activeID cs) (activeBuf cs) v (nextSeq cs).
Definition set_nextSeq v cs :=
  mkCS (maxChunkSize cs) (cache cs) (activeID cs) (activeBuf cs) (activeDirty cs) v.

(** The chunk store and the world it acts on. *)
Record cstate W := mkCState { cs : ChunkStore; wd : world W }.
Arguments mkCState {W}. Arguments cs {W}. Arguments wd {W}.

Definition upd {W} (f : ChunkStore → ChunkStore) (s : cstate W) : cstate W :=
  mkCState (f (cs s)) (wd s).

(** A call that leaves the chunk store's own fields alone. *)
Definition in_world {W A} (m : world W → outcome ChunkErr (world W) A) (s : cstate W)
    : outcome ChunkErr (cstate W) A :=
  match m (wd s) with
  | Ret a w => Ret a (mkCState (cs s) w)
  | Fail e w => Fail e (mkCState (cs s) w)
  | Crash => Crash
  end.

(** ** Operations *)

Definition chunkID (seq : Z) : string := format_chunk_id seq.

(** [cs.activeID = cs.chunkID(cs.nextSeq); cs.nextSeq++]. *)
Definition rotate (cs : ChunkStore) : ChunkStore :=
  set_nextSeq (nextSeq cs +! 1) (set_activeID (chunkID (nextSeq cs)) cs).

Definition NewChunkStore (maxChunkSize : Z) : ChunkStore :=
  rotate (mkCS maxChunkSize None "" [] false 0).

Section operations.
Context {W : Type} {S : Store W}.
Implicit Types s : cstate W.

(** The body of the loop over the listed ids, and the loop. *)
Definition seq_step (maxSeq : Z) (id : string) : Z :=
  match scan_chunk_id id with
  | Some seq => if maxSeq <? seq then seq else maxSeq
  | None => maxSeq
  end.

Definition max_seq (ids : list string) : Z := foldl seq_step (-1) ids.

Definition RecoverNextSeq s : outcome ChunkErr (cstate W) unit :=
  let! ids, s := in_world (on_backing List) s in
  let maxSeq := max_seq ids in
  if maxSeq <? 0 then Ret tt s
  else Ret tt (upd (fun cs => rotate (set_nextSeq (maxSeq +! 1) cs)) s).

Definition SetCacheDir (baseDir : string) s : outcome ChunkErr (cstate W) unit :=
  let! c, s := in_world (on_local (newChunkCache baseDir)) s in
  Ret tt (upd (set_cache (Some c)) s).

Definition ActiveID s : string := activeID (cs s).

Definition sealLocked s : outcome ChunkErr (cstate W) unit :=
  if len (activeBuf (cs s)) =? 0 then Ret tt (upd rotate s)
  else
    let sealID := activeID (cs s) in
    let sealData := activeBuf (cs s) in
    let! _, s := in_world (on_backing (Put sealID sealData)) s in
    let s := match cache (cs s) with
             | Some c => default s (out_state (in_world (on_local (put c sealID sealData)) s))
             | None => s
             end in
    Ret tt (upd (fun cs => set_activeDirty false (set_activeBuf [] (rotate cs))) s).

Definition Seal s : outcome ChunkErr (cstate W) unit := sealLocked s.

Definition Append (data : bytes) (fileOffset : Z) s : outcome ChunkErr (cstate W) Extent.t :=
  if maxChunkSize (cs s) <? len data then Fail ErrExceedsMax s
  else
    let! _, s :=
      (if maxChunkSize (cs s) <? len (activeBuf (cs s)) +! len data
       then sealLocked s else Ret tt s) in
    let chunkOffset := len (activeBuf (cs s)) in
    let s := upd (fun cs => set_activeDirty true (set_activeBuf (activeBuf cs ++ data) cs)) s in
    Ret (Extent.mk (activeID (cs s)) chunkOffset (len data) fileOffset) s.

Definition Read (chunkID : string) (chunkOffset length : Z) s
    : outcome ChunkErr (cstate W) bytes :=
  if decide (chunkID = activeID (cs s)) then
    if len (activeBuf (cs s)) <? chunkOffset +! length then Fail ErrOutOfBounds s
    else in_world (go_slice (activeBuf (cs s)) chunkOffset length) s
  else
    match cache (cs s) with
    | Some c => in_world (readRange c chunkID chunkOffset length) s
    | None => in_world (on_backing (GetRange chunkID chunkOffset length)) s
    end.

Definition FlushActive s : outcome ChunkErr (cstate W) unit :=
  if negb (activeDirty (cs s)) then Ret tt s
  else
    let! _, s := in_world (on_backing (Put (activeID (cs s)) (activeBuf (cs s)))) s in
    Ret tt (upd (set_activeDirty false) s).

Fixpoint DeleteChunks (ids : list string) s : outcome ChunkErr (cstate W) unit :=
  match ids with
  | [] => Ret tt s
  | id :: ids =>
      let! _, s := in_world (on_backing (Delete id)) s in DeleteChunks ids s
  end.

Definition PutSealed (id : string) (data : bytes) s : outcome ChunkErr (cstate W) unit :=
  in_world (on_backing (Put id data)) s.

Definition SealedSize (id : string) s : outcome ChunkErr (cstate W) Z :=
  if decide (id = activeID (cs s)) then Ret (len (activeBuf (cs s))) s
  else in_world (on_backing (Size id)) s.

Definition ListSealed s : outcome ChunkErr (cstate W) (list string) :=
  let activeID := activeID (cs s) in
  let! all, s := in_world (on_backing List) s in
  Ret (filter (fun id => id ≠ activeID) all) s.
End operations.

(** ** The log that the chunk store keeps *)

Section log.
Context {W : Type} {S : Store W} (obj : W → string → option bytes) {L : StoreLaws S obj}.
Implicit Types s : cstate W.

(** What a reader of the chunk store sees: the buffer for the active chunk,
    the stored object for every other. *)
Definition view s (id : string) : option bytes :=
  if decide (id = activeID (cs s)) then Some (activeBuf (cs s)) else obj (backing (wd s)) id.

(** The bytes [b] lie at offset [o] of the chunk [id]. *)
Definition holds (v : string → option bytes) (id : string) (o : Z) (b : bytes) : Prop :=
  chunk_name id = true ∧ 0 <= o ∧ b ≠ [] ∧
  ∃ data, v id = Some data ∧ o + len b <= len data ∧ slice data o (len b) = b.

(** The log only grows: what could be read can still be read. *)
Definition extends s s' : Prop :=
  ∀ id o b, holds (view s) id o b → holds (view s') id o b.

#[global] Instance extends_preorder : PreOrder extends.
Proof. split; [by move=> s id|]. move=> s1 s2 s3 H1 H2 id o b H. by apply H2, H1. Qed.

Lemma extends_view s s' :
  (∀ id, chunk_name id = true → view s' id = view s id) → extends s s'.
Proof. move=> H id o b [Hid ?]. rw /holds H //. Qed.

(** Ids of chunks to come: neither in the store nor in the cache. *)
Definition unused s (r : Z) : Prop :=
  obj (backing (wd s)) (chunkID r) = None ∧
  ∀ c, cache (cs s) = Some c → cached c (local (wd s)) (chunkID r) = None.

Record wf_cs s : Prop := {
  wf_max : 0 <= maxChunkSize (cs s) < 2 ^ 62;
  wf_buf : len (activeBuf (cs s)) <= maxChunkSize (cs s);
  wf_seq : 0 < nextSeq (cs s) < 2 ^ 63;
  wf_id : activeID (cs s) = chunkID (nextSeq (cs s) - 1);
  wf_unused r : nextSeq (cs s) <= r < 2 ^ 63 → unused s r;
  wf_clean : activeDirty (cs s) = false →
    activeBuf (cs s) = [] ∨ obj (backing (wd s)) (activeID (cs s)) = Some (activeBuf (cs s));
  wf_active c f : cache (cs s) = Some c →
    cached c (local (wd s)) (activeID (cs s)) = Some f → f `prefix_of` activeBuf (cs s);
  wf_coherent c id : cache (cs s) = Some c → chunk_name id = true →
    id ≠ activeID (cs s) → coherent_at obj c (wd s) id;
}.

Lemma chunk_name_active s : wf_cs s → chunk_name (activeID (cs s)) = true.
Proof. move=> H. rw (wf_id _ H). apply chunk_name_format. pose proof (wf_seq _ H). lia. Qed.

Lemma active_ne s r : wf_cs s → nextSeq (cs s) <= r < 2 ^ 63 → chunkID r ≠ activeID (cs s).
Proof.
  move=> H Hr. rw (wf_id _ H) => /format_chunk_id_inj. pose proof (wf_seq _ H). lia.
Qed.

(** The world may change under the same fields in any way that keeps the
    chunks and, but for the active one, the cached files. *)
Lemma wf_world s w : wf_cs s →
  (∀ k, chunk_name k = true → k ≠ activeID (cs s) → obj (backing w) k = obj (backing (wd s)) k) →
  (activeDirty (cs s) = false → activeBuf (cs s) ≠ [] →
     obj (backing w) (activeID (cs s)) = Some (activeBuf (cs s))) →
  local w = local (wd s) → wf_cs (mkCState (cs s) w).
Proof.
  move=> H Ho Hc El. destruct (H) as [????? Hcl ? Hco]. split => //=.
  - move=> r Hr. destruct (wf_unused _ H r Hr) as [A B].
    split => /=; [rw Ho //|by rw El].
    + apply chunk_name_format. lia.
    + by apply active_ne.
  - move=> Hd. destruct (decide (activeBuf (cs s) = [])); [by left|right]. by apply Hc.
  - by rw El.
  - move=> c id Hc' Hid Hne f data /=. rw El Ho //. by apply Hco.
Qed.

(** Storing the active chunk under its id changes no reader's view. *)
Lemma put_active_cases s : wf_cs s →
  match in_world (on_backing (Put (activeID (cs s)) (activeBuf (cs s)))) s with
  | Ret _ s' => cs s' = cs s ∧ wf_cs s' ∧ (∀ id, chunk_name id = true → view s' id = view s id) ∧
      obj (backing (wd s')) (activeID (cs s)) = Some (activeBuf (cs s))
  | Fail _ s' => cs s' = cs s ∧ wf_cs s' ∧ (∀ id, chunk_name id = true → view s' id = view s id)
  | Crash => False
  end.
Proof.
  move=> H. rw /in_world /on_backing. pose proof (chunk_name_active s H) as Hn.
  pose proof (Put_law (obj:=obj) (activeID (cs s)) (activeBuf (cs s)) (backing (wd s)) Hn) as HP.
  revert HP. destruct (Put _ _ _) as [u b|e b|] => //= HP; (split; [done|]).
  - split_and!; [|move=> id Hid; rw /view /=; case_decide; by [|rw HP // decide_False]|].
    + apply (wf_world s (mkWorld b (local (wd s)))) => //= [k Hk Hne|_ _].
      * by rw HP // decide_False.
      * by rw HP // decide_True.
    + by rw HP // decide_True.
  - destruct HP as [HP1 HP2].
    split; [|move=> id Hid; rw /view /=; case_decide; by [|apply HP1]].
    apply (wf_world s (mkWorld b (local (wd s)))) => //= Hd Hb.
    destruct HP2 as [->| ->] => //. by destruct (wf_clean _ H Hd).
Qed.

(** The best-effort copy of the active chunk into the cache. *)
Definition cache_active s : cstate W :=
  match cache (cs s) with
  | Some c => default s (out_state (in_world (on_local (put c (activeID (cs s)) (activeBuf (cs s)))) s))
  | None => s
  end.

Lemma cache_active_wf s : wf_cs s →
  cs (cache_active s) = cs s ∧ backing (wd (cache_active s)) = backing (wd s) ∧
  wf_cs (cache_active s).
Proof.
  move=> H. rw /cache_active. destruct (cache (cs s)) as [c|] eqn:Ec; [|done].
  rw /in_world /on_local /put. pose proof (chunk_name_active s H) as Hn.
  pose proof (writeAtomic_cases c (activeID (cs s)) (activeBuf (cs s)) (local (wd s))) as HW.
  destruct (writeAtomic _ _ _) as [u d|e d|] => //=; (split; [done|]); (split; [done|]).
  - assert (∀ k, chunk_name k = true → k ≠ activeID (cs s) →
      cached c d k = cached c (local (wd s)) k) as HW' by (move=> k ??; by rw HW // decide_False).
    destruct H. split => //=.
    + move=> r Hr. destruct (wf_unused0 r Hr) as [A B]. split => //= c'.
      rw Ec => -[<-]. rw HW'; [by apply B|apply chunk_name_format; lia|].
      rw wf_id0 => /format_chunk_id_inj. lia.
    + move=> c' f. rw Ec => -[<-]. rw HW // decide_True // => -[<-] //.
    + move=> c' id. rw Ec => -[<-] Hid Hne f data /=. rw HW' //. by apply (wf_coherent0 c).
  - destruct H. split => //=.
    + move=> r Hr. destruct (wf_unused0 r Hr) as [A B]. split => //= c'.
      rw Ec => -[<-]. rw HW; [by apply B|apply chunk_name_format; lia].
    + move=> c' f. rw Ec => -[<-]. rw HW //. by apply wf_active0.
    + move=> c' id. rw Ec => -[<-] Hid Hne f data /=. rw HW //. by apply (wf_coherent0 c).
Qed.

Definition fresh_active dirty (cs : ChunkStore) : ChunkStore :=
  set_activeDirty dirty (set_activeBuf [] (rotate cs)).

Lemma fresh_active_wf s dirty : wf_cs s → nextSeq (cs s) + 1 < 2 ^ 63 →
  activeBuf (cs s) = [] ∨ obj (backing (wd s)) (activeID (cs s)) = Some (activeBuf (cs s)) →
  wf_cs (upd (fresh_active dirty) s) ∧ extends s (upd (fresh_active dirty) s).
Proof.
  move=> H Hq Hs. pose proof (wf_seq _ H).
  destruct (wf_unused _ H (nextSeq (cs s))) as [Hu Hc]; [lia|].
  pose proof (active_ne s (nextSeq (cs s)) H) as Hne.
  split.
  - destruct H. split; rw /= ?i64_small ?/is_i64 //=; try lia.
    + by rw /len /=; lia.
    + f_equal. lia.
    + move=> r Hr. destruct (wf_unused0 r); [lia|]. done.
    + by left.
    + move=> c f Ec. by rw Hc.
    + move=> c id Ec Hid Hne'. destruct (decide (id = activeID (cs s))) as [->|]; [|by apply wf_coherent0].
      move=> f data Hf Hd Hdne. pose proof (wf_active0 c f Ec Hf) as Hp.
      destruct Hs as [Hb|Ho]; [|by rw Hd in Ho; injection Ho as ->].
      rw Hb in Hp. apply prefix_nil_inv in Hp as ->. apply prefix_nil.
  - move=> id o b [Hid [Ho [Hb [data [Hv Hr]]]]]. split_and!; [done..|]. exists data. split; [|done].
    revert Hv. rw /view /=. case_decide as E1; case_decide as E2; subst => //.
    + exfalso. apply Hne; [lia|done].
    + move=> [Ed]. destruct Hs as [Hb'|Hs]; [|by rw Hs Ed].
      subst. rw Hb' in Hr. destruct Hr as [Hr _], b => //. revert Hr. rw /len /=. lia.
    + rw Hu => //.
Qed.

(** The only errors of sealing are the store's. *)
Lemma sealLocked_err s : match sealLocked s with
  | Fail e _ => ∃ e', e = ErrBacking e' | _ => True end.
Proof.
  rw /sealLocked. destruct (_ =? 0) => //. rw /in_world /on_backing.
  destruct (Put _ _ _) => //=. eauto.
Qed.

(** Sealing: an error leaves the chunk store as it was. *)
Lemma sealLocked_cases s : wf_cs s → nextSeq (cs s) + 1 < 2 ^ 63 →
  match sealLocked s with
  | Ret _ s' => wf_cs s' ∧ extends s s' ∧ activeBuf (cs s') = [] ∧
      maxChunkSize (cs s') = maxChunkSize (cs s) ∧ nextSeq (cs s') = nextSeq (cs s) + 1 ∧
      cache (cs s') = cache (cs s) ∧
      (activeBuf (cs s) ≠ [] →
        obj (backing (wd s')) (activeID (cs s)) = Some (activeBuf (cs s)))
  | Fail _ s' => wf_cs s' ∧ extends s s' ∧ cs s' = cs s
  | Crash => False
  end.
Proof.
  move=> H Hq. rw /sealLocked. destruct (Z.eqb_spec (len (activeBuf (cs s))) 0) as [E|E].
  - assert (activeBuf (cs s) = []) as Eb by by destruct (activeBuf (cs s)).
    assert (upd rotate s = upd (fresh_active (activeDirty (cs s))) s) as ->.
    { rw /upd /fresh_active. f_equal. destruct (cs s). simpl in *. by subst. }
    destruct (fresh_active_wf s (activeDirty (cs s)) H Hq); [by left|].
    split_and!; rw //= ?i64_small ?/is_i64 //. pose proof (wf_seq _ H). lia.
  - pose proof (put_active_cases s H) as HP. revert HP.
    destruct (in_world _ s) as [u s1|e s1|] => //=; last first.
    { move=> [E1 [H1 Hv]]. split_and!; [done|by apply extends_view|done]. }
    move=> [E1 [H1 [Hv Ho]]].
    change (match cache (cs s1) with Some c => _ | None => s1 end) with
      (match cache (cs s1) with
       | Some c => default s1 (out_state (in_world (on_local
            (put c (activeID (cs s)) (activeBuf (cs s)))) s1))
       | None => s1 end). rw - E1. fold (cache_active s1).
    destruct (cache_active_wf s1 H1) as (E2 & E3 & H2).
    destruct (fresh_active_wf (cache_active s1) false H2) as [H3 H4]; [by rw E2 E1|..].
    { right. by rw E3 E2 E1. }
    split_and!; [done| |done|by rw /= E2|by rw /= E2 i64_small ?/is_i64 // E1;
      pose proof (wf_seq _ H); lia|by rw /= E2 E1|by rw /= E3 E1].
    etrans; [by apply extends_view|]. etrans; [|done].
    apply extends_view => id _. by rw /view E2 E3.
Qed.

(** Growing the buffer. *)
Lemma grow_buf s data :
  wf_cs s → len (activeBuf (cs s)) + len data <= maxChunkSize (cs s) →
  let s' := upd (fun cs => set_activeDirty true (set_activeBuf (activeBuf cs ++ data) cs)) s in
  wf_cs s' ∧ extends s s' ∧
  (data ≠ [] → holds (view s') (activeID (cs s)) (len (activeBuf (cs s))) data).
Proof.
  move=> H Hl /=. split_and!.
  - destruct H. split => //=; [by rw len_app|].
    move=> c f Ec Hf. destruct (wf_active0 c f Ec Hf) as [k ->].
    rw - (assoc_L (++)). by eexists.
  - move=> id o b [Hid [Ho [Hb [d [Hv [Hr Hs]]]]]]. split_and!; [done..|]. revert Hv.
    rw /view /=. case_decide; [|by eauto]. move=> [->].
    exists (d ++ data). split_and!; [done| |].
    + rw len_app. pose proof (len_nonneg data). lia.
    + rw slice_app_l //. apply len_nonneg.
  - move=> Hd. split_and!; [by apply chunk_name_active|apply len_nonneg|done|].
    rw /view /= decide_True //. eexists. split; [done|]. rw len_app. split; [lia|].
    by rw slice_app_r.
Qed.

(** What a successful [Append] promises. *)
Record appended (data : bytes) (off : Z) s (e : Extent.t) s' : Prop := {
  app_wf : wf_cs s';
  app_extends : extends s s';
  app_holds : data ≠ [] → holds (view s') (Extent.ChunkID e) (Extent.ChunkOffset e) data;
  app_Length : Extent.Length e = len data;
  app_FileOffset : Extent.FileOffset e = off;
  app_range : 0 <= Extent.ChunkOffset e ∧
    Extent.ChunkOffset e + Extent.Length e <= maxChunkSize (cs s);
  app_ChunkID : Extent.ChunkID e = activeID (cs s');
  app_max : maxChunkSize (cs s') = maxChunkSize (cs s);
  app_cache : cache (cs s') = cache (cs s);
  app_seq : nextSeq (cs s) <= nextSeq (cs s') <= nextSeq (cs s) + 1;
}.

Lemma append_to_buf data off s s1 :
  wf_cs s1 → extends s s1 → maxChunkSize (cs s1) = maxChunkSize (cs s) →
  cache (cs s1) = cache (cs s) → nextSeq (cs s) <= nextSeq (cs s1) <= nextSeq (cs s) + 1 →
  len (activeBuf (cs s1)) + len data <= maxChunkSize (cs s1) →
  let s' := upd (fun cs => set_activeDirty true (set_activeBuf (activeBuf cs ++ data) cs)) s1 in
  appended data off s (Extent.mk (activeID (cs s')) (len (activeBuf (cs s1))) (len data) off) s'.
Proof.
  move=> H1 Hx Hm Hc Hn Hl s'. destruct (grow_buf s1 data H1 Hl) as (A & B & C).
  pose proof (len_nonneg (activeBuf (cs s1))).
  split => //=; [by etrans|lia].
Qed.

Lemma Append_cases data off s : wf_cs s → nextSeq (cs s) + 1 < 2 ^ 63 →
  match Append data off s with
  | Ret e s' => appended data off s e s'
  | Fail ErrExceedsMax s' => maxChunkSize (cs s) < len data ∧ s' = s
  | Fail (ErrBacking _) s' => wf_cs s' ∧ extends s s' ∧ cs s' = cs s
  | _ => False
  end.
Proof.
  move=> H Hq. rw /Append. destruct (Z.ltb_spec (maxChunkSize (cs s)) (len data)); [done|].
  pose proof (wf_max _ H). pose proof (wf_buf _ H).
  pose proof (len_nonneg data). pose proof (len_nonneg (activeBuf (cs s))).
  rw i64_small; [|rw /is_i64; lia].
  destruct (Z.ltb_spec (maxChunkSize (cs s)) (len (activeBuf (cs s)) + len data)) as [Hlt|Hge].
  - pose proof (sealLocked_cases s H Hq) as HS.
    pose proof (sealLocked_err s) as HE. revert HS HE.
    destruct (sealLocked s) as [u s1|e s1|] => //=.
    + move=> [Hw [Hx [Eb [Em [En [Ec _]]]]]] _. apply append_to_buf => //; [lia|].
      rw Em Eb /len /=. fold (len data). lia.
    + move=> HS [e' ->]. done.
  - simpl. by apply append_to_buf; try lia.
Qed.

(** A step that only reads: it changes neither the fields nor any chunk, and
    caches at most chunks that the store holds. *)
Record quiet s s' : Prop := {
  q_wf : wf_cs s';
  q_cs : cs s' = cs s;
  q_obj k : chunk_name k = true → obj (backing (wd s')) k = obj (backing (wd s)) k;
  q_cache c k : cache (cs s) = Some c → chunk_name k = true →
    obj (backing (wd s)) k = None → cached c (local (wd s')) k = cached c (local (wd s)) k;
}.

Lemma quiet_refl s : wf_cs s → quiet s s.
Proof. by split. Qed.

Lemma quiet_trans s1 s2 s3 : quiet s1 s2 → quiet s2 s3 → quiet s1 s3.
Proof.
  move=> [_ E1 O1 C1] [Hw E2 O2 C2]. split; [done|congruence| |].
  - move=> k Hk. by rw O2 // O1.
  - move=> c k Ec Hk Hn. rw C2 ?E1 ?O1 //. by apply C1.
Qed.

Lemma quiet_view s s' k : quiet s s' → chunk_name k = true → view s' k = view s k.
Proof. move=> [_ E O _] Hk. rw /view E. by case_decide; [|apply O]. Qed.

Lemma quiet_extends s s' : quiet s s' → extends s s'.
Proof. move=> H. apply extends_view => k. by apply quiet_view. Qed.

Lemma world_quiet s w :
  wf_cs s →
  (∀ k, chunk_name k = true → obj (backing w) k = obj (backing (wd s)) k) →
  local w = local (wd s) → quiet s (mkCState (cs s) w).
Proof.
  move=> H Ho El. split => //=; [|by rw El].
  apply wf_world => //; [by auto|]. move=> Hd Hb. rw Ho; [|by apply chunk_name_active].
  by destruct (wf_clean _ H Hd).
Qed.

Lemma read_quiet s w c id : wf_cs s → cache (cs s) = Some c → chunk_name id = true →
  id ≠ activeID (cs s) → is_Some (obj (backing (wd s)) id) → read_frame obj c id (wd s) w →
  quiet s (mkCState (cs s) w).
Proof.
  move=> H Ec Hid Hne [dd Hdd] [F1 [F2 F3]].
  assert (∀ k, obj (backing (wd s)) k = None → k ≠ id) as Hn by (move=> k Hk E; congruence).
  split => //=; last first.
  { move=> c' k Ec' Hk Hk'. rw Ec in Ec'. injection Ec' as <-. apply F2; [done|by apply Hn]. }
  pose proof (chunk_name_active s H) as Ha. destruct H. split => //=.
  - move=> r Hr'. destruct (wf_unused0 r Hr') as [A B].
    assert (chunk_name (chunkID r) = true) by (apply chunk_name_format; lia).
    split => /=; [by rw F1|]. move=> c' Ec'. rw Ec in Ec'. injection Ec' as <-.
    rw F2; [by apply B|done|by apply Hn].
  - move=> Hd. rw F1 //. by apply wf_clean0.
  - move=> c' f Ec'. rw Ec in Ec'. injection Ec' as <-. rw F2 //. by apply wf_active0.
  - move=> c' k Ec'. rw Ec in Ec'. injection Ec' as <-. move=> Hk Hka.
    destruct (decide (k = id)) as [->|]; [by apply F3, wf_coherent0|].
    move=> f data /=. rw F2 // F1 //. by apply wf_coherent0.
Qed.

(** Reading bytes that the log holds: those bytes, or an error of the store or
    of the cache; from the active chunk always those bytes. *)
Lemma Read_cases s id o b : wf_cs s → holds (view s) id o b → o + len b < 2 ^ 63 →
  match Read id o (len b) s with
  | Ret b' s' => b' = b ∧ quiet s s'
  | Fail _ s' => id ≠ activeID (cs s) ∧ quiet s s'
  | Crash => False
  end.
Proof.
  move=> H [Hid [Ho [Hb [data [Hv [Hl Hs]]]]]] Hm. pose proof (len_nonneg b).
  assert (0 < len b) by (destruct b => //; rw /len /=; lia).
  revert Hv. rw /Read /view. case_decide as E.
  - move=> [->]. rw i64_small; [|rw /is_i64; lia].
    destruct (Z.ltb_spec (len data) (o + len b)); [lia|].
    rw /in_world go_slice_ret //. split; [done|]. destruct s. by apply quiet_refl.
  - move=> Hv. destruct (cache (cs s)) as [c|] eqn:Ec; rw /in_world.
    + pose proof (readRange_cases obj c id o (len b) (wd s) data) as HR.
      specialize (HR Hid Ho ltac:(done) (wf_coherent _ H c id Ec Hid E) Hv Hl Hm). revert HR.
      destruct (readRange _ _ _ _ _) as [b' w|e w|] => //=.
      * move=> [F ->]. split; [done|]. by apply (read_quiet s w c id).
      * move=> F. split; [done|]. by apply (read_quiet s w c id).
    + rw /on_backing. pose proof (GetRange_law (obj:=obj) id o (len b) (backing (wd s))) as HG.
      specialize (HG Hid Ho ltac:(done)). revert HG.
      destruct (GetRange _ _ _ _) as [b' w|e w|] => //=.
      * move=> [F [data' [Hd' Hs']]]. rw Hv in Hd'. injection Hd' as <-.
        split; [by rw Hs'|]. by apply (world_quiet s (mkWorld w (local (wd s)))).
      * move=> F. split; [done|]. by apply (world_quiet s (mkWorld w (local (wd s)))).
Qed.

(** A flush that returns has stored everything that can be read. *)
Lemma FlushActive_cases s : wf_cs s →
  match FlushActive s with
  | Ret _ s' => wf_cs s' ∧ extends s s' ∧ cs s' = set_activeDirty false (cs s) ∧
      ∀ id o b, holds (view s) id o b → holds (obj (backing (wd s'))) id o b
  | Fail _ s' => wf_cs s' ∧ extends s s' ∧ cs s' = cs s
  | Crash => False
  end.
Proof.
  move=> H. rw /FlushActive. destruct (activeDirty (cs s)) eqn:Ed => /=; last first.
  { split_and!; [done..| |].
    { destruct (cs s). simpl in Ed. by subst. }
    move=> id o b [Hid [Ho [Hb [data [Hv Hr]]]]]. split_and!; [done..|]. exists data.
    split; [|done]. revert Hv. rw /view. case_decide; [|done]. move=> [Edata]. subst.
    destruct (wf_clean _ H Ed) as [E|E]; [|done]. exfalso.
    rw E in Hr. destruct Hr as [Hr _], b => //. revert Hr. rw /len /=. lia. }
  pose proof (put_active_cases s H) as HP. revert HP.
  destruct (in_world _ s) as [u s1|e s1|] => //=.
  - move=> [E1 [H1 [Hv Ho]]]. split_and!.
    + destruct H1. split => //= _. right. by rw E1.
    + etrans; [by apply extends_view|]. by apply extends_view.
    + by rw E1.
    + move=> id o b [Hid [Ho' [Hb [data [Hd Hr]]]]]. split_and!; [done..|]. exists data.
      split; [|done]. revert Hd. rw - Hv // /view. case_decide as E; [|done].
      by rw E1 in E |- *; subst => -[<-].
  - move=> [E1 [H1 Hv]]. split_and!; [done|by apply extends_view|done].
Qed.

(** Changes of the stored objects that the invariant allows. *)
Lemma wf_backing s b : wf_cs s →
  (∀ r, nextSeq (cs s) <= r < 2 ^ 63 → obj b (chunkID r) = None) →
  obj b (activeID (cs s)) = obj (backing (wd s)) (activeID (cs s)) →
  (∀ c id, cache (cs s) = Some c → chunk_name id = true → id ≠ activeID (cs s) →
     coherent_at obj c (mkWorld b (local (wd s))) id) →
  wf_cs (mkCState (cs s) (mkWorld b (local (wd s)))).
Proof.
  move=> H Hu Ha Hc. destruct (H). split => //=.
  - move=> r Hr. destruct (wf_unused _ H r Hr). split; [by apply Hu|done].
  - by rw Ha.
Qed.

(** The ids that compaction may name. *)
Definition sealed_id s (id : string) : Prop := chunk_name id = true ∧ id ≠ activeID (cs s).

Lemma Delete_step s id : wf_cs s → sealed_id s id →
  match in_world (on_backing (Delete id)) s with
  | Ret _ s' | Fail _ s' => cs s' = cs s ∧ wf_cs s' ∧
      (∀ k, chunk_name k = true → k ≠ id → view s' k = view s k) ∧
      (view s' id = None ∨ view s' id = view s id)
  | Crash => False
  end.
Proof.
  move=> H [Hid Hne]. rw /in_world /on_backing.
  pose proof (Delete_law (obj:=obj) id (backing (wd s)) Hid) as HD.
  assert (match Delete id (backing (wd s)) with
    | Ret _ b | Fail _ b => (∀ k, chunk_name k = true → k ≠ id → obj b k = obj (backing (wd s)) k) ∧
        (obj b id = None ∨ obj b id = obj (backing (wd s)) id)
    | Crash => False end) as HD'.
  { destruct (Delete id _) => //.
    - split; [move=> k Hk Hki; by rw HD // decide_False|left; by rw HD // decide_True].
    - destruct HD as [? [?|?]]; split; auto. }
  assert (∀ b, (∀ k, chunk_name k = true → k ≠ id → obj b k = obj (backing (wd s)) k) ∧
    (obj b id = None ∨ obj b id = obj (backing (wd s)) id) →
    let s' := mkCState (cs s) (mkWorld b (local (wd s))) in
    cs s' = cs s ∧ wf_cs s' ∧
    (∀ k, chunk_name k = true → k ≠ id → view s' k = view s k) ∧
    (view s' id = None ∨ view s' id = view s id)) as Hgo; last first.
  { destruct (Delete id _) => //; by apply Hgo. }
  clear HD HD'. move=> b [HD1 HD2] s'. split; [done|]. split; last first.
  { split; [|by rw /view /= !decide_False]. move=> k Hk Hki. rw /view /=. case_decide; auto. }
  pose proof (chunk_name_active s H). apply wf_backing => //.
  - move=> r Hr. destruct (wf_unused _ H r Hr) as [A _].
    assert (chunk_name (chunkID r) = true) by (apply chunk_name_format; pose proof (wf_seq _ H); lia).
    destruct (decide (chunkID r = id)) as [<-|]; [|by rw HD1].
    by destruct HD2 as [->| ->].
  - apply HD1; auto.
  - move=> c k Ec Hk Hka f data /=. destruct (decide (k = id)) as [->|]; [|rw HD1 //; by apply (wf_coherent _ H)].
    destruct HD2 as [->| ->]; [done|]. by apply (wf_coherent _ H).
Qed.

Lemma DeleteChunks_cases ids s : wf_cs s → Forall (sealed_id s) ids →
  match DeleteChunks ids s with
  | Ret _ s' | Fail _ s' => cs s' = cs s ∧ wf_cs s' ∧
      ∀ k, chunk_name k = true → k ∉ ids → view s' k = view s k
  | Crash => False
  end.
Proof.
  elim: ids s => [|id ids IH] s H Hall; [done|]. simpl.
  apply Forall_cons in Hall as [Hid Hall].
  pose proof (Delete_step s id H Hid) as HD. revert HD.
  destruct (in_world _ s) as [u s1|e s1|] => //=.
  - move=> [E1 [H1 [Hv _]]]. specialize (IH s1 H1). rw /sealed_id E1 in IH.
    specialize (IH Hall). revert IH.
    destruct (DeleteChunks ids s1) as [? s2|? s2|] => //= -[E2 [H2 Hv2]];
      (split_and!; [congruence|done|]); move=> k Hk /not_elem_of_cons [??]; by rw Hv2 // Hv.
  - move=> [E1 [H1 [Hv _]]]. split_and!; [done..|].
    by move=> k Hk /not_elem_of_cons [??]; apply Hv.
Qed.

(** Writing a chunk under a name that no chunk has. *)
Definition new_id s (id : string) : Prop :=
  sealed_id s id ∧ obj (backing (wd s)) id = None ∧
  (∀ c, cache (cs s) = Some c → cached c (local (wd s)) id = None) ∧
  ∀ r, nextSeq (cs s) <= r < 2 ^ 63 → id ≠ chunkID r.

Lemma PutSealed_cases s id data : wf_cs s → new_id s id →
  match PutSealed id data s with
  | Ret _ s' => cs s' = cs s ∧ local (wd s') = local (wd s) ∧ wf_cs s' ∧
      view s' id = Some data ∧ ∀ k, chunk_name k = true → k ≠ id → view s' k = view s k
  | Fail _ s' => cs s' = cs s ∧ local (wd s') = local (wd s) ∧ wf_cs s' ∧
      ∀ k, chunk_name k = true → k ≠ id → view s' k = view s k
  | Crash => False
  end.
Proof.
  move=> H [[Hid Hne] [Hnone [Huc Hr]]]. rw /PutSealed /in_world /on_backing.
  pose proof (Put_law (obj:=obj) id data (backing (wd s)) Hid) as HP.
  assert (∀ b, (∀ k, chunk_name k = true → k ≠ id → obj b k = obj (backing (wd s)) k) →
    let s' := mkCState (cs s) (mkWorld b (local (wd s))) in
    cs s' = cs s ∧ local (wd s') = local (wd s) ∧ wf_cs s' ∧
    ∀ k, chunk_name k = true → k ≠ id → view s' k = view s k) as Hgo; last first.
  { destruct (Put id data _) as [u b|e b|] => //=; [|by apply Hgo; apply HP].
    destruct (Hgo b) as (?&?&?&?); [by move=> k Hk ?; rw HP // decide_False|].
    split_and!; [done..| |done]. by rw /view /= decide_False // HP // decide_True. }
  move=> b Hb s'. split_and!; [done..| |]; last first.
  { move=> k Hk Hki. rw /view /=. case_decide; auto. }
  pose proof (chunk_name_active s H). apply wf_backing => //.
  - move=> r Hr'. destruct (wf_unused _ H r Hr') as [A _]. rw Hb //; [|by apply not_eq_sym, Hr].
    apply chunk_name_format. pose proof (wf_seq _ H). lia.
  - apply Hb; auto.
  - move=> c k Ec Hk Hka f dt /=. destruct (decide (k = id)) as [->|]; [by rw Huc|].
    rw Hb //. by apply (wf_coherent _ H).
Qed.

Lemma SealedSize_cases s id : wf_cs s → chunk_name id = true →
  match SealedSize id s with
  | Ret n s' => quiet s s' ∧ ∃ data, view s id = Some data ∧ n = len data
  | Fail _ s' => quiet s s'
  | Crash => False
  end.
Proof.
  move=> H Hid. rw /SealedSize /view. case_decide; [split; [by apply quiet_refl|eauto]|].
  rw /in_world /on_backing. pose proof (Size_law (obj:=obj) id (backing (wd s)) Hid) as HS.
  revert HS. destruct (Size _ _) as [n b|e b|] => //=.
  - move=> [F Hd]. split; [|done]. by apply (world_quiet s (mkWorld b (local (wd s)))).
  - move=> F. by apply (world_quiet s (mkWorld b (local (wd s)))).
Qed.

Lemma ListSealed_cases s : wf_cs s →
  match ListSealed s with
  | Ret ids s' => quiet s s' ∧ ∀ k, chunk_name k = true →
      k ∈ ids ↔ k ≠ activeID (cs s) ∧ is_Some (obj (backing (wd s)) k)
  | Fail _ s' => quiet s s'
  | Crash => False
  end.
Proof.
  move=> H. rw /ListSealed /in_world /on_backing.
  pose proof (List_law (obj:=obj) (backing (wd s))) as HL.
  revert HL. destruct (List _) as [ids b|e b|] => //=.
  - move=> [F Hd]. split; [by apply (world_quiet s (mkWorld b (local (wd s))))|].
    move=> k Hk. by rw list_elem_of_filter Hd.
  - move=> F. by apply (world_quiet s (mkWorld b (local (wd s)))).
Qed.

(** ** Starting a session *)

Lemma max_seq_step m ids :
  m <= foldl seq_step m ids ∧
  (∀ id q, id ∈ ids → scan_chunk_id id = Some q → q <= foldl seq_step m ids) ∧
  (m < 10 ^ 8 → foldl seq_step m ids < 10 ^ 8).
Proof.
  elim: ids m => [|id ids IH] m; simpl.
  { split_and!; [lia|by move=> ?? /elem_of_nil|lia]. }
  assert (m <= seq_step m id ∧ (m < 10 ^ 8 → seq_step m id < 10 ^ 8) ∧
    ∀ q, scan_chunk_id id = Some q → q <= seq_step m id) as (A & B & C).
  { rw /seq_step. destruct (scan_chunk_id id) as [q|] eqn:E; [|split_and!; by [lia|]].
    apply scan_chunk_id_bound in E.
    destruct (Z.ltb_spec m q); (split_and!; [lia|lia|move=> ? [<-]; lia]). }
  destruct (IH (seq_step m id)) as (A' & B' & C'). split_and!; [lia| |by auto].
  move=> id' q /elem_of_cons [->|Hin] Hq; [specialize (C q Hq); lia|by eapply B'].
Qed.

Lemma max_seq_spec ids :
  -1 <= max_seq ids < 10 ^ 8 ∧
  ∀ id q, id ∈ ids → scan_chunk_id id = Some q → q <= max_seq ids.
Proof. destruct (max_seq_step (-1) ids) as (A & B & C). rw /max_seq. split; [lia|done]. Qed.

Lemma NewChunkStore_eq max : NewChunkStore max = mkCS max None (chunkID 0) [] false (0 + 1).
Proof.
  rw /NewChunkStore /rotate /set_nextSeq /set_activeID /=. by rw i64_small; [|rw /is_i64; lia].
Qed.

(** A chunk store whose active chunk, and every later one, is unused. *)
Lemma session_wf max q w0 b :
  0 <= max < 2 ^ 62 → 0 <= q <= 10 ^ 8 →
  (∀ k, chunk_name k = true → obj b k = obj (backing w0) k) →
  (∀ r, q <= r < 2 ^ 63 → obj b (chunkID r) = None) →
  let s := mkCState (mkCS max None (chunkID q) [] false (q + 1)) (mkWorld b (local w0)) in
  wf_cs s ∧ activeBuf (cs s) = [] ∧ maxChunkSize (cs s) = max ∧
  nextSeq (cs s) <= 10 ^ 8 + 1 ∧ cache (cs s) = None ∧ local (wd s) = local w0 ∧
  obj (backing (wd s)) (activeID (cs s)) = None ∧
  ∀ k, chunk_name k = true → obj (backing (wd s)) k = obj (backing w0) k.
Proof.
  move=> Hmax Hq Ho Hf s. assert (10 ^ 8 + 1 < 2 ^ 63) as Hbig by done.
  split_and!; simpl; [|done|done|lia|done|done|apply Hf; lia|done].
  split; simpl; [lia| |lia|by rw Z.add_simpl_r| |by left|done|done].
  - rw /len /=. lia.
  - move=> r Hr. split; [apply Hf; lia|done].
Qed.

(** The session that [NewChunkStore] and [RecoverNextSeq] open, with no cache
    yet, when no chunk of the store has a number of more than eight digits. *)
Lemma RecoverNextSeq_cases max w :
  0 <= max < 2 ^ 62 →
  (∀ r, 10 ^ 8 <= r < 2 ^ 63 → obj (backing w) (chunkID r) = None) →
  match RecoverNextSeq (mkCState (NewChunkStore max) w) with
  | Ret _ s => wf_cs s ∧ activeBuf (cs s) = [] ∧ maxChunkSize (cs s) = max ∧
      nextSeq (cs s) <= 10 ^ 8 + 1 ∧ cache (cs s) = None ∧ local (wd s) = local w ∧
      obj (backing (wd s)) (activeID (cs s)) = None ∧
      ∀ k, chunk_name k = true → obj (backing (wd s)) k = obj (backing w) k
  | Fail _ s => cs s = NewChunkStore max
  | Crash => False
  end.
Proof.
  move=> Hmax Hbig. rw /RecoverNextSeq /in_world /on_backing.
  pose proof (List_law (obj:=obj) (backing w)) as HL. revert HL.
  destruct (List (backing w)) as [ids b|e b|] eqn:EL => //=; rw EL //=.
  move=> [F Hids].
  destruct (max_seq_spec ids) as [Hb Hm]. assert (10 ^ 8 < 2 ^ 62) by done.
  assert (∀ r, max_seq ids < r < 2 ^ 63 → obj b (chunkID r) = None) as Hfree.
  { move=> r Hr. assert (chunk_name (chunkID r) = true) as Hn by (apply chunk_name_format; lia).
    rw F //. destruct (decide (10 ^ 8 <= r)); [apply Hbig; lia|].
    destruct (obj (backing w) (chunkID r)) eqn:E; [|done]. exfalso.
    assert (r <= max_seq ids); [|lia]. apply (Hm (chunkID r)); [by apply Hids|].
    apply scan_chunk_id_format. lia. }
  destruct (Z.ltb_spec (max_seq ids) 0).
  - rw NewChunkStore_eq. apply session_wf; [lia..|done|by move=> r Hr; apply Hfree; lia].
  - assert (rotate (set_nextSeq (max_seq ids +! 1) (NewChunkStore max)) =
      mkCS max None (chunkID (max_seq ids + 1)) [] false (max_seq ids + 1 + 1)) as E.
    { rw NewChunkStore_eq /rotate /set_nextSeq /set_activeID /=.
      by rw !i64_small; [|rw /is_i64; lia..]. }
    rw /upd E. apply session_wf; [lia..|done|by move=> r Hr; apply Hfree; lia].
Qed.

(** Turning on a cache whose directory holds no chunk. *)
(** A cache on disk that belongs to the store [b]: each file is (the beginning
    of) a chunk of it. *)
Definition cache_of (b : W) (base : string) (d : Disk) : Prop :=
  ∀ k f, chunk_name k = true → files d !! Join (Join base "chunks") k = Some f →
    ∃ data, obj b k = Some data ∧ (data ≠ [] → f `prefix_of` data).

Lemma SetCacheDir_cases base s : wf_cs s → obj (backing (wd s)) (activeID (cs s)) = None →
  cache_of (backing (wd s)) base (local (wd s)) →
  match SetCacheDir base s with
  | Ret _ s' => wf_cs s' ∧ extends s s' ∧ backing (wd s') = backing (wd s) ∧
      cs s' = set_cache (Some (mkCache (Join base "chunks"))) (cs s)
  | Fail _ s' => wf_cs s' ∧ extends s s' ∧ cs s' = cs s
  | Crash => False
  end.
Proof.
  move=> H Hna He. rw /SetCacheDir /in_world /on_local /newChunkCache /os_MkdirAll.
  assert (∀ k, chunk_name k = true → obj (backing (wd s)) k = None →
    files (local (wd s)) !! Join (Join base "chunks") k = None) as Hno.
  { move=> k Hk Ho. destruct (files _ !! _) as [f|] eqn:E; [|done]. destruct (He k f Hk E) as (data & Hd & _). by rw Ho in Hd. }
  assert (wf_cs (mkCState (cs s) (mkWorld (backing (wd s)) (pop_fault (local (wd s)))))) as H'.
  { destruct H. by split. }
  pose proof (chunk_name_active s H) as Ha.
  destruct (next_fault (local (wd s))) => /=;
    [|(split_and!; [done|by apply extends_view|done])..].
  split_and!; [|by apply extends_view|done..].
  destruct H. split => //=.
  - move=> r Hr. destruct (wf_unused0 r Hr) as [A _]. split => //= c [<-].
    apply Hno; [apply chunk_name_format; lia|done].
  - move=> c f [<-]. by rw /cached /= Hno.
  - move=> c id [<-] Hid _ f data Hf Ho Hne. destruct (He id f Hid Hf) as (data' & Ho' & Hp).
    simpl in Ho. rw Ho in Ho'. injection Ho' as <-. by apply Hp.
Qed.
End log.
