(* ===== verification/ChunkProps.v ===== *)
(** Properties of the chunk store: the log survives every sequence of
    operations, appended data reads back, a flush makes everything readable
    by the next session. *)
From S2P Require Import Prelude Types OS Decimal Store Cache ChunkStore.
#[local] Open Scope Z_scope.

Inductive cs_op :=
  | OpAppend (data : bytes) (fileOffset : Z)
  | OpRead (id : string) (offset : Z) (b : bytes)
  | OpSeal
  | OpFlush
  | OpDelete (ids : list string)
  | OpPutSealed (id : string) (data : bytes)
  | OpSealedSize (id : string)
  | OpListSealed.

Section runs.
Context {W : Type} {S : Store W} (obj : W → string → option bytes) {L : StoreLaws S obj}.
Implicit Types s : cstate W.

(** The state after an operation, whether or not it returned an error. *)
Definition run_op (op : cs_op) s : option (cstate W) :=
  match op with
  | OpAppend data off => out_state (Append data off s)
  | OpRead id o b => out_state (Read id o (len b) s)
  | OpSeal => out_state (Seal s)
  | OpFlush => out_state (FlushActive s)
  | OpDelete ids => out_state (DeleteChunks ids s)
  | OpPutSealed id data => out_state (PutSealed id data s)
  | OpSealedSize id => out_state (SealedSize id s)
  | OpListSealed => out_state (ListSealed s)
  end.

(** How the rest of fusey calls the chunk store: it reads what the log holds,
    deletes and writes sealed chunks only, and does not run out of ids. *)
Definition op_ok (op : cs_op) s : Prop :=
  match op with
  | OpAppend _ _ | OpSeal => nextSeq (cs s) + 1 < 2 ^ 63
  | OpRead id o b => holds (view obj s) id o b ∧ o + len b < 2 ^ 63
  | OpDelete ids => Forall (sealed_id s) ids
  | OpPutSealed id _ => new_id obj s id
  | OpSealedSize id => chunk_name id = true
  | OpFlush | OpListSealed => True
  end.

Inductive run : cstate W → list cs_op → cstate W → Prop :=
  | run_nil s : run s [] s
  | run_cons s op s1 ops s2 :
      op_ok op s → run_op op s = Some s1 → run s1 ops s2 → run s (op :: ops) s2.

(** The chunks that an operation deletes. *)
Definition deleted_by (op : cs_op) : list string :=
  match op with OpDelete ids => ids | _ => [] end.

Lemma extends_except s s' (ids : list string) :
  (∀ k, chunk_name k = true → k ∉ ids → view obj s' k = view obj s k) →
  ∀ id o b, id ∉ ids → holds (view obj s) id o b → holds (view obj s') id o b.
Proof. move=> H id o b Hni [Hid Hr]. rw /holds H //. Qed.

Lemma new_id_unheld s id o b : new_id obj s id → ¬ holds (view obj s) id o b.
Proof. move=> [[_ Hne] [Hno _]] [_ [_ [_ [data [Hv _]]]]]. by rw /view decide_False // Hno in Hv. Qed.

Lemma quiet_safe s s' (ids : list string) : quiet obj s s' →
  ∃ s'', Some s' = Some s'' ∧ wf_cs obj s'' ∧
    ∀ id o b, id ∉ ids → holds (view obj s) id o b → holds (view obj s'') id o b.
Proof.
  move=> Hq. exists s'. split_and!; [done|by apply Hq|]. move=> id o b _. by apply quiet_extends.
Qed.

(** One operation: it does not panic, keeps the invariant, and keeps every
    range of a chunk that it does not delete. *)
Lemma run_op_safe op s : wf_cs obj s → op_ok op s →
  ∃ s', run_op op s = Some s' ∧ wf_cs obj s' ∧
    ∀ id o b, id ∉ deleted_by op → holds (view obj s) id o b → holds (view obj s') id o b.
Proof.
  move=> H. destruct op as [data off|id o b| | |ids|id data|id|] => /= Hok.
  - pose proof (Append_cases obj data off s H Hok) as HA. revert HA.
    destruct (Append data off s) as [e s'|e s'|] => //=.
    + move=> HA. exists s'. destruct HA. by auto.
    + destruct e => //= [[_ ->]|[Hw [Hx _]]]; eauto.
  - pose proof (Read_cases obj s id o b H (proj1 Hok) (proj2 Hok)) as HR. revert HR.
    destruct (Read _ _ _ s) as [b' s'|e s'|] => //= -[_ Hq]; by apply quiet_safe.
  - pose proof (sealLocked_cases obj s H Hok) as HS. revert HS. rw /Seal.
    destruct (sealLocked s) as [u s'|e s'|] => //= -[Hw [Hx _]]; eauto.
  - pose proof (FlushActive_cases obj s H) as HF. revert HF.
    destruct (FlushActive s) as [u s'|e s'|] => //= -[Hw [Hx _]]; eauto.
  - pose proof (DeleteChunks_cases obj ids s H Hok) as HD. revert HD.
    destruct (DeleteChunks ids s) as [u s'|e s'|] => //= -[_ [Hw Hv]];
      (exists s'; split_and!; [done..|by apply extends_except]).
  - pose proof (PutSealed_cases obj s id data H Hok) as HP. revert HP.
    destruct (PutSealed id data s) as [u s'|e s'|] => //=;
      [move=> [_ [_ [Hw [_ Hv]]]]|move=> [_ [_ [Hw Hv]]]];
      (exists s'; split_and!; [done..|]); move=> k o b _ Hh;
      (destruct (decide (k = id)) as [->|]; [by apply new_id_unheld in Hh|]);
      (apply (extends_except s s' [id]); [|set_solver|done]); move=> k' ??; apply Hv; set_solver.
  - pose proof (SealedSize_cases obj s id H Hok) as HS. revert HS.
    destruct (SealedSize id s) as [n s'|e s'|] => //=; [move=> [Hq _]|move=> Hq]; by apply quiet_safe.
  - pose proof (ListSealed_cases obj s H) as HS. revert HS.
    destruct (ListSealed s) as [n s'|e s'|] => //=; [move=> [Hq _]|move=> Hq]; by apply quiet_safe.
Qed.

Lemma run_safe s ops s' : run s ops s' → wf_cs obj s →
  wf_cs obj s' ∧ ∀ id o b, Forall (fun op => id ∉ deleted_by op) ops →
    holds (view obj s) id o b → holds (view obj s') id o b.
Proof.
  elim=> [s0 H|s0 op s1 ops' s2 Hok Hop _ IH H]; [done|].
  destruct (run_op_safe op s0 H Hok) as (s1' & Hop' & Hw & Hx).
  rw Hop in Hop'. injection Hop' as <-. destruct (IH Hw) as [Hw2 Hx2]. split; [done|].
  move=> id o b /Forall_cons [Hni Hnis] Hh. apply Hx2; [done|]. by apply Hx.
Qed.
End runs.

(** ** A session on a directory store *)

Definition demo_store : Store Disk := LocalStore.store "store".
Definition demo_obj : Disk → string → option bytes := LocalStore.obj "store".
#[local] Existing Instance demo_store.
#[local] Instance demo_laws : StoreLaws demo_store demo_obj := LocalStore.laws "store".

Definition demo_world : world Disk := mkWorld (mkDisk ∅ []) (mkDisk ∅ []).

(** What [mustBuildStore] sets up, with chunks of at most four bytes. *)
Definition open_session (max : Z) (base : string) (w : world Disk) : outcome ChunkErr (cstate Disk) unit :=
  let! _, s := RecoverNextSeq (mkCState (NewChunkStore max) w) in SetCacheDir base s.

Definition demo_session : cstate Disk :=
  default (mkCState (NewChunkStore 4) demo_world)
    (out_state (open_session 4 "cache" demo_world)).

Lemma demo_session_wf : wf_cs demo_obj demo_session.
Proof.
  assert (match RecoverNextSeq (mkCState (NewChunkStore 4) demo_world) with
    | Ret _ s => wf_cs demo_obj s ∧ files (local (wd s)) = ∅ ∧ demo_obj (backing (wd s)) (activeID (cs s)) = None
    | _ => False end) as H.
  { pose proof (RecoverNextSeq_cases demo_obj 4 demo_world) as H.
    destruct (RecoverNextSeq _) as [u s|e s|] eqn:E; [|by vm_compute in E..].
    destruct H as (Hw & _ & _ & _ & _ & El & Hna & _); [done|by move=> r _; rw /demo_obj /LocalStore.obj lookup_empty|].
    split_and!; [done|by rw El|done]. }
  rw /demo_session /open_session. destruct (RecoverNextSeq _) as [u s|e s|]; [|done..].
  destruct H as (Hw & Hf & Hna). simpl.
  pose proof (SetCacheDir_cases demo_obj "cache" s Hw Hna) as HS.
  specialize (HS ltac:(move=> k f _; by rw Hf lookup_empty)). revert HS.
  by destruct (SetCacheDir "cache" s) as [u' s'|e s'|] => //= -[].
Qed.

Definition ab : bytes := [Byte.x61; Byte.x62].
Definition cde : bytes := [Byte.x63; Byte.x64; Byte.x65].

(** The session after a first write. *)
Definition demo_ab : cstate Disk :=
  default demo_session (out_state (Append ab 0 demo_session)).

Lemma demo_ab_wf : wf_cs demo_obj demo_ab.
Proof.
  pose proof (Append_cases demo_obj ab 0 demo_session demo_session_wf) as H.
  rw /demo_ab. destruct (Append ab 0 demo_session) as [e s|e s|] eqn:E; [|by vm_compute in E..].
  by destruct H.
Qed.

Lemma demo_ab_holds : holds (view demo_obj demo_ab) "chunk-00000000" 0 ab.
Proof. split_and!; [done|done|done|]. exists ab. by vm_compute. Qed.

(** ** Properties *)

Section properties.
Context {W : Type} {S : Store W} (obj : W → string → option bytes) {L : StoreLaws S obj}.

(** C19: the log survives. From a well-formed chunk store, after any sequence of
    appends, reads, seals, flushes, deletions and writes of sealed chunks,
    each of which may have failed, the chunk store is well formed (one active
    chunk of at most [maxChunkSize] bytes, later ids unused, cache coherent),
    and bytes that could be read before at some place of a chunk that was not
    deleted are read back there unchanged, or the read reports an I/O error;
    from the active chunk they are always read back. *)
Theorem chunk_log_survives s ops s' id o b :
  run obj s ops s' → wf_cs obj s →
  Forall (fun op => id ∉ deleted_by op) ops →
  holds (view obj s) id o b → o + len b < 2 ^ 63 →
  wf_cs obj s' ∧
  match Read id o (len b) s' with
  | Ret b' _ => b' = b
  | Fail _ _ => id ≠ activeID (cs s')
  | Crash => False
  end.
Proof.
  move=> Hrun H Hnd Hh Hm. destruct (run_safe obj s ops s' Hrun H) as [Hw Hx].
  split; [done|]. pose proof (Read_cases obj s' id o b Hw (Hx id o b Hnd Hh) Hm) as HR.
  destruct (Read _ _ _ s') => //; by destruct HR.
Qed.

(** Every operation, called the way fusey calls it, returns or reports an
    error; none panics, whatever the store and the disk do. *)
Theorem chunk_ops_total op s :
  wf_cs obj s → op_ok obj op s → ∃ s', run_op op s = Some s' ∧ wf_cs obj s'.
Proof.
  move=> H Hok. destruct (run_op_safe obj op s H Hok) as (s' & ? & ? & _). eauto.
Qed.

(** Appending. [Append] returns an extent that lies within the chunk size
    and names the active chunk, and reading that extent back at once gives
    the data; it fails for data larger than a chunk, changing nothing, or
    because the full chunk could not be stored, keeping the buffer. *)
Theorem Append_reads_back data off s :
  wf_cs obj s → nextSeq (cs s) + 1 < 2 ^ 63 → data ≠ [] →
  match Append data off s with
  | Ret e s' =>
      Extent.Length e = len data ∧ Extent.FileOffset e = off ∧
      Extent.ChunkOffset e + Extent.Length e <= maxChunkSize (cs s) ∧
      Read (Extent.ChunkID e) (Extent.ChunkOffset e) (Extent.Length e) s' = Ret data s' ∧
      extends obj s s'
  | Fail ErrExceedsMax s' => maxChunkSize (cs s) < len data ∧ s' = s
  | Fail _ s' => extends obj s s' ∧ cs s' = cs s
  | Crash => False
  end.
Proof.
  move=> H Hq Hne. pose proof (Append_cases obj data off s H Hq) as HA. revert HA.
  destruct (Append data off s) as [e s'|[] s'|] => //; [|by move=> [? [? ?]]].
  move=> [Hw Hx Hh EL EF Hr EC _ _ _]. split_and!; [done|done|lia| |done].
  destruct (Hh Hne) as (_ & Ho & _ & d & Hv & Hl & Hs).
  pose proof (wf_max _ _ H). rw /Read EC decide_True // EL.
  rw /view EC decide_True // in Hv. injection Hv as ->.
  pose proof (len_nonneg data).
  rw i64_small; [|rw /is_i64; lia]. destruct (Z.ltb_spec (len d) (Extent.ChunkOffset e + len data)); [lia|].
  rw /in_world go_slice_ret; [|lia..]. rw Hs. by destruct s'.
Qed.

(** Durability. If [FlushActive] returns, a later session on the same
    backing store, whose [RecoverNextSeq] returns, starts on a chunk id that
    the store does not hold and can read everything that could be read before
    the flush. *)
Theorem flush_then_recover s s1 u max d u' s2 :
  wf_cs obj s → FlushActive s = Ret u s1 →
  0 <= max < 2 ^ 62 → nextSeq (cs s) <= 10 ^ 8 →
  RecoverNextSeq (mkCState (NewChunkStore max) (mkWorld (backing (wd s1)) d)) = Ret u' s2 →
  wf_cs obj s2 ∧ obj (backing (wd s2)) (activeID (cs s2)) = None ∧
  ∀ id o b, holds (view obj s) id o b → holds (view obj s2) id o b.
Proof.
  move=> H HF Hmax Hq HR.
  pose proof (FlushActive_cases obj s H) as HF'. rw HF in HF'.
  destruct HF' as (Hw & _ & Ecs & Hdur).
  pose proof (RecoverNextSeq_cases obj max (mkWorld (backing (wd s1)) d) Hmax) as HR'.
  rw HR in HR'. destruct HR' as (Hw2 & Hb & _ & _ & _ & _ & Hfree & Ho).
  { move=> r Hr /=. apply (wf_unused _ _ Hw). rw Ecs /=. lia. }
  split_and!; [done..|]. move=> id o b /Hdur [Hid [Ho' [Hb' [data [Hd Hr]]]]].
  split_and!; [done..|]. exists data. split; [|done].
  rw /view. case_decide as E; [|by rw Ho].
  exfalso. rw - E Ho //= in Hfree. by rw Hfree in Hd.
Qed.

(** Sealing. [Seal] stores the whole buffer under the id of the active
    chunk and opens an empty chunk under a new id; if the store refuses, the
    buffer stays as it was. *)
Theorem Seal_rotates s :
  wf_cs obj s → nextSeq (cs s) + 1 < 2 ^ 63 →
  match Seal s with
  | Ret _ s' => activeBuf (cs s') = [] ∧ activeID (cs s') ≠ activeID (cs s) ∧
      (activeBuf (cs s) ≠ [] → view obj s' (activeID (cs s)) = Some (activeBuf (cs s))) ∧
      extends obj s s'
  | Fail _ s' => cs s' = cs s ∧ extends obj s s'
  | Crash => False
  end.
Proof.
  move=> H Hq. pose proof (sealLocked_cases obj s H Hq) as HS. revert HS. rw /Seal.
  destruct (sealLocked s) as [u s'|e s'|] => //=; [|by move=> [_ [? ?]]].
  move=> [Hw [Hx [Eb [_ [En [_ Hd]]]]]].
  assert (activeID (cs s') ≠ activeID (cs s)) as Hne.
  { rw (wf_id _ _ Hw). apply (active_ne obj s); [done|]. pose proof (wf_seq _ _ H). lia. }
  split_and!; [done..| |done]. move=> Hb. rw /view decide_False; [by apply Hd|by apply not_eq_sym].
Qed.

(** With chunk 99999999 in the store, recovery goes on with chunk 100000000. *)
Lemma max_seq_full ids : chunkID (10 ^ 8 - 1) ∈ ids → max_seq ids = 10 ^ 8 - 1.
Proof.
  intros Hin. destruct (max_seq_spec ids) as [Hb Hm]. assert (10 ^ 8 - 1 <= max_seq ids); [|lia].
  apply (Hm (chunkID (10 ^ 8 - 1))); [done|]. apply scan_chunk_id_format. lia.
Qed.

(** A chunk that is sealed replaces what the store has under its id. *)
Lemma Seal_replaces s : chunk_name (activeID (cs s)) = true → activeBuf (cs s) ≠ [] →
  match Seal s with
  | Ret _ s' => obj (backing (wd s')) (activeID (cs s)) = Some (activeBuf (cs s))
  | _ => True
  end.
Proof.
  intros Hn Hb. rw /Seal /sealLocked. destruct (Z.eqb_spec (len (activeBuf (cs s))) 0) as [E|_]; [by destruct (activeBuf (cs s))|].
  rw /in_world /on_backing. pose proof (Put_law (obj:=obj) (activeID (cs s)) (activeBuf (cs s)) (backing (wd s)) Hn) as HP.
  destruct (Put _ _ _) as [u b|e b|] => //=.
  specialize (HP _ Hn). rw decide_True // in HP. destruct (cache (cs s)) as [c|]; [|done]. simpl.
  rw /on_local /=. by destruct (put c (activeID (cs s)) (activeBuf (cs s)) (local (wd s))) as [x d|x d|].
Qed.

(** C36: past 10^8 chunks a session is no longer fresh: ["%08d"] reads at most
    eight characters of a chunk id, so that on every store that holds chunk
    99999999 the next session goes on with chunk 100000000, whatever the store
    has under that id; and the first chunk that the session seals replaces it. *)
Theorem RecoverNextSeq_overwrites max w :
  0 <= max < 2 ^ 62 → obj (backing w) (chunkID (10 ^ 8 - 1)) ≠ None →
  match RecoverNextSeq (mkCState (NewChunkStore max) w) with
  | Ret _ s => activeID (cs s) = chunkID (10 ^ 8) ∧
      (∀ k, chunk_name k = true → obj (backing (wd s)) k = obj (backing w) k) ∧
      ∀ data off e s1 s2, data ≠ [] → Append data off s = Ret e s1 → Seal s1 = Ret tt s2 →
        obj (backing (wd s2)) (chunkID (10 ^ 8)) = Some data
  | Fail _ s => cs s = NewChunkStore max
  | Crash => False
  end.
Proof.
  intros Hmax Ho. rw /RecoverNextSeq /in_world /on_backing. pose proof (List_law (obj:=obj) (backing w)) as HL. revert HL.
  destruct (List (backing w)) as [ids b|e b|] eqn:EL => //=; rw EL //=. intros [F Hids].
  assert (∀ q, 0 <= q < 2 ^ 63 → chunk_name (chunkID q) = true) as Hn by (intros q Hq; apply chunk_name_format; lia).
  rw max_seq_full; [|by apply Hids; [apply Hn|destruct (obj _ _)]].
  set (s := upd _ _). assert (activeID (cs s) = chunkID (10 ^ 8) ∧ activeBuf (cs s) = [] ∧ maxChunkSize (cs s) = max)
    as (Ea & Eb & Em) by (rw /s /= i64_small //).
  split_and!; [done|done|]. clearbody s. intros data off e s1 s2 Hd. rw /Append Em Eb. destruct (max <? len data) eqn:Hl; [done|].
  apply Z.ltb_ge in Hl. pose proof (len_nonneg data). change (len (@nil byte)) with 0.
  rw i64_small; [|rw /is_i64; lia]. destruct (Z.ltb_spec max (0 + len data)); [lia|].
  intros [= <- <-] HS.
  pose proof (Seal_replaces (upd (fun cs => set_activeDirty true (set_activeBuf (activeBuf cs ++ data) cs)) s)) as HR.
  rw HS /= Ea Eb in HR. by apply HR; [apply Hn|].
Qed.
End properties.

(** ** Witnesses *)

(** A store that holds chunks 99999999 and 100000000. *)
Definition full_disk : Disk :=
  mkDisk {[ Join "store" (chunkID 99999999) := ab; Join "store" (chunkID 100000000) := cde ]} [].

Lemma RecoverNextSeq_overwrites_witness : ∃ s s1 s2,
  RecoverNextSeq (mkCState (NewChunkStore 4) (mkWorld full_disk (mkDisk ∅ []))) = Ret tt s ∧
  demo_obj (backing (wd s)) (chunkID 100000000) = Some cde ∧
  (∃ e, Append ab 0 s = Ret e s1) ∧ Seal s1 = Ret tt s2 ∧
  demo_obj (backing (wd s2)) (chunkID 100000000) = Some ab.
Proof.
  set (r := mkCState (NewChunkStore 4) (mkWorld full_disk (mkDisk ∅ []))).
  set (s := default r (out_state (RecoverNextSeq r))). set (s1 := default s (out_state (Append ab 0 s))).
  set (s2 := default s1 (out_state (Seal s1))).
  assert (RecoverNextSeq r = Ret tt s) as H0 by by vm_compute.
  assert (∃ e, Append ab 0 s = Ret e s1) as [e H1] by (eexists; vm_compute; reflexivity).
  assert (Seal s1 = Ret tt s2) as H2 by by vm_compute.
  pose proof (RecoverNextSeq_overwrites demo_obj 4 (mkWorld full_disk (mkDisk ∅ [])) ltac:(lia) ltac:(by vm_compute)) as H.
  fold r in H. rw H0 in H. destruct H as (_ & Hk & Hd).
  exists s, s1, s2. split; [exact H0|]. split; [rw Hk; by vm_compute|]. split; [exists e; exact H1|]. split; [exact H2|].
  exact (Hd ab 0 e s1 s2 ltac:(discriminate) H1 H2).
Defined.

Definition demo_ops : list cs_op :=
  [OpAppend cde 2; OpFlush; OpRead "chunk-00000000" 0 ab; OpSeal].

Lemma chunk_log_survives_witness :
  ∃ s', run demo_obj demo_ab demo_ops s' ∧ wf_cs demo_obj s' ∧
    match Read "chunk-00000000" 0 2 s' with
    | Ret b' _ => b' = ab | Fail _ _ => "chunk-00000000" ≠ activeID (cs s') | Crash => False end.
Proof.
  set (step op s := default s (run_op op s)).
  set (s1 := step (OpAppend cde 2) demo_ab). set (s2 := step OpFlush s1).
  set (s3 := step (OpRead "chunk-00000000" 0 ab) s2). set (s4 := step OpSeal s3).
  assert (run demo_obj demo_ab demo_ops s4) as Hrun.
  { apply run_cons with s1; [by vm_compute|by vm_compute|].
    apply run_cons with s2; [done|by vm_compute|].
    apply run_cons with s3; [split; [|by vm_compute]|by vm_compute|].
    { split_and!; [done|done|done|]. exists ab. by vm_compute. }
    apply run_cons with s4; [by vm_compute|by vm_compute|]. apply run_nil. }
  exists s4. split; [exact Hrun|].
  apply (chunk_log_survives demo_obj demo_ab demo_ops s4 "chunk-00000000" 0 ab Hrun).
  - exact demo_ab_wf.
  - repeat constructor; apply not_elem_of_nil.
  - exact demo_ab_holds.
  - by vm_compute.
Defined.

Lemma chunk_ops_total_witness :
  ∃ s', run_op (OpAppend cde 2) demo_ab = Some s' ∧ wf_cs demo_obj s'.
Proof. apply (chunk_ops_total demo_obj); [exact demo_ab_wf|by vm_compute]. Defined.

Lemma Append_reads_back_witness :
  match Append cde 2 demo_ab with
  | Ret e s' => Read (Extent.ChunkID e) (Extent.ChunkOffset e) 3 s' = Ret cde s'
  | _ => False
  end.
Proof.
  pose proof (Append_reads_back demo_obj cde 2 demo_ab demo_ab_wf ltac:(by vm_compute) ltac:(done)) as H.
  destruct (Append cde 2 demo_ab) as [e s'|e s'|] eqn:E; [|by vm_compute in E..].
  destruct H as (EL & _ & _ & HR & _). rw EL in HR. exact HR.
Defined.

Lemma flush_then_recover_witness :
  ∃ s1 s2, FlushActive demo_ab = Ret tt s1 ∧
    RecoverNextSeq (mkCState (NewChunkStore 4) (mkWorld (backing (wd s1)) (mkDisk ∅ []))) = Ret tt s2 ∧
    holds (view demo_obj s2) "chunk-00000000" 0 ab.
Proof.
  set (s1 := default demo_ab (out_state (FlushActive demo_ab))).
  set (r := mkCState (NewChunkStore 4) (mkWorld (backing (wd s1)) (mkDisk ∅ []))).
  set (s2 := default r (out_state (RecoverNextSeq r))).
  assert (FlushActive demo_ab = Ret tt s1) as H1 by by vm_compute.
  assert (RecoverNextSeq r = Ret tt s2) as H2 by by vm_compute.
  exists s1, s2. split; [exact H1|]. split; [exact H2|].
  assert (nextSeq (cs demo_ab) <= 10 ^ 8) as Hq by by vm_compute.
  pose proof (flush_then_recover demo_obj (L:=demo_laws) demo_ab s1 tt 4 (mkDisk ∅ []) tt s2 demo_ab_wf H1) as Hx1.
  assert (0 <= 4 < 2 ^ 62) as H4 by lia.
  pose proof (Hx1 H4 Hq) as Hx2.
  pose proof (Hx2 H2) as Hx3.
  destruct Hx3 as (_ & _ & Hx).
  exact (Hx "chunk-00000000" 0 ab demo_ab_holds).
Defined.

Lemma Seal_rotates_witness :
  match Seal demo_ab with
  | Ret _ s' => view demo_obj s' "chunk-00000000" = Some ab
  | _ => False
  end.
Proof.
  pose proof (Seal_rotates demo_obj demo_ab demo_ab_wf ltac:(by vm_compute)) as H.
  destruct (Seal demo_ab) as [u s'|e s'|] eqn:E; [|by vm_compute in E..].
  apply H. by vm_compute.
Defined.
