(* ===== verification/Fuse.v ===== *)
(** The FUSE layer (src/internal/fuse/fs.go): the handlers of [Node] and
    [FileHandle] over the index and the chunk store.

    A node is its inode number. A handler takes the arguments of the request
    and the file system; where the source reads the clock, the time is an
    argument [now]. The go-fuse library's part of an answer ([NewInode],
    [NewListDirStream]) is represented by the data handed to it. *)
From S2P Require Import Prelude Types Extents Index OS Decimal Persist Store Cache ChunkStore.
#[local] Open Scope Z_scope.

Inductive Errno :=
  ENOENT | EIO | ENOTDIR | EEXIST | EINVAL | EPERM | ENOTEMPTY | ENOSPC | ENODATA | ERANGE.

(** [Fusey]; the disk on which [Fsync] saves the index is the local disk of
    the chunk store's world. *)
Record Fusey W := mkFusey {
  idx : Index;
  chunks : cstate W;
  maxFSSize : Z;
  cacheDir : string;
}.
Arguments mkFusey {W}. Arguments idx {W}. Arguments chunks {W}.
Arguments maxFSSize {W}. Arguments cacheDir {W}.

Definition set_idx {W} i (F : Fusey W) : Fusey W :=
  mkFusey i (chunks F) (maxFSSize F) (cacheDir F).
Definition set_chunks {W} s (F : Fusey W) : Fusey W :=
  mkFusey (idx F) s (maxFSSize F) (cacheDir F).

(** [fusefs.New] and [Root]: a node is its inode number. *)
Definition Fusey_New {W} (i : Index) (s : cstate W) (max : Z) (dir : string) : Fusey W := mkFusey i s max dir.
Definition Root {W} (F : Fusey W) : Z := RootIno.

(** ** Attributes *)

(** [gofuse.Attr]. *)
Module Attr.
Record t := mk {
  Ino : Z; Size : Z; Blocks : Z; Atime : Z; Mtime : Z; Ctime : Z;
  Atimensec : Z; Mtimensec : Z; Ctimensec : Z;
  Mode : Z; Nlink : Z; Uid : Z; Gid : Z; Rdev : Z; Blksize : Z;
}.
End Attr.

Definition nsec : Z := 1000000000.

Definition fillAttr (n : Inode.t) : Attr.t :=
  Attr.mk (Inode.Ino n) (u64 (Inode.Size n)) (u64 (Inode.Blocks n))
    (u64 (go_div (Inode.Atime n) nsec)) (u64 (go_div (Inode.Mtime n) nsec))
    (u64 (go_div (Inode.Ctime n) nsec))
    (u32 (go_mod (Inode.Atime n) nsec)) (u32 (go_mod (Inode.Mtime n) nsec))
    (u32 (go_mod (Inode.Ctime n) nsec))
    (Inode.FullMode n) (Inode.Nlink n) (Inode.UID n) (Inode.GID n) (Inode.Rdev n)
    (u32 (Inode.Blksize n)).

(** [attrTTL] and [entryTTL], in seconds. *)
Definition attrTTL : Z := 5.
Definition entryTTL : Z := 5.

(** [gofuse.AttrOut]. *)
Record AttrOut := mkAttrOut { ao_Attr : Attr.t; ao_AttrValid : Z }.

(** [gofuse.EntryOut] with the child node: its [StableAttr]. *)
Record EntryOut := mkEntryOut {
  eo_Attr : Attr.t; eo_EntryValid : Z; eo_AttrValid : Z; eo_Ino : Z; eo_Mode : Z }.

Definition entry_out (ino mode : Z) (n : Inode.t) : EntryOut :=
  mkEntryOut (fillAttr n) entryTTL attrTTL ino mode.

(** [gofuse.SetAttrIn], and the bits of its field [Valid]. *)
Module SetAttrIn.
Record t := mk {
  Valid : Z; Mode : Z; Uid : Z; Gid : Z; Size : Z;
  Atime : Z; Atimensec : Z; Mtime : Z; Mtimensec : Z }.
End SetAttrIn.

Record FattrBits := mkFattr {
  FATTR_MODE : Z; FATTR_UID : Z; FATTR_GID : Z; FATTR_SIZE : Z; FATTR_ATIME : Z; FATTR_MTIME : Z }.

(** The value when the bit is set: the [nil] pointer otherwise. *)
Definition when_bit (valid bit v : Z) : option Z :=
  if Z.land valid bit =? 0 then None else Some v.

Definition type_bits : Z :=
  Z.lor Regular (Z.lor Directory (Z.lor Symlink (Z.lor BlockDev (Z.lor CharDev (Z.lor Fifo Socket))))).

Definition unix_nano (sec ns : Z) : Z := i64 (i64 (i64 sec * nsec) + ns).

Section handlers.
Context {W : Type} {S : Store W} {C : CborCodec}.
Implicit Types F : Fusey W.

(** A call of an index operation; the handler maps its error. *)
Definition on_idx {A} (m : Index → outcome IdxErr Index A) (err : IdxErr → Errno) F
    : outcome Errno (Fusey W) A :=
  match m (idx F) with
  | Ret a i => Ret a (set_idx i F)
  | Fail e i => Fail (err e) (set_idx i F)
  | Crash => Crash
  end.

Definition on_chunks {A} (m : cstate W → outcome ChunkErr (cstate W) A) (err : Errno) F
    : outcome Errno (Fusey W) A :=
  match m (chunks F) with
  | Ret a s => Ret a (set_chunks s F)
  | Fail _ s => Fail err (set_chunks s F)
  | Crash => Crash
  end.

(** ** Node *)

Definition Getattr (ino : Z) F : outcome Errno (Fusey W) AttrOut :=
  match GetInode (idx F) ino with
  | (_, false) => Fail ENOENT F
  | (n, true) => Ret (mkAttrOut (fillAttr n) attrTTL) F
  end.

Definition Setattr (B : FattrBits) (ino : Z) (inp : SetAttrIn.t) (now : Z) F
    : outcome Errno (Fusey W) AttrOut :=
  let valid := SetAttrIn.Valid inp in
  let mode := when_bit valid (FATTR_MODE B) (Z.ldiff (SetAttrIn.Mode inp) type_bits) in
  let uid := when_bit valid (FATTR_UID B) (SetAttrIn.Uid inp) in
  let gid := when_bit valid (FATTR_GID B) (SetAttrIn.Gid inp) in
  let size := when_bit valid (FATTR_SIZE B) (i64 (SetAttrIn.Size inp)) in
  let atime := when_bit valid (FATTR_ATIME B)
                 (unix_nano (SetAttrIn.Atime inp) (SetAttrIn.Atimensec inp)) in
  let mtime := when_bit valid (FATTR_MTIME B)
                 (unix_nano (SetAttrIn.Mtime inp) (SetAttrIn.Mtimensec inp)) in
  let! _, F := on_idx (SetAttr ino mode uid gid size atime mtime now) (fun _ => EIO) F in
  match GetInode (idx F) ino with
  | (_, false) => Fail ENOENT F
  | (n, true) => Ret (mkAttrOut (fillAttr n) attrTTL) F
  end.

Definition Lookup (ino : Z) (name : string) F : outcome Errno (Fusey W) EntryOut :=
  match Index_Lookup (idx F) ino name with
  | (_, false) => Fail ENOENT F
  | (childIno, true) =>
      match GetInode (idx F) childIno with
      | (_, false) => Fail ENOENT F
      | (n, true) => Ret (entry_out childIno (Inode.FileType n) n) F
      end
  end.

(** A directory stream: mode, name and inode of each entry. *)
Definition dirent : Type := Z * string * Z.

Definition Readdir (ino : Z) F : outcome Errno (Fusey W) (list dirent) :=
  match GetInode (idx F) ino with
  | (_, false) => Fail ENOENT F
  | (n, true) =>
  if decide (Inode.FileType n ≠ Directory) then Fail ENOTDIR F else
  match Index_Readdir (idx F) ino with
  | Err _ => Fail EIO F
  | Ok entries =>
      let parentIno := GetParentIno (idx F) ino in
      Ret ((Directory, "."%string, ino) :: (Directory, ".."%string, parentIno) ::
           omap (fun e =>
             match GetInode (idx F) (DirEntry.ChildIno e) with
             | (_, false) => None
             | (c, true) => Some (Inode.FileType c, DirEntry.Name e, DirEntry.ChildIno e)
             end) entries) F
  end end.

(** The user and group of the request's caller, if the context has one. *)
Definition caller_ids (caller : option (Z * Z)) : Z * Z := default (0, 0) caller.

(** The common part of [Create], [Mkdir] and [Symlink]. *)
Definition create_entry (ft perm : Z) (caller : option (Z * Z)) (ino : Z) (name : string)
    (now : Z) F : outcome Errno (Fusey W) Z :=
  let (uid, gid) := caller_ids caller in
  let! child, F := on_idx (CreateInode ft perm uid gid 0 now) (fun _ => EIO) F in
  let! _, F := on_idx (AddDirEntry ino name child now) (fun _ => EEXIST) F in
  Ret child F.

(** The child node and the handle of the opened file, both its inode number. *)
Definition Create (ino : Z) (name : string) (mode : Z) (caller : option (Z * Z)) (now : Z) F
    : outcome Errno (Fusey W) (EntryOut * Z) :=
  let perm := Z.land mode 0xFFF in
  let! child, F := create_entry Regular perm caller ino name now F in
  Ret (entry_out child Regular (GetInode (idx F) child).1, child) F.

Definition Mkdir (ino : Z) (name : string) (mode : Z) (caller : option (Z * Z)) (now : Z) F
    : outcome Errno (Fusey W) EntryOut :=
  let perm := Z.land mode 0xFFF in
  let! child, F := create_entry Directory perm caller ino name now F in
  Ret (entry_out child Directory (GetInode (idx F) child).1) F.

Definition Node_Symlink (ino : Z) (target name : string) (caller : option (Z * Z)) (now : Z) F
    : outcome Errno (Fusey W) EntryOut :=
  let! child, F := create_entry Symlink 0x1FF caller ino name now F in
  let! _, F := on_idx (SetSymlink child target now) (fun _ => EIO) F in
  Ret (entry_out child Symlink (GetInode (idx F) child).1) F.

Definition Readlink (ino : Z) F : outcome Errno (Fusey W) bytes :=
  match GetSymlink (idx F) ino with
  | None => Fail EINVAL F
  | Some target => Ret (String.list_byte_of_string target) F
  end.

(** [target] is [None] when it is not a [*Node]. *)
Definition Link (ino : Z) (target : option Z) (name : string) (now : Z) F
    : outcome Errno (Fusey W) EntryOut :=
  match target with
  | None => Fail EINVAL F
  | Some t =>
  match GetInode (idx F) t with
  | (_, false) => Fail ENOENT F
  | (n, true) =>
  if decide (Inode.FileType n = Directory) then Fail EPERM F else
  let! _, F := on_idx (AddDirEntry ino name t now) (fun _ => EEXIST) F in
  let n := (GetInode (idx F) t).1 in
  Ret (entry_out t (Inode.FileType n) n) F
  end end.

Definition Unlink (ino : Z) (name : string) (now : Z) F : outcome Errno (Fusey W) unit :=
  on_idx (RemoveDirEntry ino name now) (fun _ => ENOENT) F.

(** [strings.Contains(err.Error(), "not empty")]: the message of
    [RemoveDirEntry] for a directory with entries is "directory %d is
    not empty"; the entry name in another message may contain the words too. *)
Fixpoint contains (needle s : string) : bool :=
  match strip_prefix needle s with
  | Some _ => true
  | None => match s with EmptyString => false | String _ s => contains needle s end
  end.

Definition mentions_not_empty (e : IdxErr) : bool :=
  match e with
  | DirNotEmpty _ => true
  | EntryNotFound name _ => contains "not empty" name
  | _ => false
  end.

Definition Rmdir (ino : Z) (name : string) (now : Z) F : outcome Errno (Fusey W) unit :=
  match Index_Lookup (idx F) ino name with
  | (_, false) => Fail ENOENT F
  | (childIno, true) =>
  match GetInode (idx F) childIno with
  | (_, false) => Fail ENOENT F
  | (n, true) =>
  if decide (Inode.FileType n ≠ Directory) then Fail ENOTDIR F else
  on_idx (RemoveDirEntry ino name now)
    (fun e => if mentions_not_empty e then ENOTEMPTY else EIO) F
  end end.

(** The flags of the request are ignored. *)
Definition Node_Rename (ino : Z) (name : string) (newParent : option Z) (newName : string)
    (now : Z) F : outcome Errno (Fusey W) unit :=
  match newParent with
  | None => Fail EINVAL F
  | Some np => on_idx (Index_Rename ino name np newName now) (fun _ => EIO) F
  end.

(** The handle is the inode number. *)
Definition Open (ino : Z) F : outcome Errno (Fusey W) Z :=
  match GetInode (idx F) ino with
  | (_, false) => Fail ENOENT F
  | (_, true) => Ret ino F
  end.

(** [gofuse.StatfsOut]; dividing by a block size of zero panics. *)
Record StatfsOut := mkStatfs {
  Blocks : Z; Bfree : Z; Bavail : Z; Files : Z; Ffree : Z; Bsize : Z; NameLen : Z; Frsize : Z }.

Definition Statfs F : outcome Errno (Fusey W) StatfsOut :=
  let used := UsedBytes (idx F) in
  let total := maxFSSize F in
  let free := total -! used in
  let free := if free <? 0 then 0 else free in
  let bsize := u64 (BlockSz (idx F)) in
  if bsize =? 0 then Crash else
  let bfree := u64 free / bsize in
  let files := u64 total / 4096 in
  Ret (mkStatfs (u64 total / bsize) bfree bfree files files (u32 bsize) 255 (u32 bsize)) F.

(** ** Extended attributes *)

(** [destLen] is [len(dest)]; the answer is the count and the bytes copied to
    the front of [dest]. *)
Definition copy_out (destLen : Z) (v : bytes) F : outcome Errno (Fusey W) (Z * bytes) :=
  if destLen =? 0 then Ret (u32 (len v), []) F
  else if destLen <? len v then Fail ERANGE F
  else Ret (u32 (len v), v) F.

Definition Getxattr (ino : Z) (attr : string) (destLen : Z) F
    : outcome Errno (Fusey W) (Z * bytes) :=
  match GetXattrs (idx F) ino !! attr with
  | None => Fail ENODATA F
  | Some v => copy_out destLen (String.list_byte_of_string v) F
  end.

Definition Setxattr (ino : Z) (attr : string) (data : bytes) (now : Z) F
    : outcome Errno (Fusey W) unit :=
  on_idx (SetXattr ino attr (String.string_of_list_byte data) now) (fun _ => EIO) F.

(** The names in the order in which the loop meets them, each followed by a
    zero byte. *)
Definition Listxattr (ino : Z) (destLen : Z) F : outcome Errno (Fusey W) (Z * bytes) :=
  let attrs := GetXattrs (idx F) ino in
  copy_out destLen
    (flat_map (fun kv => String.list_byte_of_string kv.1 ++ [zero_byte]) (map_to_list attrs)) F.

Definition Removexattr (ino : Z) (attr : string) (now : Z) F : outcome Errno (Fusey W) unit :=
  on_idx (RemoveXattr ino attr now) (fun _ => ENODATA) F.

(** ** FileHandle *)

Definition max64 (a b : Z) : Z := if a >? b then a else b.
Definition min64 (a b : Z) : Z := if a <? b then a else b.

(** [copy(buf[at:], data)]; the slice expression panics out of bounds. *)
Definition copy_at (buf : bytes) (at_ : Z) (data : bytes) : option bytes :=
  if (0 <=? at_) && (at_ <=? len buf) then
    let k := Z.to_nat at_ in
    let n := Nat.min (length buf - k) (length data) in
    Some (take k buf ++ take n data ++ drop (k + n) buf)
  else None.

(** The body of the loop of [FileHandle.Read], for one extent. *)
Definition read_one (off end_ : Z) (e : Extent.t) (buf : bytes) F : outcome Errno (Fusey W) bytes :=
  if (eEnd e <=? off) || (Extent.FileOffset e >=? end_) then Ret buf F
  else
    let readStart := max64 off (Extent.FileOffset e) in
    let readEnd := min64 end_ (eEnd e) in
    let chunkOffset := Extent.ChunkOffset e +! (readStart -! Extent.FileOffset e) in
    let! data, F :=
      on_chunks (Read (Extent.ChunkID e) chunkOffset (readEnd -! readStart)) EIO F in
    match copy_at buf (readStart -! off) data with
    | None => Crash
    | Some buf => Ret buf F
    end.

Fixpoint read_loop (off end_ : Z) (exts : list Extent.t) (buf : bytes) F
    : outcome Errno (Fusey W) bytes :=
  match exts with
  | [] => Ret buf F
  | e :: exts => let! buf, F := read_one off end_ e buf F in read_loop off end_ exts buf F
  end.

(** [destLen] is [len(dest)]. *)
Definition FileHandle_Read (ino destLen off now : Z) F : outcome Errno (Fusey W) bytes :=
  match GetInode (idx F) ino with
  | (_, false) => Fail ENOENT F
  | (n, true) =>
  if off >=? Inode.Size n then Ret [] F else
  let end_ := off +! destLen in
  let end_ := if end_ >? Inode.Size n then Inode.Size n else end_ in
  let need := end_ -! off in
  match GetExtents (idx F) ino with
  | None => Ret [] F
  | Some exts =>
      if need <? 0 then Crash else
      let! buf, F := read_loop off end_ exts (replicate (Z.to_nat need) zero_byte) F in
      Ret buf (set_idx (TouchAtime ino now (idx F)) F)
  end end.

Definition FileHandle_Write (ino : Z) (data : bytes) (off now : Z) F : outcome Errno (Fusey W) Z :=
  match GetInode (idx F) ino with
  | (_, false) => Fail ENOENT F
  | (n, true) =>
  let newEnd := off +! len data in
  if (newEnd >? Inode.Size n) &&
     (UsedBytes (idx F) +! (newEnd -! Inode.Size n) >? maxFSSize F)
  then Fail ENOSPC F else
  let! ext, F := on_chunks (Append data off) EIO F in
  let! _, F := on_idx (WriteExtent ino ext now) (fun _ => EIO) F in
  Ret (u32 (len data)) F
  end.

Definition FileHandle_Flush F : outcome Errno (Fusey W) unit := Ret tt F.

(** [index.Save] on the local disk. *)
Definition save_index (dir : string) F : outcome Errno (Fusey W) unit :=
  let w := wd (chunks F) in
  let put_back i d :=
    set_idx i (set_chunks (mkCState (cs (chunks F)) (mkWorld (backing w) d)) F) in
  match Save dir (idx F, local w) with
  | Ret _ (i, d) => Ret tt (put_back i d)
  | Fail _ (i, d) => Fail EIO (put_back i d)
  | Crash => Crash
  end.

Definition Fsync F : outcome Errno (Fusey W) unit :=
  let! _, F := on_chunks FlushActive EIO F in
  if decide (cacheDir F ≠ ""%string) then save_index (cacheDir F) F else Ret tt F.
End handlers.
