(* ===== verification/FuseData.v ===== *)
(** The data path of the FUSE layer: what a file contains, and that
    [FileHandle.Read] returns it and [FileHandle.Write] changes it as asked. *)
From S2P Require Import Prelude Types Extents Index IndexInv OS Decimal Persist Store Cache ChunkStore Fuse.
#[local] Open Scope Z_scope.

(** ** Copying into a buffer *)

Lemma copy_at_spec buf at_ (data : bytes) :
  0 <= at_ → at_ + len data <= len buf →
  ∃ buf', copy_at buf at_ data = Some buf' ∧ len buf' = len buf ∧
    ∀ j, 0 <= j → buf' !! Z.to_nat j =
      if decide (at_ <= j < at_ + len data) then data !! Z.to_nat (j - at_) else buf !! Z.to_nat j.
Proof.
  rw /copy_at /len => H1 H2. pose proof (Nat2Z.is_nonneg (length data)).
  assert ((0 <=? at_) && (at_ <=? Z.of_nat (length buf)) = true) as -> by lia.
  eexists. split; [done|].
  rw Nat.min_r; [|lia]. rw (take_ge data); [|lia]. split.
  { rw !length_app length_take length_drop. lia. }
  move=> j Hj. case_decide.
  - rw lookup_app_r; rw length_take; [|lia]. rw lookup_app_l; [f_equal; lia|lia].
  - destruct (decide (j < at_)).
    + rw lookup_app_l; [|rw length_take; lia]. by rw lookup_take_lt; [|lia].
    + rw lookup_app_r; rw length_take; [|lia]. rw lookup_app_r; [|lia].
      rw lookup_drop. f_equal. lia.
Qed.

Section data.
Context {W : Type} {S : Store W} (obj : W → string → option bytes) {L : StoreLaws S obj}.
Implicit Types s : cstate W.
Implicit Types F : Fusey W.

(** ** The bytes of a file *)

(** The byte at offset [co] of chunk [id]. *)
Definition stored s (id : string) (co : Z) : option byte :=
  view obj s id ≫= lookup (Z.to_nat co).

(** The byte at offset [o] of a file with these extents; a hole reads as
    zero. *)
Definition content s (exts : list Extent.t) (o : Z) : option byte :=
  match locate exts o with
  | Some (id, co) => stored s id co
  | None => Some zero_byte
  end.

(** The chunk store holds what the extent names. *)
Definition ext_data s (e : Extent.t) (b : bytes) : Prop :=
  len b = Extent.Length e ∧ holds (view obj s) (Extent.ChunkID e) (Extent.ChunkOffset e) b.

Definition good_ext s (e : Extent.t) : Prop := wf_extent e ∧ ∃ b, ext_data s e b.

Lemma holds_pos (v : string → option bytes) id o b : holds v id o b → 0 < len b.
Proof. move=> [_ [_ [Hb _]]]. destruct b => //. Qed.

Lemma good_ext_pos s e : good_ext s e → 0 < Extent.Length e.
Proof. move=> [_ [b [<- /holds_pos]]]. done. Qed.

Lemma holds_lookup (v : string → option bytes) id o b j :
  holds v id o b → 0 <= j < len b →
  v id ≫= lookup (Z.to_nat (o + j)) = b !! Z.to_nat j.
Proof.
  move=> [_ [Ho [_ [data [-> [Hl Hs]]]]]] Hj /=. rw -{1}Hs.
  rw lookup_slice; [|lia..]. f_equal. lia.
Qed.

(** A part of what a chunk holds. *)
Lemma holds_sub (v : string → option bytes) id o b j n :
  holds v id o b → 0 <= j → 0 < n → j + n <= len b → holds v id (o + j) (slice b j n).
Proof.
  move=> [Hid [Ho [_ [data [Hv [Hl Hs]]]]]] Hj Hn Hb.
  assert (len (slice b j n) = n) as En by (apply len_slice; lia).
  split_and!; [done|lia| |].
  - move=> E. rw E /len /= in En. lia.
  - exists data. rw En. split_and!; [done|lia|]. rw -{1}Hs slice_slice //; lia.
Qed.

(** Where an extent covers an offset, the byte is the extent's. *)
Lemma ext_data_stored s e b o :
  ext_data s e b → covers e o →
  stored s (Extent.ChunkID e) (Extent.ChunkOffset e + (o - Extent.FileOffset e)) =
  b !! Z.to_nat (o - Extent.FileOffset e).
Proof. move=> [El Hh] Hc. apply holds_lookup => //. rw El. rw /covers in Hc. lia. Qed.

Lemma good_ext_extends s s' e : extends obj s s' → good_ext s e → good_ext s' e.
Proof. move=> Hx [Hw [b [El Hh]]]. split; [done|]. exists b. split; [done|]. by apply Hx. Qed.

Lemma locate_Some exts o id co :
  locate exts o = Some (id, co) →
  ∃ e, e ∈ exts ∧ covers e o ∧ id = Extent.ChunkID e ∧
    co = Extent.ChunkOffset e + (o - Extent.FileOffset e).
Proof.
  elim: exts => [//|e exts IH] /=. destruct (locate exts o) as [[id' co']|].
  - move=> /IH [e' [? ?]]. exists e'. split; [by right|done].
  - rw /point. case_decide => // -[<- <-]. exists e. split; [by left|done].
Qed.

(** Growing the log does not change a file. *)
Lemma content_agree s s' exts o :
  (∀ e b, e ∈ exts → ext_data s e b → ext_data s' e b) → Forall (good_ext s) exts → content s' exts o = content s exts o.
Proof.
  move=> Hx Hg. rw /content. destruct (locate exts o) as [[id co]|] eqn:E; [|done].
  apply locate_Some in E as (e & He & Hc & -> & ->).
  rw Forall_forall in Hg. destruct (Hg e He) as [_ [b Hb]].
  rw (ext_data_stored s e b) // (ext_data_stored s' e b) //. by apply Hx.
Qed.

Lemma content_extends s s' exts o :
  extends obj s s' → Forall (good_ext s) exts → content s' exts o = content s exts o.
Proof. move=> Hx. apply content_agree => e b _ [? ?]. split; [done|]. by apply Hx. Qed.

(** Every byte of a good file can be read. *)
Lemma content_is_Some s exts o : Forall (good_ext s) exts → is_Some (content s exts o).
Proof.
  move=> Hg. rw /content. destruct (locate exts o) as [[id co]|] eqn:E; [|done].
  apply locate_Some in E as (e & He & Hc & -> & ->).
  rw Forall_forall in Hg. destruct (Hg e He) as [_ [b Hb]].
  rw (ext_data_stored s e b) //. apply lookup_lt_is_Some_2.
  destruct Hb as [El _]. rw /covers in Hc. rw /len in El. lia.
Qed.

Lemma content_snoc s exts e o :
  content s (exts ++ [e]) o =
  if decide (covers e o)
  then stored s (Extent.ChunkID e) (Extent.ChunkOffset e + (o - Extent.FileOffset e))
  else content s exts o.
Proof. rw /content locate_app /= /point. by case_decide. Qed.

(** Writing an extent replaces its range, where no extent but the last is
    split. *)
Lemma content_write s exts ext data o :
  Forall wf_extent exts → good_ext s ext → ext_data s ext data →
  no_inner_split (Extent.FileOffset ext) (eEnd ext) exts = true →
  content s (write_extents [] exts ext) o =
  if decide (Extent.FileOffset ext <= o < Extent.FileOffset ext + len data)
  then data !! Z.to_nat (o - Extent.FileOffset ext) else content s exts o.
Proof.
  move=> Hwf Hg Hd Hns. rw write_extents_correct // /content locate_write_spec //; [|apply Hg].
  assert (covers ext o ↔ Extent.FileOffset ext <= o < Extent.FileOffset ext + len data) as Hc.
  { rw /covers (proj1 Hd) //. }
  destruct (decide (covers ext o)) as [Hco|Hco].
  - rw decide_True; [|by apply Hc]. rw /point decide_True // (ext_data_stored s ext data) //.
  - rw decide_False //. by rw - Hc.
Qed.

(** ** Reading *)

(** A handler that only read chunks. *)
Definition only_read F F' : Prop :=
  idx F' = idx F ∧ maxFSSize F' = maxFSSize F ∧ cacheDir F' = cacheDir F ∧
  cs (chunks F') = cs (chunks F) ∧ wf_cs obj (chunks F') ∧ extends obj (chunks F) (chunks F').

Lemma only_read_refl F : wf_cs obj (chunks F) → only_read F F.
Proof. move=> H. by split_and!. Qed.

Lemma only_read_trans F1 F2 F3 : only_read F1 F2 → only_read F2 F3 → only_read F1 F3.
Proof.
  move=> [? [? [? [? [? ?]]]]] [? [? [? [? [? ?]]]]]. split_and!; try congruence. by etrans.
Qed.

Lemma quiet_only_read F s : quiet obj (chunks F) s → only_read F (set_chunks s F).
Proof. move=> Hq. split_and!; [done..|by apply Hq|by apply Hq|by apply quiet_extends]. Qed.

(** The part of an extent that a read wants: what the chunk store is asked
    for, and what it answers. *)
Lemma read_part F e off end_ :
  wf_cs obj (chunks F) → good_ext (chunks F) e → 0 <= off → end_ <= int64_max →
  off < eEnd e → Extent.FileOffset e < end_ → off < end_ →
  let readStart := max64 off (Extent.FileOffset e) in
  let readEnd := min64 end_ (eEnd e) in
  match on_chunks (Read (Extent.ChunkID e)
          (Extent.ChunkOffset e +! (readStart -! Extent.FileOffset e)) (readEnd -! readStart)) EIO F with
  | Ret data F' => only_read F F' ∧ len data = readEnd - readStart ∧
      ∀ o, readStart <= o < readEnd → data !! Z.to_nat (o - readStart) =
        stored (chunks F) (Extent.ChunkID e) (Extent.ChunkOffset e + (o - Extent.FileOffset e))
  | Fail e F' => e = EIO ∧ only_read F F'
  | Crash => False
  end.
Proof.
  move=> H [Hw [b Hb]] Ho Hm H1 H2 H3 rs re. pose proof Hb as [El Hh].
  pose proof (holds_pos _ _ _ _ Hh).
  rw (eEnd_wf _ Hw) in H1. destruct Hw as (?&?&?&?&?).
  assert (rs = Z.max off (Extent.FileOffset e)) as Ers by (rw /rs /max64 Z.gtb_ltb; zcases; lia).
  assert (re = Z.min end_ (Extent.FileOffset e + Extent.Length e)) as Ere.
  { rw /re /min64 /eEnd i64_small; [|rw /is_i64; lia]. zcases; lia. }
  clearbody rs re. rw !(i64_small (_ - _)); [|rw /is_i64; lia..].
  rw i64_small; [|rw /is_i64; lia].
  set (j := rs - Extent.FileOffset e).
  assert (holds (view obj (chunks F)) (Extent.ChunkID e) (Extent.ChunkOffset e + j) (slice b j (re - rs))) as Hs.
  { apply holds_sub => //; rw ?El /j; lia. }
  assert (len (slice b j (re - rs)) = re - rs) as Els by (apply len_slice; rw ?El /j; lia).
  pose proof (Read_cases obj (chunks F) _ _ _ H Hs) as HR. rw Els in HR.
  specialize (HR ltac:(rw /j; lia)). rw /on_chunks. revert HR.
  destruct (Read _ _ _ (chunks F)) as [data s'|er s'|] => //=.
  - move=> [-> Hq]. split; [by apply quiet_only_read|]. split; [done|].
    move=> o Hr. rw (ext_data_stored _ e b) //; [|rw /covers; lia].
    rw lookup_slice; [|rw /j; lia..]. f_equal. rw /j. lia.
  - move=> [_ Hq]. split; [done|by apply quiet_only_read].
Qed.

(** One extent: the buffer then holds the content of the extents met so far. *)
Definition holds_content off end_ s (pre : list Extent.t) (buf : bytes) : Prop :=
  len buf = end_ - off ∧ ∀ o, off <= o < end_ → buf !! Z.to_nat (o - off) = content s pre o.

Lemma holds_content_skip off end_ s pre e buf :
  (∀ o, off <= o < end_ → ~ covers e o) → holds_content off end_ s pre buf → holds_content off end_ s (pre ++ [e]) buf.
Proof.
  move=> Hn [Hl Hb]. split; [done|]. move=> o Ho. rw content_snoc decide_False; [by apply Hb|by apply Hn].
Qed.

Lemma holds_content_extends off end_ s s' pre buf : extends obj s s' → Forall (good_ext s) pre →
  holds_content off end_ s pre buf → holds_content off end_ s' pre buf.
Proof. move=> Hx Hg [Hl Hb]. split; [done|]. move=> o Ho. rw (content_extends s s') //. by apply Hb. Qed.

Lemma read_one_cases off end_ e pre buf F :
  wf_cs obj (chunks F) → Forall (good_ext (chunks F)) pre → good_ext (chunks F) e →
  0 <= off < end_ → end_ <= int64_max → holds_content off end_ (chunks F) pre buf →
  match read_one off end_ e buf F with
  | Ret buf' F' => only_read F F' ∧ holds_content off end_ (chunks F) (pre ++ [e]) buf'
  | Fail e F' => e = EIO ∧ only_read F F'
  | Crash => False
  end.
Proof.
  move=> H Hg He Ho Hm Hbuf. rw /read_one. pose proof (proj1 He) as Hw. rw Z.geb_leb.
  destruct (Z.leb_spec (eEnd e) off) as [Hlo|Hlo]; simpl.
  { split; [by apply only_read_refl|]. apply holds_content_skip => // o Hr.
    rw (eEnd_wf _ Hw) in Hlo. rw /covers. lia. }
  destruct (Z.leb_spec end_ (Extent.FileOffset e)) as [Hhi|Hhi]; simpl.
  { split; [by apply only_read_refl|]. apply holds_content_skip => // o Hr. rw /covers. lia. }
  pose proof (read_part F e off end_ H He) as HR.
  specialize (HR ltac:(lia) ltac:(lia) Hlo Hhi ltac:(lia)). revert HR. cbv zeta.
  set (rs := max64 off _). set (re := min64 end_ _).
  destruct (on_chunks _ EIO F) as [data F1|er F1|] => //=. move=> [Hor [Hld Hdata]].
  assert (rs = Z.max off (Extent.FileOffset e)) as Ers by (rw /rs /max64 Z.gtb_ltb; zcases; lia).
  assert (re = Z.min end_ (Extent.FileOffset e + Extent.Length e)) as Ere.
  { rw /re /min64 (eEnd_wf _ Hw). zcases; lia. }
  rw (eEnd_wf _ Hw) in Hlo. pose proof (good_ext_pos _ _ He).
  destruct Hw as (?&?&?&?&?). rw i64_small; [|rw /is_i64; lia]. destruct Hbuf as [Hl Hbuf].
  destruct (copy_at_spec buf (rs - off) data) as (buf' & -> & Hl' & Hbuf'); [lia|lia|].
  split; [done|]. split; [lia|]. move=> o Hr. rw content_snoc Hbuf'; [|lia].
  destruct (decide (covers e o)) as [Hc|Hc]; rw /covers in Hc.
  - rw decide_True; [|lia]. rw - Hdata; [|lia]. f_equal. lia.
  - rw decide_False; [|lia]. by apply Hbuf.
Qed.

(** The loop. *)
Lemma read_loop_cases off end_ exts : ∀ pre buf F,
  wf_cs obj (chunks F) → Forall (good_ext (chunks F)) (pre ++ exts) →
  0 <= off < end_ → end_ <= int64_max → holds_content off end_ (chunks F) pre buf →
  match read_loop off end_ exts buf F with
  | Ret buf' F' => only_read F F' ∧ holds_content off end_ (chunks F) (pre ++ exts) buf'
  | Fail e F' => e = EIO ∧ only_read F F'
  | Crash => False
  end.
Proof.
  elim: exts => [|e exts IH] pre buf F H Hg Ho Hm Hbuf.
  { rw app_nil_r. split; [by apply only_read_refl|done]. }
  rw cons_middle (assoc_L (++)) in Hg |- *. simpl.
  pose proof Hg as [[Hgp He]%Forall_app Hge]%Forall_app. rw Forall_singleton in He.
  pose proof (read_one_cases off end_ e pre buf F H Hgp He Ho Hm Hbuf) as HR. revert HR.
  destruct (read_one off end_ e buf F) as [buf1 F1|er F1|] => //=. move=> [Hor Hb1].
  destruct (Hor) as (_ & _ & _ & _ & Hw1 & Hx).
  assert (Forall (good_ext (chunks F1)) ((pre ++ [e]) ++ exts)) as Hg1.
  { eapply Forall_impl; [done|]. move=> x. by apply good_ext_extends. }
  assert (holds_content off end_ (chunks F1) (pre ++ [e]) buf1) as Hb1'.
  { apply (holds_content_extends off end_ (chunks F)) => //. by apply Forall_app; split; [|by apply Forall_singleton]. }
  pose proof (IH (pre ++ [e]) buf1 F1 Hw1 Hg1 Ho Hm Hb1') as HI. revert HI.
  destruct (read_loop off end_ exts buf1 F1) as [b2 F2|er F2|] => //.
  - move=> [Hor2 [Hl2 Hb2]]. split; [by eapply only_read_trans|]. split; [done|].
    move=> o Hr. rw Hb2 //. by apply content_extends.
  - move=> [-> Hor2]. split; [done|by eapply only_read_trans].
Qed.
End data.
