(* ===== verification/FuseInv.v ===== *)
(** The invariant that ties the index to the chunk store, and that every
    request of the FUSE layer preserves it. *)
From S2P Require Import Prelude Types Extents Index IndexInv OS Decimal Persist Store Cache ChunkStore Fuse FuseData.
#[local] Open Scope Z_scope.

(** ** Extents and sizes under the index operations *)

(** The extents and the size of a regular file. *)
Definition finfo (i : Index) (ino : Z) : option (option (list Extent.t) * Z) :=
  match inodes i !! ino with
  | Some n => if decide (Inode.FileType n = Regular)
              then Some (extents i !! ino, Inode.Size n) else None
  | None => None
  end.

(** Every file of [j] is a file of [i] with the same extents and size, or is
    empty. *)
Definition data_le (i j : Index) : Prop :=
  ∀ ino f, finfo j ino = Some f → finfo i ino = Some f ∨ f = (Some [], 0).

#[global] Instance data_le_preorder : PreOrder data_le.
Proof.
  split; [by move=> i ino f; left|].
  move=> i j k H1 H2 ino f Hf. destruct (H2 _ _ Hf) as [Hf'| ->]; [by apply H1|by right].
Qed.

Lemma data_le_same i j : (∀ ino, finfo j ino = finfo i ino) → data_le i j.
Proof. move=> E ino f. rw E. by left. Qed.

(** An update that keeps type and size. *)
Definition keeps (f : Inode.t → Inode.t) : Prop :=
  ∀ n, Inode.Size (f n) = Inode.Size n ∧ Inode.FileType (f n) = Inode.FileType n.

Lemma finfo_on_inode ino f i k : keeps f → finfo (on_inode ino f i) k = finfo i k.
Proof.
  move=> Hf. rw /finfo /=. destruct (decide (k = ino)) as [->|]; [|by rw lookup_alter_ne].
  rw lookup_alter_eq. destruct (inodes i !! ino) as [n|] => //=. by destruct (Hf n) as [-> ->].
Qed.

Lemma data_le_on_inode ino f i : keeps f → data_le i (on_inode ino f i).
Proof. move=> Hf. apply data_le_same => k. by apply finfo_on_inode. Qed.

Lemma data_le_mark i : data_le i (mark_dirty i).
Proof. by apply data_le_same. Qed.

Lemma data_le_dirs f i : data_le i (on_dirIndex f i).
Proof. by apply data_le_same. Qed.

Lemma data_le_free ino i : data_le i (free_inode ino i).
Proof.
  move=> k f. rw /finfo /=. destruct (decide (k = ino)) as [->|]; [by rw lookup_delete_eq|].
  rw !lookup_delete_ne //. by left.
Qed.

(** [dle] follows the chain of updates of an operation. *)
Ltac dle :=
  repeat lazymatch goal with
  | |- data_le _ (mark_dirty _) => etrans; [|apply data_le_mark]
  | |- data_le _ (free_inode _ _) => etrans; [|apply data_le_free]
  | |- data_le _ (on_dirIndex _ _) => etrans; [|apply data_le_dirs]
  | |- data_le _ (on_inode _ _ _) => etrans; [|by apply data_le_on_inode]
  | |- data_le _ (if ?b then _ else _) => destruct b
  | |- _ => reflexivity
  end.

(** The state that a call leaves. *)
Definition leaves {E A} (R : Index → Prop) (m : outcome E Index A) : Prop :=
  ∀ j, out_state m = Some j → R j.

Lemma CreateInode_data ft mode uid gid rdev now i :
  leaves (data_le i) (CreateInode ft mode uid gid rdev now i).
Proof.
  move=> j /= [<-] ino f. rw /finfo.
  destruct (decide (ino = nextIno i)) as [->|Hne].
  - do 2 case_decide; rw /= ?lookup_insert_eq //=; case_decide => // -[<-]; by right.
  - do 2 case_decide; rw /= ?lookup_insert_ne //; by left.
Qed.

Lemma AddDirEntry_data p nm c now i : leaves (data_le i) (AddDirEntry p nm c now i).
Proof. move=> j. rw /AddDirEntry. repeat case_match; move=> //= [<-]; dle. Qed.

Lemma RemoveDirEntry_data p nm now i : leaves (data_le i) (RemoveDirEntry p nm now i).
Proof. move=> j. rw /RemoveDirEntry. repeat case_match; move=> //= [<-]; dle. Qed.

Lemma rename_drop_dst_data dp dn i : leaves (data_le i) (rename_drop_dst dp dn i).
Proof. move=> j. rw /rename_drop_dst. repeat case_match; move=> //= [<-]; dle. Qed.

Lemma Rename_data sp sn dp dn now i : leaves (data_le i) (Index_Rename sp sn dp dn now i).
Proof.
  move=> j. rw /Index_Rename. case_match; [|by move=> /= [<-]].
  pose proof (rename_drop_dst_data dp dn i) as Hd. revert Hd.
  destruct (rename_drop_dst dp dn i) as [u i1|e i1|] => //= Hd.
  - specialize (Hd i1 eq_refl). repeat case_match; move=> //= [<-]; (transitivity i1; [exact Hd|dle]).
  - move=> [<-]. by apply Hd.
Qed.

Lemma SetXattr_data ino nm v now i : leaves (data_le i) (SetXattr ino nm v now i).
Proof.
  move=> j. rw /SetXattr. case_match; move=> //= [<-]; [|done].
  apply data_le_same => k. by apply (finfo_on_inode ino _ (on_xattrs _ i)).
Qed.

Lemma RemoveXattr_data ino nm now i : leaves (data_le i) (RemoveXattr ino nm now i).
Proof.
  move=> j. rw /RemoveXattr. repeat case_match; move=> //= [<-] //.
  apply data_le_same => k. by apply (finfo_on_inode ino _ (on_xattrs _ i)).
Qed.

Lemma TouchAtime_data ino now i : data_le i (TouchAtime ino now i).
Proof.
  rw /TouchAtime. case_match; [|done]. apply data_le_same => k. by apply (finfo_on_inode ino).
Qed.

(** A symbolic link is not a regular file. *)
Lemma SetSymlink_data ino target now i : leaves (data_le i) (SetSymlink ino target now i).
Proof.
  move=> j. rw /SetSymlink. destruct (inodes i !! ino) as [n|] eqn:Hn; [|by move=> /= [<-]].
  case_decide as Ht; [by move=> /= [<-]|]. move=> /= [<-] k f. rw /finfo /=.
  destruct (decide (k = ino)) as [->|]; [|rw lookup_alter_ne //; by left].
  rw lookup_alter_eq Hn /= decide_False //. by rw Ht.
Qed.

(** ** Rewriting extents *)

(** A property that the parts of an extent inherit holds of every extent that
    [WriteExtent] leaves, also where its loop reads slots that it has already
    overwritten. *)
Lemma append1_Forall (P : Extent.t → Prop) st x :
  Forall P st.1 → Forall P (contents st) → P x →
  Forall P (append1 st x).1 ∧ Forall P (contents (append1 st x)).
Proof.
  destruct st as [arr [k|l]]; rw /append1 /contents /= => Ha Hc Hx.
  - case_decide => /=.
    + assert (Forall P (<[k:=x]> arr)) by by apply Forall_insert.
      split; [done|]. by apply Forall_take.
    + split; [done|]. apply Forall_app. split; [by apply Forall_take|by constructor].
  - split; [done|]. apply Forall_app. split; [done|by constructor].
Qed.

Lemma foldl_append1_Forall (P : Extent.t → Prop) xs st :
  Forall P st.1 → Forall P (contents st) → Forall P xs →
  Forall P (foldl append1 st xs).1 ∧ Forall P (contents (foldl append1 st xs)).
Proof.
  elim: xs st => [//|x xs IH] st Ha Hc /Forall_cons [Hx Hxs] /=.
  destruct (append1_Forall P st x) => //. by apply IH.
Qed.

Lemma write_loop_Forall (P : Extent.t → Prop) off end_ n i st :
  (∀ e, P e → Forall P (survivors off end_ e)) →
  Forall P st.1 → Forall P (contents st) →
  Forall P (write_loop off end_ i n st).1 ∧ Forall P (contents (write_loop off end_ i n st)).
Proof.
  move=> HP. elim: n i st => [//|n IH] i st Ha Hc /=.
  destruct (st.1 !! i) as [e|] eqn:E; [|done].
  destruct (foldl_append1_Forall P (survivors off end_ e) st) => //; [|by apply IH].
  apply HP. exact (Forall_lookup_1 P st.1 i e Ha E).
Qed.

Lemma write_extents_Forall (P : Extent.t → Prop) exts ext :
  (∀ e, P e → Forall P (survivors (Extent.FileOffset ext) (eEnd ext) e)) →
  Forall P exts → P ext → Forall P (write_extents [] exts ext).
Proof.
  move=> HP He Hx. rw /write_extents app_nil_r - /(eEnd ext).
  destruct (write_loop_Forall P (Extent.FileOffset ext) (eEnd ext) (length exts) 0 (exts, Shared 0))
    as [Ha Hc] => //.
  by destruct (append1_Forall P _ ext Ha Hc Hx).
Qed.

Section inv.
Context {W : Type} {S : Store W} (obj : W → string → option bytes) {L : StoreLaws S obj}.
Implicit Types s : cstate W.

(** A part of a good extent. *)
Lemma good_ext_cut s e e' j :
  good_ext obj s e → wf_extent e' → Extent.ChunkID e' = Extent.ChunkID e →
  Extent.ChunkOffset e' = Extent.ChunkOffset e + j → 0 <= j → 0 < Extent.Length e' →
  j + Extent.Length e' <= Extent.Length e → good_ext obj s e'.
Proof.
  move=> [_ [b [El Hh]]] Hw' Ec Eo Hj Hn Hl. split; [done|].
  exists (slice b j (Extent.Length e')). split; [apply len_slice; lia|].
  rw Ec Eo. apply holds_sub => //. lia.
Qed.

Lemma survivors_good s off end_ e :
  0 <= off <= end_ → end_ <= int64_max → good_ext obj s e →
  Forall (good_ext obj s) (survivors off end_ e).
Proof.
  move=> Hoe Hm Hg. pose proof (survivors_wf off end_ e (proj1 Hg) Hoe Hm) as Hwf.
  pose proof (proj1 Hg) as Hw. revert Hwf. rw /survivors (eEnd_wf _ Hw).
  destruct Hw as (?&?&?&?&?). zcases; simpl; i64_simp; rw ?Forall_cons ?Forall_nil; intros;
    destruct_and?; split_and?; try done;
    first [by apply (good_ext_cut s e _ 0); simpl; try lia; try done
          |by apply (good_ext_cut s e _ (end_ - Extent.FileOffset e)); simpl; try lia; try done].
Qed.

Lemma trim_good s newSize exts :
  is_i64 newSize → Forall (good_ext obj s) exts →
  Forall (good_ext obj s) (trim_extents newSize exts).
Proof.
  move=> Hi Hg. assert (Forall wf_extent exts) as Hw.
  { eapply Forall_impl; [done|]. by move=> e []. }
  pose proof (trim_wf newSize exts Hw Hi) as Hwt. rw /is_i64 in Hi.
  elim: Hg Hw Hwt => [//|e l He _ IH] /Forall_cons [Hwe Hwl] /=.
  destruct (Z.geb_spec (Extent.FileOffset e) newSize) as [|Hlt]; [by apply IH|].
  move=> /Forall_cons [Hwe' Hwl']. constructor; [|by apply IH].
  revert Hwe'. rw (eEnd_wf _ Hwe) Z.gtb_ltb. zcases; [|done].
  destruct Hwe as (?&?&?&?&?). i64_simp. move=> Hw'.
  apply (good_ext_cut s e _ 0); simpl; try lia; done.
Qed.

(** ** The invariant of the data *)

(** A file whose extents are stored and end within its size. *)
Definition file_ok s (exts : list Extent.t) (sz : Z) : Prop :=
  Forall (good_ext obj s) exts ∧ is_i64 sz ∧ Forall (fun e => eEnd e <= sz) exts.

Definition data_inv (i : Index) s : Prop :=
  ∀ ino o sz, finfo i ino = Some (o, sz) → ∃ exts, o = Some exts ∧ file_ok s exts sz.

Lemma file_ok_empty s : file_ok s [] 0.
Proof. rw /file_ok !Forall_nil. by rw /is_i64. Qed.

(** Past its end a file holds zeros. *)
Lemma content_beyond s exts size o : file_ok s exts size → size <= o → content obj s exts o = Some zero_byte.
Proof.
  intros (Hg & _ & Hb) Ho. rw /content. replace (locate exts o) with (@None (string * Z)); [done|].
  symmetry. apply locate_None => e Hin Hc. rw !Forall_forall in Hg Hb.
  specialize (Hb e Hin). simpl in Hb. rw (eEnd_wf _ (proj1 (Hg e Hin))) in Hb. rw /covers in Hc. lia.
Qed.

Lemma data_inv_le i j s : data_inv i s → data_le i j → data_inv j s.
Proof.
  move=> H Hle ino o sz Hf. destruct (Hle _ _ Hf) as [Hf'|E]; [by apply (H ino)|].
  injection E as -> ->. eexists. split; [done|apply file_ok_empty].
Qed.

Lemma file_ok_extends s s' exts sz : extends obj s s' → file_ok s exts sz → file_ok s' exts sz.
Proof.
  move=> Hx [Hg ?]. split; [|done]. eapply Forall_impl; [done|].
  move=> e. by apply good_ext_extends.
Qed.

Lemma data_inv_extends i s s' : extends obj s s' → data_inv i s → data_inv i s'.
Proof.
  move=> Hx H ino o sz Hf. destruct (H _ _ _ Hf) as (exts & -> & Hok).
  eexists. split; [done|]. by eapply file_ok_extends.
Qed.

Lemma finfo_regular i ino n :
  inodes i !! ino = Some n → Inode.FileType n = Regular →
  finfo i ino = Some (extents i !! ino, Inode.Size n).
Proof. move=> Hn Ht. by rw /finfo Hn decide_True. Qed.

(** One file replaced, the others as they were. *)
Lemma data_inv_update i j s ino :
  data_inv i s →
  (∀ k, k ≠ ino → extents j !! k = extents i !! k ∧ inodes j !! k = inodes i !! k) →
  (∀ o sz, finfo j ino = Some (o, sz) → ∃ exts, o = Some exts ∧ file_ok s exts sz) →
  data_inv j s.
Proof.
  move=> H Ho Hi k o sz. destruct (decide (k = ino)) as [->|Hne]; [apply Hi|].
  rw /finfo. destruct (Ho k Hne) as [-> ->]. apply H.
Qed.

(** [SetAttr]: the extents, the type and the size afterwards. *)
Lemma SetAttr_effect ino mode uid gid size atime mtime now i j n :
  inodes i !! ino = Some n → SetAttr ino mode uid gid size atime mtime now i = Ret tt j →
  (∀ k, k ≠ ino → extents j !! k = extents i !! k ∧ inodes j !! k = inodes i !! k) ∧
  (∃ n', inodes j !! ino = Some n' ∧ Inode.Size n' = default (Inode.Size n) size ∧
     Inode.FileType n' = Inode.FileType n) ∧
  (Inode.FileType n = Regular → extents j !! ino =
     match size with
     | Some z => if decide (z ≠ Inode.Size n) then
                   Some (trim_extents z (default [] (extents i !! ino))) else extents i !! ino
     | None => extents i !! ino
     end).
Proof.
  move=> Hn. rw /SetAttr Hn => -[<-]. split_and!.
  - move=> k Hk. destruct size as [z|]; [case_decide; [case_decide|]|];
      rw /= ?lookup_insert_ne // !lookup_alter_ne //.
  - destruct size as [z|]; [case_decide as Hz; [case_decide|]|];
      rw /= !lookup_alter_eq Hn /=; eexists; (split; [done|]); simpl;
      destruct mode, uid, gid, atime, mtime; simpl; by rw ?Hz.
  - move=> Ht. destruct size as [z|]; [case_decide; [case_decide|]|]; rw /= ?lookup_insert_eq //.
Qed.

Lemma SetAttr_data ino mode uid gid size atime mtime now i s :
  data_inv i s → (∀ z, size = Some z → is_i64 z) →
  leaves (fun j => data_inv j s) (SetAttr ino mode uid gid size atime mtime now i).
Proof.
  move=> H Hsz j. destruct (inodes i !! ino) as [n|] eqn:Hn; last first.
  { rw /SetAttr Hn /=. by move=> [<-]. }
  destruct (SetAttr ino mode uid gid size atime mtime now i) as [[] j'|e j'|] eqn:E;
    [|by rw /SetAttr Hn in E..].
  move=> /= [<-].
  destruct (SetAttr_effect _ _ _ _ _ _ _ _ _ _ _ Hn E) as (Ho & (n' & Hn' & Es & Et) & He).
  apply (data_inv_update i j' s ino) => //.
  move=> o sz. rw /finfo Hn' Et. case_decide as Ht; [|done]. move=> [<- <-]. rw Es He //.
  destruct (H ino _ _ (finfo_regular _ _ _ Hn Ht)) as (l & El & Hok). rw El.
  destruct size as [z|]; [|by eexists]. case_decide as Hz; last first.
  { subst. by eexists. }
  eexists. split; [done|]. specialize (Hsz z eq_refl). destruct Hok as (Hg & _ & _).
  split_and!; [by apply trim_good|done|]. apply trim_bounded => //.
  eapply Forall_impl; [done|]. by move=> e [].
Qed.

(** [WriteExtent]: the extents and the size afterwards. *)
Lemma WriteExtent_effect ino ext now i j n :
  inodes i !! ino = Some n → WriteExtent ino ext now i = Ret tt j →
  Inode.FileType n = Regular ∧
  (∀ k, k ≠ ino → extents j !! k = extents i !! k ∧ inodes j !! k = inodes i !! k) ∧
  finfo j ino = Some (Some (write_extents [] (default [] (extents i !! ino)) ext),
                      Z.max (Inode.Size n) (eEnd ext)).
Proof.
  move=> Hn. rw /WriteExtent Hn. case_decide as Ht; [done|]. move=> [<-]. split_and!; [done|..].
  - move=> k Hk /=. by rw lookup_insert_ne // lookup_alter_ne.
  - rw /finfo /= lookup_alter_eq Hn /= - /(eEnd ext) /grow_size Z.gtb_ltb lookup_insert_eq.
    destruct (Z.ltb_spec (Inode.Size n) (eEnd ext)); simpl; rw decide_True //; do 2 f_equal; lia.
Qed.

Lemma survivors_end e off end_ x :
  wf_extent e → 0 <= off <= end_ → end_ <= int64_max → x ∈ survivors off end_ e → eEnd x <= eEnd e.
Proof.
  move=> Hw Hoe Hm Hin. pose proof (survivors_wf off end_ e Hw Hoe Hm) as Hs.
  rw Forall_forall in Hs. specialize (Hs x Hin). rw (eEnd_wf _ Hs). revert Hin.
  rw /survivors (eEnd_wf _ Hw). destruct Hw as (?&?&?&?&?).
  zcases; simpl; i64_simp; rw ?elem_of_cons ?elem_of_nil; intros; destruct_or?; subst; simpl; lia || done.
Qed.

Lemma WriteExtent_data ino ext now i s :
  data_inv i s → good_ext obj s ext →
  leaves (fun j => data_inv j s) (WriteExtent ino ext now i).
Proof.
  move=> H Hx j. destruct (inodes i !! ino) as [n|] eqn:Hn; last first.
  { rw /WriteExtent Hn /=. by move=> [<-]. }
  destruct (WriteExtent ino ext now i) as [[] j'|e j'|] eqn:E; move=> //= [<-]; last first.
  { rw /WriteExtent Hn in E. case_decide => //. by injection E as _ <-. }
  destruct (WriteExtent_effect _ _ _ _ _ _ Hn E) as (Ht & Ho & Hf).
  apply (data_inv_update i j' s ino) => //. rw Hf => o sz [<- <-]. eexists. split; [done|].
  destruct (H ino _ _ (finfo_regular _ _ _ Hn Ht)) as (l & -> & Hg & Hi & Hb). simpl.
  pose proof (proj1 Hx) as Hwx. pose proof (eEnd_wf _ Hwx) as Ee. pose proof Hwx as (?&?&?&?&?).
  set (P e := good_ext obj s e ∧ eEnd e <= Z.max (Inode.Size n) (eEnd ext)).
  assert (Forall P (write_extents [] l ext)) as HP.
  { apply write_extents_Forall.
    - move=> e [He Hle]. apply Forall_forall => x Hx'. split.
      + pose proof (survivors_good s (Extent.FileOffset ext) (eEnd ext) e) as Hsg.
        rw Forall_forall in Hsg. apply Hsg; [lia|lia|done|done].
      + etrans; [|exact Hle]. eapply survivors_end; [apply He| | |done]; lia.
    - apply Forall_forall => e He. rw Forall_forall in Hg. rw Forall_forall in Hb.
      split; [by apply Hg|]. specialize (Hb e He). simpl in Hb. lia.
    - split; [done|lia]. }
  split_and!; [| |]; [by eapply Forall_impl; [exact HP|move=> e []]| |
    by eapply Forall_impl; [exact HP|move=> e []]].
  rw /is_i64 in Hi |- *. lia.
Qed.
End inv.

(** ** The invariant of the file system *)

Section fs.
Context {W : Type} {S : Store W} {C : CborCodec}.
Context (obj : W → string → option bytes) {L : StoreLaws S obj}.
Implicit Types F : Fusey W.

Record fs_inv F : Prop := {
  fi_idx : wf_index (idx F);
  fi_cs : wf_cs obj (chunks F);
  fi_data : data_inv obj (idx F) (chunks F);
  fi_dir c : cache (cs (chunks F)) = Some c → dir c = Join (cacheDir F) "chunks";
}.

(** The handler does not panic and leaves a file system that satisfies the
    invariant, whether it returns or fails. *)
Definition fs_safe {A} (m : outcome Errno (Fusey W) A) : Prop :=
  match out_state m with Some F => fs_inv F | None => False end.

Lemma fs_safe_bind {A B} (m : outcome Errno (Fusey W) A) (k : A → Fusey W → outcome Errno (Fusey W) B) :
  fs_safe m → (∀ a F, m = Ret a F → fs_inv F → fs_safe (k a F)) → fs_safe (obind m k).
Proof. destruct m as [a F|e F|]; rw /fs_safe //= => H Hk. by apply Hk. Qed.

Lemma on_idx_safe {A} (m : Index → outcome IdxErr Index A) err F :
  fs_inv F → preserves (m (idx F)) → leaves (fun j => data_inv obj j (chunks F)) (m (idx F)) →
  fs_safe (on_idx m err F).
Proof.
  move=> [Hi Hc Hd Hdir]. rw /preserves /leaves /on_idx /fs_safe.
  destruct (m (idx F)) as [a j|e j|] => //= Hp Hl; split => //=; by apply Hl.
Qed.

(** The same for an operation that touches no file's data. *)
Lemma on_idx_meta {A} (m : Index → outcome IdxErr Index A) err F :
  fs_inv F → preserves (m (idx F)) → leaves (data_le (idx F)) (m (idx F)) →
  fs_safe (on_idx m err F).
Proof.
  move=> H Hp Hl. apply on_idx_safe => // j Hj. eapply data_inv_le; [apply (fi_data _ H)|by apply Hl].
Qed.

Lemma CreateInode_ret ft mode uid gid rdev now i c j :
  CreateInode ft mode uid gid rdev now i = Ret c j →
  c = nextIno i ∧ ∃ n, inodes j !! c = Some n ∧ 0 <= Inode.Nlink n <= 1 ∧ Inode.FileType n = ft.
Proof.
  move=> [<- <-]. split; [done|].
  do 2 case_decide; rw /= lookup_insert_eq; eexists; (split; [done|]); simpl; (split; [lia|done]).
Qed.

Lemma on_idx_ret {A} (m : Index → outcome IdxErr Index A) err F a F' :
  on_idx m err F = Ret a F' → m (idx F) = Ret a (idx F') ∧ chunks F' = chunks F ∧
    maxFSSize F' = maxFSSize F ∧ cacheDir F' = cacheDir F.
Proof. rw /on_idx. by destruct (m (idx F)) => // -[-> <-]. Qed.

(** Room for one more inode. *)
Definition room F : Prop := nextIno (idx F) < 2 ^ 64 - 1.

Lemma create_entry_safe ft perm caller ino name now F :
  fs_inv F → room F → fs_safe (create_entry ft perm caller ino name now F).
Proof.
  move=> H Hr. rw /create_entry. destruct (caller_ids caller) as [uid gid].
  apply fs_safe_bind.
  { apply on_idx_meta => //; [|by apply CreateInode_data].
    by apply CreateInode_preserves; [apply (fi_idx _ H)|]. }
  move=> c F1 Hc H1. apply on_idx_ret in Hc as (Hc & _).
  pose proof (wf_root_next _ (fi_idx _ H)).
  apply CreateInode_ret in Hc as (-> & n & Hn & Hl & _).
  apply fs_safe_bind; [|done].
  apply on_idx_meta => //; [|by apply AddDirEntry_data].
  apply AddDirEntry_preserves; [apply (fi_idx _ H1)|lia|].
  move=> n'. rw Hn => -[<-]. lia.
Qed.

Lemma Setattr_safe B ino inp now F : fs_inv F → fs_safe (Setattr B ino inp now F).
Proof.
  move=> H. rw /Setattr. apply fs_safe_bind.
  - apply on_idx_safe => //; [by apply SetAttr_preserves, fi_idx|].
    apply SetAttr_data; [by apply fi_data|]. rw /when_bit => z.
    case_match => // -[<-]. apply i64_range.
  - move=> _ F1 _ H1. by destruct (GetInode (idx F1) ino) as [n []].
Qed.

Lemma Create_safe ino name mode caller now F :
  fs_inv F → room F → fs_safe (Create ino name mode caller now F).
Proof. move=> H Hr. by apply fs_safe_bind; [apply create_entry_safe|]. Qed.

Lemma Mkdir_safe ino name mode caller now F :
  fs_inv F → room F → fs_safe (Mkdir ino name mode caller now F).
Proof. move=> H Hr. by apply fs_safe_bind; [apply create_entry_safe|]. Qed.

Lemma Symlink_safe ino target name caller now F :
  fs_inv F → room F → fs_safe (Node_Symlink ino target name caller now F).
Proof.
  move=> H Hr. apply fs_safe_bind; [by apply create_entry_safe|]. move=> c F1 _ H1.
  apply fs_safe_bind; [|done]. apply on_idx_meta => //; [|by apply SetSymlink_data].
  by apply SetSymlink_preserves, fi_idx.
Qed.

Lemma Link_safe ino target name now F :
  fs_inv F →
  (∀ t n, target = Some t → inodes (idx F) !! t = Some n → Inode.Nlink n + 1 < 2 ^ 32) →
  fs_safe (Link ino target name now F).
Proof.
  move=> H Hl. rw /Link. destruct target as [t|]; [|done]. rw /GetInode.
  destruct (inodes (idx F) !! t) as [n|] eqn:Hn; [|done]. case_decide as Ht; [done|].
  apply fs_safe_bind; [|done]. apply on_idx_meta => //; [|by apply AddDirEntry_data].
  apply AddDirEntry_preserves; [by apply fi_idx| |by move=> n' Hn'; eapply Hl].
  move=> E. subst t. destruct (core_root _ _ _ _ (wf_struct _ (fi_idx _ H))) as [nl Hr].
  rw (skeleton_Some _ _ _ Hn) in Hr. injection Hr as _ Hr _. done.
Qed.

Lemma Unlink_safe ino name now F : fs_inv F → fs_safe (Unlink ino name now F).
Proof.
  move=> H. apply on_idx_meta => //; [|by apply RemoveDirEntry_data].
  by apply RemoveDirEntry_preserves, fi_idx.
Qed.

Lemma Rmdir_safe ino name now F : fs_inv F → fs_safe (Rmdir ino name now F).
Proof.
  move=> H. rw /Rmdir. destruct (Index_Lookup _ _ _) as [c []]; [|done].
  destruct (GetInode _ _) as [n []]; [|done]. case_decide; [done|].
  apply on_idx_meta => //; [|by apply RemoveDirEntry_data].
  by apply RemoveDirEntry_preserves, fi_idx.
Qed.

Lemma Rename_safe ino name np newName now F :
  fs_inv F → np ∈ dirs (idx F) → (ino, name) ≠ (np, newName) →
  fs_safe (Node_Rename ino name (Some np) newName now F).
Proof.
  move=> H Hd Hne. apply on_idx_meta => //; [|by apply Rename_data].
  apply Rename_preserves => //. by apply fi_idx.
Qed.

Lemma Setxattr_safe ino attr data now F : fs_inv F → fs_safe (Setxattr ino attr data now F).
Proof.
  move=> H. apply on_idx_meta => //; [|by apply SetXattr_data].
  by apply SetXattr_preserves, fi_idx.
Qed.

Lemma Removexattr_safe ino attr now F : fs_inv F → fs_safe (Removexattr ino attr now F).
Proof.
  move=> H. apply on_idx_meta => //; [|by apply RemoveXattr_data].
  by apply RemoveXattr_preserves, fi_idx.
Qed.

(** ** Files *)

Lemma only_read_inv F F' : fs_inv F → only_read obj F F' → fs_inv F'.
Proof.
  move=> [Hi Hc Hd Hdir] [Ei [Em [Ed [Ec [Hw Hx]]]]]. split; [by rw Ei|done| |by rw Ec Ed].
  rw Ei. by eapply data_inv_extends.
Qed.

(** What [Read] returns, for every request. *)
Lemma FileHandle_Read_cases ino destLen off now F :
  fs_inv F → 0 < destLen → 0 <= off → off + destLen <= int64_max →
  match FileHandle_Read ino destLen off now F with
  | Ret buf F' => fs_inv F' ∧ ∃ n, inodes (idx F) !! ino = Some n ∧
      (Inode.FileType n = Regular → ∃ exts, extents (idx F) !! ino = Some exts ∧
         len buf = Z.max 0 (Z.min (off + destLen) (Inode.Size n) - off) ∧
         ∀ o, off <= o < off + len buf → buf !! Z.to_nat (o - off) = content obj (chunks F) exts o)
  | Fail ENOENT F' => F' = F ∧ inodes (idx F) !! ino = None
  | Fail EIO F' => fs_inv F'
  | _ => False
  end.
Proof.
  move=> H Hdl Ho Hm. rw /FileHandle_Read /GetInode.
  destruct (inodes (idx F) !! ino) as [n|] eqn:Hn; [|done]. rw Z.geb_leb.
  assert (Inode.FileType n = Regular → ∃ exts, extents (idx F) !! ino = Some exts ∧
    file_ok obj (chunks F) exts (Inode.Size n)) as Hok.
  { move=> Ht. destruct (fi_data _ H ino _ _ (finfo_regular _ _ _ Hn Ht)) as (exts & ? & ?). eauto. }
  destruct (Z.leb_spec (Inode.Size n) off) as [Hge|Hlt].
  { split; [done|]. exists n. split; [done|]. move=> /Hok [exts [He _]]. exists exts.
    split_and!; [done|rw /len /=; lia|]. move=> o. rw /len /=. lia. }
  rw /GetExtents. destruct (extents (idx F) !! ino) as [exts|] eqn:He; last first.
  { split; [done|]. exists n. split; [done|]. by move=> /Hok [exts [? _]]. }
  assert (Inode.FileType n = Regular) as Ht.
  { pose proof (wf_ext _ (fi_idx _ H) ino ltac:(by eexists)) as Hy.
    pose proof (typed_of _ _ _ Hn) as Hy'. rw /typed in Hy Hy'. congruence. }
  destruct (Hok Ht) as (exts' & E & Hg & Hi & Hb). injection E as <-. rw /is_i64 in Hi.
  rw (i64_small (off + destLen)); [|rw /is_i64; lia]. rw Z.gtb_ltb.
  set (end_ := if Inode.Size n <? off + destLen then Inode.Size n else off + destLen).
  assert (end_ = Z.min (off + destLen) (Inode.Size n)) as Eend by (rw /end_; zcases; lia).
  clearbody end_. rw i64_small; [|rw /is_i64; lia].
  destruct (Z.ltb_spec (end_ - off) 0); [lia|].
  assert (holds_content obj off end_ (chunks F) [] (replicate (Z.to_nat (end_ - off)) zero_byte)) as Hz.
  { split; [rw len_replicate; lia|]. move=> o Hr. rw /content /=. apply lookup_replicate_2. lia. }
  pose proof (read_loop_cases obj off end_ exts [] _ F (fi_cs _ H) Hg ltac:(lia) ltac:(lia) Hz) as HR.
  revert HR. rw (app_nil_l exts).
  destruct (read_loop off end_ exts _ F) as [buf F1|er F1|] => //=.
  - move=> [Hor [Hl Hbuf]]. split.
    + pose proof (only_read_inv F F1 H Hor) as [Hi1 Hc1 Hd1 Hdir1]. split => //=.
      * by apply TouchAtime_wf.
      * eapply data_inv_le; [done|]. apply TouchAtime_data.
    + exists n. split; [done|]. move=> _. exists exts. split_and!; [done|lia|].
      move=> o Hr. apply Hbuf. lia.
  - move=> [-> Hor]. by eapply only_read_inv.
Qed.

(** What a successful [Write] has done. *)
Record written (ino : Z) (data : bytes) (off : Z) F (exts : list Extent.t) (ext : Extent.t) F' : Prop := {
  wr_inv : fs_inv F';
  wr_old : extents (idx F) !! ino = Some exts;
  wr_new : extents (idx F') !! ino = Some (write_extents [] exts ext);
  wr_size n : inodes (idx F) !! ino = Some n → Inode.FileType n = Regular ∧
    ∃ n', inodes (idx F') !! ino = Some n' ∧ Inode.FileType n' = Regular ∧
      Inode.Size n' = Z.max (Inode.Size n) (off + len data);
  wr_others k : k ≠ ino → extents (idx F') !! k = extents (idx F) !! k ∧
    inodes (idx F') !! k = inodes (idx F) !! k;
  wr_good : good_ext obj (chunks F') ext;
  wr_ext : Extent.FileOffset ext = off ∧ Extent.Length ext = len data;
  wr_data : ext_data obj (chunks F') ext data;
  wr_extends : extends obj (chunks F) (chunks F');
}.

Lemma appended_good data off s e s' :
  wf_cs obj s → appended obj data off s e s' → data ≠ [] → 0 <= off → off + len data <= int64_max →
  good_ext obj s' e ∧ ext_data obj s' e data.
Proof.
  move=> H [? _ Hh El Ef Hr _ _ _ _] Hne Ho Hm. pose proof (wf_max _ _ H).
  pose proof (len_nonneg data).
  assert (ext_data obj s' e data) as Hd by (split; [done|by apply Hh]).
  split; [|done]. split; [|by eexists]. rw /wf_extent El Ef. lia.
Qed.

Lemma chunks_inv F s' :
  fs_inv F → wf_cs obj s' → extends obj (chunks F) s' → cache (cs s') = cache (cs (chunks F)) →
  fs_inv (set_chunks s' F).
Proof.
  move=> [Hi Hc Hd Hdir] Hw Hx Ec. split => //=; [by eapply data_inv_extends|by rw Ec].
Qed.

(** Appending the data: the extent that is to be recorded is stored. *)
Lemma append_cases data off F :
  fs_inv F → data ≠ [] → 0 <= off → off + len data <= int64_max → nextSeq (cs (chunks F)) + 1 < 2 ^ 63 →
  match on_chunks (Append data off) EIO F with
  | Ret e F' => ∃ s, F' = set_chunks s F ∧ fs_inv F' ∧ extends obj (chunks F) s ∧
      good_ext obj s e ∧ ext_data obj s e data ∧ Extent.FileOffset e = off
  | Fail EIO F' => fs_inv F' ∧ idx F' = idx F ∧ extends obj (chunks F) (chunks F')
  | _ => False
  end.
Proof.
  move=> H Hne Ho Hm Hq. rw /on_chunks.
  pose proof (Append_cases obj data off (chunks F) (fi_cs _ H) Hq) as HA. revert HA.
  destruct (Append data off (chunks F)) as [e s'|er s'|] => //=; last first.
  { destruct er => //=.
    - move=> [_ ->]. split_and!; [by destruct F|done|done].
    - move=> [Hw [Hx Ec]]. split_and!; [|done|done]. apply chunks_inv => //. by rw Ec. }
  move=> HA. destruct (appended_good data off _ e s' (fi_cs _ H) HA Hne Ho Hm) as [Hg Hd].
  exists s'. split; [done|]. split; [|split; [apply HA|split; [done|split; [done|apply HA]]]].
  apply chunks_inv => //; apply HA.
Qed.

(** Recording an extent that is stored. *)
Lemma commit_cases ino data off now F e :
  fs_inv F → good_ext obj (chunks F) e → ext_data obj (chunks F) e data → Extent.FileOffset e = off →
  match on_idx (WriteExtent ino e now) (fun _ => EIO) F with
  | Ret _ F' => ∃ exts, written ino data off F exts e F'
  | Fail EIO F' => F' = F
  | _ => False
  end.
Proof.
  move=> H Hg Hd Ef.
  assert (fs_safe (on_idx (WriteExtent ino e now) (fun _ => EIO) F)) as Hs.
  { apply on_idx_safe => //; [by apply WriteExtent_preserves, fi_idx|].
    by apply WriteExtent_data; [apply (fi_data _ H)|]. }
  assert (eEnd e = off + len data) as Ee by (rw (eEnd_wf _ (proj1 Hg)) Ef (proj1 Hd) //).
  revert Hs. rw /on_idx /fs_safe.
  destruct (WriteExtent ino e now (idx F)) as [[] j|er j|] eqn:E => //= Hs; last first.
  { revert E. rw /WriteExtent. repeat case_match => //; move=> [_ <-]; by destruct F. }
  assert (∃ n, inodes (idx F) !! ino = Some n) as [n Hn].
  { revert E. rw /WriteExtent. destruct (inodes (idx F) !! ino); [by eauto|done]. }
  destruct (WriteExtent_effect _ _ _ _ _ _ Hn E) as (Ht & Hoth & Hf).
  destruct (fi_data _ H ino _ _ (finfo_regular _ _ _ Hn Ht)) as (exts & He & _).
  exists exts. split => //=.
  - revert Hf. rw /finfo He. destruct (inodes j !! ino); [|done]. case_decide; [|done]. by move=> [-> _].
  - move=> n'. rw Hn => -[<-]. split; [done|]. revert Hf. rw /finfo.
    destruct (inodes j !! ino) as [n''|]; [|done]. case_decide; [|done]. move=> [_ Hz].
    exists n''. by rw Hz Ee.
  - by rw (proj1 Hd).
Qed.

(** A write, counted from before its data was appended. *)
Lemma written_appended ino data off F s exts e F' :
  extends obj (chunks F) s → written ino data off (set_chunks s F) exts e F' → written ino data off F exts e F'.
Proof. intros Hx [? ? ? ? ? ? ? ? Hx']. split; try done. by etrans. Qed.

(** Appending the data and recording the extent. *)
Lemma append_write_cases ino data off now F :
  fs_inv F → data ≠ [] → 0 <= off → off + len data <= int64_max →
  nextSeq (cs (chunks F)) + 1 < 2 ^ 63 →
  match (let! ext, F := on_chunks (Append data off) EIO F in
         let! _, F := on_idx (WriteExtent ino ext now) (fun _ => EIO) F in
         Ret (u32 (len data)) F) with
  | Ret k F' => k = u32 (len data) ∧ ∃ exts ext, written ino data off F exts ext F'
  | Fail EIO F' => fs_inv F' ∧ idx F' = idx F ∧ extends obj (chunks F) (chunks F')
  | _ => False
  end.
Proof.
  move=> H Hne Ho Hm Hq. pose proof (append_cases data off F H Hne Ho Hm Hq) as HA. revert HA.
  destruct (on_chunks (Append data off) EIO F) as [e F1|[] F1|] => //=.
  intros (s & -> & H1 & Hx & Hg & Hd & Ef).
  pose proof (commit_cases ino data off now _ e H1 Hg Hd Ef) as HC. revert HC.
  destruct (on_idx _ _ (set_chunks s F)) as [u F2|[] F2|] => //=.
  - move=> [exts Hw]. split; [done|]. exists exts, e. by eapply written_appended.
  - by intros ->.
Qed.

Lemma FileHandle_Write_cases ino data off now F :
  fs_inv F → data ≠ [] → 0 <= off → off + len data <= int64_max →
  nextSeq (cs (chunks F)) + 1 < 2 ^ 63 →
  match FileHandle_Write ino data off now F with
  | Ret k F' => k = u32 (len data) ∧ ∃ exts ext, written ino data off F exts ext F'
  | Fail ENOENT F' => F' = F ∧ inodes (idx F) !! ino = None
  | Fail ENOSPC F' => F' = F ∧ ∃ n, inodes (idx F) !! ino = Some n ∧
      Inode.Size n < off + len data ∧
      maxFSSize F < UsedBytes (idx F) +! (off + len data -! Inode.Size n)
  | Fail EIO F' => fs_inv F' ∧ idx F' = idx F ∧ extends obj (chunks F) (chunks F')
  | _ => False
  end.
Proof.
  move=> H Hne Ho Hm Hq. rw /FileHandle_Write /GetInode.
  destruct (inodes (idx F) !! ino) as [n|] eqn:Hn; [|done].
  pose proof (len_nonneg data). rw (i64_small (off + len data)); [|rw /is_i64; lia]. rw !Z.gtb_ltb.
  pose proof (append_write_cases ino data off now F H Hne Ho Hm Hq) as HW.
  destruct (Z.ltb_spec (Inode.Size n) (off + len data)) as [Hlt|Hge]; simpl.
  - destruct (Z.ltb_spec (maxFSSize F) (UsedBytes (idx F) +! (off + len data -! Inode.Size n)));
      [by eauto|]. revert HW. destruct (obind _ _) as [k F'|[] F'|] => //.
  - revert HW. destruct (obind _ _) as [k F'|[] F'|] => //.
Qed.

(** ** Fsync *)

Lemma snapshot_path_ne base k x :
  x ∈ [Join base snapshotFile; tmp_name (Join base snapshotFile)] →
  Join (Join base "chunks") k ≠ x.
Proof.
  rw /Join /tmp_name - !str_app_assoc => Hx E. apply (f_equal (strip_prefix base)) in E.
  rw strip_prefix_app in E.
  rw !elem_of_cons elem_of_nil in Hx. destruct Hx as [->|[->|[]]];
    rw strip_prefix_app in E; done.
Qed.

Lemma cached_save base c d d' k :
  dir c = Join base "chunks" →
  same_except [Join base snapshotFile; tmp_name (Join base snapshotFile)] d d' →
  cached c d' k = cached c d k.
Proof. move=> Ed Hs. rw /cached Ed. apply Hs. move=> /snapshot_path_ne. by apply. Qed.

Lemma wf_cs_local s d' :
  wf_cs obj s →
  (∀ c k, cache (cs s) = Some c → cached c d' k = cached c (local (wd s)) k) →
  wf_cs obj (mkCState (cs s) (mkWorld (backing (wd s)) d')).
Proof.
  move=> [???? Hu Hcl Ha Hco] Hk. split => //=.
  - move=> r Hr. destruct (Hu r Hr) as [A B]. split => //= c Ec. rw Hk //. by apply B.
  - move=> c f Ec. rw Hk //. by apply Ha.
  - move=> c id Ec Hid Hne f data /=. rw Hk //. by apply Hco.
Qed.

(** What a successful [Fsync] has done: the chunks are stored and the index
    is saved. *)
Record synced F F' : Prop := {
  sy_inv : fs_inv F';
  sy_chunks id o b : holds (view obj (chunks F)) id o b →
    holds (obj (backing (wd (chunks F')))) id o b;
  sy_extends : extends obj (chunks F) (chunks F');
  sy_seq : nextSeq (cs (chunks F')) = nextSeq (cs (chunks F));
  sy_save : cacheDir F ≠ ""%string → ∃ d,
    Save (cacheDir F) (idx F, d) = Ret tt (idx F', local (wd (chunks F')));
}.

Lemma save_index_cases F base :
  fs_inv F → base = cacheDir F →
  match save_index base F with
  | Ret _ F' => fs_inv F' ∧ Save base (idx F, local (wd (chunks F))) = Ret tt (idx F', local (wd (chunks F'))) ∧
      backing (wd (chunks F')) = backing (wd (chunks F)) ∧ cs (chunks F') = cs (chunks F)
  | Fail EIO F' => fs_inv F' ∧ idx F' = idx F
  | _ => False
  end.
Proof.
  move=> H ->. rw /save_index.
  assert (∀ i d, out_state (Save (cacheDir F) (idx F, local (wd (chunks F)))) = Some (i, d) →
    fs_inv (set_idx i (set_chunks (mkCState (cs (chunks F)) (mkWorld (backing (wd (chunks F))) d)) F))
    ∧ (i = idx F ∨ i = MarkClean (idx F))) as Hgo.
  { move=> i d Hs. pose proof (Save_frame _ _ _ _ _ Hs) as Hfr.
    assert (i = idx F ∨ i = MarkClean (idx F)) as Hi.
    { destruct (Save_cases _ _ _ _ _ Hs) as [(?&_&->&_)|(?&_&->&_)]; auto. }
    split; [|done]. destruct H as [Hw Hc Hd Hdir]. split => //=.
    - destruct Hi as [->| ->]; [done|]. by destruct Hw.
    - apply wf_cs_local => // c k Ec. eapply cached_save; [by apply Hdir|done].
    - assert (extends obj (chunks F) (mkCState (cs (chunks F)) (mkWorld (backing (wd (chunks F))) d))) as Hx
        by by apply extends_view.
      eapply data_inv_le; [by eapply data_inv_extends|]. destruct Hi as [->| ->]; by apply data_le_same. }
  destruct (Save (cacheDir F) _) as [[] [i d]|e [i d]|] eqn:E => //=.
  - destruct (Hgo i d eq_refl) as [H1 _]. by split_and!.
  - destruct (Hgo i d eq_refl) as [H1 _]. split; [done|].
    destruct (Save_cases (cacheDir F) (idx F) (local (wd (chunks F))) i d) as [(?&_&->&_)|(?&Er&_)] => //;
      [by rw E|by rw E in Er].
  - pose proof (Save_crash (cacheDir F) (idx F) (local (wd (chunks F)))). done.
Qed.

Lemma Fsync_cases F :
  fs_inv F →
  match Fsync F with
  | Ret _ F' => synced F F'
  | Fail EIO F' => fs_inv F' ∧ idx F' = idx F
  | _ => False
  end.
Proof.
  move=> H. rw /Fsync /on_chunks.
  pose proof (FlushActive_cases obj (chunks F) (fi_cs _ H)) as HF. revert HF.
  destruct (FlushActive (chunks F)) as [u s|e s|] => //=; last first.
  { move=> [Hw [Hx Ec]]. split; [|done]. apply chunks_inv => //. by rw Ec. }
  move=> [Hw [Hx [Ec Hdur]]].
  assert (fs_inv (set_chunks s F)) as H1 by (apply chunks_inv => //; by rw Ec).
  case_decide as Hcd; [|by split => //=; rw Ec].
  pose proof (save_index_cases (set_chunks s F) (cacheDir F) H1 eq_refl) as HS. revert HS.
  destruct (save_index (cacheDir F) (set_chunks s F)) as [u' F'|[] F'|] => //=.
  move=> [H2 [Hsave [Eb Ecs]]]. split => //=.
  - move=> id o b Hh. rw Eb. by apply Hdur.
  - etrans; [exact Hx|]. apply extends_view => id Hid. by rw /view Ecs Eb.
  - by rw Ecs Ec.
  - move=> _. by eexists.
Qed.
End fs.
