(* ===== verification/FuseProps.v ===== *)
(** Properties of the FUSE layer: the invariant under every request, reads and
    writes as file contents, the name space, and durability of [Fsync]. *)
From S2P Require Import Prelude Types Extents Index IndexInv OS Decimal Persist Store Cache ChunkStore.
From S2P Require Import ChunkProps Fuse FuseData FuseInv.
#[local] Open Scope Z_scope.

(** The requests that the kernel sends. *)
Inductive request :=
  | RGetattr (ino : Z)
  | RSetattr (B : FattrBits) (ino : Z) (inp : SetAttrIn.t) (now : Z)
  | RLookup (ino : Z) (name : string)
  | RReaddir (ino : Z)
  | RCreate (ino : Z) (name : string) (mode : Z) (caller : option (Z * Z)) (now : Z)
  | RMkdir (ino : Z) (name : string) (mode : Z) (caller : option (Z * Z)) (now : Z)
  | RSymlink (ino : Z) (target name : string) (caller : option (Z * Z)) (now : Z)
  | RReadlink (ino : Z)
  | RLink (ino : Z) (target : option Z) (name : string) (now : Z)
  | RUnlink (ino : Z) (name : string) (now : Z)
  | RRmdir (ino : Z) (name : string) (now : Z)
  | RRename (ino : Z) (name : string) (newParent : option Z) (newName : string) (now : Z)
  | ROpen (ino : Z)
  | RStatfs
  | RGetxattr (ino : Z) (attr : string) (destLen : Z)
  | RSetxattr (ino : Z) (attr : string) (data : bytes) (now : Z)
  | RListxattr (ino destLen : Z)
  | RRemovexattr (ino : Z) (attr : string) (now : Z)
  | RRead (ino destLen off now : Z)
  | RWrite (ino : Z) (data : bytes) (off now : Z)
  | RFlush
  | RFsync.

Section runs.
Context {W : Type} {S : Store W} {C : CborCodec}.
Context (obj : W → string → option bytes) {L : StoreLaws S obj}.
Implicit Types F : Fusey W.

(** The file system after a request, whatever the answer. *)
Definition serve (r : request) F : option (Fusey W) :=
  match r with
  | RGetattr ino => out_state (Getattr ino F)
  | RSetattr B ino inp now => out_state (Setattr B ino inp now F)
  | RLookup ino name => out_state (Lookup ino name F)
  | RReaddir ino => out_state (Readdir ino F)
  | RCreate ino name mode caller now => out_state (Create ino name mode caller now F)
  | RMkdir ino name mode caller now => out_state (Mkdir ino name mode caller now F)
  | RSymlink ino target name caller now => out_state (Node_Symlink ino target name caller now F)
  | RReadlink ino => out_state (Readlink ino F)
  | RLink ino target name now => out_state (Link ino target name now F)
  | RUnlink ino name now => out_state (Unlink ino name now F)
  | RRmdir ino name now => out_state (Rmdir ino name now F)
  | RRename ino name np nn now => out_state (Node_Rename ino name np nn now F)
  | ROpen ino => out_state (Open ino F)
  | RStatfs => out_state (Statfs F)
  | RGetxattr ino attr n => out_state (Getxattr ino attr n F)
  | RSetxattr ino attr data now => out_state (Setxattr ino attr data now F)
  | RListxattr ino n => out_state (Listxattr ino n F)
  | RRemovexattr ino attr now => out_state (Removexattr ino attr now F)
  | RRead ino n off now => out_state (FileHandle_Read ino n off now F)
  | RWrite ino data off now => out_state (FileHandle_Write ino data off now F)
  | RFlush => out_state (FileHandle_Flush F)
  | RFsync => out_state (Fsync F)
  end.

(** What the kernel guarantees of a request (a rename has an existing
    destination directory and two different names; reads and writes are not
    empty and end below 2^63), and that the counters are not exhausted. *)
Definition req_ok (r : request) F : Prop :=
  match r with
  | RCreate _ _ _ _ _ | RMkdir _ _ _ _ _ | RSymlink _ _ _ _ _ => room F
  | RLink _ (Some t) _ _ => ∀ n, inodes (idx F) !! t = Some n → Inode.Nlink n + 1 < 2 ^ 32
  | RRename ino name (Some np) newName _ => np ∈ dirs (idx F) ∧ (ino, name) ≠ (np, newName)
  | RRead _ n off _ => 0 < n ∧ 0 <= off ∧ off + n <= int64_max
  | RWrite _ data off _ => data ≠ [] ∧ 0 <= off ∧ off + len data <= int64_max ∧
      nextSeq (cs (chunks F)) + 1 < 2 ^ 63
  | _ => True
  end.

(** The one request that panics: [Statfs] divides by the block size, which the
    configuration may set to 0. *)
Definition panics (r : request) F : bool :=
  match r with RStatfs => u64 (BlockSz (idx F)) =? 0 | _ => false end.

Inductive served : Fusey W → Fusey W → Prop :=
  | served_nil F : served F F
  | served_snoc F r F1 F2 : served F F1 → req_ok r F1 → serve r F1 = Some F2 → served F F2.

Lemma copy_out_state n v F : out_state (copy_out n v F) = Some F.
Proof. rw /copy_out. by repeat case_match. Qed.

Lemma serve_safe r F : fs_inv obj F → req_ok r F →
  if panics r F then serve r F = None else ∃ F', serve r F = Some F' ∧ fs_inv obj F'.
Proof.
  move=> H. assert (∀ A (m : outcome Errno (Fusey W) A), fs_safe obj m →
    ∃ F', out_state m = Some F' ∧ fs_inv obj F') as Hs.
  { move=> A m. rw /fs_safe. destruct (out_state m); [eauto|done]. }
  destruct r => /= Hok.
  - rw /Getattr. destruct (GetInode _ _) as [? []]; eauto.
  - by apply Hs, Setattr_safe.
  - rw /Lookup. destruct (Index_Lookup _ _ _) as [? []]; [|eauto].
    destruct (GetInode _ _) as [? []]; eauto.
  - rw /Readdir. destruct (GetInode _ _) as [? []]; [|eauto]. case_decide; [eauto|].
    destruct (Index_Readdir _ _); eauto.
  - by apply Hs, Create_safe.
  - by apply Hs, Mkdir_safe.
  - by apply Hs, Symlink_safe.
  - rw /Readlink. case_match; eauto.
  - apply Hs, Link_safe => // t n E. subst target. apply Hok.
  - by apply Hs, Unlink_safe.
  - by apply Hs, Rmdir_safe.
  - destruct newParent as [np|]; [|by rw /Node_Rename /=; eauto].
    destruct Hok. by apply Hs, Rename_safe.
  - rw /Open. destruct (GetInode _ _) as [? []]; eauto.
  - rw /Statfs. destruct (_ =? 0); [done|]. eauto.
  - rw /Getxattr. case_match; [rw copy_out_state|]; eauto.
  - by apply Hs, Setxattr_safe.
  - rw /Listxattr copy_out_state. eauto.
  - by apply Hs, Removexattr_safe.
  - destruct Hok as (H1 & H2 & H3).
    pose proof (FileHandle_Read_cases obj ino destLen off now F H H1 H2 H3) as HR. revert HR.
    destruct (FileHandle_Read _ _ _ _ F) as [b F'|[] F'|] => //=;
      [move=> [? _]|move=> [-> _]|move=> ?]; eauto.
  - destruct Hok as (H1 & H2 & H3 & H4).
    pose proof (FileHandle_Write_cases obj ino data off now F H H1 H2 H3 H4) as HW. revert HW.
    destruct (FileHandle_Write _ _ _ _ F) as [k F'|[] F'|] => //=;
      [move=> [_ [exts [ext [? _ _ _ _ _ _ _ _]]]]|move=> [-> _]|move=> [? _]|move=> [-> _]]; eauto.
  - eauto.
  - pose proof (Fsync_cases obj F H) as HF. revert HF.
    destruct (Fsync F) as [u F'|[] F'|] => //=; [move=> [? _ _ _ _]|move=> [? _]]; eauto.
Qed.

Lemma serve_inv r F F' : fs_inv obj F → req_ok r F → serve r F = Some F' → fs_inv obj F'.
Proof.
  intros H Hok Hs. pose proof (serve_safe r F H Hok) as HS. destruct (panics r F); [congruence|].
  destruct HS as (F2 & E & Hi). rw Hs in E. by injection E as <-.
Qed.

Lemma served_inv F F' : served F F' → fs_inv obj F → fs_inv obj F'.
Proof.
  elim=> [//|F0 r F1 F2 _ IH Hok Hs] H. by apply (serve_inv r F1 F2 (IH H)).
Qed.

(** ** Contents *)

(** The byte at offset [o] of a file. *)
Definition file_content F (ino o : Z) : option byte :=
  match extents (idx F) !! ino with
  | Some exts => content obj (chunks F) exts o
  | None => None
  end.

Lemma good_extents F ino exts :
  fs_inv obj F → extents (idx F) !! ino = Some exts →
  ∃ n, inodes (idx F) !! ino = Some n ∧ Inode.FileType n = Regular ∧
    file_ok obj (chunks F) exts (Inode.Size n).
Proof.
  move=> H He. pose proof (wf_ext _ (fi_idx _ _ H) ino ltac:(by eexists)) as Ht.
  rw /typed skeleton_lookup in Ht. destruct (inodes (idx F) !! ino) as [n|] eqn:Hn; [|done].
  simpl in Ht. injection Ht as Ht. exists n. split_and!; [done..|].
  destruct (fi_data _ _ H ino _ _ (finfo_regular _ _ _ Hn Ht)) as (x & E & ?).
  rw He in E. by injection E as <-.
Qed.

(** The log grows under an unchanged extent table. *)
Lemma file_content_extends F F' ino :
  fs_inv obj F → extents (idx F') !! ino = extents (idx F) !! ino →
  extends obj (chunks F) (chunks F') → ∀ o, file_content F' ino o = file_content F ino o.
Proof.
  move=> H E Hx o. rw /file_content E. destruct (extents (idx F) !! ino) as [exts|] eqn:He; [|done].
  destruct (good_extents F ino exts H He) as (n & _ & _ & Hg & _).
  by apply content_extends.
Qed.

Lemma written_content ino data off F exts ext F' o :
  fs_inv obj F → written obj ino data off F exts ext F' →
  no_inner_split off (off + len data) exts = true →
  file_content F' ino o =
  if decide (off <= o < off + len data) then data !! Z.to_nat (o - off) else file_content F ino o.
Proof.
  move=> H Hw Hns. destruct Hw as [Hi He He' _ _ Hg [Ef El] Hd Hx].
  destruct (good_extents F ino exts H He) as (n & _ & _ & Hge & _).
  assert (Forall wf_extent exts) as Hwf by (eapply Forall_impl; [done|by move=> e []]).
  assert (eEnd ext = off + len data) as Ee by (rw (eEnd_wf _ (proj1 Hg)) Ef El //).
  rw /file_content He He' (content_write obj (chunks F') exts ext data) //; [|by rw Ef Ee].
  by rw Ef (content_extends obj _ _ exts o Hx Hge).
Qed.

(** Past its end a file holds zeros. *)
Lemma content_past_end F ino n o :
  fs_inv obj F → inodes (idx F) !! ino = Some n → Inode.FileType n = Regular →
  Inode.Size n <= o → file_content F ino o = Some zero_byte.
Proof.
  move=> H Hn Ht Ho. destruct (fi_data _ _ H ino _ _ (finfo_regular _ _ _ Hn Ht)) as (exts & He & Hok).
  rw /file_content He. by apply (content_beyond obj _ exts (Inode.Size n)).
Qed.
End runs.

Lemma UsedBytes_range i : is_i64 (UsedBytes i).
Proof.
  rw /UsedBytes. apply (map_fold_weak_ind (fun r _ => is_i64 r)); [by rw /is_i64|].
  move=> k n m r _ Hr. case_decide; [apply i64_range|done].
Qed.

(** ** The name space *)

Lemma Index_Lookup_dir i p nm :
  Index_Lookup i p nm = match dir_lookup i p nm with Some c => (c, true) | None => (0, false) end.
Proof. rw /Index_Lookup /dir_lookup. by destruct (dirIndex i !! p). Qed.

Lemma dir_lookup_insert i p nm c ch p' nm' :
  dirIndex i !! p = Some ch →
  dir_lookup (on_dirIndex <[p := <[nm := c]> ch]> i) p' nm' =
  if decide ((p', nm') = (p, nm)) then Some c else dir_lookup i p' nm'.
Proof.
  move=> Hp. rw /dir_lookup /=. destruct (decide (p' = p)) as [->|Hne].
  - rw lookup_insert_eq Hp /=. destruct (decide (nm' = nm)) as [->|].
    + rw lookup_insert_eq decide_True //.
    + rw lookup_insert_ne // decide_False //. congruence.
  - rw lookup_insert_ne // decide_False //. congruence.
Qed.

Lemma types_alter f ino (m : gmap Z Inode.t) :
  (∀ n, Inode.FileType (f n) = Inode.FileType n) →
  Inode.FileType <$> alter f ino m = Inode.FileType <$> m.
Proof.
  move=> Hf. apply map_eq => k. rw !lookup_fmap.
  destruct (decide (k = ino)) as [->|]; [|by rw lookup_alter_ne].
  rw lookup_alter_eq. destruct (m !! ino) => //=. by rw Hf.
Qed.

(** A successful [AddDirEntry]. *)
Lemma AddDirEntry_ret p nm c now i u j :
  AddDirEntry p nm c now i = Ret u j →
  dir_lookup i p nm = None ∧
  (∀ p' nm', dir_lookup j p' nm' =
     if decide ((p', nm') = (p, nm)) then Some c else dir_lookup i p' nm') ∧
  extents j = extents i ∧ symlinks j = symlinks i ∧
  (∀ k, Inode.FileType <$> inodes j !! k = Inode.FileType <$> inodes i !! k).
Proof.
  rw /AddDirEntry. repeat case_match => //. move=> [_ <-]. split_and!; [done| |done|done|].
  - move=> p' nm'. by apply (dir_lookup_insert i).
  - move=> k. rw - !lookup_fmap /=. by rw !types_alter.
Qed.

(** ** Properties *)

Section properties.
Context {W : Type} {S : Store W} {C : CborCodec}.
Context (obj : W → string → option bytes) {L : StoreLaws S obj}.
Implicit Types F : Fusey W.

(** C8: from a file system that satisfies the invariant (index well formed,
    chunk store well formed, every extent of every file stored and within the
    file's size), any sequence of requests leads to one that satisfies it, and
    then no request makes a handler panic, except [Statfs] when the block size is
    0. The requests are those of [req_ok]: a rename has an existing destination
    directory and is not of a name to itself, which the kernel answers alone;
    reads and writes are not empty and end below 2^63; and the counters (inode
    numbers, link counts, chunk numbers) are not exhausted. *)
Theorem requests_keep_invariant F F' r :
  served F F' → fs_inv obj F → req_ok r F' →
  fs_inv obj F' ∧
  if panics r F' then serve r F' = None else ∃ F'', serve r F' = Some F'' ∧ fs_inv obj F''.
Proof.
  move=> Hs H Hok. pose proof (served_inv obj F F' Hs H) as H'. split; [done|].
  by apply serve_safe.
Qed.

(** [FileHandle.Read] returns the bytes of the file, cut at its end: holes
    as zeros, everything else from the chunks. It fails with ENOENT only for a
    missing inode and with EIO only when the chunk store fails. *)
Theorem Read_returns_content ino destLen off now F exts n :
  fs_inv obj F → 0 < destLen → 0 <= off → off + destLen <= int64_max →
  inodes (idx F) !! ino = Some n → extents (idx F) !! ino = Some exts →
  match FileHandle_Read ino destLen off now F with
  | Ret buf F' => fs_inv obj F' ∧
      len buf = Z.max 0 (Z.min (off + destLen) (Inode.Size n) - off) ∧
      ∀ o, off <= o < off + len buf → buf !! Z.to_nat (o - off) = file_content obj F ino o
  | Fail e F' => e = EIO ∧ fs_inv obj F'
  | Crash => False
  end.
Proof.
  move=> H Hd Ho Hm Hn He. pose proof (FileHandle_Read_cases obj ino destLen off now F H Hd Ho Hm) as HR.
  destruct (good_extents obj F ino exts H He) as (n' & Hn' & Ht & _).
  rw Hn in Hn'. injection Hn' as <-. revert HR.
  destruct (FileHandle_Read ino destLen off now F) as [buf F'|[] F'|] => //; last first.
  { move=> [_ E]. by rw Hn in E. }
  move=> [Hi [n' [E HR]]]. rw Hn in E. injection E as <-.
  destruct (HR Ht) as (exts' & E' & Hl & Hb). rw He in E'. injection E' as <-.
  split_and!; [done..|]. move=> o Hr. rw /file_content He. by apply Hb.
Qed.

(** C18: [FileHandle.Write] replaces exactly the written range, provided the
    range does not lie strictly inside an extent that is not the file's last,
    grows the file to the end of the range, and leaves every other file as it
    was. *)
Theorem Write_updates_content ino data off now F k F' exts :
  fs_inv obj F → req_ok (RWrite ino data off now) F →
  FileHandle_Write ino data off now F = Ret k F' →
  extents (idx F) !! ino = Some exts → no_inner_split off (off + len data) exts = true →
  k = u32 (len data) ∧
  (∀ o, file_content obj F' ino o =
     if decide (off <= o < off + len data) then data !! Z.to_nat (o - off)
     else file_content obj F ino o) ∧
  (∀ j o, j ≠ ino → file_content obj F' j o = file_content obj F j o) ∧
  (∀ n, inodes (idx F) !! ino = Some n → ∃ n', inodes (idx F') !! ino = Some n' ∧
     Inode.Size n' = Z.max (Inode.Size n) (off + len data)).
Proof.
  intros H (Hne & Ho & Hm & Hq) E He Hns.
  pose proof (FileHandle_Write_cases obj ino data off now F H Hne Ho Hm Hq) as HW.
  rw E in HW. destruct HW as (-> & exts' & ext & Hw).
  pose proof (wr_old _ _ _ _ _ _ _ _ Hw) as He'. rw He in He'. injection He' as <-.
  split_and!; [done| | |].
  - move=> o. by eapply written_content.
  - move=> j o Hj. destruct (wr_others _ _ _ _ _ _ _ _ Hw j Hj) as [Ej _].
    apply file_content_extends => //. by apply Hw.
  - move=> n Hn. destruct (wr_size _ _ _ _ _ _ _ _ Hw n Hn) as (_ & n' & ? & _ & ?). eauto.
Qed.

(** A write that fails, for whatever reason, changes no file: ENOENT for a
    missing inode, ENOSPC exactly when the file would grow beyond the
    capacity (both without any effect), EIO when the chunk store fails or the
    inode is not a regular file. *)
Theorem Write_fails_cleanly ino data off now F e F' :
  fs_inv obj F → req_ok (RWrite ino data off now) F →
  FileHandle_Write ino data off now F = Fail e F' →
  (∀ j o, file_content obj F' j o = file_content obj F j o) ∧ idx F' = idx F ∧
  (e = ENOSPC → F' = F ∧ ∃ n, inodes (idx F) !! ino = Some n ∧
     Inode.Size n < off + len data ∧
     maxFSSize F < UsedBytes (idx F) +! (off + len data -! Inode.Size n)) ∧
  (e = ENOENT → F' = F ∧ inodes (idx F) !! ino = None) ∧
  (e = ENOSPC ∨ e = ENOENT ∨ e = EIO).
Proof.
  intros H (Hne & Ho & Hm & Hq) E.
  pose proof (FileHandle_Write_cases obj ino data off now F H Hne Ho Hm Hq) as HW.
  rw E in HW. destruct e => //.
  - destruct HW as [-> ?]. split_and!; auto; done.
  - destruct HW as (Hi & Ei & Hx). split_and!; auto; try done.
    move=> j o. apply file_content_extends => //. by rw Ei.
  - destruct HW as [-> ?]. split_and!; auto; done.
Qed.

(** What was just written is read back: reading the written range returns
    the data, or EIO if the chunk store fails to deliver. *)
Theorem Write_then_Read ino data off now now' F k F' exts :
  fs_inv obj F → req_ok (RWrite ino data off now) F →
  FileHandle_Write ino data off now F = Ret k F' →
  extents (idx F) !! ino = Some exts → no_inner_split off (off + len data) exts = true →
  match FileHandle_Read ino (len data) off now' F' with
  | Ret buf _ => buf = data
  | Fail e _ => e = EIO
  | Crash => False
  end.
Proof.
  intros H (Hne & Ho & Hm & Hq) E He Hns.
  pose proof (FileHandle_Write_cases obj ino data off now F H Hne Ho Hm Hq) as HW.
  rw E in HW. destruct HW as (-> & exts' & ext & Hw).
  pose proof (wr_old _ _ _ _ _ _ _ _ Hw) as He'. rw He in He'. injection He' as <-.
  destruct (good_extents obj F ino exts H He) as (n & Hn & Ht & _).
  destruct (wr_size _ _ _ _ _ _ _ _ Hw n Hn) as (_ & n' & Hn' & Ht' & Hs).
  assert (0 < len data) by (destruct data => //).
  pose proof (FileHandle_Read_cases obj ino (len data) off now' F' (wr_inv _ _ _ _ _ _ _ _ Hw)
    ltac:(done) Ho Hm) as HR.
  revert HR. destruct (FileHandle_Read ino (len data) off now' F') as [buf F2|[] F2|] => //; last first.
  { move=> [_ Hno]. by rw Hn' in Hno. }
  move=> [_ [n2 [E2 HR]]]. rw Hn' in E2. injection E2 as <-.
  destruct (HR Ht') as (exts2 & E2 & Hl & Hb).
  assert (len buf = len data) as El by lia.
  apply list_eq => j. destruct (decide (j < length data)%nat) as [Hj|Hj]; last first.
  { rw !lookup_ge_None_2 //; rw /len in El; lia. }
  specialize (Hb (off + Z.of_nat j)). rw El in Hb.
  replace (Z.to_nat (off + Z.of_nat j - off)) with j in Hb by lia.
  rw Hb; [|rw /len; lia].
  pose proof (written_content obj ino data off F exts ext F' (off + Z.of_nat j) H Hw Hns) as Hc.
  rw /file_content E2 in Hc. rw Hc decide_True; [|rw /len; lia]. f_equal. lia.
Qed.

(** [Setattr] with a size makes the file exactly that long: below the new
    size every byte is as before, at and beyond it (also where an earlier,
    longer version had data) the file reads as zeros. *)
Theorem Setattr_sets_length B ino inp now F out F' n z :
  fs_inv obj F → inodes (idx F) !! ino = Some n → Inode.FileType n = Regular →
  when_bit (SetAttrIn.Valid inp) (FATTR_SIZE B) (i64 (SetAttrIn.Size inp)) = Some z →
  Setattr B ino inp now F = Ret out F' →
  (∃ n', inodes (idx F') !! ino = Some n' ∧ Inode.Size n' = z) ∧
  (∀ o, file_content obj F' ino o =
     if decide (o < z) then file_content obj F ino o else Some zero_byte) ∧
  (∀ j o, j ≠ ino → file_content obj F' j o = file_content obj F j o).
Proof.
  move=> H Hn Ht Hz. rw /Setattr Hz. set mode := when_bit _ (FATTR_MODE B) _.
  set uid := when_bit _ (FATTR_UID B) _. set gid := when_bit _ (FATTR_GID B) _.
  set atime := when_bit _ (FATTR_ATIME B) _. set mtime := when_bit _ (FATTR_MTIME B) _.
  intros (u & F1 & E1 & E2)%obind_ret_inv.
  assert (F' = F1) as -> by (revert E2; by destruct (GetInode (idx F1) ino) as [? []] => // -[]). clear E2.
  apply on_idx_ret in E1 as (E1 & Ec & _). destruct u.
  assert (is_i64 z) as Hi.
  { revert Hz. rw /when_bit. case_match => // -[<-]. apply i64_range. }
  destruct (SetAttr_effect _ _ _ _ _ _ _ _ _ _ _ Hn E1) as (Ho & (n' & Hn' & Es & _) & He).
  destruct (fi_data _ _ H ino _ _ (finfo_regular _ _ _ Hn Ht)) as (exts & Hx & Hg & _ & Hb).
  split_and!; [by eauto| |].
  - move=> o. rw /file_content He // Hx Ec. case_decide as Hne.
    + rw /= /content locate_trim //; [by case_decide|]. eapply Forall_impl; [exact Hg|by move=> e []].
    + case_decide as Hlt; [done|]. subst z.
      pose proof (content_past_end obj F ino n o H Hn Ht ltac:(lia)) as Hp.
      by rw /file_content Hx in Hp.
  - move=> j o Hj. rw /file_content Ec. by destruct (Ho j Hj) as [-> _].
Qed.

(** C9: what [Fsync] saves is complete. When it returns, the snapshot in the
    cache directory and the chunks in the backing store are together all of the
    file system, provided that the index is loadable (its text is UTF-8 and its
    tables are not too long): [index.Load] on that directory gives the same index
    (clean flags apart), and a new chunk store that has recovered its sequence
    number sees every file with exactly the content it had, in a file system that
    satisfies the invariant. A new mount has a cache directory of its own, so it
    does not find this snapshot. *)
Theorem Fsync_snapshot_complete `{!CborLaws C} F u F' bs max u2 s2 :
  fs_inv obj F → canonical_extents (extents (idx F)) → loadable (idx F) = true → cacheDir F ≠ ""%string →
  Fsync F = Ret u F' →
  let d := local (wd (chunks F')) in
  next_fault d = NoFault → 0 <= max < 2 ^ 62 → nextSeq (cs (chunks F)) <= 10 ^ 8 →
  RecoverNextSeq (mkCState (NewChunkStore max) (mkWorld (backing (wd (chunks F'))) (pop_fault d)))
    = Ret u2 s2 →
  Load (cacheDir F) bs d = Ret (reloaded (idx F) bs) (pop_fault d) ∧
  let F2 := mkFusey (reloaded (idx F) bs) s2 (maxFSSize F) (cacheDir F) in
  fs_inv obj F2 ∧ ∀ ino o, file_content obj F2 ino o = file_content obj F ino o.
Proof.
  move=> H Hcan Hld Hcd HF d Hnf Hmax Hq HR.
  pose proof (Fsync_cases obj F H) as HS. rw HF in HS. destruct HS as [Hi Hch _ Hsq Hsave].
  split.
  { destruct (Hsave Hcd) as [d0 Hs].
    destruct (Save_cases (cacheDir F) (idx F) d0 (idx F') d) as [(?&?&_)|(data&_&_&Hm&Hf)];
      [by rw Hs|congruence|].
    rw /Load /os_ReadFile Hnf /= Hf. by rw (Unmarshal_Marshal _ bs _ (fi_idx _ _ H) Hcan Hm) Hld. }
  pose proof (RecoverNextSeq_cases obj max (mkWorld (backing (wd (chunks F'))) (pop_fault d)) Hmax) as HR'.
  rw HR in HR'. destruct HR' as (Hw2 & _ & _ & _ & Hnc & _ & Hfree & Ho).
  { move=> r Hr /=. apply (wf_unused _ _ (fi_cs _ _ Hi)). rw Hsq. lia. }
  assert (extends obj (chunks F) s2) as Hx.
  { move=> id o b /Hch [Hid [Ho' [Hb' [data [Hd Hr]]]]].
    split_and!; [done..|]. exists data. split; [|done]. rw /view. case_decide as E; [|by rw Ho].
    exfalso. rw - E Ho //= in Hfree. by rw Hfree in Hd. }
  split; [split => /=|].
  - destruct (fi_idx _ _ H). by split.
  - done.
  - eapply data_inv_extends; [exact Hx|]. exact (fi_data _ _ H).
  - by rw Hnc.
  - move=> ino o. by apply file_content_extends.
Qed.

(** [Create] makes an empty regular file under a fresh inode number, with
    the permission bits of the request; [Lookup] of the name then gives the
    same answer, and no other name and no file content changes. *)
Theorem Create_then_Lookup ino name mode caller now F out c F' :
  fs_inv obj F → room F → Create ino name mode caller now F = Ret (out, c) F' →
  Lookup ino name F' = Ret out F' ∧ eo_Ino out = c ∧
  inodes (idx F) !! c = None ∧ extents (idx F') !! c = Some [] ∧
  (∀ p nm, (p, nm) ≠ (ino, name) → dir_lookup (idx F') p nm = dir_lookup (idx F) p nm) ∧
  (∀ j o, j ≠ c → file_content obj F' j o = file_content obj F j o).
Proof.
  move=> H Hroom. rw /Create /create_entry. destruct (caller_ids caller) as [uid gid].
  intros (c' & F2 & E & E3)%obind_ret_inv. injection E3 as <- <- <-.
  apply obind_ret_inv in E as (c1 & F1 & E1 & E2).
  apply obind_ret_inv in E2 as (u & F2' & E2 & E3). injection E3 as -> ->.
  apply on_idx_ret in E1 as (E1 & Ec1 & _). apply on_idx_ret in E2 as (E2 & Ec2 & _).
  destruct (CreateInode_ret _ _ _ _ _ _ _ _ _ E1) as (-> & n & Hn & _ & Ht).
  destruct (AddDirEntry_ret _ _ _ _ _ _ _ E2) as (_ & Hdl & Hex & _ & Hty).
  injection E1 as Ei. assert (extents (idx F1) = <[nextIno (idx F) := []]> (extents (idx F))) as Hx1.
  { rw - Ei. by repeat case_decide. }
  assert (∀ p nm, dir_lookup (idx F1) p nm = dir_lookup (idx F) p nm) as Hd1.
  { move=> p nm. rw - Ei. by repeat case_decide. }
  specialize (Hty (nextIno (idx F))). rw Hn /= Ht in Hty.
  destruct (inodes (idx F2) !! nextIno (idx F)) as [n2|] eqn:Hn2; [|done].
  simpl in Hty. injection Hty as Hty.
  split_and!.
  - rw /Lookup Index_Lookup_dir Hdl decide_True // /GetInode Hn2 /= Hty. done.
  - done.
  - destruct (inodes (idx F) !! nextIno (idx F)) as [m|] eqn:E; [|done]. exfalso.
    destruct (core_key _ _ _ _ (wf_struct _ (fi_idx _ _ H)) _ _ (skeleton_Some _ _ _ E)). lia.
  - by rw Hex Hx1 lookup_insert_eq.
  - move=> p nm Hne. by rw Hdl decide_False.
  - move=> j o Hj. by rw /file_content Ec2 Ec1 Hex Hx1 lookup_insert_ne.
Qed.

(** [Create] on a name that exists fails with EEXIST, but only after it has
    allocated an inode, which stays in the index with no links. *)
Theorem Create_existing_leaks ino name mode caller now F x :
  fs_inv obj F → dir_lookup (idx F) ino name = Some x →
  match Create ino name mode caller now F with
  | Fail e F' => e = EEXIST ∧ nextIno (idx F') = u64 (nextIno (idx F) + 1) ∧
      inodes (idx F) !! nextIno (idx F) = None ∧
      ∃ n, inodes (idx F') !! nextIno (idx F) = Some n ∧ Inode.Nlink n = 0
  | _ => False
  end.
Proof.
  move=> H Hx. rw /Create /create_entry. destruct (caller_ids caller) as [uid gid].
  destruct (CreateInode Regular (Z.land mode 0xFFF) uid gid 0 now (idx F)) as [c i1|e i1|] eqn:E1 => //.
  rw {1}/on_idx E1 /=. pose proof E1 as Ei. injection Ei as <- Ei.
  assert (dir_lookup i1 ino name = Some x) as Hx1 by (rw - Ei; by repeat case_decide).
  assert (inodes (idx F) !! nextIno (idx F) = None) as Hfresh.
  { destruct (inodes (idx F) !! nextIno (idx F)) as [m|] eqn:E; [|done]. exfalso.
    destruct (core_key _ _ _ _ (wf_struct _ (fi_idx _ _ H)) _ _ (skeleton_Some _ _ _ E)). lia. }
  assert (nextIno i1 = u64 (nextIno (idx F) + 1)) as Hnx by (rw - Ei; by repeat case_decide).
  assert (∃ n, inodes i1 !! nextIno (idx F) = Some n ∧ Inode.Nlink n = 0) as Hn.
  { rw - Ei. repeat case_decide => //=; rw lookup_insert_eq; by eexists. }
  destruct Hn as (n & Hn & Hl). rw /on_idx /= /AddDirEntry Hx1 Hn.
  destruct (inodes i1 !! ino) as [pn|]; [case_decide|]; split_and!; eauto.
Qed.

(** [Rmdir] removes the entry exactly when it names an empty directory, and
    otherwise changes nothing and answers ENOENT, ENOTDIR or ENOTEMPTY as
    rmdir(2) asks. *)
Theorem Rmdir_answers ino name now F :
  fs_inv obj F →
  match Rmdir ino name now F with
  | Ret _ F' => dir_lookup (idx F') ino name = None ∧
      ∃ c n, dir_lookup (idx F) ino name = Some c ∧ inodes (idx F) !! c = Some n ∧
        Inode.FileType n = Directory ∧ size (default ∅ (dirIndex (idx F) !! c)) = 0%nat
  | Fail e F' => F' = F ∧
      match e with
      | ENOENT => dir_lookup (idx F) ino name = None
      | ENOTDIR => ∃ c n, dir_lookup (idx F) ino name = Some c ∧
          inodes (idx F) !! c = Some n ∧ Inode.FileType n ≠ Directory
      | ENOTEMPTY => ∃ c, dir_lookup (idx F) ino name = Some c ∧
          (0 < size (default ∅ (dirIndex (idx F) !! c)))%nat
      | _ => False
      end
  | Crash => False
  end.
Proof.
  move=> H. rw /Rmdir Index_Lookup_dir. destruct (dir_lookup (idx F) ino name) as [c|] eqn:Hd; [|done].
  destruct (wf_entry_child _ _ _ _ (fi_idx _ _ H) Hd) as (Hp & _ & n & Hn). rw /GetInode Hn.
  case_decide as Ht; [by eauto 6|]. rw /on_idx /RemoveDirEntry Hd Hn.
  destruct (inodes (idx F) !! ino) as [pn|] eqn:Hpn; last first.
  { exfalso. apply (core_dirs _ _ _ _ (wf_struct _ (fi_idx _ _ H))) in Hp as (sk & Hsk & _).
    by rw skeleton_lookup Hpn in Hsk. }
  assert (Inode.FileType n = Directory) as Ht' by by destruct (decide (Inode.FileType n = Directory)).
  case_decide as Hsz; [split; [by destruct F|]; simpl; destruct Hsz as [_ Hsz]; exists c; by split|]. split.
  - rw /dir_lookup /=. assert (∀ m : gmap Z (gmap string Z),
      alter (delete name) ino m !! ino ≫= lookup name = None) as Hal.
    { move=> m. rw lookup_alter_eq. destruct (m !! ino) => //=. by rw lookup_delete_eq. }
    case_match; rw /=; [|by apply Hal].
    destruct (decide (c = ino)) as [->|]; [by rw lookup_delete_eq|rw lookup_delete_ne //].
  - exists c, n. split_and!; [done..|]. destruct (size _) as [|k]; [done|].
    exfalso. apply Hsz. split; [done|lia].
Qed.

(** Extended attributes: after [Setxattr], [Getxattr] of the same name
    reports the length for an empty buffer, ERANGE for a buffer that is too
    small, and otherwise returns exactly the bytes that were set; after
    [Removexattr] it answers ENODATA. *)
Theorem xattr_roundtrip ino attr data now n F F' :
  Setxattr ino attr data now F = Ret tt F' →
  Getxattr ino attr n F' =
    (if n =? 0 then Ret (u32 (len data), []) F'
     else if n <? len data then Fail ERANGE F'
     else Ret (u32 (len data), data) F') ∧
  match Removexattr ino attr now F' with
  | Ret _ F'' => Getxattr ino attr n F'' = Fail ENODATA F''
  | _ => False
  end.
Proof.
  intros (E & _)%on_idx_ret. revert E. rw /SetXattr.
  destruct (inodes (idx F) !! ino) as [nd|] eqn:Hn => // -[Ei]. split.
  - rw /Getxattr /GetXattrs - Ei /= lookup_insert_eq /= lookup_insert_eq.
    rw String.list_byte_of_string_of_list_byte. done.
  - rw /Removexattr /on_idx /RemoveXattr - Ei /= lookup_alter_eq Hn /= lookup_insert_eq /= lookup_insert_eq.
    by rw /Getxattr /GetXattrs /= lookup_alter_eq lookup_insert_eq /= lookup_delete_eq.
Qed.

(** Times: an access time that [Setattr] is given, in seconds and
    nanoseconds, is the one that it and every later [Getattr] report. *)
Theorem Setattr_atime_roundtrip B ino inp now F out F' :
  Setattr B ino inp now F = Ret out F' →
  Z.land (SetAttrIn.Valid inp) (FATTR_ATIME B) ≠ 0 →
  0 <= SetAttrIn.Atime inp → 0 <= SetAttrIn.Atimensec inp < nsec →
  SetAttrIn.Atime inp * nsec + SetAttrIn.Atimensec inp <= int64_max →
  Attr.Atime (ao_Attr out) = SetAttrIn.Atime inp ∧
  Attr.Atimensec (ao_Attr out) = SetAttrIn.Atimensec inp ∧
  Getattr ino F' = Ret out F'.
Proof.
  move=> E Hbit Hs Hns Hm. revert E. rw /Setattr.
  set mode := when_bit _ (FATTR_MODE B) _. set uid := when_bit _ (FATTR_UID B) _.
  set gid := when_bit _ (FATTR_GID B) _. set size := when_bit _ (FATTR_SIZE B) _.
  set mtime := when_bit _ (FATTR_MTIME B) _.
  rw {1}/when_bit. destruct (Z.eqb_spec (Z.land (SetAttrIn.Valid inp) (FATTR_ATIME B)) 0); [done|].
  intros (u & F1 & E1 & E2)%obind_ret_inv. rw /Getattr.
  destruct (GetInode (idx F1) ino) as [n2 []] eqn:Hg => //. injection E2 as <- <-. rw Hg.
  apply on_idx_ret in E1 as (E1 & _).
  destruct u.
  assert (Inode.Atime n2 = unix_nano (SetAttrIn.Atime inp) (SetAttrIn.Atimensec inp)) as Ea.
  { revert E1 Hg. rw /SetAttr /GetInode. destruct (inodes (idx F) !! ino) as [n0|] eqn:Hn => // -[<-].
    destruct size as [z|]; [case_decide; [case_decide|]|]; rw /= !lookup_alter_eq Hn /= => -[<-];
      by destruct mtime, mode, uid, gid. }
  rw /nsec in Hns Hm. rw /= Ea /unix_nano /nsec.
  rw !(i64_small (SetAttrIn.Atime inp)); [|rw /is_i64; lia].
  rw !(i64_small (SetAttrIn.Atime inp * _)); [|rw /is_i64; lia].
  rw !i64_small; [|rw /is_i64; lia].
  rw /go_div /go_mod Z.quot_div_nonneg; [|lia..]. rw Z.rem_mod_nonneg; [|lia..].
  rw Z.div_add_l; [|lia]. rw (Z.div_small (SetAttrIn.Atimensec inp)); [|lia].
  rw (Z.add_comm (SetAttrIn.Atime inp * _)) Z.mod_add; [|lia].
  rw (Z.mod_small (SetAttrIn.Atimensec inp)); [|lia]. rw Z.add_0_r.
  split_and!; [|by rw u32_small // /is_u32; lia|done]. rw u64_small // /is_u64. lia.
Qed.

(** [Statfs] leaves the file system alone and never reports more free than
    total blocks; it panics only for a block size of zero. *)
Theorem Statfs_free_within_total F :
  0 <= UsedBytes (idx F) → 0 <= maxFSSize F <= int64_max →
  match Statfs F with
  | Ret o F' => F' = F ∧ 0 <= Bfree o <= Blocks o ∧ Bavail o = Bfree o
  | Fail _ _ => False
  | Crash => u64 (BlockSz (idx F)) = 0
  end.
Proof.
  move=> Hu Hm. rw /Statfs. destruct (Z.eqb_spec (u64 (BlockSz (idx F))) 0) as [|Hb]; [done|].
  split; [done|]. split; [|done]. simpl.
  assert (0 < u64 (BlockSz (idx F))) as Hpos.
  { pose proof (Z.mod_pos_bound (BlockSz (idx F)) (2 ^ 64)) as Hr. rw /u64 in Hb |- *. lia. }
  pose proof (UsedBytes_range (idx F)) as Hur. rw /is_i64 in Hur.
  rw (i64_small (maxFSSize F - _)); [|rw /is_i64; lia].
  set (free := if _ <? 0 then 0 else _).
  assert (0 <= free <= maxFSSize F) as Hf by (rw /free; zcases; lia).
  rw (u64_small free); [|rw /is_u64; lia]. rw (u64_small (maxFSSize F)); [|rw /is_u64; lia].
  split; [apply Z.div_pos; lia|apply Z.div_le_mono; lia].
Qed.
End properties.
