(* ===== verification/FuseWitness.v ===== *)
(** A concrete file system, on a directory store, that satisfies the
    hypotheses of the theorems of FuseProps.v: a new file system, a file
    created in it, two bytes written to it. *)
From S2P Require Import Prelude Types Extents Index IndexInv OS Decimal Persist Store Cache ChunkStore.
From S2P Require Import ChunkProps Fuse FuseData FuseInv FuseProps.
#[local] Open Scope Z_scope.

#[local] Existing Instance demo_store.
#[local] Existing Instance demo_laws.
#[local] Existing Instance count_codec.

(** A new file system in the demo session, with a capacity of 100 bytes, and
    the same with a file of two bytes. *)
Definition demo_fs : Fusey Disk := mkFusey (New 4096 0) demo_session 100 "cache".

Definition after {A} (m : outcome Errno (Fusey Disk) A) : Fusey Disk :=
  default demo_fs (out_state m).

Definition demo_created : Fusey Disk := after (Create RootIno "f" 0x1A4 None 1 demo_fs).
Definition demo_written : Fusey Disk := after (FileHandle_Write 2 ab 0 2 demo_created).

Lemma demo_fs_inv : fs_inv demo_obj demo_fs.
Proof.
  split.
  - apply New_wf.
  - exact demo_session_wf.
  - move=> ino o sz. rw /finfo /=. destruct (decide (ino = RootIno)) as [->|].
    + by rw lookup_singleton_eq.
    + by rw lookup_singleton_ne.
  - move=> c. vm_compute. by move=> [<-].
Qed.

Lemma demo_created_inv : fs_inv demo_obj demo_created.
Proof.
  pose proof (Create_safe demo_obj RootIno "f" 0x1A4 None 1 demo_fs demo_fs_inv ltac:(by vm_compute)) as H.
  rw /demo_created /after. rw /fs_safe in H. by destruct (out_state _).
Qed.

Lemma demo_write_ok : req_ok (RWrite 2 ab 0 2) demo_created.
Proof. split_and!; [done|done|by vm_compute|by vm_compute]. Qed.

Lemma demo_written_ret : FileHandle_Write 2 ab 0 2 demo_created = Ret 2 demo_written.
Proof. by vm_compute. Qed.

Lemma demo_written_inv : fs_inv demo_obj demo_written.
Proof.
  destruct demo_write_ok as (H1 & H2 & H3 & H4).
  pose proof (FileHandle_Write_cases demo_obj 2 ab 0 2 demo_created demo_created_inv H1 H2 H3 H4) as HW.
  rw demo_written_ret in HW. destruct HW as (_ & exts & ext & Hw).
  exact (wr_inv _ _ _ _ _ _ _ _ Hw).
Qed.

Definition demo_inode : Inode.t := (GetInode (idx demo_written) 2).1.
Definition demo_exts : list Extent.t := default [] (extents (idx demo_written) !! 2).

Lemma demo_inode_eq : inodes (idx demo_written) !! 2 = Some demo_inode.
Proof. by vm_compute. Qed.
Lemma demo_exts_eq : extents (idx demo_written) !! 2 = Some demo_exts.
Proof. by vm_compute. Qed.

Lemma requests_keep_invariant_witness :
  fs_inv demo_obj demo_written ∧ ∃ F'', serve RFsync demo_written = Some F'' ∧ fs_inv demo_obj F''.
Proof.
  apply (requests_keep_invariant demo_obj (L:=demo_laws) demo_written demo_written RFsync);
    [apply served_nil|exact demo_written_inv|exact I].
Defined.

Lemma Read_returns_content_witness :
  match FileHandle_Read 2 10 0 5 demo_written with
  | Ret buf F' => fs_inv demo_obj F' ∧ len buf = 2 | _ => False end.
Proof.
  pose proof (Read_returns_content demo_obj (L:=demo_laws) 2 10 0 5 demo_written demo_exts demo_inode
    demo_written_inv eq_refl ltac:(lia) ltac:(lia) demo_inode_eq demo_exts_eq) as H.
  destruct (FileHandle_Read 2 10 0 5 demo_written) as [buf F'|e F'|] eqn:E; [|by vm_compute in E..].
  destruct H as (H1 & H2 & _). split; [exact H1|]. rw H2. by vm_compute.
Defined.

(** Overwriting the second byte and two more. *)
Definition demo_write2 : outcome Errno (Fusey Disk) Z := FileHandle_Write 2 cde 1 3 demo_written.

Lemma demo_write2_ok : req_ok (RWrite 2 cde 1 3) demo_written.
Proof. split_and!; [done|done|by vm_compute|by vm_compute]. Qed.

Lemma demo_write2_ret : FileHandle_Write 2 cde 1 3 demo_written = Ret 3 (after demo_write2).
Proof. by vm_compute. Qed.

Lemma Write_updates_content_witness :
  file_content demo_obj (after demo_write2) 2 0 = file_content demo_obj demo_written 2 0 ∧
  file_content demo_obj (after demo_write2) 2 3 = Some Byte.x65.
Proof.
  destruct (Write_updates_content demo_obj (L:=demo_laws) 2 cde 1 3 demo_written 3 (after demo_write2) demo_exts
    demo_written_inv demo_write2_ok demo_write2_ret demo_exts_eq ltac:(by vm_compute)) as (_ & H & _).
  split; [exact (H 0)|exact (H 3)].
Defined.

Lemma Write_then_Read_witness :
  match FileHandle_Read 2 (len cde) 1 9 (after demo_write2) with
  | Ret buf _ => buf = cde | Fail e _ => e = EIO | Crash => False end.
Proof.
  exact (Write_then_Read demo_obj (L:=demo_laws) 2 cde 1 3 9 demo_written 3 (after demo_write2) demo_exts
    demo_written_inv demo_write2_ok demo_write2_ret demo_exts_eq ltac:(by vm_compute)).
Defined.

(** A write that would take the file beyond the capacity. *)
Lemma demo_full_ret : FileHandle_Write 2 ab 99 3 demo_written = Fail ENOSPC demo_written.
Proof. by vm_compute. Qed.

Lemma Write_fails_cleanly_witness :
  maxFSSize demo_written < UsedBytes (idx demo_written) +! (99 + len ab -! Inode.Size demo_inode).
Proof.
  assert (req_ok (RWrite 2 ab 99 3) demo_written) as Hok
    by (split_and!; [done|done|by vm_compute|by vm_compute]).
  destruct (Write_fails_cleanly demo_obj (L:=demo_laws) 2 ab 99 3 demo_written ENOSPC demo_written
    demo_written_inv Hok demo_full_ret) as (_ & _ & H & _).
  destruct (H eq_refl) as (_ & n & Hn & _ & Hlt). rw demo_inode_eq in Hn. injection Hn as <-. exact Hlt.
Defined.

(** The bits of the Linux FUSE protocol. *)
Definition demo_bits : FattrBits := mkFattr 1 2 4 8 16 32.
Definition demo_truncate : SetAttrIn.t := SetAttrIn.mk 8 0 0 0 1 0 0 0 0.
Definition demo_utimes : SetAttrIn.t := SetAttrIn.mk 16 0 0 0 0 12 34 0 0.

Lemma Setattr_sets_length_witness :
  match Setattr demo_bits 2 demo_truncate 7 demo_written with
  | Ret out F' => file_content demo_obj F' 2 1 = Some zero_byte
  | _ => False
  end.
Proof.
  destruct (Setattr demo_bits 2 demo_truncate 7 demo_written) as [out F'|e F'|] eqn:E; [|by vm_compute in E..].
  destruct (Setattr_sets_length demo_obj demo_bits 2 demo_truncate 7 demo_written out F' demo_inode 1
    demo_written_inv demo_inode_eq ltac:(by vm_compute) ltac:(by vm_compute) E) as (_ & H & _).
  exact (H 1).
Defined.

Lemma Setattr_atime_roundtrip_witness :
  match Setattr demo_bits 2 demo_utimes 7 demo_written with
  | Ret out _ => Attr.Atime (ao_Attr out) = 12 ∧ Attr.Atimensec (ao_Attr out) = 34
  | _ => False
  end.
Proof.
  destruct (Setattr demo_bits 2 demo_utimes 7 demo_written) as [out F'|e F'|] eqn:E; [|by vm_compute in E..].
  destruct (Setattr_atime_roundtrip demo_bits 2 demo_utimes 7 demo_written out F' E
    ltac:(by vm_compute) ltac:(by vm_compute) ltac:(by vm_compute) ltac:(by vm_compute)) as (H1 & H2 & _).
  by split.
Defined.

Lemma Create_then_Lookup_witness :
  match Create RootIno "f" 0x1A4 None 1 demo_fs with
  | Ret (out, c) F' => Lookup RootIno "f" F' = Ret out F' ∧ eo_Ino out = c
  | _ => False
  end.
Proof.
  destruct (Create RootIno "f" 0x1A4 None 1 demo_fs) as [[out c] F'|e F'|] eqn:E; [|by vm_compute in E..].
  destruct (Create_then_Lookup demo_obj RootIno "f" 0x1A4 None 1 demo_fs out c F' demo_fs_inv
    ltac:(by vm_compute) E) as (H1 & H2 & _). by split.
Defined.

Lemma Create_existing_leaks_witness :
  match Create RootIno "f" 0x1A4 None 1 demo_created with
  | Fail e F' => e = EEXIST ∧ nextIno (idx F') = 4
  | _ => False
  end.
Proof.
  pose proof (Create_existing_leaks demo_obj RootIno "f" 0x1A4 None 1 demo_created 2
    demo_created_inv ltac:(by vm_compute)) as H.
  destruct (Create RootIno "f" 0x1A4 None 1 demo_created) as [x F'|e F'|] eqn:E; [by vm_compute in E| |by vm_compute in E].
  destruct H as (H1 & H2 & _). split; [exact H1|]. rw H2. by vm_compute.
Defined.

Lemma Rmdir_answers_witness :
  match Rmdir RootIno "f" 3 demo_created with Fail e _ => e = ENOTDIR | _ => False end.
Proof.
  pose proof (Rmdir_answers demo_obj RootIno "f" 3 demo_created demo_created_inv) as H.
  destruct (Rmdir RootIno "f" 3 demo_created) as [x F'|e F'|] eqn:E; [by vm_compute in E| |by vm_compute in E].
  destruct H as [_ H], e; try done; by vm_compute in E.
Defined.

Lemma xattr_roundtrip_witness :
  match Setxattr 2 "user.k" cde 3 demo_created with
  | Ret _ F' => Getxattr 2 "user.k" 8 F' = Ret (3, cde) F'
  | _ => False
  end.
Proof.
  destruct (Setxattr 2 "user.k" cde 3 demo_created) as [[] F'|e F'|] eqn:E; [|by vm_compute in E..].
  destruct (xattr_roundtrip 2 "user.k" cde 3 8 demo_created F' E) as [H _]. exact H.
Defined.

Lemma Statfs_free_within_total_witness :
  match Statfs demo_written with Ret o _ => 0 <= Bfree o <= Blocks o | _ => False end.
Proof.
  pose proof (Statfs_free_within_total demo_written ltac:(by vm_compute) ltac:(by vm_compute)) as H.
  destruct (Statfs demo_written) as [o F'|e F'|] eqn:E; [|by vm_compute in E..]. apply H.
Defined.

(** A process that starts on what [F] left behind. *)
Definition restart (F : Fusey Disk) : outcome ChunkErr (cstate Disk) unit :=
  RecoverNextSeq (mkCState (NewChunkStore 4)
    (mkWorld (backing (wd (chunks F))) (pop_fault (local (wd (chunks F)))))).

Lemma demo_written_canonical : canonical_extents (extents (idx demo_written)).
Proof.
  move=> ino exts. assert (extents (idx demo_written) = {[ 2 := demo_exts ]}) as -> by by vm_compute.
  destruct (decide (ino = 2)) as [->|]; [|by rw lookup_singleton_ne].
  rw lookup_singleton_eq => -[<-].
  assert (demo_exts = [Extent.mk (format_chunk_id 0) 0 2 0]) as -> by by vm_compute.
  repeat constructor. exists 0. split; [lia|done].
Qed.

Lemma Fsync_snapshot_complete_witness :
  ∃ F' s2, Fsync demo_written = Ret tt F' ∧ restart F' = Ret tt s2 ∧
  Load "cache" 4096 (local (wd (chunks F'))) =
    Ret (reloaded (idx demo_written) 4096) (pop_fault (local (wd (chunks F')))) ∧
  file_content demo_obj (mkFusey (reloaded (idx demo_written) 4096) s2 100 "cache") 2 1 =
  file_content demo_obj demo_written 2 1.
Proof.
  assert (match Fsync demo_written with
    | Ret _ F' => match restart F' with Ret _ _ => next_fault (local (wd (chunks F'))) | _ => FaultNow end
    | _ => FaultNow end = NoFault) as H by (vm_compute; reflexivity).
  destruct (Fsync demo_written) as [[] F'|e F'|] eqn:H1; [|discriminate..].
  destruct (restart F') as [[] s2|e s2|] eqn:H2; [|discriminate..].
  exists F', s2. split; [reflexivity|]. split; [exact H2|].
  assert (nextSeq (cs (chunks demo_written)) <= 10 ^ 8) as H4 by by vm_compute.
  assert (0 <= 4 < 2 ^ 62) as H5 by lia.
  assert (cacheDir demo_written ≠ ""%string) as H6 by by vm_compute.
  assert (cacheDir demo_written = "cache"%string ∧ maxFSSize demo_written = 100) as [E1 E2]
    by (vm_compute; split; reflexivity).
  assert (loadable (idx demo_written) = true) as H7 by by vm_compute.
  pose proof (Fsync_snapshot_complete demo_obj (L:=demo_laws) (C:=count_codec) (CborLaws0:=count_codec_laws)
    demo_written tt F' 4096 4 tt s2 demo_written_inv demo_written_canonical H7 H6 H1 H H5 H4 H2) as HR.
  rw E1 E2 in HR. destruct HR as [HL [_ HC]]. split; [exact HL|exact (HC 2 1)].
Defined.
