(* ===== verification/FsSpec.v ===== *)
(** The file system that users see: a tree of named nodes with bytes,
    attributes and extended attributes, and for each request of the kernel the
    answers it may get and the tree after it. Chunks, extents, inode tables,
    caches and stores do not occur here; SpecRefine.v proves that the handlers
    of src/internal/fuse/fs.go implement it.

    The changes of the tree are those of src/specs/filesystem.qnt; the error
    answers are those of the handlers, which differ from the ones that file lists
    in these cases: [setattr] of a missing node (EIO, listed ENOENT); [link] of a
    directory (EPERM, listed EISDIR); [create], [mkdir], [symlink] and [link] in a
    directory that is gone or is no directory (EEXIST, listed ENOENT and ENOTDIR);
    [lookup] in a node that is no directory (ENOENT, listed ENOTDIR); [read] of a
    node that is no file (no bytes and no error, listed EISDIR and EINVAL);
    [write] to one (EIO, listed EISDIR); [readlink] of a missing node (EINVAL,
    listed ENOENT); [rename] (always EIO, also a replacement of a directory by a
    file and a move of a directory into itself, which it allows); [unlink] of a
    directory, which the kernel does not send (the empty directory is removed,
    listed EISDIR). [readdir] leaves the access time, which that file sets.
    SpecDemo.answers_differ and SpecDemo.rename_errors evaluate them. *)
From S2P Require Import Prelude Types Extents Index IndexInv OS Decimal Persist Store Cache ChunkStore.
From S2P Require Import Fuse FuseProps.
#[local] Open Scope Z_scope.

(** ** The tree *)

Inductive kind :=
  | File (data : bytes)
  | Dir
  | Lnk (target : string)
  | Special.

#[global] Instance kind_eq_dec : EqDecision kind.
Proof. solve_decision. Defined.

Record node := mkNode {
  n_kind : kind;
  n_mode : Z;
  n_uid : Z;
  n_gid : Z;
  n_atime : Z;
  n_mtime : Z;
  n_ctime : Z;
  n_xattrs : gmap string string;
}.

(** The nodes, and the names of the directories: (directory, name) to node. *)
Record tree := mkTree {
  nodes : gmap Z node;
  names : gmap (Z * string) Z;
}.

(** A node lives as long as it has a name; the root needs none. *)
Definition linked (N : gmap (Z * string) Z) (ino : Z) : bool :=
  bool_decide (ino = RootIno) || (0 <? refs N ino).

Definition prune (t : tree) : tree :=
  mkTree (filter (λ kv, linked (names t) kv.1 = true) (nodes t)) (names t).

Definition is_dir (t : tree) (ino : Z) : bool :=
  match n_kind <$> nodes t !! ino with Some Dir => true | _ => false end.

Definition has_entries (t : tree) (ino : Z) : Prop := ∃ nm, is_Some (names t !! (ino, nm)).

(** ** Changes of a node *)

Definition with_kind k (nd : node) : node :=
  mkNode k (n_mode nd) (n_uid nd) (n_gid nd) (n_atime nd) (n_mtime nd) (n_ctime nd) (n_xattrs nd).
Definition with_xattrs x (nd : node) : node :=
  mkNode (n_kind nd) (n_mode nd) (n_uid nd) (n_gid nd) (n_atime nd) (n_mtime nd) (n_ctime nd) x.
Definition accessed (now : Z) (nd : node) : node :=
  mkNode (n_kind nd) (n_mode nd) (n_uid nd) (n_gid nd) now (n_mtime nd) (n_ctime nd) (n_xattrs nd).
Definition changed (now : Z) (nd : node) : node :=
  mkNode (n_kind nd) (n_mode nd) (n_uid nd) (n_gid nd) (n_atime nd) (n_mtime nd) now (n_xattrs nd).
Definition modified (now : Z) (nd : node) : node :=
  mkNode (n_kind nd) (n_mode nd) (n_uid nd) (n_gid nd) (n_atime nd) now now (n_xattrs nd).

(** A new node: three times the same time. *)
Definition fresh_node (k : kind) (perm : Z) (caller : option (Z * Z)) (now : Z) : node :=
  mkNode k perm (caller_ids caller).1 (caller_ids caller).2 now now now ∅.

(** The bytes [w] at offset [off], zeros where the file did not reach. *)
Definition overwrite (off : nat) (w data : bytes) : bytes :=
  resize off zero_byte data ++ w ++ drop (off + length w) data.

(** What a [setattr] request asks for. *)
Record wanted := mkWanted {
  w_mode : option Z; w_uid : option Z; w_gid : option Z; w_size : option Z;
  w_atime : option Z; w_mtime : option Z;
}.

Definition wants (B : FattrBits) (inp : SetAttrIn.t) : wanted :=
  let bit := when_bit (SetAttrIn.Valid inp) in
  mkWanted (bit (FATTR_MODE B) (Z.ldiff (SetAttrIn.Mode inp) type_bits))
    (bit (FATTR_UID B) (SetAttrIn.Uid inp)) (bit (FATTR_GID B) (SetAttrIn.Gid inp))
    (bit (FATTR_SIZE B) (i64 (SetAttrIn.Size inp)))
    (bit (FATTR_ATIME B) (unix_nano (SetAttrIn.Atime inp) (SetAttrIn.Atimensec inp)))
    (bit (FATTR_MTIME B) (unix_nano (SetAttrIn.Mtime inp) (SetAttrIn.Mtimensec inp))).

(** A file that is resized has a new modification time, also when another one
    was asked for. *)
Definition set_attrs (w : wanted) (now : Z) (nd : node) : node :=
  let mtime := default (n_mtime nd) (w_mtime w) in
  let (k, mtime) :=
    match n_kind nd, w_size w with
    | File data, Some z =>
        if decide (z = len data) then (n_kind nd, mtime)
        else (File (resize (Z.to_nat z) zero_byte data), now)
    | k, _ => (k, mtime)
    end in
  mkNode k (default (n_mode nd) (w_mode w)) (default (n_uid nd) (w_uid w))
    (default (n_gid nd) (w_gid w)) (default (n_atime nd) (w_atime w)) mtime now (n_xattrs nd).

(** ** Changes of the tree *)

Definition on_node (ino : Z) (f : node → node) (t : tree) : tree :=
  mkTree (alter f ino (nodes t)) (names t).

Definition add_node (p : Z) (nm : string) (c : Z) (nd : node) (now : Z) (t : tree) : tree :=
  mkTree (alter (modified now) p (<[c := nd]> (nodes t))) (<[(p, nm) := c]> (names t)).

Definition add_name (p : Z) (nm : string) (c now : Z) (t : tree) : tree :=
  mkTree (alter (modified now) p (alter (changed now) c (nodes t))) (<[(p, nm) := c]> (names t)).

Definition remove_name (p : Z) (nm : string) (c now : Z) (t : tree) : tree :=
  prune (mkTree (alter (modified now) p (alter (changed now) c (nodes t))) (delete (p, nm) (names t))).

Definition move_name (p : Z) (nm : string) (p' : Z) (nm' : string) (c now : Z) (t : tree) : tree :=
  prune (mkTree (alter (modified now) p' (alter (modified now) p (alter (changed now) c (nodes t))))
           (<[(p', nm') := c]> (delete (p, nm) (names t)))).

(** ** Answers *)

Inductive answer :=
  | AErr (e : Errno)
  | AOk
  | AAttr (a : Attr.t)
  | AEntry (ino : Z) (a : Attr.t)
  | ADir (l : list dirent)
  | AData (b : bytes)
  | ACount (n : Z)
  | ACopy (n : Z) (b : bytes)
  | AHandle (ino : Z)
  | AStat (s : StatfsOut).

Definition type_of (k : kind) (ft : Z) : Prop :=
  match k with File _ => ft = Regular | Dir => ft = Directory | Lnk _ => ft = Symlink | Special => True end.

(** Seconds and nanoseconds of a point in time. *)
Definition instant (time sec ns : Z) : Prop :=
  0 <= time < 2 ^ 63 → time = sec * nsec + ns ∧ 0 <= ns < nsec.

(** The attributes [a] are those of node [ino]. *)
Record shows (t : tree) (ino : Z) (nd : node) (a : Attr.t) : Prop := {
  sh_ino : Attr.Ino a = ino;
  sh_mode : ∃ ft, type_of (n_kind nd) ft ∧ Attr.Mode a = Z.lor ft (n_mode nd);
  sh_uid : Attr.Uid a = n_uid nd;
  sh_gid : Attr.Gid a = n_gid nd;
  sh_nlink : Attr.Nlink a = refs (names t) ino + (if decide (n_kind nd = Dir) then 1 else 0);
  sh_size : match n_kind nd with
            | File data => Attr.Size a = len data ∧ Attr.Blocks a = u64 (blocks512 (len data))
            | Lnk target => Attr.Size a = u64 (Z.of_nat (String.length target))
            | _ => True
            end;
  sh_atime : instant (n_atime nd) (Attr.Atime a) (Attr.Atimensec a);
  sh_mtime : instant (n_mtime nd) (Attr.Mtime a) (Attr.Mtimensec a);
  sh_ctime : instant (n_ctime nd) (Attr.Ctime a) (Attr.Ctimensec a);
}.

(** The listing of a directory: itself, its parent, and each name once. *)
Definition lists (t : tree) (ino : Z) (l : list dirent) : Prop :=
  ∃ parent rest, l = (Directory, "."%string, ino) :: (Directory, ".."%string, parent) :: rest ∧
    (if decide (ino = RootIno) then parent = RootIno else ∃ nm, names t !! (parent, nm) = Some ino) ∧
    NoDup rest.*1.*2 ∧
    ∀ nm c, (∃ ft, (ft, nm, c) ∈ rest) ↔ names t !! (ino, nm) = Some c.

(** A value for a buffer of [n] bytes; with [n = 0] only its size is asked. *)
Definition copied (n : Z) (v : bytes) (a : answer) : Prop :=
  if decide (n = 0) then a = ACopy (u32 (len v)) []
  else if decide (n < len v) then a = AErr ERANGE
  else a = ACopy (u32 (len v)) v.

(** A new node under a name, or EEXIST when the name is taken or there is no
    such directory. *)
Definition creates (p : Z) (nm : string) (nd : node) (now : Z) (t : tree) (a : answer) (t' : tree) : Prop :=
  if decide (is_dir t p = true ∧ names t !! (p, nm) = None)
  then ∃ c at_, nodes t !! c = None ∧ t' = add_node p nm c nd now t ∧ a = AEntry c at_ ∧ shows t' c nd at_
  else a = AErr EEXIST ∧ t' = t.

(** What [statfs] reports beside the block counts, on which
    FuseProps.Statfs_free_within_total has more. *)
Definition coherent (s : StatfsOut) : Prop :=
  Fuse.Bavail s = Fuse.Bfree s ∧ Fuse.Ffree s = Fuse.Files s ∧ Fuse.Frsize s = Fuse.Bsize s ∧ Fuse.NameLen s = 255.

(** ** What a request may do *)

Definition allowed (r : request) (t : tree) (a : answer) (t' : tree) : Prop :=
  match r with
  | RGetattr ino => t' = t ∧
      match nodes t !! ino with
      | None => a = AErr ENOENT
      | Some nd => ∃ at_, a = AAttr at_ ∧ shows t ino nd at_
      end
  | RSetattr B ino inp now =>
      match nodes t !! ino with
      | None => a = AErr EIO ∧ t' = t
      | Some nd => let nd' := set_attrs (wants B inp) now nd in
          t' = on_node ino (set_attrs (wants B inp) now) t ∧ ∃ at_, a = AAttr at_ ∧ shows t' ino nd' at_
      end
  | RLookup p nm => t' = t ∧
      match names t !! (p, nm) with
      | None => a = AErr ENOENT
      | Some c => ∃ nd at_, nodes t !! c = Some nd ∧ a = AEntry c at_ ∧ shows t c nd at_
      end
  | RReaddir ino => t' = t ∧
      match nodes t !! ino with
      | None => a = AErr ENOENT
      | Some nd => if decide (is_dir t ino = true) then ∃ l, a = ADir l ∧ lists t ino l else a = AErr ENOTDIR
      end
  | RCreate p nm mode caller now => creates p nm (fresh_node (File []) (Z.land mode 0xFFF) caller now) now t a t'
  | RMkdir p nm mode caller now => creates p nm (fresh_node Dir (Z.land mode 0xFFF) caller now) now t a t'
  | RSymlink p target nm caller now => creates p nm (fresh_node (Lnk target) 0x1FF caller now) now t a t'
  | RReadlink ino => t' = t ∧
      match n_kind <$> nodes t !! ino with
      | Some (Lnk target) => a = AData (String.list_byte_of_string target)
      | _ => a = AErr EINVAL
      end
  | RLink p None _ _ => a = AErr EINVAL ∧ t' = t
  | RLink p (Some c) nm now =>
      match nodes t !! c with
      | None => a = AErr ENOENT ∧ t' = t
      | Some nd =>
          if decide (is_dir t c = true) then a = AErr EPERM ∧ t' = t
          else if decide (is_dir t p = true ∧ names t !! (p, nm) = None)
          then t' = add_name p nm c now t ∧ ∃ at_, a = AEntry c at_ ∧ shows t' c (changed now nd) at_
          else a = AErr EEXIST ∧ t' = t
      end
  | RUnlink p nm now =>
      match names t !! (p, nm) with
      | None => a = AErr ENOENT ∧ t' = t
      | Some c => a = AOk ∧ t' = remove_name p nm c now t
      end
  | RRmdir p nm now =>
      match names t !! (p, nm) with
      | None => a = AErr ENOENT ∧ t' = t
      | Some c =>
          (is_dir t c = false ∧ a = AErr ENOTDIR ∧ t' = t) ∨
          (is_dir t c = true ∧ has_entries t c ∧ a = AErr ENOTEMPTY ∧ t' = t) ∨
          (is_dir t c = true ∧ ~ has_entries t c ∧ a = AOk ∧ t' = remove_name p nm c now t)
      end
  | RRename _ _ None _ _ => a = AErr EINVAL ∧ t' = t
  | RRename p nm (Some p') nm' now =>
      match names t !! (p, nm) with
      | None => a = AErr EIO ∧ t' = t
      | Some c =>
          let blocked := ∃ d, names t !! (p', nm') = Some d ∧ is_dir t d = true ∧ has_entries t d in
          (blocked ∧ a = AErr EIO ∧ t' = t) ∨ (~ blocked ∧ a = AOk ∧ t' = move_name p nm p' nm' c now t)
      end
  | ROpen ino => t' = t ∧ a = match nodes t !! ino with None => AErr ENOENT | Some _ => AHandle ino end
  | RStatfs => t' = t ∧ ∃ s, a = AStat s ∧ coherent s
  | RGetxattr ino attr n => t' = t ∧
      match nodes t !! ino ≫= λ nd, n_xattrs nd !! attr with
      | None => a = AErr ENODATA
      | Some v => copied n (String.list_byte_of_string v) a
      end
  | RSetxattr ino attr data now =>
      match nodes t !! ino with
      | None => a = AErr EIO ∧ t' = t
      | Some nd => a = AOk ∧
          t' = on_node ino (λ nd, changed now (with_xattrs (<[attr := String.string_of_list_byte data]> (n_xattrs nd)) nd)) t
      end
  | RListxattr ino n => t' = t ∧
      ∃ attrs, attrs ≡ₚ (map_to_list (default ∅ (n_xattrs <$> nodes t !! ino))).*1 ∧
        copied n (flat_map (λ k, String.list_byte_of_string k ++ [zero_byte]) attrs) a
  | RRemovexattr ino attr now =>
      match nodes t !! ino ≫= λ nd, n_xattrs nd !! attr with
      | None => a = AErr ENODATA ∧ t' = t
      | Some _ => a = AOk ∧ t' = on_node ino (λ nd, changed now (with_xattrs (delete attr (n_xattrs nd)) nd)) t
      end
  | RRead ino n off now =>
      match nodes t !! ino with
      | None => a = AErr ENOENT ∧ t' = t
      | Some nd =>
          match n_kind nd with
          | File data =>
              (a = AErr EIO ∧ t' = t) ∨
              (a = AData (take (Z.to_nat n) (drop (Z.to_nat off) data)) ∧
               t' = if decide (off < len data) then on_node ino (accessed now) t else t)
          | _ => a = AData [] ∧ t' = t
          end
      end
  | RWrite ino data off now =>
      match nodes t !! ino with
      | None => a = AErr ENOENT ∧ t' = t
      | Some nd =>
          (a = AErr EIO ∧ t' = t) ∨
          (a = AErr ENOSPC ∧ (∀ old, n_kind nd = File old → len old < off + len data) ∧ t' = t) ∨
          ∃ old, n_kind nd = File old ∧ a = ACount (u32 (len data)) ∧
            t' = on_node ino (λ nd, modified now (with_kind (File (overwrite (Z.to_nat off) data old)) nd)) t
      end
  | RFlush => a = AOk ∧ t' = t
  | RFsync => t' = t ∧ (a = AOk ∨ a = AErr EIO)
  end.

(** A sequence of requests with their answers. *)
Inductive spec_run : tree → list (request * answer) → tree → Prop :=
  | spec_nil t : spec_run t [] t
  | spec_snoc t l t1 r a t2 : spec_run t l t1 → allowed r t1 a t2 → spec_run t (l ++ [(r, a)]) t2.
