(* ===== verification/SpecAbs.v ===== *)
(** The tree that an index and a chunk store stand for ([abs]), and how the
    elementary updates of an index change it. *)
From S2P Require Import Prelude Types Extents Index IndexInv OS Decimal Persist Store Cache ChunkStore.
From S2P Require Import Fuse FuseData FuseInv FuseProps FsSpec.
#[local] Open Scope Z_scope.

(** ** Names and pruning *)

Lemma linked_spec N ino : linked N ino = true ↔ ino = RootIno ∨ ∃ k, N !! k = Some ino.
Proof.
  rw /linked orb_true_iff bool_decide_eq_true Z.ltb_lt /refs.
  assert (0 < Z.of_nat (count_val ino N) ↔ ∃ k, N !! k = Some ino) as ->; [|done].
  destruct (decide (count_val ino N = 0%nat)) as [E|E].
  - split; [lia|]. intros [k Hk]. by apply (proj1 (count_val_zero ino N) E) in Hk.
  - split; [|lia]. intros _. destruct (decide (map_Exists (λ _ c, c = ino) N)) as [(k & c & Hk & ->)|Hn]; [by eauto|].
    exfalso. apply E, count_val_zero. intros k Hk. apply Hn. by exists k, ino.
Qed.

Lemma linked_name N k ino : N !! k = Some ino → linked N ino = true.
Proof. intros. apply linked_spec. eauto. Qed.

Lemma linked_insert N k c ino : linked N ino = true → N !! k = None → linked (<[k := c]> N) ino = true.
Proof.
  rw !linked_spec. intros [->|[k' Hk']] Hn; [by left|]. right. exists k'. rw lookup_insert_ne //. congruence.
Qed.

Lemma linked_insert_inv N k c ino : linked (<[k := c]> N) ino = true → ino = c ∨ linked N ino = true.
Proof.
  rw !linked_spec. intros [->|[k' [[_ <-]|[_ Hk']]%lookup_insert_Some]]; eauto.
Qed.

Lemma linked_delete N k ino : linked (delete k N) ino = true → linked N ino = true.
Proof. rw !linked_spec. intros [->|[k' [_ Hk']%lookup_delete_Some]]; eauto. Qed.

Lemma prune_lookup t ino : nodes (prune t) !! ino = if linked (names t) ino then nodes t !! ino else None.
Proof.
  simpl. destruct (linked (names t) ino) eqn:E.
  - destruct (nodes t !! ino) eqn:En.
    + by apply map_lookup_filter_Some.
    + apply map_lookup_filter_None. by left.
  - apply map_lookup_filter_None. right. intros nd _ H. simpl in H. congruence.
Qed.

Lemma prune_ext m m' N : (∀ ino, linked N ino = true → m !! ino = m' !! ino) → prune (mkTree m N) = prune (mkTree m' N).
Proof.
  intros H. rw /prune /=. f_equal. apply map_eq => ino.
  pose proof (prune_lookup (mkTree m N) ino) as E1. pose proof (prune_lookup (mkTree m' N) ino) as E2.
  simpl in E1, E2. rw E1 E2. destruct (linked N ino) eqn:E; [by apply H|done].
Qed.

(** An update that leaves the names alone. *)
Lemma prune_alter m N ino f : prune (mkTree (alter f ino m) N) = on_node ino f (prune (mkTree m N)).
Proof.
  rw /prune /on_node /=. f_equal. apply map_eq => k.
  pose proof (prune_lookup (mkTree (alter f ino m) N) k) as E1. pose proof (prune_lookup (mkTree m N) k) as E2.
  simpl in E1, E2. rw E1 !lookup_alter. case_decide as E; [subst k|]; rw E2; by destruct (linked N _).
Qed.

Section abs.
Context {W : Type} {S : Store W} (obj : W → string → option bytes) {L : StoreLaws S obj}.
Implicit Types s : cstate W.
Implicit Types F : Fusey W.

(** ** The bytes of a file as a list *)

Definition data_of s (exts : list Extent.t) (size : Z) : bytes :=
  (λ o, default zero_byte (content obj s exts o)) <$> seqZ 0 size.

Lemma len_data_of s exts size : 0 <= size → len (data_of s exts size) = size.
Proof. intros. rw /len /data_of length_fmap length_seqZ. lia. Qed.

Lemma lookup_data_of s exts size o : 0 <= o < size → Forall (good_ext obj s) exts →
  data_of s exts size !! Z.to_nat o = content obj s exts o.
Proof.
  intros Ho Hg. rw /data_of list_lookup_fmap.
  assert (seqZ 0 size !! Z.to_nat o = Some o) as -> by (apply lookup_seqZ; lia). simpl.
  by destruct (content_is_Some obj s exts o Hg) as [b ->].
Qed.

(** Two lists of bytes, by their contents. *)
Lemma data_of_eq s exts size (l : bytes) : 0 <= size → Forall (good_ext obj s) exts → len l = size →
  (∀ o, 0 <= o < size → l !! Z.to_nat o = content obj s exts o) → data_of s exts size = l.
Proof.
  intros Hs Hg Hl Hc. apply list_eq => j. destruct (decide (j < length l)%nat) as [Hj|Hj].
  - rw /len in Hl. specialize (Hc (Z.of_nat j) ltac:(lia)). rw Nat2Z.id in Hc. rw Hc.
    rw -{1}(Nat2Z.id j). apply lookup_data_of; [lia|done].
  - pose proof (len_data_of s exts size Hs). rw /len in Hl, H. rw !lookup_ge_None_2 //; lia.
Qed.

Lemma data_of_extends s s' exts size : extends obj s s' → Forall (good_ext obj s) exts →
  data_of s' exts size = data_of s exts size.
Proof. intros Hx Hg. rw /data_of. apply list_fmap_ext => j o _. by rw (content_extends obj s s'). Qed.

(** ** Nodes and trees *)

Definition kind_of s (i : Index) (ino : Z) (n : Inode.t) : kind :=
  if decide (Inode.FileType n = Regular) then File (data_of s (default [] (extents i !! ino)) (Inode.Size n))
  else if decide (Inode.FileType n = Directory) then Dir
  else match symlinks i !! ino with Some target => Lnk target | None => Special end.

Definition node_of s (i : Index) (ino : Z) (n : Inode.t) : node :=
  mkNode (kind_of s i ino n) (Inode.Mode n) (Inode.UID n) (Inode.GID n)
    (Inode.Atime n) (Inode.Mtime n) (Inode.Ctime n) (GetXattrs i ino).

Definition raw s (i : Index) : gmap Z node := map_imap (λ ino n, Some (node_of s i ino n)) (inodes i).

(** The tree of an index: inodes that no name leads to are not part of it. *)
Definition tree_of s (i : Index) : tree := prune (mkTree (raw s i) (entries i)).
Definition abs F : tree := tree_of (chunks F) (idx F).

Lemma raw_lookup s i ino : raw s i !! ino = node_of s i ino <$> inodes i !! ino.
Proof. rw /raw map_lookup_imap. by destruct (inodes i !! ino). Qed.

Lemma tree_lookup s i ino :
  nodes (tree_of s i) !! ino = if linked (entries i) ino then node_of s i ino <$> inodes i !! ino else None.
Proof. rw prune_lookup /= raw_lookup //. Qed.

Lemma tree_names s i p nm : names (tree_of s i) !! (p, nm) = dir_lookup i p nm.
Proof. apply entries_dir_lookup. Qed.

(** ** Elementary updates *)

Lemma raw_on_inode s ino f g i :
  (∀ n, inodes i !! ino = Some n → node_of s i ino (f n) = g (node_of s i ino n)) →
  raw s (on_inode ino f i) = alter g ino (raw s i).
Proof.
  intros H. apply map_eq => k. rw lookup_alter !raw_lookup /= lookup_alter. case_decide as E; [|done]. subst k.
  destruct (inodes i !! ino) as [n|]; [|done]. simpl. f_equal. rw - H //.
Qed.

(** An update of fields that the tree does not have. *)
Lemma raw_on_inode_id s ino f i : (∀ n, node_of s i ino (f n) = node_of s i ino n) →
  raw s (on_inode ino f i) = raw s i.
Proof.
  intros H. rw (raw_on_inode s ino f id); [|done]. apply map_eq => k. rw lookup_alter.
  case_decide as E; [subst k|done]. by destruct (raw s i !! ino).
Qed.

Lemma raw_free s c i : raw s (free_inode c i) = delete c (raw s i).
Proof.
  apply map_eq => k. rw lookup_delete !raw_lookup /= lookup_delete. case_decide as E; [done|].
  destruct (inodes i !! k) as [n|]; [|done]. simpl. f_equal. rw /node_of /kind_of /GetXattrs /=.
  by rw !lookup_delete_ne.
Qed.

(** The tables of one inode. *)
Lemma raw_tables s i j ino g :
  inodes j = inodes i →
  (∀ k, k ≠ ino → extents j !! k = extents i !! k ∧ symlinks j !! k = symlinks i !! k ∧ xattrs j !! k = xattrs i !! k) →
  (∀ n, inodes i !! ino = Some n → node_of s j ino n = g (node_of s i ino n)) →
  raw s j = alter g ino (raw s i).
Proof.
  intros Ei Ho Hg. apply map_eq => k. rw lookup_alter !raw_lookup Ei. case_decide as E.
  - subst k. destruct (inodes i !! ino) as [n|]; [|done]. simpl. f_equal. by apply Hg.
  - destruct (inodes i !! k) as [n|]; [|done]. simpl. f_equal. destruct (Ho k ltac:(done)) as (E1 & E2 & E3).
    by rw /node_of /kind_of /GetXattrs E1 E2 E3.
Qed.

(** Another chunk store that has the same chunks. *)
Lemma raw_extends s s' i : extends obj s s' → data_inv obj i s → raw s' i = raw s i.
Proof.
  intros Hx Hd. apply map_eq => k. rw !raw_lookup. destruct (inodes i !! k) as [n|] eqn:En; [|done]. simpl. f_equal.
  rw /node_of /kind_of. case_decide as Ht; [|done].
  destruct (Hd k _ _ (finfo_regular _ _ _ En Ht)) as (exts & -> & Hg & _). simpl. by rw (data_of_extends s s').
Qed.

Lemma tree_extends s s' i : extends obj s s' → data_inv obj i s → tree_of s' i = tree_of s i.
Proof. intros. by rw /tree_of (raw_extends s s'). Qed.
End abs.
