(* ===== verification/SpecIndex.v ===== *)
(** What each operation of the index does to the tree that it stands for. *)
From S2P Require Import Prelude Types Extents Index IndexInv OS Decimal Persist Store Cache ChunkStore.
From S2P Require Import Fuse FuseData FuseInv FuseProps FsSpec SpecAbs.
#[local] Open Scope Z_scope.

(** ** Sizes

    The size of a file is not negative and its blocks are those of its size; a
    symbolic link is as long as its target. *)

Definition sized_right (target : option string) (n : Inode.t) : Prop :=
  (Inode.FileType n = Regular → 0 <= Inode.Size n ∧ Inode.Blocks n = blocks512 (Inode.Size n)) ∧
  ∀ t, target = Some t → Inode.Size n = Z.of_nat (String.length t).

Definition sizes_ok (i : Index) : Prop := ∀ ino n, inodes i !! ino = Some n → sized_right (symlinks i !! ino) n.

(** An update that keeps type, size and blocks. *)
Definition keeps_size (f : Inode.t → Inode.t) : Prop :=
  ∀ n, Inode.Size (f n) = Inode.Size n ∧ Inode.FileType (f n) = Inode.FileType n ∧ Inode.Blocks (f n) = Inode.Blocks n.

Lemma sizes_on_inode_at ino f i :
  (∀ n, inodes i !! ino = Some n → sized_right (symlinks i !! ino) n → sized_right (symlinks i !! ino) (f n)) →
  sizes_ok i → sizes_ok (on_inode ino f i).
Proof.
  intros Hf H k n. simpl. rw lookup_alter. case_decide as E; [|by apply H]. subst k.
  destruct (inodes i !! ino) as [m|] eqn:Em; [|done]. intros [= <-]. by apply Hf, H.
Qed.

Lemma sizes_on_inode ino f i : keeps_size f → sizes_ok i → sizes_ok (on_inode ino f i).
Proof.
  intros Hf. apply sizes_on_inode_at. intros n _. destruct (Hf n) as (Es & Et & Eb). by rw /sized_right Es Et Eb.
Qed.

Lemma sizes_mark i : sizes_ok i → sizes_ok (mark_dirty i).
Proof. done. Qed.
Lemma sizes_dirs f i : sizes_ok i → sizes_ok (on_dirIndex f i).
Proof. done. Qed.
Lemma sizes_xattrs f i : sizes_ok i → sizes_ok (on_xattrs f i).
Proof. done. Qed.
Lemma sizes_extents f i : sizes_ok i → sizes_ok (on_extents f i).
Proof. done. Qed.

Lemma sizes_free c i : sizes_ok i → sizes_ok (free_inode c i).
Proof.
  intros H k n. simpl. intros [Hk Hn]%lookup_delete_Some. rw lookup_delete_ne //. by apply H.
Qed.

(** [sizes] follows the chain of updates of an operation. *)
Ltac sizes :=
  repeat lazymatch goal with
  | |- sizes_ok (mark_dirty _) => apply sizes_mark
  | |- sizes_ok (on_dirIndex _ _) => apply sizes_dirs
  | |- sizes_ok (on_xattrs _ _) => apply sizes_xattrs
  | |- sizes_ok (on_extents _ _) => apply sizes_extents
  | |- sizes_ok (free_inode _ _) => apply sizes_free
  | |- sizes_ok (on_inode _ _ _) => apply sizes_on_inode; [by intros ?|]
  | |- sizes_ok (if ?b then _ else _) => destruct b
  end; try assumption.

Lemma New_sizes bs now : sizes_ok (New bs now).
Proof. intros k n. simpl. intros [<- <-]%lookup_singleton_Some. split; [done|]. by rw lookup_empty. Qed.

Lemma CreateInode_sizes ft perm uid gid now i c j : wf_index i → sizes_ok i →
  CreateInode ft perm uid gid 0 now i = Ret c j → sizes_ok j.
Proof.
  intros Hwf H [= _ <-]. apply sizes_mark.
  assert (symlinks i !! nextIno i = None) as Hs.
  { apply eq_None_not_Some => /(wf_sym _ Hwf). rw /typed skeleton_lookup. destruct (inodes i !! nextIno i) as [m|] eqn:E; [|done].
    pose proof (core_key _ _ _ _ (wf_struct _ Hwf) _ _ (skeleton_Some _ _ _ E)). lia. }
  assert (∀ k n, <[nextIno i := Inode.mk (nextIno i) ft perm (if decide (ft = Directory) then 1 else 0) uid gid 0 now now now
      (blockSize i) 0 0]> (inodes i) !! k = Some n → sized_right (symlinks i !! k) n) as Hk.
  { intros k n [[<- <-]|[_ Hn]]%lookup_insert_Some; [|by apply H]. rw Hs. by split. }
  by repeat case_decide.
Qed.

Lemma AddDirEntry_sizes p nm c now i u j : sizes_ok i → AddDirEntry p nm c now i = Ret u j → sizes_ok j.
Proof. rw /AddDirEntry. repeat case_match; try done. intros Hok [= _ <-]. sizes. Qed.

Lemma RemoveDirEntry_sizes p nm now i u j : sizes_ok i → RemoveDirEntry p nm now i = Ret u j → sizes_ok j.
Proof. rw /RemoveDirEntry. repeat case_match; try done; intros Hok [= _ <-]; sizes. Qed.

Lemma rename_drop_dst_sizes dp dn i u j : sizes_ok i → rename_drop_dst dp dn i = Ret u j → sizes_ok j.
Proof. rw /rename_drop_dst. repeat case_match; try done; intros Hok [= _ <-]; sizes. Qed.

Lemma Rename_sizes sp sn dp dn now i u j : sizes_ok i → Index_Rename sp sn dp dn now i = Ret u j → sizes_ok j.
Proof.
  intros H. rw /Index_Rename. destruct (dir_lookup i sp sn) as [c|]; [|done]. cbv zeta.
  intros (v & i1 & E1 & E)%obind_ret_inv. pose proof (rename_drop_dst_sizes _ _ _ _ _ H E1) as H1. revert E.
  repeat case_match; try done; intros [= _ <-]; sizes.
Qed.

Lemma SetXattr_sizes ino nm v now i u j : sizes_ok i → SetXattr ino nm v now i = Ret u j → sizes_ok j.
Proof. rw /SetXattr. case_match; [|done]. intros Hok [= _ <-]. sizes. Qed.

Lemma RemoveXattr_sizes ino nm now i u j : sizes_ok i → RemoveXattr ino nm now i = Ret u j → sizes_ok j.
Proof. rw /RemoveXattr. repeat case_match; try done. intros Hok [= _ <-]. sizes. Qed.

Lemma TouchAtime_sizes ino now i : sizes_ok i → sizes_ok (TouchAtime ino now i).
Proof.
  intros H. rw /TouchAtime. case_match; [|done]. change (sizes_ok (on_inode ino (Inode.set_Atime now) i)). sizes.
Qed.

Lemma SetSymlink_sizes ino target now i u j : wf_index i → sizes_ok i → SetSymlink ino target now i = Ret u j → sizes_ok j.
Proof.
  intros Hwf H. rw /SetSymlink. destruct (inodes i !! ino) as [n|] eqn:En; [|done]. case_decide as Ht; [done|].
  intros [= _ <-]. apply sizes_mark. intros k m. simpl. rw lookup_alter lookup_insert.
  case_decide as E; [|by apply H]. subst k. rw En. intros [= <-]. split; [|by intros t [= <-]].
  simpl. rw Ht. done.
Qed.

Lemma blocks_grow z n : sized_right None n → 0 <= z → Inode.FileType n = Regular →
  sized_right None (grow_size z n).
Proof.
  intros [H _] Hz Ht. destruct (H Ht). rw /grow_size. destruct (_ >? _); split; [|done..|done]. intros _. by split.
Qed.

(** A regular file has no link target. *)
Lemma regular_no_target i ino n : wf_index i → inodes i !! ino = Some n → Inode.FileType n = Regular → symlinks i !! ino = None.
Proof.
  intros Hwf Hn Ht. apply eq_None_not_Some => /(wf_sym _ Hwf). pose proof (typed_of _ _ _ Hn) as H.
  rw /typed in H |- *. rw H Ht. done.
Qed.

Lemma WriteExtent_sizes ino ext now i u j : wf_index i → sizes_ok i → 0 <= eEnd ext →
  WriteExtent ino ext now i = Ret u j → sizes_ok j.
Proof.
  intros Hwf H Hz. rw /WriteExtent. destruct (inodes i !! ino) as [n|] eqn:En; [|done]. case_decide as Ht; [done|].
  intros [= _ <-]. apply sizes_mark, sizes_on_inode_at; [|by apply sizes_extents]. simpl.
  intros m Hm. rw En in Hm. injection Hm as <-. rw (regular_no_target i ino n) // => Hs.
  by apply (blocks_grow (eEnd ext) n).
Qed.

Lemma SetAttr_sizes ino mode uid gid size atime mtime now i u j : wf_index i → sizes_ok i →
  (∀ z n, size = Some z → inodes i !! ino = Some n → 0 <= z ∧ Inode.FileType n = Regular) →
  SetAttr ino mode uid gid size atime mtime now i = Ret u j → sizes_ok j.
Proof.
  intros Hwf H Hz. rw /SetAttr. destruct (inodes i !! ino) as [n|] eqn:En; [|done].
  set f := λ m : Inode.t, _. assert (keeps_size f) as Hf.
  { intros m. rw /f. by destruct mode, uid, gid, atime, mtime. }
  intros [= _ <-]. apply sizes_mark, sizes_on_inode; [done|]. destruct size as [z|]; [|by apply sizes_on_inode].
  destruct (Hz z n eq_refl eq_refl) as [Hz0 Ht]. case_decide; [|by apply sizes_on_inode]. rw decide_True //.
  apply sizes_on_inode_at.
  - simpl. by rw (regular_no_target i ino n).
  - apply sizes_extents. by apply sizes_on_inode.
Qed.

(** ** Trees *)

Section trees.
Context {W : Type} {S : Store W} (obj : W → string → option bytes) {L : StoreLaws S obj}.
Implicit Types s : cstate W.
Implicit Types i j : Index.

(** One node changes. *)
Lemma raw_update s i j ino g :
  (∀ k, k ≠ ino → inodes j !! k = inodes i !! k ∧ extents j !! k = extents i !! k ∧
     symlinks j !! k = symlinks i !! k ∧ xattrs j !! k = xattrs i !! k) →
  (node_of obj s j ino <$> inodes j !! ino = g ∘ node_of obj s i ino <$> inodes i !! ino) →
  raw obj s j = alter g ino (raw obj s i).
Proof.
  intros Ho Hg. apply map_eq => k. rw lookup_alter !raw_lookup. case_decide as E.
  - subst k. rw Hg. by destruct (inodes i !! ino).
  - destruct (Ho k ltac:(done)) as (-> & E1 & E2 & E3). destruct (inodes i !! k) as [n|]; [|done]. simpl. f_equal.
    by rw /node_of /kind_of /GetXattrs E1 E2 E3.
Qed.

Lemma tree_update s i j ino g : entries j = entries i → raw obj s j = alter g ino (raw obj s i) →
  tree_of obj s j = on_node ino g (tree_of obj s i).
Proof. intros E1 E2. by rw /tree_of E1 E2 prune_alter. Qed.

(** The bytes of a file, and zeros behind its end. *)
Lemma data_of_lookup s exts size o : file_ok obj s exts size → 0 <= size → 0 <= o →
  content obj s exts o = Some (default zero_byte (data_of obj s exts size !! Z.to_nat o)).
Proof.
  intros Hok Hs Ho. pose proof Hok as [Hg _]. destruct (decide (o < size)).
  - rw lookup_data_of //. by destruct (content_is_Some obj s exts o Hg) as [b ->].
  - rw (content_beyond obj s exts size) //; [|lia]. rw lookup_ge_None_2 //.
    pose proof (len_data_of obj s exts size Hs) as El. rw /len in El. lia.
Qed.

Lemma resize_lookup (l : bytes) n o : (o < n)%nat → resize n zero_byte l !! o = Some (default zero_byte (l !! o)).
Proof.
  intros Ho. destruct (decide (o < length l)%nat) as [Hl|Hl].
  - rw lookup_resize //. destruct (lookup_lt_is_Some_2 l o Hl) as [b Hb]. by rw Hb.
  - rw lookup_resize_new; [|lia|lia]. by rw lookup_ge_None_2; [|lia].
Qed.

Lemma data_of_trim s exts size z : file_ok obj s exts size → 0 <= size → 0 <= z < 2 ^ 63 →
  data_of obj s (trim_extents z exts) z = resize (Z.to_nat z) zero_byte (data_of obj s exts size).
Proof.
  intros Hok Hs Hz. pose proof Hok as [Hg _]. assert (is_i64 z) by (rw /is_i64; lia).
  apply data_of_eq; [lia|by apply trim_good|rw /len length_resize; lia|].
  intros o Ho. rw resize_lookup; [|lia]. rw - (data_of_lookup s exts size o) //; [|lia].
  rw /content locate_trim //; [|by eapply Forall_impl; [exact Hg|intros e []]]. rw decide_True //. lia.
Qed.

Lemma set_attrs_same w now nd : w_size w = None → set_attrs w now nd =
  mkNode (n_kind nd) (default (n_mode nd) (w_mode w)) (default (n_uid nd) (w_uid w)) (default (n_gid nd) (w_gid w))
    (default (n_atime nd) (w_atime w)) (default (n_mtime nd) (w_mtime w)) now (n_xattrs nd).
Proof. rw /set_attrs => ->. by destruct (n_kind nd). Qed.

Lemma SetAttr_tree s ino mode uid gid size atime mtime now i u j :
  wf_index i → data_inv obj i s → sizes_ok i →
  (∀ z n, size = Some z → inodes i !! ino = Some n → 0 <= z < 2 ^ 63 ∧ Inode.FileType n = Regular) →
  SetAttr ino mode uid gid size atime mtime now i = Ret u j →
  tree_of obj s j = on_node ino (set_attrs (mkWanted mode uid gid size atime mtime) now) (tree_of obj s i).
Proof.
  intros Hwf Hd Hs Hz. rw /SetAttr. destruct (inodes i !! ino) as [n|] eqn:En; [|done]. intros [= _ <-].
  apply tree_update; [by destruct size; repeat case_decide|]. apply raw_update.
  - intros k Hk. destruct size; [case_decide; [case_decide|]|]; simpl; by rw !lookup_alter_ne ?lookup_insert_ne.
  - rw En /=. destruct size as [z|]; last first.
    + rw /= !lookup_alter_eq En /= set_attrs_same //. f_equal. by destruct mode, uid, gid, atime, mtime.
    + destruct (Hz z n eq_refl eq_refl) as [Hz0 Ht].
      destruct (Hd ino _ _ (finfo_regular _ _ _ En Ht)) as (exts & Ex & Hok).
      destruct (proj1 (Hs ino n En) Ht) as [Hn0 _].
      assert (n_kind (node_of obj s i ino n) = File (data_of obj s exts (Inode.Size n))) as Ek
        by (by rw /= /kind_of Ht Ex).
      rw /set_attrs Ek /= len_data_of //. case_decide as Ene.
      * rw (decide_False (P := z = _)) // decide_True //= !lookup_alter_eq En /=. f_equal.
        rw /node_of /kind_of /=.
        destruct mode, uid, gid, atime, mtime; by rw /= Ht lookup_insert_eq Ex /= (data_of_trim s exts (Inode.Size n)).
      * rw (decide_True (P := z = _)) //= !lookup_alter_eq En /=. f_equal. rw /node_of /kind_of /=.
        destruct mode, uid, gid, atime, mtime; by rw /= Ht Ex.
Qed.

(** ** Writing *)

Lemma overwrite_length off (w d : bytes) : length (overwrite off w d) = Nat.max (off + length w) (length d).
Proof. rw /overwrite !length_app length_resize length_drop. lia. Qed.

Lemma overwrite_lookup off (w d : bytes) o : overwrite off w d !! o =
  if decide (o < off)%nat then Some (default zero_byte (d !! o))
  else if decide (o < off + length w)%nat then w !! (o - off)%nat else d !! o.
Proof.
  rw /overwrite. case_decide as H1.
  - rw lookup_app_l; [|by rw length_resize]. by apply resize_lookup.
  - rw lookup_app_r length_resize; [|lia]. case_decide as H2.
    + rw lookup_app_l //. lia.
    + rw lookup_app_r; [|lia]. rw lookup_drop. f_equal. lia.
Qed.

Lemma data_of_write s exts ext data size :
  file_ok obj s exts size → 0 <= size → good_ext obj s ext → ext_data obj s ext data →
  no_inner_split (Extent.FileOffset ext) (eEnd ext) exts = true →
  Forall (good_ext obj s) (write_extents [] exts ext) →
  data_of obj s (write_extents [] exts ext) (Z.max size (eEnd ext)) =
  overwrite (Z.to_nat (Extent.FileOffset ext)) data (data_of obj s exts size).
Proof.
  intros Hok Hs Hg Hd Hn Hgw. pose proof Hok as [Hge _]. pose proof (proj1 Hg) as Hw.
  assert (eEnd ext = Extent.FileOffset ext + len data) as Ee by (rw (eEnd_wf _ Hw) (proj1 Hd) //).
  assert (0 <= Extent.FileOffset ext) as H0 by apply Hw.
  pose proof (len_data_of obj s exts size Hs) as El. pose proof (len_nonneg data). rw /len in Ee El.
  apply data_of_eq; [lia|done|rw /len overwrite_length; lia|].
  intros o Ho. rw (content_write obj s exts ext data) //; [|by eapply Forall_impl; [exact Hge|intros e []]].
  rw overwrite_lookup /len. case_decide as H1.
  - rw decide_False; [|lia]. by rw (data_of_lookup s exts size) //; lia.
  - case_decide as H2.
    + rw decide_True; [|lia]. f_equal. lia.
    + rw decide_False; [|lia]. rw (lookup_data_of obj s exts size o) //. lia.
Qed.

Lemma WriteExtent_tree s ino ext data now i u j n exts :
  wf_index i → data_inv obj i s → sizes_ok i → inodes i !! ino = Some n → extents i !! ino = Some exts →
  good_ext obj s ext → ext_data obj s ext data →
  no_inner_split (Extent.FileOffset ext) (eEnd ext) exts = true →
  WriteExtent ino ext now i = Ret u j →
  tree_of obj s j = on_node ino (λ nd, modified now (with_kind
    (File (overwrite (Z.to_nat (Extent.FileOffset ext)) data (data_of obj s exts (Inode.Size n)))) nd)) (tree_of obj s i).
Proof.
  intros Hwf Hd Hs En Ex Hg Hdt Hns Hr. pose proof Hr as Hr'. destruct u.
  destruct (WriteExtent_effect ino ext now i j n En Hr) as (Ht & _ & Hf).
  pose proof (WriteExtent_data obj ino ext now i s Hd Hg j ltac:(by rw Hr)) as Hd'.
  destruct (Hd' ino _ _ Hf) as (exts' & [= <-] & Hgw & _). rw Ex /= in Hgw.
  destruct (Hd ino _ _ (finfo_regular _ _ _ En Ht)) as (exts0 & E0 & Hok). rw Ex in E0. injection E0 as <-.
  revert Hr'. rw /WriteExtent En decide_False; [|by intros []]. intros [= <-].
  apply tree_update; [done|]. apply raw_update.
  - intros k Hk. simpl. by rw lookup_alter_ne // lookup_insert_ne.
  - rw /= lookup_alter_eq En /=. f_equal. rw /node_of /kind_of /= lookup_insert_eq Ex /= -/(eEnd ext).
    assert (Inode.Size (grow_size (eEnd ext) n) = Z.max (Inode.Size n) (eEnd ext)) as Esz.
    { rw /grow_size Z.gtb_ltb. destruct (Z.ltb_spec (Inode.Size n) (eEnd ext)); simpl; lia. }
    destruct (proj1 (Hs ino n En) Ht) as [Hn0 _]. rw Esz (data_of_write s exts ext data (Inode.Size n)) //.
    rw /grow_size. destruct (_ >? _); by rw /= Ht.
Qed.

(** ** Attributes *)

Lemma TouchAtime_tree s ino now i : tree_of obj s (TouchAtime ino now i) = on_node ino (accessed now) (tree_of obj s i).
Proof.
  rw /TouchAtime. destruct (inodes i !! ino) as [n|] eqn:En.
  - apply tree_update; [done|]. apply raw_update; [intros k Hk; simpl; by rw lookup_alter_ne|].
    by rw /= lookup_alter_eq En.
  - rw /on_node alter_alt tree_lookup En. by destruct (linked _ _), (tree_of obj s i).
Qed.

Lemma SetXattr_tree s ino nm v now i u j : SetXattr ino nm v now i = Ret u j →
  tree_of obj s j = on_node ino (λ nd, changed now (with_xattrs (<[nm := v]> (n_xattrs nd)) nd)) (tree_of obj s i).
Proof.
  rw /SetXattr. destruct (inodes i !! ino) as [n|] eqn:En; [|done]. intros [= _ <-].
  apply tree_update; [done|]. apply raw_update; [intros k Hk; simpl; by rw lookup_alter_ne // lookup_insert_ne|].
  rw /= lookup_alter_eq En /=. f_equal. by rw /node_of /GetXattrs /= lookup_insert_eq.
Qed.

Lemma RemoveXattr_tree s ino nm now i u j : RemoveXattr ino nm now i = Ret u j →
  tree_of obj s j = on_node ino (λ nd, changed now (with_xattrs (delete nm (n_xattrs nd)) nd)) (tree_of obj s i).
Proof.
  rw /RemoveXattr. destruct (inodes i !! ino) as [n|] eqn:En; [|done].
  destruct (xattrs i !! ino) as [x|] eqn:Ex; [|done]. simpl. destruct (x !! nm); [|done]. intros [= _ <-].
  apply tree_update; [done|]. apply raw_update; [intros k Hk; simpl; by rw !lookup_alter_ne|].
  rw /= lookup_alter_eq En /=. f_equal. by rw /node_of /GetXattrs /= lookup_alter_eq Ex.
Qed.
Lemma SetSymlink_tree s ino target now i u j n : inodes i !! ino = Some n → Inode.FileType n = Symlink →
  SetSymlink ino target now i = Ret u j →
  tree_of obj s j = on_node ino (λ nd, changed now (with_kind (Lnk target) nd)) (tree_of obj s i).
Proof.
  intros En Ht. rw /SetSymlink En decide_False; [|by intros []]. intros [= _ <-].
  apply tree_update; [done|]. apply raw_update; [intros k Hk; simpl; by rw lookup_alter_ne // lookup_insert_ne|].
  rw /= lookup_alter_eq En /=. f_equal. by rw /node_of /kind_of /= Ht lookup_insert_eq.
Qed.

End trees.
