(* ===== verification/SpecNames.v ===== *)
(** What the operations of the index on names do to the tree: creating,
    linking, removing and renaming. *)
From S2P Require Import Prelude Types Extents Index IndexInv OS Decimal Persist Store Cache ChunkStore.
From S2P Require Import Fuse FuseData FuseInv FuseProps FsSpec SpecAbs SpecIndex.
#[local] Open Scope Z_scope.

(** ** One more name *)

Lemma prune_insert m N key c x : N !! key = None → m !! c = Some x →
  prune (mkTree m (<[key := c]> N)) = mkTree (<[c := x]> (nodes (prune (mkTree m N)))) (<[key := c]> N).
Proof.
  intros Hn Hc. pose proof (prune_lookup (mkTree m (<[key := c]> N))) as E1. rw /prune /= in E1 |- *. f_equal.
  apply map_eq => k. rw E1 lookup_insert (prune_lookup (mkTree m N) k) /=. case_decide as E.
  - subst k. rw (linked_name _ key) // lookup_insert_eq //.
  - destruct (linked N k) eqn:El; [by rw linked_insert|].
    destruct (linked (<[key := c]> N) k) eqn:El'; [|done]. apply linked_insert_inv in El' as [->|?]; congruence.
Qed.

(** A node that has no name yet. *)
Lemma prune_fresh m N c x : linked N c = false → prune (mkTree (<[c := x]> m) N) = prune (mkTree m N).
Proof.
  intros Hc. apply prune_ext => k Hk. rw lookup_insert_ne //. intros ->. congruence.
Qed.

Section names.
Context {W : Type} {S : Store W} (obj : W → string → option bytes) {L : StoreLaws S obj}.
Implicit Types s : cstate W.
Implicit Types i j : Index.

Lemma fresh_ino i : wf_index i → inodes i !! nextIno i = None.
Proof.
  intros Hwf. destruct (inodes i !! nextIno i) as [m|] eqn:E; [|done]. exfalso.
  pose proof (core_key _ _ _ _ (wf_struct _ Hwf) _ _ (skeleton_Some _ _ _ E)). lia.
Qed.

(** A linked inode exists. *)
Lemma linked_exists i c : wf_index i → linked (entries i) c = true → is_Some (inodes i !! c).
Proof.
  intros Hwf [->|[[p nm] Hk]]%linked_spec.
  - destruct (core_root _ _ _ _ (wf_struct _ Hwf)) as [nl Hr]. rw skeleton_lookup in Hr.
    apply fmap_Some in Hr as (n & -> & _). by eexists.
  - rw entries_dir_lookup in Hk. destruct (wf_entry_child _ _ _ _ Hwf Hk) as (_ & _ & n & ->). by eexists.
Qed.

Lemma fresh_unlinked i : wf_index i → linked (entries i) (nextIno i) = false.
Proof.
  intros Hwf. destruct (linked _ _) eqn:E; [|done]. apply linked_exists in E as [n En]; [|done].
  by rw fresh_ino in En.
Qed.

(** The tables have nothing for a fresh inode. *)
Lemma fresh_tables i : wf_index i →
  dirIndex i !! nextIno i = None ∧ extents i !! nextIno i = None ∧
  symlinks i !! nextIno i = None ∧ xattrs i !! nextIno i = None.
Proof.
  intros Hwf. pose proof (fresh_ino i Hwf) as Hf. assert (skeleton i !! nextIno i = None) as Hs by by rw skeleton_lookup Hf.
  split_and!; apply eq_None_not_Some.
  - intros H. apply elem_of_dom, (core_dirs _ _ _ _ (wf_struct _ Hwf)) in H as (x & Hx & _). congruence.
  - intros H%(wf_ext _ Hwf). by rw /typed Hs in H.
  - intros H%(wf_sym _ Hwf). by rw /typed Hs in H.
  - intros H%(wf_xat _ Hwf). rw Hs in H. by destruct H.
Qed.

Definition kind_at_birth (ft : Z) : kind :=
  if decide (ft = Regular) then File [] else if decide (ft = Directory) then Dir else Special.

Lemma CreateInode_tables ft perm uid gid now i c j :
  CreateInode ft perm uid gid 0 now i = Ret c j →
  c = nextIno i ∧
  inodes j = <[c := Inode.mk c ft perm (if decide (ft = Directory) then 1 else 0) uid gid 0 now now now (blockSize i) 0 0]>
    (inodes i) ∧
  extents j = (if decide (ft = Regular) then <[c := []]> (extents i) else extents i) ∧
  dirIndex j = (if decide (ft = Directory) then <[c := ∅]> (dirIndex i) else dirIndex i) ∧
  symlinks j = symlinks i ∧ xattrs j = xattrs i.
Proof. intros [= <- <-]. by repeat case_decide. Qed.

Lemma CreateInode_raw s ft perm uid gid now i c j : wf_index i →
  CreateInode ft perm uid gid 0 now i = Ret c j →
  c = nextIno i ∧ entries j = entries i ∧
  raw obj s j = <[c := mkNode (kind_at_birth ft) perm uid gid now now now ∅]> (raw obj s i).
Proof.
  intros Hwf (-> & Ei & Ee & Ed & Es & Ex)%CreateInode_tables.
  pose proof (fresh_tables i Hwf) as (H1 & H2 & H3 & H4). split; [done|]. split.
  - rw /entries Ed. case_decide; rw ?flat_new //.
  - apply map_eq => k. rw lookup_insert !raw_lookup Ei lookup_insert. destruct (decide (nextIno i = k)) as [E|E].
    + subst k. rw /= /node_of /kind_of /kind_at_birth /GetXattrs /= Ee Es Ex H3 H4.
      f_equal.
    + destruct (inodes i !! k); [|done]. rw /= /node_of /kind_of /GetXattrs Ee Es Ex.
      destruct (decide (ft = Regular)); by rw ?lookup_insert_ne.
Qed.

Lemma AddDirEntry_raw s p nm c now i u j : AddDirEntry p nm c now i = Ret u j →
  (∃ n, inodes i !! p = Some n ∧ Inode.FileType n = Directory) ∧ dir_lookup i p nm = None ∧ is_Some (inodes i !! c) ∧
  entries j = <[(p, nm) := c]> (entries i) ∧
  raw obj s j = alter (modified now) p (alter (changed now) c (raw obj s i)).
Proof.
  rw /AddDirEntry. destruct (inodes i !! p) as [np|] eqn:Ep; [|done]. case_decide as Ht; [done|].
  destruct (inodes i !! c) as [nc|] eqn:Ec; [|done]. destruct (dir_lookup i p nm) eqn:El; [done|].
  destruct (dirIndex i !! p) as [ch|] eqn:Ech; [|done]. intros [= _ <-].
  split; [by eauto|]. split; [done|]. split; [done|]. split; [by rw /entries /= flat_insert|].
  change (raw obj s (mark_dirty ?x)) with (raw obj s x).
  rw (raw_on_inode obj s p _ (modified now)) // (raw_on_inode obj s c _ (changed now)) //.
  by rw raw_on_inode_id.
Qed.

(** A new name for a node [nd] with number [c]: what creating and linking do. *)
Lemma tree_add_name s i j p nm c now nd m : dir_lookup i p nm = None →
  raw obj s j = alter (modified now) p (alter (changed now) c m) → entries j = <[(p, nm) := c]> (entries i) →
  m !! c = Some nd → prune (mkTree m (entries i)) = tree_of obj s i →
  tree_of obj s j =
  mkTree (alter (modified now) p (alter (changed now) c (<[c := nd]> (nodes (tree_of obj s i))))) (<[(p, nm) := c]> (entries i)).
Proof.
  intros Hn Er Ee Hc Em. rw {1}/tree_of Er Ee !prune_alter (prune_insert _ _ _ _ nd) //; [by rw Em|].
  by rw entries_dir_lookup.
Qed.

(** ** Fewer names *)

Lemma prune_prune m N N' : (∀ k, linked N' k = true → linked N k = true) →
  prune (mkTree (nodes (prune (mkTree m N))) N') = prune (mkTree m N').
Proof. intros H. apply prune_ext => k Hk. by rw prune_lookup /= H. Qed.

Lemma prune_dead m N c : linked N c = false → prune (mkTree (delete c m) N) = prune (mkTree m N).
Proof. intros Hc. apply prune_ext => k Hk. rw lookup_delete_ne //. intros ->. congruence. Qed.

Lemma on_node_dead m N c f : linked N c = false → on_node c f (prune (mkTree m N)) = prune (mkTree m N).
Proof.
  intros Hc. rw /on_node alter_alt (prune_lookup (mkTree m N) c) /= Hc //.
Qed.

Lemma flat_drop (d : gmap Z (gmap string Z)) p nm c : default ∅ (d !! c) = ∅ →
  flatten (delete c (alter (delete nm) p d)) = delete (p, nm) (flatten d).
Proof.
  intros Hc. rw flat_free ?flat_delete // lookup_alter. case_decide as E; [|done]. subst c.
  destruct (d !! p) as [ch|]; [|done]. simpl in *. by rw Hc delete_empty.
Qed.

Lemma RemoveDirEntry_tree s p nm now i u j : wf_index i → RemoveDirEntry p nm now i = Ret u j →
  ∃ c, dir_lookup i p nm = Some c ∧ tree_of obj s j = remove_name p nm c now (tree_of obj s i).
Proof.
  intros Hwf Hr. pose proof (RemoveDirEntry_preserves p nm now i Hwf) as Hj. rw Hr /preserves /= in Hj.
  revert Hr. rw /RemoveDirEntry. destruct (inodes i !! p) as [np|] eqn:Ep; [|done].
  destruct (dir_lookup i p nm) as [c|] eqn:El; [|done]. destruct (inodes i !! c) as [n|] eqn:Ec; [|done].
  case_decide as Hne; [done|]. pose proof (removable_children i c n (wf_struct _ Hwf) Ec Hne) as Hch.
  intros [= _ <-]. exists c. split; [done|]. set (j := mark_dirty _) in Hj |- *.
  assert (entries j = delete (p, nm) (entries i)) as Ee.
  { rw /j /entries /=. destruct (_ <=? _); [by apply flat_drop|apply flat_delete]. }
  rw /remove_name /= !prune_alter (prune_prune (raw obj s i) (entries i)); [|intros k; apply linked_delete].
  rw /tree_of Ee. change (raw obj s j) with (raw obj s (on_inode p (set_mctime now)
    (if u32 (Inode.Nlink n - 1) <=? free_threshold n
     then free_inode c (on_inode c (Inode.set_Nlink (u32 (Inode.Nlink n - 1))) (on_dirIndex (alter (delete nm) p) i))
     else on_inode c (Inode.set_Ctime now) (on_inode c (Inode.set_Nlink (u32 (Inode.Nlink n - 1)))
       (on_dirIndex (alter (delete nm) p) i))))).
  rw (raw_on_inode obj s p _ (modified now)) // prune_alter. f_equal. destruct (_ <=? _) eqn:Hfree.
  - assert (linked (delete (p, nm) (entries i)) c = false) as Hl.
    { destruct (linked _ _) eqn:E; [|done]. rw - Ee in E. apply linked_exists in E as [x Hx]; [|done].
      rw /j ?Hfree /= lookup_alter in Hx. destruct (decide (p = c)) as [->|]; by rw lookup_delete_eq in Hx. }
    by rw raw_free prune_dead // raw_on_inode_id // on_node_dead.
  - rw (raw_on_inode obj s c _ (changed now)) // prune_alter. by rw raw_on_inode_id.
Qed.

Lemma on_node_twice ino now t : on_node ino (modified now) (on_node ino (modified now) t) = on_node ino (modified now) t.
Proof.
  by rw /on_node /= alter_alter_eq.
Qed.

(** The block of [Rename] that drops the destination. *)
Lemma rename_drop_dst_raw s dp dn i u i1 : rename_drop_dst dp dn i = Ret u i1 →
  raw obj s i1 = raw obj s i ∨ ∃ d, raw obj s i1 = delete d (raw obj s i) ∧ inodes i1 !! d = None.
Proof.
  rw /rename_drop_dst. destruct (dir_lookup i dp dn) as [d|]; [|by intros [= _ <-]; left].
  destruct (inodes i !! d) as [n|]; [|done]. case_decide; [done|]. intros [= _ <-].
  destruct (_ <=? _); [|left; by apply raw_on_inode_id]. right. exists d.
  split; [by rw raw_free raw_on_inode_id|]. apply lookup_delete_eq.
Qed.

Lemma Rename_tree s sp sn dp dn now i u j : wf_index i → dp ∈ dirs i → (sp, sn) ≠ (dp, dn) →
  Index_Rename sp sn dp dn now i = Ret u j →
  ∃ c, dir_lookup i sp sn = Some c ∧ tree_of obj s j = move_name sp sn dp dn c now (tree_of obj s i).
Proof.
  intros Hwf Hdp Hne Hr. pose proof (Rename_preserves sp sn dp dn now i Hwf Hdp Hne) as Hj. rw Hr /preserves /= in Hj.
  revert Hr. rw /Index_Rename. destruct (dir_lookup i sp sn) as [c|] eqn:El; [|done]. cbv zeta.
  intros (v & i1 & Ed & Hr)%obind_ret_inv. pose proof (rename_drop_dst_spec dp dn i Hwf Hdp) as Hs. rw Ed in Hs.
  destruct Hs as (_ & E1 & _). exists c. split; [done|].
  destruct (dirIndex (on_dirIndex (alter (delete sn) sp) i1) !! dp) as [ch|] eqn:Ech; [|done].
  destruct (inodes i !! c) as [nc|]; [|done]. injection Hr as _ Hr.
  set (i2 := on_dirIndex <[dp := <[dn := c]> ch]> (on_dirIndex (alter (delete sn) sp) i1)) in Hr.
  set (N := <[(dp, dn) := c]> (delete (sp, sn) (entries i))).
  assert (entries i2 = N) as Ee by (rw /i2 /entries /= flat_insert // flat_delete -/(entries i1) E1 //).
  assert (∀ k, linked N k = true → linked (entries i) k = true) as Hsub.
  { intros k [->|Hk%linked_delete]%linked_insert_inv; [|done]. apply (linked_name _ (sp, sn)). by rw entries_dir_lookup. }
  rw /move_name /= !prune_alter (prune_prune (raw obj s i) (entries i)) //.
  assert (tree_of obj s j = on_node dp (modified now) (on_node sp (modified now) (on_node c (changed now)
            (prune (mkTree (raw obj s i1) N))))) as ->.
  { rw - Hr. case_decide as Hp.
    - rw /tree_of (_ : entries _ = N) // (_ : raw obj s _ = raw obj s (on_inode dp (set_mctime now)
        (on_inode sp (set_mctime now) (on_inode c (Inode.set_Ctime now) i2)))) //.
      by rw (raw_on_inode obj s dp _ (modified now)) // (raw_on_inode obj s sp _ (modified now)) //
        (raw_on_inode obj s c _ (changed now)) // !prune_alter.
    - rw Hp on_node_twice /tree_of (_ : entries _ = N) // (_ : raw obj s _ = raw obj s
        (on_inode sp (set_mctime now) (on_inode c (Inode.set_Ctime now) i2))) //.
      by rw (raw_on_inode obj s sp _ (modified now)) // (raw_on_inode obj s c _ (changed now)) // !prune_alter. }
  do 3 f_equal. destruct (rename_drop_dst_raw s dp dn i v i1 Ed) as [->|(d & -> & Hd)]; [done|].
  apply prune_dead. destruct (linked N d) eqn:E; [|done]. exfalso. assert (is_Some (inodes j !! d)) as [x Hx].
  { apply linked_exists; [done|]. rw (_ : entries j = N) // - Hr - Ee. by destruct (decide (dp ≠ sp)). }
  assert (inodes j !! d = None) as Hnone; [|by rw Hnone in Hx].
  rw - Hr. by destruct (decide (dp ≠ sp)); rw /= !lookup_alter_None.
Qed.

(** ** Reading the tree *)

Lemma tree_is_dir s i ino : linked (entries i) ino = true →
  is_dir (tree_of obj s i) ino = true ↔ ∃ n, inodes i !! ino = Some n ∧ Inode.FileType n = Directory.
Proof.
  intros Hl. rw /is_dir tree_lookup Hl. destruct (inodes i !! ino) as [n|]; simpl.
  - rw /kind_of. case_decide as H1; [|case_decide as H2].
    + split; [done|]. intros (m & [= <-] & Hm). by rw Hm in H1.
    + split; [|done]. by eauto.
    + split; [by destruct (symlinks i !! ino)|]. by intros (m & [= <-] & Hm).
  - split; [done|]. by intros (m & ? & _).
Qed.

Lemma tree_has_entries s i ino : has_entries (tree_of obj s i) ino ↔ (0 < size (default ∅ (dirIndex i !! ino)))%nat.
Proof.
  rw /has_entries. setoid_rewrite tree_names. rw /dir_lookup. destruct (dirIndex i !! ino) as [ch|]; simpl.
  - split.
    + intros (nm & c & Hc). destruct (decide (size ch = 0%nat)) as [E|]; [|lia].
      apply map_size_empty_iff in E. by rw E lookup_empty in Hc.
    + intros Hs. destruct (map_choose ch) as (nm & c & Hc); [|by exists nm, c].
      intros ->. rw map_size_empty in Hs. lia.
  - rw map_size_empty. split; [by intros (nm & c & ?)|lia].
Qed.
End names.
