(* ===== verification/SpecRefine.v ===== *)
(** The handlers of src/internal/fuse/fs.go implement the file system of
    FsSpec.v: for every request that the kernel may send, the answer and the
    tree after it are among those that the specification allows. *)
From S2P Require Import Prelude Types Extents Index IndexInv IndexProps OS Decimal Persist Store Cache ChunkStore.
From S2P Require Import Fuse FuseData FuseInv FuseProps FsSpec SpecAbs SpecIndex SpecNames.
#[local] Open Scope Z_scope.

(** Trees are compared through their lemmas. *)
Lemma tree_unfold {W} (obj : W → string → option bytes) s i :
  tree_of obj s i = prune (mkTree (raw obj s i) (entries i)).
Proof. done. Qed.

#[local] Opaque tree_of.

Section refine.
Context {W : Type} {S : Store W} {C : CborCodec}.
Context (obj : W → string → option bytes) {L : StoreLaws S obj}.
Implicit Types F : Fusey W.

(** ** Requests and answers *)

Definition reply {A} (f : A → answer) (m : outcome Errno (Fusey W) A) : option (answer * Fusey W) :=
  match m with Ret a F => Some (f a, F) | Fail e F => Some (AErr e, F) | Crash => None end.

Definition entry_answer (o : EntryOut) : answer := AEntry (eo_Ino o) (eo_Attr o).

(** The handler of a request: its answer and the file system after it. *)
Definition handle (r : request) F : option (answer * Fusey W) :=
  match r with
  | RGetattr ino => reply (λ o, AAttr (ao_Attr o)) (Getattr ino F)
  | RSetattr B ino inp now => reply (λ o, AAttr (ao_Attr o)) (Setattr B ino inp now F)
  | RLookup ino name => reply entry_answer (Lookup ino name F)
  | RReaddir ino => reply ADir (Readdir ino F)
  | RCreate ino name mode caller now => reply (λ o, entry_answer o.1) (Create ino name mode caller now F)
  | RMkdir ino name mode caller now => reply entry_answer (Mkdir ino name mode caller now F)
  | RSymlink ino target name caller now => reply entry_answer (Node_Symlink ino target name caller now F)
  | RReadlink ino => reply AData (Readlink ino F)
  | RLink ino target name now => reply entry_answer (Link ino target name now F)
  | RUnlink ino name now => reply (λ _, AOk) (Unlink ino name now F)
  | RRmdir ino name now => reply (λ _, AOk) (Rmdir ino name now F)
  | RRename ino name np nn now => reply (λ _, AOk) (Node_Rename ino name np nn now F)
  | ROpen ino => reply AHandle (Open ino F)
  | RStatfs => reply AStat (Statfs F)
  | RGetxattr ino attr n => reply (λ o, ACopy o.1 o.2) (Getxattr ino attr n F)
  | RSetxattr ino attr data now => reply (λ _, AOk) (Setxattr ino attr data now F)
  | RListxattr ino n => reply (λ o, ACopy o.1 o.2) (Listxattr ino n F)
  | RRemovexattr ino attr now => reply (λ _, AOk) (Removexattr ino attr now F)
  | RRead ino n off now => reply AData (FileHandle_Read ino n off now F)
  | RWrite ino data off now => reply ACount (FileHandle_Write ino data off now F)
  | RFlush => reply (λ _, AOk) (FileHandle_Flush F)
  | RFsync => reply (λ _, AOk) (Fsync F)
  end.

Lemma reply_state {A} (f : A → answer) (m : outcome Errno (Fusey W) A) : snd <$> reply f m = out_state m.
Proof. by destruct m. Qed.

Lemma handle_serve r F : snd <$> handle r F = serve r F.
Proof. destruct r; apply reply_state. Qed.

(** The nodes that a request names. *)
Definition request_nodes (r : request) : list Z :=
  match r with
  | RGetattr ino | RSetattr _ ino _ _ | RLookup ino _ | RReaddir ino | RCreate ino _ _ _ _ | RMkdir ino _ _ _ _
  | RSymlink ino _ _ _ _ | RReadlink ino | RUnlink ino _ _ | RRmdir ino _ _ | ROpen ino | RGetxattr ino _ _
  | RSetxattr ino _ _ _ | RListxattr ino _ | RRemovexattr ino _ _ | RRead ino _ _ _ | RWrite ino _ _ _ => [ino]
  | RLink ino target _ _ => ino :: option_list target
  | RRename ino _ np _ _ => ino :: option_list np
  | RStatfs | RFlush | RFsync => []
  end.

(** What the kernel does before it sends a request: it names nodes that it was
    told of (they may have been removed since); it resizes files only, to less
    than 2^63 bytes; it unlinks no directory. *)
Definition kernel_ok (r : request) F : Prop :=
  (∀ ino, ino ∈ request_nodes r →
     ino < nextIno (idx F) ∧ (is_Some (inodes (idx F) !! ino) → linked (entries (idx F)) ino = true)) ∧
  match r with
  | RSetattr B ino inp _ => ∀ z n, w_size (wants B inp) = Some z → inodes (idx F) !! ino = Some n →
      0 <= z ∧ Inode.FileType n = Regular
  | RUnlink p nm _ => ∀ c n, dir_lookup (idx F) p nm = Some c → inodes (idx F) !! c = Some n → Inode.FileType n ≠ Directory
  | _ => True
  end.

(** The request is not a write strictly inside an extent that is not the last
    of its file. The kernel does send such writes; [WriteExtent] loses data on
    them (IndexProps.WriteExtent_inner_split_loses), so the refinement holds of
    all others. *)
Definition avoids_split (r : request) F : Prop :=
  match r with
  | RWrite ino data off _ => ∀ exts, extents (idx F) !! ino = Some exts → no_inner_split off (off + len data) exts = true
  | _ => True
  end.

(** ** Attributes *)

Lemma instant_split t : instant t (u64 (go_div t nsec)) (u32 (go_mod t nsec)).
Proof.
  intros Ht. rw /go_div /go_mod /nsec. pose proof (Z.quot_rem' t 1000000000).
  pose proof (Z.rem_bound_pos t 1000000000 ltac:(lia) ltac:(lia)).
  rw u64_small; [|rw /is_u64; lia]. rw u32_small; [|rw /is_u32; lia]. lia.
Qed.

Lemma shows_attr s i ino n : wf_index i → data_inv obj i s → sizes_ok i → inodes i !! ino = Some n →
  shows (tree_of obj s i) ino (node_of obj s i ino n) (fillAttr n).
Proof.
  intros Hwf Hd Hs Hn. pose proof (wf_struct _ Hwf) as Hc. pose proof (skeleton_Some _ _ _ Hn) as Hsk.
  destruct (core_key _ _ _ _ Hc _ _ Hsk) as [Ei _]. destruct (core_nlink _ _ _ _ Hc _ _ Hsk) as [El _].
  destruct (Hs ino n Hn) as [Hr Ht].
  assert (n_kind (node_of obj s i ino n) = Dir ↔ Inode.FileType n = Directory) as Hdir.
  { rw /= /kind_of. case_decide as E1; [by rw E1|]. case_decide; [done|]. by destruct (symlinks i !! ino). }
  split; try done; try apply instant_split.
  - exists (Inode.FileType n). split; [|done]. rw /= /kind_of. repeat case_decide; simpl; try done.
    destruct (symlinks i !! ino) as [t|] eqn:Et; [|done]. simpl.
    pose proof (wf_sym _ Hwf ino ltac:(by eexists)) as Hy. pose proof (typed_of _ _ _ Hn) as Hy'.
    rw /typed in Hy Hy'. congruence.
  - change (Inode.Nlink n = refs (entries i) ino + if decide (n_kind (node_of obj s i ino n) = Dir) then 1 else 0).
    rw /= /self_links in El. rw El. f_equal. repeat case_decide; tauto.
  - simpl. rw /kind_of. case_decide as E.
    + destruct (Hr E) as [H0 Eb]. destruct (Hd ino _ _ (finfo_regular _ _ _ Hn E)) as (exts & -> & _ & Hi & _).
      rw /= len_data_of // Eb u64_small //. rw /is_i64 in Hi. rw /is_u64. lia.
    + case_decide; [done|]. destruct (symlinks i !! ino) as [t|] eqn:Et; [|done].
      by rw (Ht t eq_refl).
Qed.

(** ** Requests *)

(** What the request starts from. *)
Definition ready (r : request) F : Prop := fs_inv obj F ∧ sizes_ok (idx F) ∧ req_ok r F ∧ kernel_ok r F.

(** The answer and the file system after it are as the specification allows. *)
Definition meets (r : request) F : Prop :=
  ∀ a F', handle r F = Some (a, F') → fs_inv obj F' →
    sizes_ok (idx F') ∧ allowed r (abs obj F) a (abs obj F').

Lemma node_at F ino : (is_Some (inodes (idx F) !! ino) → linked (entries (idx F)) ino = true) →
  nodes (abs obj F) !! ino = node_of obj (chunks F) (idx F) ino <$> inodes (idx F) !! ino.
Proof.
  intros H. rw /abs tree_lookup. destruct (inodes (idx F) !! ino) as [n|]; [|by destruct (linked _ _)].
  by rw (H ltac:(by eexists)).
Qed.

Lemma node_of_request F r ino : kernel_ok r F → ino ∈ request_nodes r →
  nodes (abs obj F) !! ino = node_of obj (chunks F) (idx F) ino <$> inodes (idx F) !! ino.
Proof. intros [H _] Hin. apply node_at. by destruct (H ino Hin). Qed.

Lemma names_at F p nm : names (abs obj F) !! (p, nm) = dir_lookup (idx F) p nm.
Proof. apply entries_dir_lookup. Qed.

(** The attributes that a handler reads back. *)
Lemma shows_read F ino nd : fs_inv obj F → sizes_ok (idx F) → nodes (abs obj F) !! ino = Some nd →
  shows (abs obj F) ino nd (fillAttr (GetInode (idx F) ino).1).
Proof.
  intros H Hs. rw /abs tree_lookup /GetInode. destruct (linked _ _); [|done].
  destruct (inodes (idx F) !! ino) as [n|] eqn:E; [|done]. intros [= <-]. apply shows_attr; [apply H|apply H|done|done].
Qed.

Lemma meets_Getattr ino F : ready (RGetattr ino) F → meets (RGetattr ino) F.
Proof.
  intros (H & Hs & _ & Hk) a F'. rw /= /Getattr /GetInode. pose proof (node_of_request F _ ino Hk ltac:(set_solver)) as En.
  destruct (inodes (idx F) !! ino) as [n|] eqn:E; simpl; intros [= <- <-] _; rw En; [|done].
  split; [done|]. split; [done|]. exists (fillAttr n). split; [done|].
  pose proof (shows_read F ino _ H Hs En) as Hsh. by rw /GetInode E in Hsh.
Qed.

Lemma meets_Lookup p nm F : ready (RLookup p nm) F → meets (RLookup p nm) F.
Proof.
  intros (H & Hs & _ & Hk) a F'. rw /= /Lookup Index_Lookup_dir names_at.
  destruct (dir_lookup (idx F) p nm) as [c|] eqn:Ed; [|by intros [= <- <-] _].
  destruct (wf_entry_child _ _ _ _ (fi_idx _ _ H) Ed) as (_ & _ & n & En).
  assert (nodes (abs obj F) !! c = Some (node_of obj (chunks F) (idx F) c n)) as Ec.
  { rw node_at; [by rw En|]. intros _. apply (linked_name _ (p, nm)). by rw entries_dir_lookup. }
  pose proof (shows_read F c _ H Hs Ec) as Hsh. rw /GetInode En in Hsh |- *. intros [= <- <-] _.
  split; [done|]. split; [done|]. eexists _, _. split; [exact Ec|]. by split.
Qed.

Lemma meets_Open ino F : ready (ROpen ino) F → meets (ROpen ino) F.
Proof.
  intros (H & Hs & _ & Hk) a F'. rw /= /Open /GetInode. pose proof (node_of_request F _ ino Hk ltac:(set_solver)) as En.
  by destruct (inodes (idx F) !! ino) as [n|] eqn:E; simpl; intros [= <- <-] _; rw En.
Qed.

Lemma meets_Readlink ino F : ready (RReadlink ino) F → meets (RReadlink ino) F.
Proof.
  intros (H & Hs & _ & Hk) a F'. rw /= /Readlink /GetSymlink. pose proof (node_of_request F _ ino Hk ltac:(set_solver)) as En.
  destruct (symlinks (idx F) !! ino) as [t|] eqn:Et; simpl; intros [= <- <-] _; (split; [done|]); (split; [done|]); rw En.
  - pose proof (wf_sym _ (fi_idx _ _ H) ino ltac:(by eexists)) as Hy. rw /typed skeleton_lookup in Hy.
    destruct (inodes (idx F) !! ino) as [n|]; [|done]. simpl in Hy |- *. injection Hy as Hy. by rw /kind_of Hy Et.
  - destruct (inodes (idx F) !! ino) as [n|]; [|done]. rw /= /kind_of Et. by repeat case_decide.
Qed.

(** ** Extended attributes *)

Lemma copied_out n v F a F' :
  reply (λ o, ACopy o.1 o.2) (copy_out n v F) = Some (a, F') → F' = F ∧ copied n v a.
Proof.
  rw /copy_out /copied. destruct (Z.eqb_spec n 0); [by intros [= <- <-]; rw decide_True|]. rw decide_False //.
  destruct (Z.ltb_spec n (len v)); intros [= <- <-]; [by rw decide_True|]. rw decide_False //. lia.
Qed.

(** The extended attributes of a node in the tree. *)
Lemma xattrs_at F ino : kernel_ok (RListxattr ino 0) F → fs_inv obj F →
  default ∅ (n_xattrs <$> nodes (abs obj F) !! ino) = GetXattrs (idx F) ino.
Proof.
  intros Hk H. rw (node_of_request F _ ino Hk); [|set_solver]. destruct (inodes (idx F) !! ino) as [n|] eqn:E; [done|].
  rw /GetXattrs. destruct (xattrs (idx F) !! ino) as [x|] eqn:Ex; [|done]. simpl.
  destruct (wf_xat _ (fi_idx _ _ H) ino ltac:(by eexists)) as [y Hy]. by rw skeleton_lookup E in Hy.
Qed.

Lemma xattr_at F ino nm : kernel_ok (RListxattr ino 0) F → fs_inv obj F →
  (nodes (abs obj F) !! ino ≫= λ nd, n_xattrs nd !! nm) = GetXattrs (idx F) ino !! nm.
Proof. intros Hk H. rw - xattrs_at //. by destruct (nodes (abs obj F) !! ino). Qed.

Lemma meets_Getxattr ino nm n F : ready (RGetxattr ino nm n) F → meets (RGetxattr ino nm n) F.
Proof.
  intros (H & Hs & _ & Hk) a F'. rw /= /Getxattr xattr_at //.
  destruct (GetXattrs (idx F) ino !! nm) as [v|]; [|by intros [= <- <-] _]. by intros [-> ?]%copied_out _.
Qed.

Lemma flat_map_fmap {A B D} (f : B → list D) (g : A → B) (l : list A) : flat_map f (g <$> l) = flat_map (λ x, f (g x)) l.
Proof. induction l as [|x l IH]; [done|]. by rw /= IH. Qed.

Lemma meets_Listxattr ino n F : ready (RListxattr ino n) F → meets (RListxattr ino n) F.
Proof.
  intros (H & Hs & _ & Hk) a F'. rw /= /Listxattr. intros [-> Hc]%copied_out _. split; [done|]. split; [done|].
  exists (map_to_list (GetXattrs (idx F) ino)).*1. rw xattrs_at //. split; [done|].
  by rw flat_map_fmap.
Qed.

Lemma meets_Setxattr ino nm data now F : ready (RSetxattr ino nm data now) F → meets (RSetxattr ino nm data now) F.
Proof.
  intros (H & Hs & _ & Hk) a F'. rw /= /Setxattr /on_idx (node_of_request F _ ino Hk); [|set_solver].
  destruct (SetXattr ino nm _ now (idx F)) as [u j|e j|] eqn:E; [| |done]; simpl; intros [= <- <-] _.
  - split; [by eapply SetXattr_sizes|]. rw /abs /= (SetXattr_tree obj _ _ _ _ _ _ _ _ E).
    revert E. rw /SetXattr. by destruct (inodes (idx F) !! ino).
  - revert E. rw /SetXattr. destruct (inodes (idx F) !! ino); [done|]. by intros [= _ <-].
Qed.

Lemma meets_Removexattr ino nm now F : ready (RRemovexattr ino nm now) F → meets (RRemovexattr ino nm now) F.
Proof.
  intros (H & Hs & _ & Hk) a F'. rw /= /Removexattr /on_idx xattr_at //.
  destruct (RemoveXattr ino nm now (idx F)) as [u j|e j|] eqn:E; [| |done]; simpl; intros [= <- <-] _.
  - split; [by eapply RemoveXattr_sizes|]. rw /abs /= (RemoveXattr_tree obj _ _ _ _ _ _ _ E).
    revert E. rw /RemoveXattr /GetXattrs. destruct (inodes (idx F) !! ino); [|done].
    destruct (xattrs (idx F) !! ino) as [x|]; [|done]. simpl. by destruct (x !! nm).
  - assert (GetXattrs (idx F) ino !! nm = None ∧ j = idx F) as [-> ->]; [|by destruct F].
    revert E. rw /RemoveXattr. destruct (inodes (idx F) !! ino) as [n|] eqn:En.
    + rw /GetXattrs. destruct (xattrs (idx F) !! ino) as [x|]; simpl; [destruct (x !! nm); [done|]|]; by intros [= _ <-].
    + intros [= _ <-]. split; [|done]. rw - xattrs_at // (node_of_request F _ ino Hk); [|set_solver]. by rw En.
Qed.

(** ** Directories *)

(** The entries of a directory, none of which is left out. *)
Lemma omap_all {A B} (f : A → option B) (g : A → B) (l : list A) : (∀ x, x ∈ l → f x = Some (g x)) → omap f l = g <$> l.
Proof.
  induction l as [|x l IH]; intros H; [done|]. rw /= (H x); [|by left]. f_equal. apply IH. intros y Hy. apply H. by right.
Qed.

Definition listed F (e : DirEntry.t) : dirent :=
  (Inode.FileType (GetInode (idx F) (DirEntry.ChildIno e)).1, DirEntry.Name e, DirEntry.ChildIno e).

Lemma Readdir_ret ino n F : fs_inv obj F → inodes (idx F) !! ino = Some n → Inode.FileType n = Directory →
  Readdir ino F = Ret ((Directory, "."%string, ino) :: (Directory, ".."%string, GetParentIno (idx F) ino) ::
    (listed F <$> entries_of ino (default ∅ (dirIndex (idx F) !! ino)))) F.
Proof.
  intros H En Ht. rw /Readdir /GetInode En decide_False; [|by intros []]. rw /Index_Readdir En decide_False; [|by intros []].
  do 2 f_equal. f_equal. apply omap_all. intros e He. rw /listed /GetInode.
  apply list_elem_of_fmap in He as ([nm c] & -> & Hin). apply elem_of_map_to_list in Hin.
  destruct (wf_entry_child (idx F) ino nm c (fi_idx _ _ H)) as (_ & _ & m & Em); [|by rw /= Em].
  rw /dir_lookup. by destruct (dirIndex (idx F) !! ino).
Qed.

Lemma meets_Readdir ino F : ready (RReaddir ino) F → meets (RReaddir ino) F.
Proof.
  intros (H & Hs & _ & Hk) a F'. pose proof (node_of_request F _ ino Hk ltac:(set_solver)) as En. rw /= En.
  destruct (inodes (idx F) !! ino) as [n|] eqn:E; [|by rw /Readdir /GetInode E; intros [= <- <-] _].
  assert (linked (entries (idx F)) ino = true) as Hl by (apply (proj1 Hk ino); [set_solver|by eexists]).
  pose proof (tree_is_dir obj (chunks F) (idx F) ino Hl) as Hdir. rw E in Hdir.
  destruct (decide (Inode.FileType n = Directory)) as [Ht|Ht]; last first.
  { rw /Readdir /GetInode E decide_True //. intros [= <- <-] _. split; [done|]. split; [done|].
    rw /= decide_False // => /Hdir [m [[= <-] ?]]. done. }
  rw (Readdir_ret ino n) //. intros [= <- <-] _. split; [done|]. split; [done|].
  rw /= decide_True; [|apply Hdir; by eauto]. eexists. split; [done|].
  eexists _, _. split; [done|]. split; [|split].
  - destruct (GetParentIno_finds (idx F) ino) as (Hr & Hf & _). case_decide as Er; [by rw Er|].
    apply linked_spec in Hl as [?|[[p nm] Hp]]; [done|]. rw entries_dir_lookup in Hp.
    destruct Hf as [nm' Hnm]; [done|by eauto|]. exists nm'. by rw names_at.
  - rw /entries_of - !list_fmap_compose. rw (list_fmap_ext _ fst) //. apply NoDup_fst_map_to_list.
  - intros nm c. rw names_at /dir_lookup. split.
    + intros [ft Hin]. apply list_elem_of_fmap in Hin as (e & [= -> -> ->] & He).
      apply list_elem_of_fmap in He as ([nm c] & -> & Hin). apply elem_of_map_to_list in Hin. simpl.
      by destruct (dirIndex (idx F) !! ino).
    + intros Hc. exists (Inode.FileType (GetInode (idx F) c).1).
      apply list_elem_of_fmap. exists (DirEntry.mk ino nm c). split; [done|].
      apply list_elem_of_fmap. exists (nm, c). split; [done|]. apply elem_of_map_to_list.
      by destruct (dirIndex (idx F) !! ino).
Qed.

(** ** Attributes *)

Lemma on_node_lookup ino f t : nodes (on_node ino f t) !! ino = f <$> nodes t !! ino.
Proof. apply lookup_alter_eq. Qed.

Lemma wants_size_range B inp z : w_size (wants B inp) = Some z → z < 2 ^ 63.
Proof.
  rw /wants /when_bit /=. destruct (_ =? 0); [done|]. intros [= <-].
  pose proof (i64_range (SetAttrIn.Size inp)) as Hr. rw /is_i64 in Hr. lia.
Qed.

Lemma meets_Setattr B ino inp now F : ready (RSetattr B ino inp now) F → meets (RSetattr B ino inp now) F.
Proof.
  intros (H & Hs & _ & Hk) a F'. pose proof (node_of_request F _ ino Hk ltac:(set_solver)) as En. destruct Hk as [Hk Hz].
  rw /= /Setattr -/(wants B inp) /on_idx.
  change (when_bit _ (FATTR_MODE B) _) with (w_mode (wants B inp)). change (when_bit _ (FATTR_UID B) _) with (w_uid (wants B inp)).
  change (when_bit _ (FATTR_GID B) _) with (w_gid (wants B inp)). change (when_bit _ (FATTR_SIZE B) _) with (w_size (wants B inp)).
  change (when_bit _ (FATTR_ATIME B) _) with (w_atime (wants B inp)). change (when_bit _ (FATTR_MTIME B) _) with (w_mtime (wants B inp)).
  set (w := wants B inp) in *.
  destruct (SetAttr ino _ _ _ _ _ _ now (idx F)) as [u j|e j|] eqn:E; [| |done]; simpl.
  - assert (tree_of obj (chunks F) j = on_node ino (set_attrs w now) (abs obj F)) as Et.
    { destruct w eqn:Ew. eapply SetAttr_tree; [apply H|apply H|done| |exact E]. intros z n Hsz Hn.
      destruct (Hz z n Hsz Hn) as [H0 Ht]. split; [|done]. split; [done|]. apply (wants_size_range B inp). by rw -/w Ew. }
    assert (sizes_ok j) as Hsj.
    { eapply SetAttr_sizes; [apply H|done|exact Hz|exact E]. }
    destruct (inodes (idx F) !! ino) as [n|] eqn:Ei; [|by rw /SetAttr Ei in E].
    assert (nodes (tree_of obj (chunks F) j) !! ino = Some (set_attrs w now (node_of obj (chunks F) (idx F) ino n))) as Enj.
    { by rw Et on_node_lookup En. }
    pose proof Enj as Enj'. rw tree_lookup in Enj'. destruct (linked (entries j) ino); [|done].
    rw /GetInode /=. destruct (inodes j !! ino) as [m|] eqn:Em; [|done]. simpl. intros [= <- <-] HF'.
    split; [done|]. rw En. split; [done|]. exists (fillAttr m). split; [done|].
    pose proof (shows_read _ ino _ HF' Hsj Enj) as Hsh. by rw /GetInode /= Em in Hsh.
  - intros [= <- <-] _. revert E. rw /SetAttr. destruct (inodes (idx F) !! ino) as [n|] eqn:Ei; [done|]. intros [= _ <-].
    split; [by destruct F|]. rw En. by destruct F.
Qed.

(** ** Creating *)

Definition born ft perm caller now : node :=
  mkNode (kind_at_birth ft) perm (caller_ids caller).1 (caller_ids caller).2 now now now ∅.

(** The directory that a request names, in the tree and in the index. *)
Lemma dir_free F r p nm : kernel_ok r F → p ∈ request_nodes r →
  (is_dir (abs obj F) p = true ∧ names (abs obj F) !! (p, nm) = None) ↔
  (∃ n, inodes (idx F) !! p = Some n ∧ Inode.FileType n = Directory) ∧ dir_lookup (idx F) p nm = None.
Proof.
  intros [Hk _] Hp. rw names_at. destruct (inodes (idx F) !! p) as [n|] eqn:E.
  - rw /abs tree_is_dir; [by rw E|]. apply (Hk p Hp). by eexists.
  - split; [|by intros [(n & ? & _) _]]. intros [Hd _]. revert Hd. rw /is_dir /abs tree_lookup E. by destruct (linked _ _).
Qed.

(** [AddDirEntry] fails exactly when the name cannot be added. *)
Lemma AddDirEntry_fails p nm c now i e j : AddDirEntry p nm c now i = Fail e j → is_Some (inodes i !! c) →
  j = i ∧ ~ ((∃ n, inodes i !! p = Some n ∧ Inode.FileType n = Directory) ∧ dir_lookup i p nm = None).
Proof.
  rw /AddDirEntry. destruct (inodes i !! p) as [np|]; [|intros [= _ <-] _; split; [done|by intros [(n & ? & _) _]]].
  case_decide as Ht; [intros [= _ <-] _; split; [done|by intros [(n & [= <-] & ?) _]]|].
  destruct (inodes i !! c) as [nc|]; [|by intros _ []]. destruct (dir_lookup i p nm) as [d|] eqn:El.
  - intros [= _ <-] _. split; [done|by intros [_ ?]].
  - by destruct (dirIndex i !! p).
Qed.

Lemma create_entry_cases ft perm caller p nm now F : fs_inv obj F → sizes_ok (idx F) → p ≠ nextIno (idx F) →
  match create_entry ft perm caller p nm now F with
  | Ret c F' => c = nextIno (idx F) ∧ chunks F' = chunks F ∧ sizes_ok (idx F') ∧
      ((∃ n, inodes (idx F) !! p = Some n ∧ Inode.FileType n = Directory) ∧ dir_lookup (idx F) p nm = None) ∧
      (Inode.FileType <$> inodes (idx F') !! c = Some ft) ∧
      abs obj F' = add_node p nm c (born ft perm caller now) now (abs obj F)
  | Fail e F' => e = EEXIST ∧ sizes_ok (idx F') ∧ abs obj F' = abs obj F ∧
      ~ ((∃ n, inodes (idx F) !! p = Some n ∧ Inode.FileType n = Directory) ∧ dir_lookup (idx F) p nm = None)
  | Crash => True
  end.
Proof.
  intros H Hs Hne. rw /create_entry /born. destruct (caller_ids caller) as [uid gid]. rw {1}/on_idx.
  destruct (CreateInode ft perm uid gid 0 now (idx F)) as [c i1|e i1|] eqn:E1; [|done|done]. simpl.
  pose proof (fi_idx _ _ H) as Hwf. destruct (CreateInode_raw obj (chunks F) _ _ _ _ _ _ _ _ Hwf E1) as (-> & Ee & Er).
  pose proof (CreateInode_sizes _ _ _ _ _ _ _ _ Hwf Hs E1) as Hs1.
  destruct (CreateInode_tables _ _ _ _ _ _ _ _ E1) as (_ & Ei & _ & _ & _ & _).
  assert (∀ k, k ≠ nextIno (idx F) → inodes i1 !! k = inodes (idx F) !! k) as Hk by (intros k ?; by rw Ei lookup_insert_ne).
  assert (tree_of obj (chunks F) i1 = abs obj F) as Et1.
  { rw /abs !tree_unfold Er Ee prune_fresh //. by apply fresh_unlinked. }
  assert (∀ q x, dir_lookup i1 q x = dir_lookup (idx F) q x) as Hdl by (intros q x; by rw - !entries_dir_lookup Ee).
  rw /on_idx /=. destruct (AddDirEntry p nm (nextIno (idx F)) now i1) as [u j|e j|] eqn:E2; simpl; [| |done].
  - destruct (AddDirEntry_raw obj (chunks F) _ _ _ _ _ _ _ E2) as ((n & Hn & Ht) & Hf & _ & Ee2 & Er2).
    pose proof (AddDirEntry_sizes _ _ _ _ _ _ _ Hs1 E2) as Hs2. split; [done|]. split; [done|]. split; [done|].
    split; [by rw - Hdl - Hk //; eauto|]. split.
    + destruct (AddDirEntry_ret _ _ _ _ _ _ _ E2) as (_ & _ & _ & _ & Hty). rw Hty Ei lookup_insert_eq //.
    + rw /abs /= (tree_add_name obj (chunks F) i1 j p nm (nextIno (idx F)) now
        (mkNode (kind_at_birth ft) perm uid gid now now now ∅) (raw obj (chunks F) i1)) //; [|by rw Er lookup_insert_eq].
      rw Et1 /add_node Ee. f_equal. by rw alter_insert_eq.
  - destruct (AddDirEntry_fails _ _ _ _ _ _ _ E2) as [-> Hno]; [by rw Ei lookup_insert_eq|].
    split; [done|]. split; [done|]. split; [done|]. intros [(n & Hn & Ht) Hd]. apply Hno. rw Hdl Hk //. by eauto.
Qed.

Lemma request_old F r ino : kernel_ok r F → ino ∈ request_nodes r → ino ≠ nextIno (idx F).
Proof. intros [Hk _] Hin. destruct (Hk ino Hin). lia. Qed.

(** The answer of a request that made node [c]. *)
Lemma creates_new F r p nm nd now F' : kernel_ok r F → p ∈ request_nodes r →
  fs_inv obj F → fs_inv obj F' → sizes_ok (idx F') →
  (∃ n, inodes (idx F) !! p = Some n ∧ Inode.FileType n = Directory) ∧ dir_lookup (idx F) p nm = None →
  abs obj F' = add_node p nm (nextIno (idx F)) nd now (abs obj F) →
  creates p nm nd now (abs obj F) (AEntry (nextIno (idx F)) (fillAttr (GetInode (idx F') (nextIno (idx F))).1)) (abs obj F').
Proof.
  intros Hk Hp H H' Hs' Hd Et. rw /creates decide_True; [|by apply (dir_free F r)].
  eexists _, _. split; [|split; [exact Et|split; [done|]]].
  - rw /abs tree_lookup fresh_ino; [|apply H]. by destruct (linked _ _).
  - apply shows_read => //. rw Et /= lookup_alter_ne; [|by apply (request_old F r)]. apply lookup_insert_eq.
Qed.

Lemma creates_exists F r p nm nd now t' : kernel_ok r F → p ∈ request_nodes r →
  ~ ((∃ n, inodes (idx F) !! p = Some n ∧ Inode.FileType n = Directory) ∧ dir_lookup (idx F) p nm = None) →
  t' = abs obj F → creates p nm nd now (abs obj F) (AErr EEXIST) t'.
Proof. intros Hk Hp Hd ->. rw /creates decide_False //. by rw (dir_free F r). Qed.

Lemma meets_Create p nm mode caller now F :
  ready (RCreate p nm mode caller now) F → meets (RCreate p nm mode caller now) F.
Proof.
  intros (H & Hs & _ & Hk) a F'. rw /handle /Create. assert (p ∈ request_nodes (RCreate p nm mode caller now)) as Hp by set_solver.
  pose proof (create_entry_cases Regular (Z.land mode 0xFFF) caller p nm now F H Hs (request_old F _ p Hk Hp)) as HC.
  destruct (create_entry _ _ _ _ _ _ F) as [c F1|e F1|]; [| |done]; simpl; intros [= <- <-] HF'.
  - destruct HC as (-> & _ & Hs1 & Hd & _ & Et). split; [done|]. by apply (creates_new F (RCreate p nm mode caller now)).
  - destruct HC as (-> & Hs1 & Et & Hd). split; [done|]. by apply (creates_exists F (RCreate p nm mode caller now)).
Qed.

Lemma meets_Mkdir p nm mode caller now F :
  ready (RMkdir p nm mode caller now) F → meets (RMkdir p nm mode caller now) F.
Proof.
  intros (H & Hs & _ & Hk) a F'. rw /handle /Mkdir. assert (p ∈ request_nodes (RMkdir p nm mode caller now)) as Hp by set_solver.
  pose proof (create_entry_cases Directory (Z.land mode 0xFFF) caller p nm now F H Hs (request_old F _ p Hk Hp)) as HC.
  destruct (create_entry _ _ _ _ _ _ F) as [c F1|e F1|]; [| |done]; simpl; intros [= <- <-] HF'.
  - destruct HC as (-> & _ & Hs1 & Hd & _ & Et). split; [done|]. by apply (creates_new F (RMkdir p nm mode caller now)).
  - destruct HC as (-> & Hs1 & Et & Hd). split; [done|]. by apply (creates_exists F (RMkdir p nm mode caller now)).
Qed.

Lemma meets_Symlink p target nm caller now F :
  ready (RSymlink p target nm caller now) F → meets (RSymlink p target nm caller now) F.
Proof.
  intros (H & Hs & Hr & Hk) a F'. rw /handle /Node_Symlink.
  assert (p ∈ request_nodes (RSymlink p target nm caller now)) as Hp by set_solver.
  pose proof (request_old F _ p Hk Hp) as Hne.
  pose proof (create_entry_cases Symlink 0x1FF caller p nm now F H Hs Hne) as HC.
  pose proof (create_entry_safe obj Symlink 0x1FF caller p nm now F H Hr) as Hsafe.
  destruct (create_entry _ _ _ _ _ _ F) as [c F1|e F1|]; [| |done]; last first.
  { simpl. intros [= <- <-] HF'. destruct HC as (-> & Hs1 & Et & Hd). split; [done|].
    by apply (creates_exists F (RSymlink p target nm caller now)). }
  destruct HC as (-> & Ec & Hs1 & Hd & Ht & Et). rw /fs_safe /= in Hsafe.
  destruct (inodes (idx F1) !! nextIno (idx F)) as [n|] eqn:En; [|done]. simpl in Ht. injection Ht as Ht.
  rw /= /on_idx. destruct (SetSymlink (nextIno (idx F)) target now (idx F1)) as [u j|e j|] eqn:E; simpl; last first.
  { by rw /SetSymlink En Ht in E. }
  { by rw /SetSymlink En Ht in E. }
  intros [= <- <-] HF'. pose proof (SetSymlink_sizes _ _ _ _ _ _ (fi_idx _ _ Hsafe) Hs1 E) as Hs2. split; [done|].
  apply (creates_new F (RSymlink p target nm caller now)) => //.
  rw /abs /= (SetSymlink_tree obj _ _ _ _ _ _ _ n En Ht E) -/(abs obj F1) Et /on_node /add_node /=. f_equal.
  by rw alter_alter_ne // alter_insert_eq.
Qed.

Lemma meets_Link p target nm now F : ready (RLink p target nm now) F → meets (RLink p target nm now) F.
Proof.
  intros (H & Hs & _ & Hk) a F'. rw /handle /Link. destruct target as [c|]; [|by intros [= <- <-] _].
  assert (p ∈ request_nodes (RLink p (Some c) nm now)) as Hp by set_solver.
  assert (c ∈ request_nodes (RLink p (Some c) nm now)) as Hc by set_solver.
  pose proof (node_of_request F _ c Hk Hc) as En. rw /= En /GetInode.
  destruct (inodes (idx F) !! c) as [n|] eqn:E; [|by intros [= <- <-] _]. simpl.
  assert (linked (entries (idx F)) c = true) as Hl by (apply (proj1 Hk c); [done|by eexists]).
  pose proof (tree_is_dir obj (chunks F) (idx F) c Hl) as Hdir. rw E in Hdir.
  destruct (decide (Inode.FileType n = Directory)) as [Ht|Ht].
  { intros [= <- <-] _. split; [done|]. rw decide_True; [done|]. apply Hdir. eauto. }
  rw (decide_False (P := is_dir _ c = true)); [|by intros (m & [= <-] & ?)%Hdir].
  rw /on_idx. destruct (AddDirEntry p nm c now (idx F)) as [u j|e j|] eqn:E2; [| |done]; simpl; intros [= <- <-] HF'.
  - pose proof (AddDirEntry_sizes _ _ _ _ _ _ _ Hs E2) as Hs2. split; [done|].
    destruct (AddDirEntry_raw obj (chunks F) _ _ _ _ _ _ _ E2) as (Hd & Hf & _ & Ee2 & Er2).
    rw decide_True; [|apply (dir_free F _ p nm Hk Hp); by split].
    assert (abs obj (set_idx j F) = add_name p nm c now (abs obj F)) as Et.
    { rw /abs /= (tree_add_name obj (chunks F) (idx F) j p nm c now (node_of obj (chunks F) (idx F) c n) (raw obj (chunks F) (idx F))) //;
        [|by rw raw_lookup E]. rw /add_name. f_equal. f_equal. f_equal. by rw insert_id. }
    split; [done|]. eexists. split; [done|]. apply (shows_read (set_idx j F)) => //.
    rw Et /=. destruct (decide (c = p)) as [->|Hne].
    + exfalso. destruct Hd as (m & Hm & Hmt). rw E in Hm. by injection Hm as <-.
    + by rw lookup_alter_ne // lookup_alter_eq En.
  - destruct (AddDirEntry_fails _ _ _ _ _ _ _ E2) as [-> Hno]; [by rw E|].
    split; [done|]. rw decide_False; [by destruct F|]. by rw (dir_free F _ p nm Hk Hp).
Qed.

(** ** Removing and renaming *)

(** The child of a name, in the tree and in the index. *)
Lemma child_is_dir F p nm c n : fs_inv obj F → dir_lookup (idx F) p nm = Some c → inodes (idx F) !! c = Some n →
  is_dir (abs obj F) c = true ↔ Inode.FileType n = Directory.
Proof.
  intros H Ed En. rw /abs tree_is_dir; [|apply (linked_name _ (p, nm)); by rw entries_dir_lookup].
  rw En. split; [by intros (m & [= <-] & ?)|eauto].
Qed.

(** The outcomes of [RemoveDirEntry] in a well-formed index. *)
Lemma RemoveDirEntry_cases p nm now F : fs_inv obj F →
  match RemoveDirEntry p nm now (idx F) with
  | Ret _ j => sizes_ok (idx F) → sizes_ok j ∧
      ∃ c n, dir_lookup (idx F) p nm = Some c ∧ inodes (idx F) !! c = Some n ∧
        (Inode.FileType n = Directory → ~ has_entries (abs obj F) c) ∧
        tree_of obj (chunks F) j = remove_name p nm c now (abs obj F)
  | Fail e j => j = idx F ∧
      ((dir_lookup (idx F) p nm = None ∧ mentions_not_empty e = contains "not empty" nm && bool_decide (is_Some (inodes (idx F) !! p))) ∨
       ∃ c n, dir_lookup (idx F) p nm = Some c ∧ inodes (idx F) !! c = Some n ∧ Inode.FileType n = Directory ∧
         has_entries (abs obj F) c ∧ mentions_not_empty e = true)
  | Crash => False
  end.
Proof.
  intros H. pose proof (RemoveDirEntry_tree obj (chunks F) p nm now (idx F)) as HT.
  pose proof (RemoveDirEntry_sizes p nm now (idx F)) as HS. pose proof (RemoveDirEntry_preserves p nm now _ (fi_idx _ _ H)) as HP.
  destruct (RemoveDirEntry p nm now (idx F)) as [u j|e j|] eqn:E; [| |done].
  - intros Hs. split; [by eapply HS|]. destruct (HT u j (fi_idx _ _ H) eq_refl) as (c & Hc & Et).
    destruct (wf_entry_child _ _ _ _ (fi_idx _ _ H) Hc) as (_ & _ & n & En). exists c, n. split_and!; [done..| |done].
    intros Ht He%tree_has_entries. revert E. rw /RemoveDirEntry Hc En. destruct (inodes (idx F) !! p); [|done].
    rw decide_True //.
  - revert E. rw /RemoveDirEntry. destruct (inodes (idx F) !! p) as [np|] eqn:Ep; last first.
    { intros [= <- <-]. split; [done|]. left. split.
      - destruct (dir_lookup (idx F) p nm) as [c|] eqn:Hc; [|done].
        destruct (wf_entry_child _ _ _ _ (fi_idx _ _ H) Hc) as (Hd & _). exfalso.
        apply (core_dirs _ _ _ _ (wf_struct _ (fi_idx _ _ H))) in Hd as (x & Hx & _). by rw skeleton_lookup Ep in Hx.
      - by rw bool_decide_false ?andb_false_r; [|intros []]. }
    destruct (dir_lookup (idx F) p nm) as [c|] eqn:Hc.
    + destruct (inodes (idx F) !! c) as [n|] eqn:En; [|done]. case_decide as Hne; [|done]. intros [= <- <-].
      split; [done|]. right. exists c, n. destruct Hne. split_and!; try done. by apply tree_has_entries.
    + intros [= <- <-]. split; [done|]. left. split; [done|]. by rw bool_decide_true ?andb_true_r.
Qed.

Lemma meets_Unlink p nm now F : ready (RUnlink p nm now) F → meets (RUnlink p nm now) F.
Proof.
  intros (H & Hs & _ & _ & Hk) a F'. rw /= /Unlink /on_idx names_at. pose proof (RemoveDirEntry_cases p nm now F H) as HC.
  destruct (RemoveDirEntry p nm now (idx F)) as [u j|e j|]; [| |done]; simpl; intros [= <- <-] _.
  - destruct (HC Hs) as (Hs' & c & n & -> & En & _ & Et). done.
  - destruct HC as [-> [[-> _]|(c & n & Hc & En & Ht & _)]]; [by destruct F|]. by destruct (Hk c n Hc En).
Qed.

Lemma meets_Rmdir p nm now F : ready (RRmdir p nm now) F → meets (RRmdir p nm now) F.
Proof.
  intros (H & Hs & _ & _) a F'. rw /= /Rmdir Index_Lookup_dir names_at.
  destruct (dir_lookup (idx F) p nm) as [c|] eqn:Hc; [|by intros [= <- <-] _].
  destruct (wf_entry_child _ _ _ _ (fi_idx _ _ H) Hc) as (_ & _ & n & En). rw /GetInode En.
  pose proof (child_is_dir F p nm c n H Hc En) as Hdir. case_decide as Ht.
  { intros [= <- <-] _. split; [done|]. left. split; [|done]. destruct (is_dir _ c); [by destruct Ht; apply Hdir|done]. }
  rw /on_idx. pose proof (RemoveDirEntry_cases p nm now F H) as HC. rw Hc in HC.
  destruct (RemoveDirEntry p nm now (idx F)) as [u j|e j|]; [| |done]; simpl; intros [= <- <-] _.
  - destruct (HC Hs) as (Hs' & c' & n' & [= <-] & En' & Hno & Et). rw En in En'. injection En' as <-. split; [done|].
    right. right. split; [by apply Hdir|]. split; [by apply Hno|]. done.
  - destruct HC as [-> [[? _]|(c' & n' & [= <-] & _ & _ & He & ->)]]; [done|]. split; [by destruct F|].
    right. left. split; [by apply Hdir|]. split; [done|]. by destruct F.
Qed.

Lemma meets_Rename p nm np nm' now F : ready (RRename p nm np nm' now) F → meets (RRename p nm np nm' now) F.
Proof.
  intros (H & Hs & Hr & _) a F'. destruct np as [p'|]; [|by intros [= <- <-] _]. destruct Hr as [Hd Hne].
  pose proof (fi_idx _ _ H) as Hwf. rw /= /on_idx !names_at.
  destruct (Index_Rename p nm p' nm' now (idx F)) as [u j|e j|] eqn:E; [| |done]; simpl; intros [= <- <-] _.
  - split; [by eapply Rename_sizes|]. destruct (Rename_tree obj (chunks F) _ _ _ _ _ _ _ _ Hwf Hd Hne E) as (c & Hc & Et).
    rw Hc. right. split; [|by split]. intros (d & Hdst & Hdd & He).
    destruct (wf_entry_child _ _ _ _ Hwf Hdst) as (_ & _ & n & En).
    apply (child_is_dir F p' nm' d n H Hdst En) in Hdd. apply tree_has_entries in He.
    revert E. rw /Index_Rename Hc /= /rename_drop_dst Hdst En decide_True //.
  - revert E. rw /Index_Rename. destruct (dir_lookup (idx F) p nm) as [c|] eqn:Hc; [|by intros [= _ <-]; destruct F].
    cbv zeta. rw /rename_drop_dst. destruct (dir_lookup (idx F) p' nm') as [d|] eqn:Hdst; simpl; [|by repeat case_match].
    destruct (wf_entry_child _ _ _ _ Hwf Hdst) as (_ & _ & n & En). rw En. case_decide as Hx; simpl; [|by repeat case_match].
    intros [= _ <-]. split; [by destruct F|]. left. split; [|by destruct F]. exists d. split; [done|].
    destruct Hx as [Ht He]. split; [by apply (child_is_dir F p' nm' d n)|by apply tree_has_entries].
Qed.

(** ** Files *)

(** Reading chunks does not change the tree. *)
Lemma only_read_abs F F' : fs_inv obj F → only_read obj F F' → abs obj F' = abs obj F ∧ (sizes_ok (idx F) → sizes_ok (idx F')).
Proof.
  intros H (Ei & _ & _ & _ & _ & Hx). rw /abs Ei. split; [|done]. apply tree_extends; [done|apply H].
Qed.

(** The file system after a read: as before, or with another access time. *)
Lemma Read_state ino n off now F : fs_inv obj F → 0 < n → 0 <= off → off + n <= int64_max →
  match FileHandle_Read ino n off now F with
  | Ret b F' => ∃ nd, inodes (idx F) !! ino = Some nd ∧
      ((F' = F ∧ b = [] ∧ (Inode.Size nd <= off ∨ extents (idx F) !! ino = None)) ∨
       (off < Inode.Size nd ∧ is_Some (extents (idx F) !! ino) ∧
        ∃ F1, only_read obj F F1 ∧ F' = set_idx (TouchAtime ino now (idx F1)) F1))
  | Fail ENOENT F' => F' = F ∧ inodes (idx F) !! ino = None
  | Fail e F' => e = EIO ∧ only_read obj F F' ∧ is_Some (extents (idx F) !! ino)
  | Crash => False
  end.
Proof.
  intros H Hn Ho Hm. rw /FileHandle_Read /GetInode. destruct (inodes (idx F) !! ino) as [nd|] eqn:E; [|done].
  rw Z.geb_leb. destruct (Z.leb_spec (Inode.Size nd) off) as [Hle|Hlt]; [by eauto 10|].
  rw /GetExtents. destruct (extents (idx F) !! ino) as [exts|] eqn:Ex; [|by eauto 10].
  destruct (good_extents obj F ino exts H Ex) as (nd' & E' & _ & Hg & Hi & _). rw E in E'. injection E' as <-. rw /is_i64 in Hi.
  rw (i64_small (off + n)); [|rw /is_i64; lia]. set (end_ := if off + n >? Inode.Size nd then Inode.Size nd else off + n).
  assert (off < end_ <= int64_max) as He by (rw /end_ Z.gtb_ltb; zcases; lia). clearbody end_.
  rw i64_small; [|rw /is_i64; lia]. destruct (Z.ltb_spec (end_ - off) 0); [lia|].
  assert (holds_content obj off end_ (chunks F) [] (replicate (Z.to_nat (end_ - off)) zero_byte)) as Hz.
  { split; [rw len_replicate; lia|]. intros o Hr. rw /content /=. apply lookup_replicate_2. lia. }
  pose proof (read_loop_cases obj off end_ exts [] _ F (fi_cs _ _ H) Hg ltac:(lia) ltac:(lia) Hz) as HR. revert HR.
  rw (app_nil_l exts). destruct (read_loop off end_ exts _ F) as [buf F1|er F1|]; simpl; [|by intros [-> ?]|done].
  intros [Hor _]. exists nd. split; [done|]. right. split; [done|]. split; [done|]. by eauto.
Qed.

(** The node of a regular file, and of anything else. *)
Lemma file_node F ino n : fs_inv obj F → sizes_ok (idx F) → inodes (idx F) !! ino = Some n → Inode.FileType n = Regular →
  ∃ exts, extents (idx F) !! ino = Some exts ∧ file_ok obj (chunks F) exts (Inode.Size n) ∧ 0 <= Inode.Size n ∧
    n_kind (node_of obj (chunks F) (idx F) ino n) = File (data_of obj (chunks F) exts (Inode.Size n)).
Proof.
  intros H Hs En Ht. destruct (fi_data _ _ H ino _ _ (finfo_regular _ _ _ En Ht)) as (exts & Ex & Hok).
  exists exts. split_and!; [done|done|by apply (Hs ino n En)|]. by rw /= /kind_of Ht Ex.
Qed.

Lemma other_node F ino n : fs_inv obj F → inodes (idx F) !! ino = Some n → Inode.FileType n ≠ Regular →
  extents (idx F) !! ino = None ∧ ∀ d, n_kind (node_of obj (chunks F) (idx F) ino n) ≠ File d.
Proof.
  intros H En Ht. split.
  - apply eq_None_not_Some => /(wf_ext _ (fi_idx _ _ H)). pose proof (typed_of _ _ _ En) as Hy. rw /typed in Hy |- *.
    rw Hy. by intros [= ?].
  - intros d. rw /= /kind_of decide_False //. case_decide; [done|]. by destruct (symlinks (idx F) !! ino).
Qed.

(** A buffer that holds the content of a range is that part of the file. *)
Lemma range_of_data s exts size n off (buf : bytes) : file_ok obj s exts size → 0 <= size → 0 < n → 0 <= off →
  len buf = Z.max 0 (Z.min (off + n) size - off) →
  (∀ o, off <= o < off + len buf → buf !! Z.to_nat (o - off) = content obj s exts o) →
  buf = take (Z.to_nat n) (drop (Z.to_nat off) (data_of obj s exts size)).
Proof.
  intros Hok Hs Hn Ho Hl Hb. pose proof (len_data_of obj s exts size Hs) as El. rw /len in Hl El.
  apply list_eq => j. destruct (decide (j < length buf)%nat) as [Hj|Hj].
  - specialize (Hb (off + Z.of_nat j) ltac:(rw /len; lia)). replace (Z.to_nat (off + Z.of_nat j - off)) with j in Hb by lia.
    rw Hb lookup_take_lt; [|lia]. rw lookup_drop. rw - (lookup_data_of obj s exts size); [|lia|apply Hok]. f_equal. lia.
  - rw lookup_ge_None_2; [|lia]. symmetry. apply lookup_ge_None_2. rw length_take length_drop. lia.
Qed.

Lemma meets_Read ino n off now F : ready (RRead ino n off now) F → meets (RRead ino n off now) F.
Proof.
  intros (H & Hs & (Hn & Ho & Hm) & Hk) a F'. rw /= (node_of_request F _ ino Hk); [|set_solver].
  pose proof (Read_state ino n off now F H Hn Ho Hm) as HS. pose proof (FileHandle_Read_cases obj ino n off now F H Hn Ho Hm) as HR.
  destruct (FileHandle_Read ino n off now F) as [b F1|e F1|]; [| |done]; simpl; intros [= <- <-] _.
  - destruct HS as (nd & En & HS). destruct HR as (_ & nd' & En' & HR). rw En in En'. injection En' as <-. rw En /=.
    destruct (decide (Inode.FileType nd = Regular)) as [Ht|Ht].
    + destruct (file_node F ino nd H Hs En Ht) as (exts & Ex & Hok & H0 & Ekind). simpl in Ekind. rw Ekind.
      destruct (HR Ht) as (exts' & Ex' & Hl & Hb). rw Ex in Ex'. injection Ex' as <-.
      rw (range_of_data (chunks F) exts (Inode.Size nd) n off b) // len_data_of //.
      destruct HS as [(-> & -> & [Hle|?])|(Hlt & _ & F2 & Hor & ->)]; [|congruence|].
      * split; [done|]. right. split; [done|]. rw decide_False //. lia.
      * destruct (only_read_abs F F2 H Hor) as [Ea Hs2]. split; [by apply TouchAtime_sizes, Hs2|]. right. split; [done|].
        rw decide_True // - Ea. apply TouchAtime_tree.
    + destruct (other_node F ino nd H En Ht) as [Ex Hno]. simpl in Hno.
      destruct HS as [(-> & -> & _)|(_ & [x Hx] & _)]; [|congruence]. split; [done|].
      destruct (kind_of _ _ _ _ _) eqn:Ek; [by destruct (Hno data)|done..].
  - assert (e = ENOENT ∧ F1 = F ∧ inodes (idx F) !! ino = None ∨ e = EIO ∧ only_read obj F F1 ∧ is_Some (extents (idx F) !! ino)) as HS'.
    { destruct e; try (by right); by left. }
    destruct HS' as [(-> & -> & ->)|(-> & Hor & [exts Ex])]; [done|].
    destruct (only_read_abs F F1 H Hor) as [Ea Hs1]. split; [by apply Hs1|].
    destruct (good_extents obj F ino exts H Ex) as (nd & En & Ht & _). rw En /= /kind_of Ht Ea. by left.
Qed.

(** The commit of a write, after its data were appended. *)
Lemma commit_tree ino data now F s ext n :
  fs_inv obj F → sizes_ok (idx F) → inodes (idx F) !! ino = Some n → extends obj (chunks F) s →
  good_ext obj s ext → ext_data obj s ext data →
  (∀ exts, extents (idx F) !! ino = Some exts →
     no_inner_split (Extent.FileOffset ext) (Extent.FileOffset ext + len data) exts = true) →
  match WriteExtent ino ext now (idx F) with
  | Ret _ j => sizes_ok j ∧ ∃ old, n_kind (node_of obj (chunks F) (idx F) ino n) = File old ∧
      tree_of obj s j = on_node ino (λ nd, modified now (with_kind (File (overwrite (Z.to_nat (Extent.FileOffset ext)) data old)) nd))
        (abs obj F)
  | Fail _ j => j = idx F
  | Crash => False
  end.
Proof.
  intros H Hs En Hx Hg Hd Hns. pose proof (fi_idx _ _ H) as Hwf. pose proof (fi_data _ _ H) as Hda.
  destruct (WriteExtent ino ext now (idx F)) as [u j|e j|] eqn:E; last first.
  { revert E. rw /WriteExtent En. by case_decide. }
  { revert E. rw /WriteExtent En. case_decide; [by intros [= _ <-]|done]. }
  destruct u. destruct (WriteExtent_effect _ _ _ _ _ _ En E) as (Ht & _ & _).
  destruct (file_node F ino n H Hs En Ht) as (exts & Ex & Hok & Hpos & Ek).
  assert (eEnd ext = Extent.FileOffset ext + len data) as Ee by (rw (eEnd_wf _ (proj1 Hg)) (proj1 Hd) //).
  pose proof (proj1 Hg) as (?&?&?&?&?). pose proof (len_nonneg data).
  split; [eapply WriteExtent_sizes; [done|done| |exact E]; lia|]. eexists. split; [exact Ek|].
  rw (WriteExtent_tree obj s ino ext data now (idx F) tt j n exts Hwf) //.
  - rw (tree_extends obj (chunks F) s) // (data_of_extends obj (chunks F) s) //. apply Hok.
  - by eapply data_inv_extends.
  - rw Ee. by apply Hns.
Qed.

Lemma meets_Write ino data off now F :
  ready (RWrite ino data off now) F → avoids_split (RWrite ino data off now) F → meets (RWrite ino data off now) F.
Proof.
  intros (H & Hs & (Hne & Ho & Hm & Hq) & Hk) Hns a F'. rw /= (node_of_request F _ ino Hk); [|set_solver].
  rw /FileHandle_Write /GetInode. pose proof (len_nonneg data).
  destruct (inodes (idx F) !! ino) as [n|] eqn:En; [|by intros [= <- <-] _]. simpl.
  rw (i64_small (off + len data)); [|rw /is_i64; lia].
  destruct (_ && _) eqn:Hcap.
  { intros [= <- <-] _. split; [done|]. right. left. split; [done|]. split; [|done]. intros old Hold.
    apply andb_true_iff in Hcap as [Hcap _]. destruct (decide (Inode.FileType n = Regular)) as [Ht|Ht].
    - destruct (file_node F ino n H Hs En Ht) as (exts & Ex & Hok & Hpos & Ek). simpl in Ek. rw Ek in Hold. injection Hold as <-.
      rw len_data_of //. lia.
    - destruct (other_node F ino n H En Ht) as [_ Hno]. by destruct (Hno old). }
  pose proof (append_cases obj data off F H Hne Ho Hm Hq) as HA.
  destruct (on_chunks (Append data off) EIO F) as [ext F1|e F1|]; simpl; [| |done]; last first.
  { destruct e; try done. destruct HA as (H1 & Ei & Hx). intros [= <- <-] _. split; [by rw Ei|]. left. split; [done|].
    rw /abs Ei. apply tree_extends; [done|apply H]. }
  destruct HA as (s & -> & H1 & Hx & Hg & Hd & Ef). subst off. rw /on_idx /=.
  pose proof (commit_tree ino data now F s ext n H Hs En Hx Hg Hd Hns) as HC.
  destruct (WriteExtent ino ext now (idx F)) as [u j|e j|]; simpl; [| |done]; intros [= <- <-] _.
  - destruct HC as (Hsj & old & Ek & Et). split; [done|]. right. right. by exists old.
  - subst j. split; [done|]. left. split; [done|]. apply tree_extends; [done|apply H].
Qed.

(** ** The other requests *)

Lemma meets_Fsync F : ready RFsync F → meets RFsync F.
Proof.
  intros (H & Hs & _ & _) a F'. rw /= /Fsync /on_chunks. pose proof (FlushActive_cases obj (chunks F) (fi_cs _ _ H)) as HF.
  destruct (FlushActive (chunks F)) as [u s1|e s1|]; [| |done]; simpl; last first.
  { intros [= <- <-] _. destruct HF as (_ & Hx & _). split; [done|]. split; [|by right].
    apply tree_extends; [done|apply H]. }
  destruct HF as (Hw & Hx & Ec & _). assert (fs_inv obj (set_chunks s1 F)) as H1 by (apply chunks_inv; [done..|by rw Ec]).
  assert (abs obj (set_chunks s1 F) = abs obj F) as Ea by (apply tree_extends; [done|apply H]).
  case_decide as Hdir; [|intros [= <- <-] _; split; [done|split; [done|by left]]].
  assert (∀ i d, out_state (Save (cacheDir F) (idx F, local (wd s1))) = Some (i, d) →
    sizes_ok i ∧ tree_of obj (mkCState (cs s1) (mkWorld (backing (wd s1)) d)) i = abs obj F) as Hsave.
  { intros i d Hsv. assert (i = idx F ∨ i = MarkClean (idx F)) as Hi.
    { destruct (Save_cases _ _ _ _ _ Hsv) as [(? & _ & -> & _)|(? & _ & -> & _)]; auto. }
    assert (tree_of obj (mkCState (cs s1) (mkWorld (backing (wd s1)) d)) (idx F) = tree_of obj s1 (idx F)) as Ed.
    { apply tree_extends; [by apply extends_view|apply H1]. }
    rw - Ea. by destruct Hi as [->| ->]. }
  rw /save_index. change (Save _ _) with (Save (cacheDir F) (idx F, local (wd s1))).
  destruct (Save (cacheDir F) (idx F, local (wd s1))) as [v [i d]|e [i d]|]; [| |done];
    simpl; intros [= <- <-] _; destruct (Hsave i d eq_refl) as [Hsi Eti]; (split; [done|]); (split; [done|]); [by left|by right].
Qed.

Lemma meets_Statfs F : ready RStatfs F → meets RStatfs F.
Proof.
  intros (H & Hs & _ & _) a F'. rw /= /Statfs. destruct (_ =? 0); [done|]. intros [= <- <-] _.
  split; [done|]. split; [done|]. eexists. by split.
Qed.

Lemma meets_all r F : ready r F → avoids_split r F → meets r F.
Proof.
  destruct r; auto using meets_Getattr, meets_Setattr, meets_Lookup, meets_Readdir, meets_Create, meets_Mkdir, meets_Symlink,
    meets_Readlink, meets_Link, meets_Unlink, meets_Rmdir, meets_Rename, meets_Open, meets_Statfs, meets_Getxattr,
    meets_Setxattr, meets_Listxattr, meets_Removexattr, meets_Read, meets_Write, meets_Fsync.
  intros (H & Hs & _ & _) _ a F' [= <- <-] _. done.
Qed.

(** ** Runs *)

(** A file system that may serve requests. *)
Definition sound F : Prop := fs_inv obj F ∧ sizes_ok (idx F).

Lemma step_refines r F a F' : sound F → req_ok r F → kernel_ok r F → avoids_split r F → handle r F = Some (a, F') →
  sound F' ∧ allowed r (abs obj F) a (abs obj F').
Proof.
  intros [H Hs] Hr Hk Hns Ea. assert (fs_inv obj F') as H' by (apply (serve_inv obj r F F' H Hr); by rw - handle_serve Ea).
  by destruct (meets_all r F ltac:(by split_and!) Hns a F' Ea H').
Qed.


(** A sequence of requests with the answers of the handlers. *)
Inductive run : Fusey W → list (request * answer) → Fusey W → Prop :=
  | run_nil F : run F [] F
  | run_snoc F l F1 r a F2 :
      run F l F1 → req_ok r F1 → kernel_ok r F1 → avoids_split r F1 → handle r F1 = Some (a, F2) →
      run F (l ++ [(r, a)]) F2.

(** Any sequence of requests with the answers that the handlers give is a
    sequence that the specification allows, from the tree that the file system
    stood for to the tree that it stands for; the file system stays sound. *)
Theorem runs_refine F l F' : sound F → run F l F' → sound F' ∧ spec_run (abs obj F) l (abs obj F').
Proof.
  intros Hs Hr. induction Hr as [F|F l F1 r a F2 _ IH Hok Hk Hns Hh]; [by split; [|constructor]|].
  destruct (IH Hs) as [H1 Hsp]. destruct (step_refines r F1 a F2 H1 Hok Hk Hns Hh) as [H2 Ha].
  split; [done|]. by eapply spec_snoc.
Qed.

(** A new file system has nothing but the root directory. *)
Lemma New_tree s bs now :
  tree_of obj s (New bs now) = mkTree {[RootIno := fresh_node Dir 0x1ED None now]} ∅.
Proof.
  assert (entries (New bs now) = ∅) as Ee.
  { apply map_empty => -[p nm]. rw entries_dir_lookup /dir_lookup /=. rw lookup_singleton. by case_decide. }
  by rw tree_unfold Ee.
Qed.
End refine.
