(* ===== verification/Frame.v ===== *)
(** What one call of the index leaves alone: an inode that no name leads to
    keeps its tables and stays without a name unless the call is given its
    number, and no inode changes its type. An inode between [CreateInode] and
    [AddDirEntry] is such an inode. *)
From S2P Require Import Prelude Types Extents Index IndexInv OS Decimal Persist Store Cache ChunkStore.
From S2P Require Import Fuse FuseData FuseInv FuseProps FsSpec SpecAbs SpecIndex SpecNames SpecRefine.
#[local] Open Scope Z_scope.

(** Everything that the tables have about an inode, its entries apart. *)
Definition cell (i : Index) (c : Z) :=
  (inodes i !! c, extents i !! c, symlinks i !! c, xattrs i !! c).

(** ** Updates of some inodes *)

Record apart (X : Z → Prop) (i j : Index) : Prop := {
  ap_next : nextIno j = nextIno i;
  ap_cell c : ~ X c → cell j c = cell i c;
  ap_type c n : inodes j !! c = Some n → ∃ n0, inodes i !! c = Some n0 ∧ Inode.FileType n = Inode.FileType n0;
}.

#[global] Instance apart_preorder X : PreOrder (apart X).
Proof.
  split.
  - intros i. split; [done|done|eauto].
  - intros i j k [N1 C1 T1] [N2 C2 T2]. split; [congruence| |].
    + intros c Hc. by rw C2 // C1.
    + intros c n Hn. destruct (T2 c n Hn) as (n1 & H1 & ->). by apply T1.
Qed.

Section updates.
Variable X : Z → Prop.
Variables (i : Index) (ino : Z).
Implicit Types f : Inode.t → Inode.t.

Lemma apart_inode f : X ino → (∀ n, Inode.FileType (f n) = Inode.FileType n) → apart X i (on_inode ino f i).
Proof.
  intros Hx Hf. split; [done| |].
  - intros c Hc. rw /cell /= lookup_alter_ne //. by intros ->.
  - intros c n. simpl. rw lookup_alter. case_decide as E; [subst c|by eauto].
    destruct (inodes i !! ino) as [m|]; [|done]. intros [= <-]. eauto.
Qed.

Lemma apart_extents v : X ino → apart X i (on_extents <[ino := v]> i).
Proof. intros Hx. split; [done| |by eauto]. intros c Hc. rw /cell /= lookup_insert_ne //. by intros ->. Qed.
Lemma apart_symlinks v : X ino → apart X i (on_symlinks <[ino := v]> i).
Proof. intros Hx. split; [done| |by eauto]. intros c Hc. rw /cell /= lookup_insert_ne //. by intros ->. Qed.
Lemma apart_xattrs v : X ino → apart X i (on_xattrs <[ino := v]> i).
Proof. intros Hx. split; [done| |by eauto]. intros c Hc. rw /cell /= lookup_insert_ne //. by intros ->. Qed.
Lemma apart_xattr g : X ino → apart X i (on_xattrs (alter g ino) i).
Proof. intros Hx. split; [done| |by eauto]. intros c Hc. rw /cell /= lookup_alter_ne //. by intros ->. Qed.

Lemma apart_free : X ino → apart X i (free_inode ino i).
Proof.
  intros Hx. split; [done| |].
  - intros c Hc. assert (ino ≠ c) by by intros ->. by rw /cell /= !lookup_delete_ne.
  - intros c n. simpl. intros [_ Hn]%lookup_delete_Some. eauto.
Qed.

Lemma apart_dirs g : apart X i (on_dirIndex g i).
Proof. by split; eauto. Qed.
Lemma apart_mark : apart X i (mark_dirty i).
Proof. by split; eauto. Qed.
Lemma apart_dirty b : apart X i (set_dirty b i).
Proof. by split; eauto. Qed.
End updates.

(** An update that keeps the type. *)
Ltac keep_type := intros ?; unfold opt_set, set_mctime, grow_size; repeat case_match; reflexivity.

(** [keep_apart] follows the chain of updates of an operation and leaves that
    the updated inodes are in the set. *)
Ltac keep_apart :=
  repeat lazymatch goal with
  | |- apart _ _ (mark_dirty _) => etrans; [|apply apart_mark]
  | |- apart _ _ (set_dirty _ _) => etrans; [|apply apart_dirty]
  | |- apart _ _ (on_dirIndex _ _) => etrans; [|apply apart_dirs]
  | |- apart _ _ (free_inode _ _) => etrans; [|apply apart_free]
  | |- apart _ _ (on_inode _ _ _) => etrans; [|apply apart_inode; [|keep_type]]
  | |- apart _ _ (on_extents _ _) => etrans; [|apply apart_extents]
  | |- apart _ _ (trimExtents _ _ _) => etrans; [|apply apart_extents]
  | |- apart _ _ (on_symlinks _ _) => etrans; [|apply apart_symlinks]
  | |- apart _ _ (on_xattrs _ _) => etrans; [|first [apply apart_xattrs | apply apart_xattr]]
  | |- apart _ _ (if ?b then _ else _) => destruct b
  | |- apart _ ?i ?i => reflexivity
  end.

(** ** Calls *)

(** The inodes that a call which is given the numbers [l] may change. *)
Definition hits (l : list Z) (i : Index) (c : Z) : Prop :=
  linked (entries i) c = true ∨ c ∈ l ∧ is_Some (inodes i !! c).

Record touch (l : list Z) (i j : Index) : Prop := {
  to_next : nextIno i <= nextIno j;
  to_type c n : c < nextIno i → inodes j !! c = Some n →
    ∃ n0, inodes i !! c = Some n0 ∧ Inode.FileType n = Inode.FileType n0;
  to_cell c : c < nextIno i → ~ hits l i c → cell j c = cell i c;
  to_link c : ~ hits l i c → linked (entries j) c = false;
}.

Lemma unlinked l i c : ~ hits l i c → linked (entries i) c = false.
Proof. rw /hits. destruct (linked _ c); [|done]. intros H. exfalso. auto. Qed.

Lemma touch_same l i j : apart (hits l i) i j → entries j = entries i → touch l i j.
Proof.
  intros [Hn Hc Ht] He. split; [lia|by eauto|by eauto|]. intros c Hh. rw He. by eapply unlinked.
Qed.

Lemma touch_refl l i : touch l i i.
Proof. apply touch_same; [reflexivity|done]. Qed.

(** A call that is given linked inodes only. *)
Lemma touch_linked l k i j : (∀ c, c ∈ l → c ∈ k ∨ (is_Some (inodes i !! c) → linked (entries i) c = true)) →
  touch l i j → touch k i j.
Proof.
  intros Hl [Hn Ht Hc Hk]. assert (∀ c, ~ hits k i c → ~ hits l i c) as Hw.
  { intros c Hh [Hx|[Hx Hs]]; apply Hh; [by left|]. destruct (Hl c Hx) as [?|H]; [right|left]; auto. }
  split; auto.
Qed.

Lemma linked_child i p nm c : dir_lookup i p nm = Some c → linked (entries i) c = true.
Proof. intros H. apply (linked_name _ (p, nm)). by rw entries_dir_lookup. Qed.

(** The updated inodes of a call. *)
Ltac hit := first [right; split; [set_solver|eexists; eassumption] | left; eapply linked_child; eassumption].

Section calls.
Implicit Types i : Index.

Lemma SetAttr_touch ino mode uid gid size atime mtime now i :
  leaves (touch [ino] i) (SetAttr ino mode uid gid size atime mtime now i).
Proof.
  rw /SetAttr. destruct (inodes i !! ino) as [n|] eqn:En; intros j [= <-]; [|apply touch_refl].
  destruct size as [z|]; repeat case_decide; (apply touch_same; [keep_apart; hit|done]).
Qed.

Lemma WriteExtent_touch ino ext now i : leaves (touch [ino] i) (WriteExtent ino ext now i).
Proof.
  rw /WriteExtent. destruct (inodes i !! ino) as [n|] eqn:En; [|intros j [= <-]; apply touch_refl].
  case_decide; intros j [= <-]; [apply touch_refl|]. apply touch_same; [|done].
  keep_apart; hit.
Qed.

Lemma SetSymlink_touch ino target now i : leaves (touch [ino] i) (SetSymlink ino target now i).
Proof.
  rw /SetSymlink. destruct (inodes i !! ino) as [n|] eqn:En; [|intros j [= <-]; apply touch_refl].
  case_decide; intros j [= <-]; [apply touch_refl|]. apply touch_same; [|done]. keep_apart; hit.
Qed.

Lemma SetXattr_touch ino nm v now i : leaves (touch [ino] i) (SetXattr ino nm v now i).
Proof.
  rw /SetXattr. destruct (inodes i !! ino) as [n|] eqn:En; intros j [= <-]; [|apply touch_refl].
  apply touch_same; [|done]. keep_apart; hit.
Qed.

Lemma RemoveXattr_touch ino nm now i : leaves (touch [ino] i) (RemoveXattr ino nm now i).
Proof.
  rw /RemoveXattr. destruct (inodes i !! ino) as [n|] eqn:En; [|intros j [= <-]; apply touch_refl].
  case_match; intros j [= <-]; [|apply touch_refl].
  apply touch_same; [|done]. keep_apart; hit.
Qed.

Lemma TouchAtime_touch ino now i : touch [ino] i (TouchAtime ino now i).
Proof.
  rw /TouchAtime. destruct (inodes i !! ino) as [n|] eqn:En; [|apply touch_refl].
  apply touch_same; [|done]. keep_apart; hit.
Qed.

(** *** Calls that change names *)

Lemma touch_names l i j : apart (hits l i) i j →
  (∀ c, linked (entries j) c = true → linked (entries i) c = true ∨ hits l i c) → touch l i j.
Proof.
  intros [Hn Hc Ht] Hl. split; [lia|by eauto|by eauto|]. intros c Hh. destruct (linked (entries j) c) eqn:E; [|done].
  exfalso. destruct (Hl c E); [|done]. apply Hh. by left.
Qed.

Lemma CreateInode_next ft perm uid gid now i c j : wf_index i → nextIno i < 2 ^ 64 - 1 →
  CreateInode ft perm uid gid 0 now i = Ret c j → nextIno j = nextIno i + 1.
Proof.
  intros Hwf Hr [= _ <-]. pose proof (wf_root_next _ Hwf) as H0. rw /RootIno in H0.
  repeat case_decide; simpl; rw u64_small //; rw /is_u64; lia.
Qed.

Lemma CreateInode_touch ft perm uid gid now i : wf_index i → nextIno i < 2 ^ 64 - 1 →
  leaves (touch [] i) (CreateInode ft perm uid gid 0 now i).
Proof.
  intros Hwf Hr j Hj. injection Hj as Hj.
  destruct (CreateInode_tables ft perm uid gid now i (nextIno i) j) as (_ & Ei & Ee & Ed & Es & Ex); [by rw - Hj|].
  assert (nextIno j = nextIno i + 1) as En by (eapply CreateInode_next; [done|done|]; by rw - Hj).
  clear Hj. split; [lia|..].
  - intros c n Hc. rw Ei lookup_insert_ne; [by eauto|lia].
  - intros c Hc _. rw /cell Ei Ee Es Ex lookup_insert_ne; [|lia]. clear Ed Ee Ei.
    case_decide; [|done]. by rw lookup_insert_ne; [|lia].
  - intros c Hh. apply unlinked in Hh. rw /entries Ed. clear Ed Ee Ei. case_decide; [|done].
    rw flat_new; [done|]. by apply fresh_tables.
Qed.

Lemma AddDirEntry_touch p nm c now i : leaves (touch [p; c] i) (AddDirEntry p nm c now i).
Proof.
  rw /AddDirEntry. destruct (inodes i !! p) as [np|] eqn:Ep; [|intros j [= <-]; apply touch_refl].
  case_decide; [intros j [= <-]; apply touch_refl|].
  destruct (inodes i !! c) as [nc|] eqn:Ec; [|intros j [= <-]; apply touch_refl].
  destruct (dir_lookup i p nm) as [d|] eqn:El; [intros j [= <-]; apply touch_refl|].
  destruct (dirIndex i !! p) as [ch|] eqn:Ech; [|done]. intros j [= <-]. apply touch_names; [keep_apart; hit|].
  intros k. rw /entries /= flat_insert //. intros [->|?]%linked_insert_inv; [right; hit|by left].
Qed.

End calls.

Section names.
Context {W : Type} {S : Store W} (obj : W → string → option bytes) {L : StoreLaws S obj}.
Variable s : cstate W.

Lemma dirs_exist i p : wf_index i → p ∈ dirs i → is_Some (inodes i !! p).
Proof.
  intros Hwf (x & Hx & _)%(core_dirs _ _ _ _ (wf_struct _ Hwf)). rw skeleton_lookup in Hx.
  apply fmap_Some in Hx as (n & -> & _). by eexists.
Qed.

Lemma RemoveDirEntry_touch p nm now i : wf_index i → leaves (touch [p] i) (RemoveDirEntry p nm now i).
Proof.
  intros Hwf j Hj. destruct (RemoveDirEntry p nm now i) as [u j'|e j'|] eqn:E; [| |done]; injection Hj as ->.
  - destruct (RemoveDirEntry_tree obj s p nm now i u j Hwf E) as (c & _ & Et). apply touch_names.
    + revert E. rw /RemoveDirEntry. destruct (inodes i !! p) as [np|] eqn:Ep; [|done].
      destruct (dir_lookup i p nm) as [d|] eqn:El; [|done]. destruct (inodes i !! d) as [n|] eqn:Ec; [|done].
      case_decide; [done|]. intros [= _ <-]. keep_apart; hit.
    + intros k. change (entries j) with (names (tree_of obj s j)). rw Et /=. intros ?%linked_delete. by left.
  - revert E. rw /RemoveDirEntry. repeat case_match; intros [= _ <-]; apply touch_refl.
Qed.

Lemma Rename_touch sp sn dp dn now i : wf_index i → dp ∈ dirs i → (sp, sn) ≠ (dp, dn) →
  (is_Some (inodes i !! sp) → linked (entries i) sp = true) → (is_Some (inodes i !! dp) → linked (entries i) dp = true) →
  leaves (touch [] i) (Index_Rename sp sn dp dn now i).
Proof.
  intros Hwf Hd Hne Hsp Hdp j Hj. destruct (Index_Rename sp sn dp dn now i) as [u j'|e j'|] eqn:E; [| |done]; injection Hj as ->.
  - destruct (Rename_tree obj s sp sn dp dn now i u j Hwf Hd Hne E) as (c & Hc & Et). apply touch_names.
    + assert (hits [] i sp) as Hhs.
      { left. apply Hsp. destruct (wf_entry_child _ _ _ _ Hwf Hc) as (Hx & _). by eapply dirs_exist. }
      assert (hits [] i dp) as Hhd by (left; apply Hdp; by eapply dirs_exist).
      assert (hits [] i c) as Hhc by hit.
      revert E. rw /Index_Rename Hc. cbv zeta. intros (v & i1 & Ed & Hr)%obind_ret_inv.
      destruct (dirIndex (on_dirIndex (alter (delete sn) sp) i1) !! dp) as [ch|]; [|done].
      destruct (inodes i !! c) as [nc|]; [|done]. injection Hr as _ <-.
      assert (apart (hits [] i) i i1) as H1.
      { revert Ed. rw /rename_drop_dst. destruct (dir_lookup i dp dn) as [d|] eqn:El; [|by intros [= _ <-]].
        destruct (inodes i !! d) as [n|]; [|done]. destruct (decide (_ ∧ _)); [done|]. intros [= _ <-]. keep_apart; hit. }
      etrans; [exact H1|]. destruct (decide (dp ≠ sp)); by keep_apart.
    + intros k. change (entries j) with (names (tree_of obj s j)). rw Et /=. 
      intros [->|?%linked_delete]%linked_insert_inv; [|by left]. left. by eapply linked_child.
  - revert E. rw /Index_Rename. destruct (dir_lookup i sp sn); [|intros [= _ <-]; apply touch_refl]. cbv zeta.
    rw /rename_drop_dst. repeat case_match; simpl; repeat case_match; intros [= _ <-]; apply touch_refl.
Qed.
End names.
