(* ===== verification/SpecDemo.v ===== *)
(** The file system of FuseWitness.v as a tree: a file is created, written,
    renamed and read; each answer is one that the specification allows. *)
From S2P Require Import Prelude Types Extents Index IndexInv OS Decimal Persist Store Cache ChunkStore.
From S2P Require Import ChunkProps Fuse FuseData FuseInv FuseProps FuseWitness FsSpec SpecAbs SpecIndex SpecNames SpecRefine.
#[local] Open Scope Z_scope.

#[local] Existing Instance demo_store.
#[local] Existing Instance demo_laws.
#[local] Existing Instance count_codec.

Definition demo_requests : list request :=
  [RCreate RootIno "f" 0x1A4 None 1; RWrite 2 ab 0 2; RRename RootIno "f" (Some RootIno) "g" 3; RRead 2 10 1 4].

(** The requests with their answers, and the file system at the end. *)
Fixpoint play (l : list request) (F : Fusey Disk) : list (request * answer) * Fusey Disk :=
  match l with
  | [] => ([], F)
  | r :: l => match handle r F with
              | Some (a, F') => let (t, F2) := play l F' in ((r, a) :: t, F2)
              | None => ([], F)
              end
  end.

Definition demo_trace : list (request * answer) := (play demo_requests demo_fs).1.
Definition demo_end (n : nat) : Fusey Disk := (play (take n demo_requests) demo_fs).2.

(** What users see at the end. *)
Example demo_tree :
  names (abs demo_obj (demo_end 4)) = {[(RootIno, "g"%string) := 2]} ∧
  n_kind <$> nodes (abs demo_obj (demo_end 4)) !! 2 = Some (File ab) ∧
  (demo_trace !! 3%nat) ≫= (λ ra, match ra.2 with AData b => Some b | _ => None end) = Some (drop 1 ab).
Proof. split_and!; vm_compute; reflexivity. Qed.

Definition demo_answer (n : nat) : answer := default AOk (snd <$> demo_trace !! n).

Lemma demo_step n r : demo_requests !! n = Some r →
  bool_decide (n < 4)%nat = true → handle r (demo_end n) = Some (demo_answer n, demo_end (Datatypes.S n)).
Proof.
  intros Hr Hn%bool_decide_eq_true. destruct n as [|[|[|[|n]]]]; [..|lia]; injection Hr as <-; vm_compute; reflexivity.
Qed.

Ltac known := intros ? Hin; cbn in Hin; repeat match goal with
  | H : _ ∈ _ :: _ |- _ => apply elem_of_cons in H as [->|H]
  | H : _ ∈ [] |- _ => by apply not_elem_of_nil in H
  end; (split; [vm_compute; reflexivity|intros _; vm_compute; reflexivity]).

Lemma demo_requests_ok n r : demo_requests !! n = Some r →
  req_ok r (demo_end n) ∧ kernel_ok r (demo_end n) ∧ avoids_split r (demo_end n).
Proof.
  destruct n as [|[|[|[|n]]]]; [..|done]; intros [= <-].
  - split; [by vm_compute|]. split; [|done]. split; [known|done].
  - split; [by split_and!; vm_compute|]. split; [split; [known|done]|]. intros exts Hx. vm_compute in Hx. injection Hx as <-. by vm_compute.
  - split; [split; [apply elem_of_dom; eexists; vm_compute; reflexivity|done]|]. split; [|done]. split; [known|done].
  - split; [done|]. split; [|done]. split; [known|done].
Qed.

Lemma demo_fs_sound : sound demo_obj demo_fs.
Proof. split; [exact demo_fs_inv|apply New_sizes]. Qed.

Lemma demo_run n : (n <= 4)%nat → run demo_fs (take n demo_trace) (demo_end n).
Proof.
  induction n as [|n IH]; intros Hn; [constructor|].
  destruct (demo_requests !! n) as [r|] eqn:Er; [|by apply lookup_ge_None_1 in Er; simpl in Er; lia].
  destruct (demo_requests_ok n r Er) as (Hok & Hk & Hns).
  assert (take (Datatypes.S n) demo_trace = take n demo_trace ++ [(r, demo_answer n)]) as ->.
  { apply take_S_r. destruct n as [|[|[|[|n]]]]; [..|lia]; injection Er as <-; vm_compute; reflexivity. }
  eapply run_snoc; [apply IH; lia|done|done|done|]. apply demo_step; [done|]. apply bool_decide_eq_true. lia.
Qed.

Lemma runs_refine_witness : spec_run (abs demo_obj demo_fs) (take 4 demo_trace) (abs demo_obj (demo_end 4)).
Proof.
  exact (proj2 (runs_refine demo_obj (L := demo_laws) demo_fs (take 4 demo_trace) (demo_end 4) demo_fs_sound
    (demo_run 4 (le_n 4)))).
Defined.

Lemma demo_end_sound n : (n <= 4)%nat → sound demo_obj (demo_end n).
Proof.
  intros Hn. pose proof (demo_run n Hn) as Hr. pose proof demo_fs_sound as Hs. revert Hr Hs.
  generalize demo_fs (take n demo_trace) (demo_end n). intros F l F' Hr Hs.
  induction Hr as [|F l F1 r a F2 _ IH Hok Hk Hns Hh]; [done|]. by apply (step_refines demo_obj r F1 a F2 (IH Hs)).
Qed.


(** ** Errors *)

(** The answer to the last of some requests on an empty file system. *)
Definition last_answer (l : list request) : option answer := snd <$> last (play l demo_fs).1.

(** Answers that are not those of src/specs/filesystem.qnt: a missing node, a
    link to a directory, a new name in a file, a lookup, a read and a write in a
    directory, a missing link, and a listing that leaves the access time. *)
Example answers_differ :
  let B := {| FATTR_MODE := 1; FATTR_UID := 2; FATTR_GID := 4; FATTR_SIZE := 8; FATTR_ATIME := 16; FATTR_MTIME := 32 |} in
  let made := [RMkdir RootIno "d" 0x1ED None 1; RCreate RootIno "f" 0x1A4 None 1] in
  last_answer [RSetattr B 9 (SetAttrIn.mk 1 0x1FF 0 0 0 0 0 0 0) 2] = Some (AErr EIO) ∧
  last_answer (made ++ [RLink RootIno (Some 2) "l" 2]) = Some (AErr EPERM) ∧
  last_answer (made ++ [RCreate 3 "g" 0x1A4 None 2]) = Some (AErr EEXIST) ∧
  last_answer (made ++ [RCreate 9 "g" 0x1A4 None 2]) = Some (AErr EEXIST) ∧
  last_answer (made ++ [RLink 9 (Some 3) "l" 2]) = Some (AErr EEXIST) ∧
  last_answer (made ++ [RLookup 3 "g"]) = Some (AErr ENOENT) ∧
  last_answer (made ++ [RRead 2 10 0 2]) = Some (AData []) ∧
  last_answer (made ++ [RWrite 2 ab 0 2]) = Some (AErr EIO) ∧
  last_answer (made ++ [RReadlink 9]) = Some (AErr EINVAL) ∧
  (play (made ++ [RReaddir 2]) demo_fs).2 = (play made demo_fs).2.
Proof. split_and!; vm_compute; reflexivity. Qed.

(** Every failed rename is answered with EIO, also where the destination is a
    directory that is not empty or the source is missing; a file may replace an
    empty directory, and a directory may be moved into itself, after which
    nothing in it can be reached. *)
Example rename_errors :
  let dirs := [RMkdir RootIno "a" 0x1ED None 1; RMkdir RootIno "b" 0x1ED None 1; RCreate 3 "f" 0x1A4 None 1] in
  last_answer (dirs ++ [RRename RootIno "a" (Some RootIno) "b" 2]) = Some (AErr EIO) ∧
  last_answer (dirs ++ [RRename RootIno "z" (Some RootIno) "y" 2]) = Some (AErr EIO) ∧
  last_answer (dirs ++ [RRename 3 "f" (Some RootIno) "a" 2]) = Some AOk ∧
  last_answer (dirs ++ [RRename RootIno "b" (Some 3) "c" 2]) = Some AOk ∧
  last_answer (dirs ++ [RRename RootIno "b" (Some 3) "c" 2; RLookup RootIno "b"]) = Some (AErr ENOENT).
Proof. split_and!; vm_compute; reflexivity. Qed.
