(* ===== verification/Compaction.v ===== *)
(** The compactor (src/internal/compaction/compactor.go).

    The state is the index, the chunk store, and whatever the persist function
    keeps ([P]); the persist function is an argument, as in the source. Go's
    [float64] is IEEE binary64, given by the Standard Library's [SpecFloat].
    The clock is a function that gives the reading for each output chunk, and
    [order] the order in which [LiveExtents] meets the files. *)
From S2P Require Import Prelude Types Extents Index OS Decimal Store Cache ChunkStore.
From Stdlib Require Import Floats.SpecFloat.
#[local] Open Scope Z_scope.

Inductive CompactErr := ErrList | ErrRead | ErrWrite | ErrPersist | ErrDelete.

Record kstate W P := mkK { k_idx : Index; k_cs : cstate W; k_p : P }.
Arguments mkK {W P}. Arguments k_idx {W P}. Arguments k_cs {W P}. Arguments k_p {W P}.

Definition set_k_idx {W P} i (k : kstate W P) : kstate W P := mkK i (k_cs k) (k_p k).
Definition set_k_cs {W P} s (k : kstate W P) : kstate W P := mkK (k_idx k) s (k_p k).

(** The compactor's own fields besides index and chunk store. *)
Record Compactor W P := mkCompactor {
  persist : kstate W P → outcome unit (kstate W P) unit;
  threshold : spec_float;
  chunkSize : Z;
}.
Arguments mkCompactor {W P}. Arguments persist {W P}. Arguments threshold {W P}. Arguments chunkSize {W P}.

Definition Compactor_New {W P} (persist : kstate W P → outcome unit (kstate W P) unit) (threshold : spec_float)
    (chunkSize : Z) : Compactor W P := mkCompactor persist threshold chunkSize.

(** ** The orphan fraction *)

Definition float64 (z : Z) : spec_float := binary_normalize 53 1024 z 0 false.

(** [float64(total-live) / float64(total) >= threshold]. *)
Definition orphan_heavy (thr : spec_float) (total live : Z) : bool :=
  SFleb thr (SFdiv 53 1024 (float64 (total -! live)) (float64 total)).

(** [liveByChunk[id]]. *)
Definition live_in (id : string) (live : list Extent.t) : list Extent.t :=
  filter (fun e => Extent.ChunkID e = id) live.

Definition live_bytes (exts : list Extent.t) : Z :=
  foldl (fun live e => live +! Extent.Length e) 0 exts.

(** ** Packing *)

Definition compacted_id (t seq : Z) : string :=
  ("compacted-" +:+ Sprintf_d t +:+ "-" +:+ Sprintf_d seq)%string.

Record outputChunk := mkOut { o_id : string; o_buf : bytes }.

(** [outputs] (the current one apart), the current output, [seq] and [remap]. *)
Record packing := mkPacking {
  p_done : list outputChunk;
  p_cur : outputChunk;
  p_seq : Z;
  p_remap : gmap (string * Z) Extent.t;
}.

Definition outputs (p : packing) : list outputChunk := p_done p ++ [p_cur p].

Section operations.
Context {W P : Type} {S : Store W}.
Variable clock : Z → Z.
Implicit Types s : cstate W.

Definition newOutput (p : packing) : packing :=
  mkPacking (outputs p) (mkOut (compacted_id (clock (p_seq p)) (p_seq p)) []) (p_seq p +! 1) (p_remap p).

(** The first call of [newOutput]. *)
Definition first_output : packing :=
  mkPacking [] (mkOut (compacted_id (clock 0) 0) []) 1 ∅.

(** The loop over the sealed chunks; a chunk whose size is not known is
    skipped. *)
Fixpoint select_targets (thr : spec_float) (live : list Extent.t) (ids : list string) s
    : outcome CompactErr (cstate W) (list string) :=
  match ids with
  | [] => Ret [] s
  | id :: ids =>
      match SealedSize id s with
      | Crash => Crash
      | Fail _ s => select_targets thr live ids s
      | Ret total s =>
          let! targets, s := select_targets thr live ids s in
          Ret (if (total =? 0) || orphan_heavy thr total (live_bytes (live_in id live))
               then id :: targets else targets) s
      end
  end.

(** Appending one extent's data to the current output. *)
Definition place (e : Extent.t) (data : bytes) (chunkSize : Z) (p : packing) : packing :=
  let p := if (0 <? len (o_buf (p_cur p))) && (len (o_buf (p_cur p)) +! Extent.Length e >? chunkSize)
           then newOutput p else p in
  let cur := p_cur p in
  mkPacking (p_done p) (mkOut (o_id cur) (o_buf cur ++ data)) (p_seq p)
    (<[(Extent.ChunkID e, Extent.ChunkOffset e) :=
         Extent.mk (o_id cur) (len (o_buf cur)) (Extent.Length e) (Extent.FileOffset e)]> (p_remap p)).

Fixpoint pack (chunkSize : Z) (exts : list Extent.t) (p : packing) s
    : outcome CompactErr (cstate W) packing :=
  match exts with
  | [] => Ret p s
  | e :: exts =>
      match Read (Extent.ChunkID e) (Extent.ChunkOffset e) (Extent.Length e) s with
      | Crash => Crash
      | Fail _ s => Fail ErrRead s
      | Ret data s => pack chunkSize exts (place e data chunkSize p) s
      end
  end.

Fixpoint write_outputs (outs : list outputChunk) s : outcome CompactErr (cstate W) unit :=
  match outs with
  | [] => Ret tt s
  | o :: outs =>
      if len (o_buf o) =? 0 then write_outputs outs s
      else match PutSealed (o_id o) (o_buf o) s with
           | Crash => Crash
           | Fail _ s => Fail ErrWrite s
           | Ret _ s => write_outputs outs s
           end
  end.

(** A step of the chunk store. *)
Definition on_cs {A} (m : cstate W → outcome CompactErr (cstate W) A) (k : kstate W P)
    : outcome CompactErr (kstate W P) A :=
  match m (k_cs k) with
  | Ret a s => Ret a (set_k_cs s k)
  | Fail e s => Fail e (set_k_cs s k)
  | Crash => Crash
  end.

Definition as_err {A} (err : CompactErr) (m : outcome ChunkErr (cstate W) A)
    : outcome CompactErr (cstate W) A :=
  match m with Ret a s => Ret a s | Fail _ s => Fail err s | Crash => Crash end.

(** The live extents of the targets, in the order in which they are packed. *)
Definition moved (live : list Extent.t) (targets : list string) : list Extent.t :=
  flat_map (fun id => live_in id live) targets.

Definition Compact (order : list Z) (c : Compactor W P) (k : kstate W P)
    : outcome CompactErr (kstate W P) unit :=
  let live := LiveExtents order (k_idx k) in
  let! sealedIDs, k := on_cs (fun s => as_err ErrList (ListSealed s)) k in
  let! targets, k := on_cs (select_targets (threshold c) live sealedIDs) k in
  match targets with
  | [] => Ret tt k
  | _ =>
  let! p, k := on_cs (pack (chunkSize c) (moved live targets) first_output) k in
  let! _, k := on_cs (write_outputs (outputs p)) k in
  let k := set_k_idx (RemapExtents (p_remap p) (k_idx k)) k in
  match persist c k with
  | Crash => Crash
  | Fail _ k => Fail ErrPersist k
  | Ret _ k => on_cs (fun s => as_err ErrDelete (DeleteChunks targets s)) k
  end end.
End operations.
