(* ===== verification/Strconv.v ===== *)
(** Go's conversions from text that the configuration uses, besides
    [strconv.ParseInt] of Decimal.v: [strconv.ParseBool], [strconv.ParseFloat]
    at 64 bits and [time.ParseDuration]. Floating-point numbers are IEEE
    binary64, as in Compaction.v. *)
From S2P Require Import Prelude Decimal Compaction.
From Stdlib Require Import Strings.Ascii Floats.SpecFloat.
#[local] Open Scope Z_scope.

(** ** strconv.ParseBool *)

Definition ParseBool (s : string) : option bool :=
  if decide (s ∈ ["1"; "t"; "T"; "true"; "TRUE"; "True"]) then Some true
  else if decide (s ∈ ["0"; "f"; "F"; "false"; "FALSE"; "False"]) then Some false
  else None.

(** [strconv.FormatBool]. *)
Definition FormatBool (b : bool) : string := if b then "true" else "false".

(** ** strconv.ParseFloat *)

(** A letter in lower case. *)
Definition lower (c : ascii) : ascii :=
  let n := N_of_ascii c in
  if ((65 <=? n) && (n <=? 90))%N then ascii_of_N (n + 32) else c.

Fixpoint lower_string (s : string) : string :=
  match s with EmptyString => EmptyString | String c s => String (lower c) (lower_string s) end.

(** A digit of base ten or, with [hex], of base sixteen. *)
Definition base_digit (hex : bool) (c : ascii) : option Z :=
  match char_digit c with
  | Some d => Some d
  | None =>
      let n := Z.of_N (N_of_ascii (lower c)) in
      if hex && (97 <=? n) && (n <=? 102) then Some (n - 87) else None
  end.

(** The digits of the mantissa: their value, how many there are, how many of
    them follow the point, and the rest of the text. *)
Fixpoint mantissa (hex dot : bool) (m nd frac : Z) (s : string) : Z * Z * Z * string :=
  match s with
  | EmptyString => (m, nd, frac, s)
  | String c r =>
      if Ascii.eqb c "_" then mantissa hex dot m nd frac r
      else if Ascii.eqb c "." then
        if dot then (m, nd, frac, s) else mantissa hex true m nd frac r
      else
        match base_digit hex c with
        | Some d =>
            mantissa hex dot (m * (if hex then 16 else 10) + d) (nd + 1)
              (if dot then frac + 1 else frac) r
        | None => (m, nd, frac, s)
        end
  end.

(** The digits of the exponent, which stop counting once they reach 10000. *)
Fixpoint exponent (e : Z) (s : string) : Z * string :=
  match s with
  | EmptyString => (e, s)
  | String c r =>
      if Ascii.eqb c "_" then exponent e r
      else
        match char_digit c with
        | Some d => exponent (if e <? 10000 then e * 10 + d else e) r
        | None => (e, s)
        end
  end.

Definition starts_with_digit (s : string) : bool :=
  match s with String c _ => bool_decide (is_Some (char_digit c)) | EmptyString => false end.

(** An exponent part, if there is one; [None] when it is malformed. *)
Definition exponent_part (hex : bool) (s : string) : option (Z * string) :=
  match s with
  | String c r =>
      if Ascii.eqb (lower c) (if hex then "p" else "e")%char then
        let '(neg, r) := match r with
          | String c r' => if Ascii.eqb c "-" then (true, r')
                           else if Ascii.eqb c "+" then (false, r') else (false, r)
          | EmptyString => (false, r)
          end in
        if starts_with_digit r then
          let '(e, r) := exponent 0 r in Some (if neg then - e else e, r)
        else None
      else if hex then None else Some (0, s)
  | EmptyString => if hex then None else Some (0, s)
  end.

(** What the character before was, for [underscoreOK]. *)
Inductive seen := SeenStart | SeenDigit | SeenUnderscore | SeenOther.

Fixpoint underscores (hex : bool) (saw : seen) (s : string) : bool :=
  match s with
  | EmptyString => match saw with SeenUnderscore => false | _ => true end
  | String c s =>
      if base_digit hex c is Some _ then underscores hex SeenDigit s
      else if Ascii.eqb c "_" then
        match saw with SeenDigit => underscores hex SeenUnderscore s | _ => false end
      else
        match saw with SeenUnderscore => false | _ => underscores hex SeenOther s end
  end.

Definition strip_sign (s : string) : bool * string :=
  match s with
  | String c r => if Ascii.eqb c "-" then (true, r)
                  else if Ascii.eqb c "+" then (false, r) else (false, s)
  | EmptyString => (false, s)
  end.

(** A hexadecimal prefix, with something after it. *)
Definition strip_hex (s : string) : bool * string :=
  match s with
  | String a (String b (String _ _ as r)) =>
      if Ascii.eqb a "0" && Ascii.eqb (lower b) "x" then (true, r) else (false, s)
  | _ => (false, s)
  end.

(** [m * base ^ e] rounded to the nearest binary64. *)
Definition round64 (neg hex : bool) (m e : Z) : spec_float :=
  match m with
  | Zpos p =>
      if hex then binary_normalize 53 1024 (if neg then Zneg p else Zpos p) e neg
      else if 0 <=? e then binary_normalize 53 1024 ((if neg then Zneg p else Zpos p) * 10 ^ e) 0 neg
      else SFdiv 53 1024 (S754_finite neg p 0) (S754_finite false (Z.to_pos (10 ^ (- e))) 0)
  | _ => S754_zero neg
  end.

(** [strconv.ParseFloat(s, 64)]: infinities and NaN by name, decimal and
    hexadecimal literals; a literal that rounds to infinity is out of range. *)
Definition ParseFloat (s : string) : option spec_float :=
  let '(neg, body) := strip_sign s in
  if decide (lower_string body ∈ ["inf"; "infinity"]) then Some (S754_infinity neg)
  else if decide (lower_string s = "nan") then Some S754_nan
  else
    let '(hex, ds) := strip_hex body in
    let '(m, nd, frac, r) := mantissa hex false 0 0 0 ds in
    if nd =? 0 then None
    else
      match exponent_part hex r with
      | Some (e, EmptyString) =>
          if negb (underscores hex (if hex then SeenDigit else SeenStart) ds) then None
          else
            match round64 neg hex m (e - (if hex then 4 else 1) * frac) with
            | S754_infinity _ => None
            | f => Some f
            end
      | _ => None
      end.

(** ** time.ParseDuration *)

(** [leadingInt]: [None] on overflow of [1<<63]. *)
Fixpoint leadingInt (x : Z) (s : string) : option (Z * string) :=
  match s with
  | EmptyString => Some (x, s)
  | String c r =>
      match char_digit c with
      | None => Some (x, s)
      | Some d =>
          if 2 ^ 63 / 10 <? x then None
          else if 2 ^ 63 <? x * 10 + d then None else leadingInt (x * 10 + d) r
      end
  end.

(** [leadingFraction]: digits that no longer fit are dropped. *)
Fixpoint leadingFraction (x : Z) (scale : spec_float) (overflow : bool) (s : string)
    : Z * spec_float * string :=
  match s with
  | EmptyString => (x, scale, s)
  | String c r =>
      match char_digit c with
      | None => (x, scale, s)
      | Some d =>
          if overflow then leadingFraction x scale true r
          else if (2 ^ 63 - 1) / 10 <? x then leadingFraction x scale true r
          else if 2 ^ 63 <? x * 10 + d then leadingFraction x scale true r
          else leadingFraction (x * 10 + d) (SFmul 53 1024 scale (float64 10)) false r
      end
  end.

(** The unit: everything up to the next digit or point. *)
Fixpoint unit_part (s : string) : string * string :=
  match s with
  | EmptyString => (EmptyString, s)
  | String c r =>
      if Ascii.eqb c "." || bool_decide (is_Some (char_digit c)) then (EmptyString, s)
      else let '(u, r) := unit_part r in (String c u, r)
  end.

(** The two spellings of the micro sign, U+00B5 and U+03BC, in UTF-8. *)
Definition micro_sign : string := String (ascii_of_N 194) (String (ascii_of_N 181) "s").
Definition greek_mu : string := String (ascii_of_N 206) (String (ascii_of_N 188) "s").

Definition unitMap (u : string) : option Z :=
  if decide (u = "ns") then Some 1
  else if decide (u ∈ ["us"; micro_sign; greek_mu]) then Some 1000
  else if decide (u = "ms") then Some (10 ^ 6)
  else if decide (u = "s") then Some (10 ^ 9)
  else if decide (u = "m") then Some (60 * 10 ^ 9)
  else if decide (u = "h") then Some (3600 * 10 ^ 9)
  else None.

(** [uint64(f)] of a float in range: truncation towards zero. *)
Definition trunc_u64 (f : spec_float) : Z :=
  match f with
  | S754_finite false m e => if 0 <=? e then Zpos m * 2 ^ e else Zpos m / 2 ^ (- e)
  | _ => 0
  end.

(** One [number unit] group of a duration. *)
Definition duration_group (s : string) : option (Z * string) :=
  if negb (starts_with_digit s || match s with String "." _ => true | _ => false end) then None
  else
    match leadingInt 0 s with
    | None => None
    | Some (v, s1) =>
        let pre := negb (String.eqb s1 s) in
        let '(f, scale, s2, post) := match s1 with
          | String "." r => let '(f, scale, r') := leadingFraction 0 (float64 1) false r in
                            (f, scale, r', negb (String.eqb r' r))
          | _ => (0, float64 1, s1, false)
          end in
        if negb (pre || post) then None
        else
          let '(u, s3) := unit_part s2 in
          match unitMap u with
          | None => None
          | Some unit =>
              if 2 ^ 63 / unit <? v then None
              else
                let v := v * unit in
                let v := if 0 <? f
                  then v + trunc_u64 (SFmul 53 1024 (float64 f) (SFdiv 53 1024 (float64 unit) scale))
                  else v in
                if 2 ^ 63 <? v then None else Some (v, s3)
          end
    end.

Fixpoint durations (fuel : nat) (d : Z) (s : string) : option Z :=
  match fuel, s with
  | _, EmptyString => Some d
  | O, _ => None
  | S fuel, _ =>
      match duration_group s with
      | None => None
      | Some (v, s) => if 2 ^ 63 <? u64 (d + v) then None else durations fuel (u64 (d + v)) s
      end
  end.

(** [time.ParseDuration], in nanoseconds; each group takes at least one
    character of the text, so its length is fuel enough. *)
Definition ParseDuration (s : string) : option Z :=
  let '(neg, s) := strip_sign s in
  if decide (s = "0") then Some 0
  else if decide (s = "") then None
  else
    match durations (String.length s) 0 s with
    | None => None
    | Some d => if neg then Some (- d) else if 2 ^ 63 - 1 <? d then None else Some d
    end.

Example ParseFloat_samples :
  (ParseFloat "0.3", ParseFloat "1_0.5e-1", ParseFloat "0x1p-2", ParseFloat "1e400", ParseFloat ".",
   ParseFloat "1__0", ParseFloat "-Inf")
  = (Some (S754_finite false 5404319552844595 (-54)), Some (S754_finite false 4728779608739021 (-52)),
     Some (S754_finite false 4503599627370496 (-54)), None, None, None, Some (S754_infinity true)).
Proof. vm_compute. reflexivity. Qed.

Example ParseDuration_samples :
  (ParseDuration "60s", ParseDuration "1h15m30.918s", ParseDuration "-1.5h", ParseDuration "1", ParseDuration ".s",
   ParseDuration "9223372036854775807ns", ParseDuration "9223372036854775808ns")
  = (Some 60000000000, Some 4530918000000, Some (-5400000000000), None, None, Some (2 ^ 63 - 1), None).
Proof. vm_compute. reflexivity. Qed.
