(* ===== verification/Config.v ===== *)
(** The configuration (src/internal/config/config.go): the [Config] record,
    its defaults, and [Load], which reads it from the environment. The
    environment is a function from names to values, empty for a variable that
    is not set, as [os.Getenv] answers. *)
From S2P Require Import Prelude Decimal Compaction Strconv.
From Stdlib Require Import Strings.Ascii Floats.SpecFloat.
#[local] Open Scope Z_scope.

Record Config := mkConfig {
  ChunkSize : Z;
  BlockSize : Z;
  MaxFSSize : Z;
  CacheDir : string;
  Bucket : string;
  Endpoint : string;
  Region : string;
  AccessKey : string;
  SecretKey : string;
  ForcePathStyle : bool;
  Prefix : string;
  BrokerURL : string;
  BrokerAuthHeader : string;
  BrokerAuthValue : string;
  CompactionThreshold : spec_float;
  PersistInterval : Z;
  AllowOther : bool;
}.

Module config.

Definition DefaultChunkSize : Z := 64 * 1024 * 1024.
Definition DefaultBlockSize : Z := 4096.
Definition DefaultMaxFSSize : Z := 1024 * 1024 * 1024 * 1024.
Definition DefaultCacheDir : string := "/var/cache/fusey".
(** The binary64 nearest to 0.3. *)
Definition DefaultCompactionThreshold : spec_float := SFdiv 53 1024 (float64 3) (float64 10).
Definition DefaultPersistInterval : Z := 30 * 10 ^ 9.
Definition DefaultBrokerAuthHeader : string := "X-SESSION-API-KEY".
Definition DefaultAllowOther : bool := true.

Inductive ConfigErr :=
| Malformed (key : string)   (* "%s: %w" *)
| MaxSizeNotPositive.        (* "FUSEY_MAX_SIZE must be > 0" *)

(** The assignments that [Load] makes to [cfg] through a pointer. *)
Definition set_ChunkSize v c := mkConfig v (BlockSize c) (MaxFSSize c) (CacheDir c) (Bucket c) (Endpoint c)
  (Region c) (AccessKey c) (SecretKey c) (ForcePathStyle c) (Prefix c) (BrokerURL c) (BrokerAuthHeader c)
  (BrokerAuthValue c) (CompactionThreshold c) (PersistInterval c) (AllowOther c).
Definition set_BlockSize v c := mkConfig (ChunkSize c) v (MaxFSSize c) (CacheDir c) (Bucket c) (Endpoint c)
  (Region c) (AccessKey c) (SecretKey c) (ForcePathStyle c) (Prefix c) (BrokerURL c) (BrokerAuthHeader c)
  (BrokerAuthValue c) (CompactionThreshold c) (PersistInterval c) (AllowOther c).
Definition set_MaxFSSize v c := mkConfig (ChunkSize c) (BlockSize c) v (CacheDir c) (Bucket c) (Endpoint c)
  (Region c) (AccessKey c) (SecretKey c) (ForcePathStyle c) (Prefix c) (BrokerURL c) (BrokerAuthHeader c)
  (BrokerAuthValue c) (CompactionThreshold c) (PersistInterval c) (AllowOther c).
Definition set_CacheDir v c := mkConfig (ChunkSize c) (BlockSize c) (MaxFSSize c) v (Bucket c) (Endpoint c)
  (Region c) (AccessKey c) (SecretKey c) (ForcePathStyle c) (Prefix c) (BrokerURL c) (BrokerAuthHeader c)
  (BrokerAuthValue c) (CompactionThreshold c) (PersistInterval c) (AllowOther c).
Definition set_Region v c := mkConfig (ChunkSize c) (BlockSize c) (MaxFSSize c) (CacheDir c) (Bucket c) (Endpoint c)
  v (AccessKey c) (SecretKey c) (ForcePathStyle c) (Prefix c) (BrokerURL c) (BrokerAuthHeader c)
  (BrokerAuthValue c) (CompactionThreshold c) (PersistInterval c) (AllowOther c).
Definition set_ForcePathStyle v c := mkConfig (ChunkSize c) (BlockSize c) (MaxFSSize c) (CacheDir c) (Bucket c)
  (Endpoint c) (Region c) (AccessKey c) (SecretKey c) v (Prefix c) (BrokerURL c) (BrokerAuthHeader c)
  (BrokerAuthValue c) (CompactionThreshold c) (PersistInterval c) (AllowOther c).
Definition set_BrokerAuthHeader v c := mkConfig (ChunkSize c) (BlockSize c) (MaxFSSize c) (CacheDir c) (Bucket c)
  (Endpoint c) (Region c) (AccessKey c) (SecretKey c) (ForcePathStyle c) (Prefix c) (BrokerURL c) v
  (BrokerAuthValue c) (CompactionThreshold c) (PersistInterval c) (AllowOther c).
Definition set_CompactionThreshold v c := mkConfig (ChunkSize c) (BlockSize c) (MaxFSSize c) (CacheDir c) (Bucket c)
  (Endpoint c) (Region c) (AccessKey c) (SecretKey c) (ForcePathStyle c) (Prefix c) (BrokerURL c)
  (BrokerAuthHeader c) (BrokerAuthValue c) v (PersistInterval c) (AllowOther c).
Definition set_PersistInterval v c := mkConfig (ChunkSize c) (BlockSize c) (MaxFSSize c) (CacheDir c) (Bucket c)
  (Endpoint c) (Region c) (AccessKey c) (SecretKey c) (ForcePathStyle c) (Prefix c) (BrokerURL c)
  (BrokerAuthHeader c) (BrokerAuthValue c) (CompactionThreshold c) v (AllowOther c).
Definition set_AllowOther v c := mkConfig (ChunkSize c) (BlockSize c) (MaxFSSize c) (CacheDir c) (Bucket c)
  (Endpoint c) (Region c) (AccessKey c) (SecretKey c) (ForcePathStyle c) (Prefix c) (BrokerURL c)
  (BrokerAuthHeader c) (BrokerAuthValue c) (CompactionThreshold c) (PersistInterval c) v.

Section load.
Variable getenv : string → string.

(** The [parse…Env(key, dst)] functions: [set] is the assignment through
    [dst]. A variable that is not set leaves the default. *)
Definition parseInt64Env (key : string) (set : Z → Config → Config) (cfg : Config) : res ConfigErr Config :=
  let v := getenv key in
  if decide (v = "") then Ok cfg
  else match ParseInt 64 v with None => Err (Malformed key) | Some n => Ok (set n cfg) end.

Definition parseInt32Env (key : string) (set : Z → Config → Config) (cfg : Config) : res ConfigErr Config :=
  let v := getenv key in
  if decide (v = "") then Ok cfg
  else match ParseInt 32 v with None => Err (Malformed key) | Some n => Ok (set (i32 n) cfg) end.

Definition parseFloat64Env (key : string) (set : spec_float → Config → Config) (cfg : Config)
    : res ConfigErr Config :=
  let v := getenv key in
  if decide (v = "") then Ok cfg
  else match ParseFloat v with None => Err (Malformed key) | Some f => Ok (set f cfg) end.

Definition parseBoolEnv (key : string) (set : bool → Config → Config) (cfg : Config) : res ConfigErr Config :=
  let v := getenv key in
  if decide (v = "") then Ok cfg
  else match ParseBool v with None => Err (Malformed key) | Some b => Ok (set b cfg) end.

Definition parseDurationEnv (key : string) (set : Z → Config → Config) (cfg : Config) : res ConfigErr Config :=
  let v := getenv key in
  if decide (v = "") then Ok cfg
  else match ParseDuration v with None => Err (Malformed key) | Some d => Ok (set d cfg) end.

(** [if v := os.Getenv(key); v != "" { … }]. *)
Definition override (key : string) (set : string → Config → Config) (cfg : Config) : Config :=
  let v := getenv key in if decide (v = "") then cfg else set v cfg.

(** The record [Load] starts from. *)
Definition initial : Config :=
  mkConfig DefaultChunkSize DefaultBlockSize DefaultMaxFSSize DefaultCacheDir
    (getenv "FUSEY_BUCKET") (getenv "FUSEY_ENDPOINT") "us-east-1"
    (getenv "FUSEY_ACCESS_KEY") (getenv "FUSEY_SECRET_KEY") false
    (getenv "FUSEY_PREFIX") (getenv "FUSEY_BROKER_URL") DefaultBrokerAuthHeader
    (getenv "FUSEY_BROKER_AUTH_VALUE") DefaultCompactionThreshold DefaultPersistInterval DefaultAllowOther.

Definition Load : res ConfigErr Config :=
  let cfg := override "FUSEY_BROKER_AUTH_HEADER" set_BrokerAuthHeader initial in
  let cfg := override "FUSEY_REGION" set_Region cfg in
  let? cfg := parseInt64Env "FUSEY_CHUNK_SIZE" set_ChunkSize cfg in
  let? cfg := parseInt32Env "FUSEY_BLOCK_SIZE" set_BlockSize cfg in
  let? cfg := parseInt64Env "FUSEY_MAX_SIZE" set_MaxFSSize cfg in
  if MaxFSSize cfg <=? 0 then Err MaxSizeNotPositive
  else
    let cfg := override "FUSEY_CACHE_DIR" set_CacheDir cfg in
    let? cfg := parseBoolEnv "FUSEY_FORCE_PATH_STYLE" set_ForcePathStyle cfg in
    let? cfg := parseFloat64Env "FUSEY_COMPACTION_THRESHOLD" set_CompactionThreshold cfg in
    let? cfg := parseDurationEnv "FUSEY_PERSIST_INTERVAL" set_PersistInterval cfg in
    parseBoolEnv "FUSEY_ALLOW_OTHER" set_AllowOther cfg.
End load.
End config.
