(* ===== verification/CompactProps.v ===== *)
(** Correctness of compaction: no file changes, in the index in memory and in
    the index that a restart would load, however the cycle ends. *)
From S2P Require Import Prelude Types Extents Index OS Decimal Persist Store Cache ChunkStore Fuse FuseData Compaction.
From Stdlib Require Import Strings.Ascii Floats.SpecFloat.
#[local] Open Scope Z_scope.

(** ** Names of compacted chunks *)

Lemma Sprintf_d_nonneg n : 0 <= n → Sprintf_d n = digit_string (digits n).
Proof. rw /Sprintf_d => ?. destruct (Z.ltb_spec n 0); [lia|done]. Qed.

Lemma compacted_chunk_name t q : 0 <= t < 2 ^ 63 → 0 <= q < 2 ^ 63 → chunk_name (compacted_id t q) = true.
Proof.
  move=> Ht Hq. rw /compacted_id !Sprintf_d_nonneg; [|lia..].
  rw !chunk_name_app !chunk_name_digits //; apply digits_spec; lia.
Qed.

Lemma compacted_ne_chunkID t q r : compacted_id t q ≠ chunkID r.
Proof. rw /compacted_id /chunkID /format_chunk_id. by move=> [=]. Qed.

(** What follows the first dash. *)
Fixpoint after_dash (s : string) : string :=
  match s with
  | EmptyString => EmptyString
  | String c s => if Ascii.eqb c "-"%char then s else after_dash s
  end.

Lemma after_dash_digits ds r :
  Forall is_digit ds → after_dash (digit_string ds +:+ String "-"%char r)%string = r.
Proof.
  elim=> [//|d l /digit_not_sign [Hd _] _ IH].
  change (digit_string (d :: l) +:+ String "-"%char r)%string
    with (String (digit_char d) (digit_string l +:+ String "-"%char r)%string).
  rw /after_dash -/after_dash Hd. exact IH.
Qed.

Lemma digits_inj m n : 0 <= m < 2 ^ 63 → 0 <= n < 2 ^ 63 →
  digit_string (digits m) = digit_string (digits n) → m = n.
Proof.
  move=> Hm Hn E. destruct (digits_spec m) as (Em & Hdm & _); [lia|].
  destruct (digits_spec n) as (En & Hdn & _); [lia|].
  apply (f_equal scan_digits) in E. rw !scan_digit_string // in E.
  assert (value (digits m) = value (digits n)) by by rw E. lia.
Qed.

Lemma compacted_id_inj t q t' q' :
  0 <= t < 2 ^ 63 → 0 <= t' < 2 ^ 63 → 0 <= q < 2 ^ 63 → 0 <= q' < 2 ^ 63 →
  compacted_id t q = compacted_id t' q' → q = q'.
Proof.
  move=> Ht Ht' Hq Hq'. rw /compacted_id !Sprintf_d_nonneg; [|lia..]. move=> E.
  apply (f_equal (strip_prefix "compacted-")) in E. rw !strip_prefix_app in E. injection E as E.
  apply (f_equal after_dash) in E.
  destruct (digits_spec t) as (_ & Hd & _); [lia|]. destruct (digits_spec t') as (_ & Hd' & _); [lia|].
  change (digit_string (digits t) +:+ "-" +:+ digit_string (digits q))%string
    with (digit_string (digits t) +:+ String "-"%char (digit_string (digits q)))%string in E.
  change (digit_string (digits t') +:+ "-" +:+ digit_string (digits q'))%string
    with (digit_string (digits t') +:+ String "-"%char (digit_string (digits q')))%string in E.
  rw !after_dash_digits // in E. by apply digits_inj.
Qed.

Section compact.
Context {W P : Type} {S : Store W} (obj : W → string → option bytes) {L : StoreLaws S obj}.
Variable clock : Z → Z.
Hypothesis clock_range : ∀ q, 0 <= clock q < 2 ^ 63.
Implicit Types s : cstate W.

Definition cid (q : Z) : string := compacted_id (clock q) q.

(** ** Selecting *)

Lemma select_targets_cases thr live ids s :
  wf_cs obj s → Forall (fun i => chunk_name i = true) ids →
  match select_targets thr live ids s with
  | Ret ts s' => quiet obj s s' ∧ ts `sublist_of` ids
  | _ => False
  end.
Proof.
  elim: ids s => [|i ids IH] s H; [by move=> _ /=; split; [apply quiet_refl|]|].
  move=> /Forall_cons [Hi Hids] /=.
  pose proof (SealedSize_cases obj s i H Hi) as HS. revert HS.
  destruct (SealedSize i s) as [total s1|e s1|] => //.
  - move=> [Hq _]. specialize (IH s1 (q_wf _ _ _ Hq) Hids). revert IH.
    destruct (select_targets thr live ids s1) as [ts s2|er s2|] => //= -[Hq2 Hsub].
    split; [by eapply quiet_trans|]. case_match; by constructor.
  - move=> Hq. specialize (IH s1 (q_wf _ _ _ Hq) Hids). revert IH.
    destruct (select_targets thr live ids s1) as [ts s2|er s2|] => //= -[Hq2 Hsub].
    split; [by eapply quiet_trans|by constructor].
Qed.

(** ** Packing *)

(** The bytes [b] of an extent lie where [e'] says among these outputs. *)
Definition placed (os : list outputChunk) (e e' : Extent.t) (b : bytes) : Prop :=
  Extent.Length e' = Extent.Length e ∧ Extent.FileOffset e' = Extent.FileOffset e ∧
  0 <= Extent.ChunkOffset e' ∧
  ∃ o, o ∈ os ∧ Extent.ChunkID e' = o_id o ∧
    Extent.ChunkOffset e' + len b <= len (o_buf o) ∧
    slice (o_buf o) (Extent.ChunkOffset e') (len b) = b.

(** Outputs only grow. *)
Definition grown (os os' : list outputChunk) : Prop :=
  ∀ o, o ∈ os → ∃ o', o' ∈ os' ∧ o_id o' = o_id o ∧ o_buf o `prefix_of` o_buf o'.

Lemma placed_grown os os' e e' b : grown os os' → placed os e e' b → placed os' e e' b.
Proof.
  move=> Hg [El [Ef [Ho [o [Hin [Ei [Hl Hs]]]]]]]. split_and!; [done..|].
  destruct (Hg o Hin) as (o' & Hin' & Ei' & Hp). exists o'. pose proof (len_nonneg b).
  split_and!; [done|congruence| |].
  - destruct Hp as [k ->]. rw len_app. pose proof (len_nonneg k). lia.
  - rw - (prefix_slice (o_buf o)) //.
Qed.

Definition ekey (e : Extent.t) : string * Z := (Extent.ChunkID e, Extent.ChunkOffset e).

(** After the extents [done] have been packed. *)
Record packed s (done : list Extent.t) (p : packing) : Prop := {
  pk_placed e : e ∈ done → ∃ b e', ext_data obj s e b ∧
    p_remap p !! ekey e = Some e' ∧ placed (outputs p) e e' b;
  pk_keys key : is_Some (p_remap p !! key) → ∃ e, e ∈ done ∧ key = ekey e;
  pk_ids : o_id <$> outputs p = cid <$> seqZ 0 (p_seq p);
  pk_seq : 0 < p_seq p <= len done + 1;
  pk_cur : o_buf (p_cur p) ≠ [] → p_seq p <= len done;
}.

Lemma first_output_packed s : packed s [] (first_output clock).
Proof.
  split.
  - by move=> e /elem_of_nil.
  - move=> key [e']. by rw lookup_empty.
  - done.
  - done.
  - done.
Qed.

Lemma newOutput_packed s done p :
  packed s done p → p_seq p <= len done → len done + 1 < 2 ^ 63 → packed s done (newOutput clock p).
Proof.
  move=> [Hp Hk Hi Hs _] Hlt Hm.
  assert (grown (outputs p) (outputs (newOutput clock p))) as Hg.
  { move=> o Ho. exists o. split_and!; [|done|done]. rw /outputs /=. apply elem_of_app. by left. }
  assert (p_seq (newOutput clock p) = p_seq p + 1) as Es by (rw /= i64_small // /is_i64; lia).
  split => //.
  - move=> e /Hp [b [e' [? [? ?]]]]. exists b, e'. split_and!; [done..|]. by eapply placed_grown.
  - rw Es {1}/outputs fmap_app Hi /=. rw (seqZ_app 0 (p_seq p) 1); [|lia..].
    rw fmap_app /=. by rw Z.add_0_l.
  - rw Es. lia.
Qed.

(** Two live extents with the same chunk position are the same extent. *)
Definition keys_determine (l : list Extent.t) : Prop :=
  ∀ e1 e2, e1 ∈ l → e2 ∈ l → ekey e1 = ekey e2 → e1 = e2.

(** The part of [place] after a possible rotation. *)
Definition put_in_cur (e : Extent.t) (data : bytes) (p : packing) : packing :=
  mkPacking (p_done p) (mkOut (o_id (p_cur p)) (o_buf (p_cur p) ++ data)) (p_seq p)
    (<[ekey e := Extent.mk (o_id (p_cur p)) (len (o_buf (p_cur p))) (Extent.Length e) (Extent.FileOffset e)]> (p_remap p)).

Lemma put_in_cur_packed s done p e b :
  packed s done p → ext_data obj s e b → keys_determine (done ++ [e]) →
  packed s (done ++ [e]) (put_in_cur e b p).
Proof.
  move=> [Hp Hk Hi Hs Hc] Hd Hdet.
  assert (grown (outputs p) (outputs (put_in_cur e b p))) as Hg.
  { move=> o. rw /outputs !elem_of_app !list_elem_of_singleton => -[Ho|->].
    - exists o. split_and!; [|done|done]. apply elem_of_app. by left.
    - exists (p_cur (put_in_cur e b p)). split_and!; [|done|by eexists].
      apply elem_of_app. right. by apply list_elem_of_singleton. }
  split.
  - move=> x Hx. destruct (decide (ekey x = ekey e)) as [Ek|Hne].
    + assert (x = e) as ->.
      { apply Hdet => //. apply elem_of_app. right. by apply list_elem_of_singleton. }
      exists b. eexists. rw /= lookup_insert_eq. split_and!; [done..|].
      split_and!; simpl; [done|done|apply len_nonneg|].
      exists (p_cur (put_in_cur e b p)). split_and!; [|done| |].
      * apply elem_of_app. right. by apply list_elem_of_singleton.
      * rw /= len_app. lia.
      * apply slice_app_r.
    + assert (x ∈ done) as Hx'.
      { apply elem_of_app in Hx as [?|Hx]; [done|]. apply list_elem_of_singleton in Hx. by subst. }
      destruct (Hp x Hx') as (b' & e' & ? & ? & ?). exists b', e'.
      rw /= lookup_insert_ne; [|by apply not_eq_sym]. split_and!; [done..|]. by eapply placed_grown.
  - move=> key /=. rw lookup_insert_is_Some' => -[<-|/Hk [x [Hx ->]]].
    + exists e. split; [|done]. apply elem_of_app. right. by apply list_elem_of_singleton.
    + exists x. split; [|done]. apply elem_of_app. by left.
  - rw - Hi /outputs !fmap_app //.
  - rw len_app /=. rw {2}/len /=. lia.
  - move=> _. rw len_app /=. rw {2}/len /=. lia.
Qed.

Lemma place_packed s done p e b sz :
  packed s done p → ext_data obj s e b → keys_determine (done ++ [e]) → len done + 1 < 2 ^ 63 →
  packed s (done ++ [e]) (place clock e b sz p).
Proof.
  move=> Hp Hd Hdet Hm. rw /place.
  destruct ((0 <? len (o_buf (p_cur p))) && _) eqn:E.
  - apply (put_in_cur_packed s done (newOutput clock p)) => //.
    apply andb_prop in E as [E _]. apply newOutput_packed => //. apply (pk_cur _ _ _ Hp).
    move=> Eb. by rw Eb in E.
  - by apply (put_in_cur_packed s done p).
Qed.

Lemma packed_quiet s s' done p : quiet obj s s' → packed s done p → packed s' done p.
Proof.
  move=> Hq [Hp Hk Hi Hs Hc]. split => //. move=> e /Hp [b [e' [[El Hh] [? ?]]]].
  exists b, e'. split; [|done]. split; [done|]. by apply (quiet_extends _ _ _ Hq).
Qed.

Lemma pack_cases sz exts : ∀ done p s,
  wf_cs obj s → packed s done p → Forall (good_ext obj s) exts →
  keys_determine (done ++ exts) → len (done ++ exts) + 1 < 2 ^ 63 →
  match pack clock sz exts p s with
  | Ret p' s' => quiet obj s s' ∧ packed s' (done ++ exts) p'
  | Fail e s' => e = ErrRead ∧ quiet obj s s'
  | Crash => False
  end.
Proof.
  elim: exts => [|e exts IH] done p s H Hp Hg Hdet Hm; simpl.
  { rw app_nil_r. split; [by apply quiet_refl|done]. }
  apply Forall_cons in Hg as [[Hw [b [El Hh]]] Hg].
  pose proof (Read_cases obj s _ _ b H Hh) as HR. rw El in HR.
  specialize (HR ltac:(destruct Hw; lia)). revert HR.
  destruct (Read _ _ _ s) as [b' s1|er s1|] => //.
  - move=> [-> Hq]. rw cons_middle (assoc_L (++)) in Hdet Hm |- *.
    pose proof (IH (done ++ [e]) (place clock e b sz p) s1 (q_wf _ _ _ Hq)) as HI.
    assert (packed s1 (done ++ [e]) (place clock e b sz p)) as Hp1.
    { apply (packed_quiet s) => //. apply place_packed => //.
      - move=> x y Hx Hy. apply Hdet; apply elem_of_app; by left.
      - rw !len_app in Hm. pose proof (len_nonneg exts). rw {2}/len /= in Hm. lia. }
    specialize (HI Hp1). assert (Forall (good_ext obj s1) exts) as Hg1.
    { eapply Forall_impl; [exact Hg|]. move=> x. apply good_ext_extends. by apply quiet_extends. }
    specialize (HI Hg1 Hdet Hm). revert HI.
    destruct (pack clock sz exts _ s1) as [p2 s2|er s2|] => //.
    + move=> [Hq2 ?]. split; [by eapply quiet_trans|done].
    + move=> [? Hq2]. split; [done|by eapply quiet_trans].
  - move=> [_ Hq]. done.
Qed.

(** ** Writing the outputs *)

Lemma write_outputs_cases (outs : list outputChunk) s :
  wf_cs obj s → NoDup (o_id <$> outs) → Forall (fun o => new_id obj s (o_id o)) outs →
  match write_outputs outs s with
  | Ret _ s' => wf_cs obj s' ∧ cs s' = cs s ∧
      (∀ k, chunk_name k = true → k ∉ o_id <$> outs → view obj s' k = view obj s k) ∧
      (∀ o, o ∈ outs → o_buf o ≠ [] → view obj s' (o_id o) = Some (o_buf o))
  | Fail e s' => e = ErrWrite ∧ wf_cs obj s' ∧ cs s' = cs s ∧
      (∀ k, chunk_name k = true → k ∉ o_id <$> outs → view obj s' k = view obj s k)
  | Crash => False
  end.
Proof.
  elim: outs s => [|o outs IH] s H Hnd Hnew; simpl.
  { split_and!; [done..|]. by move=> o /elem_of_nil. }
  apply NoDup_cons in Hnd as [Hni Hnd]. apply Forall_cons in Hnew as [Ho Hnew].
  destruct (Z.eqb_spec (len (o_buf o)) 0) as [E|E].
  { specialize (IH s H Hnd Hnew). revert IH.
    assert (o_buf o = []) as Eb by by destruct (o_buf o).
    destruct (write_outputs outs s) as [u s1|er s1|] => //.
    - move=> [Hw [Ec [Hv Hb]]]. split_and!; [done..| |].
      + move=> k Hk /not_elem_of_cons [_ ?]. by apply Hv.
      + move=> x /elem_of_cons [->|Hx] Hne; [done|by apply Hb].
    - move=> [-> [Hw [Ec Hv]]]. split_and!; [done..|]. move=> k Hk /not_elem_of_cons [_ ?]. by apply Hv. }
  pose proof (PutSealed_cases obj s (o_id o) (o_buf o) H Ho) as HP. revert HP.
  destruct (PutSealed (o_id o) (o_buf o) s) as [u s1|er s1|] => //; last first.
  { move=> [Ec [_ [Hw Hv]]]. split_and!; [done..|]. move=> k Hk /not_elem_of_cons [? _]. by apply Hv. }
  move=> [Ec [El [Hw [Hvo Hv]]]].
  assert (Forall (fun x => new_id obj s1 (o_id x)) outs) as Hnew1.
  { apply Forall_forall => x Hx. rw Forall_forall in Hnew.
    destruct (Hnew x Hx) as ([Hn1 Hn2] & Hn3 & Hn4 & Hn5).
    assert (o_id x ≠ o_id o) as Hne by (move=> Ex; apply Hni; rw - Ex; by apply list_elem_of_fmap_2).
    split_and!; rw /sealed_id ?Ec //; [|by rw El].
    specialize (Hv _ Hn1 Hne). by rw /view Ec !decide_False // in Hv; rw Hv. }
  specialize (IH s1 Hw Hnd Hnew1). revert IH.
  destruct (write_outputs outs s1) as [u2 s2|er s2|] => //.
  - move=> [Hw2 [Ec2 [Hv2 Hb2]]]. split_and!; [done|congruence| |].
    + move=> k Hk /not_elem_of_cons [? ?]. by rw Hv2 // Hv.
    + move=> x /elem_of_cons [->|Hx] Hne; [|by apply Hb2]. rw Hv2 //. apply Ho.
  - move=> [-> [Hw2 [Ec2 Hv2]]]. split_and!; [done|done|congruence|].
    move=> k Hk /not_elem_of_cons [? ?]. by rw Hv2 // Hv.
Qed.

(** ** Remapping *)

(** Moving the extents of a file to where the same bytes lie does not change
    the file. *)
Lemma content_map s s' (f : Extent.t → Extent.t) exts o :
  (∀ e, e ∈ exts → Extent.Length (f e) = Extent.Length e ∧
     Extent.FileOffset (f e) = Extent.FileOffset e ∧
     ∃ b, ext_data obj s e b ∧ ext_data obj s' (f e) b) →
  content obj s' (f <$> exts) o = content obj s exts o.
Proof.
  elim: exts => [//|e exts IH] Hf.
  assert (∀ s l x, content obj s (x :: l) o =
    match locate l o with Some _ => content obj s l o
    | None => if decide (covers x o) then
        stored obj s (Extent.ChunkID x) (Extent.ChunkOffset x + (o - Extent.FileOffset x))
        else Some zero_byte end) as Hcons.
  { move=> s0 l x. rw /content /=. destruct (locate l o) as [[]|]; [done|]. rw /point. by case_decide. }
  rw fmap_cons !Hcons IH; [|move=> x Hx; apply Hf; by right].
  assert (∀ x, x ∈ e :: exts → covers (f x) o ↔ covers x o) as Hcov.
  { move=> x /Hf [El [Ef _]]. by rw /covers El Ef. }
  assert (locate (f <$> exts) o = None ↔ locate exts o = None) as Hnone.
  { rw !locate_None. split.
    - move=> H x Hx Hc. apply (H (f x)); [by apply list_elem_of_fmap_2|]. apply Hcov; [by right|done].
    - intros H x (y & -> & Hy)%list_elem_of_fmap Hc. apply (H y Hy). apply Hcov; [by right|done]. }
  destruct (Hf e) as (El & Ef & b & Hb & Hb'); [by left|].
  destruct (locate exts o) as [r|] eqn:E1; destruct (locate (f <$> exts) o) as [r'|] eqn:E2 => //.
  - by destruct Hnone as [Hx _]; specialize (Hx eq_refl).
  - by destruct Hnone as [_ Hx]; specialize (Hx eq_refl).
  - destruct (decide (covers e o)) as [Hc|Hc]; last first.
    { rw decide_False //. rw Hcov //. by left. }
    rw decide_True; [|apply Hcov; [by left|done]].
    rw (ext_data_stored obj s e b) // (ext_data_stored obj s' (f e) b) //; [by rw Ef|].
    apply Hcov; [by left|done].
Qed.

(** ** What a cycle starts from *)

(** [List] names every object once, and only chunks. *)
Definition lists_chunks (w : W) : Prop :=
  ∀ ids w', List w = Ret ids w' → NoDup ids ∧ Forall (fun i => chunk_name i = true) ids.

(** The names that this cycle will use are unused: their time is new. *)
Definition fresh_ids s : Prop :=
  ∀ q, 0 <= q < 2 ^ 63 → obj (backing (wd s)) (cid q) = None ∧
    ∀ c, cache (cs s) = Some c → cached c (local (wd s)) (cid q) = None.

Record compact_pre (order : list Z) (i : Index) s : Prop := {
  cp_wf : wf_cs obj s;
  cp_good ino exts : extents i !! ino = Some exts → Forall (good_ext obj s) exts;
  cp_order : order ≡ₚ (map_to_list (extents i)).*1;
  cp_keys : keys_determine (LiveExtents order i);
  cp_small : len (LiveExtents order i) + 1 < 2 ^ 63;
  cp_fresh : fresh_ids s;
  cp_list : lists_chunks (backing (wd s));
}.

Lemma cid_name q : 0 <= q < 2 ^ 63 → chunk_name (cid q) = true.
Proof. move=> Hq. by apply compacted_chunk_name. Qed.

Lemma cid_new s q : wf_cs obj s → fresh_ids s → 0 <= q < 2 ^ 63 → new_id obj s (cid q).
Proof.
  move=> H Hf Hq. destruct (Hf q Hq) as [Ho Hc]. split_and!; [|done|done|].
  - split; [by apply cid_name|]. rw (wf_id _ _ H). apply compacted_ne_chunkID.
  - move=> r _. apply compacted_ne_chunkID.
Qed.

Lemma fresh_quiet s s' : quiet obj s s' → fresh_ids s → fresh_ids s'.
Proof.
  move=> Hq Hf q Hr. destruct (Hf q Hr) as [Ho Hc]. pose proof (cid_name q Hr).
  split; [by rw (q_obj _ _ _ Hq)|]. rw (q_cs _ _ _ Hq) => c Ec. rw (q_cache _ _ _ Hq) //. by apply Hc.
Qed.

Lemma LiveExtents_in order i ino exts e :
  order ≡ₚ (map_to_list (extents i)).*1 → extents i !! ino = Some exts → e ∈ exts →
  e ∈ LiveExtents order i.
Proof.
  move=> Ho Hx He. rw /LiveExtents. apply list_elem_of_In, in_flat_map. exists ino.
  split; [|rw Hx; by apply list_elem_of_In]. apply list_elem_of_In. rw Ho.
  apply list_elem_of_fmap. exists (ino, exts). split; [done|]. by apply elem_of_map_to_list.
Qed.

Lemma LiveExtents_inv order i e :
  e ∈ LiveExtents order i → ∃ ino exts, extents i !! ino = Some exts ∧ e ∈ exts.
Proof.
  rw /LiveExtents => /list_elem_of_In /in_flat_map [ino [_ Hin]]. exists ino.
  destruct (extents i !! ino) as [exts|]; [|done]. exists exts. split; [done|]. by apply list_elem_of_In.
Qed.

Lemma elem_of_moved live targets e :
  e ∈ moved live targets ↔ e ∈ live ∧ Extent.ChunkID e ∈ targets.
Proof.
  rw /moved list_elem_of_In in_flat_map. split.
  - intros (i & Hi%list_elem_of_In & [He Hl]%list_elem_of_In%list_elem_of_filter). by subst.
  - move=> [Hl Hi]. exists (Extent.ChunkID e). split; [by apply list_elem_of_In|].
    apply list_elem_of_In, list_elem_of_filter. done.
Qed.

Lemma moved_skip live targets i :
  i ∉ targets → moved live targets = moved (filter (fun e => Extent.ChunkID e ≠ i) live) targets.
Proof.
  elim: targets => [//|t ts IH] /not_elem_of_cons [Hne Hni].
  change (live_in t live ++ moved live ts =
    live_in t (filter (fun e => Extent.ChunkID e ≠ i) live) ++
    moved (filter (fun e => Extent.ChunkID e ≠ i) live) ts).
  rw - IH //. f_equal. rw /live_in list_filter_filter. apply list_filter_iff => e. split; [|by move=> []].
  move=> E. by rw E.
Qed.

Lemma moved_length live targets : NoDup targets → (length (moved live targets) <= length live)%nat.
Proof.
  move=> Hnd. elim: Hnd live => [|i ts Hni _ IH] live /=; [lia|].
  change (length (live_in i live ++ moved live ts) <= length live)%nat.
  rw (moved_skip live ts i) // length_app.
  specialize (IH (filter (fun e => Extent.ChunkID e ≠ i) live)).
  assert (length (live_in i live) + length (filter (fun e => Extent.ChunkID e ≠ i) live) = length live)%nat.
  { rw /live_in. clear. elim: live => [//|e l IH] /=. rw !filter_cons. repeat case_decide => //=; lia. }
  lia.
Qed.

Lemma ListSealed_names s ids s' :
  lists_chunks (backing (wd s)) → ListSealed s = Ret ids s' →
  NoDup ids ∧ Forall (fun i => chunk_name i = true) ids ∧ activeID (cs s) ∉ ids.
Proof.
  rw /ListSealed /in_world /on_backing => Hl.
  destruct (List (backing (wd s))) as [all b|e b|] eqn:E => //= -[<- _].
  destruct (Hl _ _ E) as [Hnd Hn]. split_and!.
  - by apply NoDup_filter.
  - apply Forall_forall => x /list_elem_of_filter [_ Hx]. rw Forall_forall in Hn. by apply Hn.
  - move=> /list_elem_of_filter [? _]. done.
Qed.

(** ** The cycle *)

(** What the remapping needs of the state [s'] that it is judged in: every
    live extent's bytes lie where the remapped extent says. *)
Definition relocated (order : list Z) (i : Index) s remap s' : Prop :=
  ∀ e, e ∈ LiveExtents order i →
    Extent.Length (remap_extent remap e) = Extent.Length e ∧
    Extent.FileOffset (remap_extent remap e) = Extent.FileOffset e ∧
    ∃ b, ext_data obj s e b ∧ ext_data obj s' (remap_extent remap e) b.

(** The files of [i] in [s], as [m] and [s'] represent them. *)
Definition same_files (i : Index) s (m : gmap Z (list Extent.t)) s' : Prop :=
  ∀ ino, match extents i !! ino with
         | Some exts => ∃ exts', m !! ino = Some exts' ∧
             ∀ o, content obj s' exts' o = content obj s exts o
         | None => m !! ino = None
         end.

Lemma same_files_extends order i s s' :
  compact_pre order i s → extends obj s s' → same_files i s (extents i) s'.
Proof.
  move=> H Hx ino. destruct (extents i !! ino) as [exts|] eqn:E; [|done].
  exists exts. split; [done|]. move=> o. apply content_extends => //. by eapply cp_good.
Qed.

Lemma same_files_remap order i s remap s' :
  compact_pre order i s → relocated order i s remap s' →
  same_files i s (extents (RemapExtents remap i)) s'.
Proof.
  move=> H Hr ino. rw /RemapExtents /= lookup_fmap.
  destruct (extents i !! ino) as [exts|] eqn:E; [|done]. eexists. split; [done|].
  move=> o. apply content_map => e He. apply Hr. eapply LiveExtents_in; [apply H|done|done].
Qed.

Lemma relocated_extends order i s remap s' s'' :
  relocated order i s remap s' → extends obj s' s'' → relocated order i s remap s''.
Proof.
  move=> Hr Hx e He. destruct (Hr e He) as (? & ? & b & Hb & [El Hh]). split_and!; [done..|].
  exists b. split; [done|]. split; [done|]. by apply Hx.
Qed.

(** The outputs are new chunks, so writing them hides nothing. *)
Lemma outputs_extend s s' (outs : list outputChunk) :
  (∀ k, k ∈ o_id <$> outs → view obj s k = None) →
  (∀ k, chunk_name k = true → k ∉ o_id <$> outs → view obj s' k = view obj s k) →
  extends obj s s'.
Proof.
  move=> Hn Hv x o b [Hid [Ho [Hb [data [Hd Hr]]]]]. split_and!; [done..|]. exists data.
  split; [|done]. rw Hv // => Hin. by rw Hn in Hd.
Qed.

Lemma new_id_view s x : new_id obj s x → view obj s x = None.
Proof. move=> [[_ Hne] [Hno _]]. by rw /view decide_False. Qed.

Lemma outputs_cids s done p :
  packed s done p → len done + 1 < 2 ^ 63 →
  NoDup (o_id <$> outputs p) ∧ ∀ x, x ∈ o_id <$> outputs p → ∃ q, 0 <= q < 2 ^ 63 ∧ x = cid q.
Proof.
  move=> Hp Hm. pose proof (pk_seq _ _ _ Hp). rw (pk_ids _ _ _ Hp). split.
  - apply NoDup_fmap_2_strong; [|apply NoDup_seqZ]. move=> q q' /elem_of_seqZ ? /elem_of_seqZ ?.
    apply compacted_id_inj; try apply clock_range; lia.
  - move=> x /list_elem_of_fmap [q [-> /elem_of_seqZ ?]]. exists q. split; [lia|done].
Qed.

(** After packing and writing, every live extent is where [remap] says. *)
Lemma written_relocated order i s s3 s4 targets p :
  compact_pre order i s → quiet obj s s3 →
  packed s3 (moved (LiveExtents order i) targets) p →
  len (moved (LiveExtents order i) targets) + 1 < 2 ^ 63 →
  (∀ k, chunk_name k = true → k ∉ o_id <$> outputs p → view obj s4 k = view obj s3 k) →
  (∀ o, o ∈ outputs p → o_buf o ≠ [] → view obj s4 (o_id o) = Some (o_buf o)) →
  extends obj s s4 ∧ relocated order i s (p_remap p) s4 ∧
  (∀ e, e ∈ LiveExtents order i →
     Extent.ChunkID (remap_extent (p_remap p) e) ∈ o_id <$> outputs p ∨
     Extent.ChunkID (remap_extent (p_remap p) e) ∉ targets).
Proof.
  move=> H Hq Hp Hm Hv Ho. destruct (outputs_cids _ _ _ Hp Hm) as [_ Hcid].
  assert (∀ x, x ∈ o_id <$> outputs p → view obj s3 x = None) as Hnone.
  { move=> x Hx. destruct (Hcid x Hx) as (q & Hr & ->). apply new_id_view, cid_new => //.
    - apply Hq. - eapply fresh_quiet; [done|]. apply H. }
  assert (extends obj s s4) as Hx.
  { etrans; [by apply quiet_extends|]. by eapply outputs_extend. }
  assert (∀ e, e ∈ LiveExtents order i → ∃ b, ext_data obj s e b) as Hdata.
  { move=> e /LiveExtents_inv [ino [exts [He Hin]]].
    pose proof (cp_good _ _ _ H ino exts He) as Hg. rw Forall_forall in Hg. by apply Hg. }
  split; [done|]. split.
  - move=> e He. destruct (decide (Extent.ChunkID e ∈ targets)) as [Ht|Ht].
    + destruct (pk_placed _ _ _ Hp e) as (b & e' & [El Hh] & Hre & Hpl); [by apply elem_of_moved|].
      rw /remap_extent - /(ekey e) Hre.
      destruct Hpl as (El' & Ef & Hof & o & Hin & Ei & Hl & Hs). split_and!; [done..|].
      exists b. destruct (Hdata e He) as (b0 & El0 & Hh0).
      assert (b0 = b) as ->.
      { destruct (Hh0) as (Hc & _ & _ & d0 & Hd0 & _ & <-). destruct Hh as (_ & _ & _ & d & Hd & _ & <-).
        rw (quiet_view _ s s3) // in Hd. rw Hd0 in Hd. injection Hd as <-. by rw El0 El. }
      split; [done|]. split; [congruence|]. pose proof (holds_pos _ _ _ _ Hh).
      assert (o_buf o ≠ []) as Hne by (move=> Eo; rw Eo {2}/len /= in Hl; lia).
      destruct (Hcid (o_id o)) as (q & Hr & Eq); [by apply list_elem_of_fmap_2|].
      rw Ei. split_and!; [rw Eq; by apply cid_name|done|by apply Hh|].
      exists (o_buf o). split_and!; [by apply Ho|done|done].
    + assert (p_remap p !! ekey e = None) as Hnr.
      { destruct (p_remap p !! ekey e) as [x|] eqn:E; [|done]. exfalso.
        destruct (pk_keys _ _ _ Hp (ekey e)) as (y & Hy & Ek); [by eexists|].
        apply elem_of_moved in Hy as [_ Hy]. injection Ek as Ek _. by rw Ek in Ht. }
      rw /remap_extent - /(ekey e) Hnr. split_and!; [done..|].
      destruct (Hdata e He) as (b & El & Hh). exists b. split; [done|]. split; [done|]. by apply Hx.
  - move=> e He. destruct (decide (Extent.ChunkID e ∈ targets)) as [Ht|Ht].
    + left. destruct (pk_placed _ _ _ Hp e) as (b & e' & _ & Hre & Hpl); [by apply elem_of_moved|].
      rw /remap_extent - /(ekey e) Hre. destruct Hpl as (_ & _ & _ & o & Hin & -> & _).
      by apply list_elem_of_fmap_2.
    + right. rw /remap_extent - /(ekey e). destruct (p_remap p !! ekey e) as [x|] eqn:E; [|done].
      exfalso. destruct (pk_keys _ _ _ Hp (ekey e)) as (y & Hy & Ek); [by eexists|].
      apply elem_of_moved in Hy as [_ Hy]. injection Ek as Ek _. by rw Ek in Ht.
Qed.

(** ** The persist function *)

(** What the compactor expects of it: it leaves the extents and the chunks
    alone, and when it returns the durable index has the extents of the index
    in memory; when it fails that may or may not have happened. *)
Definition persist_frame (k k' : kstate W P) : Prop :=
  extents (k_idx k') = extents (k_idx k) ∧ wf_cs obj (k_cs k') ∧
  extends obj (k_cs k) (k_cs k') ∧ activeID (cs (k_cs k')) = activeID (cs (k_cs k)).

Class PersistLaws (f : kstate W P → outcome unit (kstate W P) unit)
    (durable : P → gmap Z (list Extent.t)) : Prop :=
  persist_law k : wf_cs obj (k_cs k) →
    match f k with
    | Ret _ k' => persist_frame k k' ∧ durable (k_p k') = extents (k_idx k)
    | Fail _ k' => persist_frame k k' ∧
        (durable (k_p k') = durable (k_p k) ∨ durable (k_p k') = extents (k_idx k))
    | Crash => False
    end.

(** Deleting the targets when nothing lives in them any more. *)
Lemma delete_targets order i s remap s5 targets :
  relocated order i s remap s5 → wf_cs obj s5 → Forall (sealed_id s5) targets →
  (∀ e, e ∈ LiveExtents order i → Extent.ChunkID (remap_extent remap e) ∉ targets) →
  match DeleteChunks targets s5 with
  | Ret _ s6 | Fail _ s6 => relocated order i s remap s6 ∧ wf_cs obj s6
  | Crash => False
  end.
Proof.
  move=> Hr H Hs Hni. pose proof (DeleteChunks_cases obj targets s5 H Hs) as HD. revert HD.
  assert (∀ s6, (∀ k, chunk_name k = true → k ∉ targets → view obj s6 k = view obj s5 k) →
    relocated order i s remap s6) as Hgo.
  { move=> s6 Hv e He. destruct (Hr e He) as (? & ? & b & Hb & [El Hh]). split_and!; [done..|].
    exists b. split; [done|]. split; [done|]. destruct Hh as (Hc & ? & ? & d & Hd & ?).
    split_and!; [done..|]. exists d. rw Hv //. by apply Hni. }
  destruct (DeleteChunks targets s5) as [u s6|er s6|] => // -[_ [Hw Hv]]; (split; [by apply Hgo|done]).
Qed.

Definition cycle_safe (i : Index) s (durable : P → gmap Z (list Extent.t)) (k : kstate W P) : Prop :=
  wf_cs obj (k_cs k) ∧ same_files i s (extents (k_idx k)) (k_cs k) ∧
  same_files i s (durable (k_p k)) (k_cs k).

(** A cycle that ends before the index is remapped. *)
Lemma cycle_unmoved order k durable s' :
  compact_pre order (k_idx k) (k_cs k) → durable (k_p k) = extents (k_idx k) →
  wf_cs obj s' → extends obj (k_cs k) s' →
  cycle_safe (k_idx k) (k_cs k) durable (set_k_cs s' k).
Proof.
  move=> H Hd Hw Hx. split_and!; [done|..]; simpl; [|rw Hd]; by eapply same_files_extends.
Qed.

(** From the remapped index on: persist, then delete. *)
Lemma compact_commit order c (k : kstate W P) durable targets s p s4 `{!PersistLaws (persist c) durable} :
  compact_pre order (k_idx k) s → durable (k_p k) = extents (k_idx k) →
  wf_cs obj s4 → extends obj s s4 → relocated order (k_idx k) s (p_remap p) s4 →
  Forall (sealed_id s4) targets →
  (∀ e, e ∈ LiveExtents order (k_idx k) → Extent.ChunkID (remap_extent (p_remap p) e) ∉ targets) →
  match
    match persist c (mkK (RemapExtents (p_remap p) (k_idx k)) s4 (k_p k)) with
    | Crash => Crash
    | Fail _ k => Fail ErrPersist k
    | Ret _ k => on_cs (fun s => as_err ErrDelete (DeleteChunks targets s)) k
    end
  with
  | Ret _ k' | Fail _ k' => cycle_safe (k_idx k) s durable k'
  | Crash => False
  end.
Proof.
  move=> H Hdur Hw Hx Hr Hs Hni.
  pose proof (persist_law (f:=persist c) (durable:=durable)
    (mkK (RemapExtents (p_remap p) (k_idx k)) s4 (k_p k)) Hw) as HP. simpl in HP.
  destruct (persist c _) as [u k5|er k5|] => //.
  - destruct HP as [(Ei & Hw5 & Hx5 & Ea) Hd5]. simpl in *.
    assert (relocated order (k_idx k) s (p_remap p) (k_cs k5)) as Hr5 by by eapply relocated_extends.
    pose proof (delete_targets order (k_idx k) s (p_remap p) (k_cs k5) targets Hr5 Hw5) as HD.
    assert (Forall (sealed_id (k_cs k5)) targets) as Hs5.
    { eapply Forall_impl; [done|]. by move=> x; rw /sealed_id Ea. }
    specialize (HD Hs5 Hni). rw /on_cs /as_err.
    destruct (DeleteChunks targets (k_cs k5)) as [u6 s6|er s6|] => //; destruct HD as [Hr6 Hw6];
      (split_and!; [done|..]); simpl; rw ?Ei ?Hd5; by eapply same_files_remap.
  - destruct HP as [(Ei & Hw5 & Hx5 & Ea) Hd5]. simpl in *.
    assert (relocated order (k_idx k) s (p_remap p) (k_cs k5)) as Hr5 by by eapply relocated_extends.
    split_and!; [done| |]; [rw Ei; by eapply same_files_remap|].
    destruct Hd5 as [->| ->]; [|by eapply same_files_remap].
    rw Hdur. eapply same_files_extends; [done|]. by etrans.
Qed.

(** From the packed data on: the outputs are written, the index is remapped and
    persisted, the targets are deleted. *)
Lemma Compact_writes order c k durable s3 targets p `{!PersistLaws (persist c) durable} :
  compact_pre order (k_idx k) (k_cs k) → durable (k_p k) = extents (k_idx k) → quiet obj (k_cs k) s3 →
  packed s3 (moved (LiveExtents order (k_idx k)) targets) p →
  len (moved (LiveExtents order (k_idx k)) targets) + 1 < 2 ^ 63 →
  (∀ x, x ∈ targets → sealed_id (k_cs k) x ∧ is_Some (obj (backing (wd (k_cs k))) x)) →
  match
    (let! _, k := on_cs (write_outputs (outputs p)) (mkK (k_idx k) s3 (k_p k)) in
     let k := set_k_idx (RemapExtents (p_remap p) (k_idx k)) k in
     match persist c k with
     | Crash => Crash
     | Fail _ k => Fail ErrPersist k
     | Ret _ k => on_cs (fun s => as_err ErrDelete (DeleteChunks targets s)) k
     end)
  with
  | Ret _ k' | Fail _ k' => cycle_safe (k_idx k) (k_cs k) durable k'
  | Crash => False
  end.
Proof.
  move=> H Hdur Hq3 Hp Hlen Htg.
  destruct (outputs_cids _ _ _ Hp Hlen) as [Hndo Hcid]. rw {1}/on_cs /=.
  assert (∀ x, x ∈ o_id <$> outputs p → new_id obj s3 x) as Hnew.
  { move=> x /Hcid [q [Hr ->]]. apply cid_new; [apply Hq3| |done].
    eapply fresh_quiet; [exact Hq3|apply H]. }
  pose proof (write_outputs_cases (outputs p) s3 (q_wf _ _ _ Hq3) Hndo) as HW.
  specialize (HW ltac:(apply Forall_forall => o Ho; apply Hnew; by apply list_elem_of_fmap_2)).
  destruct (write_outputs (outputs p) s3) as [u s4|er s4|] => //=; last first.
  { destruct HW as (_ & Hw & _ & Hv). apply (cycle_unmoved order k durable s4); [done..|].
    etrans; [by apply quiet_extends|]. eapply outputs_extend; [|exact Hv].
    move=> x Hx. by apply new_id_view, Hnew. }
  destruct HW as (Hw & Ec & Hv & Ho).
  destruct (written_relocated order (k_idx k) (k_cs k) s3 s4 targets p H Hq3 Hp Hlen Hv Ho) as (Hx & Hr & Hni).
  eapply (compact_commit order c k durable targets (k_cs k) p s4); [done..| |].
  - apply Forall_forall => x Hx'. destruct (Htg x Hx') as [[? ?] _].
    by rw /sealed_id Ec (q_cs _ _ _ Hq3).
  - move=> e He Hin. destruct (Hni e He) as [Hout|Hout]; [|done].
    destruct (Htg _ Hin) as [_ [d Hd]]. apply Hcid in Hout as (q & Hr' & Eq).
    rw Eq (proj1 (cp_fresh _ _ _ H q Hr')) in Hd. done.
Qed.

Lemma Compact_cases order c k durable `{!PersistLaws (persist c) durable} :
  compact_pre order (k_idx k) (k_cs k) → durable (k_p k) = extents (k_idx k) →
  match Compact clock order c k with
  | Ret _ k' | Fail _ k' => cycle_safe (k_idx k) (k_cs k) durable k'
  | Crash => False
  end.
Proof.
  move=> H Hdur. rw /Compact {1}/on_cs /as_err.
  pose proof (ListSealed_cases obj (k_cs k) (cp_wf _ _ _ H)) as HL.
  destruct (ListSealed (k_cs k)) as [ids s1|er s1|] eqn:EL => //=; last first.
  { apply (cycle_unmoved order k durable s1); [done..|apply HL|by apply quiet_extends]. }
  destruct HL as [Hq1 Hids]. destruct (ListSealed_names _ _ _ (cp_list _ _ _ H) EL) as (Hnd & Hnames & Hact).
  rw {1}/on_cs /=.
  pose proof (select_targets_cases (threshold c) (LiveExtents order (k_idx k)) ids s1 (q_wf _ _ _ Hq1) Hnames) as HT.
  destruct (select_targets _ _ ids s1) as [targets s2|er s2|] => //=.
  destruct HT as [Hq2 Hsub]. pose proof (quiet_trans _ _ _ _ Hq1 Hq2) as Hq12.
  destruct targets as [|t ts]; [apply (cycle_unmoved order k durable s2); [done..|apply Hq12|by apply quiet_extends]|].
  remember (t :: ts) as targets eqn:Et. clear t ts Et. set (live := LiveExtents order (k_idx k)).
  assert (len (moved live targets) + 1 < 2 ^ 63) as Hlen.
  { pose proof (cp_small _ _ _ H) as Hs. fold live in Hs.
    pose proof (moved_length live targets ltac:(by eapply sublist_NoDup)). rw /len in Hs |- *. lia. }
  assert (∀ x, x ∈ targets → sealed_id (k_cs k) x ∧ is_Some (obj (backing (wd (k_cs k))) x)) as Htg.
  { move=> x Hx. assert (x ∈ ids) as Hx' by by eapply elem_of_sublist.
    rw Forall_forall in Hnames. specialize (Hnames x Hx'). apply Hids in Hx' as [? ?]; [|done].
    by split. }
  rw {1}/on_cs /=.
  pose proof (pack_cases (chunkSize c) (moved live targets) [] (first_output clock) s2
    (q_wf _ _ _ Hq12) (first_output_packed s2)) as HPk.
  assert (Forall (good_ext obj s2) (moved live targets)) as Hg2.
  { apply Forall_forall => e /elem_of_moved [He _]. apply LiveExtents_inv in He as (ino & exts & He & Hin).
    apply (good_ext_extends obj (k_cs k)); [by apply quiet_extends|].
    pose proof (cp_good _ _ _ H ino exts He) as Hg. rw Forall_forall in Hg. by apply Hg. }
  assert (keys_determine (moved live targets)) as Hdet.
  { move=> e1 e2 /elem_of_moved [H1 _] /elem_of_moved [H2 _]. by apply (cp_keys _ _ _ H). }
  specialize (HPk Hg2 Hdet Hlen). revert HPk.
  destruct (pack clock _ _ _ s2) as [p s3|er s3|] => //=; last first.
  { move=> [_ Hq]. pose proof (quiet_trans _ _ _ _ Hq12 Hq) as Hq3.
    apply (cycle_unmoved order k durable s3); [done..|apply Hq3|by apply quiet_extends]. }
  move=> [Hq Hp]. pose proof (quiet_trans _ _ _ _ Hq12 Hq) as Hq3. simpl in Hp. rw {1}/on_cs /=.
  exact (Compact_writes order c k durable s3 targets p H Hdur Hq3 Hp Hlen Htg).
Qed.

(** ** Sizes of the outputs *)

(** An output is full at [sz] bytes, unless one extent alone is larger. *)
Definition fits (sz : Z) (exts : list Extent.t) (o : outputChunk) : Prop :=
  len (o_buf o) <= sz ∨ ∃ e, e ∈ exts ∧ len (o_buf o) = Extent.Length e.

Lemma fits_mono sz exts exts' o : exts ⊆ exts' → fits sz exts o → fits sz exts' o.
Proof. move=> Hs [?|[e [? ?]]]; [by left|right]. exists e. split; [by apply Hs|done]. Qed.

Lemma place_fits sz done e data p :
  0 <= sz < 2 ^ 62 → 0 <= len data < 2 ^ 62 → Extent.Length e = len data →
  (∀ x, x ∈ done → Extent.Length x < 2 ^ 62) →
  Forall (fits sz done) (outputs p) → Forall (fits sz (done ++ [e])) (outputs (place clock e data sz p)).
Proof.
  clear clock_range L obj. move=> Hz Hd El Hx Hf.
  assert (Forall (fits sz (done ++ [e])) (outputs p)) as Hf'.
  { eapply Forall_impl; [exact Hf|]. move=> o. apply fits_mono. set_solver. }
  assert (Forall (fits sz (done ++ [e])) (p_done p) ∧ fits sz done (p_cur p)) as [Hdn Hcur].
  { rw /outputs Forall_app in Hf'. rw /outputs Forall_app Forall_singleton in Hf.
    split; [apply Hf'|apply Hf]. }
  assert (fits sz (done ++ [e]) (mkOut (o_id (p_cur p)) data)) as Halone.
  { right. exists e. split; [set_solver|done]. }
  assert (len (o_buf (p_cur p)) < 2 ^ 62) as Hb.
  { destruct Hcur as [?|[x [Hin ->]]]; [lia|by apply Hx]. }
  pose proof (len_nonneg (o_buf (p_cur p))).
  rw /place. rw i64_small; [|rw /is_i64; lia]. rw Z.gtb_ltb.
  destruct (Z.ltb_spec 0 (len (o_buf (p_cur p)))) as [Hpos|Hz0]; simpl.
  - destruct (Z.ltb_spec sz (len (o_buf (p_cur p)) + Extent.Length e)) as [Hbig|Hsmall].
    + rw {1}/outputs /=. apply Forall_app. split; [done|]. apply Forall_singleton.
      right. exists e. split; [set_solver|done].
    + rw {1}/outputs /=. apply Forall_app. split; [done|]. apply Forall_singleton.
      left. rw /= len_app. lia.
  - rw {1}/outputs /=. apply Forall_app. split; [done|]. apply Forall_singleton.
    assert (o_buf (p_cur p) = []) as -> by (destruct (o_buf (p_cur p)); [done|rw /len /= in Hz0; lia]).
    right. exists e. split; [set_solver|done].
Qed.

Lemma pack_fits sz exts : ∀ done p s,
  0 <= sz < 2 ^ 62 → wf_cs obj s → Forall (good_ext obj s) exts →
  (∀ x, x ∈ done ++ exts → Extent.Length x < 2 ^ 62) → Forall (fits sz done) (outputs p) →
  match pack clock sz exts p s with
  | Ret p' _ => Forall (fits sz (done ++ exts)) (outputs p')
  | _ => True
  end.
Proof.
  clear clock_range. elim: exts => [|e exts IH] done p s Hz H Hg Hx Hf; simpl; [by rw app_nil_r|].
  apply Forall_cons in Hg as [[Hw [b [El Hh]]] Hg].
  pose proof (Read_cases obj s _ _ b H Hh) as HR. rw El in HR.
  specialize (HR ltac:(destruct Hw; lia)). revert HR.
  destruct (Read _ _ _ s) as [b' s1|er s1|] => //. move=> [-> Hq].
  rw cons_middle (assoc_L (++)) in Hx |- *. apply IH => //; [apply Hq| |].
  - eapply Forall_impl; [exact Hg|]. move=> x. apply good_ext_extends. by apply quiet_extends.
  - pose proof (len_nonneg b). apply place_fits => //.
    + rw El. split; [lia|]. apply Hx. set_solver.
    + move=> x Hin. apply Hx. set_solver.
Qed.

(** ** Which chunks are rewritten *)

Definition positive_float (x : spec_float) : Prop :=
  match x with S754_finite false _ _ | S754_infinity false => True | _ => False end.

(** A chunk without orphaned bytes is left alone. *)
Lemma orphan_heavy_full thr total : positive_float thr → orphan_heavy thr total total = false.
Proof.
  move=> Hp. rw /orphan_heavy Z.sub_diag. change (float64 (i64 0)) with (S754_zero false).
  destruct (float64 total) as [[]|[]| |[]] => //=; by destruct thr as [[]|[]| |[] ??].
Qed.

(** Why a chunk was selected. *)
Definition orphaned (live : list Extent.t) s (id : string) : Prop :=
  ∃ data, view obj s id = Some data ∧ (data = [] ∨ live_bytes (live_in id live) ≠ len data).

Lemma select_targets_orphaned thr live ids s :
  positive_float thr → wf_cs obj s → Forall (fun i => chunk_name i = true) ids →
  match select_targets thr live ids s with
  | Ret ts _ => Forall (fun t => chunk_name t = true ∧ orphaned live s t) ts
  | _ => False
  end.
Proof.
  move=> Hp. elim: ids s => [|i ids IH] s H; [by move=> _ /=; constructor|].
  move=> /Forall_cons [Hi Hids] /=. pose proof (SealedSize_cases obj s i H Hi) as HS. revert HS.
  assert (∀ s1, quiet obj s s1 → match select_targets thr live ids s1 with
    | Ret ts _ => Forall (fun t => chunk_name t = true ∧ orphaned live s t) ts | _ => False end) as Hrest.
  { move=> s1 Hq. specialize (IH s1 (q_wf _ _ _ Hq) Hids).
    destruct (select_targets thr live ids s1) => //. eapply Forall_impl; [exact IH|].
    move=> t [Ht Ho]. split; [done|]. by rw /orphaned - (quiet_view obj s s1). }
  destruct (SealedSize i s) as [total s1|e s1|] => //; [|by move=> /Hrest].
  move=> [/Hrest Hr [data [Hd ->]]]. destruct (select_targets thr live ids s1) as [ts s2| |] => //=.
  destruct (Z.eqb_spec (len data) 0) as [E0|_]; simpl.
  - constructor; [|done]. split; [done|]. exists data. split; [done|]. left.
    by apply nil_length_inv; rw /len in E0; lia.
  - destruct (orphan_heavy _ _ _) eqn:Eh; [|done]. constructor; [|done]. split; [done|].
    exists data. split; [done|]. right. move=> E. by rw E orphan_heavy_full in Eh.
Qed.

Lemma DeleteChunks_gone ids s s' :
  Forall (fun t => chunk_name t = true) ids → DeleteChunks ids s = Ret tt s' →
  (∀ t, chunk_name t = true → obj (backing (wd s)) t = None → obj (backing (wd s')) t = None) ∧
  ∀ t, t ∈ ids → obj (backing (wd s')) t = None.
Proof.
  elim: ids s => [|i ids IH] s; [by move=> _ /= [<-]; split; [|move=> t /elem_of_nil]|].
  move=> /Forall_cons [Hi Hids] /=. rw /in_world /on_backing.
  pose proof (Delete_law (obj:=obj) i (backing (wd s)) Hi) as HD.
  destruct (Delete i _) as [u b|e b|] => //= HR. destruct (IH _ Hids HR) as [Hk Hg]. simpl in Hk.
  split.
  - move=> t Ht Hn. apply Hk => //. rw HD //. by case_decide.
  - move=> t /elem_of_cons [->|?]; [|by apply Hg]. apply Hk => //. by rw HD // decide_True.
Qed.
End compact.

Section properties.
Context {W P : Type} {S : Store W} (obj : W → string → option bytes) {L : StoreLaws S obj}.
Variable clock : Z → Z.
Hypothesis clock_range : ∀ q, 0 <= clock q < 2 ^ 63.

(** C10: a compaction cycle changes no file. Started on a well-formed chunk store
    that holds the bytes of every live extent, with a durable index equal to
    the one in memory, however the cycle ends (nothing to do, any error of
    store, disk or persist function, success), the chunk store is well formed
    and every file has the content it had, both through the index in memory
    and through the durable index. *)
Theorem Compact_preserves_files order (c : Compactor W P) k durable `{!PersistLaws obj (persist c) durable} :
  compact_pre obj clock order (k_idx k) (k_cs k) → durable (k_p k) = extents (k_idx k) →
  match Compact clock order c k with
  | Ret _ k' | Fail _ k' =>
      wf_cs obj (k_cs k') ∧
      same_files obj (k_idx k) (k_cs k) (extents (k_idx k')) (k_cs k') ∧
      same_files obj (k_idx k) (k_cs k) (durable (k_p k')) (k_cs k')
  | Crash => False
  end.
Proof. apply Compact_cases; done. Qed.

(** C34: what a cycle with a positive threshold has done when it returns: every
    chunk it selected is gone from the store, and each of these was a sealed
    chunk that was empty or not fully live, so that a chunk without orphaned
    bytes is never rewritten. (With a threshold of zero, which [config.Load]
    accepts, every sealed chunk is selected.) *)
Theorem Compact_reclaims order (c : Compactor W P) k k' :
  wf_cs obj (k_cs k) → lists_chunks (backing (wd (k_cs k))) → positive_float (threshold c) →
  Compact clock order c k = Ret tt k' →
  ∃ ids s1 targets s2, ListSealed (k_cs k) = Ret ids s1 ∧
    select_targets (threshold c) (LiveExtents order (k_idx k)) ids s1 = Ret targets s2 ∧
    ∀ t, t ∈ targets → obj (backing (wd (k_cs k'))) t = None ∧ t ≠ activeID (cs (k_cs k)) ∧
      orphaned obj (LiveExtents order (k_idx k)) (k_cs k) t.
Proof.
  move=> H Hl Hp. rw /Compact {1}/on_cs /as_err.
  pose proof (ListSealed_cases obj (k_cs k) H) as HL.
  destruct (ListSealed (k_cs k)) as [ids s1|er s1|] eqn:EL => //=.
  destruct HL as [Hq1 _]. destruct (ListSealed_names _ _ _ Hl EL) as (_ & Hnames & Hact).
  rw {1}/on_cs /=. pose proof (q_wf _ _ _ Hq1) as H1.
  pose proof (select_targets_cases obj (threshold c) (LiveExtents order (k_idx k)) ids s1 H1 Hnames) as HT.
  pose proof (select_targets_orphaned obj (threshold c) (LiveExtents order (k_idx k)) ids s1 Hp H1 Hnames) as HO.
  destruct (select_targets _ _ ids s1) as [targets s2| |] eqn:ET => //=. destruct HT as [_ Hsub].
  move=> HR. exists ids, s1, targets, s2. split_and!; [done..|]. move=> t Ht.
  rw Forall_forall in HO. destruct (HO t Ht) as [Hn Ho].
  assert (t ∈ ids) as Hti by by eapply elem_of_sublist.
  assert (t ≠ activeID (cs (k_cs k))) as Hne by (by move=> E; rw E in Hti).
  split_and!; [|done|by rw /orphaned - (quiet_view obj (k_cs k) s1)].
  destruct targets as [|t0 ts]; [by apply elem_of_nil in Ht|].
  remember (t0 :: ts) as targets eqn:Et. clear Et t0 ts. revert HR. rw /on_cs /=. destruct (pack _ _ _ _ s2) as [p s3| |] => //=.
  destruct (write_outputs _ s3) as [u s4| |] => //=. destruct (persist c _) as [u5 k5| |] => //.
  rw /as_err. destruct (DeleteChunks targets (k_cs k5)) as [u6 s6| |] eqn:ED => // -[_ <-]. simpl.
  destruct u6. assert (Forall (fun x => chunk_name x = true) targets) as Hcn
    by (apply Forall_forall => x Hx; by apply HO).
  by destruct (DeleteChunks_gone obj targets (k_cs k5) s6 Hcn ED) as [_ Hg]; apply Hg.
Qed.

(** Output chunks are bounded: packing never produces a chunk of more than
    [chunkSize] bytes, except one that consists of a single larger extent. *)
Theorem pack_respects_chunk_size sz exts s p s' :
  0 <= sz < 2 ^ 62 → wf_cs obj s → Forall (good_ext obj s) exts →
  (∀ x, x ∈ exts → Extent.Length x < 2 ^ 62) →
  pack clock sz exts (first_output clock) s = Ret p s' →
  Forall (fun o => len (o_buf o) <= sz ∨ ∃ e, e ∈ exts ∧ len (o_buf o) = Extent.Length e) (outputs p).
Proof.
  clear clock_range. move=> Hz H Hg Hx E. pose proof (pack_fits obj clock sz exts [] (first_output clock) s Hz H Hg Hx) as HP.
  rw E in HP. apply HP. apply Forall_singleton. left. by rw /len /=; lia.
Qed.
End properties.
