(* ===== verification/CompactWitness.v ===== *)
(** A concrete compaction: a directory store with a sealed chunk of which one
    byte in two is live, an index of one file, and a persist function that
    keeps the extents it was last given. *)
From S2P Require Import Prelude Types Extents Index IndexProps OS Decimal Persist Store Cache ChunkStore.
From S2P Require Import ChunkProps Fuse FuseData Compaction CompactProps.
From Stdlib Require Import Floats.SpecFloat.
#[local] Open Scope Z_scope.

#[local] Existing Instance demo_store.
#[local] Existing Instance demo_laws.

(** A persist function that always works. *)
Definition keep_extents {W} (k : kstate W (gmap Z (list Extent.t)))
    : outcome unit (kstate W (gmap Z (list Extent.t))) unit :=
  Ret tt (mkK (k_idx k) (k_cs k) (extents (k_idx k))).

#[local] Instance keep_extents_laws {W} {S : Store W} obj {L : StoreLaws S obj} :
  PersistLaws obj (keep_extents (W := W)) id.
Proof. move=> k H. split; [|done]. by split_and!. Qed.

Definition demo_sealed : cstate Disk := default demo_ab (out_state (Seal demo_ab)).

Lemma demo_sealed_wf : wf_cs demo_obj demo_sealed.
Proof.
  pose proof (sealLocked_cases demo_obj demo_ab demo_ab_wf ltac:(by vm_compute)) as H.
  rw /demo_sealed /Seal. destruct (sealLocked demo_ab) as [u s|e s|] eqn:E; [|by vm_compute in E..].
  by destruct H.
Qed.

Lemma demo_sealed_files : files (backing (wd demo_sealed)) = {[ "store/chunk-00000000" := ab ]}.
Proof. vm_compute. reflexivity. Qed.

Lemma demo_sealed_cache : cache (cs demo_sealed) = Some (mkCache "cache/chunks").
Proof. by vm_compute. Qed.

Lemma demo_sealed_local : files (local (wd demo_sealed)) = {[ "cache/chunks/chunk-00000000" := ab ]}.
Proof. vm_compute. reflexivity. Qed.

Lemma demo_sealed_list ids w' : List (backing (wd demo_sealed)) = Ret ids w' → ids = ["chunk-00000000"].
Proof.
  move=> E. assert (match List (backing (wd demo_sealed)) with
    | Ret ids _ => ids | _ => [] end = ["chunk-00000000"]) as H by (vm_compute; reflexivity).
  by rw E in H.
Qed.

(** The second byte of the chunk is live. *)
Definition demo_live : Extent.t := Extent.mk "chunk-00000000" 1 1 0.
Definition demo_index : Index := demo_file [demo_live] 1.
Definition demo_k : kstate Disk (gmap Z (list Extent.t)) :=
  mkK demo_index demo_sealed (extents demo_index).
Definition demo_compactor : Compactor Disk (gmap Z (list Extent.t)) :=
  mkCompactor keep_extents (SFdiv 53 1024 (float64 1) (float64 2)) 4.
Definition demo_clock (q : Z) : Z := 17.

Lemma demo_index_extents : extents demo_index = {[ 2 := [demo_live] ]}.
Proof. by vm_compute. Qed.

Lemma demo_live_good : good_ext demo_obj demo_sealed demo_live.
Proof.
  split; [by vm_compute|]. exists [Byte.x62]. split; [done|]. split_and!; [done..|].
  exists ab. split; [by vm_compute|]. by vm_compute.
Qed.

Lemma demo_pre : compact_pre demo_obj demo_clock [2] demo_index demo_sealed.
Proof.
  split.
  - exact demo_sealed_wf.
  - move=> ino exts. rw demo_index_extents => /lookup_singleton_Some [_ <-].
    apply Forall_singleton. exact demo_live_good.
  - rw demo_index_extents map_to_list_singleton. done.
  - move=> e1 e2. assert (LiveExtents [2] demo_index = [demo_live]) as -> by by vm_compute.
    by move=> /list_elem_of_singleton -> /list_elem_of_singleton ->.
  - by vm_compute.
  - move=> q _. split.
    + rw /demo_obj /LocalStore.obj demo_sealed_files lookup_singleton_ne //.
    + move=> c. rw demo_sealed_cache => -[<-]. by rw /cached demo_sealed_local lookup_singleton_ne.
  - move=> ids w' /demo_sealed_list ->. split; [apply NoDup_singleton|by constructor].
Qed.

Definition demo_compacted : kstate Disk (gmap Z (list Extent.t)) :=
  default demo_k (out_state (Compact demo_clock [2] demo_compactor demo_k)).

Lemma demo_compacted_ret : Compact demo_clock [2] demo_compactor demo_k = Ret tt demo_compacted.
Proof. by vm_compute. Qed.

Lemma demo_clock_range q : 0 <= demo_clock q < 2 ^ 63.
Proof. done. Qed.

(** The file now lies in the new chunk, and its byte is the same. *)
Lemma Compact_preserves_files_witness :
  extents (k_idx demo_compacted) = {[ 2 := [Extent.mk "compacted-17-0" 0 1 0] ]} ∧
  same_files demo_obj demo_index demo_sealed (extents (k_idx demo_compacted)) (k_cs demo_compacted).
Proof.
  split; [by vm_compute|].
  pose proof (Compact_preserves_files demo_obj demo_clock demo_clock_range [2] demo_compactor demo_k id
    demo_pre eq_refl) as H.
  rw demo_compacted_ret in H. exact (proj1 (proj2 H)).
Defined.

Lemma Compact_reclaims_witness :
  ∃ ids s1 targets s2, ListSealed demo_sealed = Ret ids s1 ∧
    select_targets (threshold demo_compactor) (LiveExtents [2] demo_index) ids s1 = Ret targets s2 ∧
    ∀ t, t ∈ targets → demo_obj (backing (wd (k_cs demo_compacted))) t = None ∧
      t ≠ activeID (cs demo_sealed) ∧ orphaned demo_obj (LiveExtents [2] demo_index) demo_sealed t.
Proof.
  exact (Compact_reclaims demo_obj demo_clock [2] demo_compactor demo_k demo_compacted
    demo_sealed_wf (cp_list _ _ _ _ _ demo_pre) I demo_compacted_ret).
Defined.

Definition demo_packing : packing :=
  match pack demo_clock 4 [demo_live] (first_output demo_clock) demo_sealed with
  | Ret p _ => p | _ => first_output demo_clock end.

Lemma pack_respects_chunk_size_witness :
  Forall (fun o => len (o_buf o) <= 4 ∨ ∃ e, e ∈ [demo_live] ∧ len (o_buf o) = Extent.Length e)
    (outputs demo_packing).
Proof.
  assert (Forall (good_ext demo_obj demo_sealed) [demo_live]) as Hg
    by (apply Forall_singleton; exact demo_live_good).
  pose proof (pack_respects_chunk_size demo_obj demo_clock 4 [demo_live] demo_sealed demo_packing) as H.
  assert (match pack demo_clock 4 [demo_live] (first_output demo_clock) demo_sealed with
    | Ret _ _ => true | _ => false end = true) as Hret by by vm_compute.
  rw /demo_packing. rw /demo_packing in H.
  destruct (pack demo_clock 4 [demo_live] (first_output demo_clock) demo_sealed) as [p s'| |] eqn:E;
    [|discriminate|discriminate].
  apply (H s'); [lia|exact demo_sealed_wf|exact Hg| |reflexivity].
  move=> x /list_elem_of_singleton ->. done.
Defined.
