(* ===== verification/Broker.v ===== *)
(** The broker store (src/internal/chunks/broker.go): retries, status codes,
    and the two-phase protocol of presigned URLs.

    The network is a parameter: [HttpClient] gives the HTTP client, the URL
    parser, the JSON decoder of the two kinds of body, and the wait between
    attempts. Messages of errors are not represented, their causes are. *)
From S2P Require Import Prelude Decimal Store.
From Stdlib Require Import Strings.Ascii.
#[local] Open Scope Z_scope.

(** [http.Request] as the store builds it. *)
Record Request := mkRequest {
  Method : string;
  URL : string;
  AuthHeader : option (string * string);
  RangeHeader : option string;
  Body : option bytes;
}.

(** [http.Response]; [RespBody] is [None] if reading the body fails. *)
Record Response := mkResponse {
  StatusCode : Z;
  ContentLength : Z;
  RespBody : option bytes;
}.

Class HttpClient (W : Type) := {
  (** [client.Do(req)]: no response when the network fails. *)
  Do : Request → W → option Response * W;
  (** The [select] between [ctx.Done()] and [time.After(delay)]: whether the
      delay elapsed. *)
  Wait : Z → W → bool * W;
  (** Whether [http.NewRequestWithContext] accepts the URL. *)
  valid_url : string → bool;
  (** [Decode(&p)] for [presignedURLResponse], and for a list of ids. *)
  decode_url : bytes → option string;
  decode_ids : bytes → option (list string);
}.

(** ** Errors *)

Inductive Cause :=
| NotFound | Unauthorized | Forbidden | BadStatus (code : Z) | Network | BadRequest | BadJSON | BodyError
| NoLength.

(** An [error]: its cause, and whether it is wrapped in [retryableError]. *)
Record GoErr := mkErr { isRetryable : bool; unwrapRetryable : Cause }.

Definition plain (c : Cause) : GoErr := mkErr false c.
Definition makeRetryable (c : Cause) : GoErr := mkErr true c.

Definition ok_status (code : Z) : bool :=
  (code =? 200) || (code =? 201) || (code =? 204) || (code =? 206).

Definition checkBrokerStatus (code : Z) : option GoErr :=
  if ok_status code then None
  else if code =? 401 then Some (plain Unauthorized)
  else if code =? 404 then Some (plain NotFound)
  else if 500 <=? code then Some (makeRetryable (BadStatus code))
  else Some (plain (BadStatus code)).

Definition checkStorageStatus (code : Z) : option GoErr :=
  if ok_status code then None
  else if code =? 404 then Some (plain NotFound)
  else if code =? 403 then Some (makeRetryable Forbidden)
  else if 500 <=? code then Some (makeRetryable (BadStatus code))
  else Some (plain (BadStatus code)).

(** ** The store *)

Definition brokerIndexKey : string := "index.cbor".
Definition defaultMaxAttempts : nat := 4.
(** Nanoseconds. *)
Definition baseRetryDelay : Z := 200 * 10 ^ 6.
Definition maxRetryDelay : Z := 8 * 10 ^ 9.

Module BrokerStore.
Record t := mk {
  baseURL : string;
  authHeader : string;
  authValue : string;
  maxAttempts : nat;
  baseDelay : Z;
}.

(** [strings.TrimRight(s, "/")]. *)
Fixpoint trim_slashes (s : string) : string :=
  match s with
  | EmptyString => EmptyString
  | String c s' =>
      match trim_slashes s' with
      | EmptyString => if Ascii.eqb c "/"%char then EmptyString else String c EmptyString
      | r => String c r
      end
  end.

Definition NewBrokerStore (baseURL authHeader authValue : string) : t :=
  mk (trim_slashes baseURL) authHeader authValue defaultMaxAttempts baseRetryDelay.

Section operations.
Context {W : Type} {H : HttpClient W}.
Variable s : t.

(** The delay before attempt number [attempt], counted from 0. *)
Definition retry_delay (attempt : Z) : Z :=
  let delay := i64 (baseDelay s * i64 (Z.shiftl 1 (attempt - 1))) in
  if delay >? maxRetryDelay then maxRetryDelay else delay.

(** The loop with [n] attempts left; [lastErr] is [nil] before the first. *)
Fixpoint retry_loop {A} (fn : W → outcome GoErr W A) (nothing : A) (n : nat) (attempt : Z)
    (lastErr : option GoErr) (w : W) : outcome Cause W A :=
  let stop w :=
    match lastErr with None => Ret nothing w | Some e => Fail (unwrapRetryable e) w end in
  match n with
  | O => stop w
  | S n =>
      let call w :=
        match fn w with
        | Ret a w => Ret a w
        | Fail e w =>
            if isRetryable e then retry_loop fn nothing n (attempt + 1) (Some e) w
            else Fail (unwrapRetryable e) w
        | Crash => Crash
        end in
      if 0 <? attempt then
        match Wait (retry_delay attempt) w with
        | (true, w) => call w
        | (false, w) => stop w
        end
      else call w
  end.

Definition withRetry {A} (fn : W → outcome GoErr W A) (nothing : A) (w : W) : outcome Cause W A :=
  retry_loop fn nothing (maxAttempts s) 0 None w.

Definition objectURL (id : string) : string := (baseURL s +:+ "/objects/" +:+ id)%string.

(** [newRequest]: an authenticated request to the broker. *)
Definition newRequest (method url : string) : res GoErr Request :=
  if valid_url url
  then Ok (mkRequest method url (Some (authHeader s, authValue s)) None None)
  else Err (plain BadRequest).

(** [client.Do(req)], a failure of the network being worth a retry. *)
Definition do_request (req : Request) (w : W) : outcome GoErr W Response :=
  match Do req w with
  | (Some resp, w) => Ret resp w
  | (None, w) => Fail (makeRetryable Network) w
  end.

(** A request to the broker, with its status checked. *)
Definition ask_broker (method url : string) (w : W) : outcome GoErr W Response :=
  match newRequest method url with
  | Err e => Fail e w
  | Ok req =>
      let! resp, w := do_request req w in
      match checkBrokerStatus (StatusCode resp) with
      | Some e => Fail e w
      | None => Ret resp w
      end
  end.

(** A request to a presigned URL. *)
Definition ask_storage (req : Request) (w : W) : outcome GoErr W Response :=
  if valid_url (URL req) then
    let! resp, w := do_request req w in
    match checkStorageStatus (StatusCode resp) with
    | Some e => Fail e w
    | None => Ret resp w
    end
  else Fail (plain BadRequest) w.

Definition decode_with {A} (decode : bytes → option A) (resp : Response) (w : W) : outcome GoErr W A :=
  match RespBody resp ≫= decode with Some a => Ret a w | None => Fail (plain BadJSON) w end.

Definition uploadURL (id : string) (w : W) : outcome GoErr W string :=
  let! resp, w := ask_broker "GET" (objectURL id +:+ "/upload-url")%string w in
  decode_with decode_url resp w.

Definition downloadURL (id : string) (w : W) : outcome GoErr W string :=
  let! resp, w := ask_broker "GET" (objectURL id +:+ "/download-url")%string w in
  decode_with decode_url resp w.

(** [io.ReadAll(resp.Body)]. *)
Definition read_all (resp : Response) (w : W) : outcome GoErr W bytes :=
  match RespBody resp with Some b => Ret b w | None => Fail (plain BodyError) w end.

Definition range_header (offset length : Z) : string :=
  ("bytes=" +:+ Sprintf_d offset +:+ "-" +:+ Sprintf_d (offset +! length -! 1))%string.

Definition put_request (url : string) (data : bytes) : Request := mkRequest "PUT" url None None (Some data).
Definition get_request (url : string) (range : option string) : Request := mkRequest "GET" url None range None.

Definition put_once (id : string) (data : bytes) (w : W) : outcome GoErr W unit :=
  let! url, w := uploadURL id w in
  let! _, w := ask_storage (put_request url data) w in Ret tt w.

Definition get_once (id : string) (range : option string) (w : W) : outcome GoErr W bytes :=
  let! url, w := downloadURL id w in
  let! resp, w := ask_storage (get_request url range) w in
  read_all resp w.

Definition delete_once (id : string) (w : W) : outcome GoErr W unit :=
  match ask_broker "DELETE" (objectURL id) w with
  | Ret _ w => Ret tt w
  | Fail e w => match unwrapRetryable e with NotFound => Ret tt w | _ => Fail e w end
  | Crash => Crash
  end.

Definition list_once (w : W) : outcome GoErr W (list string) :=
  let! resp, w := ask_broker "GET" (baseURL s +:+ "/objects")%string w in
  let! ids, w := decode_with decode_ids resp w in
  Ret (filter (fun id => id ≠ brokerIndexKey) ids) w.

Definition size_once (id : string) (w : W) : outcome GoErr W Z :=
  let! resp, w := ask_broker "HEAD" (objectURL id) w in
  if ContentLength resp <? 0 then Fail (plain NoLength) w else Ret (ContentLength resp) w.

(** What a caller can tell of an error: whether it is [ErrNotFound]. *)
Definition to_store {A} (m : outcome Cause W A) : outcome StoreErr W A :=
  match m with
  | Ret a w => Ret a w
  | Fail NotFound w => Fail ErrNotFound w
  | Fail _ w => Fail ErrStore w
  | Crash => Crash
  end.

Definition Put (id : string) (data : bytes) (w : W) : outcome StoreErr W unit :=
  to_store (withRetry (put_once id data) tt w).

Definition GetRange (id : string) (offset length : Z) (w : W) : outcome StoreErr W bytes :=
  to_store (withRetry (get_once id (Some (range_header offset length))) [] w).

Definition Delete (id : string) (w : W) : outcome StoreErr W unit :=
  to_store (withRetry (delete_once id) tt w).

Definition List (w : W) : outcome StoreErr W (list string) := to_store (withRetry list_once [] w).

Definition Size (id : string) (w : W) : outcome StoreErr W Z := to_store (withRetry (size_once id) 0 w).

Definition PutRaw (key : string) (data : bytes) (w : W) : outcome StoreErr W unit := Put key data w.

Definition GetRaw (key : string) (w : W) : outcome StoreErr W bytes :=
  to_store (withRetry (get_once key None) [] w).

Definition IndexKey : string := brokerIndexKey.

(** [BrokerStore] implements [Store] and [ObjectStore]. *)
Definition store : Store W :=
  {| Store.Put := Put; Store.GetRange := GetRange; Store.Delete := Delete; Store.List := List; Store.Size := Size |}.
Definition object_store : @ObjectStore W store :=
  {| Store.PutRaw := PutRaw; Store.GetRaw := GetRaw; Store.IndexKey := IndexKey |}.
End operations.
End BrokerStore.
