(* ===== verification/BrokerProps.v ===== *)
(** The broker store keeps the laws of a store: retries repeat only what can
    be repeated, and what it returns is what the object store holds. *)
From S2P Require Import Prelude Decimal Store Broker.
#[local] Open Scope Z_scope.

(** ** Retrying *)

Section retry.
Context {W : Type} {H : HttpClient W} (s : BrokerStore.t).

(** The delays before attempts [a], [a + 1], ... *)
Definition delays (a : Z) (n : nat) : list Z := BrokerStore.retry_delay s <$> seqZ a (Z.of_nat n).

(** [n] attempts that ended in errors worth a retry, each followed by its
    delay: from the world before the first to the world before the next. *)
Inductive failed_attempts {A} (fn : W → outcome GoErr W A) : list Z → W → W → Prop :=
| no_attempt w : failed_attempts fn [] w w
| one_more ds d w e w1 w2 w3 :
    fn w = Fail e w1 → isRetryable e = true → Wait d w1 = (true, w2) →
    failed_attempts fn ds w2 w3 → failed_attempts fn (d :: ds) w w3.

(** How [withRetry] ends when [left] attempts are left and the next is number
    [a]: after [n] repetitions comes the attempt that decides. *)
Definition retried {A} (fn : W → outcome GoErr W A) (left : nat) (a : Z) (w : W)
    (r : outcome Cause W A) : Prop :=
  ∃ n w1, (n < left)%nat ∧ failed_attempts fn (delays (a + 1) n) w w1 ∧
  match fn w1 with
  | Ret x w2 => r = Ret x w2
  | Fail e w2 =>
      if isRetryable e then
        (S n = left ∧ r = Fail (unwrapRetryable e) w2) ∨
        (∃ w3, (S n < left)%nat ∧ Wait (BrokerStore.retry_delay s (a + 1 + Z.of_nat n)) w2 = (false, w3) ∧
           r = Fail (unwrapRetryable e) w3)
      else r = Fail (unwrapRetryable e) w2
  | Crash => r = Crash
  end.

Lemma delays_cons a n : delays a (S n) = BrokerStore.retry_delay s a :: delays (a + 1) n.
Proof.
  rw /delays (seqZ_cons a); [|lia]. rw fmap_cons.
  replace (Z.succ a) with (a + 1) by lia. by replace (Z.pred (Z.of_nat (S n))) with (Z.of_nat n) by lia.
Qed.

(** What the loop does when [left] attempts are left and [e] was the last
    error: it waits first. *)
Definition waits_first {A} (fn : W → outcome GoErr W A) nothing (left : nat) (a : Z) : Prop :=
  ∀ e w, isRetryable e = true →
  let r := BrokerStore.retry_loop s fn nothing left a (Some e) w in
  match left with
  | O => r = Fail (unwrapRetryable e) w
  | S _ =>
      match Wait (BrokerStore.retry_delay s a) w with
      | (true, w1) => retried fn left a w1 r
      | (false, w1) => r = Fail (unwrapRetryable e) w1
      end
  end.

(** One attempt, and the loop after it. *)
Lemma attempt_retried {A} (fn : W → outcome GoErr W A) nothing left a w :
  waits_first fn nothing left (a + 1) →
  retried fn (S left) a w
    (match fn w with
     | Ret x w => Ret x w
     | Fail e w =>
         if isRetryable e then BrokerStore.retry_loop s fn nothing left (a + 1) (Some e) w
         else Fail (unwrapRetryable e) w
     | Crash => Crash
     end).
Proof.
  move=> Hrest.
  assert (∀ r, match fn w with Ret x w2 => r = Ret x w2 | Crash => r = Crash
      | Fail e w2 => if isRetryable e then (1%nat = S left ∧ r = Fail (unwrapRetryable e) w2) ∨
          (∃ w3, (1 < S left)%nat ∧ Wait (BrokerStore.retry_delay s (a + 1)) w2 = (false, w3) ∧
             r = Fail (unwrapRetryable e) w3)
        else r = Fail (unwrapRetryable e) w2 end → retried fn (S left) a w r) as Hnow.
  { move=> r Hr. exists 0%nat, w. split_and!; [lia|constructor|]. by rw Z.add_0_r. }
  destruct (fn w) as [x w2|e w2|] eqn:E; [by apply Hnow| |by apply Hnow].
  destruct (isRetryable e) eqn:Ee; [|by apply Hnow].
  specialize (Hrest e w2 Ee). destruct left as [|left]; [apply Hnow; by left|].
  destruct (Wait (BrokerStore.retry_delay s (a + 1)) w2) as [[] w3] eqn:EW; last first.
  { apply Hnow. right. exists w3. split_and!; [lia|done|done]. }
  destruct Hrest as (n & w4 & Hn & Hf & Hr). exists (S n), w4. split_and!; [lia| |].
  - rw delays_cons. by eapply one_more.
  - replace (a + 1 + Z.of_nat (S n)) with (a + 1 + 1 + Z.of_nat n) by lia.
    destruct (fn w4) as [|e4 w5|] => //. destruct (isRetryable e4) => //.
    destruct Hr as [[? ?]|(w6 & ? & ? & ?)]; [left; split; [lia|done]|right].
    exists w6. split_and!; [lia|done|done].
Qed.

Lemma loop_waits_first {A} (fn : W → outcome GoErr W A) nothing left a :
  0 < a → waits_first fn nothing left a.
Proof.
  elim: left a => [//|left IH] a Ha e w He /=.
  destruct (Z.ltb_spec 0 a); [|lia]. destruct (Wait _ w) as [[] w1]; [|done].
  apply attempt_retried, IH. lia.
Qed.

Lemma withRetry_retried {A} (fn : W → outcome GoErr W A) nothing w :
  (0 < BrokerStore.maxAttempts s)%nat →
  retried fn (BrokerStore.maxAttempts s) 0 w (BrokerStore.withRetry s fn nothing w).
Proof.
  rw /BrokerStore.withRetry. destruct (BrokerStore.maxAttempts s) as [|left]; [lia|]. move=> _.
  by apply attempt_retried, loop_waits_first.
Qed.
End retry.

(** C32: what [withRetry] does with the parameters of [NewBrokerStore]: the
    operation is attempted at most four times, after pauses of 200, 400 and
    800 milliseconds, each after an error that is worth a retry; it ends with
    the first success, with the first error that is not worth a retry, with
    the error of the fourth attempt, or, if the context is cancelled during a
    pause, with the last error. *)
Theorem withRetry_bounded {W} {H : HttpClient W} {A} (fn : W → outcome GoErr W A) nothing w url header value :
  let r := BrokerStore.withRetry (BrokerStore.NewBrokerStore url header value) fn nothing w in
  let pauses := [200 * 10 ^ 6; 400 * 10 ^ 6; 800 * 10 ^ 6] in
  ∃ n w1, (n <= 3)%nat ∧ failed_attempts fn (take n pauses) w w1 ∧
  match fn w1 with
  | Ret x w2 => r = Ret x w2
  | Fail e w2 =>
      if isRetryable e then
        (n = 3%nat ∧ r = Fail (unwrapRetryable e) w2) ∨
        (∃ d w3, pauses !! n = Some d ∧ Wait d w2 = (false, w3) ∧ r = Fail (unwrapRetryable e) w3)
      else r = Fail (unwrapRetryable e) w2
  | Crash => r = Crash
  end.
Proof.
  set (s := BrokerStore.NewBrokerStore url header value). move=> r pauses.
  destruct (withRetry_retried s fn nothing w ltac:(simpl; rw /defaultMaxAttempts; lia)) as (n & w1 & Hn & Hf & Hr).
  change (BrokerStore.maxAttempts s) with 4%nat in Hn, Hr.
  assert (delays s (0 + 1) n = take n pauses) as Ed.
  { destruct n as [|[|[|[|]]]]; [by vm_compute..|lia]. }
  exists n, w1. rw - Ed. split_and!; [lia|done|].
  destruct (fn w1) as [x w2|e w2|]; [done| |done]. destruct (isRetryable e); [|done].
  destruct Hr as [[? ?]|(w3 & Hlt & Hw & Er)]; [left; split; [lia|done]|right].
  exists (BrokerStore.retry_delay s (0 + 1 + Z.of_nat n)), w3. split_and!; [|done|done].
  destruct n as [|[|[|]]]; [by vm_compute..|lia].
Qed.

(** Retrying something whose failures have effects in [R]: what holds of one
    attempt holds of all of them. *)
Section retry_cases.
Context {W : Type} {H : HttpClient W} (s : BrokerStore.t) {A : Type}.
Context (R : W → W → Prop) `{!PreOrder R} (Q : W → A → W → Prop) (E : W → Cause → Prop).
Variables (fn : W → outcome GoErr W A) (nothing : A).
Hypothesis attempts : (0 < BrokerStore.maxAttempts s)%nat.
Hypothesis wait_R : ∀ d w, R w (Wait d w).2.
Hypothesis fn_cases : ∀ w,
  match fn w with
  | Ret a w' => Q w a w'
  | Fail e w' => R w w' ∧ E w (unwrapRetryable e)
  | Crash => False
  end.
Hypothesis Q_after : ∀ w1 w2 a w3, R w1 w2 → Q w2 a w3 → Q w1 a w3.
Hypothesis E_after : ∀ w1 w2 c, R w1 w2 → E w2 c → E w1 c.

Lemma failed_attempts_R ds w w' : failed_attempts fn ds w w' → R w w'.
Proof.
  elim=> [w0|ds' d w0 e w1 w2 w3 Hf He Hw _ IH]; [reflexivity|].
  pose proof (fn_cases w0) as Hc. rw Hf in Hc. pose proof (wait_R d w1) as HR. rw Hw in HR.
  etrans; [apply Hc|]. by etrans.
Qed.

Lemma withRetry_cases w :
  match BrokerStore.withRetry s fn nothing w with
  | Ret a w' => Q w a w'
  | Fail c w' => R w w' ∧ E w c
  | Crash => False
  end.
Proof.
  destruct (withRetry_retried s fn nothing w attempts) as (n & w1 & _ & Hf & Hr).
  apply failed_attempts_R in Hf. pose proof (fn_cases w1) as Hc.
  destruct (fn w1) as [a w2|e w2|]; [rw Hr; by eapply Q_after| |done].
  destruct Hc as [Hc HE]. assert (E w (unwrapRetryable e)) by by eapply E_after.
  destruct (isRetryable e); [destruct Hr as [[_ ->]|(w3 & _ & Hw & ->)]|rw Hr];
    (split; [|done]); [by etrans| |by etrans].
  etrans; [exact Hf|]. etrans; [exact Hc|]. pose proof (wait_R (BrokerStore.retry_delay s (0 + 1 + Z.of_nat n)) w2) as HR.
  by rw Hw in HR.
Qed.
End retry_cases.

(** ** The service *)

(** The objects that fusey names. *)
Definition served_id (id : string) : Prop := chunk_name id = true ∨ id = brokerIndexKey.

(** What the broker and the object store behind it do: [obj w id] is the
    object under [id], [puts url id] and [gets url id] say that [url] is a
    presigned URL for writing and for reading [id]. These are the endpoints
    that the comment of [BrokerStore] documents: a request that is answered
    with success has had its effect, any other may or may not have had it, and
    a read of a range that lies inside the object returns that range. *)
Class BrokerLaws {W} (H : HttpClient W) (s : BrokerStore.t) (obj : W → string → option bytes)
    (puts gets : string → string → Prop) : Prop := {
  Wait_law d w k : obj (Wait d w).2 k = obj w k;
  ask_law method url w k : method ≠ "DELETE"%string → method ≠ "PUT"%string →
    obj (Do (mkRequest method url (Some (BrokerStore.authHeader s, BrokerStore.authValue s)) None None) w).2 k = obj w k;
  upload_law id w resp b url : served_id id →
    (Do (mkRequest "GET" (BrokerStore.objectURL s id +:+ "/upload-url")
           (Some (BrokerStore.authHeader s, BrokerStore.authValue s)) None None) w).1 = Some resp →
    ok_status (StatusCode resp) = true → RespBody resp = Some b → decode_url b = Some url → puts url id;
  download_law id w resp : served_id id →
    (Do (mkRequest "GET" (BrokerStore.objectURL s id +:+ "/download-url")
           (Some (BrokerStore.authHeader s, BrokerStore.authValue s)) None None) w).1 = Some resp →
    (StatusCode resp = 404 → obj w id = None) ∧
    ∀ b url, ok_status (StatusCode resp) = true → RespBody resp = Some b → decode_url b = Some url → gets url id;
  put_law url id data w : served_id id → puts url id →
    let (r, w') := Do (BrokerStore.put_request url data) w in
    (∀ k, k ≠ id → obj w' k = obj w k) ∧ (obj w' id = obj w id ∨ obj w' id = Some data) ∧
    ∀ resp, r = Some resp → ok_status (StatusCode resp) = true → obj w' id = Some data;
  get_law url id range w : served_id id → gets url id →
    let (r, w') := Do (BrokerStore.get_request url range) w in
    (∀ k, obj w' k = obj w k) ∧ ∀ resp, r = Some resp →
      (StatusCode resp = 404 → obj w id = None) ∧
      (ok_status (StatusCode resp) = true → ∃ data, obj w id = Some data ∧
         ∀ b, RespBody resp = Some b →
         (range = None → b = data) ∧
         ∀ off n, range = Some (BrokerStore.range_header off n) → 0 <= off → 0 < n → off + n <= len data →
           b = slice data off n);
  delete_law id w : served_id id →
    let (r, w') := Do (mkRequest "DELETE" (BrokerStore.objectURL s id)
                         (Some (BrokerStore.authHeader s, BrokerStore.authValue s)) None None) w in
    (∀ k, k ≠ id → obj w' k = obj w k) ∧ (obj w' id = obj w id ∨ obj w' id = None) ∧
    ∀ resp, r = Some resp → ok_status (StatusCode resp) = true ∨ StatusCode resp = 404 → obj w' id = None;
  list_law w resp b ids :
    (Do (mkRequest "GET" (BrokerStore.baseURL s +:+ "/objects")
           (Some (BrokerStore.authHeader s, BrokerStore.authValue s)) None None) w).1 = Some resp →
    ok_status (StatusCode resp) = true → RespBody resp = Some b → decode_ids b = Some ids →
    ∀ k, k ∈ ids ↔ is_Some (obj w k);
  head_law id w resp : served_id id →
    (Do (mkRequest "HEAD" (BrokerStore.objectURL s id)
           (Some (BrokerStore.authHeader s, BrokerStore.authValue s)) None None) w).1 = Some resp →
    ok_status (StatusCode resp) = true → 0 <= ContentLength resp →
    ∃ data, obj w id = Some data ∧ ContentLength resp = len data;
}.

Section laws.
Context {W : Type} {H : HttpClient W} (s : BrokerStore.t) (obj : W → string → option bytes).
Context (puts gets : string → string → Prop) {L : BrokerLaws H s obj puts gets}.
Hypothesis attempts : (0 < BrokerStore.maxAttempts s)%nat.

(** No object has changed. *)
Definition same_objects (w w' : W) : Prop := ∀ k, obj w' k = obj w k.

#[local] Instance same_objects_preorder : PreOrder same_objects.
Proof. split; [done|]. move=> w1 w2 w3 H1 H2 k. by rw H2. Qed.

(** Only [id] may have changed, to [x]. *)
Definition may_set (id : string) (x : option bytes) (w w' : W) : Prop :=
  (∀ k, k ≠ id → obj w' k = obj w k) ∧ (obj w' id = obj w id ∨ obj w' id = x).

#[local] Instance may_set_preorder id x : PreOrder (may_set id x).
Proof.
  split; [by split; [|left]|]. move=> w1 w2 w3 [H1 H1'] [H2 H2']. split.
  - move=> k Hk. by rw H2 // H1.
  - destruct H2' as [->| ->]; [done|by right].
Qed.

Lemma same_may_set id x w w' : same_objects w w' → may_set id x w w'.
Proof. move=> Hs. split; [by move=> k _|by left]. Qed.

Abbreviation auth := (Some (BrokerStore.authHeader s, BrokerStore.authValue s)).

Lemma checkBrokerStatus_cases code :
  match checkBrokerStatus code with
  | None => ok_status code = true
  | Some e => ok_status code = false ∧ (unwrapRetryable e = NotFound ↔ code = 404)
  end.
Proof.
  rw /checkBrokerStatus. destruct (ok_status code) eqn:Eo => //.
  destruct (Z.eqb_spec code 401); [by split; [|split; [|lia]]|].
  destruct (Z.eqb_spec code 404); [done|]. by destruct (Z.leb_spec 500 code).
Qed.

Lemma checkStorageStatus_cases code :
  match checkStorageStatus code with
  | None => ok_status code = true
  | Some e => ok_status code = false ∧ (unwrapRetryable e = NotFound ↔ code = 404)
  end.
Proof.
  rw /checkStorageStatus. destruct (ok_status code) eqn:Eo => //.
  destruct (Z.eqb_spec code 404); [done|].
  destruct (Z.eqb_spec code 403); [by split; [|split; [|lia]]|]. by destruct (Z.leb_spec 500 code).
Qed.

(** A request to the broker, with any effect. *)
Lemma ask_broker_do method url w :
  let req := mkRequest method url auth None None in
  match BrokerStore.ask_broker s method url w with
  | Ret resp w' => Do req w = (Some resp, w') ∧ ok_status (StatusCode resp) = true
  | Fail e w' => (w' = w ∧ unwrapRetryable e ≠ NotFound) ∨ ∃ r, Do req w = (r, w') ∧
      (unwrapRetryable e = NotFound → ∃ resp, r = Some resp ∧ StatusCode resp = 404)
  | Crash => False
  end.
Proof.
  rw /BrokerStore.ask_broker /BrokerStore.newRequest. destruct (valid_url url); [|by left].
  rw /BrokerStore.do_request. destruct (Do _ w) as [[resp|] w'] => /=; [|by right; eexists].
  pose proof (checkBrokerStatus_cases (StatusCode resp)) as Hc.
  destruct (checkBrokerStatus _) as [e|]; [|done]. destruct Hc as [_ Hc].
  right. eexists. split; [done|]. move=> /Hc ?. eauto.
Qed.

(** A question to the broker. *)
Lemma ask_broker_cases method url w :
  method ≠ "DELETE"%string → method ≠ "PUT"%string →
  let r := (Do (mkRequest method url auth None None) w).1 in
  match BrokerStore.ask_broker s method url w with
  | Ret resp w' => same_objects w w' ∧ r = Some resp ∧ ok_status (StatusCode resp) = true
  | Fail e w' => same_objects w w' ∧
      (unwrapRetryable e = NotFound → ∃ resp, r = Some resp ∧ StatusCode resp = 404)
  | Crash => False
  end.
Proof.
  move=> Hm Hp r. pose proof (fun k => ask_law method url w k Hm Hp) as Hs.
  pose proof (ask_broker_do method url w) as Ha. simpl in Ha. revert Hs. rw /r.
  destruct (BrokerStore.ask_broker s method url w) as [resp w'|e w'|]; [| |done].
  - destruct Ha as [-> Ho]. done.
  - destruct Ha as [[-> Hn]|(r' & -> & Hn)]; done.
Qed.

Lemma ask_storage_do req w :
  match BrokerStore.ask_storage req w with
  | Ret resp w' => Do req w = (Some resp, w') ∧ ok_status (StatusCode resp) = true
  | Fail e w' => (w' = w ∧ unwrapRetryable e ≠ NotFound) ∨ ∃ r, Do req w = (r, w') ∧
      (unwrapRetryable e = NotFound → ∃ resp, r = Some resp ∧ StatusCode resp = 404)
  | Crash => False
  end.
Proof.
  rw /BrokerStore.ask_storage. destruct (valid_url (URL req)); [|by left].
  rw /BrokerStore.do_request. destruct (Do _ w) as [[resp|] w'] => /=; [|by right; eexists].
  pose proof (checkStorageStatus_cases (StatusCode resp)) as Hc.
  destruct (checkStorageStatus _) as [e|]; [|done]. destruct Hc as [_ Hc].
  right. eexists. split; [done|]. move=> /Hc ?. eauto.
Qed.

Lemma uploadURL_cases id w : served_id id →
  match BrokerStore.uploadURL s id w with
  | Ret url w' => same_objects w w' ∧ puts url id
  | Fail e w' => same_objects w w'
  | Crash => False
  end.
Proof.
  move=> Hid. rw /BrokerStore.uploadURL.
  pose proof (ask_broker_cases "GET" (BrokerStore.objectURL s id +:+ "/upload-url")%string w ltac:(done) ltac:(done)) as Ha.
  destruct (BrokerStore.ask_broker _ _ _ w) as [resp w'|e w'|]; [|apply Ha|done].
  destruct Ha as (Hs & Hr & Ho). rw /= /BrokerStore.decode_with.
  destruct (RespBody resp) as [b|] eqn:Eb; [|done]. simpl.
  destruct (decode_url b) as [url|] eqn:Eu; [|done]. split; [done|]. by eapply upload_law.
Qed.

Lemma downloadURL_cases id w : served_id id →
  match BrokerStore.downloadURL s id w with
  | Ret url w' => same_objects w w' ∧ gets url id
  | Fail e w' => same_objects w w' ∧ (unwrapRetryable e = NotFound → obj w id = None)
  | Crash => False
  end.
Proof.
  move=> Hid. rw /BrokerStore.downloadURL.
  pose proof (ask_broker_cases "GET" (BrokerStore.objectURL s id +:+ "/download-url")%string w ltac:(done) ltac:(done)) as Ha.
  destruct (BrokerStore.ask_broker _ _ _ w) as [resp w'|e w'|]; [| |done]; last first.
  { destruct Ha as [Hs Hn]. split; [done|]. move=> /Hn [resp [Hr Hc]].
    by apply (download_law id w resp Hid Hr). }
  destruct Ha as (Hs & Hr & Ho). rw /= /BrokerStore.decode_with.
  destruct (RespBody resp) as [b|] eqn:Eb; [|done]. simpl.
  destruct (decode_url b) as [url|] eqn:Eu; [|done]. split; [done|].
  destruct (download_law id w resp Hid Hr) as [_ Hd]. by eapply Hd.
Qed.

(** ** One attempt of each operation *)

Lemma put_once_cases id data w : served_id id →
  match BrokerStore.put_once s id data w with
  | Ret _ w' => (∀ k, k ≠ id → obj w' k = obj w k) ∧ obj w' id = Some data
  | Fail e w' => may_set id (Some data) w w'
  | Crash => False
  end.
Proof.
  move=> Hid. rw /BrokerStore.put_once. pose proof (uploadURL_cases id w Hid) as Hu.
  destruct (BrokerStore.uploadURL s id w) as [url w1|e w1|]; [|by apply same_may_set|done].
  destruct Hu as [Hs Hp]. simpl. pose proof (put_law url id data w1 Hid Hp) as HP.
  pose proof (ask_storage_do (BrokerStore.put_request url data) w1) as Ha.
  destruct (BrokerStore.ask_storage _ w1) as [resp w2|e w2|]; [| |done]; simpl.
  - destruct Ha as [Hd Ho]. rw Hd in HP. destruct HP as (Hk & _ & Hr).
    split; [|by eapply Hr]. move=> k Hne. by rw Hk.
  - destruct Ha as [[-> _]|(r & Hd & _)]; [by apply same_may_set|]. rw Hd in HP.
    destruct HP as (Hk & Hset & _). etrans; [by apply same_may_set|]. done.
Qed.

Lemma get_once_cases id range w : served_id id →
  match BrokerStore.get_once s id range w with
  | Ret b w' => same_objects w w' ∧ ∃ data, obj w id = Some data ∧ (range = None → b = data) ∧
      ∀ off n, range = Some (BrokerStore.range_header off n) → 0 <= off → 0 < n → off + n <= len data →
        b = slice data off n
  | Fail e w' => same_objects w w' ∧ (unwrapRetryable e = NotFound → obj w id = None)
  | Crash => False
  end.
Proof.
  move=> Hid. rw /BrokerStore.get_once. pose proof (downloadURL_cases id w Hid) as Hu.
  destruct (BrokerStore.downloadURL s id w) as [url w1|e w1|]; [|done|done].
  destruct Hu as [Hs Hp]. simpl. pose proof (get_law url id range w1 Hid Hp) as HP.
  pose proof (ask_storage_do (BrokerStore.get_request url range) w1) as Ha.
  destruct (BrokerStore.ask_storage _ w1) as [resp w2|e w2|]; [| |done]; simpl.
  - destruct Ha as [Hd Ho]. rw Hd in HP. destruct HP as (Hk & Hr).
    assert (same_objects w w2) by (etrans; [exact Hs|exact Hk]).
    destruct (Hr resp eq_refl) as [_ Hok]. destruct (Hok Ho) as (data & Hdata & Hb).
    rw /BrokerStore.read_all. destruct (RespBody resp) as [b|] eqn:Eb; [|by split].
    split; [done|]. exists data. split; [by rw - Hs|]. by apply Hb.
  - destruct Ha as [[-> Hn]|(r & Hd & Hn)]; [by split|]. rw Hd in HP.
    destruct HP as (Hk & Hr). split; [by etrans; [exact Hs|]|].
    move=> /Hn [resp [Er Hc]]. rw - Hs. by apply (Hr resp Er).
Qed.

Lemma delete_once_cases id w : served_id id →
  match BrokerStore.delete_once s id w with
  | Ret _ w' => (∀ k, k ≠ id → obj w' k = obj w k) ∧ obj w' id = None
  | Fail e w' => may_set id None w w'
  | Crash => False
  end.
Proof.
  move=> Hi. rw /BrokerStore.delete_once. pose proof (delete_law id w Hi) as HP.
  pose proof (ask_broker_do "DELETE" (BrokerStore.objectURL s id) w) as Ha. simpl in Ha.
  destruct (BrokerStore.ask_broker _ _ _ w) as [resp w1|e w1|]; [| |done].
  - destruct Ha as [Hd Ho]. rw Hd in HP. destruct HP as (Hk & _ & Hr). split; [done|]. by eapply Hr; [|left].
  - destruct Ha as [[-> Hn]|(r & Hd & Hn)]; [by destruct (unwrapRetryable e) => //; apply same_may_set|].
    rw Hd in HP. destruct HP as (Hk & Hid & Hr).
    destruct (unwrapRetryable e) => //. destruct Hn as (resp & -> & Hc); [done|].
    split; [done|]. by eapply Hr; [|right].
Qed.

Lemma list_once_cases w :
  match BrokerStore.list_once s w with
  | Ret ids w' => same_objects w w' ∧ ∀ k, k ∈ ids ↔ k ≠ brokerIndexKey ∧ is_Some (obj w k)
  | Fail e w' => same_objects w w'
  | Crash => False
  end.
Proof.
  rw /BrokerStore.list_once.
  pose proof (ask_broker_cases "GET" (BrokerStore.baseURL s +:+ "/objects")%string w ltac:(done) ltac:(done)) as Ha.
  destruct (BrokerStore.ask_broker _ _ _ w) as [resp w'|e w'|]; [|apply Ha|done].
  destruct Ha as (Hs & Hr & Ho). rw /= /BrokerStore.decode_with.
  destruct (RespBody resp) as [b|] eqn:Eb; [|done]. simpl.
  destruct (decode_ids b) as [ids|] eqn:Eu; [|done]. split; [done|].
  move=> k. rw list_elem_of_filter (list_law w resp b ids Hr Ho Eb Eu). done.
Qed.

Lemma size_once_cases id w : served_id id →
  match BrokerStore.size_once s id w with
  | Ret n w' => same_objects w w' ∧ ∃ data, obj w id = Some data ∧ n = len data
  | Fail e w' => same_objects w w'
  | Crash => False
  end.
Proof.
  move=> Hid. rw /BrokerStore.size_once.
  pose proof (ask_broker_cases "HEAD" (BrokerStore.objectURL s id) w ltac:(done) ltac:(done)) as Ha.
  destruct (BrokerStore.ask_broker _ _ _ w) as [resp w'|e w'|]; [|apply Ha|done].
  destruct Ha as (Hs & Hr & Ho). simpl. destruct (Z.ltb_spec (ContentLength resp) 0); [done|].
  split; [done|]. by apply (head_law id w resp Hid Hr Ho).
Qed.

(** ** The operations *)

(** Writes: repeating an attempt that may have had its effect is harmless. *)
Lemma retry_write {A} (fn : W → outcome GoErr W A) nothing id x w :
  (∀ w, match fn w with
        | Ret _ w' => (∀ k, k ≠ id → obj w' k = obj w k) ∧ obj w' id = x
        | Fail _ w' => may_set id x w w'
        | Crash => False end) →
  match BrokerStore.to_store (BrokerStore.withRetry s fn nothing w) with
  | Ret _ w' => (∀ k, k ≠ id → obj w' k = obj w k) ∧ obj w' id = x
  | Fail _ w' => may_set id x w w'
  | Crash => False
  end.
Proof.
  move=> Hfn. pose proof (withRetry_cases s (may_set id x)
    (fun w _ w' => (∀ k, k ≠ id → obj w' k = obj w k) ∧ obj w' id = x) (fun _ _ => True) fn nothing attempts) as HR.
  assert (∀ w, match BrokerStore.withRetry s fn nothing w with
    | Ret _ w' => (∀ k, k ≠ id → obj w' k = obj w k) ∧ obj w' id = x
    | Fail _ w' => may_set id x w w' ∧ True | Crash => False end) as HR'.
  { apply HR.
    - move=> d w0. apply same_may_set => k. apply Wait_law.
    - move=> w0. specialize (Hfn w0). by destruct (fn w0).
    - move=> w1 w2 _ w3 [Hk _] [Hk' ?]. split; [|done]. move=> k Hne. by rw Hk' // Hk.
    - done. }
  specialize (HR' w). destruct (BrokerStore.withRetry s fn nothing w) as [a w'|[] w'|]; try done; by destruct HR'.
Qed.

(** Reads: [E] is what an [ErrNotFound] says of the store. *)
Lemma retry_read {A} (fn : W → outcome GoErr W A) nothing (Q : (string → option bytes) → A → Prop)
    (E : (string → option bytes) → Prop) w :
  (∀ o o' a, (∀ k, o k = o' k) → Q o a → Q o' a) → (∀ o o', (∀ k, o k = o' k) → E o → E o') →
  (∀ w, match fn w with
        | Ret a w' => same_objects w w' ∧ Q (obj w) a
        | Fail e w' => same_objects w w' ∧ (unwrapRetryable e = NotFound → E (obj w))
        | Crash => False end) →
  match BrokerStore.to_store (BrokerStore.withRetry s fn nothing w) with
  | Ret a w' => same_objects w w' ∧ Q (obj w) a
  | Fail e w' => same_objects w w' ∧ (e = ErrNotFound → E (obj w))
  | Crash => False
  end.
Proof.
  move=> HQ HE Hfn. pose proof (withRetry_cases s same_objects
    (fun w a w' => same_objects w w' ∧ Q (obj w) a) (fun w c => c = NotFound → E (obj w)) fn nothing attempts) as HR.
  assert (∀ w, match BrokerStore.withRetry s fn nothing w with
    | Ret a w' => same_objects w w' ∧ Q (obj w) a
    | Fail c w' => same_objects w w' ∧ (c = NotFound → E (obj w)) | Crash => False end) as HR'.
  { apply HR.
    - move=> d w0 k. apply Wait_law.
    - exact Hfn.
    - move=> w1 w2 a w3 Hs [Hs' Hq]. split; [by etrans|]. by eapply HQ.
    - move=> w1 w2 c Hs Hc /Hc. by apply HE. }
  specialize (HR' w). destruct (BrokerStore.withRetry s fn nothing w) as [a w'|c w'|]; [done| |done].
  destruct HR' as [Hs Hc]. destruct c => //=; (split; [done|]); auto; by [].
Qed.

Lemma Put_cases id data w : served_id id →
  match BrokerStore.Put s id data w with
  | Ret _ w' => (∀ k, k ≠ id → obj w' k = obj w k) ∧ obj w' id = Some data
  | Fail _ w' => may_set id (Some data) w w'
  | Crash => False
  end.
Proof. move=> Hid. apply retry_write => w0. by apply put_once_cases. Qed.

Lemma BrokerDelete_cases id w : served_id id →
  match BrokerStore.Delete s id w with
  | Ret _ w' => (∀ k, k ≠ id → obj w' k = obj w k) ∧ obj w' id = None
  | Fail _ w' => may_set id None w w'
  | Crash => False
  end.
Proof. move=> Hid. apply retry_write => w0. by apply delete_once_cases. Qed.

Lemma broker_get_cases id range w : served_id id →
  match BrokerStore.to_store (BrokerStore.withRetry s (BrokerStore.get_once s id range) [] w) with
  | Ret b w' => same_objects w w' ∧ ∃ data, obj w id = Some data ∧ (range = None → b = data) ∧
      ∀ off n, range = Some (BrokerStore.range_header off n) → 0 <= off → 0 < n → off + n <= len data →
        b = slice data off n
  | Fail e w' => same_objects w w' ∧ (e = ErrNotFound → obj w id = None)
  | Crash => False
  end.
Proof.
  move=> Hid. apply (retry_read _ [] (fun o b => ∃ data, o id = Some data ∧ (range = None → b = data) ∧
      ∀ off n, range = Some (BrokerStore.range_header off n) → 0 <= off → 0 < n → off + n <= len data →
        b = slice data off n) (fun o => o id = None)).
  - move=> o o' b Ho. by rw Ho.
  - move=> o o' Ho. by rw Ho.
  - move=> w0. by apply get_once_cases.
Qed.

Lemma List_cases w :
  match BrokerStore.List s w with
  | Ret ids w' => same_objects w w' ∧ ∀ k, k ∈ ids ↔ k ≠ brokerIndexKey ∧ is_Some (obj w k)
  | Fail e w' => same_objects w w' ∧ (e = ErrNotFound → True)
  | Crash => False
  end.
Proof.
  apply (retry_read _ [] (fun o ids => ∀ k, k ∈ ids ↔ k ≠ brokerIndexKey ∧ is_Some (o k)) (fun _ => True)); [|done|].
  - move=> o o' ids Ho Hi k. by rw Hi Ho.
  - move=> w0. pose proof (list_once_cases w0). by destruct (BrokerStore.list_once s w0).
Qed.

Lemma BrokerSize_cases id w : served_id id →
  match BrokerStore.Size s id w with
  | Ret n w' => same_objects w w' ∧ ∃ data, obj w id = Some data ∧ n = len data
  | Fail e w' => same_objects w w' ∧ (e = ErrNotFound → True)
  | Crash => False
  end.
Proof.
  move=> Hid. apply (retry_read _ 0 (fun o n => ∃ data, o id = Some data ∧ n = len data) (fun _ => True)); [|done|].
  - move=> o o' n Ho. by rw Ho.
  - move=> w0. pose proof (size_once_cases id w0 Hid). by destruct (BrokerStore.size_once s id w0).
Qed.

Lemma chunk_not_index k : chunk_name k = true → k ≠ brokerIndexKey.
Proof. move=> Hk E. by rw E in Hk. Qed.

Lemma BrokerStore_ok :
  StoreLaws (BrokerStore.store s) obj ∧
  ObjectLaws (BrokerStore.object_store s) obj (fun w => obj w brokerIndexKey).
Proof.
  split; split; simpl.
  - move=> id data w Hid. pose proof (Put_cases id data w (or_introl Hid)) as HP.
    destruct (BrokerStore.Put s id data w) => //; destruct HP as [Hk Hx].
    + move=> k _. by case_decide; [subst|apply Hk].
    + split; [by auto|done].
  - move=> id off n w Hid Ho _.
    pose proof (broker_get_cases id (Some (BrokerStore.range_header off n)) w (or_introl Hid)) as HG.
    rw /BrokerStore.GetRange. destruct (BrokerStore.to_store _) => //; [|by destruct HG].
    destruct HG as (Hs & data & Hd & _ & Hr). split; [done|]. exists data. split; [done|]. by auto.
  - move=> id w Hid. pose proof (BrokerDelete_cases id w (or_introl Hid)) as HP.
    destruct (BrokerStore.Delete s id w) => //; destruct HP as [Hk Hx].
    + move=> k _. by case_decide; [subst|apply Hk].
    + split; [by auto|done].
  - move=> w. pose proof (List_cases w) as HL. destruct (BrokerStore.List s w) => //; destruct HL as [Hs Hl]; [|done].
    split; [done|]. move=> k /chunk_not_index Hk. rw Hl. by split; [move=> []|].
  - move=> id w Hid. pose proof (BrokerSize_cases id w (or_introl Hid)) as HS. destruct (BrokerStore.Size s id w) => //; by destruct HS.
  - move=> id data w Hid. pose proof (Put_cases id data w (or_introl Hid)) as HP. apply chunk_not_index in Hid.
    destruct (BrokerStore.Put s id data w) => //; destruct HP as [Hk _]; apply Hk; by apply not_eq_sym.
  - move=> id off n w Hid.
    pose proof (broker_get_cases id (Some (BrokerStore.range_header off n)) w (or_introl Hid)) as HG.
    rw /BrokerStore.GetRange. destruct (BrokerStore.to_store _) => //; destruct HG as [Hs _]; apply Hs.
  - move=> id w Hid. pose proof (BrokerDelete_cases id w (or_introl Hid)) as HP. apply chunk_not_index in Hid.
    destruct (BrokerStore.Delete s id w) => //; destruct HP as [Hk _]; apply Hk; by apply not_eq_sym.
  - move=> id w Hid. pose proof (BrokerSize_cases id w (or_introl Hid)) as HS.
    destruct (BrokerStore.Size s id w) => //; destruct HS as [Hs _]; apply Hs.
  - move=> w. pose proof (List_cases w) as HL. destruct (BrokerStore.List s w) => //; by destruct HL.
  - move=> data w. rw /BrokerStore.PutRaw /BrokerStore.IndexKey. pose proof (Put_cases brokerIndexKey data w (or_intror eq_refl)) as HP.
    destruct (BrokerStore.Put s brokerIndexKey data w) => //; destruct HP as [Hk Hx];
      (split; [done|]); move=> k /chunk_not_index; apply Hk.
  - move=> w. pose proof (broker_get_cases brokerIndexKey None w (or_intror eq_refl)) as HG. rw /BrokerStore.GetRaw.
    change (BrokerStore.IndexKey) with brokerIndexKey.
    destruct (BrokerStore.to_store _) => //.
    + destruct HG as (Hs & data & Hd & Hr & _). rw Hr //.
    + by destruct HG as (Hs & Hn).
Qed.

(** C12: the broker store is a store. Over any broker and object store that do
    what the protocol documents, and with at least one attempt, every operation
    of [BrokerStore] keeps the laws that the chunk store, the compactor and the
    command rely on: a write that returns has taken effect and one that fails
    has replaced nothing but the object it names, whatever was retried; a read
    returns the bytes the object holds; [List] names every chunk and not the
    index; [ErrNotFound] means that the object is absent. *)
Theorem BrokerStore_laws :
  StoreLaws (BrokerStore.store s) obj ∧
  ObjectLaws (BrokerStore.object_store s) obj (fun w => obj w brokerIndexKey).
Proof. exact BrokerStore_ok. Qed.
End laws.
