(* ===== verification/Web.v ===== *)
(** What the reference broker uses of Python and of HTTP: JSON bodies, the
    path of a URL, header fields, [int] and [str.split]. *)
From S2P Require Import Prelude Decimal Strconv.
From Stdlib Require Import Strings.Ascii Strings.String.
#[local] Open Scope Z_scope.

(** ** JSON

    [json.dumps(content, ensure_ascii=False, separators=(',', ':'))], which is
    what [JSONResponse] sends, for an object with one string field and for an
    array of strings. *)

Definition quote : ascii := ascii_of_nat 34.
Definition backslash : ascii := ascii_of_nat 92.

Definition hex_char (d : Z) : ascii := ascii_of_N (Z.to_N (if d <? 10 then 48 + d else 87 + d)).

(** The escape sequence of a character. *)
Definition json_char (c : ascii) : string :=
  if Ascii.eqb c quote then String backslash (String quote "")
  else if Ascii.eqb c backslash then String backslash (String backslash "")
  else match nat_of_ascii c with
       | 8%nat => String backslash "b"
       | 9%nat => String backslash "t"
       | 10%nat => String backslash "n"
       | 12%nat => String backslash "f"
       | 13%nat => String backslash "r"
       | n => if (n <? 32)%nat
              then String backslash ("u00" +:+ String (hex_char (Z.of_nat n / 16)) (String (hex_char (Z.of_nat n mod 16)) ""))
              else String c ""
       end%string.

Fixpoint json_chars (s : string) : string :=
  match s with EmptyString => EmptyString | String c s => (json_char c +:+ json_chars s)%string end.

Definition json_string (s : string) : string := String quote (json_chars s +:+ String quote "")%string.

#[global] Arguments json_string : simpl never.

(** [{"url": url}]. *)
Definition json_url_text (url : string) : string :=
  String "{" (json_string "url" +:+ ":" +:+ json_string url +:+ "}")%string.

Fixpoint json_items (ids : list string) : string :=
  match ids with
  | [] => "]"
  | id :: ids => ("," +:+ json_string id +:+ json_items ids)%string
  end.

Definition json_ids_text (ids : list string) : string :=
  match ids with
  | [] => "[]"
  | id :: ids => ("[" +:+ json_string id +:+ json_items ids)%string
  end.

(** *** Reading them back *)

Definition hex_digit (c : ascii) : option Z := base_digit true c.

(** A string literal after its opening quote, and what follows it. *)
Fixpoint read_chars (s : string) : option (string * string) :=
  let put c r := match read_chars r with Some (a, r) => Some (String c a, r) | None => None end in
  match s with
  | EmptyString => None
  | String c r =>
      if Ascii.eqb c quote then Some (EmptyString, r)
      else if Ascii.eqb c backslash then
        match r with
        | String "b" r => put (ascii_of_nat 8) r
        | String "t" r => put (ascii_of_nat 9) r
        | String "n" r => put (ascii_of_nat 10) r
        | String "f" r => put (ascii_of_nat 12) r
        | String "r" r => put (ascii_of_nat 13) r
        | String "u" (String "0" (String "0" (String h (String l r)))) =>
            match hex_digit h, hex_digit l with
            | Some h, Some l => put (ascii_of_N (Z.to_N (16 * h + l))) r
            | _, _ => None
            end
        | String c r => if Ascii.eqb c quote || Ascii.eqb c backslash || Ascii.eqb c "/" then put c r else None
        | EmptyString => None
        end
      else put c r
  end%char.

Definition read_string (s : string) : option (string * string) :=
  match s with
  | String c r => if Ascii.eqb c quote then read_chars r else None
  | EmptyString => None
  end.

#[global] Arguments read_string : simpl never.

Definition read_url (s : string) : option string :=
  r ← strip_prefix (String "{" (json_string "url" +:+ ":")) s;
  ar ← read_string r;
  if String.eqb ar.2 "}" then Some ar.1 else None.

(** The rest of an array, with fuel for its items. *)
Fixpoint read_items (fuel : nat) (s : string) : option (list string) :=
  match fuel with
  | O => None
  | S fuel =>
      if String.eqb s "]" then Some []
      else r ← strip_prefix "," s;
           ar ← read_string r;
           ids ← read_items fuel ar.2;
           Some (ar.1 :: ids)
  end.

Definition read_ids (s : string) : option (list string) :=
  if String.eqb s "[]" then Some []
  else r ← strip_prefix "[" s;
       ar ← read_string r;
       ids ← read_items (String.length s) ar.2;
       Some (ar.1 :: ids).

Lemma read_char c r :
  read_chars (json_char c +:+ r)%string =
  match read_chars r with Some (a, r) => Some (String c a, r) | None => None end.
Proof. destruct c as [[] [] [] [] [] [] [] []]; reflexivity. Qed.

Lemma read_json_chars s r : read_chars (json_chars s +:+ String quote r)%string = Some (s, r).
Proof.
  elim: s => [//|c s IH].
  change (json_chars (String c s)) with (json_char c +:+ json_chars s)%string.
  by rw -str_app_assoc read_char IH.
Qed.

Lemma read_json_string s r : read_string (json_string s +:+ r)%string = Some (s, r).
Proof.
  change (json_string s +:+ r)%string with (String quote ((json_chars s +:+ String quote "") +:+ r))%string.
  rw /read_string Ascii.eqb_refl -str_app_assoc. exact (read_json_chars s r).
Qed.

(** What the broker writes is read back. *)
Lemma read_json_url url : read_url (json_url_text url) = Some url.
Proof.
  assert (json_url_text url = String "{" (json_string "url" +:+ ":") +:+ (json_string url +:+ "}"))%string as ->.
  { rw /json_url_text. by rw !str_app_assoc. }
  by rw /read_url strip_prefix_app /= read_json_string.
Qed.

Lemma read_json_items (ids : list string) fuel : (Datatypes.length ids < fuel)%nat → read_items fuel (json_items ids) = Some ids.
Proof.
  elim: ids fuel => [|id ids IH] [|fuel] // Hf; [simpl in Hf; lia..|].
  change (json_items (id :: ids)) with ("," +:+ (json_string id +:+ json_items ids))%string.
  rw /read_items -/read_items.
  change (String.eqb ("," +:+ (json_string id +:+ json_items ids)) "]")%string with false.
  rw strip_prefix_app /= read_json_string /= IH //. simpl in Hf. lia.
Qed.

Lemma json_items_length (ids : list string) : (Datatypes.length ids < String.length (json_items ids))%nat.
Proof.
  elim: ids => [|id ids IH]; [simpl; lia|].
  change (json_items (id :: ids)) with (String "," (json_string id +:+ json_items ids))%string.
  rw /String.length -/String.length str_length_app. simpl. lia.
Qed.

Lemma read_json_ids ids : read_ids (json_ids_text ids) = Some ids.
Proof.
  destruct ids as [|id ids]; [done|].
  change (json_ids_text (id :: ids)) with ("[" +:+ (json_string id +:+ json_items ids))%string.
  rw /read_ids.
  change (String.eqb ("[" +:+ (json_string id +:+ json_items ids)) "[]")%string with false.
  rw strip_prefix_app. cbn [mbind option_bind]. rw read_json_string. cbn [mbind option_bind fst snd].
  rw read_json_items //. pose proof (json_items_length ids). rw !str_length_app. lia.
Qed.

Definition json_url (url : string) : bytes := list_byte_of_string (json_url_text url).
Definition url_of_json (b : bytes) : option string := read_url (string_of_list_byte b).
Definition json_ids (ids : list string) : bytes := list_byte_of_string (json_ids_text ids).
Definition ids_of_json (b : bytes) : option (list string) := read_ids (string_of_list_byte b).

Lemma url_of_json_url url : url_of_json (json_url url) = Some url.
Proof. by rw /url_of_json /json_url string_of_list_byte_of_string read_json_url. Qed.

Lemma ids_of_json_ids ids : ids_of_json (json_ids ids) = Some ids.
Proof. by rw /ids_of_json /json_ids string_of_list_byte_of_string read_json_ids. Qed.

(** ** The path of a URL *)

(** A string up to its first [c], without it. *)
Fixpoint cut_at (c : ascii) (s : string) : string :=
  match s with
  | EmptyString => EmptyString
  | String d s => if Ascii.eqb d c then EmptyString else String d (cut_at c s)
  end.

(** [urllib.parse.unquote]: the server decodes the path it is sent. *)
Fixpoint unquote (s : string) : string :=
  match s with
  | EmptyString => EmptyString
  | String c r =>
      let keep := String c (unquote r) in
      if Ascii.eqb c "%"%char then
        match r with
        | String h (String l r) =>
            match hex_digit h, hex_digit l with
            | Some h, Some l => String (ascii_of_N (Z.to_N (16 * h + l))) (unquote r)
            | _, _ => keep
            end
        | _ => keep
        end
      else keep
  end.

(** What remains of a URL after scheme and host, without query and fragment,
    decoded. *)
Definition url_path (s : string) : string := unquote (cut_at "?" (cut_at "#" s)).

(** The parts of a path between its slashes. *)
Fixpoint split_slash (s : string) : list string :=
  match s with
  | EmptyString => [EmptyString]
  | String c s =>
      let parts := split_slash s in
      if Ascii.eqb c "/"%char then EmptyString :: parts
      else match parts with p :: parts => String c p :: parts | [] => [String c EmptyString] end
  end.

(** A character that a path carries as it is. *)
Definition plain_char (c : ascii) : bool :=
  negb (Ascii.eqb c "%" || Ascii.eqb c "?" || Ascii.eqb c "#")%char.

Fixpoint plain_chars (s : string) : bool :=
  match s with EmptyString => true | String c s => plain_char c && plain_chars s end.

Lemma plain_chars_app a b : plain_chars (a +:+ b)%string = plain_chars a && plain_chars b.
Proof. elim: a => [//|c a IH]. simpl. change (plain_chars (String c (a +:+ b))) with (plain_char c && plain_chars (a +:+ b)). rw IH. apply andb_assoc. Qed.

Lemma plain_char_cases c :
  plain_char c = true → Ascii.eqb c "%" = false ∧ Ascii.eqb c "?" = false ∧ Ascii.eqb c "#" = false.
Proof. rw /plain_char. by destruct (Ascii.eqb c "%"), (Ascii.eqb c "?"), (Ascii.eqb c "#"). Qed.

Lemma cut_at_plain s : plain_chars s = true → cut_at "?" s = s ∧ cut_at "#" s = s.
Proof.
  elim: s => [//|c s IH] /andb_prop [/plain_char_cases [_ [E1 E2]] /IH [H1 H2]].
  rw /cut_at -/cut_at E1 E2 H1 H2. done.
Qed.

Lemma url_path_plain s : plain_chars s = true → url_path s = s.
Proof.
  move=> Hs. rw /url_path (proj2 (cut_at_plain s Hs)) (proj1 (cut_at_plain s Hs)).
  elim: s Hs => [//|c s IH] /andb_prop [/plain_char_cases [E _] /IH Hs]. rw /unquote -/unquote E Hs. done.
Qed.

(** ** Header fields *)

(** [request.headers.get(name)]: the first field of that name, whatever its
    case. *)
Fixpoint headers_get (headers : list (string * string)) (name : string) : option string :=
  match headers with
  | [] => None
  | (h, v) :: headers =>
      if String.eqb (lower_string h) (lower_string name) then Some v else headers_get headers name
  end.

(** ** Python's [int] and [split] *)

(** [str.isspace] of the first 256 characters. *)
Definition py_space (c : ascii) : bool :=
  let n := nat_of_ascii c in
  ((9 <=? n) && (n <=? 13) || (28 <=? n) && (n <=? 32) || (n =? 133) || (n =? 160))%nat.

Fixpoint lstrip (s : string) : string :=
  match s with
  | EmptyString => EmptyString
  | String c r => if py_space c then lstrip r else s
  end.

(** Digits with single underscores between them, then space up to the end;
    [after_digit] tells whether a digit came just before, [acc] is what was
    read so far, [room] the number of digits still accepted. *)
Fixpoint py_digits (s : string) (acc : Z) (room : nat) (after_digit : bool) : option Z :=
  match s with
  | EmptyString => if after_digit then Some acc else None
  | String c r =>
      match char_digit c, room with
      | Some d, S room => py_digits r (acc * 10 + d) room true
      | Some _, O => None
      | None, _ =>
          if after_digit then
            if Ascii.eqb c "_"%char then py_digits r acc room false
            else if String.eqb (lstrip s) EmptyString then Some acc else None
          else None
      end
  end.

(** [sys.int_info.default_max_str_digits]. *)
Definition max_str_digits : nat := 4300.

(** [int(s)]; no value where it raises [ValueError]. *)
Definition py_int (s : string) : option Z :=
  match lstrip s with
  | String c r =>
      if Ascii.eqb c "-"%char then Z.opp <$> py_digits r 0 max_str_digits false
      else if Ascii.eqb c "+"%char then py_digits r 0 max_str_digits false
      else py_digits (String c r) 0 max_str_digits false
  | EmptyString => None
  end.

(** [s.split("-", 1)] into two parts; unpacking any other number of parts
    raises [ValueError]. *)
Fixpoint split_dash (s : string) : option (string * string) :=
  match s with
  | EmptyString => None
  | String c s =>
      if Ascii.eqb c "-"%char then Some (EmptyString, s)
      else match split_dash s with Some (a, b) => Some (String c a, b) | None => None end
  end.

(** [s.removeprefix(p)]. *)
Definition removeprefix (p s : string) : string := default s (strip_prefix p s).

Lemma py_digits_value ds acc room b :
  Forall is_digit ds → (Datatypes.length ds <= room)%nat → b = true ∨ ds ≠ [] →
  py_digits (digit_string ds) acc room b = Some (foldl (fun acc d => acc * 10 + d) acc ds).
Proof.
  move=> Hd. elim: Hd acc room b => [|d l Hd _ IH] acc room b; [by destruct b => // _ [?|?]|].
  destruct room as [|room] => /= Hr _; [lia|]. rw char_digit_char // IH; [done|lia|by left].
Qed.

Lemma py_int_digits ds : Forall is_digit ds → ds ≠ [] → (Datatypes.length ds <= max_str_digits)%nat →
  py_int (digit_string ds) = Some (value ds).
Proof.
  move=> Hd Hne Hl. destruct ds as [|d ds]; [done|]. inversion_clear Hd as [|? ? Hdd Hds].
  rw /py_int /=. assert (py_space (digit_char d) = false) as ->
    by (by destruct (digit_cases d Hdd) as [->|[->|[->|[->|[->|[->|[->|[->|[->| ->]]]]]]]]]).
  destruct (digit_not_sign d Hdd) as [Hm Hp]. rw Hm Hp.
  exact (py_digits_value (d :: ds) 0 _ false (Forall_cons_2 _ _ _ Hdd Hds) Hl (or_intror Hne)).
Qed.
