(* ===== verification/BrokerService.v ===== *)
(** The reference broker (src/broker/main.py), the service that the broker
    store talks to, and that it does what the store relies on.

    The store directory is a map of files; a directory that does not exist yet
    is an empty one. Between client and service lies a network that can lose a
    request or a response, and a server that can answer 500. A file that no
    file system can hold (2^63 bytes) does not exist, and cannot be written;
    the order of a directory listing is that of [map_to_list].

    FastAPI, the framework, is not part of the sources. Of it the model has
    what the decorators of main.py ask for: a request is handled by the first
    route whose method and path match, after [require_auth] and then
    [validate_id]. What it answers when no route matches is a parameter
    ([unmatched]), of which the laws need only that it is no success unless it
    is for one of the pages of documentation that FastAPI adds ([docs_pages]);
    and so is the size that the file system reports for a directory
    ([dir_size]), and whether the disk fails in the middle of a write
    ([write_fails]), which the laws have to exclude. The text of an error's
    detail is not represented. *)
From S2P Require Import Prelude Decimal Strconv Persist Store Broker BrokerProps Web.
From Stdlib Require Import Strings.Ascii Strings.String.
#[local] Open Scope Z_scope.

Inductive netfault := Delivered | LostRequest | LostResponse | ServerError.

Record service := mkService { sfiles : gmap string bytes; network : list netfault }.

(** ** Configuration *)

Record settings := mkSettings {
  STORE_DIR : string;
  AUTH_HEADER : string;
  AUTH_VALUE : string;
  BASE_URL : string;
}.

(** [os.getenv(name, default)] takes the default only where the variable is
    not set. *)
Definition load_settings (getenv : string → option string) : settings := {|
  STORE_DIR := default "./broker_store"%string (getenv "FUSEY_STORE_DIR"%string);
  AUTH_HEADER := default "X-SESSION-API-KEY"%string (getenv "FUSEY_BROKER_AUTH_HEADER"%string);
  AUTH_VALUE := default "changeThis"%string (getenv "FUSEY_BROKER_AUTH_VALUE"%string);
  BASE_URL := BrokerStore.trim_slashes (default "http://localhost:8000"%string (getenv "FUSEY_BROKER_BASE_URL"%string));
|}.

(** ** Files *)

(** An object of the directory, by its name. *)
Definition stored (sv : service) (id : string) : option bytes :=
  match sfiles sv !! id with
  | Some b => if len b <? 2 ^ 63 then Some b else None
  | None => None
  end.

Definition is_dot (id : string) : bool := String.eqb id "." || String.eqb id "..".

(** [NAME_MAX]. *)
Definition name_max : nat := 255.
Definition too_long (id : string) : bool := (name_max <? String.length id)%nat.

(** A name that a file can have. *)
Definition file_name (id : string) : bool := negb (String.eqb id "" || is_dot id || too_long id).

(** The file under a name. *)
Definition sfile (sv : service) (id : string) : option bytes :=
  if file_name id then stored sv id else None.

(** What [object_path(id)] leads to: looking at a name that is too long raises
    [OSError]. *)
Inductive entry := Missing | IsFile (data : bytes) | IsDir | Raises.

Definition object_path (id : string) (sv : service) : entry :=
  if too_long id then Raises
  else if is_dot id then IsDir
  else match sfile sv id with Some b => IsFile b | None => Missing end.

(** [path.write_bytes(data)] opens the file, which empties it, and writes;
    the write may fail after some bytes ([fails]). *)
Definition write_bytes (id : string) (data : bytes) (fails : option nat) (sv : service) : bool * service :=
  match object_path id sv with
  | Raises | IsDir => (false, sv)
  | _ =>
      let put b := mkService (<[id := b]> (sfiles sv)) (network sv) in
      match fails with
      | Some n => (false, put (take n data))
      | None => if len data <? 2 ^ 63 then (true, put data) else (false, sv)
      end
  end.

(** ** Requests *)

(** [_SAFE_ID.match(id)]: safe characters, at least one, up to the end or to
    a newline at the end. *)
Definition safe_char (c : ascii) : bool := name_char c || Ascii.eqb c "."%char.
Definition newline : ascii := ascii_of_nat 10.

Fixpoint safe_chars (s : string) : bool :=
  match s with EmptyString => true | String c s => safe_char c && safe_chars s end.

Fixpoint safe_end (s : string) : bool :=
  match s with
  | EmptyString => true
  | String c r => if safe_char c then safe_end r else Ascii.eqb c newline && String.eqb r EmptyString
  end.

Definition validate_id (id : string) : bool :=
  match id with EmptyString => false | String c r => safe_char c && safe_end r end.

(** An answer without a body, and an [HTTPException] or an error of the
    handler. *)
Definition answer (code : Z) : Response := mkResponse code 0 (Some []).

Definition json_response (body : bytes) : Response := mkResponse 200 (len body) (Some body).

(** The header fields that the broker store sends. *)
Definition headers (req : Request) : list (string * string) :=
  match AuthHeader req with Some h => [h] | None => [] end ++
  match RangeHeader req with Some r => [("Range"%string, r)] | None => [] end.

(** What lies around the program: the framework's answer where no route
    matches, the size of a directory, and after how many bytes the disk fails to
    write an object, if it fails. *)
Record platform := mkPlatform {
  unmatched : Request → Response;
  dir_size : Z;
  write_fails : string → bytes → service → option nat;
}.

(** The paths that [FastAPI()] serves by itself. *)
Definition docs_pages : list (list string) :=
  [["docs"]; ["docs"; "oauth2-redirect"]; ["redoc"]; ["openapi.json"]]%string.

Class PlatformLaws (S : settings) (P : platform) : Prop := {
  unmatched_law req rest parts :
    strip_prefix (BASE_URL S) (URL req) = Some rest → split_slash (url_path rest) = ""%string :: parts →
    parts ∉ docs_pages → ok_status (StatusCode (unmatched P req)) = false;
  write_law id data sv : write_fails P id data sv = None;
}.

Section handlers.
Variable S : settings.
Variable P : platform.

Definition require_auth (req : Request) : bool :=
  bool_decide (headers_get (headers req) (AUTH_HEADER S) = Some (AUTH_VALUE S)).

Definition raw_url (id : string) : string := (BASE_URL S +:+ "/raw/" +:+ id)%string.

Definition upload_url (id : string) : Response := json_response (json_url (raw_url id)).

Definition download_url (id : string) (sv : service) : Response :=
  match object_path id sv with
  | Missing => answer 404
  | Raises => answer 500
  | _ => json_response (json_url (raw_url id))
  end.

Definition delete_object (id : string) (sv : service) : Response * service :=
  match object_path id sv with
  | Missing => (answer 204, sv)
  | IsFile _ => (answer 204, mkService (delete id (sfiles sv)) (network sv))
  | IsDir | Raises => (answer 500, sv)
  end.

Definition head_object (id : string) (sv : service) : Response :=
  match object_path id sv with
  | Missing => answer 404
  | IsFile b => mkResponse 200 (len b) (Some [])
  | IsDir => mkResponse 200 (dir_size P) (Some [])
  | Raises => answer 500
  end.

Definition list_objects (sv : service) : Response :=
  json_response (json_ids (filter (fun id => is_Some (sfile sv id)) (map_to_list (sfiles sv)).*1)).

Definition raw_put (id : string) (data : bytes) (fails : option nat) (sv : service) : Response * service :=
  let (ok, sv) := write_bytes id data fails sv in (answer (if ok then 201 else 500), sv).

Definition parse_range (header : string) : option (Z * Z) :=
  ab ← split_dash (removeprefix "bytes=" header);
  start ← py_int ab.1;
  end_ ← py_int ab.2;
  Some (start, end_).

(** The part of [raw_get] that looks at the header. *)
Definition serve_range (data : bytes) (range_header : string) : Response :=
  if String.eqb range_header "" then mkResponse 200 (len data) (Some data)
  else match parse_range range_header with
       | None => answer 416
       | Some (start, end_) =>
           if (start <? 0) || (end_ <? start) || (len data <=? end_) then answer 416
           else let slice_ := slice data start (end_ + 1 - start) in
                mkResponse 206 (len slice_) (Some slice_)
       end.

Definition raw_get (id : string) (req : Request) (sv : service) : Response :=
  match object_path id sv with
  | Missing => answer 404
  | IsFile data => serve_range data (default ""%string (headers_get (headers req) "range"))
  | IsDir | Raises => answer 500
  end.

(** ** Routes *)

Inductive part := Lit (s : string) | ObjectId.

Inductive handler :=
| Upload_url | Download_url | Delete_object | Head_object | List_objects | Raw_put | Raw_get.

Record api_route := mkRoute { methods : string; path : list part; auth : bool; endpoint : handler }.

(** The decorators, in order. *)
Definition routes : list api_route := [
  mkRoute "GET" [Lit "objects"; ObjectId; Lit "upload-url"] true Upload_url;
  mkRoute "GET" [Lit "objects"; ObjectId; Lit "download-url"] true Download_url;
  mkRoute "DELETE" [Lit "objects"; ObjectId] true Delete_object;
  mkRoute "HEAD" [Lit "objects"; ObjectId] true Head_object;
  mkRoute "GET" [Lit "objects"] true List_objects;
  mkRoute "PUT" [Lit "raw"; ObjectId] false Raw_put;
  mkRoute "GET" [Lit "raw"; ObjectId] false Raw_get ].

(** A path against a template: the object id, if the template has one. *)
Fixpoint match_path (template : list part) (parts : list string) (id : option string) : option (option string) :=
  match template, parts with
  | [], [] => Some id
  | Lit s :: template, p :: parts => if String.eqb s p then match_path template parts id else None
  | ObjectId :: template, p :: parts => if String.eqb p "" then None else match_path template parts (Some p)
  | _, _ => None
  end.

Fixpoint find_route (rs : list api_route) (method : string) (parts : list string) : option (api_route * option string) :=
  match rs with
  | [] => None
  | r :: rs =>
      match match_path (path r) parts None with
      | Some id => if String.eqb (methods r) method then Some (r, id) else find_route rs method parts
      | None => find_route rs method parts
      end
  end.

Definition call (h : handler) (id : string) (req : Request) (sv : service) : Response * service :=
  match h with
  | Upload_url => (upload_url id, sv)
  | Download_url => (download_url id sv, sv)
  | Delete_object => delete_object id sv
  | Head_object => (head_object id sv, sv)
  | List_objects => (list_objects sv, sv)
  | Raw_put => let data := default [] (Body req) in raw_put id data (write_fails P id data sv) sv
  | Raw_get => (raw_get id req sv, sv)
  end.

(** The dependencies of a route, then its handler. *)
Definition run_route (r : api_route) (id : option string) (req : Request) (sv : service) : Response * service :=
  if auth r && negb (require_auth req) then (answer 401, sv)
  else match id with
       | Some id => if validate_id id then call (endpoint r) id req sv else (answer 400, sv)
       | None => call (endpoint r) "" req sv
       end.

Definition route (req : Request) (sv : service) : Response * service :=
  match strip_prefix (BASE_URL S) (URL req) with
  | None => (unmatched P req, sv)
  | Some rest =>
      match split_slash (url_path rest) with
      | EmptyString :: parts =>
          match find_route routes (Method req) parts with
          | Some (r, id) => run_route r id req sv
          | None => (unmatched P req, sv)
          end
      | _ => (unmatched P req, sv)
      end
  end.

(** The network. *)
Definition serve_http (req : Request) (sv : service) : option Response * service :=
  let fault := default Delivered (head (network sv)) in
  let sv := mkService (sfiles sv) (tail (network sv)) in
  match fault with
  | Delivered => let (resp, sv) := route req sv in (Some resp, sv)
  | LostRequest => (None, sv)
  | LostResponse => (None, (route req sv).2)
  | ServerError => (Some (answer 500), sv)
  end.

Definition reference_broker : HttpClient service := {|
  Do := serve_http;
  Wait := fun _ sv => (true, sv);
  valid_url := fun _ => true;
  decode_url := url_of_json;
  decode_ids := ids_of_json;
|}.
End handlers.

(** ** Paths *)

Lemma name_not_slash c : safe_char c = true → Ascii.eqb c "/"%char = false.
Proof. destruct (Ascii.eqb_spec c "/"%char) as [->|]; done. Qed.

Lemma safe_plain id : safe_chars id = true → plain_chars id = true.
Proof.
  elim: id => [//|c id IH] /andb_prop [Hc /IH Hi]. simpl. rw Hi andb_true_r /plain_char.
  destruct (Ascii.eqb_spec c "%"%char) as [->|]; [done|].
  destruct (Ascii.eqb_spec c "?"%char) as [->|]; [done|]. by destruct (Ascii.eqb_spec c "#"%char) as [->|].
Qed.

Lemma split_safe id r :
  safe_chars id = true → split_slash (id +:+ String "/"%char r)%string = id :: split_slash r.
Proof.
  elim: id => [//|c id IH] /andb_prop [Hc /IH Hi].
  change (String c id +:+ String "/"%char r)%string with (String c (id +:+ String "/"%char r)%string).
  rw /split_slash -/split_slash name_not_slash // Hi. done.
Qed.

Lemma split_whole id : safe_chars id = true → split_slash id = [id].
Proof.
  elim: id => [//|c id IH] /andb_prop [Hc /IH Hi]. rw /split_slash -/split_slash name_not_slash // Hi. done.
Qed.

Lemma served_safe id : served_id id → safe_chars id = true.
Proof.
  move=> [H| ->]; [|done]. elim: id H => [//|c id IH] /andb_prop [Hc /IH Hi]. simpl.
  by rw /safe_char Hc Hi.
Qed.

Lemma safe_valid id : safe_chars id = true → id ≠ ""%string → validate_id id = true.
Proof.
  destruct id as [|c r]; [done|]. move=> /andb_prop [Hc Hr] _. rw /validate_id Hc /=.
  elim: r Hr => [//|d r IH] /andb_prop [Hd /IH Hr]. by rw /safe_end -/safe_end Hd.
Qed.

(** ** Ranges *)

Lemma split_dash_digits ds r :
  Forall is_digit ds → split_dash (digit_string ds +:+ String "-"%char r)%string = Some (digit_string ds, r).
Proof.
  elim=> [//|d l /digit_not_sign [Hd _] _ IH].
  change (digit_string (d :: l) +:+ String "-"%char r)%string
    with (String (digit_char d) (digit_string l +:+ String "-"%char r)%string).
  rw /split_dash -/split_dash Hd IH. done.
Qed.

(** [int] reads back what [%d] printed. *)
Lemma py_int_Sprintf n : 0 <= n < 2 ^ 63 → py_int (Sprintf_d n) = Some n.
Proof.
  move=> Hn. rw /Sprintf_d. destruct (Z.ltb_spec n 0); [lia|].
  destruct (digits_spec n) as (Ev & Hd & Hne); [lia|]. rw py_int_digits; [by rw Ev|exact Hd|exact Hne|].
  transitivity 20%nat; [|apply Nat.leb_le; reflexivity].
  assert (2 ^ 63 <= 10 ^ Z.of_nat 20) by (vm_compute; discriminate). exact (dec_digits_length 20 n [] 20 ltac:(lia) ltac:(lia)).
Qed.

Lemma range_header_nonempty off n : String.eqb (BrokerStore.range_header off n) "" = false.
Proof. done. Qed.

Lemma parse_range_header off n :
  0 <= off → 0 < n → off + n < 2 ^ 63 →
  parse_range (BrokerStore.range_header off n) = Some (off, off + n - 1).
Proof.
  move=> Ho Hn Hm. rw /BrokerStore.range_header. rw (i64_small (off + n)); [|rw /is_i64; lia].
  rw (i64_small (off + n - 1)); [|rw /is_i64; lia]. rw /parse_range /removeprefix strip_prefix_app /=.
  assert (Sprintf_d off = digit_string (digits off)) as Eo.
  { rw /Sprintf_d. destruct (Z.ltb_spec off 0); [lia|done]. }
  change ("-" +:+ Sprintf_d (off + n - 1))%string with (String "-"%char (Sprintf_d (off + n - 1))).
  rw {1}Eo split_dash_digits; [|apply digits_spec; lia].
  rw /= - Eo !py_int_Sprintf //=; lia.
Qed.

(** What a range header gets of an object. *)
Lemma serve_range_cases data header :
  len data < 2 ^ 63 →
  let resp := serve_range data header in
  StatusCode resp ≠ 404 ∧
  (ok_status (StatusCode resp) = true → ∀ b, RespBody resp = Some b →
     (header = ""%string → b = data) ∧
     ∀ off n, header = BrokerStore.range_header off n → 0 <= off → 0 < n → off + n <= len data → b = slice data off n).
Proof.
  move=> Hl. rw /serve_range. destruct (String.eqb_spec header "") as [->|Hne].
  { split; [done|]. move=> _ b [<-]. split; [done|]. move=> off n E. discriminate E. }
  destruct (parse_range header) as [[start end_]|] eqn:Er; [|done].
  destruct (_ || _) eqn:Eb; [done|]. split; [done|]. move=> _ b [<-]. split; [done|].
  move=> off n Eh Ho Hn Hb. subst header. rw parse_range_header // in Er; [|lia]. injection Er as <- <-. f_equal. lia.
Qed.

(** ** Files *)

Lemma stored_small sv id data : stored sv id = Some data → len data < 2 ^ 63.
Proof.
  rw /stored. destruct (sfiles sv !! id) as [b|]; [|done]. destruct (Z.ltb_spec (len b) (2 ^ 63)); [|done]. by move=> [<-].
Qed.

Lemma stored_insert m n id data k :
  len data < 2 ^ 63 →
  stored (mkService (<[id := data]> m) n) k = if decide (k = id) then Some data else stored (mkService m n) k.
Proof.
  move=> Hl. rw /stored /=. case_decide as E.
  - subst. rw lookup_insert_eq. destruct (Z.ltb_spec (len data) (2 ^ 63)); [done|lia].
  - by rw lookup_insert_ne; [|by apply not_eq_sym].
Qed.

Lemma stored_delete m n id k :
  stored (mkService (delete id m) n) k = if decide (k = id) then None else stored (mkService m n) k.
Proof.
  rw /stored /=. case_decide as E; [subst; by rw lookup_delete_eq|].
  by rw lookup_delete_ne; [|by apply not_eq_sym].
Qed.

Lemma sfile_network m n n' id : sfile (mkService m n) id = sfile (mkService m n') id.
Proof. done. Qed.

Lemma sfile_other m m' n n' k : m !! k = m' !! k → sfile (mkService m n) k = sfile (mkService m' n') k.
Proof. rw /sfile /stored /=. by move=> ->. Qed.

(** What a path leads to, by the file under the name. *)
Lemma object_path_cases id sv :
  match object_path id sv with
  | Missing => sfile sv id = None ∧ is_dot id = false ∧ too_long id = false
  | IsFile b => sfile sv id = Some b ∧ file_name id = true ∧ len b < 2 ^ 63
  | IsDir | Raises => True
  end.
Proof.
  rw /object_path. destruct (too_long id) eqn:El; [done|]. destruct (is_dot id) eqn:Ed; [done|].
  destruct (sfile sv id) as [b|] eqn:E; [|done]. split; [done|]. revert E. rw /sfile.
  destruct (file_name id) eqn:Ef; [|done]. move=> /stored_small. done.
Qed.

(** A successful write stores the bytes, one that is not carried out nothing. *)
Lemma write_bytes_ok id data sv :
  id ≠ ""%string →
  let (ok, sv') := write_bytes id data None sv in
  (∀ k, k ≠ id → sfile sv' k = sfile sv k) ∧
  if ok then sfile sv' id = Some data else sv' = sv.
Proof.
  move=> Hne. rw /write_bytes. pose proof (object_path_cases id sv) as Hp.
  assert (file_name id = true → len data < 2 ^ 63 →
    let sv' := mkService (<[id := data]> (sfiles sv)) (network sv) in
    (∀ k, k ≠ id → sfile sv' k = sfile sv k) ∧ sfile sv' id = Some data) as Hput.
  { move=> Hf Hl sv'. split.
    - move=> k Hk. destruct sv as [m n]. apply sfile_other. by rw lookup_insert_ne //; apply not_eq_sym.
    - by rw /sfile Hf /sv' stored_insert // decide_True. }
  destruct (object_path id sv) as [|b| |] eqn:E; [| |done|done].
  - destruct (Z.ltb_spec (len data) (2 ^ 63)); [|done]. destruct Hp as (_ & Hd & Hl). apply Hput => //.
    rw /file_name Hd Hl. by destruct (String.eqb_spec id "").
  - destruct (Z.ltb_spec (len data) (2 ^ 63)); [|done]. destruct Hp as (_ & Hf & _). by apply Hput.
Qed.

(** ** The service does what the store relies on *)

Lemma find_route_in rs method parts r id :
  find_route rs method parts = Some (r, id) →
  r ∈ rs ∧ methods r = method ∧ match_path (path r) parts None = Some id.
Proof.
  elim: rs => [//|r0 rs IH]. simpl. destruct (match_path (path r0) parts None) as [id0|] eqn:Em.
  - destruct (String.eqb_spec (methods r0) method) as [E|].
    + move=> [<- <-]. split; [apply list_elem_of_here|by split].
    + move=> /IH [? ?]. by split; [apply list_elem_of_further|].
  - move=> /IH [? ?]. by split; [apply list_elem_of_further|].
Qed.

(** A route of the service, case by case. *)
Lemma routes_cases r (Q : api_route → Prop) : r ∈ routes → Forall Q routes → Q r.
Proof. move=> Hr /Forall_forall HQ. by apply HQ. Qed.

Section laws.
Variable S : settings.
Variable P : platform.
Context {PL : PlatformLaws S P}.
Variable s : BrokerStore.t.
Hypothesis base : BrokerStore.baseURL s = BASE_URL S.
Abbreviation do_route := (route S P).
Abbreviation do_http := (serve_http S P).

(** A request, judged on what the handler does. *)
Lemma serve_http_law req sv (Q : option Response → service → Prop) :
  let sv1 := mkService (sfiles sv) (tail (network sv)) in
  Q None sv1 → Q (Some (answer 500)) sv1 → Q None (do_route req sv1).2 →
  Q (Some (do_route req sv1).1) (do_route req sv1).2 →
  let (r, sv') := do_http req sv in Q r sv'.
Proof.
  move=> sv1 H1 H2 H3 H4. rw /serve_http. destruct (default Delivered (head (network sv))); [|done|done|done].
  fold sv1. by destruct (do_route req sv1).
Qed.

(** What the response to a question can be. *)
Lemma asked req sv resp :
  (do_http req sv).1 = Some resp →
  resp = answer 500 ∨ resp = (do_route req (mkService (sfiles sv) (tail (network sv)))).1.
Proof.
  pose proof (serve_http_law req sv (fun r _ => ∀ resp, r = Some resp → resp = answer 500 ∨
    resp = (do_route req (mkService (sfiles sv) (tail (network sv)))).1)) as HL. simpl in HL.
  destruct (do_http req sv) as [r sv']. apply HL; [done|by move=> ? [<-]; left|done|by move=> ? [<-]; right].
Qed.

(** A request that neither deletes nor writes. *)
Lemma route_reads req sv :
  Method req ≠ "DELETE"%string → Method req ≠ "PUT"%string → (do_route req sv).2 = sv.
Proof.
  move=> Hd Hp. rw /route. destruct (strip_prefix _ _) as [rest|]; [|done].
  destruct (split_slash (url_path rest)) as [|[|c p] parts]; [done| |done].
  destruct (find_route routes (Method req) parts) as [[r id]|] eqn:E; [|done].
  apply find_route_in in E. destruct E as (Hr & Hm & _). rw /run_route. destruct (auth r && _); [done|].
  assert (∀ id, (call S P (endpoint r) id req sv).2 = sv) as Hc; [|by destruct id as [i|]; [destruct (validate_id i)|]].
  move=> i. revert Hm. apply (routes_cases r (fun r => methods r = Method req → (call S P (endpoint r) i req sv).2 = sv) Hr).
  repeat constructor; simpl; congruence.
Qed.

(** A request that had no effect and no success, and did not find that the
    object is missing unless it is. *)
Definition refused (id : string) (sv : service) (r : Response * service) : Prop :=
  r.2 = sv ∧ ok_status (StatusCode r.1) = false ∧ (StatusCode r.1 = 404 → sfile sv id = None).

Lemma refused_answer code id sv : ok_status code = false → code ≠ 404 → refused id sv (answer code, sv).
Proof. done. Qed.

(** The paths of the API, for an id that fusey names. *)
Lemma route_at method url tail id auth range body sv :
  served_id id → plain_chars url = true →
  split_slash url = ""%string :: tail →
  let req := mkRequest method (BASE_URL S +:+ url) auth range body in
  do_route req sv =
    match find_route routes method tail with
    | Some (r, id) => run_route S P r id req sv
    | None => (unmatched P req, sv)
    end.
Proof. move=> Hid Hp Hs req. rw /route /= strip_prefix_app url_path_plain // Hs. done. Qed.

Lemma run_served r id req sv :
  id ≠ ""%string → served_id id →
  refused id sv (run_route S P r (Some id) req sv) ∨ run_route S P r (Some id) req sv = call S P (endpoint r) id req sv.
Proof.
  move=> Hne /served_safe Hs. rw /run_route. destruct (_ && _); [by left|]. right. by rw safe_valid.
Qed.

(** The route that a served id leads to. *)
Lemma route_served method url tail r id auth range body sv :
  served_id id → plain_chars url = true → split_slash url = ""%string :: tail → tail ∉ docs_pages →
  (id ≠ ""%string → find_route routes method tail = Some (r, Some id)) →
  (id = ""%string → find_route routes method tail = None) →
  let req := mkRequest method (BASE_URL S +:+ url) auth range body in
  refused id sv (do_route req sv) ∨ do_route req sv = call S P (endpoint r) id req sv ∧ id ≠ ""%string.
Proof.
  move=> Hid Hp Hs Hdoc H1 H2 req. rw /req (route_at _ _ tail id) //. destruct (String.eqb_spec id "") as [->|Hne].
  - rw H2 //. left. split; [done|]. split; [|done]. apply (unmatched_law req url tail); [|by rw url_path_plain|done].
    apply strip_prefix_app.
  - rw H1 //. destruct (run_served r id req sv Hne Hid) as [?|E]; [by left|by right].
Qed.

Lemma served_parts id sub :
  served_id id → plain_chars sub = true →
  plain_chars ("/objects/" +:+ id +:+ String "/" sub) = true ∧
  split_slash ("/objects/" +:+ id +:+ String "/" sub) = ""%string :: "objects"%string :: id :: split_slash sub.
Proof.
  move=> /served_safe Hs Hp. rw !plain_chars_app (safe_plain id) //. split; [by simpl; rw Hp|].
  change ("/objects/" +:+ id +:+ String "/" sub)%string
    with ("" +:+ String "/" ("objects" +:+ String "/" (id +:+ String "/" sub)))%string.
  by rw !split_safe.
Qed.

Lemma served_whole p id :
  served_id id → safe_chars p = true →
  plain_chars ("/" +:+ p +:+ "/" +:+ id) = true ∧
  split_slash ("/" +:+ p +:+ "/" +:+ id) = [""; p; id]%string.
Proof.
  move=> /served_safe Hs Hp. rw !plain_chars_app (safe_plain id) // (safe_plain p) //. split; [done|].
  change ("/" +:+ p +:+ "/" +:+ id)%string with ("" +:+ String "/" (p +:+ String "/" id))%string.
  by rw !split_safe // split_whole.
Qed.

Abbreviation ask m url := (mkRequest m url (Some (BrokerStore.authHeader s, BrokerStore.authValue s)) None None).

Lemma eqb_nonempty (id : string) : id ≠ ""%string → String.eqb id "" = false.
Proof. by destruct (String.eqb_spec id ""). Qed.

(** The store asks for no page of the documentation. *)
Lemma no_docs p parts : p = "objects"%string ∨ p = "raw"%string → (p :: parts) ∉ docs_pages.
Proof. move=> Hp /list_elem_of_In /= [[= E _]|[[= E _]|[[= E _]|[[= E _]|[]]]]]; by subst; destruct Hp. Qed.

Ltac routed := first
  [ apply no_docs; first [by left|by right]
  | by move=> Hne; rw /find_route /routes /match_path /= eqb_nonempty
  | by move=> -> ].

Lemma route_upload id sv : served_id id →
  refused id sv (do_route (ask "GET" (BrokerStore.objectURL s id +:+ "/upload-url")) sv) ∨
  do_route (ask "GET" (BrokerStore.objectURL s id +:+ "/upload-url")) sv = (upload_url S id, sv).
Proof.
  move=> Hid. destruct (served_parts id "upload-url" Hid eq_refl) as [H1 H2].
  rw /BrokerStore.objectURL base - !str_app_assoc.
  destruct (route_served "GET" _ _ (mkRoute "GET" [Lit "objects"; ObjectId; Lit "upload-url"] true Upload_url) id
    (Some (BrokerStore.authHeader s, BrokerStore.authValue s)) None None sv Hid H1 H2) as [?|[? _]]; [routed..|by left|by right].
Qed.

Lemma route_download id sv : served_id id →
  refused id sv (do_route (ask "GET" (BrokerStore.objectURL s id +:+ "/download-url")) sv) ∨
  do_route (ask "GET" (BrokerStore.objectURL s id +:+ "/download-url")) sv = (download_url S id sv, sv).
Proof.
  move=> Hid. destruct (served_parts id "download-url" Hid eq_refl) as [H1 H2].
  rw /BrokerStore.objectURL base - !str_app_assoc.
  destruct (route_served "GET" _ _ (mkRoute "GET" [Lit "objects"; ObjectId; Lit "download-url"] true Download_url) id
    (Some (BrokerStore.authHeader s, BrokerStore.authValue s)) None None sv Hid H1 H2) as [?|[? _]]; [routed..|by left|by right].
Qed.

Lemma route_delete id sv : served_id id →
  refused id sv (do_route (ask "DELETE" (BrokerStore.objectURL s id)) sv) ∨
  do_route (ask "DELETE" (BrokerStore.objectURL s id)) sv = delete_object id sv.
Proof.
  move=> Hid. destruct (served_whole "objects" id Hid eq_refl) as [H1 H2]. rw /BrokerStore.objectURL base.
  destruct (route_served "DELETE" _ _ (mkRoute "DELETE" [Lit "objects"; ObjectId] true Delete_object) id
    (Some (BrokerStore.authHeader s, BrokerStore.authValue s)) None None sv Hid H1 H2) as [?|[? _]]; [routed..|by left|by right].
Qed.

Lemma route_head id sv : served_id id →
  refused id sv (do_route (ask "HEAD" (BrokerStore.objectURL s id)) sv) ∨
  do_route (ask "HEAD" (BrokerStore.objectURL s id)) sv = (head_object P id sv, sv).
Proof.
  move=> Hid. destruct (served_whole "objects" id Hid eq_refl) as [H1 H2]. rw /BrokerStore.objectURL base.
  destruct (route_served "HEAD" _ _ (mkRoute "HEAD" [Lit "objects"; ObjectId] true Head_object) id
    (Some (BrokerStore.authHeader s, BrokerStore.authValue s)) None None sv Hid H1 H2) as [?|[? _]]; [routed..|by left|by right].
Qed.

Lemma route_put id data sv : served_id id →
  let req := BrokerStore.put_request (raw_url S id) data in
  refused id sv (do_route req sv) ∨ do_route req sv = raw_put id data None sv ∧ id ≠ ""%string.
Proof.
  move=> Hid req. destruct (served_whole "raw" id Hid eq_refl) as [H1 H2].
  destruct (route_served "PUT" _ _ (mkRoute "PUT" [Lit "raw"; ObjectId] false Raw_put) id
    None None (Some data) sv Hid H1 H2) as [?|[E ?]]; [routed..|by left|]. right. split; [|done].
  rw E /=. by rw write_law.
Qed.

Lemma route_get id range sv : served_id id →
  let req := BrokerStore.get_request (raw_url S id) range in
  refused id sv (do_route req sv) ∨ do_route req sv = (raw_get id req sv, sv).
Proof.
  move=> Hid req. destruct (served_whole "raw" id Hid eq_refl) as [H1 H2].
  destruct (route_served "GET" _ _ (mkRoute "GET" [Lit "raw"; ObjectId] false Raw_get) id
    None range None sv Hid H1 H2) as [?|[? _]]; [routed..|by left|by right].
Qed.

Definition presigned (url id : string) : Prop := url = raw_url S id.

(** The effect of a request on the files, and what success says. *)
Definition effect (id : string) (x : option bytes) (sv : service) (ok : Response → Prop)
    (r : option Response) (sv' : service) : Prop :=
  (∀ k, k ≠ id → sfile sv' k = sfile sv k) ∧ (sfile sv' id = sfile sv id ∨ sfile sv' id = x) ∧
  ∀ resp, r = Some resp → ok resp → sfile sv' id = x.

Lemma effect_none id x sv ok r sv' :
  (∀ k, sfile sv' k = sfile sv k) → (∀ resp, r = Some resp → ¬ ok resp) → effect id x sv ok r sv'.
Proof. move=> Hs Hr. split; [by move=> k _|]. split; [by left|]. by move=> resp /Hr. Qed.

Lemma effect_lost id x sv ok r sv' : effect id x sv ok r sv' → effect id x sv ok None sv'.
Proof. by intros (? & ? & _). Qed.

Definition sees (sv : service) (net : list netfault) : service := mkService (sfiles sv) net.

(** [serve_http] for a request with an effect. *)
Lemma serve_effect req id x sv ok :
  ¬ ok (answer 500) →
  effect id x (sees sv (tail (network sv))) ok (Some (do_route req (sees sv (tail (network sv)))).1)
    (do_route req (sees sv (tail (network sv)))).2 →
  let (r, sv') := do_http req sv in effect id x sv ok r sv'.
Proof.
  move=> H500 He. apply (serve_http_law req sv (effect id x sv ok)).
  - by apply effect_none.
  - apply effect_none; [done|]. by move=> ? [<-].
  - exact (effect_lost _ _ _ _ _ _ He).
  - exact He.
Qed.

Definition ok_response (resp : Response) : Prop := ok_status (StatusCode resp) = true.
Definition gone_response (resp : Response) : Prop := ok_status (StatusCode resp) = true ∨ StatusCode resp = 404.

Lemma put_effect id data sv : served_id id →
  let req := BrokerStore.put_request (raw_url S id) data in
  effect id (Some data) sv ok_response (Some (do_route req sv).1) (do_route req sv).2.
Proof.
  move=> Hid req. destruct (route_put id data sv Hid) as [(E & Ho & _)|[E Hne]]; rw -/req in E *.
  - rw E. apply effect_none; [done|]. move=> resp [<-]. by rw /ok_response Ho.
  - rw E /raw_put. pose proof (write_bytes_ok id data sv Hne) as Hw.
    destruct (write_bytes id data None sv) as [[] sv'].
    + destruct Hw as [H1 H2]. split_and!; [done|by right|done].
    + destruct Hw as [_ ->]. apply effect_none; [done|]. by move=> resp [<-].
Qed.

Lemma delete_effect id sv : served_id id →
  let req := ask "DELETE" (BrokerStore.objectURL s id) in
  effect id None sv gone_response (Some (do_route req sv).1) (do_route req sv).2.
Proof.
  move=> Hid req. destruct (route_delete id sv Hid) as [(E & Ho & Hm)|E]; rw -/req in E *.
  - rw -/req in Ho Hm. rw E. split_and!; [done|by left|]. rw /gone_response => resp [<-] [?|?]; [congruence|by apply Hm].
  - rw E /delete_object. pose proof (object_path_cases id sv) as Hp.
    destruct (object_path id sv) as [|b| |]; simpl.
    + split_and!; [done|by left|]. move=> _ _ _. apply Hp.
    + destruct Hp as (_ & Hf & _). destruct sv as [m n].
      assert (sfile (mkService (delete id m) n) id = None) as Hn by by rw /sfile Hf stored_delete decide_True.
      split_and!; [|by right|done]. move=> k Hk. apply sfile_other. by rw lookup_delete_ne //; apply not_eq_sym.
    + apply effect_none; [done|]. move=> resp [<-] [?|?]; done.
    + apply effect_none; [done|]. move=> resp [<-] [?|?]; done.
Qed.

(** What a read may answer. *)
Definition read_answer (id : string) (range : option string) (sv : service) (resp : Response) : Prop :=
  (StatusCode resp = 404 → sfile sv id = None) ∧
  (ok_status (StatusCode resp) = true → ∃ data, sfile sv id = Some data ∧
     ∀ b, RespBody resp = Some b → (range = None → b = data) ∧
     ∀ off n, range = Some (BrokerStore.range_header off n) → 0 <= off → 0 < n → off + n <= len data →
       b = slice data off n).

Lemma raw_get_answer id range sv :
  read_answer id range sv (raw_get id (BrokerStore.get_request (raw_url S id) range) sv).
Proof.
  rw /read_answer /raw_get. pose proof (object_path_cases id sv) as Hp.
  destruct (object_path id sv) as [|data| |]; [by destruct Hp| |done|done].
  destruct Hp as (E & _ & Hl). destruct (serve_range_cases data (default ""%string range) Hl) as [H1 H2].
  assert (headers_get (headers (BrokerStore.get_request (raw_url S id) range)) "range" = range) as -> by by destruct range.
  split; [done|]. move=> Ho. exists data. split; [done|]. move=> b Hb. destruct (H2 Ho b Hb) as [Hw Hr].
  split; [move=> E1; apply Hw; by rw E1|]. move=> off n E1. apply Hr. by rw E1.
Qed.

Lemma get_answer id range sv : served_id id →
  read_answer id range sv (do_route (BrokerStore.get_request (raw_url S id) range) sv).1.
Proof.
  move=> Hid. destruct (route_get id range sv Hid) as [(_ & Ho & Hm)|E].
  - split; [done|]. by rw Ho.
  - rw E. apply raw_get_answer.
Qed.

Lemma serve_get id range w : served_id id →
  let (r, w') := do_http (BrokerStore.get_request (raw_url S id) range) w in
  (∀ k, sfile w' k = sfile w k) ∧ ∀ resp, r = Some resp → read_answer id range w resp.
Proof.
  move=> Hid.
  apply (serve_http_law (BrokerStore.get_request (raw_url S id) range) w
    (fun r w' => (∀ k, sfile w' k = sfile w k) ∧ ∀ resp, r = Some resp → read_answer id range w resp));
    simpl; rw ?route_reads //.
  - by split; [|move=> resp [<-]].
  - split; [done|]. move=> resp [<-]. exact (get_answer id range (sees w (tail (network w))) Hid).
Qed.

Lemma list_answer sv resp b ids k :
  resp = (do_route (ask "GET" (BrokerStore.baseURL s +:+ "/objects")) sv).1 →
  ok_status (StatusCode resp) = true → RespBody resp = Some b → ids_of_json b = Some ids →
  k ∈ ids ↔ is_Some (sfile sv k).
Proof.
  rw base (route_at "GET" "/objects" ["objects"%string] "index.cbor") //; [|by right].
  rw /= /run_route /=. destruct (require_auth _ _); [|by move=> ->]. move=> ->.
  rw /list_objects. cbn [StatusCode RespBody fst]. move=> _ [<-]. rw ids_of_json_ids => -[<-].
  rw list_elem_of_filter. split; [by move=> [? _]|]. move=> Hk. split; [done|].
  destruct Hk as [x Hx]. revert Hx. rw /sfile /stored. destruct (file_name k); [|done].
  destruct (sfiles sv !! k) as [y|] eqn:E; [|done]. move=> _.
  apply list_elem_of_fmap. exists (k, y). split; [done|]. by apply elem_of_map_to_list.
Qed.

Lemma served_not_dot id : served_id id → is_dot id = false.
Proof.
  move=> [Hc| ->]; [|done]. rw /is_dot. destruct (String.eqb_spec id ".") as [->|]; [done|].
  by destruct (String.eqb_spec id "..") as [->|].
Qed.

Lemma reference_broker_ok : BrokerLaws (reference_broker S P) s sfile presigned presigned.
Proof.
  split.
  - done.
  - move=> method url w k Hd Hp. simpl. set (req := mkRequest _ _ _ _ _).
    pose proof (serve_http_law req w (fun _ sv => sfile sv k = sfile w k)) as HL. simpl in HL.
    rw route_reads // in HL. specialize (HL eq_refl eq_refl eq_refl eq_refl). by destruct (do_http req w).
  - move=> id w resp b url Hid /= /asked [->|->]; [done|].
    destruct (route_upload id (sees w (tail (network w))) Hid) as [(_ & Ho & _)|E]; [by rw Ho|].
    rw E /upload_url. cbn [StatusCode RespBody fst]. move=> _ [<-]. rw url_of_json_url. by move=> [<-].
  - move=> id w resp Hid /= /asked [->|->]; [done|].
    destruct (route_download id (sees w (tail (network w))) Hid) as [(_ & Ho & Hm)|E]; [by rw Ho|].
    rw E /download_url. pose proof (object_path_cases id (sees w (tail (network w)))) as Hp.
    destruct (object_path id _) as [|data| |]; [by destruct Hp| | |done]; (split; [done|]);
      cbn [StatusCode RespBody fst]; move=> b url _ [<-]; rw url_of_json_url; by move=> [<-].
  - move=> url id data w Hid ->. apply (serve_effect _ id (Some data) w ok_response); [done|]. by apply put_effect.
  - move=> url id range w Hid ->. by apply serve_get.
  - move=> id w Hid. apply (serve_effect _ id None w gone_response); [by move=> [?|?]|]. by apply delete_effect.
  - move=> w resp b ids /= /asked [->|->]; [done|]. move=> Ho Hb Hi k.
    exact (list_answer (sees w (tail (network w))) _ b ids k eq_refl Ho Hb Hi).
  - move=> id w resp Hid /= /asked [->|->]; [done|].
    destruct (route_head id (sees w (tail (network w))) Hid) as [(_ & Ho & _)|E]; [by rw Ho|].
    rw E /head_object. pose proof (object_path_cases id (sees w (tail (network w)))) as Hp.
    destruct (object_path id _) as [|data| |] eqn:Eo; [done| | |done].
    + destruct Hp as (Hf & _). move=> _ _. by exists data.
    + revert Eo. rw /object_path served_not_dot //. destruct (too_long id); [done|]. by destruct (sfile _ id).
Qed.

(** C13: The reference broker serves what the broker store relies on, as long as
    the broker's disk does not fail in the middle of writing an object. Whatever
    requests and responses the network loses, a presigned URL that the broker
    hands out reads and writes the object it was asked for, ranges included,
    and success is answered only when the effect has taken place. (What a disk
    failure does is [upload_not_atomic].) *)
Theorem reference_broker_laws : BrokerLaws (reference_broker S P) s sfile presigned presigned.
Proof. exact reference_broker_ok. Qed.
End laws.

(** ** Who may do what *)

Section access.
Variable S : settings.
Variable P : platform.

(** A write changes no other file, and not the directory. *)
Lemma write_bytes_changes id data fails sv k :
  sfiles (write_bytes id data fails sv).2 !! k ≠ sfiles sv !! k → k = id ∧ is_dot k = false.
Proof.
  rw /write_bytes. destruct (object_path id sv) eqn:E; [| |done|done];
    (assert (is_dot id = false) as Hd
       by (revert E; rw /object_path; destruct (too_long id); [done|]; by destruct (is_dot id)));
    (assert (∀ b, (<[id := b]> (sfiles sv)) !! k ≠ sfiles sv !! k → k = id ∧ is_dot k = false) as Hk
       by (move=> b; destruct (decide (k = id)) as [->|]; [done|by rw lookup_insert_ne //; apply not_eq_sym]));
    destruct fails as [n|]; simpl; [apply Hk| |apply Hk|]; destruct (_ <? _); simpl; [apply Hk|done|apply Hk|done].
Qed.

Lemma call_changes h id req sv k :
  sfiles (call S P h id req sv).2 !! k ≠ sfiles sv !! k →
  k = id ∧ is_dot k = false ∧ (h = Raw_put ∨ h = Delete_object).
Proof.
  destruct h; simpl; [done..| |done|done| |done].
  - rw /delete_object. destruct (object_path id sv) eqn:E; [done| |done|done]. simpl.
    destruct (decide (k = id)) as [->|]; [|by rw lookup_delete_ne //; apply not_eq_sym].
    move=> _. split_and!; [done| |by right]. revert E. rw /object_path.
    destruct (too_long id); [done|]. by destruct (is_dot id).
  - rw /raw_put. pose proof (write_bytes_changes id (default [] (Body req)) (write_fails P id (default [] (Body req)) sv) sv k) as Hw.
    destruct (write_bytes _ _ _ _) as [ok sv']. move=> /Hw [? ?]. split_and!; [done..|by left].
Qed.

(** What the table of routes says of a request that matches. *)
Definition route_facts (method : string) (parts : list string) (id : option string) (r : api_route) : Prop :=
  (id = None → endpoint r = List_objects) ∧
  (endpoint r = Raw_put → method = "PUT"%string ∧ ∀ i, id = Some i → parts = ["raw"%string; i]) ∧
  (endpoint r = Delete_object → method = "DELETE"%string ∧ auth r = true ∧ ∀ i, id = Some i → parts = ["objects"%string; i]) ∧
  (head parts = Some "objects"%string → auth r = true).

Lemma found_route method parts r id : find_route routes method parts = Some (r, id) → route_facts method parts id r.
Proof.
  move=> /find_route_in [Hr [Hm Hp]]. revert Hm Hp.
  apply (routes_cases r (fun r => methods r = method → match_path (path r) parts None = Some id →
    route_facts method parts id r) Hr).
  rw /routes. repeat (apply Forall_cons; split); [..|by apply Forall_nil]; move=> /= <- Hp; rw /route_facts /=;
    destruct parts as [|p [|q [|t [|u l]]]]; simplify_eq/=; repeat (case_match; simplify_eq/=);
    repeat match goal with H : String.eqb _ _ = true |- _ => apply String.eqb_eq in H; subst end;
    split_and!; try done; intros; simplify_eq/=; try done; split_and!; try done; intros; by simplify_eq/=.
Qed.

(** C14: Every request of a client is confined to the store directory and to what
    it may do: a request changes at most one object, whose id passes
    [validate_id] and is not the directory or its parent; and it is a PUT to the
    presigned URL of that object, which is [/raw/<id>], or a DELETE of
    [/objects/<id>] by a client that sent the right token. A request for any
    [/objects] route without that token is answered 401 and changes nothing. *)
Theorem broker_confined req sv :
  (∀ k, sfiles (route S P req sv).2 !! k ≠ sfiles sv !! k →
     validate_id k = true ∧ is_dot k = false ∧
     (∀ j, sfiles (route S P req sv).2 !! j ≠ sfiles sv !! j → j = k) ∧
     ∃ rest, strip_prefix (BASE_URL S) (URL req) = Some rest ∧
     (Method req = "PUT"%string ∧ split_slash (url_path rest) = ["";  "raw"; k]%string ∨
      Method req = "DELETE"%string ∧ split_slash (url_path rest) = [""; "objects"; k]%string ∧ require_auth S req = true)) ∧
  (∀ rest parts r id, strip_prefix (BASE_URL S) (URL req) = Some rest →
     split_slash (url_path rest) = ""%string :: "objects"%string :: parts →
     find_route routes (Method req) ("objects"%string :: parts) = Some (r, id) → require_auth S req = false →
     route S P req sv = (answer 401, sv)).
Proof.
  split.
  - rw /route. destruct (strip_prefix _ _) as [rest|]; [|done].
    destruct (split_slash (url_path rest)) as [|[|c p] parts] eqn:Es; [done| |done].
    destruct (find_route routes (Method req) parts) as [[r id]|] eqn:E; [|done].
    pose proof (found_route _ _ _ _ E) as (Hn & Hp & Hd & _). rw /run_route.
    destruct (auth r && negb (require_auth S req)) eqn:Ea; [done|]. intros k Hk.
    assert (∃ i, id = Some i ∧ validate_id i = true ∧ sfiles (call S P (endpoint r) i req sv).2 !! k ≠ sfiles sv !! k)
      as (i & -> & Hv & Hc).
    { destruct id as [i|]; [destruct (validate_id i) eqn:Hv; [by exists i|done]|]. by rw Hn in Hk. }
    rw Hv in Hk *. destruct (call_changes _ _ _ _ _ Hc) as (-> & Hdot & Hw). split_and!; [done..| |].
    + intros j Hj. by destruct (call_changes _ _ _ _ _ Hj) as [-> _].
    + exists rest. split; [done|]. destruct Hw as [Hw|Hw].
      * left. destruct (Hp Hw) as [? Hi]. by rw Es (Hi i eq_refl).
      * right. destruct (Hd Hw) as (? & Ha & Hi). rw Es (Hi i eq_refl). split_and!; [done..|].
        rw Ha in Ea. by destruct (require_auth S req).
  - intros rest parts r id E1 E2 E3 Ha. rw /route E1 E2 E3 /run_route Ha.
    destruct (found_route _ _ _ _ E3) as (_ & _ & _ & Hauth). by rw Hauth.
Qed.

(** An upload is not atomic: the file is emptied before the bytes are written, in
    place. When the disk fails after some of them, the object that was there is
    gone and its beginning is in its place, although the client is told that its
    upload has failed. *)
Theorem upload_not_atomic id data n sv :
  served_id id → file_name id = true → write_fails P id data sv = Some n → len (take n data) < 2 ^ 63 →
  let (resp, sv') := route S P (BrokerStore.put_request (raw_url S id) data) sv in
  StatusCode resp = 500 ∧ sfile sv' id = Some (take n data).
Proof.
  intros Hid Hf Hw Hl. destruct (served_whole "raw" id Hid eq_refl) as [H1 H2].
  rw /BrokerStore.put_request /raw_url (route_at S P "PUT" _ _ id None None (Some data) sv Hid H1 H2).
  assert (id ≠ ""%string ∧ is_dot id = false ∧ too_long id = false) as (Hne & Hd & Ht).
  { revert Hf. rw /file_name. destruct (String.eqb_spec id ""), (is_dot id), (too_long id); done. }
  rw /find_route /= eqb_nonempty //=. rw /run_route /= (safe_valid id (served_safe id Hid) Hne) Hw /raw_put /write_bytes.
  assert (object_path id sv = Missing ∨ ∃ b, object_path id sv = IsFile b) as Ho
    by (rw /object_path Ht Hd; destruct (sfile sv id); eauto).
  by destruct Ho as [->|[b ->]]; (split; [done|]); rw /sfile Hf stored_insert // decide_True.
Qed.
End access.

(** ** A store on the reference broker *)

(** Started without any environment variable. *)
Definition demo_settings : settings := load_settings (fun _ => None).

Definition demo_platform : platform :=
  mkPlatform (fun req =>
      if negb (String.eqb (Method req) "GET") then answer 405
      else match strip_prefix (BASE_URL demo_settings) (URL req) with
           | Some rest =>
               match split_slash (url_path rest) with
               | EmptyString :: parts => answer (if decide (parts ∈ docs_pages) then 200 else 404)
               | _ => answer 404
               end
           | None => answer 404
           end) 4096 (fun _ _ _ => None).

#[global] Instance demo_platform_laws : PlatformLaws demo_settings demo_platform.
Proof.
  split; [|done]. move=> req rest parts H1 H2 H3. cbn [unmatched demo_platform]. rw H1 H2. destruct (String.eqb (Method req) "GET"); [|done]. simpl.
  by destruct (decide (parts ∈ docs_pages)).
Qed.

Definition demo_broker : BrokerStore.t :=
  BrokerStore.NewBrokerStore "http://localhost:8000/" "X-SESSION-API-KEY" "changeThis".
#[local] Instance demo_http : HttpClient service := reference_broker demo_settings demo_platform.

Lemma reference_broker_laws_witness :
  BrokerLaws demo_http demo_broker sfile (presigned demo_settings) (presigned demo_settings).
Proof. exact (reference_broker_laws demo_settings demo_platform demo_broker eq_refl). Defined.

(** A network that loses a request and two responses on the way. *)
Definition shaky : service := mkService ∅ [LostRequest; Delivered; LostResponse; Delivered; ServerError].

Lemma shaky_empty id : sfile shaky id = None.
Proof. rw /sfile /stored lookup_empty. by destruct (file_name id). Qed.

Lemma BrokerStore_laws_witness :
  match Put (Store := BrokerStore.store demo_broker) "chunk-00000000" [Byte.x61] shaky with
  | Ret _ sv => sfile sv "chunk-00000000" = Some [Byte.x61]
  | _ => False
  end.
Proof.
  assert (BrokerLaws demo_http demo_broker sfile (presigned demo_settings) (presigned demo_settings)) as L
    by exact (reference_broker_ok demo_settings demo_platform demo_broker eq_refl).
  assert (0 < BrokerStore.maxAttempts demo_broker)%nat as Ha by (simpl; rw /defaultMaxAttempts; lia).
  destruct (BrokerStore_laws demo_broker sfile _ _ (L := L) Ha) as [HS _].
  pose proof (Put_law (StoreLaws := HS) "chunk-00000000" [Byte.x61] shaky eq_refl) as H.
  assert (match Put (Store := BrokerStore.store demo_broker) "chunk-00000000" [Byte.x61] shaky with
    | Ret _ _ => true | _ => false end = true) as Hr by (vm_compute; reflexivity).
  destruct (Put (Store := BrokerStore.store demo_broker) "chunk-00000000" [Byte.x61] shaky) as [u sv|e sv|];
    [|discriminate..].
  exact (H "chunk-00000000" eq_refl).
Defined.

(** A deletion with the token, and the same without it. *)
Definition one_object : service := mkService {[ "chunk-00000000"%string := [Byte.x61] ]} [].
Definition delete_one (token : string) : Request :=
  mkRequest "DELETE" "http://localhost:8000/objects/chunk-0000000%30" (Some ("X-Session-API-Key"%string, token)) None None.

Lemma broker_confined_witness :
  validate_id "chunk-00000000" = true ∧
  sfile (route demo_settings demo_platform (delete_one "changeThis") one_object).2 "chunk-00000000" = None ∧
  route demo_settings demo_platform (delete_one "guess") one_object = (answer 401, one_object).
Proof.
  destruct (broker_confined demo_settings demo_platform (delete_one "changeThis") one_object) as [H1 _].
  destruct (broker_confined demo_settings demo_platform (delete_one "guess") one_object) as [_ H2].
  split; [|split].
  - apply (H1 "chunk-00000000"%string). vm_compute. discriminate.
  - vm_compute. reflexivity.
  - apply (H2 _ _ _ _ eq_refl eq_refl eq_refl eq_refl).
Defined.

(** ** What the service lets through *)

(** [validate_id] accepts ["."] and [".."], which name the store directory
    and its parent, and an id that ends in a newline. A [HEAD] of [".."] is
    answered 200, with the size of the parent directory, and a presigned URL
    is handed out for it; the deletion and the transfer of bytes fail with
    500. *)
Theorem validate_id_accepts_dots sv :
  validate_id ".." = true ∧ validate_id "." = true ∧
  validate_id ("chunk-00000000" +:+ String newline "") = true ∧
  head_object demo_platform ".." sv = mkResponse 200 4096 (Some []) ∧
  StatusCode (download_url demo_settings ".." sv) = 200 ∧
  delete_object ".." sv = (answer 500, sv) ∧
  ∀ data, raw_put ".." data None sv = (answer 500, sv).
Proof. split_and!; done. Qed.

(** A disk that fills up after one byte. *)
Lemma upload_not_atomic_witness :
  let full := mkPlatform (unmatched demo_platform) 4096 (fun _ _ _ => Some 1%nat) in
  ∃ sv, sfile sv brokerIndexKey = Some [Byte.x61; Byte.x62] ∧
    let (resp, sv') := route demo_settings full (BrokerStore.put_request (raw_url demo_settings brokerIndexKey) [Byte.x63; Byte.x64]) sv in
    StatusCode resp = 500 ∧ sfile sv' brokerIndexKey = Some [Byte.x63].
Proof.
  intros full. exists (mkService {[ brokerIndexKey := [Byte.x61; Byte.x62] ]} []). split; [vm_compute; reflexivity|].
  pose proof (upload_not_atomic demo_settings full brokerIndexKey [Byte.x63; Byte.x64] 1
    (mkService {[ brokerIndexKey := [Byte.x61; Byte.x62] ]} []) (or_intror eq_refl) eq_refl eq_refl eq_refl) as H.
  change (take 1 [Byte.x63; Byte.x64]) with [Byte.x63] in H. exact H.
Defined.
