(* ===== verification/S3.v ===== *)
(** The S3 store (src/internal/chunks/s3.go).

    The AWS SDK is a parameter: [S3Client] has the five calls the store makes,
    in the SDK's terms. The client that [NewS3Store] builds is represented by
    the options it passes to the SDK. *)
From S2P Require Import Prelude Decimal Store Broker.
#[local] Open Scope Z_scope.

(** What the store looks at in an error of the SDK. *)
Record S3Err := mkS3Err { isNoSuchKey : bool; HTTPStatusCode : option Z }.

(** [ListObjectsV2Output]. *)
Record Page := mkPage {
  Contents : list (option string);
  IsTruncated : option bool;
  NextContinuationToken : option string;
}.

Class S3Client (W : Type) := {
  PutObject : string → string → bytes → W → outcome S3Err W unit;
  (** The body is [None] if reading it fails. *)
  GetObject : string → string → option string → W → outcome S3Err W (option bytes);
  DeleteObject : string → string → W → outcome S3Err W unit;
  ListObjectsV2 : string → string → option string → W → outcome S3Err W Page;
  HeadObject : string → string → W → outcome S3Err W (option Z);
}.

Definition isS3NotFound (e : S3Err) : bool :=
  isNoSuchKey e || match HTTPStatusCode e with Some c => c =? 404 | None => false end.

(** [strings.TrimPrefix]. *)
Definition TrimPrefix (s prefix : string) : string := default s (strip_prefix prefix s).

Definition s3IndexName : string := "index.cbor".

Module S3Store.
Record t := mk { bucket : string; prefix : string }.

(** What [NewS3Store] asks of the SDK: the options of [LoadDefaultConfig] and
    of [NewFromConfig]. *)
Record ClientOptions := mkOptions {
  WithRegion : string;
  StaticCredentials : option (string * string);
  BaseEndpoint : option string;
  UsePathStyle : bool;
}.

(** [NewS3Store]; [load_config] says whether the SDK accepts the options. *)
Definition NewS3Store (load_config : string → option (string * string) → bool)
    (bucket endpoint region accessKey secretKey prefix : string) (forcePathStyle : bool)
    : option (ClientOptions * t) :=
  let creds := if decide (accessKey ≠ "" ∧ secretKey ≠ "") then Some (accessKey, secretKey) else None in
  if load_config region creds then
    Some (mkOptions region creds (if decide (endpoint = "") then None else Some endpoint) forcePathStyle,
          mk bucket prefix)
  else None.

Section operations.
Context {W : Type} {C : S3Client W}.
Variable s : t.
(** A bound on the pages of a listing, for the loop of [List]. *)
Variable max_pages : W → nat.

Definition chunkKey (id : string) : string := (prefix s +:+ id)%string.

(** An SDK call whose error is wrapped. *)
Definition wrap {A} (m : outcome S3Err W A) : outcome StoreErr W A :=
  match m with Ret a w => Ret a w | Fail _ w => Fail ErrStore w | Crash => Crash end.

Definition Put (id : string) (data : bytes) (w : W) : outcome StoreErr W unit :=
  wrap (PutObject (bucket s) (chunkKey id) data w).

Definition read_body (b : option bytes) (w : W) : outcome StoreErr W bytes :=
  match b with Some b => Ret b w | None => Fail ErrStore w end.

Definition GetRange (id : string) (offset length : Z) (w : W) : outcome StoreErr W bytes :=
  let! body, w := wrap (GetObject (bucket s) (chunkKey id) (Some (BrokerStore.range_header offset length)) w) in
  read_body body w.

Definition Delete (id : string) (w : W) : outcome StoreErr W unit :=
  wrap (DeleteObject (bucket s) (chunkKey id) w).

(** The ids of one page. *)
Definition page_ids (contents : list (option string)) : list string :=
  filter (fun id => id ≠ s3IndexName) (omap (fun key => k ← key; Some (TrimPrefix k (prefix s))) contents).

(** The loop; without fuel it has no result. *)
Fixpoint list_loop (fuel : nat) (contToken : option string) (ids : list string) (w : W)
    : outcome StoreErr W (list string) :=
  match fuel with
  | O => Crash
  | S fuel =>
      let! resp, w := wrap (ListObjectsV2 (bucket s) (prefix s) contToken w) in
      let ids := ids ++ page_ids (Contents resp) in
      if default false (IsTruncated resp) then list_loop fuel (NextContinuationToken resp) ids w
      else Ret ids w
  end.

Definition List (w : W) : outcome StoreErr W (list string) := list_loop (max_pages w) None [] w.

Definition Size (id : string) (w : W) : outcome StoreErr W Z :=
  let! length, w := wrap (HeadObject (bucket s) (chunkKey id) w) in Ret (default 0 length) w.

Definition PutRaw (key : string) (data : bytes) (w : W) : outcome StoreErr W unit :=
  wrap (PutObject (bucket s) key data w).

Definition GetRaw (key : string) (w : W) : outcome StoreErr W bytes :=
  match GetObject (bucket s) key None w with
  | Ret body w => read_body body w
  | Fail e w => Fail (if isS3NotFound e then ErrNotFound else ErrStore) w
  | Crash => Crash
  end.

Definition IndexKey : string := (prefix s +:+ s3IndexName)%string.

Definition store : Store W :=
  {| Store.Put := Put; Store.GetRange := GetRange; Store.Delete := Delete; Store.List := List; Store.Size := Size |}.
Definition object_store : @ObjectStore W store :=
  {| Store.PutRaw := PutRaw; Store.GetRaw := GetRaw; Store.IndexKey := IndexKey |}.
End operations.
End S3Store.
