(* ===== verification/S3Props.v ===== *)
(** The S3 store keeps the laws of a store over a bucket that behaves as S3
    documents it, and its listing loop ends. *)
From S2P Require Import Prelude Decimal Store Broker S3.
#[local] Open Scope Z_scope.

(** What the calls of the SDK do: [objs w key] is the object under [key] of
    the bucket, [listing w token] the keys that a listing has still to give
    after [token] (S3 lists in key order; the token stands for the position),
    [pages w token] how many pages that takes at most. *)
Class S3Laws {W} (C : S3Client W) (s : S3Store.t) (objs : W → string → option bytes)
    (listing : W → option string → list string) (pages : W → option string → nat) : Prop := {
  PutObject_law key data w :
    match PutObject (S3Store.bucket s) key data w with
    | Ret _ w' => (∀ k, k ≠ key → objs w' k = objs w k) ∧ objs w' key = Some data
    | Fail _ w' => (∀ k, k ≠ key → objs w' k = objs w k) ∧ (objs w' key = objs w key ∨ objs w' key = Some data)
    | Crash => False
    end;
  GetObject_law key range w :
    match GetObject (S3Store.bucket s) key range w with
    | Ret body w' => (∀ k, objs w' k = objs w k) ∧ ∃ data, objs w key = Some data ∧
        ∀ b, body = Some b → (range = None → b = data) ∧
          ∀ off n, range = Some (BrokerStore.range_header off n) → 0 <= off → 0 < n → off + n <= len data →
            b = slice data off n
    | Fail e w' => (∀ k, objs w' k = objs w k) ∧ (isS3NotFound e = true → objs w key = None)
    | Crash => False
    end;
  DeleteObject_law key w :
    match DeleteObject (S3Store.bucket s) key w with
    | Ret _ w' => (∀ k, k ≠ key → objs w' k = objs w k) ∧ objs w' key = None
    | Fail _ w' => (∀ k, k ≠ key → objs w' k = objs w k) ∧ (objs w' key = objs w key ∨ objs w' key = None)
    | Crash => False
    end;
  HeadObject_law key w :
    match HeadObject (S3Store.bucket s) key w with
    | Ret n w' => (∀ k, objs w' k = objs w k) ∧ ∃ data, objs w key = Some data ∧ n = Some (len data)
    | Fail _ w' => ∀ k, objs w' k = objs w k
    | Crash => False
    end;
  ListObjects_law token w :
    match ListObjectsV2 (S3Store.bucket s) (S3Store.prefix s) token w with
    | Ret page w' => (∀ k, objs w' k = objs w k) ∧
        if default false (IsTruncated page) then
          listing w token = omap id (Contents page) ++ listing w' (NextContinuationToken page) ∧
          (pages w' (NextContinuationToken page) < pages w token)%nat
        else listing w token = omap id (Contents page)
    | Fail _ w' => ∀ k, objs w' k = objs w k
    | Crash => False
    end;
  listing_law w key :
    key ∈ listing w None ↔ is_Some (strip_prefix (S3Store.prefix s) key) ∧ is_Some (objs w key);
}.

Section laws.
Context {W : Type} {C : S3Client W} (s : S3Store.t) (objs : W → string → option bytes).
Context (listing : W → option string → list string) (pages : W → option string → nat).
Context {L : S3Laws C s objs listing pages} (max_pages : W → nat).
Hypothesis enough_pages : ∀ w, (pages w None < max_pages w)%nat.

(** The objects of this instance. *)
Definition chunk_obj (w : W) (id : string) : option bytes := objs w (S3Store.chunkKey s id).
Definition index_obj (w : W) : option bytes := objs w (S3Store.IndexKey s).

Lemma prefix_inj a b : (S3Store.prefix s +:+ a = S3Store.prefix s +:+ b)%string → a = b.
Proof.
  move=> E. apply (f_equal (strip_prefix (S3Store.prefix s))) in E. rw !strip_prefix_app in E. by injection E.
Qed.

Lemma chunk_key_ne id : chunk_name id = true → S3Store.chunkKey s id ≠ S3Store.IndexKey s.
Proof. move=> Hid /prefix_inj E. by rw E in Hid. Qed.

Lemma chunk_key_inj a b : S3Store.chunkKey s a = S3Store.chunkKey s b → a = b.
Proof. apply prefix_inj. Qed.

(** The ids of a list of keys. *)
Definition ids_of (keys : list string) : list string :=
  filter (fun id => id ≠ s3IndexName) ((fun k => TrimPrefix k (S3Store.prefix s)) <$> keys).

Lemma page_ids_keys contents : S3Store.page_ids s contents = ids_of (omap id contents).
Proof.
  rw /S3Store.page_ids /ids_of. f_equal. elim: contents => [//|[k|] l IH]; [|exact IH]. exact (f_equal (cons _) IH).
Qed.

Lemma ids_of_app a b : ids_of (a ++ b) = ids_of a ++ ids_of b.
Proof. by rw /ids_of fmap_app filter_app. Qed.

(** The loop gives everything that is left, and it ends. *)
Lemma list_loop_cases fuel : ∀ token ids w,
  (pages w token < fuel)%nat →
  match S3Store.list_loop s fuel token ids w with
  | Ret all w' => (∀ k, objs w' k = objs w k) ∧ all = ids ++ ids_of (listing w token)
  | Fail _ w' => ∀ k, objs w' k = objs w k
  | Crash => False
  end.
Proof.
  elim: fuel => [|fuel IH] token ids w Hp; [lia|]. simpl.
  pose proof (ListObjects_law token w) as HL.
  destruct (ListObjectsV2 _ _ token w) as [page w1|e w1|] => //=.
  destruct HL as [Ho Hl]. rw page_ids_keys. destruct (default false (IsTruncated page)).
  - destruct Hl as [El Hlt]. specialize (IH (NextContinuationToken page) (ids ++ ids_of (omap id (Contents page))) w1 ltac:(lia)).
    revert IH. destruct (S3Store.list_loop s fuel _ _ w1) as [all w2|e w2|] => //.
    + move=> [Ho2 ->]. split; [move=> k; by rw Ho2|]. by rw El ids_of_app app_assoc.
    + move=> Ho2 k. by rw Ho2.
  - split; [done|]. by rw Hl.
Qed.

Lemma elem_of_ids_of w id : chunk_name id = true → id ∈ ids_of (listing w None) ↔ is_Some (chunk_obj w id).
Proof.
  move=> Hid. rw /ids_of list_elem_of_filter list_elem_of_fmap. split.
  - move=> [_ [k [E Hk]]]. apply listing_law in Hk as [[r Hr] Ho].
    rw /TrimPrefix Hr /= in E. subst r. by rw /chunk_obj /S3Store.chunkKey - (strip_prefix_inv _ _ _ Hr).
  - move=> Ho. split; [by move=> E; rw E in Hid|]. exists (S3Store.chunkKey s id). split.
    + by rw /TrimPrefix strip_prefix_app.
    + apply listing_law. rw strip_prefix_app. by split.
Qed.

Lemma S3Store_store : StoreLaws (S3Store.store s max_pages) chunk_obj.
Proof.
  split; simpl.
  - move=> id data w Hid. rw /S3Store.Put. pose proof (PutObject_law (S3Store.chunkKey s id) data w) as HP.
    destruct (PutObject _ _ data w) => //=; destruct HP as [Hk Hx].
    + move=> k _. case_decide; [by subst|]. apply Hk. by move=> /chunk_key_inj.
    + split; [|done]. move=> k _ Hne. apply Hk. by move=> /chunk_key_inj.
  - move=> id off n w _ Ho Hn. rw /S3Store.GetRange.
    pose proof (GetObject_law (S3Store.chunkKey s id) (Some (BrokerStore.range_header off n)) w) as HG.
    destruct (GetObject _ _ _ w) as [body w'|e w'|] => //=; [|by move=> k _; apply HG].
    destruct HG as (Hs & data & Hd & Hb). rw /S3Store.read_body. destruct body as [b|]; [|by move=> k _; apply Hs].
    split; [by move=> k _; apply Hs|]. exists data. split; [done|]. destruct (Hb b eq_refl) as [_ Hr]. auto.
  - move=> id w Hid. rw /S3Store.Delete. pose proof (DeleteObject_law (S3Store.chunkKey s id) w) as HP.
    destruct (DeleteObject _ _ w) => //=; destruct HP as [Hk Hx].
    + move=> k _. case_decide; [by subst|]. apply Hk. by move=> /chunk_key_inj.
    + split; [|done]. move=> k _ Hne. apply Hk. by move=> /chunk_key_inj.
  - move=> w. rw /S3Store.List. pose proof (list_loop_cases (max_pages w) None [] w (enough_pages w)) as HL.
    destruct (S3Store.list_loop _ _ _ _ w) as [ids w'|e w'|] => //.
    + destruct HL as [Ho ->]. split; [by move=> k _; apply Ho|]. move=> k. by apply elem_of_ids_of.
    + move=> k _. apply HL.
  - move=> id w _. rw /S3Store.Size. pose proof (HeadObject_law (S3Store.chunkKey s id) w) as HH.
    destruct (HeadObject _ _ w) as [n w'|e w'|] => //=; [|by move=> k _; apply HH].
    destruct HH as (Hs & data & Hd & ->). split; [by move=> k _; apply Hs|]. by exists data.
Qed.

Lemma S3Store_objects :
  ObjectLaws (S := S3Store.store s max_pages) (S3Store.object_store s max_pages) chunk_obj index_obj.
Proof.
  split; simpl.
  - move=> id data w Hid. rw /S3Store.Put. pose proof (PutObject_law (S3Store.chunkKey s id) data w) as HP.
    destruct (PutObject _ _ data w) => //=; destruct HP as [Hk _]; apply Hk; by apply not_eq_sym, chunk_key_ne.
  - move=> id off n w Hid. rw /S3Store.GetRange.
    pose proof (GetObject_law (S3Store.chunkKey s id) (Some (BrokerStore.range_header off n)) w) as HG.
    destruct (GetObject _ _ _ w) as [body w'|e w'|] => //=; destruct HG as [Hs _]; [|apply Hs].
    rw /S3Store.read_body. destruct body; apply Hs.
  - move=> id w Hid. rw /S3Store.Delete. pose proof (DeleteObject_law (S3Store.chunkKey s id) w) as HP.
    destruct (DeleteObject _ _ w) => //=; destruct HP as [Hk _]; apply Hk; by apply not_eq_sym, chunk_key_ne.
  - move=> id w Hid. rw /S3Store.Size. pose proof (HeadObject_law (S3Store.chunkKey s id) w) as HH.
    destruct (HeadObject _ _ w) as [n w'|e w'|] => //=; [destruct HH as [Hs _]; apply Hs|apply HH].
  - move=> w. rw /S3Store.List. pose proof (list_loop_cases (max_pages w) None [] w (enough_pages w)) as HL.
    destruct (S3Store.list_loop _ _ _ _ w) as [ids w'|e w'|] => //; [destruct HL as [HL _]|]; apply HL.
  - move=> data w. rw /S3Store.PutRaw. pose proof (PutObject_law (S3Store.IndexKey s) data w) as HP.
    destruct (PutObject _ _ data w) => //=; destruct HP as [Hk Hx];
      (split; [done|]); move=> k /chunk_key_ne; apply Hk.
  - move=> w. rw /S3Store.GetRaw. pose proof (GetObject_law (S3Store.IndexKey s) None w) as HG.
    destruct (GetObject _ _ _ w) as [body w'|e w'|] => //=.
    + destruct HG as (Hs & data & Hd & Hb). rw /S3Store.read_body. destruct body as [b|].
      * destruct (Hb b eq_refl) as [-> _] => //. split; [done|]. split; [apply Hs|]. move=> k _. apply Hs.
      * split; [done|]. split; [apply Hs|]. move=> k _. apply Hs.
    + destruct HG as [Hs Hn]. split_and!; [|apply Hs|by move=> k _; apply Hs].
      destruct (isS3NotFound e); [by move=> _; apply Hn|done].
Qed.

Lemma S3Store_ok :
  StoreLaws (S3Store.store s max_pages) chunk_obj ∧
  ObjectLaws (S := S3Store.store s max_pages) (S3Store.object_store s max_pages) chunk_obj index_obj.
Proof. split; [apply S3Store_store|apply S3Store_objects]. Qed.

(** C26: the S3 store is a store. Over a bucket that behaves as S3 documents it,
    with listings that end, every operation of [S3Store] keeps the laws that
    its clients rely on: chunks live under the prefix, the index object under
    the prefix is never listed and never touched by a chunk operation, the
    listing loop ends and gives every chunk over all pages, and [ErrNotFound]
    means that the index is absent. *)
Theorem S3Store_laws :
  StoreLaws (S3Store.store s max_pages) chunk_obj ∧
  ObjectLaws (S := S3Store.store s max_pages) (S3Store.object_store s max_pages) chunk_obj index_obj.
Proof. exact S3Store_ok. Qed.
End laws.
