(* ===== verification/ConfigProps.v ===== *)
(** What [config.Load] yields: every field from its variable or its default,
    the errors exactly on malformed values, the types of the fields, and the
    round trip of a configuration through the environment. *)
From S2P Require Import Prelude Decimal Compaction Strconv Config.
From Stdlib Require Import Strings.Ascii Floats.SpecFloat.
#[local] Open Scope Z_scope.

(** ** Durations *)

Lemma u64_range z : is_u64 (u64 z).
Proof. rw /u64 /is_u64. pose proof (Z.mod_pos_bound z (2 ^ 64)). lia. Qed.

Lemma durations_range fuel : ∀ d s n, 0 <= d <= 2 ^ 63 → durations fuel d s = Some n → 0 <= n <= 2 ^ 63.
Proof.
  elim: fuel => [|fuel IH] d s n Hd; [destruct s => //; by case=> <-|].
  destruct s as [|c s]; [by case=> <-|]. rw /durations -/durations.
  destruct (duration_group (String c s)) as [[v r]|]; [|done].
  pose proof (u64_range (d + v)) as Hu. rw /is_u64 in Hu.
  destruct (Z.ltb_spec (2 ^ 63) (u64 (d + v))); [done|]. apply IH. lia.
Qed.

(** A duration fits in its 64 bits. *)
Lemma ParseDuration_range s n : ParseDuration s = Some n → is_i64 n.
Proof.
  rw /ParseDuration /is_i64. destruct (strip_sign s) as [neg r].
  case_decide; [by case=> <-|]. case_decide; [done|].
  destruct (durations _ 0 r) as [d|] eqn:E; [|done]. apply durations_range in E; [|lia].
  destruct neg; [case=> <-; lia|]. destruct (Z.ltb_spec (2 ^ 63 - 1) d); [done|]. case=> <-. lia.
Qed.

(** ** Reading back what is printed *)

Lemma foldl_value_le ds : Forall is_digit ds → ∀ x, 0 <= x → x <= foldl (fun acc d => acc * 10 + d) x ds.
Proof.
  elim=> [|d l Hd _ IH] x Hx /=; [lia|]. rw /is_digit in Hd. specialize (IH (x * 10 + d)). lia.
Qed.

(** The digits of a number that fits are read whole. *)
Lemma leadingInt_digits ds rest : Forall is_digit ds → starts_with_digit rest = false →
  ∀ x, 0 <= x → foldl (fun acc d => acc * 10 + d) x ds <= 2 ^ 63 →
  leadingInt x (digit_string ds +:+ rest) = Some (foldl (fun acc d => acc * 10 + d) x ds, rest).
Proof.
  move=> Hds Hr. induction Hds as [|d l Hd Hl IH] => x Hx Hb.
  - simpl. destruct rest as [|c r]; [done|]. simpl in *. destruct (char_digit c); [|done].
    exfalso. revert Hr. rw bool_decide_eq_true_2 //.
  - change (digit_string (d :: l) +:+ rest)%string with (String (digit_char d) (digit_string l +:+ rest)).
    rw /leadingInt -/leadingInt char_digit_char //.
    change (foldl _ x (d :: l)) with (foldl (fun acc d => acc * 10 + d) (x * 10 + d) l) in *.
    pose proof (foldl_value_le l Hl (x * 10 + d)) as Hle. rw /is_digit in Hd.
    destruct (Z.ltb_spec (2 ^ 63 / 10) x) as [Hlt|_].
    { pose proof (Z.mul_div_le (2 ^ 63) 10). pose proof (Z.mul_succ_div_gt (2 ^ 63) 10). lia. }
    destruct (Z.ltb_spec (2 ^ 63) (x * 10 + d)); [lia|]. rw IH; [done|lia|lia].
Qed.

Lemma digits_nonempty n : 0 <= n < 2 ^ 64 → ∃ d l, digits n = d :: l ∧ is_digit d.
Proof.
  move=> Hn. destruct (digits_spec n) as (_ & Hd & Hne); [lia|].
  destruct (digits n) as [|d l]; [done|]. apply Forall_cons in Hd as [Hd _]. eauto.
Qed.

Lemma ns_group n : 0 <= n <= 2 ^ 63 → duration_group (digit_string (digits n) +:+ "ns") = Some (n, "").
Proof.
  move=> Hn. destruct (digits_nonempty n) as (d & l & El & Hd); [lia|].
  destruct (digits_spec n) as (Hv & Hds & _); [lia|].
  pose proof (leadingInt_digits (digits n) "ns" Hds (eq_refl) 0 ltac:(lia)) as HL.
  change (foldl _ 0 (digits n)) with (value (digits n)) in HL. rw Hv in HL.
  specialize (HL ltac:(lia)). rw /duration_group HL El.
  change (digit_string (d :: l) +:+ "ns")%string with (String (digit_char d) (digit_string l +:+ "ns")).
  assert (starts_with_digit (String (digit_char d) (digit_string l +:+ "ns")) = true) as ->.
  { rw /starts_with_digit char_digit_char //. }
  assert (String.eqb "ns" (String (digit_char d) (digit_string l +:+ "ns")) = false) as E.
  { apply String.eqb_neq => E. injection E as E _. pose proof (char_digit_char d Hd) as C.
    rw -E in C. by vm_compute in C. }
  cbn [negb orb]. rw E. cbn [negb orb].
  assert (unit_part "ns" = ("ns", "")%string) as -> by done.
  assert (unitMap "ns" = Some 1) as -> by done. rw Z.div_1_r.
  destruct (Z.ltb_spec (2 ^ 63) n); [lia|]. change (0 <? 0) with false. cbv iota.
  rw Z.mul_1_r. destruct (Z.ltb_spec (2 ^ 63) n); [lia|done].
Qed.

Lemma strip_sign_digit c r :
  Ascii.eqb c "-" = false → Ascii.eqb c "+" = false → strip_sign (String c r) = (false, String c r).
Proof. by rw /strip_sign => -> ->. Qed.

(** [%dns] prints a duration that reads back. *)
Lemma ParseDuration_ns n : is_i64 n → ParseDuration (Sprintf_d n +:+ "ns") = Some n.
Proof.
  rw /is_i64 => Hn.
  assert (∀ m, 0 <= m <= 2 ^ 63 → let s := (digit_string (digits m) +:+ "ns")%string in
    s ≠ "0" ∧ s ≠ "" ∧ durations (String.length s) 0 s = Some m) as Hm.
  { move=> m Hm s. destruct (digits_nonempty m) as (d & l & El & Hd); [lia|].
    assert (s = String (digit_char d) (digit_string l +:+ "ns")) as Es by (rw /s El //).
    split_and!; [rw Es; by destruct l|by rw Es|].
    pose proof (ns_group m Hm) as G. fold s in G. rw {1 2}Es. rw Es in G.
    cbn [String.length]. rw /durations -/durations G u64_small; [|rw /is_u64; lia].
    destruct (Z.ltb_spec (2 ^ 63) (0 + m)); [lia|]. by destruct (String.length _). }
  rw /Sprintf_d. destruct (Z.ltb_spec n 0).
  - destruct (Hm (- n)) as (H1 & H2 & H3); [lia|].
    change (String "-" (digit_string (digits (- n))) +:+ "ns")%string
      with (String "-" (digit_string (digits (- n)) +:+ "ns")).
    rw /ParseDuration /strip_sign Ascii.eqb_refl decide_False // decide_False // H3. f_equal; lia.
  - destruct (Hm n) as (H1 & H2 & H3); [lia|]. destruct (digits_nonempty n) as (d & l & El & Hd); [lia|].
    destruct (digit_not_sign d Hd) as [N1 N2]. rw /ParseDuration.
    assert (strip_sign (digit_string (digits n) +:+ "ns") = (false, digit_string (digits n) +:+ "ns")) as ->
      by (rw El; by apply strip_sign_digit).
    rw decide_False // decide_False // H3. destruct (Z.ltb_spec (2 ^ 63 - 1) n); [lia|done].
Qed.

Lemma ParseBool_FormatBool b : ParseBool (FormatBool b) = Some b.
Proof. by destruct b. Qed.

Lemma append_ns_nonempty (s : string) : (s +:+ "ns")%string ≠ "".
Proof. by destruct s. Qed.

Lemma FormatBool_nonempty b : FormatBool b ≠ "".
Proof. by destruct b. Qed.

(** The decimal text of a number is not empty. *)
Lemma Sprintf_d_nonempty n : is_i64 n → Sprintf_d n ≠ "".
Proof.
  rw /is_i64 /Sprintf_d => Hn. destruct (Z.ltb_spec n 0); [done|].
  destruct (digits_nonempty n) as (d & l & El & _); [lia|]. by rw El.
Qed.

(** A narrower width reads the values that fit in it. *)
Lemma ParseInt_narrow bits s n :
  ParseInt 64 s = Some n → - 2 ^ (bits - 1) <= n < 2 ^ (bits - 1) → ParseInt bits s = Some n.
Proof.
  rw /ParseInt => H Hn. destruct s as [|c r]; [done|]. destruct (Ascii.eqb c "-").
  - destruct (unsigned r) as [u|]; [|done]. destruct (Z.leb_spec u (2 ^ (64 - 1))); [|done].
    injection H as <-. destruct (Z.leb_spec u (2 ^ (bits - 1))); [done|lia].
  - destruct (unsigned _) as [u|]; [|done]. destruct (Z.ltb_spec u (2 ^ (64 - 1))); [|done].
    injection H as <-. destruct (Z.ltb_spec u (2 ^ (bits - 1))); [done|lia].
Qed.

Lemma i32_small z : - 2 ^ 31 <= z < 2 ^ 31 → i32 z = z.
Proof. rw /i32 => ?. rw Z.mod_small; lia. Qed.

(** ** Loading *)

(** A variable read by [parse], or the default when it is not set. *)
Definition env_or {A} (getenv : string → string) (key : string) (parse : string → option A) (d : A) : option A :=
  if decide (getenv key = "") then Some d else parse (getenv key).

(** Every field from its own variable. *)
Record from_env (getenv : string → string) (cfg : Config) : Prop := {
  fe_chunk : env_or getenv "FUSEY_CHUNK_SIZE" (ParseInt 64) config.DefaultChunkSize = Some (ChunkSize cfg);
  fe_block : env_or getenv "FUSEY_BLOCK_SIZE" (ParseInt 32) config.DefaultBlockSize = Some (BlockSize cfg);
  fe_max : env_or getenv "FUSEY_MAX_SIZE" (ParseInt 64) config.DefaultMaxFSSize = Some (MaxFSSize cfg);
  fe_max_pos : 0 < MaxFSSize cfg;
  fe_cache : env_or getenv "FUSEY_CACHE_DIR" Some config.DefaultCacheDir = Some (CacheDir cfg);
  fe_bucket : Bucket cfg = getenv "FUSEY_BUCKET";
  fe_endpoint : Endpoint cfg = getenv "FUSEY_ENDPOINT";
  fe_region : env_or getenv "FUSEY_REGION" Some "us-east-1" = Some (Region cfg);
  fe_access : AccessKey cfg = getenv "FUSEY_ACCESS_KEY";
  fe_secret : SecretKey cfg = getenv "FUSEY_SECRET_KEY";
  fe_path : env_or getenv "FUSEY_FORCE_PATH_STYLE" ParseBool false = Some (ForcePathStyle cfg);
  fe_prefix : Prefix cfg = getenv "FUSEY_PREFIX";
  fe_broker : BrokerURL cfg = getenv "FUSEY_BROKER_URL";
  fe_header : env_or getenv "FUSEY_BROKER_AUTH_HEADER" Some config.DefaultBrokerAuthHeader = Some (BrokerAuthHeader cfg);
  fe_value : BrokerAuthValue cfg = getenv "FUSEY_BROKER_AUTH_VALUE";
  fe_threshold : env_or getenv "FUSEY_COMPACTION_THRESHOLD" ParseFloat config.DefaultCompactionThreshold
                 = Some (CompactionThreshold cfg);
  fe_interval : env_or getenv "FUSEY_PERSIST_INTERVAL" ParseDuration config.DefaultPersistInterval
                = Some (PersistInterval cfg);
  fe_other : env_or getenv "FUSEY_ALLOW_OTHER" ParseBool config.DefaultAllowOther = Some (AllowOther cfg);
}.

(** The variable [key] is set to something that does not parse. *)
Definition malformed (getenv : string → string) (key : string) : Prop :=
  (key = "FUSEY_CHUNK_SIZE" ∨ key = "FUSEY_MAX_SIZE") ∧ getenv key ≠ "" ∧ ParseInt 64 (getenv key) = None ∨
  key = "FUSEY_BLOCK_SIZE" ∧ getenv key ≠ "" ∧ ParseInt 32 (getenv key) = None ∨
  (key = "FUSEY_FORCE_PATH_STYLE" ∨ key = "FUSEY_ALLOW_OTHER") ∧ getenv key ≠ "" ∧ ParseBool (getenv key) = None ∨
  key = "FUSEY_COMPACTION_THRESHOLD" ∧ getenv key ≠ "" ∧ ParseFloat (getenv key) = None ∨
  key = "FUSEY_PERSIST_INTERVAL" ∧ getenv key ≠ "" ∧ ParseDuration (getenv key) = None.

Section load.
Variable getenv : string → string.

(** A step of [Load]: it keeps the default, or assigns, or names its key. *)
Definition step_ok {A} key (parse : string → option A) (set : A → Config → Config) (d : A) cfg
    (m : res config.ConfigErr Config) : Prop :=
  match m with
  | Ok c => ∃ v, env_or getenv key parse d = Some v ∧ c = set v cfg
  | Err e => e = config.Malformed key ∧ getenv key ≠ "" ∧ parse (getenv key) = None
  end.

Lemma parse_step {A} key (parse : string → option A) (set : A → Config → Config) (d : A) cfg :
  set d cfg = cfg →
  step_ok key parse set d cfg
    (if decide (getenv key = "") then Ok cfg
     else match parse (getenv key) with
          | None => Err (config.Malformed key) | Some v => Ok (set v cfg) end).
Proof.
  move=> Hd. rw /step_ok /env_or. case_decide as E; [by eauto|].
  destruct (parse (getenv key)) as [v|]; [by eauto|done].
Qed.

Lemma override_step key (set : string → Config → Config) d cfg :
  set d cfg = cfg →
  ∃ v, env_or getenv key Some d = Some v ∧ config.override getenv key set cfg = set v cfg.
Proof. move=> Hd. rw /env_or /config.override. case_decide; eauto. Qed.

(** The conversion to [int32] changes nothing after a 32-bit parse. *)
Lemma block_step cfg : config.set_BlockSize config.DefaultBlockSize cfg = cfg →
  step_ok "FUSEY_BLOCK_SIZE" (ParseInt 32) config.set_BlockSize config.DefaultBlockSize cfg
    (config.parseInt32Env getenv "FUSEY_BLOCK_SIZE" config.set_BlockSize cfg).
Proof.
  move=> Hb. rw /step_ok /env_or /config.parseInt32Env. case_decide as E; [by eauto|].
  destruct (ParseInt 32 _) as [v|] eqn:P; [|done]. apply ParseInt_range in P; [|lia].
  exists v. by rw i32_small.
Qed.

(** Takes the next step of [Load] apart; a failing one is malformed. *)
Ltac load_step H :=
  let X := fresh in
  match goal with
  | |- context [rbind ?m _] => pose proof (H : step_ok _ _ _ _ _ m) as X; destruct m as [?|?]
  | |- context [config.parseBoolEnv ?g ?k ?s ?c] =>
      pose proof (H : step_ok _ _ _ _ _ (config.parseBoolEnv g k s c)) as X;
      destruct (config.parseBoolEnv g k s c) as [?|?]
  end; cbn [rbind];
  [destruct X as (? & ? & ->)|destruct X as (-> & ? & ?); unfold malformed; tauto].

Lemma Load_cases :
  match config.Load getenv with
  | Ok cfg => from_env getenv cfg
  | Err (config.Malformed key) => malformed getenv key
  | Err config.MaxSizeNotPositive =>
      ∃ n, env_or getenv "FUSEY_MAX_SIZE" (ParseInt 64) config.DefaultMaxFSSize = Some n ∧ n <= 0
  end.
Proof.
  rw /config.Load.
  destruct (override_step "FUSEY_BROKER_AUTH_HEADER" config.set_BrokerAuthHeader config.DefaultBrokerAuthHeader
    (config.initial getenv) (eq_refl)) as (hdr & Hh & ->).
  destruct (override_step "FUSEY_REGION" config.set_Region "us-east-1"
    (config.set_BrokerAuthHeader hdr (config.initial getenv)) (eq_refl)) as (reg & Hr & ->). cbv zeta.
  load_step (parse_step "FUSEY_CHUNK_SIZE" (ParseInt 64) config.set_ChunkSize config.DefaultChunkSize
    (config.set_Region reg (config.set_BrokerAuthHeader hdr (config.initial getenv))) (eq_refl)).
  match goal with |- context [config.parseInt32Env _ _ _ ?c] => load_step (block_step c (eq_refl)) end.
  match goal with |- context [config.parseInt64Env _ "FUSEY_MAX_SIZE" ?f ?c] =>
    load_step (parse_step "FUSEY_MAX_SIZE" (ParseInt 64) f config.DefaultMaxFSSize c (eq_refl)) end.
  match goal with |- context [if ?b then _ else _] => destruct b eqn:Em end.
  { simpl in Em. eexists. split; [done|]. lia. }
  match goal with |- context [config.override _ "FUSEY_CACHE_DIR" ?f ?c] =>
    destruct (override_step "FUSEY_CACHE_DIR" f config.DefaultCacheDir c (eq_refl)) as (dir & Hdir & ->) end.
  match goal with |- context [config.parseBoolEnv _ "FUSEY_FORCE_PATH_STYLE" ?f ?c] =>
    load_step (parse_step "FUSEY_FORCE_PATH_STYLE" ParseBool f false c (eq_refl)) end.
  match goal with |- context [config.parseFloat64Env _ ?k ?f ?c] =>
    load_step (parse_step k ParseFloat f config.DefaultCompactionThreshold c (eq_refl)) end.
  match goal with |- context [config.parseDurationEnv _ ?k ?f ?c] =>
    load_step (parse_step k ParseDuration f config.DefaultPersistInterval c (eq_refl)) end.
  match goal with |- context [config.parseBoolEnv _ "FUSEY_ALLOW_OTHER" ?f ?c] =>
    load_step (parse_step "FUSEY_ALLOW_OTHER" ParseBool f config.DefaultAllowOther c (eq_refl)) end.
  by split; try done; simpl in Em |- *; lia.
Qed.
End load.

(** An environment gives one configuration. *)
Lemma from_env_unique getenv c c' : from_env getenv c → from_env getenv c' → c = c'.
Proof.
  destruct c, c'. case=> /= ??????????????????. case=> /= ??????????????????. f_equal;
    match goal with
    | H1 : ?x = Some ?a, H2 : ?x = Some ?b |- ?a = ?b => exact (Some_inj _ _ (eq_trans (eq_sym H1) H2))
    | H1 : ?a = ?x, H2 : ?b = ?x |- ?a = ?b => exact (eq_trans H1 (eq_sym H2))
    end.
Qed.

Lemma env_or_cases {A} getenv key (parse : string → option A) d v :
  env_or getenv key parse d = Some v → v = d ∨ getenv key ≠ "" ∧ parse (getenv key) = Some v.
Proof. rw /env_or. case_decide; [case=> ->|]; auto. Qed.

Lemma env_or_parses {A} getenv key (parse : string → option A) d v :
  env_or getenv key parse d = Some v → getenv key ≠ "" → parse (getenv key) = None → False.
Proof. rw /env_or => H Hne Hn. by rw decide_False // Hn in H. Qed.

Lemma from_env_not_malformed getenv cfg key : from_env getenv cfg → ~ malformed getenv key.
Proof.
  intros []. rw /malformed.
  intros [([-> | ->] & Hn & Hp)|[(-> & Hn & Hp)|[([-> | ->] & Hn & Hp)|[(-> & Hn & Hp)|(-> & Hn & Hp)]]]];
    (eapply env_or_parses; [|exact Hn|exact Hp]; eassumption).
Qed.

Lemma Load_complete getenv cfg : from_env getenv cfg → config.Load getenv = Ok cfg.
Proof.
  move=> H. pose proof (Load_cases getenv) as HL. destruct (config.Load getenv) as [c|[key|]].
  - f_equal. by apply (from_env_unique getenv).
  - by destruct (from_env_not_malformed getenv cfg key).
  - destruct HL as (n & Hn & Hle). pose proof (fe_max_pos _ _ H). pose proof (fe_max _ _ H) as Hm.
    rw Hn in Hm. injection Hm as ->. lia.
Qed.

(** C28: loading the configuration. [Load] returns a configuration exactly when
    every variable that is set parses and the capacity is positive, and then
    each field has the value of its own variable, or its default when that is
    not set; otherwise it fails, naming a variable that is set and malformed, or
    because the capacity is not positive. *)
Theorem Load_iff getenv :
  (∀ cfg, config.Load getenv = Ok cfg ↔ from_env getenv cfg) ∧
  match config.Load getenv with
  | Ok _ => True
  | Err (config.Malformed key) => malformed getenv key
  | Err config.MaxSizeNotPositive =>
      ∃ n, env_or getenv "FUSEY_MAX_SIZE" (ParseInt 64) config.DefaultMaxFSSize = Some n ∧ n <= 0
  end.
Proof.
  pose proof (Load_cases getenv) as HL. split; [|by destruct (config.Load getenv) as [c|[k|]]].
  move=> cfg. split; [|by apply Load_complete]. move=> E. by rw E in HL.
Qed.

Lemma loaded_typed getenv cfg : config.Load getenv = Ok cfg →
  is_i64 (ChunkSize cfg) ∧ - 2 ^ 31 <= BlockSize cfg < 2 ^ 31 ∧ 0 < MaxFSSize cfg < 2 ^ 63 ∧
  is_i64 (PersistInterval cfg) ∧ CacheDir cfg ≠ "" ∧ Region cfg ≠ "" ∧ BrokerAuthHeader cfg ≠ "".
Proof.
  move=> E. pose proof (Load_cases getenv) as H. rw E in H. destruct H.
  apply env_or_cases in fe_chunk0, fe_block0, fe_max0, fe_cache0, fe_region0, fe_header0, fe_interval0.
  split_and!; try done.
  - destruct fe_chunk0 as [->|[_ H]]; [done|]. apply ParseInt_range in H; [done|lia].
  - destruct fe_block0 as [->|[_ H]]; [done|]. apply ParseInt_range in H; lia.
  - destruct fe_block0 as [->|[_ H]]; [done|]. apply ParseInt_range in H; lia.
  - destruct fe_max0 as [->|[_ H]]; [done|]. apply ParseInt_range in H; lia.
  - destruct fe_interval0 as [->|[_ H]]; [done|]. by eapply ParseDuration_range.
  - destruct fe_cache0 as [->|[Hn [= <-]]]; done.
  - destruct fe_region0 as [->|[Hn [= <-]]]; done.
  - destruct fe_header0 as [->|[Hn [= <-]]]; done.
Qed.

(** C35: the types of the fields. A configuration that loads has a 64-bit chunk
    size, a 32-bit block size, a positive 64-bit capacity, a 64-bit interval,
    and a cache directory, region and header name that are not empty. *)
Theorem Load_typed getenv cfg : config.Load getenv = Ok cfg →
  is_i64 (ChunkSize cfg) ∧ - 2 ^ 31 <= BlockSize cfg < 2 ^ 31 ∧ 0 < MaxFSSize cfg < 2 ^ 63 ∧
  is_i64 (PersistInterval cfg) ∧ CacheDir cfg ≠ "" ∧ Region cfg ≠ "" ∧ BrokerAuthHeader cfg ≠ "".
Proof. apply loaded_typed. Qed.

(** The first value of a key in a list of settings. *)
Fixpoint assoc (l : list (string * string)) (key : string) : string :=
  match l with
  | [] => ""
  | (k, v) :: l => if String.eqb k key then v else assoc l key
  end.

(** The environment that spells a configuration out; [thr] is some text for
    the threshold. *)
Definition env_of (cfg : Config) (thr : string) (key : string) : string :=
  assoc [
    ("FUSEY_CHUNK_SIZE", Sprintf_d (ChunkSize cfg)); ("FUSEY_BLOCK_SIZE", Sprintf_d (BlockSize cfg));
    ("FUSEY_MAX_SIZE", Sprintf_d (MaxFSSize cfg)); ("FUSEY_CACHE_DIR", CacheDir cfg);
    ("FUSEY_BUCKET", Bucket cfg); ("FUSEY_ENDPOINT", Endpoint cfg); ("FUSEY_REGION", Region cfg);
    ("FUSEY_ACCESS_KEY", AccessKey cfg); ("FUSEY_SECRET_KEY", SecretKey cfg);
    ("FUSEY_FORCE_PATH_STYLE", FormatBool (ForcePathStyle cfg)); ("FUSEY_PREFIX", Prefix cfg);
    ("FUSEY_BROKER_URL", BrokerURL cfg); ("FUSEY_BROKER_AUTH_HEADER", BrokerAuthHeader cfg);
    ("FUSEY_BROKER_AUTH_VALUE", BrokerAuthValue cfg); ("FUSEY_COMPACTION_THRESHOLD", thr);
    ("FUSEY_PERSIST_INTERVAL", Sprintf_d (PersistInterval cfg) +:+ "ns");
    ("FUSEY_ALLOW_OTHER", FormatBool (AllowOther cfg))]%string key.

Lemma env_or_set {A} getenv key (parse : string → option A) d v :
  getenv key ≠ "" → parse (getenv key) = Some v → env_or getenv key parse d = Some v.
Proof. move=> Hne Hp. by rw /env_or decide_False. Qed.

Lemma env_of_loads cfg thr :
  is_i64 (ChunkSize cfg) → - 2 ^ 31 <= BlockSize cfg < 2 ^ 31 → 0 < MaxFSSize cfg < 2 ^ 63 →
  is_i64 (PersistInterval cfg) → CacheDir cfg ≠ "" → Region cfg ≠ "" → BrokerAuthHeader cfg ≠ "" →
  env_or (env_of cfg thr) "FUSEY_COMPACTION_THRESHOLD" ParseFloat config.DefaultCompactionThreshold =
    Some (CompactionThreshold cfg) →
  config.Load (env_of cfg thr) = Ok cfg.
Proof.
  move=> Hc Hb Hm Hi Hd Hr Hh Hf. pose proof Hc as Hc'. rw /is_i64 in Hc'.
  apply Load_complete.
  pose proof (ParseInt_Sprintf (BlockSize cfg) ltac:(lia)) as HB.
  assert (is_i64 (BlockSize cfg) ∧ is_i64 (MaxFSSize cfg)) as [Hb' Hm'] by (rw /is_i64; lia).
  split.
  - apply env_or_set; [|exact (ParseInt_Sprintf _ Hc')]. exact (Sprintf_d_nonempty _ Hc).
  - apply env_or_set; [|exact (ParseInt_narrow 32 _ _ HB Hb)]. exact (Sprintf_d_nonempty _ Hb').
  - apply env_or_set; [|exact (ParseInt_Sprintf _ Hm')]. exact (Sprintf_d_nonempty _ Hm').
  - lia.
  - apply env_or_set; [|reflexivity]. exact Hd.
  - reflexivity.
  - reflexivity.
  - apply env_or_set; [|reflexivity]. exact Hr.
  - reflexivity.
  - reflexivity.
  - apply env_or_set; [|exact (ParseBool_FormatBool _)]. exact (FormatBool_nonempty (ForcePathStyle cfg)).
  - reflexivity.
  - reflexivity.
  - apply env_or_set; [|reflexivity]. exact Hh.
  - reflexivity.
  - exact Hf.
  - apply env_or_set; [|exact (ParseDuration_ns _ Hi)]. exact (append_ns_nonempty (Sprintf_d (PersistInterval cfg))).
  - apply env_or_set; [|exact (ParseBool_FormatBool _)]. exact (FormatBool_nonempty (AllowOther cfg)).
Qed.

(** C29: a configuration survives the environment. Whatever environment a
    configuration was loaded from, writing its fields out as the [FUSEY_]
    variables, the threshold in the text that it was given in, makes an
    environment that loads as the same configuration, defaults included. *)
Theorem Load_roundtrip getenv cfg :
  config.Load getenv = Ok cfg → config.Load (env_of cfg (getenv "FUSEY_COMPACTION_THRESHOLD")) = Ok cfg.
Proof.
  intros E. destruct (loaded_typed getenv cfg E) as (? & ? & ? & ? & ? & ? & ?). apply env_of_loads; [done..|].
  pose proof (Load_cases getenv) as HL. rw E in HL. exact (fe_threshold _ _ HL).
Qed.

(** A configuration of every kind of setting. *)
Definition sample_config : Config :=
  mkConfig (2 ^ 20) 8192 26843545600 "/tmp/fusey-test" "my-bucket" "https://s3.example.com" "eu-west-1" "" "" true
    "pod-a/" "" "X-SESSION-API-KEY" "" (SFdiv 53 1024 (float64 1) (float64 2)) (60 * 10 ^ 9) false.

(** An environment that sets the threshold in another spelling and leaves the
    rest to the defaults. *)
Definition sparse_env (key : string) : string :=
  assoc [("FUSEY_COMPACTION_THRESHOLD", "5e-1"); ("FUSEY_BLOCK_SIZE", "+8192")]%string key.

Lemma Load_roundtrip_witness : ∃ cfg, config.Load sparse_env = Ok cfg ∧ BlockSize cfg = 8192 ∧
  config.Load (env_of cfg "5e-1") = Ok cfg.
Proof.
  destruct (config.Load sparse_env) as [cfg|e] eqn:E; [|exfalso; revert E; vm_compute; discriminate].
  exists cfg. split; [reflexivity|]. split; [vm_compute in E; injection E as <-; reflexivity|].
  exact (Load_roundtrip sparse_env cfg E).
Defined.

Lemma Load_typed_witness : is_i64 (ChunkSize sample_config) ∧ BrokerAuthHeader sample_config ≠ "".
Proof.
  destruct (Load_typed (env_of sample_config "0.5") sample_config) as (H1 & _ & _ & _ & _ & _ & H2);
    [vm_compute; reflexivity|]. by split.
Defined.
