(* ===== verification/Command.v ===== *)
(** The rest of the command (src/cmd/fusey/main.go): the dispatch on the
    arguments, the configuration check, the choice of the object store, daemon
    identifiers and the search of [fusey unmount] for the daemon of a
    mountpoint. The JSON codec of the pid file is a parameter. *)
From S2P Require Import Prelude OS Decimal Store Broker S3 Config.
From Stdlib Require Import Strings.Ascii.
#[local] Open Scope Z_scope.

(** ** Paths: [path/filepath] on Unix *)

Definition IsAbs (p : string) : bool :=
  match p with String c _ => Ascii.eqb c "/" | EmptyString => false end.

(** The parts of a path between slashes; the first is read into [cur]. *)
Fixpoint components (cur : string) (p : string) : list string :=
  match p with
  | EmptyString => [cur]
  | String c p => if Ascii.eqb c "/" then cur :: components "" p
                  else components (cur +:+ String c "") p
  end.

(** Processes [.] and [..]; [out] is the result so far, last part first. *)
Fixpoint resolve_dots (rooted : bool) (out : list string) (parts : list string) : list string :=
  match parts with
  | [] => rev out
  | part :: parts =>
      if decide (part = "" ∨ part = ".") then resolve_dots rooted out parts
      else if decide (part = "..") then
        match out with
        | [] => resolve_dots rooted (if rooted then [] else [".."]) parts
        | last :: out' =>
            if decide (last = "..") then resolve_dots rooted (".." :: out) parts
            else resolve_dots rooted out' parts
        end
      else resolve_dots rooted (part :: out) parts
  end.

Fixpoint join_parts (parts : list string) : string :=
  match parts with
  | [] => ""
  | [p] => p
  | p :: parts => p +:+ "/" +:+ join_parts parts
  end.

(** [filepath.Clean]. *)
Definition Clean (p : string) : string :=
  let parts := resolve_dots (IsAbs p) [] (components "" p) in
  if IsAbs p then "/" +:+ join_parts parts
  else match parts with [] => "." | _ => join_parts parts end.

(** [filepath.Abs], which fails if the working directory is not known. *)
Definition Abs (cwd : option string) (p : string) : option string :=
  if IsAbs p then Some (Clean p) else match cwd with Some d => Some (Clean (d +:+ "/" +:+ p)) | None => None end.

(** ** Arguments *)

Inductive Action :=
| PrintVersion
| Usage                                 (* "usage: fusey <mount|unmount|compact|version> [args]" *)
| SubUsage (subcommand : string)        (* "usage: fusey mount <mountpoint>", … *)
| UnknownSubcommand (subcommand : string)
| RunMount (mountpoint : string)
| RunDaemon (daemonID mountpoint : string)
| RunUnmount (mountpoint : string)
| RunCompact.

(** [main]: [args] is [os.Args[1:]]. *)
Definition main (args : list string) : Action :=
  match args with
  | [] => Usage
  | cmd :: rest =>
      if decide (cmd = "--version" ∨ cmd = "-v") then PrintVersion
      else if decide (cmd = "mount") then
        match rest with [mp] => RunMount mp | _ => SubUsage cmd end
      else if decide (cmd = "daemon") then
        match rest with [id; mp] => RunDaemon id mp | _ => SubUsage cmd end
      else if decide (cmd = "unmount") then
        match rest with [mp] => RunUnmount mp | _ => SubUsage cmd end
      else if decide (cmd = "compact") then RunCompact
      else if decide (cmd = "version") then PrintVersion
      else UnknownSubcommand cmd
  end.

(** ** Configuration and store *)

Inductive SetupErr :=
| ConfigFailed (e : config.ConfigErr)
| NoStore               (* "either FUSEY_BROKER_URL or FUSEY_BUCKET is required" *)
| S3Failed.             (* "S3 store" *)

Definition mustLoadConfig (getenv : string → string) : res SetupErr Config :=
  match config.Load getenv with
  | Err e => Err (ConfigFailed e)
  | Ok cfg => if decide (BrokerURL cfg = "" ∧ Bucket cfg = "") then Err NoStore else Ok cfg
  end.

(** The object store that [mustBuildStore] picks. *)
Inductive backend := UseBroker (s : BrokerStore.t) | UseS3 (o : S3Store.ClientOptions) (s : S3Store.t).

Definition chooseStore (load_config : string → option (string * string) → bool) (cfg : Config) : res SetupErr backend :=
  if decide (BrokerURL cfg ≠ "") then
    Ok (UseBroker (BrokerStore.NewBrokerStore (BrokerURL cfg) (BrokerAuthHeader cfg) (BrokerAuthValue cfg)))
  else
    match S3Store.NewS3Store load_config (Bucket cfg) (Endpoint cfg) (Region cfg) (AccessKey cfg) (SecretKey cfg)
            (Prefix cfg) (ForcePathStyle cfg) with
    | Some (o, s) => Ok (UseS3 o s)
    | None => Err S3Failed
    end.

(** The operations of the store that was picked, over a network that has both
    kinds of client. *)
Section backend.
Context {W : Type} {H : HttpClient W} {C : S3Client W} (max_pages : W → nat).

Definition backend_store (b : backend) : Store W :=
  match b with UseBroker s => BrokerStore.store s | UseS3 _ s => S3Store.store s max_pages end.

Definition backend_object (b : backend) : @ObjectStore W (backend_store b) :=
  match b with UseBroker s => BrokerStore.object_store s | UseS3 _ s => S3Store.object_store s max_pages end.
End backend.

(** ** Daemon identifiers *)

Definition hex_digit (n : N) : ascii := ascii_of_N (if n <? 10 then 48 + n else 87 + n)%N.

(** [hex.EncodeToString]. *)
Fixpoint EncodeToString (b : bytes) : string :=
  match b with
  | [] => ""
  | x :: b => String (hex_digit (Byte.to_N x / 16)) (String (hex_digit (Byte.to_N x mod 16)) (EncodeToString b))
  end.

(** [newDaemonID]: [rand] is what [rand.Read] gives for eight bytes. *)
Definition newDaemonID (rand : option bytes) : option string := EncodeToString <$> rand.

(** ** Unmounting *)

Record daemonInfo := mkDaemonInfo { PID : Z; Mountpoint : string }.

(** [json.Marshal] and [json.Unmarshal] on [daemonInfo]. *)
Class InfoCodec := {
  info_Marshal : daemonInfo → bytes;
  info_Unmarshal : bytes → option daemonInfo;
}.

(** An entry of a directory: [e.Name()] and [e.IsDir()]. *)
Record DirEntry := mkDirEntry { Name : string; IsDir : bool }.

Inductive UnmountErr :=
| NoConfig (e : SetupErr) | NoAbs | NoReadDir | NoSignal (pid : Z) | NoDaemon.

Definition pidPath (dir daemonID : string) : string := Join (Join dir daemonID) "daemon.pid".

Section unmount.
Context {J : InfoCodec}.
Variables (cwd : option string) (dir abs : string).

(** What the loop of [runUnmount] does with one entry: [Some info] if its pid
    file names the mountpoint. [infoAbs] is empty if [filepath.Abs] fails. *)
Definition serves (e : DirEntry) (d : Disk) : option daemonInfo * Disk :=
  if negb (IsDir e) then (None, d)
  else
    match os_ReadFile (pidPath dir (Name e)) d with
    | Ret data d =>
        match info_Unmarshal data with
        | Some info => (if decide (default "" (Abs cwd (Mountpoint info)) = abs) then Some info else None, d)
        | None => (None, d)
        end
    | Fail _ d => (None, d)
    | Crash => (None, d)
    end.

(** The loop: the first daemon that matches is sent SIGTERM. *)
Fixpoint find_daemon (entries : list DirEntry) (d : Disk) : option (string * daemonInfo) * Disk :=
  match entries with
  | [] => (None, d)
  | e :: entries =>
      match serves e d with
      | (Some info, d) => (Some (Name e, info), d)
      | (None, d) => find_daemon entries d
      end
  end.
End unmount.

(** [runUnmount]: [readdir] is what [os.ReadDir] answers, [kill pid] whether
    SIGTERM could be delivered. It returns the daemon that was signalled. *)
Definition runUnmount {J : InfoCodec} (getenv : string → string) (cwd : option string)
    (readdir : string → option (list DirEntry)) (kill : Z → bool) (mountpoint : string) (d : Disk)
    : outcome UnmountErr Disk (string * Z) :=
  match mustLoadConfig getenv with
  | Err e => Fail (NoConfig e) d
  | Ok cfg =>
  match Abs cwd mountpoint with
  | None => Fail NoAbs d
  | Some abs =>
  match readdir (CacheDir cfg) with
  | None => Fail NoReadDir d
  | Some entries =>
  match find_daemon cwd (CacheDir cfg) abs entries d with
  | (None, d) => Fail NoDaemon d
  | (Some (name, info), d) => if kill (PID info) then Ret (name, PID info) d else Fail (NoSignal (PID info)) d
  end end end end.

(** The pid file that a daemon writes: the mountpoint as it was given. *)
Definition pid_data {J : InfoCodec} (pid : Z) (mountpoint : string) : bytes :=
  info_Marshal (mkDaemonInfo pid mountpoint) ++ [Byte.x0a].

Example Clean_samples :
  Clean <$> ["a//b/../c"; "/../x/."; ""; "./.."; "/"; "a/../.."]%string = ["a/c"; "/x"; "."; ".."; "/"; ".."]%string.
Proof. reflexivity. Qed.
