(* ===== verification/CommandProps.v ===== *)
(** Correctness of the command's helpers: the store that is picked keeps the
    laws of a store, daemon directories never meet, and [fusey unmount]
    signals a daemon whose pid file names the mountpoint. *)
From S2P Require Import Prelude OS Decimal Store Broker BrokerProps S3 S3Props Config ConfigProps Command.
From Stdlib Require Import Strings.Ascii.
#[local] Open Scope Z_scope.

(** ** Daemon identifiers *)

(** A hexadecimal digit read back. *)
Definition hex_value (c : ascii) : N := let z := N_of_ascii c in (if z <? 58 then z - 48 else z - 87)%N.

Lemma hex_value_digit n : (n < 16)%N → hex_value (hex_digit n) = n.
Proof.
  move=> Hn. assert (Forall (fun n => hex_value (hex_digit n) = n) (N.of_nat <$> seq 0 16)) as HF
    by (repeat constructor).
  rw Forall_forall in HF. apply HF, list_elem_of_fmap. exists (N.to_nat n).
  split; [lia|]. apply elem_of_seq. lia.
Qed.

Lemma byte_nibbles (x y : byte) :
  hex_digit (Byte.to_N x / 16) = hex_digit (Byte.to_N y / 16) →
  hex_digit (Byte.to_N x mod 16) = hex_digit (Byte.to_N y mod 16) → x = y.
Proof.
  move=> H1 H2. pose proof (Byte.to_N_bounded x). pose proof (Byte.to_N_bounded y).
  assert (∀ n : N, (n <= 255 → n / 16 < 16 ∧ n mod 16 < 16)%N) as Hb.
  { move=> n Hn. split; [apply N.Div0.div_lt_upper_bound; lia|by apply N.mod_lt]. }
  apply (f_equal hex_value) in H1, H2. rw !hex_value_digit in H1; [|by apply Hb..].
  rw !hex_value_digit in H2; [|by apply Hb..].
  assert (Byte.to_N x = Byte.to_N y) as E.
  { rw (N.div_mod (Byte.to_N x) 16) // H1 H2. symmetry. by apply N.div_mod. }
  apply (f_equal Byte.of_N) in E. rw !Byte.of_to_N in E. by injection E.
Qed.

Lemma EncodeToString_inj b : ∀ b', EncodeToString b = EncodeToString b' → b = b'.
Proof.
  induction b as [|x b IH] => -[|y b'] //= E. injection E as E1 E2 E.
  by rw (byte_nibbles x y E1 E2) (IH b' E).
Qed.

Lemma EncodeToString_length b : String.length (EncodeToString b) = (2 * length b)%nat.
Proof. elim: b => [//|x b IH] /=. lia. Qed.

(** Strings of one length before a common separator. *)
Lemma app_same_length (a b : string) : ∀ r s, String.length a = String.length b →
  (a +:+ r = b +:+ s)%string → a = b ∧ r = s.
Proof.
  induction a as [|c a IH] in b |- *; destruct b as [|c' b] => r s //= [Hl] E.
  injection E as <- E. by destruct (IH b r s Hl E) as [-> ->].
Qed.

(** Daemons do not share files. Two daemon identifiers of eight random bytes
    each are sixteen characters long; unless the bytes are the same they differ,
    and then no path under the directory of one daemon is a path under that of
    the other. *)
Theorem daemon_dirs_isolated dir b b' id id' :
  length b = 8%nat → length b' = 8%nat → newDaemonID (Some b) = Some id → newDaemonID (Some b') = Some id' →
  String.length id = 16%nat ∧ (id = id' ↔ b = b') ∧
  (b ≠ b' → ∀ f f', Join (Join dir id) f ≠ Join (Join dir id') f').
Proof.
  move=> Hb Hb' /= [<-] [<-]. rw EncodeToString_length Hb. split; [done|].
  assert (EncodeToString b = EncodeToString b' ↔ b = b') as Hi
    by (split; [apply EncodeToString_inj|by move=> ->]).
  split; [done|]. move=> Hne f f'. rw /Join - !str_app_assoc => E.
  apply (f_equal (strip_prefix dir)) in E. rw !strip_prefix_app in E. injection E as E.
  change (EncodeToString b +:+ ("/" +:+ f) = EncodeToString b' +:+ ("/" +:+ f'))%string in E.
  apply app_same_length in E as [E _]; [by apply Hne, Hi|]. by rw !EncodeToString_length Hb Hb'.
Qed.

(** ** Unmounting *)

(** The entry [e] is a directory whose pid file names the mountpoint. *)
Definition names_mount {J : InfoCodec} (cwd : option string) (dir abs : string) (d : Disk) (e : DirEntry)
    (info : daemonInfo) : Prop :=
  IsDir e = true ∧ default "" (Abs cwd (Mountpoint info)) = abs ∧
  ∃ data, files d !! pidPath dir (Name e) = Some data ∧ info_Unmarshal data = Some info.

Section unmount.
Context {J : InfoCodec}.
Variables (cwd : option string) (dir abs : string).

Lemma serves_cases e d :
  match serves cwd dir abs e d with
  | (Some info, d') => files d' = files d ∧ names_mount cwd dir abs d e info
  | (None, d') => files d' = files d ∧ (faults d = [] → ∀ info, ~ names_mount cwd dir abs d e info)
  end ∧ (faults d = [] → faults (serves cwd dir abs e d).2 = []).
Proof.
  rw /serves /names_mount. destruct (IsDir e); simpl; [|by split; [split; [done|move=> _ ? [? _]]|]].
  rw /os_ReadFile. destruct (next_fault d) eqn:Ef; simpl.
  - destruct (files d !! pidPath dir (Name e)) as [data|] eqn:Ed.
    + destruct (info_Unmarshal data) as [info|] eqn:Ej; simpl.
      * case_decide as Ea; simpl.
        { split; [|by simpl; move=> ->]. split; [done|]. eauto. }
        split; [|by simpl; move=> ->]. split; [done|]. intros _ i (_ & Hi & dt & [= <-] & Hj). congruence.
      * split; [|by simpl; move=> ->]. split; [done|]. intros _ i (_ & _ & dt & [= <-] & Hj). congruence.
    + split; [|by simpl; move=> ->]. split; [done|]. by intros _ i (_ & _ & dt & Hd & _).
  - split; [|by simpl; move=> ->]. split; [done|]. move=> Hf. by rw /next_fault Hf in Ef.
  - split; [|by simpl; move=> ->]. split; [done|]. move=> Hf. by rw /next_fault Hf in Ef.
Qed.

Lemma names_mount_files d d' e info :
  files d' = files d → names_mount cwd dir abs d' e info → names_mount cwd dir abs d e info.
Proof. rw /names_mount. by move=> ->. Qed.

Lemma find_daemon_cases entries : ∀ d,
  match find_daemon cwd dir abs entries d with
  | (Some (name, info), d') => files d' = files d ∧
      ∃ pre e post, entries = pre ++ e :: post ∧ Name e = name ∧ names_mount cwd dir abs d e info ∧
        (faults d = [] → ∀ x i, x ∈ pre → ~ names_mount cwd dir abs d x i)
  | (None, d') => files d' = files d ∧
      (faults d = [] → ∀ x i, x ∈ entries → ~ names_mount cwd dir abs d x i)
  end.
Proof.
  elim: entries => [|e es IH] d /=; [by split; [|move=> _ x i /elem_of_nil]|].
  destruct (serves_cases e d) as [Hs Hf]. destruct (serves cwd dir abs e d) as [[info|] d1].
  - destruct Hs as [H1 H2]. split; [done|]. exists [], e, es. split_and!; [done|done|done|].
    by move=> _ x i /elem_of_nil.
  - destruct Hs as [H1 H2]. specialize (IH d1). destruct (find_daemon cwd dir abs es d1) as [[[name info]|] d2].
    + destruct IH as (H3 & pre & x & post & -> & Hn & Hm & Hpre). split; [congruence|].
      exists (e :: pre), x, post. split_and!; [done|done|by eapply names_mount_files|].
      move=> H0 y i /elem_of_cons [->|Hy]; [by apply H2|].
      rw /names_mount - H1. apply Hpre; [by apply Hf|done].
    + destruct IH as (H3 & Hno). split; [congruence|].
      move=> H0 y i /elem_of_cons [->|Hy]; [by apply H2|].
      rw /names_mount - H1. apply Hno; [by apply Hf|done].
Qed.
End unmount.

(** [fusey unmount] signals a daemon of the mountpoint. It reports the daemon
    that it signalled only if the pid file in that daemon's directory names the
    mountpoint (as absolute paths, in the working directory of the command) and
    the signal was delivered; no file is changed; and while reads do not fail it
    signals the first such daemon, and reports that there is none only if no pid
    file in the cache directory names the mountpoint. *)
Theorem runUnmount_selects {J : InfoCodec} getenv cwd readdir kill mountpoint d :
  match runUnmount getenv cwd readdir kill mountpoint d with
  | Ret (name, pid) d' => files d' = files d ∧ kill pid = true ∧
      ∃ cfg abs pre e post info, config.Load getenv = Ok cfg ∧ Abs cwd mountpoint = Some abs ∧
        readdir (CacheDir cfg) = Some (pre ++ e :: post) ∧ Name e = name ∧ PID info = pid ∧
        names_mount cwd (CacheDir cfg) abs d e info ∧
        (faults d = [] → ∀ x i, x ∈ pre → ~ names_mount cwd (CacheDir cfg) abs d x i)
  | Fail NoDaemon d' => files d' = files d ∧ (faults d = [] → ∃ cfg abs entries,
      config.Load getenv = Ok cfg ∧ Abs cwd mountpoint = Some abs ∧ readdir (CacheDir cfg) = Some entries ∧
      ∀ x i, x ∈ entries → ~ names_mount cwd (CacheDir cfg) abs d x i)
  | Fail _ d' => files d' = files d
  | Crash => False
  end.
Proof.
  rw /runUnmount /mustLoadConfig. destruct (config.Load getenv) as [cfg|]; [|done]. case_decide; [done|].
  destruct (Abs cwd mountpoint) as [abs|]; [|done]. destruct (readdir (CacheDir cfg)) as [entries|] eqn:Er; [|done].
  pose proof (find_daemon_cases cwd (CacheDir cfg) abs entries d) as HF.
  destruct (find_daemon cwd (CacheDir cfg) abs entries d) as [[[name info]|] d'].
  - destruct HF as (Hd & pre & e & post & -> & Hn & Hm & Hpre). destruct (kill (PID info)) eqn:Hk; [|done].
    split; [done|]. split; [done|]. by exists cfg, abs, pre, e, post, info.
  - destruct HF as [Hd Hno]. split; [done|]. move=> H0. exists cfg, abs, entries. by auto.
Qed.

(** ** The store that is picked *)

Section backend.
Context {W : Type} {H : HttpClient W} {C : S3Client W} (max_pages : W → nat).
Context (bobj : W → string → option bytes) (puts gets : string → string → Prop).
Context (objs : W → string → option bytes) (listing : W → option string → list string)
        (pages : W → option string → nat).
Hypothesis enough_pages : ∀ w, (pages w None < max_pages w)%nat.

(** The objects of the store that was picked, and its index object. *)
Definition backend_obj (b : backend) : W → string → option bytes :=
  match b with UseBroker _ => bobj | UseS3 _ s => chunk_obj s objs end.
Definition backend_raw (b : backend) : W → option bytes :=
  match b with UseBroker _ => fun w => bobj w brokerIndexKey | UseS3 _ s => index_obj s objs end.

(** What is assumed of the service behind the store. *)
Definition backend_service (b : backend) : Prop :=
  match b with UseBroker s => BrokerLaws H s bobj puts gets | UseS3 _ s => S3Laws C s objs listing pages end.

Lemma chooseStore_ok load_config cfg b :
  chooseStore load_config cfg = Ok b → backend_service b →
  StoreLaws (backend_store max_pages b) (backend_obj b) ∧
  ObjectLaws (backend_object max_pages b) (backend_obj b) (backend_raw b).
Proof.
  rw /chooseStore. case_decide as Hb.
  - move=> [<-] /= L. apply (BrokerStore_ok _ bobj puts gets). simpl. rw /defaultMaxAttempts. lia.
  - destruct (S3Store.NewS3Store _ _ _ _ _ _ _ _) as [[o s]|]; [|done]. move=> [<-] /= L.
    by apply (S3Store_ok s objs listing pages).
Qed.

(** C27: whichever store is configured, it is a store. A configuration that the
    command accepts names a broker or a bucket; the broker is used exactly when
    its URL is set; and the store that is built keeps the laws of an object
    store as soon as the service behind it does what it documents. *)
Theorem chooseStore_laws getenv load_config cfg b :
  mustLoadConfig getenv = Ok cfg → chooseStore load_config cfg = Ok b → backend_service b →
  (BrokerURL cfg ≠ "" ∨ Bucket cfg ≠ "") ∧ (BrokerURL cfg ≠ "" ↔ ∃ s, b = UseBroker s) ∧
  StoreLaws (backend_store max_pages b) (backend_obj b) ∧
  ObjectLaws (backend_object max_pages b) (backend_obj b) (backend_raw b).
Proof.
  move=> Hm Hc Hs. split_and!; [| |by eapply chooseStore_ok..].
  - revert Hm. rw /mustLoadConfig. destruct (config.Load getenv) as [c|]; [|done].
    case_decide as Hn; [done|]. move=> [<-]. destruct (decide (BrokerURL c = "")); [right|by left]. naive_solver.
  - revert Hc. rw /chooseStore. case_decide as Hb; [move=> [<-]; split; by eauto|].
    destruct (S3Store.NewS3Store _ _ _ _ _ _ _ _) as [[o s]|]; [|done]. move=> [<-]. split; [done|by move=> [? ?]].
Qed.
End backend.
