(* ===== verification/Main.v ===== *)
(** The command (src/cmd/fusey/main.go): opening the stores, loading the
    index, persisting it, and the compaction run; [log.Fatalf] ends a run with an
    error. The processes around them, with signals, pipe and pid file, are in
    Daemon.v. *)
From S2P Require Import Prelude Types Extents Index OS Decimal Persist Store Cache ChunkStore Fuse Compaction Config.
#[local] Open Scope Z_scope.

Inductive MainErr :=
| SaveErr (e : PersistErr)
| FlushErr (e : ChunkErr)
| MarshalErr (e : PersistErr)
| PutErr (e : StoreErr)
| RecoverErr (e : ChunkErr)
| CacheErr (e : ChunkErr)
| LoadErr (e : PersistErr)    (* "load index from disk" *)
| ParseErr (e : PersistErr)   (* "parse index from object store" *)
| GetErr (e : StoreErr)       (* "load index from object store" *)
| CompactFailed (e : CompactErr).

Section main.
Context {W : Type} {S : Store W} {O : ObjectStore W} {C : CborCodec}.

(** [index.Save] on the local disk of the chunk store's world. *)
Definition save_local {P} (dir : string) (k : kstate W P) : outcome MainErr (kstate W P) unit :=
  let w := wd (k_cs k) in
  let put_back i d := mkK i (mkCState (cs (k_cs k)) (mkWorld (backing w) d)) (k_p k) in
  match Save dir (k_idx k, local w) with
  | Ret _ (i, d) => Ret tt (put_back i d)
  | Fail e (i, d) => Fail (SaveErr e) (put_back i d)
  | Crash => Crash
  end.

Definition flush_k {P} (k : kstate W P) : outcome MainErr (kstate W P) unit :=
  match FlushActive (k_cs k) with
  | Ret _ s => Ret tt (set_k_cs s k)
  | Fail e s => Fail (FlushErr e) (set_k_cs s k)
  | Crash => Crash
  end.

Definition set_backing {P} (b : W) (k : kstate W P) : kstate W P :=
  set_k_cs (mkCState (cs (k_cs k)) (mkWorld b (local (wd (k_cs k))))) k.

(** [store.PutRaw(ctx, store.IndexKey(), data)]. *)
Definition put_index {P} (data : bytes) (k : kstate W P) : outcome MainErr (kstate W P) unit :=
  match PutRaw IndexKey data (backing (wd (k_cs k))) with
  | Ret _ b => Ret tt (set_backing b k)
  | Fail e b => Fail (PutErr e) (set_backing b k)
  | Crash => Crash
  end.

(** The function that [buildPersistFn] returns. *)
Definition persistFn {P} (cfg : Config) (k : kstate W P) : outcome MainErr (kstate W P) unit :=
  let! _, k := (if IsDirty (k_idx k) then save_local (CacheDir cfg) k else Ret tt k) in
  let! _, k := flush_k k in
  if negb (IsRemoteDirty (k_idx k)) then Ret tt k
  else
    match Index_Marshal (k_idx k) with
    | Err e => Fail (MarshalErr e) k
    | Ok data =>
        let! _, k := put_index data k in
        Ret tt (set_k_idx (MarkRemoteClean (k_idx k)) k)
    end.

Definition mustBuildStore (cfg : Config) (w : world W) : outcome MainErr (cstate W) unit :=
  match RecoverNextSeq (mkCState (NewChunkStore (ChunkSize cfg)) w) with
  | Crash => Crash
  | Fail e s => Fail (RecoverErr e) s
  | Ret _ s =>
  match SetCacheDir (CacheDir cfg) s with
  | Crash => Crash
  | Fail e s => Fail (CacheErr e) s
  | Ret _ s => Ret tt s
  end end.

Definition loadIndex (cfg : Config) (now : Z) (w : world W) : outcome MainErr (world W) Index :=
  match Load (CacheDir cfg) (BlockSize cfg) (local w) with
  | Crash => Crash
  | Ret i d => Ret i (mkWorld (backing w) d)
  | Fail NotExist d =>
      match GetRaw IndexKey (backing w) with
      | Crash => Crash
      | Ret data b =>
          match Index_Unmarshal data (BlockSize cfg) with
          | Err e => Fail (ParseErr e) (mkWorld b d)
          | Ok i =>
              match Save (CacheDir cfg) (i, d) with
              | Crash => Crash
              | Ret _ (i, d) | Fail _ (i, d) => Ret i (mkWorld b d)
              end
          end
      | Fail ErrNotFound b => Ret (New (BlockSize cfg) now) (mkWorld b d)
      | Fail e b => Fail (GetErr e) (mkWorld b d)
      end
  | Fail e d => Fail (LoadErr e) (mkWorld (backing w) d)
  end.

(** The two together, as [runDaemon] and [runCompact] begin. *)
Definition start (cfg : Config) (now : Z) (w : world W) : outcome MainErr (world W) (kstate W unit) :=
  match mustBuildStore cfg w with
  | Crash => Crash
  | Fail e s => Fail e (wd s)
  | Ret _ s =>
      let! i, w := loadIndex cfg now (wd s) in Ret (mkK i (mkCState (cs s) w) tt) w
  end.

(** [fusefs.New(idx, cs, cfg.MaxFSSize, cfg.CacheDir)]. *)
Definition fusey_of {P} (cfg : Config) (k : kstate W P) : Fusey W :=
  Fusey_New (k_idx k) (k_cs k) (MaxFSSize cfg) (CacheDir cfg).

Definition compactor_of {P} (cfg : Config) : Compactor W P :=
  Compactor_New
    (fun k => match persistFn cfg k with
              | Ret _ k => Ret tt k | Fail _ k => Fail tt k | Crash => Crash end)
    (CompactionThreshold cfg) (ChunkSize cfg).

Definition runCompact (cfg : Config) (now : Z) (clock : Z → Z) (order : list Z) (w : world W)
    : outcome MainErr (world W) unit :=
  let! k, w := start cfg now w in
  match Compact clock order (compactor_of cfg) k with
  | Ret _ k => Ret tt (wd (k_cs k))
  | Fail e k => Fail (CompactFailed e) (wd (k_cs k))
  | Crash => Crash
  end.

(** ** Persisting step by step

    The persist function runs in a goroutine of its own, beside the FUSE
    requests: these can take effect between any two of its calls. *)
Inductive ppc :=
| AtSave | AtMarkClean | AtFlush | AtTest | AtMarshal | AtPut (data : bytes) | AtMarkRemote
| Finished | Failed (e : MainErr) | Panicked.

Definition pstep {P} (cfg : Config) (pc : ppc) (k : kstate W P) : ppc * kstate W P :=
  match pc with
  | AtSave =>
      if IsDirty (k_idx k) then
        match save_local (CacheDir cfg) k with
        | Ret _ k' => (AtMarkClean, set_k_idx (k_idx k) k')
        | Fail e k' => (Failed e, k')
        | Crash => (Panicked, k)
        end
      else (AtFlush, k)
  | AtMarkClean => (AtFlush, set_k_idx (MarkClean (k_idx k)) k)
  | AtFlush =>
      match flush_k k with
      | Ret _ k' => (AtTest, k') | Fail e k' => (Failed e, k') | Crash => (Panicked, k)
      end
  | AtTest => (if IsRemoteDirty (k_idx k) then AtMarshal else Finished, k)
  | AtMarshal =>
      match Index_Marshal (k_idx k) with
      | Err e => (Failed (MarshalErr e), k) | Ok data => (AtPut data, k)
      end
  | AtPut data =>
      match put_index data k with
      | Ret _ k' => (AtMarkRemote, k') | Fail e k' => (Failed e, k') | Crash => (Panicked, k)
      end
  | AtMarkRemote => (Finished, set_k_idx (MarkRemoteClean (k_idx k)) k)
  | Finished | Failed _ | Panicked => (pc, k)
  end.

(** Whether a goroutine is not in the persist function; its error is only
    logged. *)
Definition ended (pc : ppc) : bool := match pc with Finished | Failed _ => true | _ => false end.

(** A tick of the periodic persistence: the goroutine calls the persist function
    if the index has changed. *)
Definition tick {P} (k : kstate W P) (pc : ppc) : ppc :=
  if ended pc && (IsDirty (k_idx k) || IsRemoteDirty (k_idx k)) then AtSave else pc.

(** What else can happen meanwhile: a request of the file system. *)
Definition with_fusey {P} (cfg : Config) (f : Fusey W → option (Fusey W)) (k : kstate W P) : option (kstate W P) :=
  F ← f (fusey_of cfg k); Some (mkK (idx F) (chunks F) (k_p k)).
End main.
