(* ===== verification/MainProps.v ===== *)
(** Correctness of persisting, loading and restarting, and what goes wrong
    when requests run beside the persist function. *)
From S2P Require Import Prelude Types Extents Index IndexInv IndexProps OS Decimal Persist Store Cache ChunkStore.
From S2P Require Import Fuse FuseData FuseInv FuseProps Compaction CompactProps Config Main.
#[local] Open Scope Z_scope.

Section main.
Context {W : Type} {S : Store W} {O : ObjectStore W} {C : CborCodec}.
Context (obj : W → string → option bytes) (raw : W → option bytes).
Context {L : StoreLaws S obj} {LO : ObjectLaws O obj raw}.
Implicit Types k : kstate W unit.
Implicit Types w : world W.

(** The invariant of the file system that a daemon serves. *)
Definition k_inv cfg k : Prop := fs_inv obj (fusey_of cfg k).

Definition stored_raw k : option bytes := raw (backing (wd (k_cs k))).

(** Everything that could be read in [s] is a chunk object of [b]. *)
Definition all_stored (s : cstate W) (b : W) : Prop :=
  ∀ id o x, holds (view obj s) id o x → holds (obj b) id o x.

(** ** The steps of the persist function *)

Lemma save_local_cases cfg k :
  k_inv cfg k →
  match save_local (CacheDir cfg) k with
  | Ret _ k' => k_inv cfg k' ∧ k_idx k' = MarkClean (k_idx k) ∧
      backing (wd (k_cs k')) = backing (wd (k_cs k)) ∧ cs (k_cs k') = cs (k_cs k)
  | Fail _ k' => k_inv cfg k' ∧ k_idx k' = k_idx k ∧
      backing (wd (k_cs k')) = backing (wd (k_cs k)) ∧ cs (k_cs k') = cs (k_cs k)
  | Crash => False
  end.
Proof.
  move=> H. pose proof (save_index_cases obj (fusey_of cfg k) (CacheDir cfg) H eq_refl) as HS.
  revert HS. rw /save_index /save_local.
  change (idx (fusey_of cfg k)) with (k_idx k). change (chunks (fusey_of cfg k)) with (k_cs k).
  destruct (Save (CacheDir cfg) (k_idx k, local (wd (k_cs k)))) as [u [i d]|e [i d]|] eqn:E; [| |done].
  - move=> [Hi _]. split_and!; [exact Hi| |done|done]. destruct u.
    destruct (Save_cases (CacheDir cfg) (k_idx k) (local (wd (k_cs k))) i d) as [(?&Er&_)|(?&_&->&_)];
      [by rw E|by rw E in Er|done].
  - move=> [Hi Ei]. by split_and!.
Qed.

Lemma holds_obj (b b' : W) id o x :
  (∀ n, chunk_name n = true → obj b' n = obj b n) → holds (obj b) id o x → holds (obj b') id o x.
Proof. move=> Ho [Hid Hr]. by rw /holds Ho. Qed.

(** A change of the backing store that keeps the chunks. *)
Lemma set_backing_inv cfg b k :
  k_inv cfg k → (∀ x, chunk_name x = true → obj b x = obj (backing (wd (k_cs k))) x) →
  k_inv cfg (set_backing b k) ∧ extends obj (k_cs k) (k_cs (set_backing b k)).
Proof.
  move=> H Ho. pose proof (fi_cs _ _ H) as Hc.
  assert (quiet obj (k_cs k) (k_cs (set_backing b k))) as Hq
    by by apply (world_quiet obj (k_cs k) (mkWorld b (local (wd (k_cs k))))).
  split; [|by apply quiet_extends].
  apply (chunks_inv obj (fusey_of cfg k)); [done|apply Hq|by apply quiet_extends|done].
Qed.

Lemma FlushActive_raw (s : cstate W) :
  wf_cs obj s →
  match FlushActive s with
  | Ret _ s' | Fail _ s' => raw (backing (wd s')) = raw (backing (wd s)) ∧ local (wd s') = local (wd s)
  | Crash => True
  end.
Proof.
  move=> H. rw /FlushActive. destruct (activeDirty (cs s)) => //=. rw /in_world /on_backing.
  pose proof (Put_raw (activeID (cs s)) (activeBuf (cs s)) (backing (wd s)) (chunk_name_active obj s H)) as HP.
  by destruct (Put _ _ _).
Qed.

Lemma flush_k_cases cfg k :
  k_inv cfg k →
  match flush_k k with
  | Ret _ k' => k_inv cfg k' ∧ k_idx k' = k_idx k ∧ stored_raw k' = stored_raw k ∧
      extends obj (k_cs k) (k_cs k') ∧ nextSeq (cs (k_cs k')) = nextSeq (cs (k_cs k)) ∧
      all_stored (k_cs k) (backing (wd (k_cs k')))
  | Fail _ k' => k_inv cfg k' ∧ k_idx k' = k_idx k ∧ stored_raw k' = stored_raw k ∧
      extends obj (k_cs k) (k_cs k')
  | Crash => False
  end.
Proof.
  move=> H. pose proof (fi_cs _ _ H) as Hc. rw /flush_k.
  pose proof (FlushActive_cases obj (k_cs k) Hc) as HF. pose proof (FlushActive_raw (k_cs k) Hc) as HR.
  assert (∀ s, wf_cs obj s → extends obj (k_cs k) s → cache (cs s) = cache (cs (k_cs k)) →
    k_inv cfg (set_k_cs s k)) as Hgo by (move=> s; by apply (chunks_inv obj (fusey_of cfg k))).
  destruct (FlushActive (k_cs k)) as [u s|e s|] => //=.
  - destruct HF as (Hw & Hx & Ec & Hs), HR as [Er _].
    split_and!; [apply Hgo => //; by rw Ec|done|done|done|by rw Ec|done].
  - destruct HF as (Hw & Hx & Ec), HR as [Er _]. split_and!; [apply Hgo => //; by rw Ec|done..].
Qed.

Lemma put_index_cases cfg data k :
  k_inv cfg k →
  match put_index data k with
  | Ret _ k' => k_inv cfg k' ∧ k_idx k' = k_idx k ∧ stored_raw k' = Some data ∧
      extends obj (k_cs k) (k_cs k') ∧ cs (k_cs k') = cs (k_cs k) ∧
      ∀ id o x, holds (obj (backing (wd (k_cs k)))) id o x → holds (obj (backing (wd (k_cs k')))) id o x
  | Fail _ k' => k_inv cfg k' ∧ k_idx k' = k_idx k ∧
      (stored_raw k' = stored_raw k ∨ stored_raw k' = Some data) ∧ extends obj (k_cs k) (k_cs k') ∧
      ∀ id o x, holds (obj (backing (wd (k_cs k)))) id o x → holds (obj (backing (wd (k_cs k')))) id o x
  | Crash => False
  end.
Proof.
  move=> H. rw /put_index. pose proof (PutRaw_law (obj:=obj) data (backing (wd (k_cs k)))) as HP.
  destruct (PutRaw IndexKey data _) as [u b|e b|] => //=; destruct HP as [Hr Ho];
    destruct (set_backing_inv cfg b k H Ho) as [Hi Hx]; split_and!; try done;
    move=> id o x; by apply holds_obj.
Qed.

Lemma clean_inv cfg k i :
  k_inv cfg k → i = MarkClean (k_idx k) ∨ i = MarkRemoteClean (k_idx k) → k_inv cfg (set_k_idx i k).
Proof.
  move=> [Hw Hc Hd Hdir] Hi. split => //=.
  - destruct Hi as [->| ->]; by destruct Hw.
  - eapply data_inv_le; [exact Hd|]. destruct Hi as [->| ->]; by apply data_le_same.
Qed.

(** ** The whole function *)

(** The index object is the current index, and its chunks are stored. *)
Definition published k k' : Prop :=
  all_stored (k_cs k) (backing (wd (k_cs k'))) ∧
  ∃ data, Index_Marshal (k_idx k) = Ok data ∧ stored_raw k' = Some data.

(** [k'] has the content of [k], dirty flags apart. *)
Definition same_index (i i' : Index) : Prop :=
  i' = i ∨ i' = MarkClean i ∨ i' = MarkRemoteClean i ∨ i' = MarkRemoteClean (MarkClean i).

Lemma same_index_Marshal i i' : same_index i i' → Index_Marshal i' = Index_Marshal i.
Proof. by move=> [->|[->|[->| ->]]]. Qed.

(** The local half of the persist function. *)
Lemma save_if_dirty_cases cfg k : k_inv cfg k →
  match (if IsDirty (k_idx k) then save_local (CacheDir cfg) k else Ret tt k) with
  | Ret _ k1 => k_inv cfg k1 ∧ (k_idx k1 = k_idx k ∨ k_idx k1 = MarkClean (k_idx k)) ∧
      IsDirty (k_idx k1) = false ∧ backing (wd (k_cs k1)) = backing (wd (k_cs k)) ∧ cs (k_cs k1) = cs (k_cs k)
  | Fail _ k1 => k_inv cfg k1 ∧ k_idx k1 = k_idx k ∧
      backing (wd (k_cs k1)) = backing (wd (k_cs k)) ∧ cs (k_cs k1) = cs (k_cs k)
  | Crash => False
  end.
Proof.
  move=> H. destruct (IsDirty (k_idx k)) eqn:Ed; [|by split_and!; [|left|..]].
  pose proof (save_local_cases cfg k H) as HS.
  destruct (save_local _ k) as [u k1|e k1|] => //. destruct HS as (?&->&?&?). split_and!; [done|by right|done..].
Qed.

Lemma same_store_same_view k k1 : backing (wd (k_cs k1)) = backing (wd (k_cs k)) → cs (k_cs k1) = cs (k_cs k) →
  extends obj (k_cs k) (k_cs k1) ∧ extends obj (k_cs k1) (k_cs k) ∧ stored_raw k1 = stored_raw k.
Proof. move=> Eb Ec. split_and!; [| |by rw /stored_raw Eb]; apply extends_view => x _; by rw /view Eb Ec. Qed.

Lemma persistFn_cases cfg k :
  k_inv cfg k →
  match persistFn cfg k with
  | Ret _ k' => k_inv cfg k' ∧ same_index (k_idx k) (k_idx k') ∧
      IsDirty (k_idx k') = false ∧ IsRemoteDirty (k_idx k') = false ∧
      extends obj (k_cs k) (k_cs k') ∧ nextSeq (cs (k_cs k')) = nextSeq (cs (k_cs k)) ∧
      all_stored (k_cs k) (backing (wd (k_cs k'))) ∧
      if IsRemoteDirty (k_idx k) then published k k' else stored_raw k' = stored_raw k
  | Fail _ k' => k_inv cfg k' ∧ same_index (k_idx k) (k_idx k') ∧
      IsRemoteDirty (k_idx k') = IsRemoteDirty (k_idx k) ∧ extends obj (k_cs k) (k_cs k') ∧
      (stored_raw k' = stored_raw k ∨ published k k')
  | Crash => False
  end.
Proof.
  move=> H. rw /persistFn.
  pose proof (save_if_dirty_cases cfg k H) as H1. pose proof (same_store_same_view k) as Hsame.
  destruct (if IsDirty (k_idx k) then _ else _) as [u k1|e k1|] => //=; last first.
  { destruct H1 as (Hi & Ei & Eb & Ec). destruct (Hsame k1 Eb Ec) as (Hx & _ & Er).
    split_and!; [done|by left|by rw Ei|done|by left]. }
  destruct H1 as (Hi1 & Ei1 & Ed1 & Eb1 & Ec1). destruct (Hsame k1 Eb1 Ec1) as (Hx1 & Hx1' & Er1).
  assert (same_index (k_idx k) (k_idx k1)) as Hsi by (destruct Ei1 as [->| ->]; rw /same_index; auto).
  assert (IsRemoteDirty (k_idx k1) = IsRemoteDirty (k_idx k)) as Erd by by destruct Ei1 as [->| ->].
  pose proof (flush_k_cases cfg k1 Hi1) as HF. destruct (flush_k k1) as [u2 k2|e2 k2|] => //=; last first.
  { destruct HF as (Hi & Ei & Er & Hx). rw Ei. split_and!; [done..|by etrans|left; congruence]. }
  destruct HF as (Hi2 & Ei2 & Er2 & Hx2 & En2 & Hs2).
  assert (all_stored (k_cs k) (backing (wd (k_cs k2)))) as Hs by (move=> id o x /Hx1; apply Hs2).
  assert (extends obj (k_cs k) (k_cs k2)) as Hx by by etrans.
  assert (nextSeq (cs (k_cs k2)) = nextSeq (cs (k_cs k))) as En by by rw En2 Ec1.
  rw Ei2. destruct (IsRemoteDirty (k_idx k1)) eqn:Erm; simpl; last first.
  { rw Ei2 - Erd. split_and!; [done..|congruence]. }
  rw - Erd. destruct (Index_Marshal (k_idx k1)) as [data|er] eqn:EM; last first.
  { rw Ei2. split_and!; [done|done|congruence|done|left; congruence]. }
  rw (same_index_Marshal _ _ Hsi) in EM.
  pose proof (put_index_cases cfg data k2 Hi2) as HP. destruct (put_index data k2) as [u3 k3|e3 k3|] => //=.
  - destruct HP as (Hi3 & Ei3 & Er3 & Hx3 & Ec3 & Hk3).
    assert (all_stored (k_cs k) (backing (wd (k_cs k3)))) as Hs3 by (move=> id o x /Hs; apply Hk3).
    split_and!.
    + apply clean_inv; [done|by right].
    + rw Ei3 Ei2. destruct Ei1 as [->| ->]; rw /same_index; auto.
    + by rw Ei3 Ei2.
    + done.
    + by etrans.
    + by rw Ec3.
    + done.
    + split; [done|]. eauto.
  - destruct HP as (Hi3 & Ei3 & Er3 & Hx3 & Hk3). rw Ei3 Ei2. split_and!; [done|done|congruence|by etrans|].
    destruct Er3 as [Er3|Er3]; [left; congruence|right].
    split; [|by eauto]. move=> id o x /Hs. apply Hk3.
Qed.

(** ** Starting *)

Definition snapshot_of cfg w : option bytes := files (local w) !! Join (CacheDir cfg) snapshotFile.

(** Nothing but the local snapshot and its temporary file has changed. *)
Definition load_frame cfg w w' : Prop :=
  (∀ n, chunk_name n = true → obj (backing w') n = obj (backing w) n) ∧
  raw (backing w') = raw (backing w) ∧
  same_except [Join (CacheDir cfg) snapshotFile; tmp_name (Join (CacheDir cfg) snapshotFile)] (local w) (local w').

(** How [loadIndex] ends, case by case. *)
Definition loaded cfg now w (i : Index) : Prop :=
  match snapshot_of cfg w with
  | Some data => Index_Unmarshal data (BlockSize cfg) = Ok i
  | None =>
      match raw (backing w) with
      | Some data => Index_Unmarshal data (BlockSize cfg) = Ok i
      | None => i = New (BlockSize cfg) now
      end
  end.

Lemma load_local_cases dir bs (d : Disk) :
  match Load dir bs d with
  | Ret i d' => files d' = files d ∧ ∃ data, files d !! Join dir snapshotFile = Some data ∧
      Index_Unmarshal data bs = Ok i
  | Fail NotExist d' => files d' = files d ∧ files d !! Join dir snapshotFile = None
  | Fail UnmarshalFailed d' => files d' = files d ∧ ∃ data, files d !! Join dir snapshotFile = Some data ∧
      Index_Unmarshal data bs = Err UnmarshalFailed
  | Fail _ d' => files d' = files d
  | Crash => False
  end.
Proof.
  rw /Load /os_ReadFile. destruct (next_fault d) => //=.
  destruct (files d !! Join dir snapshotFile) as [data|] => //=.
  rw /Index_Unmarshal. destruct (cbor_Unmarshal data) as [ws|] eqn:E => //=; (split; [done|]);
    exists data; by rw E.
Qed.

Lemma Unmarshal_clean data bs i : Index_Unmarshal data bs = Ok i → MarkClean i = i.
Proof. rw /Index_Unmarshal. destruct (cbor_Unmarshal data) => // -[<-]. done. Qed.

Lemma loadIndex_cases cfg now w :
  match loadIndex cfg now w with
  | Ret i w' => load_frame cfg w w' ∧ loaded cfg now w i
  | Fail (LoadErr e) w' => load_frame cfg w w' ∧
      (e = UnmarshalFailed → ∃ data, snapshot_of cfg w = Some data ∧ Index_Unmarshal data (BlockSize cfg) = Err e)
  | Fail (GetErr _) w' => load_frame cfg w w' ∧ snapshot_of cfg w = None
  | Fail (ParseErr e) w' => load_frame cfg w w' ∧ snapshot_of cfg w = None ∧
      ∃ data, raw (backing w) = Some data ∧ Index_Unmarshal data (BlockSize cfg) = Err e
  | _ => False
  end.
Proof.
  rw /loadIndex /loaded. pose proof (load_local_cases (CacheDir cfg) (BlockSize cfg) (local w)) as HL.
  destruct (Load _ _ _) as [i d|e d|] => //.
  { destruct HL as [Ef (data & Hd & Hu)]. rw /snapshot_of Hd. split; [|done].
    split_and!; [done..|]. move=> x _ /=. by rw Ef. }
  assert (files d = files (local w)) as Ef by (destruct e; first [exact HL|exact (proj1 HL)]).
  assert (load_frame cfg w (mkWorld (backing w) d)) as Hfr by (split_and!; [done..|move=> x _ /=; by rw Ef]).
  destruct e; try by (split; [exact Hfr|done]).
  2: { destruct HL as [_ HL]. split; [exact Hfr|by intros _]. }
  destruct HL as [_ Hn]. pose proof (GetRaw_law (obj:=obj) (backing w)) as HG.
  destruct (GetRaw IndexKey (backing w)) as [data b|e b|] => //; last first.
  { destruct HG as (Hnf & Hr & Ho).
    assert (load_frame cfg w (mkWorld b d)) by (split_and!; [done..|move=> x _ /=; by rw Ef]).
    destruct e; [|done]. by rw /snapshot_of Hn Hnf. }
  destruct HG as (Hd & Hr & Ho). destruct (Index_Unmarshal data (BlockSize cfg)) as [i|e] eqn:EU; last first.
  { split_and!; [|done|by eauto]. split_and!; [done..|move=> x _ /=; by rw Ef]. }
  assert (∀ i' d', out_state (Save (CacheDir cfg) (i, d)) = Some (i', d') →
    load_frame cfg w (mkWorld b d') ∧ i' = i) as Hgo.
  { move=> i' d' HS. split.
    - split_and!; [done..|]. move=> x Hx /=. rw - Ef. by apply (Save_frame _ _ _ _ _ HS).
    - destruct (Save_cases _ _ _ _ _ HS) as [(?&_&->&_)|(?&_&->&_)]; [done|by eapply Unmarshal_clean]. }
  destruct (Save (CacheDir cfg) (i, d)) as [u [i' d']|e [i' d']|] eqn:ES.
  - destruct (Hgo i' d' eq_refl) as [Hf ->]. split; [done|]. by rw /snapshot_of Hn Hd.
  - destruct (Hgo i' d' eq_refl) as [Hf ->]. split; [done|]. by rw /snapshot_of Hn Hd.
  - by apply Save_crash in ES.
Qed.

(** A machine that has no chunk cached. *)
Definition no_cached cfg w : Prop :=
  ∀ n, chunk_name n = true → files (local w) !! Join (Join (CacheDir cfg) "chunks") n = None.

Lemma no_cached_of cfg w : no_cached cfg w → cache_of obj (backing w) (CacheDir cfg) (local w).
Proof. move=> H n f /H E. by rw E. Qed.

Definition few_chunks w : Prop := ∀ r, 10 ^ 8 <= r < 2 ^ 63 → obj (backing w) (chunkID r) = None.

(** Opening the stores on a machine whose cache belongs to the store. *)
Lemma mustBuildStore_cases cfg w :
  0 <= ChunkSize cfg < 2 ^ 62 → few_chunks w → cache_of obj (backing w) (CacheDir cfg) (local w) →
  match mustBuildStore cfg w with
  | Ret _ s => wf_cs obj s ∧ cache (cs s) = Some (mkCache (Join (CacheDir cfg) "chunks")) ∧
      obj (backing (wd s)) (activeID (cs s)) = None ∧
      (∀ n, chunk_name n = true → obj (backing (wd s)) n = obj (backing w) n) ∧
      raw (backing (wd s)) = raw (backing w) ∧ files (local (wd s)) = files (local w)
  | Fail (RecoverErr _) _ | Fail (CacheErr _) _ => True
  | _ => False
  end.
Proof.
  move=> Hz Hfew Hnc. rw /mustBuildStore.
  pose proof (RecoverNextSeq_cases obj (ChunkSize cfg) w Hz Hfew) as HR.
  assert (match RecoverNextSeq (mkCState (NewChunkStore (ChunkSize cfg)) w) with
    | Ret _ s => raw (backing (wd s)) = raw (backing w) | _ => True end) as Hraw.
  { rw /RecoverNextSeq /in_world /on_backing. pose proof (List_raw (obj:=obj) (backing w)) as HL.
    destruct (List (backing w)) as [ids b|e b|] eqn:EL; rw EL //=. by destruct (_ <? 0). }
  destruct (RecoverNextSeq _) as [u s|e s|] => //.
  destruct HR as (Hw & _ & _ & _ & _ & El & Hfree & Ho).
  assert (cache_of obj (backing (wd s)) (CacheDir cfg) (local (wd s))) as Hnc'.
  { rw El. move=> n f Hn Hf. rw Ho //. by apply Hnc. }
  pose proof (SetCacheDir_cases obj (CacheDir cfg) s Hw Hfree Hnc') as HS.
  assert (match SetCacheDir (CacheDir cfg) s with
    | Ret _ s' => files (local (wd s')) = files (local (wd s)) | _ => True end) as Hloc.
  { rw /SetCacheDir /in_world /on_local /newChunkCache /os_MkdirAll. by destruct (next_fault _). }
  destruct (SetCacheDir _ s) as [u' s'|e s'|] => //. destruct HS as (Hw' & _ & Eb & Ec).
  rw Ec Eb. split_and!; [done..|]. by rw Hloc El.
Qed.

(** The session sees what the store holds. *)
Lemma fresh_session_sees (s : cstate W) b id o x :
  (∀ n, chunk_name n = true → obj (backing (wd s)) n = obj b n) →
  obj (backing (wd s)) (activeID (cs s)) = None →
  holds (obj b) id o x → holds (view obj s) id o x.
Proof.
  move=> Ho Hf [Hid [Ho' [Hx [data [Hd Hr]]]]]. split_and!; [done..|]. exists data.
  split; [|done]. rw /view. case_decide as E; [|by rw Ho].
  exfalso. rw - E Ho // in Hf. by rw Hf in Hd.
Qed.

Lemma wf_cs_frame cfg (s : cstate W) w :
  wf_cs obj s → cache (cs s) = Some (mkCache (Join (CacheDir cfg) "chunks")) → load_frame cfg (wd s) w →
  wf_cs obj (mkCState (cs s) w) ∧ (∀ n, chunk_name n = true → view obj (mkCState (cs s) w) n = view obj s n).
Proof.
  move=> H Hc [Ho [_ Hl]].
  assert (quiet obj s (mkCState (cs s) (mkWorld (backing w) (local (wd s))))) as Hq
    by by apply (world_quiet obj s (mkWorld (backing w) (local (wd s)))).
  split.
  - pose proof (wf_cs_local obj (mkCState (cs s) (mkWorld (backing w) (local (wd s)))) (local w) (q_wf _ _ _ Hq)) as Hw.
    destruct w as [b d]. apply Hw => c n /=. rw Hc => -[<-]. by eapply cached_save.
  - move=> n Hn. rw - (quiet_view obj _ _ n Hq Hn). done.
Qed.
End main.

(** ** Compaction with this persist function *)

Section compact.
Context {W : Type} {S : Store W} {O : ObjectStore W} {C : CborCodec}.
Variable clock : Z → Z.

Definition compacted (id : string) : Prop := ∃ t q, id = compacted_id t q.

Lemma compacted_unpersistable id : compacted id → strip_prefix chunkIDPrefix id = None.
Proof. by move=> [t [q ->]]. Qed.

(** All that packing produces is named as compacted. *)
Definition names_compacted (p : packing) : Prop :=
  compacted (o_id (p_cur p)) ∧ ∀ key e, p_remap p !! key = Some e → compacted (Extent.ChunkID e).

Lemma place_names e data sz p :
  names_compacted p → names_compacted (place clock e data sz p) ∧
  is_Some (p_remap (place clock e data sz p) !! ekey e) ∧
  ∀ key, is_Some (p_remap p !! key) → is_Some (p_remap (place clock e data sz p) !! key).
Proof.
  move=> [Hc Hr]. rw /place. set (p1 := if (0 <? len (o_buf (p_cur p))) && (len (o_buf (p_cur p)) +! Extent.Length e >? sz)
    then newOutput clock p else p).
  assert (names_compacted p1 ∧ p_remap p1 = p_remap p) as [[Hc1 Hr1] Em].
  { rw /p1. destruct (_ && _); [|done]. split; [|done]. split; [|done]. rw /=. by do 2 eexists. }
  split_and!.
  - split; [done|]. move=> key x /=. rw lookup_insert_Some => -[[_ <-]|[_ /Hr1]]; done.
  - rw /= lookup_insert_eq. by eexists.
  - move=> key. rw /= - Em lookup_insert_is_Some'. by right.
Qed.

Lemma pack_names sz exts : ∀ p (s : cstate W) p' s',
  names_compacted p → pack clock sz exts p s = Ret p' s' →
  names_compacted p' ∧ (∀ e, e ∈ exts → is_Some (p_remap p' !! ekey e)) ∧
  ∀ key, is_Some (p_remap p !! key) → is_Some (p_remap p' !! key).
Proof.
  elim: exts => [|e exts IH] p s p' s' Hp /=; [by move=> [<- _]; split_and!; [|move=> e /elem_of_nil|]|].
  destruct (Read _ _ _ s) as [data s1|er s1|] => // HR.
  destruct (place_names e data sz p Hp) as (Hp1 & He & Hk).
  destruct (IH _ _ _ _ Hp1 HR) as (Hp' & Hes & Hk'). split_and!; [done| |by auto].
  move=> x /elem_of_cons [->|?]; auto.
Qed.

Lemma first_output_names : names_compacted (first_output clock).
Proof. split; [by do 2 eexists|]. by move=> key e; rw lookup_empty. Qed.

(** A dirty index must be representable for the persist function to return. *)
Lemma persistFn_marshals {P} cfg (k k' : kstate W P) u :
  persistFn cfg k = Ret u k' → IsDirty (k_idx k) = true →
  extents (k_idx k') = extents (k_idx k) ∧ ∃ data, Index_Marshal (k_idx k) = Ok data.
Proof.
  rw /persistFn => HP Hd. revert HP. rw Hd /save_local.
  destruct (Save (CacheDir cfg) (k_idx k, local (wd (k_cs k)))) as [u1 [i d]|e [i d]|] eqn:ES => //.
  destruct (Save_cases (CacheDir cfg) (k_idx k) (local (wd (k_cs k))) i d) as [(?&Er&_)|(data&_&->&Hm&_)];
    [by rw ES|by rw ES in Er|].
  rw {1}/obind /flush_k. set k1 := mkK _ _ _. destruct (FlushActive (k_cs k1)) as [u2 s2|e2 s2|] => //=.
  move=> HP. split; [|by eauto]. revert HP. destruct (negb _); [by move=> [_ <-]|].
  destruct (Index_Marshal _) as [data'|] => //. rw /put_index.
  destruct (PutRaw _ _ _) => //=. by move=> [_ <-].
Qed.

(** If the remapped index can be persisted, nothing was remapped. *)
Lemma remap_representable order i (p : packing) data :
  order ≡ₚ (map_to_list (extents i)).*1 → names_compacted p →
  Index_Marshal (RemapExtents (p_remap p) i) = Ok data →
  ∀ e, e ∈ LiveExtents order i → p_remap p !! ekey e = None.
Proof.
  move=> Ho [_ Hn] Hm e He. destruct (p_remap p !! ekey e) as [x|] eqn:Ex; [|done]. exfalso.
  apply LiveExtents_inv in He as (ino & exts & Hi & Hin).
  destruct (toWireSnapshot_fails (Index_Snapshot (RemapExtents (p_remap p) i)) ino
    (remap_extent (p_remap p) <$> exts) x) as [err Herr].
  - rw /RemapExtents /= lookup_fmap. by rw Hi.
  - apply list_elem_of_fmap. exists e. split; [|done]. by rw /remap_extent - /(ekey e) Ex.
  - eapply compacted_unpersistable, Hn. exact Ex.
  - by rw /Index_Marshal Herr in Hm.
Qed.

Lemma remap_nothing order i (p : packing) :
  order ≡ₚ (map_to_list (extents i)).*1 →
  (∀ e, e ∈ LiveExtents order i → p_remap p !! ekey e = None) →
  extents (RemapExtents (p_remap p) i) = extents i.
Proof.
  move=> Ho Hn. rw /RemapExtents /=. apply map_eq => ino. rw lookup_fmap.
  destruct (extents i !! ino) as [exts|] eqn:E; [|done]. rw /=. f_equal.
  transitivity (id <$> exts); [|apply list_fmap_id]. apply list_fmap_ext => n e He.
  rw /remap_extent - /(ekey e) Hn //. eapply LiveExtents_in; [done|done|].
  by eapply list_elem_of_lookup_2.
Qed.

(** C38: with the persist function of the command, a compaction cycle that
    returns has moved nothing: no selected chunk had a live extent, and the
    extent table is the one it started with. The chunks that a cycle writes
    have names that the index cannot be persisted with, so a cycle that has
    live data to move fails. *)
Theorem Compact_never_moves {P} cfg order (k k' : kstate W P) :
  order ≡ₚ (map_to_list (extents (k_idx k))).*1 →
  Compact clock order (compactor_of cfg) k = Ret tt k' →
  extents (k_idx k') = extents (k_idx k) ∧
  ∃ ids s1 targets s2, ListSealed (k_cs k) = Ret ids s1 ∧
    select_targets (CompactionThreshold cfg) (LiveExtents order (k_idx k)) ids s1 = Ret targets s2 ∧
    ∀ e, e ∈ LiveExtents order (k_idx k) → Extent.ChunkID e ∉ targets.
Proof.
  move=> Ho. rw /Compact {1}/on_cs /as_err.
  destruct (ListSealed (k_cs k)) as [ids s1| |] eqn:EL => //=. rw {1}/on_cs /=.
  destruct (select_targets _ _ ids s1) as [targets s2| |] eqn:ET => //=.
  destruct targets as [|t ts].
  { move=> [<-]. split; [done|]. exists ids, s1, [], s2. split_and!; [done..|].
    move=> e _. apply not_elem_of_nil. }
  remember (t :: ts) as targets eqn:Et. clear t ts Et. rw {1}/on_cs /=.
  destruct (pack clock _ _ _ s2) as [p s3| |] eqn:EP => //=. rw {1}/on_cs /=.
  destruct (write_outputs _ s3) as [u s4| |] => //=.
  destruct (persistFn cfg _) as [u5 k5| |] eqn:EF => //. rw /on_cs.
  destruct (DeleteChunks targets (k_cs k5)) as [u6 s6| |] => // -[_ <-].
  destruct (persistFn_marshals _ _ _ _ EF eq_refl) as [Ee [data Hm]]. simpl in Ee, Hm.
  destruct (pack_names _ _ _ _ _ _ first_output_names EP) as (Hp & He & _).
  pose proof (remap_representable order (k_idx k) p data Ho Hp Hm) as Hn.
  split; [by rw /= Ee; eapply remap_nothing|]. exists ids, s1, targets, s2. split_and!; [done..|].
  move=> e Hl Ht. destruct (He e) as [x Hx]; [by apply elem_of_moved|]. by rw Hn in Hx.
Qed.
End compact.

(** ** The persist function beside the requests *)

Section steps.
Context {W : Type} {S : Store W} {O : ObjectStore W} {C : CborCodec}.

Fixpoint psteps {P} (n : nat) cfg (st : ppc * kstate W P) : ppc * kstate W P :=
  match n with
  | 0%nat => st
  | Datatypes.S n => psteps n cfg (pstep cfg st.1 st.2)
  end.

(** An event: a step of the persist function, or a request. *)
Inductive pevent := Step | Req (r : request).

Fixpoint interleave {P} cfg (evs : list pevent) (st : ppc * kstate W P) : option (ppc * kstate W P) :=
  match evs with
  | [] => Some st
  | Step :: evs => interleave cfg evs (pstep cfg st.1 st.2)
  | Req r :: evs => k ← with_fusey cfg (serve r) st.2; interleave cfg evs (st.1, k)
  end.

Lemma save_local_idx {P} dir (k k' : kstate W P) u :
  save_local dir k = Ret u k' → k_idx k' = MarkClean (k_idx k).
Proof.
  rw /save_local.
  destruct (Save dir (k_idx k, local (wd (k_cs k)))) as [u1 [i d]|e [i d]|] eqn:ES => // -[_ <-].
  by destruct (Save_cases dir (k_idx k) (local (wd (k_cs k))) i d) as [(?&Er&_)|(?&_&->&_)];
    [rw ES|rw ES in Er|].
Qed.

(** The seven steps refine the persist function: run without interference
    they end where it ends, in the same state. *)
Theorem persist_steps_sequential {P} cfg (k : kstate W P) :
  match persistFn cfg k with
  | Ret _ k' => psteps 7 cfg (AtSave, k) = (Finished, k')
  | Fail e k' => psteps 7 cfg (AtSave, k) = (Failed e, k')
  | Crash => (psteps 7 cfg (AtSave, k)).1 = Panicked
  end.
Proof.
  rw /persistFn.
  rw /psteps /=. destruct (IsDirty (k_idx k)) eqn:Ed; simpl.
  - destruct (save_local (CacheDir cfg) k) as [u k1|e k1|] eqn:ES => //=.
    pose proof (save_local_idx _ _ _ _ ES) as Ei.
    assert (set_k_idx (MarkClean (k_idx k)) (set_k_idx (k_idx k) k1) = k1) as ->
      by (rw - Ei; by destruct k1).
    destruct (flush_k k1) as [u2 k2|e2 k2|] => //=. destruct (IsRemoteDirty (k_idx k2)) => //=.
    destruct (Index_Marshal (k_idx k2)) as [data|e] => //=. by destruct (put_index data k2).
  - destruct (flush_k k) as [u2 k2|e2 k2|] => //=. destruct (IsRemoteDirty (k_idx k2)) => //=.
    destruct (Index_Marshal (k_idx k2)) as [data|e] => //=. by destruct (put_index data k2).
Qed.
End steps.

Section properties.
Context {W : Type} {S : Store W} {O : ObjectStore W} {C : CborCodec}.
Context (obj : W → string → option bytes) (raw : W → option bytes).
Context {L : StoreLaws S obj} {LO : ObjectLaws O obj raw}.
Implicit Types k : kstate W unit.

(** C11: persisting is safe however it ends. When the persist function returns,
    both dirty flags are clear, every byte that can be read is in a chunk
    object, and if the index had changed since the last remote write the index
    object is the current index. When it fails, the index object is the old
    one or the complete new one, in which case its chunks are stored; the
    remote dirty flag stays, so the write is tried again. No file changes. *)
Theorem persistFn_publishes cfg k :
  k_inv obj cfg k →
  match persistFn cfg k with
  | Ret _ k' => k_inv obj cfg k' ∧ same_index (k_idx k) (k_idx k') ∧
      IsDirty (k_idx k') = false ∧ IsRemoteDirty (k_idx k') = false ∧
      all_stored obj (k_cs k) (backing (wd (k_cs k'))) ∧
      (if IsRemoteDirty (k_idx k) then published obj raw k k' else stored_raw raw k' = stored_raw raw k) ∧
      ∀ ino o, file_content obj (fusey_of cfg k') ino o = file_content obj (fusey_of cfg k) ino o
  | Fail _ k' => k_inv obj cfg k' ∧ same_index (k_idx k) (k_idx k') ∧
      IsRemoteDirty (k_idx k') = IsRemoteDirty (k_idx k) ∧
      (stored_raw raw k' = stored_raw raw k ∨ published obj raw k k') ∧
      ∀ ino o, file_content obj (fusey_of cfg k') ino o = file_content obj (fusey_of cfg k) ino o
  | Crash => False
  end.
Proof.
  move=> H. pose proof (persistFn_cases obj raw cfg k H) as HP.
  assert (∀ k', same_index (k_idx k) (k_idx k') → extends obj (k_cs k) (k_cs k') →
    ∀ ino o, file_content obj (fusey_of cfg k') ino o = file_content obj (fusey_of cfg k) ino o) as Hc.
  { move=> k' Hs Hx ino. apply file_content_extends => //=. by destruct Hs as [->|[->|[->| ->]]]. }
  destruct (persistFn cfg k) as [u k'|e k'|] => //.
  - destruct HP as (?&?&?&?&?&?&?&?). split_and!; by [|apply Hc].
  - destruct HP as (?&?&?&?&?). split_and!; by [|apply Hc].
Qed.

Lemma remote_restart_ok `{!CborLaws C} cfg k k' d now :
  k_inv obj cfg k → canonical_extents (extents (k_idx k)) → loadable (k_idx k) = true → IsRemoteDirty (k_idx k) = true →
  0 <= ChunkSize cfg < 2 ^ 62 → nextSeq (cs (k_cs k)) <= 10 ^ 8 →
  persistFn cfg k = Ret tt k' →
  let w := mkWorld (backing (wd (k_cs k'))) d in
  snapshot_of cfg w = None → no_cached cfg w →
  match start cfg now w with
  | Ret k2 _ => k_idx k2 = reloaded (k_idx k) (BlockSize cfg) ∧ k_inv obj cfg k2 ∧
      ∀ ino o, file_content obj (fusey_of cfg k2) ino o = file_content obj (fusey_of cfg k) ino o
  | Fail (RecoverErr _) _ | Fail (CacheErr _) _ | Fail (LoadErr _) _ | Fail (GetErr _) _ => True
  | _ => False
  end.
Proof.
  move=> H Hcan Hld Hrd Hz Hq HP w Hns Hnc.
  pose proof (persistFn_cases obj raw cfg k H) as HP'. rw HP Hrd in HP'.
  destruct HP' as (Hi & _ & _ & _ & _ & En & Hst & _ & data & HM & Hraw).
  assert (few_chunks obj w) as Hfew.
  { move=> r Hr /=. apply (wf_unused _ _ (fi_cs _ _ Hi)). rw /= En. lia. }
  pose proof (mustBuildStore_cases obj raw cfg w Hz Hfew (no_cached_of obj cfg w Hnc)) as HB. rw /start.
  destruct (mustBuildStore cfg w) as [u s|[] s|] => //.
  destruct HB as (Hw & Hcache & Hfree & Ho & Er & El).
  pose proof (loadIndex_cases obj raw cfg now (wd s)) as HL.
  assert (snapshot_of cfg (wd s) = None) as Hns' by by rw /snapshot_of El.
  assert (Index_Unmarshal data (BlockSize cfg) = Ok (reloaded (k_idx k) (BlockSize cfg))) as HU
    by by rw (Unmarshal_Marshal (k_idx k) _ data (fi_idx _ _ H) Hcan HM) Hld.
  assert (raw (backing (wd s)) = Some data) as Hraw' by by rw Er.
  destruct (loadIndex cfg now (wd s)) as [i w'|[] w'|] => //=; last first.
  { destruct HL as (_ & _ & data' & Hd' & Hu'). rw Hraw' in Hd'. injection Hd' as <-. by rw HU in Hu'. }
  destruct HL as [Hf Hl]. rw /loaded Hns' Hraw' HU in Hl. injection Hl as <-.
  destruct (wf_cs_frame obj raw cfg s w' Hw Hcache Hf) as [Hw' Hv].
  assert (extends obj (k_cs k) (mkCState (cs s) w')) as Hx.
  { etrans; [|by apply extends_view]. move=> id o x /Hst. by apply fresh_session_sees. }
  split_and!; [done| |].
  - split => /=; [by destruct (fi_idx _ _ H); split|done| |by rw Hcache => c -[<-]].
    eapply data_inv_extends; [exact Hx|]. exact (fi_data _ _ H).
  - move=> ino. by apply file_content_extends.
Qed.

(** Durability across machines. When the persist function has returned
    after a change to an index that is loadable, a process that starts on another machine, with nothing on
    its local disk but with access to the object store, loads the same index
    (clean flags apart), and sees every file with exactly the content it had;
    it can fail only for an I/O error, and never takes the file system for a
    new one. *)
Theorem remote_restart `{!CborLaws C} cfg k k' d now :
  k_inv obj cfg k → canonical_extents (extents (k_idx k)) → loadable (k_idx k) = true → IsRemoteDirty (k_idx k) = true →
  0 <= ChunkSize cfg < 2 ^ 62 → nextSeq (cs (k_cs k)) <= 10 ^ 8 →
  persistFn cfg k = Ret tt k' →
  let w := mkWorld (backing (wd (k_cs k'))) d in
  snapshot_of cfg w = None → no_cached cfg w →
  match start cfg now w with
  | Ret k2 _ => k_idx k2 = reloaded (k_idx k) (BlockSize cfg) ∧ k_inv obj cfg k2 ∧
      ∀ ino o, file_content obj (fusey_of cfg k2) ino o = file_content obj (fusey_of cfg k) ino o
  | Fail (RecoverErr _) _ | Fail (CacheErr _) _ | Fail (LoadErr _) _ | Fail (GetErr _) _ => True
  | _ => False
  end.
Proof. exact (remote_restart_ok cfg k k' d now). Qed.

(** Where the index comes from: the local snapshot if there is one, even
    when the object store has a newer index; otherwise the index object; a new
    file system only if there is neither. An index object that does not decode
    is fatal, it is not replaced. Loading changes no chunk and no index
    object. *)
Theorem loadIndex_priority cfg now w :
  match loadIndex cfg now w with
  | Ret i w' =>
      match snapshot_of cfg w, raw (backing w) with
      | Some data, _ | None, Some data => Index_Unmarshal data (BlockSize cfg) = Ok i
      | None, None => i = New (BlockSize cfg) now
      end ∧
      raw (backing w') = raw (backing w) ∧
      ∀ n, chunk_name n = true → obj (backing w') n = obj (backing w) n
  | Fail (ParseErr e) w' => snapshot_of cfg w = None ∧ raw (backing w') = raw (backing w) ∧
      ∃ data, raw (backing w) = Some data ∧ Index_Unmarshal data (BlockSize cfg) = Err e
  | Fail (LoadErr _) w' | Fail (GetErr _) w' => raw (backing w') = raw (backing w)
  | _ => False
  end.
Proof.
  pose proof (loadIndex_cases obj raw cfg now w) as HL. rw /loaded in HL.
  destruct (loadIndex cfg now w) as [i w'|[] w'|] => //.
  - destruct HL as [[Ho [Er _]] Hl]. split_and!; [by destruct (snapshot_of cfg w), (raw (backing w))|done..].
  - by destruct HL as [(?&?&?) _].
  - by destruct HL as ((?&?&?)&?&?).
  - by destruct HL as [(?&?&?) ?].
Qed.
End properties.
