(* ===== verification/Durable.v ===== *)
(** What every request does to the remote dirty flag, to the chunk ids of the
    index, to the index object, to the chunks in the store and to the local
    disk: the half of durability that is about requests. Life.v has the other
    half, the persist function beside them. *)
From S2P Require Import Prelude Types Extents Index IndexInv IndexProps OS Decimal Persist Store Cache ChunkStore.
From S2P Require Import ChunkProps Fuse FuseData FuseInv FuseProps Compaction CompactProps Config Main MainProps.
#[local] Open Scope Z_scope.

(** ** Indices that differ in access times *)

Definition erase_atime (n : Inode.t) : Inode.t := Inode.set_Atime 0 n.

Record same_but_atime (i j : Index) : Prop := {
  sa_inodes : erase_atime <$> inodes i = erase_atime <$> inodes j;
  sa_dirs : dirIndex i = dirIndex j;
  sa_extents : extents i = extents j;
  sa_symlinks : symlinks i = symlinks j;
  sa_xattrs : xattrs i = xattrs j;
  sa_next : nextIno i = nextIno j;
}.

#[global] Instance same_but_atime_equiv : Equivalence same_but_atime.
Proof.
  split; [by split|by move=> i j []; split|].
  move=> i j k [] ?????? [] ??????. split; etrans; eassumption.
Qed.

Lemma same_but_atime_TouchAtime ino now i : same_but_atime i (TouchAtime ino now i).
Proof.
  rw /TouchAtime. destruct (inodes i !! ino) as [n|] eqn:E; [|done]. split => //=.
  apply map_eq => k. rw !lookup_fmap. destruct (decide (k = ino)) as [->|]; [|by rw lookup_alter_ne].
  by rw lookup_alter_eq E.
Qed.

Lemma same_but_atime_finfo i j ino : same_but_atime i j → finfo i ino = finfo j ino.
Proof.
  move=> H. rw /finfo (sa_extents _ _ H). pose proof (sa_inodes _ _ H) as E.
  apply (f_equal (lookup ino)) in E. rw !lookup_fmap in E.
  destruct (inodes i !! ino) as [n|], (inodes j !! ino) as [m|] => //=.
  injection E as _ Et _ _ _ _ Es _ _ _ _ _. by rw Et Es.
Qed.

(** ** What a request does to the index *)

(** Either the remote flag is set, or nothing but access times has changed;
    chunk ids stay canonical. *)
Definition tracked (i j : Index) : Prop :=
  (IsRemoteDirty j = true ∨ IsRemoteDirty j = IsRemoteDirty i ∧ same_but_atime i j) ∧
  (canonical_extents (extents i) → canonical_extents (extents j)).

#[global] Instance tracked_preorder : PreOrder tracked.
Proof.
  split; [by move=> i; split; [right|]|].
  move=> i j k [H1 C1] [H2 C2]. split; [|by auto].
  destruct H2 as [?|[E2 S2]]; [by left|]. destruct H1 as [E1|[E1 S1]]; [left; congruence|].
  right. split; [congruence|by etrans].
Qed.

(** What an operation of the index does: it sets the local flag too, or leaves
    everything as it is. *)
Definition changed (i j : Index) : Prop := tracked i j ∧ (IsDirty j = true ∨ j = i).

#[global] Instance changed_refl : Reflexive changed.
Proof. intros i. split; [reflexivity|by right]. Qed.

Lemma changed_dirty i j :
  IsRemoteDirty j = true → IsDirty j = true → (canonical_extents (extents i) → canonical_extents (extents j)) → changed i j.
Proof. by split; [split; [left|]|left]. Qed.

Lemma canonical_delete ino m : canonical_extents m → canonical_extents (delete ino m).
Proof. move=> H k exts /lookup_delete_Some [_ Hk]. by apply (H k). Qed.

Lemma canonical_insert ino exts m :
  canonical_extents m → Forall (fun e => canonical_id (Extent.ChunkID e)) exts →
  canonical_extents (<[ino := exts]> m).
Proof. move=> H Hx k l /lookup_insert_Some [[_ <-]|[_ Hk]]; [done|by apply (H k)]. Qed.

Lemma canonical_default ino m :
  canonical_extents m → Forall (fun e => canonical_id (Extent.ChunkID e)) (default [] (m !! ino)).
Proof. move=> H. destruct (m !! ino) as [l|] eqn:E; [by apply (H ino)|by constructor]. Qed.

Lemma trim_canonical z exts :
  Forall (fun e => canonical_id (Extent.ChunkID e)) exts →
  Forall (fun e => canonical_id (Extent.ChunkID e)) (trim_extents z exts).
Proof.
  elim=> [|e l He _ IH] /=; [by constructor|]. destruct (_ >=? z); [done|].
  constructor; [|done]. by destruct (_ >? z).
Qed.

Lemma survivors_canonical off end_ e :
  canonical_id (Extent.ChunkID e) →
  Forall (fun e => canonical_id (Extent.ChunkID e)) (survivors off end_ e).
Proof. move=> He. rw /survivors. repeat case_match; repeat (constructor; [done|]); constructor. Qed.

(** [tracks] closes the branches of an index operation. *)
Ltac tracks :=
  intros j Hj; revert Hj; repeat (case_match; simplify_eq/=; try done);
  intros; simplify_eq/=; try done; try (apply changed_dirty; [done..|simpl; intros]);
  eauto using canonical_delete, canonical_insert, Forall_nil.

Lemma CreateInode_changed ft mode uid gid rdev now i :
  leaves (changed i) (CreateInode ft mode uid gid rdev now i).
Proof.
  move=> j [= <-]. do 2 case_decide; (apply changed_dirty; [done..|simpl; intros]);
    eauto using canonical_insert, Forall_nil.
Qed.

Lemma AddDirEntry_changed p nm c now i : leaves (changed i) (AddDirEntry p nm c now i).
Proof. rw /AddDirEntry. tracks. Qed.

Lemma RemoveDirEntry_changed p nm now i : leaves (changed i) (RemoveDirEntry p nm now i).
Proof. rw /RemoveDirEntry. tracks. Qed.

Lemma SetSymlink_changed ino t now i : leaves (changed i) (SetSymlink ino t now i).
Proof. rw /SetSymlink. tracks. Qed.

Lemma SetXattr_changed ino nm v now i : leaves (changed i) (SetXattr ino nm v now i).
Proof. rw /SetXattr. tracks. Qed.

Lemma RemoveXattr_changed ino nm now i : leaves (changed i) (RemoveXattr ino nm now i).
Proof. rw /RemoveXattr. tracks. Qed.

Lemma SetAttr_changed ino mode uid gid size atime mtime now i :
  leaves (changed i) (SetAttr ino mode uid gid size atime mtime now i).
Proof.
  rw /SetAttr => j. destruct (inodes i !! ino) as [n|]; [|by move=> [= <-]]. move=> [= <-].
  apply changed_dirty; [done..|]. simpl. destruct size as [z|]; [|done]. case_decide; [|done]. case_decide; [|done].
  simpl. move=> Hc. apply canonical_insert; [done|]. by apply trim_canonical, canonical_default.
Qed.

Lemma Rename_changed sp sn dp dn now i : leaves (changed i) (Index_Rename sp sn dp dn now i).
Proof.
  rw /Index_Rename => j. destruct (dir_lookup i sp sn) as [c|]; [|by move=> [= <-]]. cbv zeta.
  assert (∀ u i1, rename_drop_dst dp dn i = Ret u i1 → canonical_extents (extents i) → canonical_extents (extents i1)) as HR.
  { rw /rename_drop_dst => u i1. repeat (case_match; simplify_eq/=; try done); intros; simplify_eq/=;
      eauto using canonical_delete. }
  assert (∀ e i1, rename_drop_dst dp dn i = Fail e i1 → i1 = i) as HF.
  { rw /rename_drop_dst => e i1. repeat (case_match; simplify_eq/=; try done); intros; by simplify_eq. }
  destruct (rename_drop_dst dp dn i) as [u i1|e i1|] => //=; [|by move=> [= <-]; rw (HF e i1)].
  repeat (case_match; simplify_eq/=; try done); intros; simplify_eq/=;
    (apply changed_dirty; [done..|]); simpl; by apply (HR u i1).
Qed.

Lemma WriteExtent_changed ino ext now i :
  canonical_id (Extent.ChunkID ext) → leaves (changed i) (WriteExtent ino ext now i).
Proof.
  rw /WriteExtent => Hx j. destruct (inodes i !! ino) as [n|]; [|by move=> [= <-]].
  case_decide; [by move=> [= <-]|]. move=> [= <-]. apply changed_dirty; [done..|]. simpl. move=> Hc.
  apply canonical_insert; [done|].
  apply write_extents_Forall; [move=> e; apply survivors_canonical|by apply canonical_default|done].
Qed.

(** ** What a request does to the file system *)

Section requests.
Context {W : Type} {S : Store W} {O : ObjectStore W} {C : CborCodec}.
Context (obj : W → string → option bytes) (raw : W → option bytes).
Context {L : StoreLaws S obj} {LO : ObjectLaws O obj raw}.
Implicit Types F : Fusey W.
Implicit Types s : cstate W.

Definition raw_of s : option bytes := raw (backing (wd s)).

(** Chunk objects only grow. *)
Definition grows (b b' : W) : Prop :=
  ∀ id f, chunk_name id = true → obj b id = Some f → ∃ f', obj b' id = Some f' ∧ f `prefix_of` f'.

#[global] Instance grows_preorder : PreOrder grows.
Proof.
  split; [by move=> b id f _ Hf; exists f|]. move=> b1 b2 b3 H1 H2 id f Hid /(H1 _ _ Hid) [f' [Hf' P]].
  destruct (H2 _ _ Hid Hf') as (f'' & ? & ?). exists f''. split; [done|]. by etrans.
Qed.

Lemma grows_same b b' : (∀ k, chunk_name k = true → obj b' k = obj b k) → grows b b'.
Proof. move=> E id f Hid Hf. exists f. by rw E. Qed.

Lemma holds_grows b b' id o x : grows b b' → holds (obj b) id o x → holds (obj b') id o x.
Proof.
  intros Hg (Hid & Ho & Hx & data & Hd & Hl & Hs). split_and!; [done..|].
  destruct (Hg id data Hid Hd) as (f' & Hf' & [r ->]). exists (data ++ r). split; [done|].
  pose proof (len_nonneg r). pose proof (len_nonneg x). rw len_app. split; [lia|].
  rw slice_app_l; [done|lia..].
Qed.

(** A session with a cache, whose active chunk is ahead of its object. *)
Definition ahead s : Prop :=
  cache (cs s) ≠ None ∧ chunk_name (activeID (cs s)) = true ∧
  ∀ f, obj (backing (wd s)) (activeID (cs s)) = Some f → f `prefix_of` activeBuf (cs s).

(** A file of the cache belongs to a chunk of the store, not the active one. *)
Definition cache_fits s : Prop := ∀ c id f, cache (cs s) = Some c → chunk_name id = true →
  cached c (local (wd s)) id = Some f →
  id ≠ activeID (cs s) ∧ ∃ data, obj (backing (wd s)) id = Some data ∧ (data ≠ [] → f `prefix_of` data).

(** A path that the cache does not use. *)
Definition outside (c : chunkCache) (p : string) : Prop :=
  ∀ id, p ≠ Join (dir c) id ∧ p ≠ tmp_name (Join (dir c) id).

(** What a chunk operation does to the local disk. *)
Definition disk_step s s' : Prop :=
  cache (cs s') = cache (cs s) ∧ (cache_fits s → cache_fits s') ∧
  ∀ c p, cache (cs s) = Some c → outside c p → files (local (wd s')) !! p = files (local (wd s)) !! p.

#[global] Instance disk_step_preorder : PreOrder disk_step.
Proof.
  split; [by move=> s|]. intros s1 s2 s3 (C1 & F1 & P1) (C2 & F2 & P2). split_and!; [congruence|by auto|].
  intros c p Hc Hp. rw (P2 c) //; [by apply (P1 c)|congruence].
Qed.

(** What every chunk operation keeps: the index object, the order of the chunk
    counter, the growth of the log, a cache that fits. *)
Definition log_step s s' : Prop := ahead s →
  raw_of s' = raw_of s ∧ nextSeq (cs s) <= nextSeq (cs s') ∧ ahead s' ∧ grows (backing (wd s)) (backing (wd s')) ∧
  disk_step s s'.

#[global] Instance log_step_preorder : PreOrder log_step.
Proof.
  split; [by move=> s|]. intros s1 s2 s3 H1 H2 A1. destruct (H1 A1) as (R1 & N1 & A2 & G1 & D1).
  destruct (H2 A2) as (R2 & N2 & A3 & G2 & D2). split; [congruence|]. split; [lia|]. split; [done|]. split; by etrans.
Qed.

(** A step that leaves the fields and the objects. *)
Lemma log_same s s' : cs s' = cs s → raw_of s' = raw_of s →
  (∀ k, chunk_name k = true → obj (backing (wd s')) k = obj (backing (wd s)) k) → disk_step s s' → log_step s s'.
Proof.
  intros Ec Er Eo Hd (Hc & Hn & Ha). split; [done|]. split; [rw Ec; lia|]. split; [|by split; [apply grows_same|]].
  split_and!; [by rw Ec|by rw Ec|]. rw Ec => f. rw Eo; [apply Ha|done].
Qed.

(** The same disk, and the same objects but for the active chunk. *)
Lemma disk_same s s' : cache (cs s') = cache (cs s) → activeID (cs s') = activeID (cs s) →
  local (wd s') = local (wd s) →
  (∀ k, chunk_name k = true → k ≠ activeID (cs s) → obj (backing (wd s')) k = obj (backing (wd s)) k) → disk_step s s'.
Proof.
  intros Ec Ea El Eo. split; [done|]. split; [|by intros c p _ _; rw El].
  intros Hf c id f. rw Ec El Ea => Hc Hid Hcd. destruct (Hf c id f Hc Hid Hcd) as [Hne Hd]. split; [done|]. by rw Eo.
Qed.

Definition logs {E A} s (m : outcome E (cstate W) A) : Prop := ∀ s', out_state m = Some s' → log_step s s'.

(** Writing the active chunk. *)
Lemma put_active_grows s b : wf_cs obj s → ahead s →
  (∀ k, chunk_name k = true → k ≠ activeID (cs s) → obj b k = obj (backing (wd s)) k) →
  (obj b (activeID (cs s)) = obj (backing (wd s)) (activeID (cs s)) ∨
   obj b (activeID (cs s)) = Some (activeBuf (cs s))) →
  grows (backing (wd s)) b ∧ ∀ f, obj b (activeID (cs s)) = Some f → f `prefix_of` activeBuf (cs s).
Proof.
  intros H (_ & _ & Ha) Hk Hb. split.
  - move=> id f Hid Hf. destruct (decide (id = activeID (cs s))) as [->|Hne]; [|exists f; by rw Hk].
    destruct Hb as [->| ->]; [by exists f|]. exists (activeBuf (cs s)). split; [done|]. by apply Ha.
  - move=> f. destruct Hb as [->| ->]; [apply Ha|]. by move=> [= <-].
Qed.

Lemma Put_active s : wf_cs obj s → ahead s →
  match Put (activeID (cs s)) (activeBuf (cs s)) (backing (wd s)) with
  | Ret _ b | Fail _ b => raw b = raw (backing (wd s)) ∧ grows (backing (wd s)) b ∧
      ∀ f, obj b (activeID (cs s)) = Some f → f `prefix_of` activeBuf (cs s)
  | Crash => True
  end.
Proof.
  intros H Ha. pose proof (chunk_name_active obj s H) as Hn.
  pose proof (Put_raw (activeID (cs s)) (activeBuf (cs s)) (backing (wd s)) Hn) as HR.
  pose proof (Put_law (obj:=obj) (activeID (cs s)) (activeBuf (cs s)) (backing (wd s)) Hn) as HP.
  destruct (Put _ _ _) as [u b|e b|] => //; (split; [done|]); apply put_active_grows => //.
  - move=> k Hk Hne. by rw HP // decide_False.
  - right. by rw HP // decide_True.
  - by move=> k Hk Hne; apply HP.
  - apply HP.
Qed.

Lemma fetch_same id (w : world W) : chunk_name id = true →
  match fetchFullChunk id w with
  | Ret _ w' | Fail _ w' => raw (backing w') = raw (backing w) ∧
      ∀ k, chunk_name k = true → obj (backing w') k = obj (backing w) k
  | Crash => True end.
Proof.
  move=> Hid. pose proof (fetchFullChunk_cases obj id w Hid) as HC.
  assert (match fetchFullChunk id w with
    | Ret _ w' | Fail _ w' => raw (backing w') = raw (backing w) | Crash => True end) as HR.
  { rw /fetchFullChunk /on_backing. pose proof (Size_raw id (backing w) Hid) as HS.
    destruct (Size id (backing w)) as [n b|e b|] => //=.
    pose proof (GetRange_raw id 0 n b Hid) as HG. destruct (GetRange id 0 n b) => //=; congruence. }
  destruct (fetchFullChunk id w) => //; (split; [done|]); [by destruct HC as (_ & ? & _)|by destruct HC].
Qed.

(** What a read may leave in the cache. *)
Definition cache_step c id (w w' : world W) : Prop :=
  (∀ k f, chunk_name k = true → cached c (local w') k = Some f →
     cached c (local w) k = Some f ∨ k = id ∧ ∃ data, obj (backing w) k = Some data ∧ (data ≠ [] → f = data)) ∧
  ∀ p, outside c p → files (local w') !! p = files (local w) !! p.

Lemma cache_step_files c id (w w' : world W) : files (local w') = files (local w) → cache_step c id w w'.
Proof. intros E. split; [intros k f _; rw /cached E; by left|by intros p _; rw E]. Qed.

Lemma writeAtomic_outside c id data d p d' :
  outside c p → out_state (writeAtomic (Join (dir c) id) data d) = Some d' → files d' !! p = files d !! p.
Proof.
  intros Hp. destruct (Hp id) as [Hp1 Hp2]. rw /writeAtomic.
  destruct (os_WriteFile _ data d) as [u d1|e d1|] eqn:E1 => //=.
  2: { intros [= <-]. apply (os_WriteFile_frame (tmp_name (Join (dir c) id)) data d); [by rw E1|set_solver]. }
  apply os_WriteFile_ret in E1. assert (files d1 !! p = files d !! p) as F1 by by rw E1 lookup_insert_ne.
  destruct (os_Rename _ _ d1) as [u2 d2|e d2|] eqn:E2 => //=.
  - intros [= <-]. apply os_Rename_ret in E2 as (dt & _ & ->). by rw lookup_insert_ne // lookup_delete_ne.
  - apply os_Rename_fail in E2. intros [= <-]. rw - F1 - E2 /os_Remove. destruct (next_fault d2) => //=.
    destruct (files d2 !! _) => //=. by rw lookup_delete_ne.
Qed.

Lemma readRange_same c id off n (w : world W) : chunk_name id = true →
  match readRange c id off n w with
  | Ret _ w' | Fail _ w' => raw (backing w') = raw (backing w) ∧
      (∀ k, chunk_name k = true → obj (backing w') k = obj (backing w) k) ∧ cache_step c id w w'
  | Crash => True end.
Proof.
  move=> Hid. rw /readRange.
  assert (∀ (w : world W), match on_local (readFileSlice (Join (dir c) id) off n) w with
    | Ret _ w' | Fail _ w' => backing w' = backing w ∧ files (local w') = files (local w) | Crash => True end) as HL.
  { move=> v. rw /on_local /readFileSlice /os_ReadAt /os_ReadFile. destruct (next_fault (local v)) => //=.
    destruct (files (local v) !! _) as [l|] => //=. by destruct (n <? 0), (off <? 0), (off + n <=? len l), (n =? 0). }
  pose proof (HL w) as H1. destruct (on_local _ w) as [b w1|e w1|] => //.
  { destruct H1 as [-> E1]. split_and!; [done..|]. by apply cache_step_files. }
  pose proof (HL w1) as H2. destruct H1 as [B1 E1]. destruct (on_local _ w1) as [b w2|e2 w2|] => //.
  { destruct H2 as [B2 E2]. rw B2 B1. split_and!; [done..|]. apply cache_step_files. congruence. }
  destruct H2 as [B2 E2]. pose proof (fetch_same id w2 Hid) as H3. rw B2 B1 in H3.
  pose proof (fetchFullChunk_cases obj id w2 Hid) as H4. rw B2 B1 in H4.
  destruct (fetchFullChunk id w2) as [data w3|e3 w3|] => //=; last first.
  { destruct H3 as [? ?]. split_and!; [done..|]. apply cache_step_files. destruct H4 as [-> _]. congruence. }
  destruct H4 as (El & _ & dt & Hdt & Hb). assert (files (local w3) = files (local w)) as E3 by congruence.
  assert (∀ d', out_state (writeAtomic (Join (dir c) id) data (local w3)) = Some d' →
    cache_step c id w (mkWorld (backing w3) d')) as HW.
  { intros d' Hd'. split; [|intros p Hp; simpl; by rw - E3; apply (writeAtomic_outside c id data)].
    intros k f Hk. pose proof (writeAtomic_cases c id data (local w3)) as HC.
    destruct (writeAtomic _ _ _) as [u1 d1|e1 d1|] => //; injection Hd' as <-; simpl; rw HC // /cached E3; [|by left].
    case_decide as Ek; [|by left]. subst k. intros [= <-]. right. split; [done|]. by exists dt. }
  rw /on_local. destruct (writeAtomic _ _ (local w3)) as [u d|e4 d|] eqn:Ew => //=; specialize (HW d eq_refl).
  - rw /go_slice /=. destruct (_ && _) => //. destruct H3. by split_and!.
  - destruct H3. by split_and!.
Qed.

Lemma Read_logs id off n s : chunk_name id = true → logs s (Read id off n s).
Proof.
  move=> Hid s' Hs Ha. pose proof (proj1 Ha) as Hca. enough (log_step s s') as G by exact (G Ha).
  revert Hs. clear Ha. rw /Read. case_decide as Hact.
  - destruct (_ <? _); [by move=> [= <-]|]. rw /in_world /go_slice.
    destruct (_ && _) => //= -[<-]. apply log_same; [done..|]. by destruct s.
  - destruct (cache (cs s)) as [c|] eqn:Ec; [|done].
    rw /in_world. pose proof (readRange_same c id off n (wd s) Hid) as HR.
    assert (∀ w', cache_step c id (wd s) w' →
      (∀ k, chunk_name k = true → obj (backing w') k = obj (backing (wd s)) k) → disk_step s (mkCState (cs s) w')) as HD.
    { intros w' [Hk Hp] Ho. split; [done|]. split; [|by intros c' p Hc'; rw Ec in Hc'; injection Hc' as <-; apply Hp].
      intros Hf c' k f Hc' Hkn Hcd. rw Ec in Hc'. injection Hc' as <-. simpl in Hcd. rw /= Ho //.
      destruct (Hk k f Hkn Hcd) as [Hold|[-> (data & Hd & He)]]; [by apply (Hf c)|].
      split; [done|]. exists data. split; [done|]. intros Hne. by rw He. }
    destruct (readRange _ _ _ _ _) => //= -[<-]; destruct HR as (? & ? & ?); by apply log_same; [..|apply HD].
Qed.

Lemma Read_extends id off n s s' : chunk_name id = true → ahead s → out_state (Read id off n s) = Some s' → extends obj s s'.
Proof.
  move=> Hid [Hc _]. rw /Read. case_decide as Hact.
  - destruct (_ <? _); [by move=> [= <-]|]. rw /in_world /go_slice. destruct (_ && _) => //= -[<-]. by apply extends_view.
  - assert (∀ w', (∀ k, chunk_name k = true → obj (backing w') k = obj (backing (wd s)) k) → extends obj s (mkCState (cs s) w'))
      as Hgo by (intros w' Ho; apply extends_view => k Hk; rw /view /=; destruct (decide _); [done|by apply Ho]).
    destruct (cache (cs s)) as [c|]; [|done]. rw /in_world. pose proof (readRange_same c id off n (wd s) Hid) as HR.
    destruct (readRange _ _ _ _ _) => //= -[<-]; destruct HR as (_ & ? & _); by apply Hgo.
Qed.

(** The objects but for the active one. *)
Lemma Put_others s u b : wf_cs obj s →
  Put (activeID (cs s)) (activeBuf (cs s)) (backing (wd s)) = Ret u b →
  obj b (activeID (cs s)) = Some (activeBuf (cs s)) ∧
  ∀ k, chunk_name k = true → k ≠ activeID (cs s) → obj b k = obj (backing (wd s)) k.
Proof.
  intros H E. pose proof (chunk_name_active obj s H) as Hn.
  pose proof (Put_law (obj:=obj) (activeID (cs s)) (activeBuf (cs s)) (backing (wd s)) Hn) as HB. rw E in HB.
  split; [by rw HB // decide_True|]. move=> k Hk Hne. by rw HB // decide_False.
Qed.

Lemma FlushActive_logs s : wf_cs obj s → logs s (FlushActive s).
Proof.
  intros H s' Hs Ha. revert Hs. rw /FlushActive. destruct (activeDirty (cs s)); simpl; last first.
  { intros [= <-]. split; [done|]. split; [lia|done]. }
  rw /in_world /on_backing. pose proof (Put_active s H Ha) as HP. pose proof (chunk_name_active obj s H) as Hn.
  pose proof (Put_law (obj:=obj) (activeID (cs s)) (activeBuf (cs s)) (backing (wd s)) Hn) as HB.
  destruct (Put _ _ _) as [u b|e b|] => //=; intros [= <-]; destruct HP as (Hr & Hg & Hp);
    (split; [done|]); (split; [simpl; lia|]); (split; [split_and!; [apply Ha|apply Ha|done]|]); (split; [done|]);
    apply disk_same; [done..| |done|done|done|].
  - intros k Hk Hne. by rw /= HB // decide_False.
  - intros k Hk Hne. by apply HB.
Qed.

(** A new active chunk: its object is not there yet. *)
Lemma rotated_ahead s b d cs' : wf_cs obj s → nextSeq (cs s) + 1 < 2 ^ 63 → ahead s →
  cache cs' = cache (cs s) → activeID cs' = chunkID (nextSeq (cs s)) →
  (∀ k, chunk_name k = true → k ≠ activeID (cs s) → obj b k = obj (backing (wd s)) k) →
  ahead (mkCState cs' (mkWorld b d)).
Proof.
  intros H Hq [Hc _] Ec Eid Hb. pose proof (wf_seq _ _ H).
  assert (chunk_name (chunkID (nextSeq (cs s))) = true) as Hn by (apply chunk_name_format; lia).
  split_and!; simpl; [by rw Ec|by rw Eid|].
  destruct (wf_unused _ _ H (nextSeq (cs s))) as [Hu _]; [lia|].
  rw Eid Hb; [by rw Hu|done|]. rw (wf_id _ _ H). move=> E. apply format_chunk_id_inj in E; lia.
Qed.

(** Rotation, with the sealed chunk put in the cache or not. *)
Lemma rotated_disk s b d cs' : wf_cs obj s → nextSeq (cs s) + 1 < 2 ^ 63 →
  cache cs' = cache (cs s) → activeID cs' = chunkID (nextSeq (cs s)) →
  (∀ k, chunk_name k = true → k ≠ activeID (cs s) → obj b k = obj (backing (wd s)) k) →
  (∀ c k f, cache (cs s) = Some c → chunk_name k = true → cached c d k = Some f →
     cached c (local (wd s)) k = Some f ∨ k = activeID (cs s) ∧ obj b k = Some f) →
  (∀ c p, cache (cs s) = Some c → outside c p → files d !! p = files (local (wd s)) !! p) →
  disk_step s (mkCState cs' (mkWorld b d)).
Proof.
  intros H Hq Ec Eid Hb Hd Hp. split; [done|]. split; [|done]. intros Hf c k f Hc Hk Hcd. simpl in Hc, Hcd |- *.
  rw Ec in Hc. pose proof (wf_seq _ _ H).
  assert (cached c (local (wd s)) k = Some f ∨ k = activeID (cs s) ∧ obj b k = Some f) as [Hold|[-> Ho]] by by apply Hd.
  - destruct (Hf c k f Hc Hk Hold) as (Hne & data & Ho & Hpre). split; [|exists data; by rw Hb].
    rw Eid. intros ->. destruct (wf_unused _ _ H (nextSeq (cs s))) as [Hu _]; [lia|]. by rw Hu in Ho.
  - split; [|by exists f]. rw Eid (wf_id _ _ H) => E. apply format_chunk_id_inj in E; lia.
Qed.

Lemma sealLocked_logs s : wf_cs obj s → nextSeq (cs s) + 1 < 2 ^ 63 → logs s (sealLocked s).
Proof.
  intros H Hq s' Hs Ha. pose proof (wf_seq _ _ H). revert Hs. rw /sealLocked. destruct (_ =? 0).
  { intros [= <-]. split; [done|]. split; [simpl; rw i64_small; [|rw /is_i64]; lia|]. destruct s as [c [b d]].
    split; [by apply (rotated_ahead (mkCState c (mkWorld b d)))|]. split; [done|].
    apply (rotated_disk (mkCState c (mkWorld b d))); try done. by left. }
  rw /in_world /on_backing.
  pose proof (Put_active s H Ha) as HP. pose proof (chunk_name_active obj s H) as Hn.
  pose proof (Put_law (obj:=obj) (activeID (cs s)) (activeBuf (cs s)) (backing (wd s)) Hn) as HB.
  destruct (Put _ _ _) as [u b|e b|] eqn:EP => //=; destruct HP as (Hr & Hg & Hp); last first.
  { intros [= <-]. split; [done|]. split; [simpl; lia|]. split; [split_and!; [apply Ha|apply Ha|done]|]. split; [done|].
    apply disk_same; [done..|]. intros k Hk Hne. by apply HB. }
  destruct (Put_others s u b H EP) as [Hact Hk].
  destruct (cache (cs s)) as [c|] eqn:Ec; simpl; [|by destruct (proj1 Ha)].
  assert (∀ d', out_state (put c (activeID (cs s)) (activeBuf (cs s)) (local (wd s))) = Some d' →
    (∀ c' k f, cache (cs s) = Some c' → chunk_name k = true → cached c' d' k = Some f →
       cached c' (local (wd s)) k = Some f ∨ k = activeID (cs s) ∧ obj b k = Some f) ∧
    ∀ c' p, cache (cs s) = Some c' → outside c' p → files d' !! p = files (local (wd s)) !! p) as HD.
  { intros d' Hd'. split; [|intros c' p; rw Ec => -[<-] Hp'; by apply (writeAtomic_outside c (activeID (cs s)) (activeBuf (cs s)))].
    intros c' k f. rw Ec => -[<-] Hkn. pose proof (writeAtomic_cases c (activeID (cs s)) (activeBuf (cs s)) (local (wd s))) as HC.
    rw /put in Hd'. destruct (writeAtomic _ _ _) => //; injection Hd' as <-; rw HC //; [|by left].
    case_decide as E; [|by left]. subst k. intros [= <-]. by right. }
  pose proof (writeAtomic_cases c (activeID (cs s)) (activeBuf (cs s)) (local (wd s))) as Hnc.
  rw /on_local /=. rw -/(put c (activeID (cs s)) (activeBuf (cs s)) (local (wd s))) in Hnc.
  destruct (put c _ _ (local (wd s))) as [v d'|v d'|]; [..|done]; clear Hnc; destruct (HD d' eq_refl) as [HD1 HD2];
    intros [= <-]; (split; [done|]); (split; [simpl; rw i64_small; [|rw /is_i64]; lia|]);
    (split; [by apply (rotated_ahead s)|]); (split; [done|]); by apply (rotated_disk s).
Qed.

Lemma Append_logs data off s : wf_cs obj s → nextSeq (cs s) + 1 < 2 ^ 63 → logs s (Append data off s).
Proof.
  intros H Hq s' Hs Ha. revert Hs. rw /Append. destruct (_ <? _).
  { intros [= <-]. split; [done|]. split; [lia|done]. }
  assert (∀ s1, log_step s s1 → log_step s (upd (fun cs => set_activeDirty true (set_activeBuf (activeBuf cs ++ data) cs)) s1))
    as Hup.
  { intros s1 Hl A. destruct (Hl A) as (R1 & N1 & (C1 & I1 & P1) & G1 & D1). split; [done|]. split; [done|].
    split; [|split; [done|etrans; [exact D1|by apply disk_same]]].
    split_and!; [done|done|]. simpl. move=> f /P1 Hf. etrans; [exact Hf|]. by exists data. }
  destruct (_ <? _); [|intros [= <-]; exact (Hup s ltac:(done) Ha)].
  pose proof (sealLocked_logs s H Hq) as HS.
  destruct (sealLocked s) as [u s1|e s1|] => //=; intros [= <-].
  - exact (Hup s1 (HS s1 eq_refl) Ha).
  - exact (HS s1 eq_refl Ha).
Qed.

(** ** Requests *)

(** The cache lies below the directory of the snapshot. *)
Definition tidy F : Prop := ∀ c, cache (cs (chunks F)) = Some c → dir c = Join (cacheDir F) "chunks".

(** The local snapshot. *)
Definition snap F : option bytes := files (local (wd (chunks F))) !! Join (cacheDir F) snapshotFile.

(** While the local flag is clear the snapshot is that of the index; or there
    is none, and nothing was changed since the start. *)
Definition saved F : Prop := IsDirty (idx F) = false →
  snap F = None ∧ IsRemoteDirty (idx F) = false ∨ ∃ data, snap F = Some data ∧ Index_Marshal (idx F) = Ok data.

(** How the chunk store goes forward, whatever happens to other files. *)
Definition goes s s' : Prop := ahead s →
  raw_of s' = raw_of s ∧ nextSeq (cs s) <= nextSeq (cs s') ∧ ahead s' ∧ grows (backing (wd s)) (backing (wd s')) ∧
  cache (cs s') = cache (cs s) ∧ (cache_fits s → cache_fits s') ∧ extends obj s s'.

Lemma log_goes s s' : log_step s s' → (ahead s → extends obj s s') → goes s s'.
Proof. intros H Hx A. specialize (Hx A). by destruct (H A) as (? & ? & ? & ? & ? & ? & ?). Qed.

(** What every request keeps: a change is tracked, the chunk store goes
    forward, and the snapshot is that of the index. *)
Definition advances F F' : Prop :=
  tracked (idx F) (idx F') ∧ cacheDir F' = cacheDir F ∧
  (tidy F → goes (chunks F) (chunks F')) ∧ (tidy F → ahead (chunks F) → saved F → saved F').

#[global] Instance advances_preorder : PreOrder advances.
Proof.
  split; [by move=> F; split; [|split; [|split; [|]]]|].
  move=> F1 F2 F3 [T1 [D1 [G1 S1]]] [T2 [D2 [G2 S2]]].
  assert (tidy F1 → ahead (chunks F1) → tidy F2 ∧ ahead (chunks F2)) as Hn.
  { intros Y1 A1. destruct (G1 Y1 A1) as (_ & _ & A2 & _ & Ec & _). split; [|done].
    intros c. rw Ec D1. apply Y1. }
  split; [by etrans|]. split; [congruence|]. split.
  - intros Y1 A1. destruct (Hn Y1 A1) as [Y2 A2]. destruct (G1 Y1 A1) as (R1 & N1 & _ & W1 & C1 & F1' & X1).
    destruct (G2 Y2 A2) as (R2 & N2 & A3 & W2 & C2 & F2' & X2).
    split; [congruence|]. split; [lia|]. split; [done|]. split; [by etrans|]. split; [congruence|].
    split; [by auto|by etrans].
  - intros Y1 A1 Hs. destruct (Hn Y1 A1). by apply S2, S1.
Qed.

(** The snapshot is no file of the cache. *)
Lemma snapshot_outside c cd : dir c = Join cd "chunks" → outside c (Join cd snapshotFile).
Proof.
  intros E id. rw E. split; intros H.
  - apply (snapshot_path_ne cd id (Join cd snapshotFile)); [left|done].
  - revert H. rw /Join /tmp_name - !str_app_assoc => H. apply (f_equal (strip_prefix cd)) in H.
    by rw !strip_prefix_app in H.
Qed.

Definition adv {A} F (m : outcome Errno (Fusey W) A) : Prop := ∀ F', out_state m = Some F' → advances F F'.

Lemma adv_refl {A} F (m : outcome Errno (Fusey W) A) : out_state m = Some F → adv F m.
Proof. move=> E F'. rw E => -[<-]. done. Qed.

Lemma adv_bind {A B} F (m : outcome Errno (Fusey W) A) (k : A → Fusey W → outcome Errno (Fusey W) B) :
  adv F m → (∀ a F1, m = Ret a F1 → adv F1 (k a F1)) → adv F (obind m k).
Proof.
  move=> Hm Hk F'. destruct m as [a F1|e F1|] => //=; [|by move=> [= <-]; apply Hm].
  move=> Hs. etrans; [by apply Hm|]. by apply (Hk a F1).
Qed.

Lemma on_idx_adv {A} (m : Index → outcome IdxErr Index A) err F :
  leaves (changed (idx F)) (m (idx F)) → adv F (on_idx m err F).
Proof.
  move=> Hl F'. rw /on_idx. destruct (m (idx F)) as [a i|e i|] => //= -[<-]; destruct (Hl i eq_refl) as [Ht Hd];
    (split; [done|]); (split; [done|]); (split; [done|]); intros _ _ Hs;
    (destruct Hd as [Hd| ->]; [intros Hf; simpl in Hf; congruence|exact Hs]).
Qed.

Lemma on_chunks_adv {A} (m : cstate W → outcome ChunkErr (cstate W) A) err F :
  logs (chunks F) (m (chunks F)) → (∀ s, ahead (chunks F) → out_state (m (chunks F)) = Some s → extends obj (chunks F) s) →
  adv F (on_chunks m err F).
Proof.
  move=> Hl Hx F'. rw /on_chunks. assert (∀ s, out_state (m (chunks F)) = Some s → advances F (set_chunks s F)) as HA.
  { intros s Hs. specialize (Hl s Hs). split; [done|]. split; [done|].
    split; [intros _; apply log_goes; [done|]; move=> ?; by apply Hx|].
    intros Y Ha Hsv. destruct (Hl Ha) as (_ & _ & _ & _ & _ & _ & Hp). destruct Ha as (Hc & _).
    destruct (cache (cs (chunks F))) as [c|] eqn:Ec; [|done].
    assert (snap (set_chunks s F) = snap F) as E by (apply (Hp c); [done|]; by apply snapshot_outside, Y).
    by rw /saved E. }
  destruct (m (chunks F)) as [a s|e s|] => //= -[<-]; by apply HA.
Qed.

Lemma read_loop_adv off end_ exts buf F :
  Forall (fun e => chunk_name (Extent.ChunkID e) = true) exts → adv F (read_loop off end_ exts buf F).
Proof.
  move=> Hx. elim: Hx buf F => [|e l He _ IH] buf F /=; [by apply adv_refl|].
  apply adv_bind; [|by move=> b F1 _; apply IH]. rw /read_one. destruct (_ || _); [by apply adv_refl|].
  apply adv_bind; [apply on_chunks_adv; [by apply Read_logs|move=> s; by apply Read_extends]|]. move=> data F1 _.
  destruct (copy_at _ _ _); [by apply adv_refl|done].
Qed.

Lemma Read_adv ino n off now F : fs_inv obj F → adv F (FileHandle_Read ino n off now F).
Proof.
  move=> H. rw /FileHandle_Read. destruct (GetInode (idx F) ino) as [nd []] eqn:En; [|by apply adv_refl].
  destruct (_ >=? _); [by apply adv_refl|]. rw /GetExtents.
  destruct (extents (idx F) !! ino) as [exts|] eqn:He; [|by apply adv_refl]. cbv zeta. destruct (_ <? 0); [done|].
  apply adv_bind.
  - apply read_loop_adv. destruct (good_extents obj F ino exts H He) as (m & _ & _ & Hg & _).
    eapply Forall_impl; [exact Hg|]. by move=> e [_ [b [_ [Hc _]]]].
  - move=> b F1 _ F' [= <-]. split.
    { split; [|by rw /= /TouchAtime; destruct (inodes _ !! _)].
      right. split; [by rw /= /TouchAtime; destruct (inodes _ !! _)|]. apply same_but_atime_TouchAtime. }
    split; [done|]. split; [done|]. intros _ _ Hs. rw /saved /= /TouchAtime.
    by destruct (inodes (idx F1) !! ino); [|].
Qed.

Lemma save_index_adv F : adv F (save_index (cacheDir F) F).
Proof.
  move=> F'. rw /save_index.
  assert (∀ i d, out_state (Save (cacheDir F) (idx F, local (wd (chunks F)))) = Some (i, d) →
    advances F (set_idx i (set_chunks (mkCState (cs (chunks F)) (mkWorld (backing (wd (chunks F))) d)) F))) as HA.
  { intros i d E. pose proof (Save_cases _ _ _ _ _ E) as HC. pose proof (Save_frame _ _ _ _ _ E) as HF. simpl in HC.
    split; [by destruct HC as [(?&_&->&_)|(?&_&->&_)]; [|split; [right|]]|]. split; [done|]. split.
    - intros Y A. split; [done|]. split; [simpl; lia|]. split; [exact A|]. split; [done|]. split; [done|].
      split; [|by apply extends_view]. intros Hf c id f Hc Hid. simpl in Hc |- *.
      rw (cached_save (cacheDir F) c (local (wd (chunks F))) d id (Y c Hc) HF). by apply Hf.
    - intros _ _ Hs Hd. destruct HC as [(e & _ & -> & Ef)|(data & _ & -> & HM & Ef)].
      + rw /snap /= Ef. by apply Hs.
      + right. exists data. by rw /snap /= Ef. }
  destruct (Save _ _) as [u [i d]|e [i d]|] => //= -[<-]; by apply HA.
Qed.

Lemma FlushActive_extends s s' : wf_cs obj s → out_state (FlushActive s) = Some s' → extends obj s s'.
Proof.
  intros H. pose proof (FlushActive_cases obj s H) as HF.
  destruct (FlushActive s) => //= -[<-]; by destruct HF as (_ & ? & _).
Qed.

Lemma Fsync_adv F : fs_inv obj F → adv F (Fsync F).
Proof.
  move=> H. rw /Fsync. apply adv_bind.
  { apply on_chunks_adv; [apply FlushActive_logs, H|]. move=> s _. by apply FlushActive_extends, H. }
  move=> u F1 _. case_decide; [apply save_index_adv|by apply adv_refl].
Qed.

Lemma Write_adv ino data off now F F' :
  fs_inv obj F → nextSeq (cs (chunks F)) + 1 < 2 ^ 63 →
  out_state (FileHandle_Write ino data off now F) = Some F' → nextSeq (cs (chunks F')) <= 10 ^ 8 → advances F F'.
Proof.
  move=> H Hq. rw /FileHandle_Write. destruct (GetInode (idx F) ino) as [nd []]; [|by move=> [= <-]].
  cbv zeta. destruct (_ && _); [by move=> [= <-]|].
  pose proof (Append_cases obj data off (chunks F) (fi_cs _ _ H) Hq) as HC.
  pose proof (on_chunks_adv (Append data off) EIO F (Append_logs data off _ (fi_cs _ _ H) Hq)) as HA.
  specialize (HA ltac:(move=> s _; destruct (Append data off (chunks F)) as [?|[]|] => //= -[<-];
    [apply (app_extends _ _ _ _ _ _ HC)|by destruct HC as [_ ->]|by destruct HC as (_ & ? & _)])).
  rw /on_chunks in HA |- *.
  destruct (Append data off (chunks F)) as [ext s|e s|] => //=; [|by move=> [= <-] _; apply HA].
  specialize (HA _ eq_refl). pose proof (on_idx_adv (WriteExtent ino ext now) (fun _ => EIO) (set_chunks s F)) as HW.
  assert (nextSeq (cs s) <= 10 ^ 8 → canonical_id (Extent.ChunkID ext)) as Hcan.
  { move=> Hn. destruct HC as [Hw _ _ _ _ _ Hid _ _ _]. rw Hid (wf_id _ _ Hw). pose proof (wf_seq _ _ Hw).
    exists (nextSeq (cs s) - 1). split; [lia|done]. }
  destruct (on_idx _ _ (set_chunks s F)) as [u F2|e F2|] eqn:E => //= -[<-] Hn; (etrans; [exact HA|]);
    (apply HW; [|done]); apply WriteExtent_changed, Hcan; revert E Hn;
    rw /on_idx; destruct (WriteExtent _ _ _ _) => // E; by injection E as _ <-.
Qed.

(** A request that does not go through a file handle makes calls of the index
    only; a preorder that these keep, it keeps. *)
Definition metadata (r : request) : bool :=
  match r with RRead _ _ _ _ | RWrite _ _ _ _ | RFsync => false | _ => true end.

Section metadata.
Variable P : Fusey W → Fusey W → Prop.
Context {HP : PreOrder P}.
Hypothesis P_idx : ∀ A (m : Index → outcome IdxErr Index A) err F F',
  leaves (changed (idx F)) (m (idx F)) → out_state (on_idx m err F) = Some F' → P F F'.

Definition keeps {A} F (m : outcome Errno (Fusey W) A) : Prop := ∀ F', out_state m = Some F' → P F F'.

Lemma keeps_same {A} F (m : outcome Errno (Fusey W) A) : out_state m = Some F → keeps F m.
Proof. move=> E F'. rw E => -[<-]. reflexivity. Qed.

Lemma keeps_bind {A B} F (m : outcome Errno (Fusey W) A) (k : A → Fusey W → outcome Errno (Fusey W) B) :
  keeps F m → (∀ a F1, keeps F1 (k a F1)) → keeps F (obind m k).
Proof.
  move=> Hm Hk F'. destruct m as [a F1|e F1|] => //=; [|by move=> [= <-]; apply Hm].
  move=> Hs. etrans; [by apply Hm|]. by apply (Hk a F1).
Qed.

Lemma keeps_idx {A} (m : Index → outcome IdxErr Index A) err F :
  leaves (changed (idx F)) (m (idx F)) → keeps F (on_idx m err F).
Proof. move=> Hl F'. by apply P_idx. Qed.

Lemma keeps_create ft perm caller ino name now F : keeps F (create_entry ft perm caller ino name now F).
Proof.
  rw /create_entry. destruct (caller_ids caller) as [u g].
  apply keeps_bind; [apply keeps_idx, CreateInode_changed|]. move=> c F1.
  apply keeps_bind; [apply keeps_idx, AddDirEntry_changed|]. move=> ? F2. by apply keeps_same.
Qed.

Lemma serve_metadata r F F' : metadata r = true → serve r F = Some F' → P F F'.
Proof.
  assert (∀ A (m : outcome Errno (Fusey W) A), keeps F m → out_state m = Some F' → P F F') as Hgo
    by (move=> A m Ha; apply Ha).
  destruct r; cbn [serve metadata]; try done; move=> _; apply Hgo.
  - rw /Getattr. destruct (GetInode _ _) as [? []]; by apply keeps_same.
  - rw /Setattr. apply keeps_bind; [apply keeps_idx, SetAttr_changed|]. move=> u F1.
    destruct (GetInode _ _) as [? []]; by apply keeps_same.
  - rw /Lookup. destruct (Index_Lookup _ _ _) as [? []]; [|by apply keeps_same].
    destruct (GetInode _ _) as [? []]; by apply keeps_same.
  - rw /Readdir. destruct (GetInode _ _) as [? []]; [|by apply keeps_same]. case_decide; [by apply keeps_same|].
    destruct (Index_Readdir _ _); by apply keeps_same.
  - apply keeps_bind; [apply keeps_create|]. move=> c F1. by apply keeps_same.
  - apply keeps_bind; [apply keeps_create|]. move=> c F1. by apply keeps_same.
  - apply keeps_bind; [apply keeps_create|]. move=> c F1.
    apply keeps_bind; [apply keeps_idx, SetSymlink_changed|]. move=> u F2. by apply keeps_same.
  - rw /Readlink. case_match; by apply keeps_same.
  - rw /Link. destruct target as [t|]; [|by apply keeps_same].
    destruct (GetInode _ _) as [? []]; [|by apply keeps_same]. case_decide; [by apply keeps_same|].
    apply keeps_bind; [apply keeps_idx, AddDirEntry_changed|]. move=> u F1. by apply keeps_same.
  - apply keeps_idx, RemoveDirEntry_changed.
  - rw /Rmdir. destruct (Index_Lookup _ _ _) as [? []]; [|by apply keeps_same].
    destruct (GetInode _ _) as [? []]; [|by apply keeps_same]. case_decide; [by apply keeps_same|].
    apply keeps_idx, RemoveDirEntry_changed.
  - rw /Node_Rename. destruct newParent as [np|]; [|by apply keeps_same]. apply keeps_idx, Rename_changed.
  - rw /Open. destruct (GetInode _ _) as [? []]; by apply keeps_same.
  - rw /Statfs. destruct (_ =? 0); [done|by apply keeps_same].
  - rw /Getxattr. case_match; apply keeps_same; [apply copy_out_state|done].
  - apply keeps_idx, SetXattr_changed.
  - apply keeps_same, copy_out_state.
  - apply keeps_idx, RemoveXattr_changed.
  - by apply keeps_same.
Qed.
End metadata.

Lemma serve_advances r F F' :
  fs_inv obj F → req_ok r F → serve r F = Some F' → nextSeq (cs (chunks F')) <= 10 ^ 8 → advances F F'.
Proof.
  move=> H Hok Hs Hn. destruct (metadata r) eqn:Em.
  - apply (serve_metadata advances) with r; [|done..]. move=> A m err F0 F0' Hl. by apply on_idx_adv.
  - destruct r; simpl in Em, Hok, Hs; try done.
    + by apply (Read_adv ino destLen off now).
    + destruct Hok as (_ & _ & _ & Hq). by eapply Write_adv.
    + by apply Fsync_adv.
Qed.
End requests.

