(* ===== verification/Life.v ===== *)
(** A daemon's life, from the index it loads to the index it leaves in the
    object store: requests, the steps of the persist function in as many
    goroutines as run it, and what is in the store and on the machine at every
    moment, whatever the schedule, as long as no request changes the index at the
    two places in the persist function that do not bear it ([calm]). *)
From S2P Require Import Prelude Types Extents Index IndexInv IndexProps OS Decimal Persist Store Cache ChunkStore.
From S2P Require Import ChunkProps Fuse FuseData FuseInv FuseProps Compaction CompactProps Config Main MainProps Durable.
#[local] Open Scope Z_scope.

(** ** Loading and access times *)

Lemma loadable_same i j : same_but_atime i j → loadable i = loadable j.
Proof.
  intros [Hn Hd He Hs Hx Ht]. rw /loadable /decodable /=. rw !map_size_fmap He Hs Hx Hd.
  apply (f_equal size) in Hn. rw !map_size_fmap in Hn. by rw Hn.
Qed.

Section life.
Context {W : Type} {S : Store W} {O : ObjectStore W} {C : CborCodec}.
Context (obj : W → string → option bytes) (raw : W → option bytes).
Context {L : StoreLaws S obj} {LO : ObjectLaws O obj raw} {LC : CborLaws C}.
Variable cfg : Config.
Implicit Types k : kstate W unit.
Implicit Types s : cstate W.

(** ** What the store recalls *)

(** The object store [b] holds the index [i], and the data of its files as the
    session [s] can read them. *)
Record image (b : W) (i : Index) (s : cstate W) : Prop := {
  im_raw : ∃ data, raw b = Some data ∧ Index_Marshal i = Ok data;
  im_wf : wf_index i;
  im_canonical : canonical_extents (extents i);
  im_data : data_inv obj i s;
  im_stored : all_stored obj s b;
}.

(** The files of [i] have the same bytes in both sessions. *)
Definition same_contents (i : Index) s s' : Prop :=
  ∀ ino exts o, extents i !! ino = Some exts → content obj s exts o = content obj s' exts o.

(** The store holds what the daemon serves in the state [k], access times apart;
    or it has no index, and the file system is as new. *)
Definition recalled k (b : W) : Prop :=
  raw b = None ∧ (∃ t, same_but_atime (New (BlockSize cfg) t) (k_idx k)) ∨
  ∃ i s, image b i s ∧ same_but_atime i (k_idx k) ∧ same_contents i s (k_cs k).

Lemma image_good b i s ino exts :
  image b i s → extents i !! ino = Some exts → Forall (good_ext obj s) exts.
Proof.
  intros [_ Hw _ Hd _] He. pose proof (wf_ext _ Hw ino ltac:(by eexists)) as Ht.
  rw /typed skeleton_lookup in Ht. destruct (inodes i !! ino) as [n|] eqn:Hn; [|done].
  simpl in Ht. injection Ht as Ht. destruct (Hd ino _ _ (finfo_regular _ _ _ Hn Ht)) as (x & E & Hg & _).
  rw He in E. by injection E as <-.
Qed.

Lemma extends_contents b i s s' : image b i s → extends obj s s' → same_contents i s s'.
Proof. intros Hi Hx ino exts o He. symmetry. apply content_extends; [done|]. by eapply image_good. Qed.

Lemma image_grows b b' i s : image b i s → raw b' = raw b → grows obj b b' → image b' i s.
Proof.
  intros [(data & Hr & HM) Hw Hc Hd Hst] Er Hg. split; [exists data; by rw Er|done..|].
  move=> id o x /Hst. by apply holds_grows.
Qed.

Lemma recalled_grows k b b' : recalled k b → raw b' = raw b → grows obj b b' → recalled k b'.
Proof.
  intros [[Hno Ht]|(i & s & Hi & Hs & Hx)] Er Hg.
  - left. split; [congruence|done].
  - right. exists i, s. split_and!; [by eapply image_grows|done|done].
Qed.

(** The same files, on more of the log. *)
Lemma recalled_extends k k' b : k_inv obj cfg k → same_but_atime (k_idx k) (k_idx k') → extends obj (k_cs k) (k_cs k') →
  recalled k b → recalled k' b.
Proof.
  intros Hi Ha Hx [[Hno [t Ht]]|(i & s & Him & Hs & Hx0)].
  - left. split; [done|]. exists t. by etrans.
  - right. exists i, s. split_and!; [done|by etrans|]. move=> ino exts o He. rw (Hx0 ino exts o He). symmetry.
    rw (sa_extents _ _ Hs) in He. destruct (good_extents obj (fusey_of cfg k) ino exts Hi He) as (m & _ & _ & Hg & _).
    by apply content_extends.
Qed.

(** A state of a daemon: while the remote flag is clear the store recalls it. *)
Record live k : Prop := {
  lv_inv : k_inv obj cfg k;
  lv_canonical : canonical_extents (extents (k_idx k));
  lv_remote : IsRemoteDirty (k_idx k) = false → recalled k (backing (wd (k_cs k)));
  lv_ahead : ahead obj (k_cs k);
}.

(** The local disk follows the daemon: its cache belongs to the store, and the
    snapshot is that of the index unless the index was changed since. *)
Definition home k : Prop := cache_fits obj (k_cs k) ∧ saved (fusey_of cfg k).

(** ** Work *)

(** What a request may do to the state while a goroutine is at [pc] in the
    persist function: nothing to the index between the snapshot that [Save]
    takes and [MarkClean], and nothing but access times between the flush of the
    active chunk and [MarkRemoteClean]. MainProps.v and MainDemo.v say what a
    request does that comes there. *)
Definition calm (pc : ppc) k k' : Prop :=
  match pc with
  | AtMarkClean => same_index (k_idx k) (k_idx k') ∧ snap (fusey_of cfg k') = snap (fusey_of cfg k)
  | AtTest | AtMarshal | AtPut _ | AtMarkRemote => same_but_atime (k_idx k) (k_idx k')
  | _ => True
  end.

(** A serving daemon: the goroutines that run the persist function, each where
    it is in it, and what they share. A goroutine calls the persist function, or
    it makes one of the calls of the persist function. The store has at most 10^8
    chunks, which is what a restart can count. *)
Inductive persisting : list ppc * kstate W unit → list ppc * kstate W unit → Prop :=
| persist_begin ts j pc k :
    ts !! j = Some pc → ended pc = true → persisting (ts, k) (<[j := AtSave]> ts, k)
| persist_call ts j pc pc' k k' :
    ts !! j = Some pc → pstep cfg pc k = (pc', k') → nextSeq (cs (k_cs k')) <= 10 ^ 8 →
    persisting (ts, k) (<[j := pc']> ts, k').

(** One thing that happens: a request is answered, or a goroutine persists. *)
Inductive work : list ppc * kstate W unit → list ppc * kstate W unit → Prop :=
| work_request ts k r F' :
    req_ok r (fusey_of cfg k) → serve r (fusey_of cfg k) = Some F' → nextSeq (cs (chunks F')) <= 10 ^ 8 →
    Forall (fun pc => calm pc k (mkK (idx F') (chunks F') tt)) ts →
    work (ts, k) (ts, mkK (idx F') (chunks F') tt)
| work_persist st st' : persisting st st' → work st st'.

(** ** What a goroutine knows at each point of the persist function *)

(** The data of the index is stored: all that some earlier session could read
    of it. *)
Definition covered k : Prop :=
  ∃ s, all_stored obj s (backing (wd (k_cs k))) ∧ data_inv obj (k_idx k) s ∧ extends obj s (k_cs k).

Definition at_ok (pc : ppc) k : Prop :=
  match pc with
  | AtMarkClean => ∃ data, snap (fusey_of cfg k) = Some data ∧ Index_Marshal (k_idx k) = Ok data
  | AtTest | AtMarshal => covered k
  | AtPut data => covered k ∧ ∃ i, Index_Marshal i = Ok data ∧ wf_index i ∧ canonical_extents (extents i) ∧
      same_but_atime i (k_idx k)
  | AtMarkRemote => recalled k (backing (wd (k_cs k)))
  | Panicked => False
  | _ => True
  end.

(** What a step of the persist function does for everyone else. *)
Record unseen k k' : Prop := {
  un_index : same_index (k_idx k) (k_idx k');
  un_extends : extends obj (k_cs k) (k_cs k');
  un_grows : grows obj (backing (wd (k_cs k))) (backing (wd (k_cs k')));
  un_snap : snap (fusey_of cfg k') = snap (fusey_of cfg k) ∨
    ∃ data, snap (fusey_of cfg k') = Some data ∧ Index_Marshal (k_idx k) = Ok data;
  un_raw : stored_raw raw k' = stored_raw raw k ∨ recalled k' (backing (wd (k_cs k')));
}.

Lemma same_index_atime i j : same_index i j → same_but_atime i j ∧ extents j = extents i.
Proof. by move=> [->|[->|[->| ->]]]. Qed.

Lemma covered_step k k' : same_but_atime (k_idx k) (k_idx k') → extends obj (k_cs k) (k_cs k') →
  grows obj (backing (wd (k_cs k))) (backing (wd (k_cs k'))) → covered k → covered k'.
Proof.
  intros Ha Hx Hg (s & Hs & Hd & Hsx). exists s. split_and!; [|move=> ino o sz|by etrans].
  - move=> id o x /Hs. by apply holds_grows.
  - rw - (same_but_atime_finfo _ _ ino Ha). apply Hd.
Qed.

Lemma unseen_recalled k k' : k_inv obj cfg k → unseen k k' → recalled k (backing (wd (k_cs k))) →
  recalled k' (backing (wd (k_cs k'))).
Proof.
  intros Hi [Hs Hx Hg _ [Er|?]] Hr; [|done]. destruct (same_index_atime _ _ Hs) as [Ha _].
  apply (recalled_extends k); [done..|]. by eapply recalled_grows.
Qed.

(** The steps of one goroutine do not disturb another. *)
Lemma at_ok_unseen pc k k' : k_inv obj cfg k → unseen k k' → at_ok pc k → at_ok pc k'.
Proof.
  intros Hi Hu. pose proof Hu as [Hs Hx Hg Hsn _]. destruct (same_index_atime _ _ Hs) as [Ha _].
  destruct pc; simpl; try done.
  - intros (data & Hd & HM). rw (same_index_Marshal _ _ Hs). destruct Hsn as [->|?]; [|done]. by exists data.
  - by apply covered_step.
  - by apply covered_step.
  - intros (Hc & i & HM & Hw & Hci & Hai). split; [by apply (covered_step k)|]. exists i. split_and!; [done..|by etrans].
  - by apply unseen_recalled.
Qed.

(** Nor does a request that is calm. *)
Lemma at_ok_calm pc k k' : k_inv obj cfg k → calm pc k k' → extends obj (k_cs k) (k_cs k') →
  grows obj (backing (wd (k_cs k))) (backing (wd (k_cs k'))) → stored_raw raw k' = stored_raw raw k →
  at_ok pc k → at_ok pc k'.
Proof.
  intros Hi Hcalm Hx Hg Hr. destruct pc; simpl in *; try done.
  - destruct Hcalm as [Hs ->]. intros (data & Hd & HM). exists data. by rw (same_index_Marshal _ _ Hs).
  - by apply covered_step.
  - by apply covered_step.
  - intros (Hc & i & HM & Hw & Hci & Hai). split; [by apply (covered_step k)|]. exists i. split_and!; [done..|by etrans].
  - intros Hrc. apply (recalled_extends k); [done..|]. by eapply recalled_grows.
Qed.

(** ** The steps of the persist function *)

Lemma adv_home k k' : k_inv obj cfg k → ahead obj (k_cs k) →
  advances obj raw (fusey_of cfg k) (fusey_of cfg k') → home k → home k'.
Proof.
  intros Hi Ha (_ & _ & Hg & Hs) [Hf Hsv]. pose proof (fi_dir _ _ Hi) as Hy.
  destruct (Hg Hy Ha) as (_ & _ & _ & _ & _ & Hf' & _). split; [by apply Hf'|by apply Hs].
Qed.

Lemma save_local_adv k k' : out_state (save_local (CacheDir cfg) k) = Some k' →
  advances obj raw (fusey_of cfg k) (fusey_of cfg k').
Proof.
  intros E. apply (save_index_adv obj raw (fusey_of cfg k)). revert E. rw /save_local /save_index.
  change (idx (fusey_of cfg k)) with (k_idx k). change (chunks (fusey_of cfg k)) with (k_cs k).
  change (cacheDir (fusey_of cfg k)) with (CacheDir cfg).
  destruct (Save (CacheDir cfg) (k_idx k, local (wd (k_cs k)))) as [u [i d]|e [i d]|]; [..|done];
    intros E; injection E as <-; done.
Qed.

Lemma save_local_snap k :
  match save_local (CacheDir cfg) k with
  | Ret _ k' => ∃ data, snap (fusey_of cfg k') = Some data ∧ Index_Marshal (k_idx k) = Ok data
  | Fail _ k' => snap (fusey_of cfg k') = snap (fusey_of cfg k)
  | Crash => True
  end.
Proof.
  rw /save_local. pose proof (Save_cases (CacheDir cfg) (k_idx k) (local (wd (k_cs k)))) as HC.
  destruct (Save (CacheDir cfg) (k_idx k, local (wd (k_cs k)))) as [u [i d]|e [i d]|] => //.
  - destruct (HC i d eq_refl) as [(e & ? & _)|(data & _ & _ & HM & Hf)]; [done|]. by exists data.
  - destruct (HC i d eq_refl) as [(e' & _ & _ & Hf)|(data & ? & _)]; [exact Hf|done].
Qed.

Lemma flush_adv k k' : k_inv obj cfg k → out_state (flush_k k) = Some k' →
  advances obj raw (fusey_of cfg k) (fusey_of cfg k').
Proof.
  intros Hi E. apply (on_chunks_adv obj raw FlushActive EIO (fusey_of cfg k)).
  - exact (FlushActive_logs obj raw (k_cs k) (fi_cs _ _ Hi)).
  - intros s _. exact (FlushActive_extends obj (k_cs k) s (fi_cs _ _ Hi)).
  - revert E. rw /flush_k /on_chunks. change (chunks (fusey_of cfg k)) with (k_cs k).
    destruct (FlushActive (k_cs k)); [..|done]; intros E; injection E as <-; done.
Qed.

(** The index object is no chunk. *)
Lemma put_home k b i : (∀ x, chunk_name x = true → obj b x = obj (backing (wd (k_cs k))) x) →
  i = k_idx k ∨ i = MarkRemoteClean (k_idx k) → home k → home (set_k_idx i (set_backing b k)).
Proof.
  intros Hb Hi [Hf Hs]. split.
  - intros c id f Hc Hid Hcd. destruct (Hf c id f Hc Hid Hcd) as (? & data & Hd & Hp). split; [done|].
    exists data. by rw /= Hb.
  - destruct Hi as [->| ->]; [exact Hs|]. intros Hd. destruct (Hs Hd) as [[Hn _]|?]; [by left|by right].
Qed.

(** The state after a step of the persist function. *)
Lemma live_next k k' : live k → k_inv obj cfg k' → ahead obj (k_cs k') → unseen k k' →
  (IsRemoteDirty (k_idx k') = false → IsRemoteDirty (k_idx k) = false ∨ recalled k' (backing (wd (k_cs k')))) →
  live k'.
Proof.
  intros H Hi Ha Hu Hr. destruct (same_index_atime _ _ (un_index _ _ Hu)) as [_ Ee]. split; [done| | |done].
  - rw Ee. apply (lv_canonical _ H).
  - intros Hf. destruct (Hr Hf) as [Hf'|?]; [|done]. by apply (unseen_recalled k), (lv_remote _ H); [apply (lv_inv _ H)| |].
Qed.

Definition step_fine k (st : ppc * kstate W unit) : Prop :=
  live st.2 ∧ home st.2 ∧ at_ok st.1 st.2 ∧ unseen k st.2.

(** A step that changes nothing. *)
Lemma step_idle k pc : live k → home k → at_ok pc k → step_fine k (pc, k).
Proof. intros Hl Hh Ha. split_and!; [done..|]. split; [by left|done|done|by left|by left]. Qed.

(** A step that changes the flags. *)
Lemma unseen_flags k i : same_index (k_idx k) i → unseen k (set_k_idx i k).
Proof. intros Hs. split; [done|done|done|by left|by left]. Qed.

Lemma unseen_same k k' : k_idx k' = k_idx k → backing (wd (k_cs k')) = backing (wd (k_cs k)) → cs (k_cs k') = cs (k_cs k) →
  (snap (fusey_of cfg k') = snap (fusey_of cfg k) ∨
   ∃ data, snap (fusey_of cfg k') = Some data ∧ Index_Marshal (k_idx k) = Ok data) → unseen k k'.
Proof.
  intros Ei Eb Ec Hs. destruct (same_store_same_view obj raw k k' Eb Ec) as (Hx & _ & Er).
  split; [by left|done|by rw Eb|done|by left].
Qed.

Lemma step_save k : live k → home k → step_fine k (pstep cfg AtSave k).
Proof.
  intros H Hh. pose proof (lv_inv _ H) as Hi. simpl. destruct (IsDirty (k_idx k)) eqn:Ed; [|by apply step_idle].
  pose proof (save_local_cases obj cfg k Hi) as HS. pose proof (save_local_snap k) as Hsn.
  pose proof (save_local_adv k) as HA. destruct (save_local _ k) as [u k1|e k1|]; [| |done].
  - destruct HS as (Hi1 & Ei & Eb & Ec). destruct (adv_home k k1 Hi (lv_ahead _ H) (HA k1 eq_refl) Hh) as [Hf _].
    assert (unseen k (set_k_idx (k_idx k) k1)) as Hu by (apply unseen_same; [done|done|done|by right]).
    split; [|split; [|by split]].
    + apply (live_next k); [done| |by rw /ahead /= Eb Ec; apply (lv_ahead _ H)|done|by left].
      destruct Hi1 as [_ Hc1 Hd1 Hy1]. split; [apply (fi_idx _ _ Hi)|done| |done].
      move=> ino o sz. specialize (Hd1 ino o sz). by rw /= Ei in Hd1.
    + split; [done|]. by rw /saved /= Ed.
  - destruct HS as (Hi1 & Ei & Eb & Ec).
    assert (unseen k k1) as Hu by (apply unseen_same; [done|done|done|by left]).
    split; [|split; [exact (adv_home k k1 Hi (lv_ahead _ H) (HA k1 eq_refl) Hh)|by split]].
    apply (live_next k); [done|done|by rw /ahead Eb Ec; apply (lv_ahead _ H)|done|rw Ei; by left].
Qed.

Lemma step_mark_clean k : live k → home k → at_ok AtMarkClean k → step_fine k (pstep cfg AtMarkClean k).
Proof.
  intros H [Hf Hs] (data & Hsn & HM). assert (unseen k (set_k_idx (MarkClean (k_idx k)) k)) as Hu
    by (apply unseen_flags; right; by left).
  split; [|split; [|by split]]; simpl.
  - apply (live_next k); [done|apply clean_inv; [apply (lv_inv _ H)|by left]|apply (lv_ahead _ H)|done|by left].
  - split; [done|]. intros _. right. by exists data.
Qed.

Lemma step_flush k : live k → home k → step_fine k (pstep cfg AtFlush k).
Proof.
  intros H Hh. pose proof (lv_inv _ H) as Hi. simpl. pose proof (flush_k_cases obj raw cfg k Hi) as HF.
  pose proof (flush_adv k) as HA.
  assert (∀ k', out_state (flush_k k) = Some k' → k_inv obj cfg k' → k_idx k' = k_idx k →
    stored_raw raw k' = stored_raw raw k → extends obj (k_cs k) (k_cs k') → live k' ∧ home k' ∧ unseen k k') as Hgo.
  { intros k' E Hi' Ei Er Hx. pose proof (HA k' Hi E) as (_ & _ & Hg & _).
    destruct (Hg (fi_dir _ _ Hi) (lv_ahead _ H)) as (_ & _ & A' & G' & _).
    assert (unseen k k') as Hu.
    { split; [by left|done|done| |by left]. left. revert E. rw /flush_k /snap /=.
      pose proof (FlushActive_raw obj raw (k_cs k) (fi_cs _ _ Hi)) as HR.
      destruct (FlushActive (k_cs k)) => //= -[<-]; simpl; by destruct HR as [_ ->]. }
    split; [|split; [exact (adv_home k k' Hi (lv_ahead _ H) (HA k' Hi E) Hh)|done]].
    apply (live_next k); [done..|rw Ei; by left]. }
  destruct (flush_k k) as [u k'|e k'|]; [| |done].
  - destruct HF as (Hi' & Ei & Er & Hx & _ & Hs). destruct (Hgo k' eq_refl Hi' Ei Er Hx) as (Hl' & Hh' & Hu').
    split_and!; [done..| |done]. exists (k_cs k). split_and!; [done| |done]. simpl. rw Ei. apply (fi_data _ _ Hi).
  - destruct HF as (Hi' & Ei & Er & Hx). destruct (Hgo k' eq_refl Hi' Ei Er Hx) as (Hl' & Hh' & Hu'). by split_and!.
Qed.

(** The index object is the index that was marshalled, whose data is stored. *)
Lemma put_recalled k k' data : at_ok (AtPut data) k → k_idx k' = k_idx k → extends obj (k_cs k) (k_cs k') →
  grows obj (backing (wd (k_cs k))) (backing (wd (k_cs k'))) → stored_raw raw k' = Some data →
  recalled k' (backing (wd (k_cs k'))).
Proof.
  intros (Hc & i & HM & Hw & Hci & Ha) Ei Hx Hg Hr.
  destruct (covered_step k k' ltac:(by rw Ei) Hx Hg Hc) as (s & Hs & Hd & Hsx).
  assert (image (backing (wd (k_cs k'))) i s) as Him.
  { split; [by exists data|done|done| |done]. move=> ino o sz. rw (same_but_atime_finfo _ _ ino Ha) - Ei. apply Hd. }
  right. exists i, s. split_and!; [done|by rw Ei|]. by eapply extends_contents.
Qed.

Lemma step_put data k : live k → home k → at_ok (AtPut data) k → step_fine k (pstep cfg (AtPut data) k).
Proof.
  intros H Hh Hat. pose proof (lv_inv _ H) as Hi. rw /pstep. pose proof (put_index_cases obj raw cfg data k Hi) as HP.
  assert (∀ k', out_state (put_index data k) = Some k' → k_inv obj cfg k' → k_idx k' = k_idx k →
    extends obj (k_cs k) (k_cs k') → stored_raw raw k' = stored_raw raw k ∨ stored_raw raw k' = Some data →
    live k' ∧ home k' ∧ unseen k k' ∧ (stored_raw raw k' = Some data → recalled k' (backing (wd (k_cs k'))))) as Hgo.
  { intros k' E Hi' Ei Hx Hr. revert E. rw /put_index. pose proof (PutRaw_law (obj:=obj) data (backing (wd (k_cs k)))) as HL.
    assert (∀ b, k' = set_backing b k → (∀ x, chunk_name x = true → obj b x = obj (backing (wd (k_cs k))) x) →
      live k' ∧ home k' ∧ unseen k k' ∧ (stored_raw raw k' = Some data → recalled k' (backing (wd (k_cs k'))))) as Hb.
    { intros b -> Hb. assert (grows obj (backing (wd (k_cs k))) b) as Hg by by apply grows_same.
      pose proof (put_recalled k (set_backing b k) data Hat eq_refl Hx Hg) as Hrc.
      assert (unseen k (set_backing b k)) as Hu.
      { split; [by left|done|done|by left|]. destruct Hr; [by left|right; by apply Hrc]. }
      split; [|split; [|by split]].
      - apply (live_next k); [done|done| |done|by left]. destruct (lv_ahead _ H) as (C2 & I2 & P2).
        split_and!; [done..|]. simpl. move=> f. rw Hb; [apply P2|done].
      - destruct k as [i s []]. apply (put_home _ b i); [done|by left|done]. }
    destruct (PutRaw IndexKey data _) as [u b|e b|] => //= -[E]; destruct HL as [_ HL]; by apply (Hb b). }
  destruct (put_index data k) as [u k'|e k'|]; [| |done].
  - destruct HP as (Hi' & Ei & Er & Hx & _). destruct (Hgo k' eq_refl Hi' Ei Hx ltac:(by right)) as (? & ? & ? & Hrc).
    split_and!; [done..| |done]. by apply Hrc.
  - destruct HP as (Hi' & Ei & Er & Hx & _). destruct (Hgo k' eq_refl Hi' Ei Hx Er) as (? & ? & ? & _). by split_and!.
Qed.

Lemma step_mark_remote k : live k → home k → at_ok AtMarkRemote k → step_fine k (pstep cfg AtMarkRemote k).
Proof.
  intros H Hh Hat. assert (unseen k (set_k_idx (MarkRemoteClean (k_idx k)) k)) as Hu
    by (apply unseen_flags; right; right; by left).
  split; [|split; [|by split]]; simpl.
  - apply (live_next k); [done|apply clean_inv; [apply (lv_inv _ H)|by right]|apply (lv_ahead _ H)|done|].
    intros _. right. by apply (unseen_recalled k); [apply (lv_inv _ H)| |].
  - destruct Hh as [Hf Hs]. split; [exact Hf|]. intros Hd. destruct (Hs Hd) as [[Hn _]|?]; [by left|by right].
Qed.

Lemma step_ok pc k : live k → home k → at_ok pc k → step_fine k (pstep cfg pc k).
Proof.
  intros H Hh Ha. destruct pc as [| | | | |data| | | |].
  - by apply step_save.
  - by apply step_mark_clean.
  - by apply step_flush.
  - apply step_idle; [done..|]. by destruct (IsRemoteDirty _).
  - simpl. destruct (Index_Marshal (k_idx k)) as [data|e] eqn:EM; apply step_idle; try done. split; [done|].
    exists (k_idx k). split_and!; [done|apply (fi_idx _ _ (lv_inv _ H))|apply (lv_canonical _ H)|done].
  - by apply step_put.
  - by apply step_mark_remote.
  - by apply step_idle.
  - by apply step_idle.
  - done.
Qed.

(** A persist that ends well leaves the remote flag clear. *)
Lemma finishes_clean pc k k' : ended pc = false → pstep cfg pc k = (Finished, k') → IsRemoteDirty (k_idx k') = false.
Proof.
  destruct pc; simpl; try done; intros _.
  - destruct (IsDirty _); [|done]. by destruct (save_local _ _).
  - by destruct (flush_k k).
  - by destruct (IsRemoteDirty (k_idx k)) eqn:E; intros [= <-].
  - by destruct (Index_Marshal _).
  - by destruct (put_index _ _).
  - by intros [= <-].
Qed.

(** ** A whole life *)

Record sound (st : list ppc * kstate W unit) : Prop := {
  sd_live : live st.2;
  sd_home : home st.2;
  sd_at : Forall (fun pc => at_ok pc st.2) st.1;
}.

(** A request, whatever it does. *)
Lemma request_ok k r F' : live k → home k → req_ok r (fusey_of cfg k) → serve r (fusey_of cfg k) = Some F' →
  nextSeq (cs (chunks F')) <= 10 ^ 8 →
  let k' := mkK (idx F') (chunks F') tt in
  live k' ∧ home k' ∧ extends obj (k_cs k) (k_cs k') ∧
  grows obj (backing (wd (k_cs k))) (backing (wd (k_cs k'))) ∧ stored_raw raw k' = stored_raw raw k.
Proof.
  intros H [Hf Hsv] Hok Hs Hn k'. pose proof (lv_inv _ H) as Hi. pose proof (fi_dir _ _ Hi) as Hy.
  pose proof (serve_inv obj r (fusey_of cfg k) F' Hi Hok Hs) as Hi'.
  destruct (serve_advances obj raw r (fusey_of cfg k) F' Hi Hok Hs Hn) as ([Ht Hc] & Ed & Hl & Hsv').
  destruct (Hl Hy (lv_ahead _ H)) as (Er & _ & A' & G' & _ & Hf' & Hx). specialize (Hsv' Hy (lv_ahead _ H) Hsv).
  assert (home k') as Hh' by (split; [by apply Hf'|]; revert Hsv'; rw /saved /snap Ed; done).
  split_and!; [|done..]. split; simpl; [| | |done].
  - destruct Hi' as [? ? ? Hdir]. split => //. rw - Ed. done.
  - apply Hc, (lv_canonical _ H).
  - move=> Hfl. change (IsRemoteDirty (idx F') = false) in Hfl. destruct Ht as [Ht|[Ef Ha]]; [congruence|].
    apply (recalled_extends k); [done..|]. apply (recalled_grows k (backing (wd (k_cs k)))); [|done..].
    apply (lv_remote _ H). change (IsRemoteDirty (idx (fusey_of cfg k)) = false). congruence.
Qed.

(** What one thing that happens does to the store: nothing to the index object,
    or it recalls the state from then on. *)
Definition store_step k k' : Prop :=
  grows obj (backing (wd (k_cs k))) (backing (wd (k_cs k'))) ∧
  (stored_raw raw k' = stored_raw raw k ∨ recalled k' (backing (wd (k_cs k')))).

Lemma persisting_sound st st' : persisting st st' → sound st → sound st' ∧ unseen st.2 st'.2.
Proof.
  intros Hw [Hl Hh Ha]. destruct Hw as [ts j pc k Hj He|ts j pc pc' k k' Hj Hp Hn]; simpl in *.
  - split; [|by apply (step_idle k Finished)]. split; [done|done|]. by apply Forall_insert.
  - pose proof (step_ok pc k Hl Hh (Forall_lookup_1 _ _ _ _ Ha Hj)) as (Hl' & Hh' & Ha' & Hu).
    rw Hp in Hl', Hh', Ha', Hu. simpl in *. split; [|done]. split; [done|done|]. simpl.
    apply Forall_insert; [|done]. eapply Forall_impl; [exact Ha|]. move=> q. apply at_ok_unseen; [apply (lv_inv _ Hl)|done].
Qed.

Lemma work_sound st st' : work st st' → sound st → sound st' ∧ store_step st.2 st'.2.
Proof.
  intros Hw Hs. destruct Hw as [ts k r F' Hok Hsv Hn Hc|st st' Hp].
  - destruct Hs as [Hl Hh Ha]. simpl in *.
    destruct (request_ok k r F' Hl Hh Hok Hsv Hn) as (Hl' & Hh' & Hx & Hg & Er). split; [|by split; [|left]].
    split; [done|done|]. simpl. rw Forall_forall in Hc. apply Forall_forall => pc Hpc. rw Forall_forall in Ha.
    apply (at_ok_calm pc k); [apply (lv_inv _ Hl)|by apply Hc|done..|by apply Ha].
  - destruct (persisting_sound st st' Hp Hs) as [? Hu]. split; [done|]. split; apply Hu.
Qed.

Lemma life_sound st st' : rtc work st st' → sound st → sound st'.
Proof. elim=> [//|st1 st2 st3 Hw _ IH] H. apply IH. by apply (work_sound st1). Qed.

(** At most 10^8 chunks in the store. *)
Definition countable_chunks (b : W) : Prop := ∀ r, 10 ^ 8 <= r < 2 ^ 63 → obj b (chunkID r) = None.

Definition recalls k (b : W) : Prop := countable_chunks b ∧ recalled k b.

Lemma live_countable k : live k → nextSeq (cs (k_cs k)) <= 10 ^ 8 → countable_chunks (backing (wd (k_cs k))).
Proof. move=> H Hn r Hr. apply (wf_unused _ _ (fi_cs _ _ (lv_inv _ H))). simpl. lia. Qed.

(** At every moment the store recalls some state that the daemon has had. *)
Lemma life_recalls st st1 : sound st → recalls st.2 (backing (wd (k_cs st.2))) → rtc work st st1 →
  ∃ st0, rtc work st st0 ∧ rtc work st0 st1 ∧ recalls st0.2 (backing (wd (k_cs st1.2))).
Proof.
  intros Hs Hr. revert st1. apply rtc_ind_r; [by exists st|]. intros st1 st2 H1 Hw (st0 & H0 & H01 & Hr0).
  pose proof (life_sound st st1 H1 Hs) as S1. destruct (work_sound st1 st2 Hw S1) as (S2 & Hg & Hraw).
  assert (countable_chunks (backing (wd (k_cs st2.2)))) as Hc.
  { destruct Hw as [ts k r F' _ _ Hn _|st1 st2 [ts j pc k _ _|ts j pc pc' k k' _ _ Hn]]; simpl; [| |].
    - exact (live_countable _ (sd_live _ S2) Hn).
    - apply Hr0.
    - exact (live_countable _ (sd_live _ S2) Hn). }
  destruct Hraw as [Er|Hrc].
  - exists st0. split_and!; [done|eapply rtc_r; [exact H01|exact Hw]|]. split; [done|]. eapply recalled_grows; [apply Hr0|done|done].
  - exists st2. split_and!; [eapply rtc_r; [exact H1|exact Hw]|done|]. by split.
Qed.

(** ** Starting *)

(** The index [i] is, access times apart, the one that the store holds, or the
    store holds none and [i] is as new. *)
Definition matches (i : Index) (b : W) : Prop :=
  raw b = None ∧ (∃ t, same_but_atime (New (BlockSize cfg) t) i) ∨
  ∃ j data, raw b = Some data ∧ Index_Marshal j = Ok data ∧ wf_index j ∧ canonical_extents (extents j) ∧
    same_but_atime j i.

(** A machine on which a daemon can start: its cache belongs to the store, and
    a snapshot, if there is one, is that of the index in the store. *)
Definition machine_ready (b : W) (d : Disk) : Prop :=
  cache_of obj b (CacheDir cfg) d ∧
  ∀ data, files d !! Join (CacheDir cfg) snapshotFile = Some data →
    ∃ i, Index_Marshal i = Ok data ∧ wf_index i ∧ canonical_extents (extents i) ∧ matches i b.

(** A machine with neither a snapshot nor a cached chunk. *)
Definition clean_machine (d : Disk) : Prop :=
  files d !! Join (CacheDir cfg) snapshotFile = None ∧
  ∀ n, chunk_name n = true → files d !! Join (Join (CacheDir cfg) "chunks") n = None.

Lemma clean_ready b d : clean_machine d → machine_ready b d.
Proof. intros [Hs Hc]. split; [intros n f Hn; by rw Hc|]. by rw Hs. Qed.

(** How a start ends on a store that recalls the index [i]: in a state of which
    [P] holds, and then [i] was loadable; or for an I/O error; or because [i] is
    not loadable, which is what makes the decoder fail. *)
Definition starts_with (i : Index) (P : kstate W unit → Prop) (o : outcome MainErr (world W) (kstate W unit)) : Prop :=
  match o with
  | Ret k _ => loadable i = true ∧ P k
  | Fail (RecoverErr _) _ | Fail (CacheErr _) _ | Fail (GetErr _) _ => True
  | Fail (LoadErr e) _ => e = UnmarshalFailed → loadable i = false
  | Fail (ParseErr _) _ => loadable i = false
  | _ => False
  end.

Lemma starts_with_mono i j P Q o : loadable i = loadable j → (∀ k w, o = Ret k w → P k → Q k) →
  starts_with i P o → starts_with j Q o.
Proof. rw /starts_with => <- HPQ. destruct o as [k w|[] w|] => //. intros [Hl HP]. split; [done|]. by apply (HPQ k w). Qed.

(** Two indices with the same bytes are loadable or not together, and then they
    are the same. *)
Lemma Marshal_same i j data : wf_index i → canonical_extents (extents i) → Index_Marshal i = Ok data →
  wf_index j → canonical_extents (extents j) → Index_Marshal j = Ok data →
  loadable i = loadable j ∧ (loadable i = true → same_but_atime i j).
Proof.
  intros Wi Ci Mi Wj Cj Mj. pose proof (Unmarshal_Marshal i 0 data Wi Ci Mi) as E.
  rw (Unmarshal_Marshal j 0 data Wj Cj Mj) in E. destruct (loadable i), (loadable j); try done.
  split; [done|]. intros _. injection E as E1 E2 E3 E4 E5 E6. split; congruence.
Qed.

(** What loading leaves on disk. *)
Lemma load_saved now w i w' c :
  loadIndex cfg now w = Ret i w' →
  (∀ data, snapshot_of cfg w = Some data → ∃ j, Index_Marshal j = Ok data ∧ wf_index j ∧ canonical_extents (extents j)) →
  saved (fusey_of cfg (mkK i (mkCState c w') tt)).
Proof.
  rw /loadIndex /snapshot_of => HL Hsn. pose proof (load_local_cases (CacheDir cfg) (BlockSize cfg) (local w)) as HC.
  destruct (Load _ _ _) as [j d|e d|] => //.
  { injection HL as <- <-. destruct HC as [Ef (data & Hd & Hu)]. intros _. right. exists data.
    split; [by rw /snap /= Ef|]. destruct (Hsn data Hd) as (i0 & HM & W0 & C0).
    rw (Unmarshal_Marshal i0 _ data W0 C0 HM) in Hu. destruct (loadable i0); [|done]. injection Hu as <-. exact HM. }
  destruct e => //. destruct HC as [Ef Hno]. destruct (GetRaw IndexKey (backing w)) as [data b|e b|] => //.
  - destruct (Index_Unmarshal data (BlockSize cfg)) as [j|e] eqn:EU => //.
    pose proof (Save_cases (CacheDir cfg) j d) as HS.
    assert (∀ i0 d0, out_state (Save (CacheDir cfg) (j, d)) = Some (i0, d0) →
      saved (fusey_of cfg (mkK i0 (mkCState c (mkWorld b d0)) tt))) as Hgo.
    { intros i0 d0 E. destruct (HS i0 d0 E) as [(e & _ & -> & Hf)|(dt & _ & -> & HM & Hf)]; intros _.
      - left. split; [by rw /snap /= Hf Ef|]. revert EU. rw /Index_Unmarshal.
        by destruct (cbor_Unmarshal data) => // -[<-].
      - right. exists dt. by rw /snap /= Hf. }
    destruct (Save (CacheDir cfg) (j, d)) as [u [i0 d0]|e [i0 d0]|] => //; injection HL as <- <-; by apply Hgo.
  - destruct e => //. injection HL as <- <-. intros _. left. split; [by rw /snap /= Ef|done].
Qed.

Lemma start_home s w' i : wf_cs obj s → cache (cs s) = Some (mkCache (Join (CacheDir cfg) "chunks")) →
  obj (backing (wd s)) (activeID (cs s)) = None → load_frame obj raw cfg (wd s) w' →
  cache_of obj (backing (wd s)) (CacheDir cfg) (local (wd s)) →
  saved (fusey_of cfg (mkK i (mkCState (cs s) w') tt)) → home (mkK i (mkCState (cs s) w') tt).
Proof.
  intros Hw Hc Hfree (Ho & _ & Hl) Hco Hs. split; [|done]. intros c id f Hc' Hid. simpl in Hc' |- *.
  rw Hc in Hc'. injection Hc' as <-. rw (cached_save (CacheDir cfg) (mkCache (Join (CacheDir cfg) "chunks")) (local (wd s)) (local w') id eq_refl Hl) => Hcd.
  destruct (Hco id f Hid Hcd) as (data & Hd & Hp). rw Ho //. split; [|by exists data]. intros ->. by rw Hfree in Hd.
Qed.

Hypothesis chunk_size_ok : 0 <= ChunkSize cfg < 2 ^ 62.

(** Opening the stores and loading the index: the index is that of the store,
    which may have been read from the snapshot. *)
Lemma start_cases now b d : countable_chunks b → machine_ready b d →
  match start cfg now (mkWorld b d) with
  | Ret k _ => wf_cs obj (k_cs k) ∧ cache (cs (k_cs k)) = Some (mkCache (Join (CacheDir cfg) "chunks")) ∧
      stored_raw raw k = raw b ∧ (∀ id o x, holds (obj b) id o x → holds (view obj (k_cs k)) id o x) ∧
      ((∃ i, k_idx k = reloaded i (BlockSize cfg) ∧ wf_index i ∧ canonical_extents (extents i) ∧ matches i b ∧
          loadable i = true) ∨
       (∃ data, raw b = Some data ∧ Index_Unmarshal data (BlockSize cfg) = Ok (k_idx k)) ∨
       raw b = None ∧ k_idx k = New (BlockSize cfg) now) ∧
      ahead obj (k_cs k) ∧ (∀ n, chunk_name n = true → obj (backing (wd (k_cs k))) n = obj b n) ∧ home k
  | Fail (RecoverErr _) _ | Fail (CacheErr _) _ | Fail (GetErr _) _ => True
  | Fail (LoadErr e) _ => e = UnmarshalFailed →
      ∃ i, wf_index i ∧ canonical_extents (extents i) ∧ matches i b ∧ loadable i = false
  | Fail (ParseErr e) _ => ∃ data, raw b = Some data ∧ Index_Unmarshal data (BlockSize cfg) = Err e
  | _ => False
  end.
Proof.
  intros Hfew [Hnc Hns].
  pose proof (mustBuildStore_cases obj raw cfg (mkWorld b d) chunk_size_ok Hfew Hnc) as HB. rw /start.
  destruct (mustBuildStore cfg (mkWorld b d)) as [u s|[] s|] => //.
  destruct HB as (Hw & Hcache & Hfree & Ho & Er & El). simpl in Er.
  pose proof (loadIndex_cases obj raw cfg now (wd s)) as HL.
  assert (snapshot_of cfg (wd s) = files d !! Join (CacheDir cfg) snapshotFile) as Hns' by by rw /snapshot_of El.
  destruct (loadIndex cfg now (wd s)) as [i w'|[] w'|] eqn:EL => //=; last first.
  { destruct HL as (_ & _ & data & Hd & Hu). exists data. split; [congruence|done]. }
  { destruct HL as [_ HL]. intros He. destruct (HL He) as (data & Hd & Hu). rw Hns' in Hd.
    destruct (Hns data Hd) as (j & HM & Wj & Cj & Mj). exists j. split_and!; [done..|].
    rw (Unmarshal_Marshal j _ data Wj Cj HM) in Hu. by destruct (loadable j). }
  destruct HL as [Hf Hl]. destruct (wf_cs_frame obj raw cfg s w' Hw Hcache Hf) as [Hw' Hv].
  pose proof (chunk_name_active obj s Hw) as Hn. pose proof Hf as (Hfo & Hfr & Hfl).
  split; [done|]. split; [done|]. split; [rw /stored_raw /=; congruence|]. split.
  { move=> id o x Hh. apply (extends_view obj s); [done|]. by apply (fresh_session_sees obj s b). }
  split; [|split; [|split; [by move=> n Hnn; rw /= Hfo // Ho|]]].
  - revert Hl. rw /loaded Hns'. destruct (files d !! _) as [data|] eqn:Es.
    + intros Hu. left. destruct (Hns data eq_refl) as (j & HM & Wj & Cj & Mj). exists j.
      rw (Unmarshal_Marshal j _ data Wj Cj HM) in Hu. destruct (loadable j) eqn:Elj; [|done].
      split_and!; [by injection Hu|done..].
    + rw Er. destruct (raw b) as [data|] eqn:Erb; [intros Hu; right; left; by exists data|]. intros ->. by right; right.
  - split_and!; simpl; [by rw Hcache|done|]. by rw Hfo // Hfree.
  - apply start_home; [done..| |].
    + intros n f Hnn. rw El Ho //. by apply Hnc.
    + apply (load_saved now (wd s)); [done|]. rw Hns'. intros data Hdt. destruct (Hns data Hdt) as (j & ? & ? & ? & _). by exists j.
Qed.

Lemma live_loaded k i s : k_idx k = reloaded i (BlockSize cfg) →
  wf_index i → canonical_extents (extents i) → data_inv obj i s → extends obj s (k_cs k) →
  wf_cs obj (k_cs k) → cache (cs (k_cs k)) = Some (mkCache (Join (CacheDir cfg) "chunks")) → ahead obj (k_cs k) →
  recalled k (backing (wd (k_cs k))) → live k.
Proof.
  move=> Ei Hw Hc Hd Hx Hcs Hca Hah Hr. split; [..|done|done].
  - split => /=; [rw Ei; by destruct Hw; split|done| |by rw Hca => c -[<-]].
    rw Ei. eapply data_inv_extends; [exact Hx|]. exact Hd.
  - by rw Ei.
Qed.

(** An index without files has no data. *)
Lemma new_data i t s : same_but_atime (New (BlockSize cfg) t) i → data_inv obj i s.
Proof.
  move=> Hs ino o sz. rw - (same_but_atime_finfo _ _ ino Hs) /finfo /=.
  destruct (decide (ino = RootIno)) as [->|]; [by rw lookup_singleton_eq|by rw lookup_singleton_ne].
Qed.

(** The index that a start finds in the store of an image. *)
Lemma image_matches b i s j : image b i s → matches j b → wf_index j → canonical_extents (extents j) →
  loadable i = loadable j ∧ (loadable i = true → same_but_atime i j).
Proof.
  intros [(data & Hr & HM) Hw Hc _ _] [[Hno _]|(j' & dt & Hdt & HM' & Wj' & Cj' & Sj)] Wj Cj; [congruence|].
  rw Hr in Hdt. injection Hdt as <-. destruct (Marshal_same i j' data Hw Hc HM Wj' Cj' HM') as [El Es].
  rw - (loadable_same _ _ Sj). split; [done|]. intros Hl. etrans; [by apply Es|done].
Qed.

(** What a start gives on the store of an image, and on a store without an
    index. *)
Lemma start_image now b d i s : countable_chunks b → machine_ready b d → image b i s →
  starts_with i (fun k => same_but_atime i (k_idx k) ∧ live k ∧ home k ∧ extends obj s (k_cs k))
    (start cfg now (mkWorld b d)).
Proof.
  intros Hb Hd Him. pose proof Him as [(data & Hr & HM) Hw Hc Hdata Hst].
  pose proof (Unmarshal_Marshal i (BlockSize cfg) data Hw Hc HM) as HU.
  pose proof (start_cases now b d Hb Hd) as HS. destruct (start cfg now (mkWorld b d)) as [k w|[] w|] => //=; last first.
  { destruct HS as (dt & Hr' & He). rw Hr in Hr'. injection Hr' as <-. rw HU in He. by destruct (loadable i). }
  { intros He. destruct (HS He) as (j & Wj & Cj & Mj & Hlj). by rw (proj1 (image_matches b i s j Him Mj Wj Cj)). }
  destruct HS as (Hcs & Hca & Er & Hh & Hl & Hah & Ho & Hhome).
  assert (extends obj s (k_cs k)) as Hx by (move=> id o x /Hst; apply Hh).
  assert (loadable i = true ∧ ∃ j, k_idx k = reloaded j (BlockSize cfg) ∧ wf_index j ∧ canonical_extents (extents j) ∧
    same_but_atime i j) as (Hli & j & Ej & Wj & Cj & Sj).
  { destruct Hl as [(j & Ej & Wj & Cj & Mj & Hlj)|[(dt & Hdt & Hu)|[Hno _]]]; [| |congruence].
    - destruct (image_matches b i s j Him Mj Wj Cj) as [El Es]. rw El. split; [done|]. exists j.
      split_and!; [done..|]. apply Es. by rw El.
    - rw Hr in Hdt. injection Hdt as <-. rw HU in Hu. destruct (loadable i); [|done]. split; [done|].
      injection Hu as Ei. exists i. by split_and!. }
  assert (same_but_atime i (k_idx k)) as Si by (rw Ej; by destruct Sj).
  split; [done|]. split; [done|]. split; [|by split]. apply (live_loaded k j s) => //.
  - move=> ino o sz. rw - (same_but_atime_finfo _ _ ino Sj). apply Hdata.
  - right. exists i, s. split_and!; [|done|by eapply extends_contents].
    apply (image_grows b); [done|done|by apply grows_same].
Qed.

Lemma start_fresh now b d : countable_chunks b → machine_ready b d → raw b = None →
  starts_with (New (BlockSize cfg) now) (fun k => (∃ t, same_but_atime (New (BlockSize cfg) t) (k_idx k)) ∧ live k ∧ home k)
    (start cfg now (mkWorld b d)).
Proof.
  intros Hb Hd Hr. pose proof (start_cases now b d Hb Hd) as HS.
  destruct (start cfg now (mkWorld b d)) as [k w|[] w|] => //=; last first.
  { destruct HS as (dt & Hr' & He). by rw Hr in Hr'. }
  { intros He. destruct (HS He) as (j & _ & _ & [[_ [t Ht]]|(j' & dt & Hdt & _)] & Hlj); [|congruence].
    by rw - (loadable_same _ _ Ht) in Hlj. }
  destruct HS as (Hcs & Hca & Er & Hh & Hl & Hah & _ & Hhome).
  assert ((∃ t, same_but_atime (New (BlockSize cfg) t) (k_idx k)) ∧ wf_index (k_idx k) ∧
    canonical_extents (extents (k_idx k))) as ([t Ht] & Hw & Hc).
  { destruct Hl as [(j & Ej & Wj & Cj & Mj & _)|[(dt & Hdt & Hu)|[_ ->]]]; [|congruence|].
    - rw Ej. destruct Mj as [[_ [t Ht]]|(j' & dt & Hdt & _)]; [|congruence].
      split_and!; [exists t; by destruct Ht|by destruct Wj; split|done].
    - split_and!; [by exists now|apply New_wf|by intros ? ? ?]. }
  split; [done|]. split; [by exists t|]. split; [|done]. split; [|done|intros _; left; split; [rw /stored_raw in Er; congruence|by exists t]|done].
  split => /=; [done|done|by eapply new_data|by rw Hca => c -[<-]].
Qed.

(** A store on which a daemon can start: no index object, or an image. *)
Definition store_ready (b : W) : Prop :=
  countable_chunks b ∧ (raw b = None ∨ ∃ i s, image b i s).

Lemma start_recalls now b d k w : store_ready b → machine_ready b d → start cfg now (mkWorld b d) = Ret k w →
  live k ∧ home k ∧ recalls k (backing (wd (k_cs k))).
Proof.
  intros [Hb Hr] Hd E. pose proof (start_cases now b d Hb Hd) as HS. rw E in HS.
  destruct HS as (_ & _ & Er & _ & _ & _ & Ho & _).
  assert (countable_chunks (backing (wd (k_cs k)))) as Hc.
  { move=> r Hrr. rw Ho; [by apply Hb|apply chunk_name_format; lia]. }
  destruct Hr as [Hno|(i & s & Hi)].
  - pose proof (start_fresh now b d Hb Hd Hno) as HF. rw E in HF. destruct HF as (_ & Ht & Hl & Hh).
    split_and!; [done..|]. split; [done|]. left. split; [|done]. rw /stored_raw in Er. congruence.
  - pose proof (start_image now b d i s Hb Hd Hi) as HF. rw E in HF. destruct HF as (_ & Hs & Hl & Hh & Hx).
    split_and!; [done..|]. split; [done|]. right. exists i, s. split_and!; [|done|by eapply extends_contents].
    apply (image_grows b); [done|done|by apply grows_same].
Qed.

(** A daemon that has just started, with no goroutine in the persist function. *)
Lemma start_sound now b d k w ts : store_ready b → machine_ready b d → start cfg now (mkWorld b d) = Ret k w →
  Forall (fun pc => ended pc = true) ts → sound (ts, k).
Proof.
  intros Hb Hd E Hts. destruct (start_recalls now b d k w Hb Hd E) as (Hl & Hh & _). split; [done|done|].
  eapply Forall_impl; [exact Hts|]. by intros [].
Qed.

(** [k2] serves the same files as [k0]: names, attributes but for access
    times, contents; or both have nothing but a new root. *)
Definition same_files k0 k2 : Prop :=
  (same_but_atime (k_idx k0) (k_idx k2) ∨
   (∃ t, same_but_atime (New (BlockSize cfg) t) (k_idx k0)) ∧ ∃ t, same_but_atime (New (BlockSize cfg) t) (k_idx k2)) ∧
  ∀ ino o, file_content obj (fusey_of cfg k2) ino o = file_content obj (fusey_of cfg k0) ino o.

Lemma recalls_start k0 b now d : recalls k0 b → machine_ready b d →
  starts_with (k_idx k0) (fun k2 => live k2 ∧ home k2 ∧ same_files k0 k2) (start cfg now (mkWorld b d)).
Proof.
  intros [Hc [[Hno [t Ht]]|(i & s & Hi & Hs & Hx0)]] Hd.
  - eapply starts_with_mono; [by apply (loadable_same (New (BlockSize cfg) t))| |exact (start_fresh now b d Hc Hd Hno)].
    intros k2 w2 _ ([t2 Ht2] & Hl & Hh). split; [done|]. split; [done|]. split; [right; by eauto|]. move=> ino o.
    rw /file_content /= - (sa_extents _ _ Ht) - (sa_extents _ _ Ht2). done.
  - eapply starts_with_mono; [by apply (loadable_same i)| |exact (start_image now b d i s Hc Hd Hi)].
    intros k2 w2 _ (Si & Hl & Hh & Hx). split; [done|]. split; [done|].
    assert (same_but_atime (k_idx k0) (k_idx k2)) as Hs2 by (etrans; [symmetry; exact Hs|done]).
    split; [by left|]. move=> ino o. rw /file_content /= - (sa_extents _ _ Hs2) - (sa_extents _ _ Hs).
    destruct (extents i !! ino) as [exts|] eqn:He; [|done]. pose proof (image_good _ _ _ _ _ Hi He) as Hg.
    by rw (content_extends obj s _ exts o Hx Hg) (Hx0 ino exts o He).
Qed.

Lemma recalls_ready k0 b : recalls k0 b → store_ready b.
Proof. intros [Hc [[Hno _]|(i & s & Hi & _)]]; (split; [done|]); [by left|right; by eauto]. Qed.

(** While both flags are clear, the machine itself is ready for the next
    daemon. *)
Lemma quiet_machine k : live k → home k → IsDirty (k_idx k) = false → IsRemoteDirty (k_idx k) = false →
  machine_ready (backing (wd (k_cs k))) (local (wd (k_cs k))).
Proof.
  intros H [Hf Hs] Hd Hr. split.
  - intros id f Hid Hcd. destruct (lv_ahead _ H) as (Hc & _). destruct (cache (cs (k_cs k))) as [c|] eqn:Ec; [|done].
    destruct (Hf c id f Ec Hid) as [_ ?]; [|done]. rw /cached (fi_dir _ _ (lv_inv _ H) c Ec). exact Hcd.
  - intros data Hsn. destruct (Hs Hd) as [[Hn _]|(dt & Hdt & HM)]; [by rw /snap Hsn in Hn|].
    rw /snap Hsn in Hdt. injection Hdt as <-. exists (k_idx k).
    split_and!; [done|apply (fi_idx _ _ (lv_inv _ H))|apply (lv_canonical _ H)|].
    destruct (lv_remote _ H Hr) as [?|(i & s & [(dt & Hdt & Hi) ? ? _ _] & ? & _)]; [by left|right].
    by exists i, dt.
Qed.

(** What the next daemon finds while the flags are clear. *)
Lemma clean_start k now' d' : live k → home k → nextSeq (cs (k_cs k)) <= 10 ^ 8 → IsRemoteDirty (k_idx k) = false →
  IsDirty (k_idx k) = false ∧ d' = local (wd (k_cs k)) ∨ clean_machine d' →
  starts_with (k_idx k) (fun k2 => live k2 ∧ home k2 ∧ same_files k k2) (start cfg now' (mkWorld (backing (wd (k_cs k))) d')).
Proof.
  intros Hl Hh Hn Hr Hd. apply recalls_start; [split; [by apply live_countable|by apply (lv_remote _ Hl)]|].
  destruct Hd as [[Hd ->]|Hd]; [by apply quiet_machine|by apply clean_ready].
Qed.
End life.

(** ** Durability *)

Section properties.
Context {W : Type} {S : Store W} {O : ObjectStore W} {C : CborCodec}.
Context (obj : W → string → option bytes) (raw : W → option bytes).
Context {L : StoreLaws S obj} {LO : ObjectLaws O obj raw} {LC : CborLaws C}.
Implicit Types k : kstate W unit.



(** What a machine without local files makes of the index object. *)
Lemma start_published cfg i data now b d :
  0 <= ChunkSize cfg < 2 ^ 62 → countable_chunks obj b → clean_machine cfg d → raw b = Some data →
  Index_Marshal i = Ok data → wf_index i → canonical_extents (extents i) →
  starts_with i (fun k => same_but_atime i (k_idx k)) (start cfg now (mkWorld b d)).
Proof.
  intros Hz Hb Hd Hr HM Hw Hc. pose proof (Unmarshal_Marshal i (BlockSize cfg) data Hw Hc HM) as HU.
  pose proof (start_cases obj raw cfg Hz now b d Hb (clean_ready obj raw cfg _ d Hd)) as HS.
  assert (∀ j, wf_index j → canonical_extents (extents j) → matches raw cfg j b →
    loadable i = loadable j ∧ (loadable i = true → same_but_atime i j)) as Hmt.
  { intros j Wj Cj [[Hno _]|(j' & dt & Hdt & HMj & Wj' & Cj' & Sj)]; [by rw Hr in Hno|]. rw Hr in Hdt. injection Hdt as <-.
    destruct (Marshal_same i j' data Hw Hc HM Wj' Cj' HMj) as [El Es]. rw - (loadable_same _ _ Sj). split; [done|].
    intros Hli. etrans; [by apply Es|done]. }
  destruct (start cfg now (mkWorld b d)) as [k w|[] w|] => //=; last first.
  { destruct HS as (dt & Hdt & He). rw Hr in Hdt. injection Hdt as <-. rw HU in He. by destruct (loadable i). }
  { intros He. destruct (HS He) as (j & Wj & Cj & Mj & Hlj). by rw (proj1 (Hmt j Wj Cj Mj)). }
  destruct HS as (_ & _ & _ & _ & [(j & -> & Wj & Cj & Mj & Hlj)|[(dt & Hdt & Hu)|[Hno _]]] & _); [| |congruence].
  - destruct (Hmt j Wj Cj Mj) as [El Es]. rw El Hlj in Es *. split; [done|]. by destruct (Es eq_refl).
  - rw Hr in Hdt. injection Hdt as <-. rw HU in Hu. destruct (loadable i); [|done]. by injection Hu as <-.
Qed.

(** C40: text that is not UTF-8 makes a file system that cannot be mounted again.
    A name, symlink target or extended attribute of any bytes is accepted, and
    the index that holds it is persisted without an error; but the CBOR decoder
    refuses it, so that no later daemon on another machine gets past loading the
    index, whatever else the file system holds. *)
Theorem foreign_text_never_loads cfg k k' t now' d' :
  0 <= ChunkSize cfg < 2 ^ 62 → live obj raw cfg k → nextSeq (cs (k_cs k)) <= 10 ^ 8 →
  text_of (k_idx k) t → utf8_valid t = false → IsRemoteDirty (k_idx k) = true →
  persistFn cfg k = Ret tt k' → clean_machine cfg d' →
  match start cfg now' (mkWorld (backing (wd (k_cs k'))) d') with
  | Fail (ParseErr e) _ => e = UnmarshalFailed
  | Fail (RecoverErr _) _ | Fail (CacheErr _) _ | Fail (LoadErr _) _ | Fail (GetErr _) _ => True
  | _ => False
  end.
Proof.
  intros Hz Hl Hn Ht Hu Hd HP Hc. pose proof (persistFn_cases obj raw cfg k (lv_inv _ _ _ _ Hl)) as HC. rw HP Hd in HC.
  destruct HC as (Hi' & _ & _ & _ & _ & En & _ & _ & data & HM & Hr). rw /stored_raw in Hr.
  assert (loadable (k_idx k) = false) as Hld.
  { destruct (loadable (k_idx k)) eqn:E; [|done]. by rw (loadable_text _ t E Ht) in Hu. }
  assert (countable_chunks obj (backing (wd (k_cs k')))) as Hct.
  { intros r Hr'. apply (wf_unused _ _ (fi_cs _ _ Hi')). simpl. lia. }
  pose proof (fi_idx _ _ (lv_inv _ _ _ _ Hl)) as Hw. pose proof (lv_canonical _ _ _ _ Hl) as Hci.
  pose proof (start_published cfg (k_idx k) data now' _ d' Hz Hct Hc Hr HM Hw Hci) as HS.
  pose proof (start_cases obj raw cfg Hz now' _ d' Hct (clean_ready obj raw cfg _ d' Hc)) as HE.
  destruct (start cfg now' _) as [k2 w2|[] w2|]; try done; [by rw /= Hld in HS; destruct HS|].
  destruct HE as (dt & Hdt & He). rw Hr in Hdt. injection Hdt as <-.
  rw (Unmarshal_Marshal (k_idx k) _ data Hw Hci HM) Hld in He. by injection He.
Qed.

(** C39: a change that comes while the index object is written is not published. A
    goroutine has marshalled the index and is about to write the object; any
    requests are answered before it does; then it writes the object and clears
    the remote dirty flag. The daemon serves the changes, but the persist that
    follows, as at shutdown, returns without an error and leaves the object as it
    is: the next daemon, on a machine without local files, starts with the names,
    attributes and extents from before those requests, or fails for an I/O error
    or an index that is not loadable. *)
Theorem late_change_not_published cfg k data k1 k3 k4 :
  0 <= ChunkSize cfg < 2 ^ 62 → sound obj raw cfg ([], k) → Index_Marshal (k_idx k) = Ok data →
  rtc (work cfg) ([], k) ([], k1) → nextSeq (cs (k_cs k1)) <= 10 ^ 8 →
  psteps 2 cfg (AtPut data, k1) = (Finished, k3) → persistFn cfg k3 = Ret tt k4 →
  same_index (k_idx k1) (k_idx k4) ∧ IsDirty (k_idx k4) = false ∧ IsRemoteDirty (k_idx k4) = false ∧
  raw (backing (wd (k_cs k4))) = Some data ∧
  ∀ now' d', clean_machine cfg d' →
  starts_with (k_idx k) (fun k5 => same_but_atime (k_idx k) (k_idx k5)) (start cfg now' (mkWorld (backing (wd (k_cs k4))) d')).
Proof.
  intros Hz Hs HM Hw Hn H2 HP. destruct (life_sound obj raw cfg _ _ Hw Hs) as [Hl1 _ _]. destruct Hs as [Hl _ _]. simpl in *.
  pose proof (put_index_cases obj raw cfg data k1 (lv_inv _ _ _ _ Hl1)) as HPut.
  destruct (put_index data k1) as [u k2|e k2|]; [|done..]. simpl in H2. injection H2 as <-.
  destruct HPut as (Hi2 & Ei2 & Er2 & _ & Ec2 & _).
  pose proof (persistFn_cases obj raw cfg _ (clean_inv obj cfg k2 _ Hi2 (or_intror eq_refl))) as HC. rw HP in HC.
  destruct HC as (Hi4 & Hs4 & Hd4 & Hr4 & _ & En4 & _ & Eraw). simpl in Eraw, En4. rw /stored_raw in Eraw, Er2. simpl in Eraw.
  assert (raw (backing (wd (k_cs k4))) = Some data) as Hraw by congruence. split_and!; [|done..|].
  - revert Hs4. rw /= Ei2. by intros [->|[->|[->| ->]]]; rw /same_index; auto.
  - intros now' d' Hd'. apply (start_published cfg (k_idx k) data); [done| |done..|apply (lv_inv _ _ _ _ Hl)|apply (lv_canonical _ _ _ _ Hl)].
    intros r Hr. apply (wf_unused _ _ (fi_cs _ _ Hi4)). simpl. rw En4 Ec2. lia.
Qed.
End properties.
