(* ===== verification/CompactRun.v ===== *)
(** [fusey compact] between two daemons: the command starts as a daemon does,
    runs one cycle and ends, successfully or not; the object store it leaves is
    one from which the next daemon serves the same files. *)
From S2P Require Import Prelude Types Extents Index IndexInv IndexProps OS Decimal Persist Store Cache ChunkStore.
From S2P Require Import ChunkProps Fuse FuseData FuseInv FuseProps Compaction CompactProps Config Main MainProps Durable Life.
#[local] Open Scope Z_scope.

Section run.
Context {W : Type} {S : Store W} {O : ObjectStore W} {C : CborCodec}.
Context (obj : W → string → option bytes) (raw : W → option bytes).
Context {L : StoreLaws S obj} {LO : ObjectLaws O obj raw} {LC : CborLaws C}.
Variable cfg : Config.
Variable clock : Z → Z.
Hypothesis clock_range : ∀ q, 0 <= clock q < 2 ^ 63.
Implicit Types s : cstate W.
Implicit Types k : kstate W unit.

(** ** What the cycle leaves alone *)

(** The fields of the chunk store and every chunk of the log; chunks of [D] may
    be gone. *)
Record kept (D : list string) s s' : Prop := {
  kp_cs : cs s' = cs s;
  kp_obj r : chunk_name (chunkID r) = true →
    obj (backing (wd s')) (chunkID r) = obj (backing (wd s)) (chunkID r) ∨
    chunkID r ∈ D ∧ obj (backing (wd s')) (chunkID r) = None;
}.

#[global] Instance kept_preorder D : PreOrder (kept D).
Proof.
  split; [by move=> s; split; [..|left]|]. move=> s1 s2 s3 [C1 O1] [C2 O2]. split; [congruence|].
  move=> r Hr. destruct (O2 r Hr) as [->|?]; [by apply O1|by right].
Qed.

Lemma kept_quiet D s s' : quiet obj s s' → kept D s s'.
Proof. move=> Hq. split; [apply Hq|]. move=> r Hr. left. by apply (q_obj _ _ _ Hq). Qed.

Lemma kept_view D s s' e : kept D s s' → canonical_id (Extent.ChunkID e) → Extent.ChunkID e ∉ D →
  view obj s' (Extent.ChunkID e) = view obj s (Extent.ChunkID e).
Proof.
  move=> Hk [r [Hr Ei]] Hn. rw /view (kp_cs _ _ _ Hk). case_decide; [done|].
  assert (chunk_name (chunkID r) = true) as Hc by (apply chunk_name_format; lia).
  rw Ei in Hn |- *. by destruct (kp_obj _ _ _ Hk r Hc) as [?|[??]].
Qed.

Lemma kept_countable D s s' : kept D s s' → countable_chunks obj (backing (wd s)) → countable_chunks obj (backing (wd s')).
Proof.
  move=> Hk Hc r Hr. destruct (kp_obj _ _ _ Hk r) as [->|[_ ?]]; [apply chunk_name_format; lia|by apply Hc|done].
Qed.

(** ** Names *)

Lemma Sprintf_d_name n : is_i64 n → chunk_name (Sprintf_d n) = true.
Proof.
  rw /is_i64 /Sprintf_d => Hn. destruct (Z.ltb_spec n 0); [|apply chunk_name_digits, digits_spec; lia].
  change (chunk_name (digit_string (digits (- n))) = true). apply chunk_name_digits, digits_spec; lia.
Qed.

(** The names that a cycle gives to its outputs. *)
Definition output_name (id : string) : Prop := ∃ t q, 0 <= t < 2 ^ 63 ∧ is_i64 q ∧ id = compacted_id t q.

Lemma output_name_chunk id : output_name id → chunk_name id = true.
Proof.
  intros (t & q & Ht & Hq & ->). rw /compacted_id !chunk_name_app !Sprintf_d_name //. rw /is_i64; lia.
Qed.

Definition outputs_named (p : packing) : Prop := Forall (λ o, output_name (o_id o)) (outputs p) ∧ is_i64 (p_seq p).

Lemma newOutput_named p : outputs_named p → outputs_named (newOutput clock p).
Proof.
  move=> [Ho Hs]. split; [|apply i64_range]. rw /outputs /=. apply Forall_app. split; [done|].
  apply Forall_singleton. exists (clock (p_seq p)), (p_seq p). split; [apply clock_range|done].
Qed.

Lemma place_named e data sz p : outputs_named p → outputs_named (place clock e data sz p).
Proof.
  move=> Hp. rw /place. set (p1 := if _ && _ then _ else _).
  assert (outputs_named p1) as [H1 Hs] by (rw /p1; destruct (_ && _); [by apply newOutput_named|done]).
  split; [|done]. rw /outputs /=. apply Forall_app in H1 as [? Hc]. apply Forall_app. split; [done|].
  apply Forall_singleton. by inversion Hc.
Qed.

Lemma first_output_named : outputs_named (first_output clock).
Proof.
  split; [|by rw /is_i64 /=]. apply Forall_singleton. exists (clock 0), 0. split; [apply clock_range|done].
Qed.

(** ** The steps of the cycle *)

(** The index object is not touched either. *)
Definition step_kept D s s' : Prop := kept D s s' ∧ raw_of raw s' = raw_of raw s.

#[global] Instance step_kept_preorder D : PreOrder (step_kept D).
Proof. split; [by move=> s|]. move=> s1 s2 s3 [K1 R1] [K2 R2]. split; [by etrans|congruence]. Qed.

Lemma ListSealed_kept D s : wf_cs obj s →
  match ListSealed s with Ret _ s' | Fail _ s' => step_kept D s s' ∧ quiet obj s s' | Crash => False end.
Proof.
  move=> H. pose proof (ListSealed_cases obj s H) as HL.
  assert (match ListSealed s with Ret _ s' | Fail _ s' => raw_of raw s' = raw_of raw s | Crash => True end) as HR.
  { rw /ListSealed /in_world /on_backing /raw_of. pose proof (List_raw (backing (wd s))). by destruct (List _). }
  destruct (ListSealed s) => //; [destruct HL as [Hq _]|]; (split; [split; [by apply kept_quiet|done]|done]).
Qed.

Lemma SealedSize_raw id s : chunk_name id = true →
  match SealedSize id s with Ret _ s' | Fail _ s' => raw_of raw s' = raw_of raw s | Crash => True end.
Proof.
  move=> Hid. rw /SealedSize. case_decide; [done|]. rw /in_world /on_backing /raw_of.
  pose proof (Size_raw id (backing (wd s)) Hid). by destruct (Size _ _).
Qed.

Lemma select_targets_raw thr live ids s : Forall (λ i, chunk_name i = true) ids →
  match select_targets thr live ids s with Ret _ s' | Fail _ s' => raw_of raw s' = raw_of raw s | Crash => True end.
Proof.
  move=> Hids. elim: Hids s => [//|i l Hi _ IH] s /=. pose proof (SealedSize_raw i s Hi) as HS.
  destruct (SealedSize i s) as [n s1|e s1|] => //=; rw - HS; specialize (IH s1);
    by destruct (select_targets thr live l s1).
Qed.

(** Reading the live data. *)
Lemma pack_kept D sz exts : ∀ p s, wf_cs obj s → ahead obj s → outputs_named p → Forall (good_ext obj s) exts →
  match pack clock sz exts p s with
  | Ret p' s' => step_kept D s s' ∧ wf_cs obj s' ∧ outputs_named p'
  | Fail _ s' => step_kept D s s'
  | Crash => False
  end.
Proof.
  elim: exts => [|e exts IH] p s H Ha Hp Hg /=; [done|].
  apply Forall_cons in Hg as [[Hw [b [El Hh]]] Hg]. pose proof (Read_cases obj s _ _ b H Hh) as HR. rw El in HR.
  specialize (HR ltac:(destruct Hw; lia)).
  pose proof (Read_logs obj raw (Extent.ChunkID e) (Extent.ChunkOffset e) (Extent.Length e) s (proj1 Hh)) as HL.
  destruct (Read _ _ _ s) as [b' s1|er s1|] => //; destruct HR as [_ Hq];
    destruct (HL s1 eq_refl Ha) as (Er & _ & Ha1 & _);
    assert (step_kept D s s1) as Hk by (by split; [apply kept_quiet|]); [|done].
  specialize (IH (place clock e b' sz p) s1 (q_wf _ _ _ Hq) Ha1 (place_named e b' sz p Hp)).
  assert (Forall (good_ext obj s1) exts) as Hg1.
  { eapply Forall_impl; [exact Hg|]. move=> x. by apply good_ext_extends, quiet_extends. }
  specialize (IH Hg1). destruct (pack clock sz exts _ s1) => //.
  - destruct IH as (? & ? & ?). split_and!; [by etrans|done..].
  - by etrans.
Qed.

Lemma PutSealed_kept D id data s : output_name id →
  match PutSealed id data s with Ret _ s' | Fail _ s' => step_kept D s s' | Crash => False end.
Proof.
  move=> Ho. pose proof (output_name_chunk id Ho) as Hid. rw /PutSealed /in_world /on_backing.
  pose proof (Put_law (obj:=obj) id data (backing (wd s)) Hid) as HP.
  pose proof (Put_raw id data (backing (wd s)) Hid) as HR.
  assert (∀ r, chunkID r ≠ id) as Hne.
  { move=> r E. destruct Ho as (t & q & _ & _ & ->). by apply (compacted_ne_chunkID t q r). }
  destruct (Put _ _ _) as [u b|e b|] => //=; (split; [|done]); (split; [done..|]); move=> r Hr; left; simpl.
  - by rw HP // decide_False.
  - by apply HP.
Qed.

Lemma write_outputs_kept D outs : ∀ s, Forall (λ o, output_name (o_id o)) outs →
  match write_outputs outs s with Ret _ s' | Fail _ s' => step_kept D s s' | Crash => False end.
Proof.
  elim: outs => [|o outs IH] s /= Ho; [done|]. apply Forall_cons in Ho as [Hn Ho].
  destruct (_ =? 0); [by apply IH|]. pose proof (PutSealed_kept D (o_id o) (o_buf o) s Hn) as HP.
  destruct (PutSealed _ _ s) as [u s1|e s1|] => //. specialize (IH s1 Ho).
  destruct (write_outputs outs s1) => //; by etrans.
Qed.

Lemma DeleteChunks_kept D ids : ∀ s, Forall (λ i, chunk_name i = true) ids → (∀ x, x ∈ ids → x ∈ D) →
  match DeleteChunks ids s with Ret _ s' | Fail _ s' => step_kept D s s' | Crash => False end.
Proof.
  elim: ids => [|id ids IH] s /= Hn HD; [done|]. apply Forall_cons in Hn as [Hid Hn].
  rw /in_world /on_backing. pose proof (Delete_law (obj:=obj) id (backing (wd s)) Hid) as HL.
  pose proof (Delete_raw id (backing (wd s)) Hid) as HR.
  assert (∀ b, raw b = raw (backing (wd s)) →
    (∀ r, chunk_name r = true → r ≠ id → obj b r = obj (backing (wd s)) r) →
    (obj b id = obj (backing (wd s)) id ∨ obj b id = None) →
    step_kept D s (mkCState (cs s) (mkWorld b (local (wd s))))) as Hgo.
  { move=> b Er Ho Hi. split; [|done]. split; [done..|]. move=> r Hr /=.
    destruct (decide (chunkID r = id)) as [E|Hne]; [|left; by apply Ho]. rw E.
    destruct Hi as [?|?]; [by left|right]. split; [apply HD, elem_of_cons; by left|done]. }
  destruct (Delete _ _) as [u b|e b|] => //=.
  - assert (step_kept D s (mkCState (cs s) (mkWorld b (local (wd s))))) as H1.
    { apply Hgo; [done| |right]; [by move=> r Hr Hne; rw HL // decide_False|by rw HL // decide_True]. }
    specialize (IH (mkCState (cs s) (mkWorld b (local (wd s)))) Hn ltac:(intros; apply HD, elem_of_cons; by right)).
    destruct (DeleteChunks ids _) => //; by etrans.
  - apply Hgo; [done|apply HL..].
Qed.

(** ** The store after the cycle *)

(** Nothing waits in the active chunk. *)
Definition idle s : Prop := activeBuf (cs s) = [] ∧ activeDirty (cs s) = false.

(** No live extent lies in [D]. *)
Definition spared (D : list string) (i : Index) : Prop :=
  ∀ ino exts e, extents i !! ino = Some exts → e ∈ exts → Extent.ChunkID e ∉ D.

Lemma kept_ext D s s' i ino exts e x : kept D s s' → canonical_extents (extents i) → spared D i →
  extents i !! ino = Some exts → e ∈ exts → ext_data obj s e x → ext_data obj s' e x.
Proof.
  move=> Hk Hc Hs Hi He [El Hh]. split; [done|]. pose proof (Hc _ _ Hi) as Hcan. rw Forall_forall in Hcan.
  rw /holds (kept_view D s s' e Hk (Hcan e He) (Hs _ _ _ Hi He)). exact Hh.
Qed.

Lemma kept_data D s s' i : kept D s s' → canonical_extents (extents i) → spared D i →
  data_inv obj i s → data_inv obj i s'.
Proof.
  intros Hk Hc Hs Hd ino o sz Hf. destruct (Hd _ _ _ Hf) as (exts & -> & Hg & ? & ?). exists exts. split; [done|].
  split; [|done]. apply Forall_forall => e He. rw Forall_forall in Hg. destruct (Hg e He) as [Hw [b Hb]].
  split; [done|]. exists b. eapply kept_ext; try done. revert Hf. rw /finfo.
  destruct (inodes i !! ino); [|done]. case_decide; [|done]. by intros [= ? _].
Qed.

Lemma idle_stored s : idle s → all_stored obj s (backing (wd s)).
Proof.
  intros [Hb _] id o x (Hid & Ho & Hx & data & Hv & Hl & Hs). split_and!; [done..|]. exists data. split; [|done].
  revert Hv. rw /view. case_decide; [|done]. rw Hb. intros [= <-]. exfalso.
  assert (0 < len x) by (destruct x; [done|rw /len /=; lia]). rw /len /= in Hl. rw /len in H0. lia.
Qed.

Lemma kept_recalls D k s' i data : live obj raw cfg k → idle (k_cs k) → countable_chunks obj (backing (wd (k_cs k))) →
  kept D (k_cs k) s' → spared D (k_idx k) → raw_of raw s' = Some data → Index_Marshal i = Ok data → wf_index i →
  same_but_atime i (k_idx k) → recalls obj raw cfg k (backing (wd s')).
Proof.
  intros Hl Hi Hc Hk Hs Hr HM Hw Ha. pose proof (lv_inv _ _ _ _ Hl) as Hinv. split; [by eapply kept_countable|].
  right. exists i, s'. pose proof (lv_canonical _ _ _ _ Hl) as Hcan. split_and!; [|done|].
  - split; [by exists data|done|by rw (sa_extents _ _ Ha)| |].
    + move=> ino o sz. rw (same_but_atime_finfo i (k_idx k) ino Ha).
      eapply kept_data; [exact Hk|done|done|apply (fi_data _ _ Hinv)].
    + apply idle_stored. by rw /idle (kp_cs _ _ _ Hk).
  - move=> ino exts o He. rw (sa_extents _ _ Ha) in He.
    destruct (good_extents obj (fusey_of cfg k) ino exts Hinv He) as (m & _ & _ & Hg & _).
    apply (content_agree obj (k_cs k)); [|exact Hg]. move=> e b Hin. by eapply kept_ext.
Qed.

Lemma kept_recalls_same D k s' : live obj raw cfg k → idle (k_cs k) → recalls obj raw cfg k (backing (wd (k_cs k))) →
  step_kept D (k_cs k) s' → spared D (k_idx k) → recalls obj raw cfg k (backing (wd s')).
Proof.
  intros Hl Hi [Hc Hr] [Hk Er] Hs. destruct Hr as [[Hno Ht]|(i & s & Hi' & Ha & _)].
  - split; [by eapply kept_countable|]. left. split; [|done]. rw /raw_of in Er. congruence.
  - destruct Hi' as [(data & Hd & HM) Hw _ _ _]. eapply (kept_recalls D k s' i data); try done. by rw Er.
Qed.

(** ** The cycle *)

Lemma persist_kept D k k' : activeDirty (cs (k_cs k)) = false → out_state (persistFn cfg k) = Some k' →
  kept D (k_cs k) (k_cs k').
Proof.
  intros Hn. rw /persistFn.
  assert (match (if IsDirty (k_idx k) then save_local (CacheDir cfg) k else Ret tt k) with
    | Ret _ k1 | Fail _ k1 => cs (k_cs k1) = cs (k_cs k) ∧ backing (wd (k_cs k1)) = backing (wd (k_cs k))
    | Crash => True end) as H1.
  { destruct (IsDirty _); [|done]. rw /save_local. by destruct (Save _ _) as [? []|? []|]. }
  assert (∀ k1, cs (k_cs k1) = cs (k_cs k) →
    (∀ n, chunk_name n = true → obj (backing (wd (k_cs k1))) n = obj (backing (wd (k_cs k))) n) →
    kept D (k_cs k) (k_cs k1)) as Hgo.
  { intros k1 Ec Eo. split; [done|]. move=> r Hr. left. by apply Eo. }
  destruct (if IsDirty _ then _ else _) as [u k1|e k1|] => //=; destruct H1 as [Ec Eb]; last first.
  { intros [= <-]. apply Hgo; [done|]. by rw Eb. }
  rw /flush_k /FlushActive Ec Hn /=. destruct (negb _); simpl; [intros [= <-]; apply Hgo; simpl; [done|by rw Eb]|].
  destruct (Index_Marshal _) as [data|]; simpl; [|intros [= <-]; apply Hgo; simpl; [done|by rw Eb]].
  rw /put_index /= Eb. pose proof (PutRaw_law (obj:=obj) (raw:=raw) data (backing (wd (k_cs k)))) as HP.
  destruct (PutRaw _ _ _) as [u2 b|e2 b|] => //=; intros [= <-]; by apply Hgo; simpl; [|apply HP].
Qed.

(** An index with an extent that cannot be written is not persisted at all. *)
Lemma persist_unmarshalled k e : IsDirty (k_idx k) = true → Index_Marshal (k_idx k) = Err e →
  ∃ er k', persistFn cfg k = Fail er k' ∧ k_cs k' = k_cs k.
Proof.
  intros Hd HM. rw /persistFn Hd /save_local /Save HM /=. do 2 eexists. split; [done|]. by destruct k as [? [? []] ?].
Qed.

Lemma remap_none i : extents (RemapExtents ∅ i) = extents i.
Proof.
  rw /RemapExtents /=. apply map_eq => ino. rw lookup_fmap. destruct (extents i !! ino) as [exts|]; [|done]. simpl.
  f_equal. transitivity (id <$> exts); [|apply list_fmap_id]. apply list_fmap_ext => n e _. by rw /remap_extent lookup_empty.
Qed.

(** No live data to move: the index is persisted as it is, the targets go. *)
Lemma finish_unmoved order k s targets : live obj raw cfg k → idle (k_cs k) →
  recalls obj raw cfg k (backing (wd (k_cs k))) → order ≡ₚ (map_to_list (extents (k_idx k))).*1 →
  wf_cs obj s → step_kept targets (k_cs k) s → extends obj (k_cs k) s →
  Forall (λ i, chunk_name i = true) targets → moved (LiveExtents order (k_idx k)) targets = [] →
  let k0 := mkK (RemapExtents ∅ (k_idx k)) s (k_p k) in
  match
    match persist (compactor_of cfg) k0 with
    | Crash => Crash
    | Fail _ k => Fail ErrPersist k
    | Ret _ k => on_cs (fun s => as_err ErrDelete (DeleteChunks targets s)) k
    end
  with
  | Ret _ k' | Fail _ k' => recalls obj raw cfg k (backing (wd (k_cs k')))
  | Crash => False
  end.
Proof.
  intros Hl Hid Hr Ho Hw [Hk Er] Hx Hn Hm k0. pose proof (lv_inv _ _ _ _ Hl) as Hinv.
  assert (spared targets (k_idx k)) as Hsp.
  { intros ino exts e He Hin Ht. apply (not_elem_of_nil e). rw - Hm. apply elem_of_moved. split; [|done]. by eapply LiveExtents_in. }
  assert (same_but_atime (k_idx k0) (k_idx k)) as Ha by (split => //; apply remap_none).
  assert (wf_index (k_idx k0)) as Hwi by (apply RemapExtents_wf, (fi_idx _ _ Hinv)).
  assert (k_inv obj cfg k0) as H0.
  { split; [done|done| |].
    - move=> ino o sz. rw /= (same_but_atime_finfo _ _ ino Ha). eapply data_inv_extends; [exact Hx|]. apply (fi_data _ _ Hinv).
    - simpl. rw (kp_cs _ _ _ Hk). apply (fi_dir _ _ Hinv). }
  assert (activeDirty (cs (k_cs k0)) = false) as Hnd by (rw /= (kp_cs _ _ _ Hk); apply Hid).
  pose proof (persistFn_cases obj raw cfg k0 H0) as HP. pose proof (persist_kept targets k0) as HK.
  rw /= /Compactor_New /=. destruct (persistFn cfg k0) as [u k5|e k5|] => //.
  - destruct HP as (_ & _ & _ & _ & _ & _ & _ & _ & data & HM & Hd). specialize (HK k5 Hnd eq_refl).
    rw /on_cs /as_err. pose proof (DeleteChunks_kept targets targets (k_cs k5) Hn ltac:(done)) as HD.
    assert (∀ s6, step_kept targets (k_cs k5) s6 → recalls obj raw cfg k (backing (wd s6))) as Hend.
    { intros s6 [K6 R6]. apply (kept_recalls targets k s6 (k_idx k0) data); try done; [apply Hr| |by rw R6].
      etrans; [exact Hk|]. by etrans. }
    destruct (DeleteChunks targets (k_cs k5)) => //; by apply Hend.
  - destruct HP as (_ & _ & _ & _ & HP). specialize (HK k5 Hnd eq_refl).
    assert (kept targets (k_cs k) (k_cs k5)) as K5 by by etrans.
    destruct HP as [E5|[_ (data & HM & Hd)]].
    + apply (kept_recalls_same targets); try done. split; [done|]. transitivity (raw_of raw s); [exact E5|exact Er].
    + apply (kept_recalls targets k (k_cs k5) (k_idx k0) data); try done. apply Hr.
Qed.

(** Live data to move: the outputs are written, and the index that names them
    is not persisted. *)
Lemma finish_moved order k s targets p : live obj raw cfg k → idle (k_cs k) →
  recalls obj raw cfg k (backing (wd (k_cs k))) → order ≡ₚ (map_to_list (extents (k_idx k))).*1 →
  step_kept [] (k_cs k) s → outputs_named p → names_compacted p →
  (∃ e, e ∈ LiveExtents order (k_idx k) ∧ is_Some (p_remap p !! ekey e)) →
  match
    (let! _, k := on_cs (write_outputs (outputs p)) (mkK (k_idx k) s (k_p k)) in
     let k := set_k_idx (RemapExtents (p_remap p) (k_idx k)) k in
     match persist (compactor_of cfg) k with
     | Crash => Crash
     | Fail _ k => Fail ErrPersist k
     | Ret _ k => on_cs (fun s => as_err ErrDelete (DeleteChunks targets s)) k
     end)
  with
  | Ret _ k' | Fail _ k' => recalls obj raw cfg k (backing (wd (k_cs k')))
  | Crash => False
  end.
Proof.
  intros Hl Hid Hr Ho Hk [Hout _] Hnames (e & He & [x Hx]).
  assert (∀ s', step_kept [] s s' → recalls obj raw cfg k (backing (wd s'))) as Hend.
  { intros s' Hs'. apply (kept_recalls_same [] k s'); try done; [by etrans|]. intros ? ? ? _ _. apply not_elem_of_nil. }
  rw {1}/on_cs /=. pose proof (write_outputs_kept [] (outputs p) s Hout) as HW.
  destruct (write_outputs (outputs p) s) as [u s1|er s1|] => //=; [|by apply Hend]. rw /Compactor_New /=.
  destruct (Index_Marshal (RemapExtents (p_remap p) (k_idx k))) as [data|er] eqn:EM.
  - exfalso. rw (remap_representable order (k_idx k) p data Ho Hnames EM e He) in Hx. done.
  - destruct (persist_unmarshalled (mkK (RemapExtents (p_remap p) (k_idx k)) s1 (k_p k)) er eq_refl EM) as (e' & k' & E & Ek).
    rw /set_k_idx /set_k_cs /= E Ek. by apply Hend.
Qed.

Lemma Compact_recalls order k : live obj raw cfg k → idle (k_cs k) → recalls obj raw cfg k (backing (wd (k_cs k))) →
  order ≡ₚ (map_to_list (extents (k_idx k))).*1 → lists_chunks (backing (wd (k_cs k))) →
  match Compact clock order (compactor_of cfg) k with
  | Ret _ k' | Fail _ k' => recalls obj raw cfg k (backing (wd (k_cs k')))
  | Crash => False
  end.
Proof.
  intros Hl Hid Hr Ho Hls. pose proof (fi_cs _ _ (lv_inv _ _ _ _ Hl)) as Hw. simpl in Hw.
  assert (∀ s', step_kept [] (k_cs k) s' → recalls obj raw cfg k (backing (wd s'))) as Hend.
  { intros s' Hs'. apply (kept_recalls_same [] k s'); try done. intros ? ? ? _ _. apply not_elem_of_nil. }
  rw /Compact {1}/on_cs /as_err. pose proof (ListSealed_kept [] (k_cs k) Hw) as HL.
  destruct (ListSealed (k_cs k)) as [ids s1|e s1|] eqn:EL => //=; destruct HL as [K1 Q1]; [|by apply Hend].
  destruct (ListSealed_names _ _ _ Hls EL) as (_ & Hnames & _). rw {1}/on_cs /=.
  pose proof (select_targets_cases obj (threshold (compactor_of (P:=unit) cfg)) (LiveExtents order (k_idx k)) ids s1 (q_wf _ _ _ Q1) Hnames) as HT.
  pose proof (select_targets_raw (threshold (compactor_of (P:=unit) cfg)) (LiveExtents order (k_idx k)) ids s1 Hnames) as HR.
  destruct (select_targets _ _ ids s1) as [targets s2|e s2|] => //=. destruct HT as [Q2 Hsub].
  pose proof (quiet_trans _ _ _ _ Q1 Q2) as Q12.
  assert (∀ D, step_kept D (k_cs k) s2) as K2 by (intros D; split; [by apply kept_quiet|rw HR; apply K1]).
  destruct targets as [|t ts]; [by apply Hend|]. remember (t :: ts) as targets eqn:Et. clear t ts Et.
  assert (Forall (λ i, chunk_name i = true) targets) as Hnt.
  { apply Forall_forall => x Hx. rw Forall_forall in Hnames. apply Hnames. by eapply elem_of_sublist. }
  assert (Forall (good_ext obj s2) (moved (LiveExtents order (k_idx k)) targets)) as Hg.
  { apply Forall_forall => e /elem_of_moved [He _]. apply LiveExtents_inv in He as (ino & exts & He & Hin).
    destruct (good_extents obj (fusey_of cfg k) ino exts (lv_inv _ _ _ _ Hl) He) as (m & _ & _ & Hg & _).
    rw Forall_forall in Hg. apply (good_ext_extends obj (k_cs k)); [by apply quiet_extends|by apply Hg]. }
  destruct (moved (LiveExtents order (k_idx k)) targets) as [|e l] eqn:Em.
  - exact (finish_unmoved order k s2 targets Hl Hid Hr Ho (q_wf _ _ _ Q12) (K2 _) (quiet_extends _ _ _ Q12) Hnt Em).
  - rw {1}/on_cs. assert (ahead obj s2) as Ha2.
    { destruct (lv_ahead _ _ _ _ Hl) as (A1 & A2 & A3). rw /ahead (q_cs _ _ _ Q12). split_and!; [done..|].
      rw (q_obj _ _ _ Q12); done. }
    pose proof (pack_kept [] (chunkSize (compactor_of (P:=unit) cfg)) (e :: l) (first_output clock) s2 (q_wf _ _ _ Q12) Ha2 first_output_named Hg) as HP.
    change (k_cs (set_k_cs s2 (set_k_cs s1 k))) with s2.
    destruct (pack clock _ (e :: l) _ s2) as [p s3|e3 s3|] eqn:EP => //; [|apply Hend; by etrans; [apply K2|]].
    destruct HP as (K3 & _ & Hout). destruct (pack_names clock _ _ _ _ _ _ (first_output_names clock) EP) as (Hp & Hall & _).
    apply (finish_moved order k s3 targets p); try done; [by etrans; [apply K2|]|].
    exists e. split; [|apply Hall, elem_of_cons; by left].
    assert (e ∈ moved (LiveExtents order (k_idx k)) targets) as Hin by (rw Em; apply elem_of_cons; by left).
    by apply elem_of_moved in Hin as [? _].
Qed.

(** ** The whole command *)

Lemma start_idle now w k w' : start cfg now w = Ret k w' → idle (k_cs k).
Proof.
  rw /start /mustBuildStore /RecoverNextSeq /in_world /on_backing /=.
  destruct (List (backing w)) as [ids b1|e1 b1|] => //=.
  destruct (_ <? 0); rw /SetCacheDir /in_world /on_local /=; destruct (newChunkCache _ _) as [c d1|e d1|] => //=;
    destruct (loadIndex _ _ _) as [i w1|e1 w1|] => //=; by intros [= <- _].
Qed.

(** A start that fails has only read the object store. *)
Lemma start_fail_reads now w e w' : start cfg now w = Fail e w' →
  raw (backing w') = raw (backing w) ∧ ∀ n, chunk_name n = true → obj (backing w') n = obj (backing w) n.
Proof.
  rw /start /mustBuildStore /RecoverNextSeq /in_world /on_backing /=.
  pose proof (List_law (obj:=obj) (backing w)) as HL. pose proof (List_raw (backing w)) as HR.
  destruct (List (backing w)) as [ids b1|e1 b1|] => //=; [|by intros [= _ <-]].
  assert (∀ d1, loadIndex cfg now (mkWorld b1 d1) = Fail e w' →
    raw (backing w') = raw (backing w) ∧ ∀ n, chunk_name n = true → obj (backing w') n = obj (backing w) n) as Hload.
  { intros d1. pose proof (GetRaw_law (obj:=obj) (raw:=raw) b1) as HG. rw /loadIndex /=.
    destruct (Load _ _ d1) as [i d2|er d2|] => //=.
    destruct er; try (intros [= _ <-]; by split; [|apply HL]).
    destruct (GetRaw _ b1) as [data b2|er b2|] => //=.
    - destruct (Index_Unmarshal _ _) as [i|er]; [by repeat (case_match; try done)|]. intros [= _ <-].
      destruct HG as (_ & E & Ho). split; [by rw E|]. intros n Hn. simpl. rw Ho //. by apply HL.
    - destruct HG as (_ & E & Ho). destruct er => //=; intros [= _ <-]; (split; [by rw E|]); intros n Hn; simpl; rw Ho //; by apply HL. }
  destruct (_ <? 0); rw /SetCacheDir /in_world /on_local /=; destruct (newChunkCache _ _) as [c d1|e1 d1|] => //=;
    try (intros [= _ <-]; by split; [|apply HL]);
    specialize (Hload d1); destruct (loadIndex _ _ _) as [i w1|e1 w1|] => //=; by intros [= <- <-]; apply Hload.
Qed.

(** What the run may rely on: [order] is one in which Go may iterate over the
    extent table, and the store lists its chunks. *)
Definition may_run (now : Z) (order : list Z) (w : world W) : Prop :=
  ∀ k w', start cfg now w = Ret k w' →
    order ≡ₚ (map_to_list (extents (k_idx k))).*1 ∧ lists_chunks (backing (wd (k_cs k))).

Lemma runCompact_recalls now order b d k0 : 0 <= ChunkSize cfg < 2 ^ 62 → recalls obj raw cfg k0 b →
  machine_ready obj raw cfg b d → may_run now order (mkWorld b d) →
  match runCompact cfg now clock order (mkWorld b d) with
  | Ret _ w | Fail _ w => ∃ k, recalls obj raw cfg k (backing w) ∧
      (k = k0 ∨ live obj raw cfg k ∧ same_files obj cfg k0 k)
  | Crash => False
  end.
Proof.
  intros Hz Hr Hd Hok. pose proof (recalls_ready obj raw cfg k0 b Hr) as Hb.
  pose proof (recalls_start obj raw cfg Hz k0 b now d Hr Hd) as HS. rw /runCompact.
  destruct (start cfg now (mkWorld b d)) as [k w|e w|] eqn:E => //=.
  - destruct HS as (_ & Hl & _ & Hsf). destruct (Hok k w E) as [Ho Hls].
    destruct (start_recalls obj raw cfg Hz now b d k w Hb Hd E) as (_ & _ & Hrk).
    pose proof (Compact_recalls order k Hl (start_idle _ _ _ _ E) Hrk Ho Hls) as HC.
    destruct (Compact clock order (compactor_of cfg) k) => //=; exists k; (split; [done|by right]).
  - destruct (start_fail_reads now _ e w E) as [Er Eo]. exists k0. split; [|by left].
    split; [intros r Hrr; rw Eo; [apply Hr; lia|apply chunk_name_format; lia]|].
    apply (recalled_grows obj raw cfg k0 b); [apply Hr|done|by apply grows_same].
Qed.
End run.
