(* ===== verification/FuseConc.v ===== *)
(** Requests that run beside each other (src/internal/fuse/fs.go). go-fuse
    serves each request in a goroutine of its own; the index and the chunk store
    protect each of their methods with a mutex, so a handler is a sequence of
    calls between which other requests take effect.

    A handler of an open file ([FileHandle.Read], [Write], [Fsync]) or of a node
    that makes several calls ([Setattr], [Lookup], [Readdir], [Create], [Mkdir],
    [Symlink], [Link], [Rmdir]) is a thread with one step per call. A request
    whose handler makes one call is one step: it may run at any time. *)
From S2P Require Import Prelude Types Extents Index OS Decimal Persist Store Cache ChunkStore.
From S2P Require Import Fuse FuseProps FsSpec Durable.
#[local] Open Scope Z_scope.

(** Where a [Read] is: before [GetInode]; before [GetExtents], with the end of
    the range it needs; in the loop over the extents. *)
Inductive rpc :=
  | RInode
  | RExtents (end_ : Z)
  | RLoop (end_ : Z) (exts : list Extent.t) (buf : bytes)
  | RDone (r : res Errno bytes).

(** Where a [Write] is: before [GetInode]; before [UsedBytes], with the size of
    the file; before [Append]; before [WriteExtent]. *)
Inductive wpc :=
  | WInode
  | WUsed (size : Z)
  | WAppend
  | WCommit (ext : Extent.t)
  | WDone (r : res Errno Z).

(** Where an [Fsync] is: before [FlushActive]; before [index.Save]. *)
Inductive spc := SFlush | SSave | SDone (r : res Errno unit).

(** Where a request on a node is: before its first call; before [GetInode] of
    the child that [Lookup] or [Rmdir] has found; before [AddDirEntry] of the
    new inode, or of the target of a [Link]; before [SetSymlink]; before
    [RemoveDirEntry]; before the [GetInode] that fills the answer; and in
    [Readdir] before the index's [Readdir], before [GetParentIno], and in the
    loop over the entries. *)
Inductive tpc :=
  | PStart
  | PChild (c : Z)
  | PAdd (c : Z)
  | PTarget (c : Z)
  | PRemove
  | PAttr (c : Z)
  | PList
  | PParent (es : list DirEntry.t)
  | PEntries (es : list DirEntry.t) (list : list dirent)
  | PDone (a : answer).

Inductive thread :=
  | TRead (ino destLen off now : Z) (p : rpc)
  | TWrite (ino : Z) (data : bytes) (off now : Z) (p : wpc)
  | TFsync (p : spc)
  | TTree (r : request) (p : tpc)
  | TPanicked.

(** The requests on nodes, by the number of calls that their handlers make.
    ([Statfs] makes two, but the block size never changes.) *)
Definition one_call (r : request) : bool :=
  match r with
  | RGetattr _ | RReadlink _ | RUnlink _ _ _ | RRename _ _ _ _ _ | ROpen _ | RStatfs | RGetxattr _ _ _
  | RSetxattr _ _ _ _ | RListxattr _ _ | RRemovexattr _ _ _ | RFlush => true
  | _ => false
  end.
Definition many_calls (r : request) : bool :=
  match r with
  | RSetattr _ _ _ _ | RLookup _ _ | RReaddir _ | RCreate _ _ _ _ _ | RMkdir _ _ _ _ _ | RSymlink _ _ _ _ _
  | RLink _ _ _ _ | RRmdir _ _ _ => true
  | _ => false
  end.

(** The inode that a request makes: its type, its permissions and the caller. *)
Definition birth (r : request) : option (Z * Z * option (Z * Z)) :=
  match r with
  | RCreate _ _ mode caller _ => Some (Regular, Z.land mode 0xFFF, caller)
  | RMkdir _ _ mode caller _ => Some (Directory, Z.land mode 0xFFF, caller)
  | RSymlink _ _ _ caller _ => Some (Symlink, 0x1FF, caller)
  | _ => None
  end.

(** The name that a request adds: directory, name and time. *)
Definition new_name (r : request) : option (Z * string * Z) :=
  match r with
  | RCreate p nm _ _ now | RMkdir p nm _ _ now | RSymlink p _ nm _ now | RLink p _ nm now => Some (p, nm, now)
  | _ => None
  end.

(** A request before its first step. *)
Definition starting (th : thread) : bool :=
  match th with
  | TRead _ _ _ _ RInode | TWrite _ _ _ _ WInode | TFsync SFlush | TTree _ PStart => true
  | _ => false
  end.

Record csys W := mkC { fs : Fusey W; threads : list thread }.
Arguments mkC {W}. Arguments fs {W}. Arguments threads {W}.

Section steps.
Context {W : Type} {S : Store W} {C : CborCodec}.
Implicit Types F : Fusey W.

(** A call, and where the thread is after each of its outcomes. *)
Definition then_ {A} (m : outcome Errno (Fusey W) A) (ret : A → thread) (fail : Errno → thread) F
    : Fusey W * thread :=
  match m with Ret a F => (F, ret a) | Fail e F => (F, fail e) | Crash => (F, TPanicked) end.

Definition read_step (ino destLen off now : Z) (p : rpc) F : option (Fusey W * thread) :=
  let at_ p := TRead ino destLen off now p in
  match p with
  | RInode =>
      match GetInode (idx F) ino with
      | (_, false) => Some (F, at_ (RDone (Err ENOENT)))
      | (n, true) =>
          if off >=? Inode.Size n then Some (F, at_ (RDone (Ok [])))
          else let end_ := off +! destLen in
               Some (F, at_ (RExtents (if end_ >? Inode.Size n then Inode.Size n else end_)))
      end
  | RExtents end_ =>
      match GetExtents (idx F) ino with
      | None => Some (F, at_ (RDone (Ok [])))
      | Some exts =>
          let need := end_ -! off in
          if need <? 0 then Some (F, TPanicked)
          else Some (F, at_ (RLoop end_ exts (replicate (Z.to_nat need) zero_byte)))
      end
  | RLoop end_ [] buf => Some (set_idx (TouchAtime ino now (idx F)) F, at_ (RDone (Ok buf)))
  | RLoop end_ (e :: exts) buf =>
      Some (then_ (read_one off end_ e buf F) (λ buf, at_ (RLoop end_ exts buf)) (λ e, at_ (RDone (Err e))) F)
  | RDone _ => None
  end.

Definition write_step (ino : Z) (data : bytes) (off now : Z) (p : wpc) F : option (Fusey W * thread) :=
  let at_ p := TWrite ino data off now p in
  let newEnd := off +! len data in
  match p with
  | WInode =>
      match GetInode (idx F) ino with
      | (_, false) => Some (F, at_ (WDone (Err ENOENT)))
      | (n, true) => Some (F, at_ (if newEnd >? Inode.Size n then WUsed (Inode.Size n) else WAppend))
      end
  | WUsed size =>
      Some (F, at_ (if UsedBytes (idx F) +! (newEnd -! size) >? maxFSSize F then WDone (Err ENOSPC) else WAppend))
  | WAppend => Some (then_ (on_chunks (Append data off) EIO F) (λ ext, at_ (WCommit ext)) (λ e, at_ (WDone (Err e))) F)
  | WCommit ext =>
      Some (then_ (on_idx (WriteExtent ino ext now) (λ _, EIO) F)
              (λ _, at_ (WDone (Ok (u32 (len data))))) (λ e, at_ (WDone (Err e))) F)
  | WDone _ => None
  end.

Definition fsync_step (p : spc) F : option (Fusey W * thread) :=
  match p with
  | SFlush =>
      Some (then_ (on_chunks FlushActive EIO F)
              (λ _, TFsync (if decide (cacheDir F ≠ ""%string) then SSave else SDone (Ok tt)))
              (λ e, TFsync (SDone (Err e))) F)
  | SSave => Some (then_ (save_index (cacheDir F) F) (λ _, TFsync (SDone (Ok tt))) (λ e, TFsync (SDone (Err e))) F)
  | SDone _ => None
  end.

(** The first call of a request on a node. *)
Definition tree_start (r : request) F : option (Fusey W * thread) :=
  let at_ p := TTree r p in
  let failed e := at_ (PDone (AErr e)) in
  match r with
  | RSetattr B ino inp now =>
      let w := wants B inp in
      Some (then_ (on_idx (SetAttr ino (w_mode w) (w_uid w) (w_gid w) (w_size w) (w_atime w) (w_mtime w) now) (λ _, EIO) F)
              (λ _, at_ (PAttr ino)) failed F)
  | RLookup ino name | RRmdir ino name _ =>
      match Index_Lookup (idx F) ino name with
      | (_, false) => Some (F, failed ENOENT)
      | (c, true) => Some (F, at_ (PChild c))
      end
  | RReaddir ino =>
      match GetInode (idx F) ino with
      | (_, false) => Some (F, failed ENOENT)
      | (n, true) => Some (F, if decide (Inode.FileType n ≠ Directory) then failed ENOTDIR else at_ PList)
      end
  | RLink _ None _ _ => Some (F, failed EINVAL)
  | RLink _ (Some t) _ _ =>
      match GetInode (idx F) t with
      | (_, false) => Some (F, failed ENOENT)
      | (n, true) => Some (F, if decide (Inode.FileType n = Directory) then failed EPERM else at_ (PAdd t))
      end
  | RCreate _ _ _ _ now | RMkdir _ _ _ _ now | RSymlink _ _ _ _ now =>
      '(ft, perm, caller) ← birth r;
      let (uid, gid) := caller_ids caller in
      Some (then_ (on_idx (CreateInode ft perm uid gid 0 now) (λ _, EIO) F) (λ c, at_ (PAdd c)) failed F)
  | _ => None
  end.

Definition tree_step (r : request) (p : tpc) F : option (Fusey W * thread) :=
  let at_ p := TTree r p in
  let failed e := at_ (PDone (AErr e)) in
  match p, r with
  | PStart, _ => tree_start r F
  | PChild c, RLookup _ _ =>
      match GetInode (idx F) c with
      | (_, false) => Some (F, failed ENOENT)
      | (n, true) => Some (F, at_ (PDone (AEntry c (fillAttr n))))
      end
  | PChild c, RRmdir _ _ _ =>
      match GetInode (idx F) c with
      | (_, false) => Some (F, failed ENOENT)
      | (n, true) => Some (F, if decide (Inode.FileType n ≠ Directory) then failed ENOTDIR else at_ PRemove)
      end
  | PRemove, RRmdir ino name now =>
      Some (then_ (on_idx (RemoveDirEntry ino name now) (λ e, if mentions_not_empty e then ENOTEMPTY else EIO) F)
              (λ _, at_ (PDone AOk)) failed F)
  | PAdd c, _ =>
      '(ino, name, now) ← new_name r;
      Some (then_ (on_idx (AddDirEntry ino name c now) (λ _, EEXIST) F)
              (λ _, at_ (match r with RSymlink _ _ _ _ _ => PTarget c | _ => PAttr c end)) failed F)
  | PTarget c, RSymlink _ target _ _ now =>
      Some (then_ (on_idx (SetSymlink c target now) (λ _, EIO) F) (λ _, at_ (PAttr c)) failed F)
  | PAttr _, RSetattr _ ino _ _ =>
      match GetInode (idx F) ino with
      | (_, false) => Some (F, failed ENOENT)
      | (n, true) => Some (F, at_ (PDone (AAttr (fillAttr n))))
      end
  | PAttr c, _ => Some (F, at_ (PDone (AEntry c (fillAttr (GetInode (idx F) c).1))))
  | PList, RReaddir ino =>
      match Index_Readdir (idx F) ino with
      | Err _ => Some (F, failed EIO)
      | Ok es => Some (F, at_ (PParent es))
      end
  | PParent es, RReaddir ino =>
      Some (F, at_ (PEntries es [(Directory, "."%string, ino); (Directory, ".."%string, GetParentIno (idx F) ino)]))
  | PEntries [] l, RReaddir _ => Some (F, at_ (PDone (ADir l)))
  | PEntries (e :: es) l, RReaddir _ =>
      match GetInode (idx F) (DirEntry.ChildIno e) with
      | (_, false) => Some (F, at_ (PEntries es l))
      | (n, true) => Some (F, at_ (PEntries es (l ++ [(Inode.FileType n, DirEntry.Name e, DirEntry.ChildIno e)])))
      end
  | _, _ => None
  end.

Definition advance (th : thread) F : option (Fusey W * thread) :=
  match th with
  | TRead ino n off now p => read_step ino n off now p F
  | TWrite ino data off now p => write_step ino data off now p F
  | TFsync p => fsync_step p F
  | TTree r p => tree_step r p F
  | TPanicked => None
  end.

(** The numbers of chunks and inodes and the link counts that the call needs
    are not used up. *)
Definition counters (th : thread) F : bool :=
  (nextSeq (cs (chunks F)) + 1 <? 2 ^ 63) &&
  match th with
  | TTree r PStart => match birth r with Some _ => nextIno (idx F) <? 2 ^ 64 - 1 | None => true end
  | TTree _ (PAdd c) => match inodes (idx F) !! c with Some n => Inode.Nlink n + 1 <? 2 ^ 32 | None => true end
  | _ => true
  end.

(** A thread makes its next call, or a request of one call is served. *)
Inductive step : csys W → csys W → Prop :=
  | step_run t th F' th' s :
      counters th (fs s) = true →
      threads s !! t = Some th → advance th (fs s) = Some (F', th') →
      step s (mkC F' (<[t := th']> (threads s)))
  | step_meta r F' s :
      one_call r = true → req_ok r (fs s) → serve r (fs s) = Some F' → step s (mkC F' (threads s)).

(** A thread that is alone, for at most [n] steps. *)
Fixpoint drive (n : nat) (th : thread) F : Fusey W * thread :=
  match n with
  | O => (F, th)
  | Datatypes.S n => match advance th F with Some (F, th) => drive n th F | None => (F, th) end
  end.
End steps.
