(* ===== verification/FuseConcProps.v ===== *)
(** Concurrent requests: the invariant holds after every call, a read returns
    the file as it was at one moment of the request, a write takes effect at one
    moment, and a request that is alone computes its handler. *)
From S2P Require Import Prelude Types Extents Index IndexInv OS Decimal Persist Store Cache ChunkStore.
From S2P Require Import Fuse FuseData FuseInv FuseProps FsSpec SpecRefine Durable FuseConc.
#[local] Open Scope Z_scope.

Section conc.
Context {W : Type} {S : Store W} {C : CborCodec}.
Context (obj : W → string → option bytes) {L : StoreLaws S obj}.
Implicit Types F : Fusey W.
Implicit Types s : csys W.

(** ** Steps of one thread *)

(** What the kernel guarantees of the arguments. *)
Definition call_ok (th : thread) : Prop :=
  match th with
  | TRead _ n off _ _ => 0 < n ∧ 0 <= off ∧ off + n <= int64_max
  | TWrite _ data off _ _ => data ≠ [] ∧ 0 <= off ∧ off + len data <= int64_max
  | TFsync _ => True
  | TTree r _ => many_calls r = true
  | TPanicked => False
  end.

(** What a thread relies on at the place where it is. *)
Definition thread_ok F (th : thread) : Prop :=
  match th with
  | TRead _ n off _ (RExtents end_) => off < end_ <= off + n
  | TRead _ n off _ (RLoop end_ exts buf) => off < end_ <= off + n ∧
      ∃ pre, Forall (good_ext obj (chunks F)) (pre ++ exts) ∧ holds_content obj off end_ (chunks F) pre buf
  | TWrite _ data off _ (WCommit ext) =>
      good_ext obj (chunks F) ext ∧ ext_data obj (chunks F) ext data ∧ Extent.FileOffset ext = off
  | TTree _ (PAdd c) => c ≠ RootIno
  | TPanicked => False
  | _ => True
  end.

Lemma thread_ok_extends F F' th : extends obj (chunks F) (chunks F') → thread_ok F th → thread_ok F' th.
Proof.
  intros Hx. destruct th as [ino n off now [|e|e exts buf|]|ino data off now [| | |ext|]| |r p|]; simpl; try done.
  - intros [He (pre & Hg & Hb)]. split; [done|]. exists pre. split.
    + eapply Forall_impl; [exact Hg|]. intros x. by apply good_ext_extends.
    + apply (holds_content_extends obj _ _ (chunks F)); [done| |done]. apply Forall_app in Hg. by destruct Hg.
  - intros (Hg & [El Hd] & Ef). split; [by eapply good_ext_extends|]. split; [|done]. split; [done|by apply Hx].
Qed.

(** The files are the same: extents and sizes. *)
Definition silent F F' : Prop :=
  extents (idx F') = extents (idx F) ∧ ∀ j, Inode.Size <$> inodes (idx F') !! j = Inode.Size <$> inodes (idx F) !! j.

(** What a step of a thread does. *)
Record stepped (th : thread) F F' (th' : thread) : Prop := {
  st_inv : fs_inv obj F';
  st_extends : extends obj (chunks F) (chunks F');
  st_call : call_ok th';
  st_thread : thread_ok F' th';
}.

Lemma silent_refl F : silent F F.
Proof. done. Qed.

Lemma same_stepped th F th' : fs_inv obj F → call_ok th' → thread_ok F th' → stepped th F F th'.
Proof. intros. by split. Qed.

Lemma only_read_silent F F' : only_read obj F F' → silent F F'.
Proof. intros [E _]. by rw /silent E. Qed.

Lemma touch_inv ino now F : fs_inv obj F → fs_inv obj (set_idx (TouchAtime ino now (idx F)) F).
Proof.
  intros [Hi Hc Hd Hdir]. split; [by apply TouchAtime_wf|done| |done].
  eapply data_inv_le; [done|]. apply TouchAtime_data.
Qed.

Lemma touch_silent ino now F : silent F (set_idx (TouchAtime ino now (idx F)) F).
Proof.
  rw /silent /= /TouchAtime. destruct (inodes (idx F) !! ino) as [n|] eqn:E; [|done]. split; [done|].
  intros j. simpl. destruct (decide (j = ino)) as [->|]; [|by rw lookup_alter_ne]. by rw lookup_alter_eq E.
Qed.

Lemma read_stepped ino n off now p F F' th' :
  fs_inv obj F → call_ok (TRead ino n off now p) → thread_ok F (TRead ino n off now p) →
  read_step ino n off now p F = Some (F', th') → stepped (TRead ino n off now p) F F' th' ∧ silent F F'.
Proof.
  intros H Hc Ht. pose proof Hc as (Hn & Ho & Hm). destruct p as [|end_|end_ [|e exts] buf|r]; simpl in Ht |- *; [| | | |done].
  - rw /GetInode. destruct (inodes (idx F) !! ino) as [nd|] eqn:En; [|by intros [= <- <-]].
    rw Z.geb_leb. destruct (Z.leb_spec (Inode.Size nd) off); intros [= <- <-]; [done|]. split; [|done].
    apply same_stepped; [done..|]. simpl. rw i64_small; [|rw /is_i64; lia]. rw Z.gtb_ltb. zcases; lia.
  - rw /GetExtents. destruct (extents (idx F) !! ino) as [exts|] eqn:Ex; [|by intros [= <- <-]].
    rw i64_small; [|rw /is_i64; lia]. destruct (Z.ltb_spec (end_ - off) 0); [lia|]. intros [= <- <-]. split; [|done].
    apply same_stepped; [done..|]. simpl. split; [done|]. exists [].
    destruct (good_extents obj F ino exts H Ex) as (m & _ & _ & Hg & _). split; [done|].
    split; [rw len_replicate; lia|]. intros o Hr. rw /content /=. apply lookup_replicate_2. lia.
  - intros [= <- <-]. split; [|apply touch_silent]. split; [by apply touch_inv|done|done|done].
  - destruct Ht as [He (pre & Hg & Hb)]. pose proof Hg as [Hgp [Hge Hgs]%Forall_cons]%Forall_app.
    pose proof (read_one_cases obj off end_ e pre buf F (fi_cs _ _ H) Hgp Hge ltac:(lia) ltac:(lia) Hb) as HR.
    destruct (read_one off end_ e buf F) as [buf' F1|er F1|]; [| |done]; simpl; intros [= <- <-].
    + destruct HR as [Hor Hb']. split; [|by apply only_read_silent]. pose proof Hor as (_ & _ & _ & _ & _ & Hx).
      assert (Forall (good_ext obj (chunks F1)) ((pre ++ [e]) ++ exts)) as Hg1.
      { rw - (assoc_L (++)) /=. eapply Forall_impl; [exact Hg|]. intros x. by apply good_ext_extends. }
      split; [by eapply only_read_inv|done|done|]. simpl. split; [done|]. exists (pre ++ [e]). split; [done|].
      apply (holds_content_extends obj _ _ (chunks F)) => //. by apply Forall_app; split; [|apply Forall_singleton].
    + destruct HR as [_ Hor]. split; [|by apply only_read_silent].
      split; [by eapply only_read_inv|apply Hor|done|done].
Qed.

(** The commit of a write, and every other step of it. *)
Definition write_effect ino data off (p : wpc) F F' (th' : thread) : Prop :=
  match p, th' with
  | WCommit ext, TWrite _ _ _ _ (WDone (Ok k)) => k = u32 (len data) ∧ ∃ exts, written obj ino data off F exts ext F'
  | _, _ => silent F F'
  end.

Lemma write_stepped ino data off now p F F' th' :
  fs_inv obj F → call_ok (TWrite ino data off now p) → thread_ok F (TWrite ino data off now p) →
  nextSeq (cs (chunks F)) + 1 < 2 ^ 63 → write_step ino data off now p F = Some (F', th') →
  stepped (TWrite ino data off now p) F F' th' ∧ write_effect ino data off p F F' th'.
Proof.
  intros H Hc Ht Hq. pose proof Hc as (Hne & Ho & Hm). destruct p as [|size| |ext|r]; simpl in Ht |- *; [| | | |done].
  - destruct (GetInode (idx F) ino) as [nd []]; intros [= <- <-]; [|by split].
    split; [|done]. apply same_stepped; [done..|]. by destruct (_ >? _).
  - intros [= <- <-]. split; [|done]. apply same_stepped; [done..|]. by destruct (_ >? _).
  - pose proof (append_cases obj data off F H Hne Ho Hm Hq) as HA.
    destruct (on_chunks (Append data off) EIO F) as [e F1|[] F1|]; try done; simpl; intros [= <- <-].
    + destruct HA as (s & -> & H1 & Hx & Hg & Hd & Ef). split; [|done]. by split.
    + destruct HA as (H1 & Ei & Hx). split; [by split|]. by rw /silent Ei.
  - destruct Ht as (Hg & Hd & Ef). pose proof (commit_cases obj ino data off now F ext H Hg Hd Ef) as HC.
    destruct (on_idx _ _ F) as [u F1|[] F1|]; try done; simpl; intros [= <- <-].
    + destruct HC as [exts Hw]. split; [|by eauto]. split; [apply Hw|apply Hw|done|done].
    + subst F1. by split.
Qed.

Lemma fsync_stepped p F F' th' : fs_inv obj F → fsync_step p F = Some (F', th') →
  stepped (TFsync p) F F' th' ∧ silent F F'.
Proof.
  intros H. destruct p; simpl; [| |done].
  - rw /on_chunks. pose proof (FlushActive_cases obj (chunks F) (fi_cs _ _ H)) as HF.
    destruct (FlushActive (chunks F)) as [u s1|e s1|]; [| |done]; simpl; intros [= <- <-].
    + destruct HF as (Hw & Hx & Ec & _). split; [|done].
      split; [apply chunks_inv; [done..|by rw Ec]|done|done|]. by case_decide.
    + destruct HF as (Hw & Hx & Ec). split; [|done]. split; [|done..]. apply chunks_inv; [done..|by rw Ec].
  - pose proof (save_index_cases obj F (cacheDir F) H eq_refl) as HS. rw /save_index in HS |- *.
    destruct (Save (cacheDir F) (idx F, local (wd (chunks F)))) as [u [i d]|e [i d]|] eqn:E; [| |done];
      simpl in HS |- *; intros [= <- <-].
    + destruct HS as (H1 & _). split; [split; [done| |done..]; by apply extends_view|].
      destruct (Save_cases (cacheDir F) (idx F) (local (wd (chunks F))) i d) as [(?&_&->&_)|(?&_&->&_)]; [by rw E|done|done].
    + destruct HS as (H1 & Ei). split; [split; [done| |done..]; by apply extends_view|]. by rw /silent Ei.
Qed.

(** A call of the index leaves the chunk store alone. *)
Lemma on_idx_chunks {A} (m : Index → outcome IdxErr Index A) err F F' :
  out_state (on_idx m err F) = Some F' → chunks F' = chunks F.
Proof. rw /on_idx. by destruct (m (idx F)); intros [= <-]. Qed.

Lemma idx_stepped {A} th (m : Index → outcome IdxErr Index A) err ret fail F F' th' :
  fs_safe obj (on_idx m err F) →
  (∀ a F1, on_idx m err F = Ret a F1 → call_ok (ret a) ∧ thread_ok F1 (ret a)) →
  (∀ e F1, call_ok (fail e) ∧ thread_ok F1 (fail e)) →
  then_ (on_idx m err F) ret fail F = (F', th') → stepped th F F' th'.
Proof.
  intros Hs Hr Hf. pose proof (on_idx_chunks m err F) as Hc. rw /fs_safe in Hs.
  destruct (on_idx m err F) as [a F1|e F1|]; simpl in *; [| |done]; intros [= <- <-].
  - destruct (Hr a F1 eq_refl). split; [done|by rw (Hc F1)|done|done].
  - destruct (Hf e F1). split; [done|by rw (Hc F1)|done|done].
Qed.

Lemma counters_seq th F : counters th F = true → nextSeq (cs (chunks F)) + 1 < 2 ^ 63.
Proof. rw /counters. by intros [H%Z.ltb_lt _]%andb_true_iff. Qed.

Lemma wants_i64 B inp z : w_size (wants B inp) = Some z → is_i64 z.
Proof. rw /wants /when_bit /=. case_match; [done|]. intros [= <-]. apply i64_range. Qed.

Lemma not_root F t n : fs_inv obj F → inodes (idx F) !! t = Some n → Inode.FileType n ≠ Directory → t ≠ RootIno.
Proof.
  intros H Hn Ht ->. destruct (core_root _ _ _ _ (wf_struct _ (fi_idx _ _ H))) as [nl Hr].
  rw (skeleton_Some _ _ _ Hn) in Hr. by injection Hr as _ Hr _.
Qed.

Lemma made_stepped r ft perm caller now F F' th' :
  fs_inv obj F → many_calls r = true → nextIno (idx F) < 2 ^ 64 - 1 →
  (let (uid, gid) := caller_ids caller in
   Some (then_ (on_idx (CreateInode ft perm uid gid 0 now) (λ _, EIO) F) (λ c, TTree r (PAdd c))
     (λ e, TTree r (PDone (AErr e))) F)) = Some (F', th') →
  stepped (TTree r PStart) F F' th'.
Proof.
  intros H Hm Hr. destruct (caller_ids caller) as [uid gid]. intros Ha%(inj Some). revert Ha. apply idx_stepped.
  - apply on_idx_meta; [done|by apply CreateInode_preserves; [apply H|]|by apply CreateInode_data].
  - intros c F1 [Hc _]%on_idx_ret. pose proof (wf_root_next _ (fi_idx _ _ H)).
    apply CreateInode_ret in Hc as [-> _]. split; [done|]. simpl. lia.
  - done.
Qed.

Lemma start_stepped r F F' th' :
  fs_inv obj F → many_calls r = true → counters (TTree r PStart) F = true →
  tree_start r F = Some (F', th') → stepped (TTree r PStart) F F' th'.
Proof.
  intros H Hm [_ Hc]%andb_true_iff Ha.
  assert (∀ p, thread_ok F (TTree r p) → Some (F, TTree r p) = Some (F', th') → stepped (TTree r PStart) F F' th') as Hsame.
  { intros p Hp [= <- <-]. by apply same_stepped. }
  destruct r; try done; cbn [tree_start birth mbind option_bind] in Ha, Hc;
    try (apply Z.ltb_lt in Hc; revert Ha; by apply made_stepped).
  - injection Ha as Ha. revert Ha. apply idx_stepped; [|done..].
    apply on_idx_safe; [done|by apply SetAttr_preserves, H|].
    apply SetAttr_data; [apply H|]. intros z. apply wants_i64.
  - revert Ha. destruct (Index_Lookup _ _ _) as [c []]; by apply Hsame.
  - revert Ha. destruct (GetInode _ _) as [n []]; [|by apply Hsame]. case_decide; by apply Hsame.
  - destruct target as [t|]; [|by revert Ha; apply Hsame]. revert Ha. rw /GetInode.
    destruct (inodes (idx F) !! t) as [n|] eqn:En; [|by apply Hsame]. case_decide; [by apply Hsame|].
    apply Hsame. by apply (not_root F t n).
  - revert Ha. destruct (Index_Lookup _ _ _) as [c []]; by apply Hsame.
Qed.

Lemma tree_stepped r p F F' th' :
  fs_inv obj F → call_ok (TTree r p) → thread_ok F (TTree r p) → counters (TTree r p) F = true →
  tree_step r p F = Some (F', th') → stepped (TTree r p) F F' th'.
Proof.
  intros H Hm Ht Hc Ha. simpl in Hm.
  assert (∀ q, thread_ok F (TTree r q) → Some (F, TTree r q) = Some (F', th') → stepped (TTree r p) F F' th') as Hsame.
  { intros q Hq [= <- <-]. by apply same_stepped. }
  destruct p as [|c|c|c| |c| |es|[|e es] l|a]; simpl in Ha.
  - by apply start_stepped.
  - revert Ha. destruct r; try done; (destruct (GetInode _ _) as [n []]; [|by apply Hsame]); [by apply Hsame|].
    case_decide; by apply Hsame.
  - destruct (new_name r) as [[[q nm] now]|]; [|done]. injection Ha as Ha. revert Ha. apply idx_stepped.
    + apply on_idx_meta; [done| |by apply AddDirEntry_data]. apply AddDirEntry_preserves; [apply H|done|].
      intros n Hn. apply andb_true_iff in Hc as [_ Hc]. rw Hn in Hc. by apply Z.ltb_lt.
    + intros _ F1 _. by destruct r.
    + done.
  - destruct r; try done. injection Ha as Ha. revert Ha. apply idx_stepped; [|done..].
    apply on_idx_meta; [done|by apply SetSymlink_preserves, H|by apply SetSymlink_data].
  - destruct r; try done. injection Ha as Ha. revert Ha. apply idx_stepped; [|done..].
    apply on_idx_meta; [done|by apply RemoveDirEntry_preserves, H|by apply RemoveDirEntry_data].
  - revert Ha. destruct r; try (by apply Hsame). destruct (GetInode _ _) as [n []]; by apply Hsame.
  - revert Ha. destruct r; try done. destruct (Index_Readdir _ _); by apply Hsame.
  - revert Ha. destruct r; try done. by apply Hsame.
  - revert Ha. destruct r; try done. by apply Hsame.
  - revert Ha. destruct r; try done. destruct (GetInode _ _) as [n []]; by apply Hsame.
  - by destruct r.
Qed.

(** ** All threads together *)

Record inv s : Prop := {
  inv_fs : fs_inv obj (fs s);
  inv_call t th : threads s !! t = Some th → call_ok th;
  inv_thread t th : threads s !! t = Some th → thread_ok (fs s) th;
}.

Lemma thread_moved {l : list thread} {t th' t1 th1} :
  <[t := th']> l !! t1 = Some th1 → (t1 = t ∧ th1 = th') ∨ (t1 ≠ t ∧ l !! t1 = Some th1).
Proof. intros H. apply list_lookup_insert_Some in H as [(-> & <- & _)|[? ?]]; auto. Qed.

Lemma thread_stepped s t th F' th' : inv s → counters th (fs s) = true →
  threads s !! t = Some th → advance th (fs s) = Some (F', th') → stepped th (fs s) F' th'.
Proof.
  intros [H Hc Ho] Hq Ht Ha. pose proof (Hc t th Ht) as Hct. pose proof (Ho t th Ht) as Hot.
  destruct th as [ino n off now p|ino data off now p|p|r p|]; simpl in Ha; [| | | |done].
  - by apply read_stepped.
  - apply write_stepped; try done. by eapply counters_seq.
  - by apply fsync_stepped.
  - by apply tree_stepped.
Qed.

Lemma one_call_metadata r : one_call r = true → metadata r = true.
Proof. by destruct r. Qed.

(** A request without a file handle leaves the chunk store alone. *)
Lemma metadata_chunks r F F' : metadata r = true → serve r F = Some F' → chunks F' = chunks F.
Proof.
  assert (PreOrder (λ F F', chunks F' = chunks F)) by (split; [done|]; intros F1 F2 F3 ? ?; by etrans).
  apply (serve_metadata (λ F F', chunks F' = chunks F)).
  intros A m err F1 F2 _. rw /on_idx. by destruct (m (idx F1)); intros [= <-].
Qed.

Lemma step_inv s s' : inv s → step s s' → inv s' ∧ extends obj (chunks (fs s)) (chunks (fs s')).
Proof.
  intros Hi Hs. destruct Hs as [t th F' th' s Hq Ht Ha|r F' s Hm Hok Hr].
  - destruct (thread_stepped s t th F' th' Hi Hq Ht Ha) as [H1 H2 H3 H4]. split; [|done]. split; simpl; [done|..].
    + intros t1 th1 H. destruct (thread_moved H) as [[-> ->]|[_ H']]; [done|by eapply inv_call].
    + intros t1 th1 H. destruct (thread_moved H) as [[-> ->]|[_ H']]; [done|].
      apply (thread_ok_extends (fs s)); [done|by eapply inv_thread].
  - pose proof (serve_inv obj r (fs s) F' (inv_fs _ Hi) Hok Hr) as H1.
    pose proof (metadata_chunks r (fs s) F' (one_call_metadata r Hm) Hr) as Ec. simpl. rw Ec. split; [|done].
    split; simpl; [done|by apply Hi|]. intros t th Ht. apply (thread_ok_extends (fs s)); [by rw Ec|by eapply inv_thread].
Qed.

Lemma steps_inv s s' : inv s → rtc step s s' → inv s' ∧ extends obj (chunks (fs s)) (chunks (fs s')).
Proof.
  intros Hi Hs. induction Hs as [|s1 s2 s3 H12 _ IH]; [done|]. destruct (step_inv s1 s2 Hi H12) as [H2 Hx].
  destruct (IH H2) as [H3 Hx']. split; [done|]. by etrans.
Qed.

(** Requests that have not begun, on a sound file system. *)
Definition begins s : Prop :=
  fs_inv obj (fs s) ∧ Forall (λ th, starting th = true ∧ call_ok th) (threads s).

Lemma begins_inv s : begins s → inv s.
Proof.
  intros [H Ht]. split; [done|..]; intros t th Hl; eapply Forall_lookup in Ht as [Hs Hc]; [|done| |done]; [done|].
  by destruct th as [? ? ? ? []|? ? ? ? []|[]|? []|].
Qed.

(** ** What a read has seen *)

(** A state between [s0] and [s] in which thread [t] was at [th]. *)
Definition moment s0 s (t : nat) (th : thread) x : Prop :=
  rtc step s0 x ∧ rtc step x s ∧ threads x !! t = Some th.

(** The moment at which the read [t] looked at the inode, and found more than
    [off] bytes. *)
Definition sized s0 s t ino n off now end_ s1 : Prop :=
  moment s0 s t (TRead ino n off now RInode) s1 ∧
  ∃ nd, inodes (idx (fs s1)) !! ino = Some nd ∧ off < Inode.Size nd ∧ end_ = Z.min (off + n) (Inode.Size nd).

(** What a read that returned [buf] saw: nothing past the end; or the file at
    the moment it copied the extents, over the range that the size allowed when
    it looked at the inode. *)
Definition read_result s0 s t ino n off now (buf : bytes) : Prop :=
  (∃ s1 nd, moment s0 s t (TRead ino n off now RInode) s1 ∧ inodes (idx (fs s1)) !! ino = Some nd ∧
     Inode.Size nd <= off ∧ buf = []) ∨
  ∃ s1 end_ s2, sized s0 s t ino n off now end_ s1 ∧ moment s1 s t (TRead ino n off now (RExtents end_)) s2 ∧
    (extents (idx (fs s2)) !! ino = None ∧ buf = [] ∨
     len buf = end_ - off ∧ ∀ o, off <= o < end_ → buf !! Z.to_nat (o - off) = file_content obj (fs s2) ino o).

Definition read_hist s0 s t (th : thread) : Prop :=
  match th with
  | TRead ino n off now (RExtents end_) => ∃ s1, sized s0 s t ino n off now end_ s1
  | TRead ino n off now (RLoop end_ exts buf) => ∃ s1 s2 pre,
      sized s0 s t ino n off now end_ s1 ∧ moment s1 s t (TRead ino n off now (RExtents end_)) s2 ∧
      extents (idx (fs s2)) !! ino = Some (pre ++ exts) ∧ holds_content obj off end_ (chunks (fs s2)) pre buf
  | TRead ino n off now (RDone (Ok buf)) => read_result s0 s t ino n off now buf
  | _ => True
  end.

Lemma moment_later s0 s s' t th x : step s s' → moment s0 s t th x → moment s0 s' t th x.
Proof. intros Hs (H0 & H1 & Ht). split_and!; [done|by eapply rtc_r|done]. Qed.

Lemma sized_later s0 s s' t ino n off now end_ x :
  step s s' → sized s0 s t ino n off now end_ x → sized s0 s' t ino n off now end_ x.
Proof. intros Hs [Hm Hn]. split; [by eapply moment_later|done]. Qed.

Lemma hist_later s0 s s' t th : step s s' → read_hist s0 s t th → read_hist s0 s' t th.
Proof.
  intros Hs. destruct th as [ino n off now [|e|e exts buf|[buf|]]| | | |]; simpl; try done.
  - intros [s1 H1]. exists s1. by eapply sized_later.
  - intros (s1 & s2 & pre & H1 & H2 & H3). exists s1, s2, pre.
    split; [by eapply sized_later|]. split; [by eapply moment_later|done].
  - intros [(s1 & nd & H1 & H2)|(s1 & end_ & s2 & H1 & H2 & H3)].
    + left. exists s1, nd. split; [by eapply moment_later|done].
    + right. exists s1, end_, s2. split; [by eapply sized_later|]. split; [by eapply moment_later|done].
Qed.

(** Where a step of a read takes it. *)
Lemma hist_read s0 s t ino n off now p F' th' :
  inv s0 → rtc step s0 s → counters (TRead ino n off now p) (fs s) = true →
  threads s !! t = Some (TRead ino n off now p) → read_hist s0 s t (TRead ino n off now p) →
  read_step ino n off now p (fs s) = Some (F', th') →
  read_hist s0 (mkC F' (<[t := th']> (threads s))) t th'.
Proof.
  intros Hi H0 Hq Ht Hh Ha. set (s' := mkC F' _).
  assert (step s s') as Hs by by apply (step_run t (TRead ino n off now p)).
  destruct (steps_inv s0 s Hi H0) as [HI _]. pose proof (inv_call _ HI t _ Ht) as (Hn & Ho & Hm).
  assert (∀ x, moment s0 s t (TRead ino n off now x) s → moment s0 s' t (TRead ino n off now x) s) as Hmom
    by (intros x; by apply moment_later).
  destruct p as [|end_|end_ [|e exts] buf|r]; simpl in Ha; [| | | |done].
  - revert Ha. rw /GetInode. destruct (inodes (idx (fs s)) !! ino) as [nd|] eqn:En; [|by intros [= _ <-]].
    rw Z.geb_leb i64_small; [|rw /is_i64; lia]. destruct (Z.leb_spec (Inode.Size nd) off) as [Hle|Hlt]; intros [= _ <-].
    + left. exists s, nd. split_and!; [by apply Hmom|done..].
    + exists s. split; [by apply Hmom|]. exists nd. split_and!; [done|done|]. rw Z.gtb_ltb. zcases; lia.
  - destruct Hh as [s1 H1]. pose proof (sized_later _ _ _ _ _ _ _ _ _ _ Hs H1) as H1'.
    assert (moment s1 s' t (TRead ino n off now (RExtents end_)) s) as H2.
    { split_and!; [apply H1|by apply rtc_once|done]. }
    revert Ha. rw /GetExtents. destruct (extents (idx (fs s)) !! ino) as [exts|] eqn:Ex.
    + rw i64_small; [|pose proof (inv_thread _ HI t _ Ht) as Hok; simpl in Hok; rw /is_i64; lia].
      destruct (_ <? 0) eqn:El; intros [= _ <-]; [done|]. exists s1, s, []. split_and!; [done..|].
      split; [rw len_replicate; lia|]. intros o Hr. rw /content /=. apply lookup_replicate_2. lia.
    + intros [= _ <-]. right. exists s1, end_, s. split; [done|]. split; [done|]. by left.
  - destruct Hh as (s1 & s2 & pre & H1 & H2 & Ex & Hl & Hb). injection Ha as _ <-.
    right. exists s1, end_, s2. split; [by eapply sized_later|]. split; [by eapply moment_later|]. right.
    split; [done|]. intros o Hr. rw /file_content Ex app_nil_r. by apply Hb.
  - destruct Hh as (s1 & s2 & pre & H1 & H2 & Ex & Hb). pose proof H2 as (Hs12 & Hs2 & _).
    destruct (steps_inv s0 s2 Hi) as [HI2 _]; [by etrans; [apply H1|]|].
    destruct (steps_inv s2 s HI2 Hs2) as [_ Hx].
    destruct (good_extents obj (fs s2) ino _ (inv_fs _ HI2) Ex) as (m & _ & _ & Hg & _).
    pose proof Hg as [Hgp [Hge Hgs]%Forall_cons]%Forall_app.
    assert (off < end_ <= off + n) as He by (destruct (inv_thread _ HI t _ Ht); done).
    pose proof (read_one_cases obj off end_ e pre buf (fs s) (fi_cs _ _ (inv_fs _ HI))) as HR.
    specialize (HR ltac:(eapply Forall_impl; [exact Hgp|intros x; by apply good_ext_extends])
      ltac:(by eapply good_ext_extends) ltac:(lia) ltac:(lia) ltac:(by eapply holds_content_extends)).
    destruct (read_one off end_ e buf (fs s)) as [buf' F1|er F1|]; [| |done]; simpl in Ha; injection Ha as _ <-; [|done].
    destruct HR as [_ [Hl Hb']]. exists s1, s2, (pre ++ [e]). split_and!; [by eapply sized_later|by eapply moment_later| |].
    + by rw - (assoc_L (++)).
    + split; [done|]. intros o Hr. rw Hb' //. apply content_extends; [done|]. apply Forall_app. split; [done|by apply Forall_singleton].
Qed.

(** A write or a sync does not become a read. *)
Definition is_read (th : thread) : bool := match th with TRead _ _ _ _ _ => true | _ => false end.

(** A request on the tree does not become another one. *)
Definition is_tree (th : thread) : bool := match th with TTree _ _ | TPanicked => true | _ => false end.

Lemma then_tree {A} (m : outcome Errno (Fusey W) A) ret fail F : (∀ a, is_tree (ret a)) → (∀ e, is_tree (fail e)) →
  is_tree (then_ m ret fail F).2.
Proof. destruct m; simpl; auto. Qed.

Lemma tree_is_tree r p F F' th' : tree_step r p F = Some (F', th') → is_tree th' = true.
Proof.
  assert (∀ A (m : outcome Errno (Fusey W) A) ret fail, (∀ a, is_tree (ret a)) → (∀ e, is_tree (fail e)) →
    Some (then_ m ret fail F) = Some (F', th') → is_tree th' = true) as Ht.
  { intros A m ret fail Hr Hf [= E]. apply Is_true_true. pose proof (then_tree m ret fail F Hr Hf) as H. by rw E in H. }
  destruct p as [|c|c|c| |c| |es|[|e es] l|a]; cbn [tree_step].
  - destruct r; cbn [tree_start birth mbind option_bind]; try done; try (by apply Ht);
      try (destruct (caller_ids _); by apply Ht); by repeat case_match; intros [= _ <-].
  - destruct r; try done; by repeat case_match; intros [= _ <-].
  - destruct (new_name r) as [[[q nm] now]|]; [|done]. by apply Ht.
  - destruct r; try done. by apply Ht.
  - destruct r; try done. by apply Ht.
  - destruct r; try by (intros [= _ <-]). by case_match; case_match; intros [= _ <-].
  - destruct r; try done. by case_match; intros [= _ <-].
  - destruct r; try done. by intros [= _ <-].
  - destruct r; try done. by intros [= _ <-].
  - destruct r; try done. by case_match; case_match; intros [= _ <-].
  - by destruct r.
Qed.

Lemma advance_kind th F F' th' : advance th F = Some (F', th') → is_read th = false → is_read th' = false.
Proof.
  destruct th as [|ino data off now []|[]|r p|]; simpl; try done; intros Ha _; revert Ha; [..|by intros H%tree_is_tree; destruct th'].
  - by destruct (GetInode _ _) as [? []]; intros [= _ <-].
  - by intros [= _ <-].
  - by destruct (on_chunks _ _ _); intros [= _ <-].
  - by destruct (on_idx _ _ _); intros [= _ <-].
  - by destruct (on_chunks _ _ _); intros [= _ <-].
  - by destruct (save_index _ _); intros [= _ <-].
Qed.

Lemma hist_reachable s0 s : begins s0 → rtc step s0 s →
  ∀ t th, threads s !! t = Some th → read_hist s0 s t th.
Proof.
  intros Hb Hs. pose proof (begins_inv s0 Hb) as Hi.
  refine (rtc_ind_r (λ s, ∀ t th, threads s !! t = Some th → read_hist s0 s t th) s0 _ _ s Hs).
  - intros t th Ht. destruct Hb as [_ Hall]. eapply Forall_lookup in Hall as [Hst _]; [|done].
    by destruct th as [? ? ? ? []|? ? ? ? []|[]|? []|].
  - intros s1 s2 H01 H12 IH t th Ht. destruct H12 as [t' th0 F' th' s1 Hq Ht' Ha|r F' s1 Hm Hok Hr].
    + destruct (thread_moved Ht) as [[-> ->]|[Hne Ht1]]; [|apply (hist_later s0 s1); [by eapply step_run|by apply IH]].
      destruct (is_read th0) eqn:Er.
      * destruct th0 as [ino n off now p| | | |]; [|done..].
        apply (hist_read s0 s1 t' ino n off now p); try done. by apply IH.
      * pose proof (advance_kind _ _ _ _ Ha Er). by destruct th' as [| | | |].
    + apply (hist_later s0 s1); [by eapply step_meta|by apply IH].
Qed.

(** C16: Requests that interleave call by call, on open files and on the tree, keep
    the invariant of the file system and never panic; a read that returned saw the file of one moment of its call: its bytes are the
    content of the file when it fetched the extents (an overwrite that commits
    between two chunk reads of it is not seen in part), over the range that the
    size allowed when it looked at the inode. *)
Theorem reads_see_one_version s0 s : begins s0 → rtc step s0 s →
  fs_inv obj (fs s) ∧ (∀ t, threads s !! t ≠ Some TPanicked) ∧
  ∀ t ino n off now buf, threads s !! t = Some (TRead ino n off now (RDone (Ok buf))) →
    read_result s0 s t ino n off now buf.
Proof.
  intros Hb Hs. destruct (steps_inv s0 s (begins_inv s0 Hb) Hs) as [HI _]. split_and!.
  - apply HI.
  - intros t Ht. exact (inv_call _ HI t _ Ht).
  - intros t ino n off now buf Ht. exact (hist_reachable s0 s Hb Hs t _ Ht).
Qed.

(** ** When a write takes effect *)

Definition wrote (th : thread) : bool :=
  match th with TWrite _ _ _ _ (WDone (Ok _)) => true | _ => false end.

Lemma silent_content F F' j o : fs_inv obj F → extends obj (chunks F) (chunks F') → silent F F' →
  file_content obj F' j o = file_content obj F j o.
Proof. intros H Hx [E _]. apply file_content_extends; [done|by rw E|done]. Qed.

Lemma advance_effect s t th F' th' : inv s → counters th (fs s) = true →
  threads s !! t = Some th → is_tree th = false → advance th (fs s) = Some (F', th') →
  wrote th' = false ∧ silent (fs s) F' ∨
  ∃ ino data off now ext exts, th = TWrite ino data off now (WCommit ext) ∧
    th' = TWrite ino data off now (WDone (Ok (u32 (len data)))) ∧ written obj ino data off (fs s) exts ext F'.
Proof.
  intros [H Hc Ho] Hq%counters_seq Ht Hk Ha. pose proof (Hc t th Ht) as Hct. pose proof (Ho t th Ht) as Hot.
  destruct th as [ino n off now p|ino data off now p|p| |]; simpl in Ha; [| | |done..].
  - left. split; [|by eapply read_stepped].
    destruct p as [|e|e [|x exts] buf|]; simpl in Ha; revert Ha; [..|done].
    + destruct (GetInode _ _) as [? []]; [|by intros [= _ <-]]. by case_match; intros [= _ <-].
    + destruct (GetExtents _ _); [|by intros [= _ <-]]. by case_match; intros [= _ <-].
    + by intros [= _ <-].
    + by destruct (read_one _ _ _ _ _); intros [= _ <-].
  - destruct (write_stepped ino data off now p (fs s) F' th' H Hct Hot Hq Ha) as [_ He]. revert Ha He.
    destruct p as [|size| |ext|]; simpl; [..|done].
    + destruct (GetInode _ _) as [? []]; intros [= _ <-] He; left; (split; [|done]); [by destruct (_ >? _)|done].
    + intros [= _ <-] He. left. split; [by destruct (_ >? _)|done].
    + destruct (on_chunks _ _ _); intros [= _ <-] He; by left.
    + destruct (on_idx _ _ _) as [u F1|e F1|]; intros [= <- <-] He; [|by left..].
      right. destruct He as [_ [exts He]]. by exists ino, data, off, now, ext, exts.
  - left. split; [|by eapply fsync_stepped]. pose proof Ha as Ha'. revert Ha'.
    destruct p; simpl; [| |done].
    + by destruct (on_chunks _ _ _); intros [= _ <-].
    + by destruct (save_index _ _); intros [= _ <-].
Qed.

(** C17: Concurrent writes are atomic: in any run, the only call of a file
    request that changes what a file holds or how long it is, is the commit of
    a write, and a write that answers success is at that call. The commit
    sets the size and, provided the range does not lie strictly inside an extent
    that is not the file's last, replaces exactly the written range in the file
    as it is then, whatever other writes have committed since the request began;
    every other file keeps its bytes and its size. *)
Theorem writes_commit_atomically s0 s t th F' th' : begins s0 → rtc step s0 s →
  counters th (fs s) = true → threads s !! t = Some th → is_tree th = false → advance th (fs s) = Some (F', th') →
  (wrote th' = false ∧ (∀ j o, file_content obj F' j o = file_content obj (fs s) j o) ∧
   ∀ j, Inode.Size <$> inodes (idx F') !! j = Inode.Size <$> inodes (idx (fs s)) !! j) ∨
  ∃ ino data off now ext exts, th = TWrite ino data off now (WCommit ext) ∧
    th' = TWrite ino data off now (WDone (Ok (u32 (len data)))) ∧
    extents (idx (fs s)) !! ino = Some exts ∧
    (no_inner_split off (off + len data) exts = true → ∀ o, file_content obj F' ino o =
       if decide (off <= o < off + len data) then data !! Z.to_nat (o - off) else file_content obj (fs s) ino o) ∧
    (∀ nd, inodes (idx (fs s)) !! ino = Some nd →
       Inode.Size <$> inodes (idx F') !! ino = Some (Z.max (Inode.Size nd) (off + len data))) ∧
    ∀ j, j ≠ ino → inodes (idx F') !! j = inodes (idx (fs s)) !! j ∧
      ∀ o, file_content obj F' j o = file_content obj (fs s) j o.
Proof.
  intros Hb Hs Hq Ht Hk Ha. destruct (steps_inv s0 s (begins_inv s0 Hb) Hs) as [HI _].
  pose proof (inv_fs _ HI) as H. destruct (thread_stepped s t th F' th' HI Hq Ht Ha) as [_ Hx _ _].
  destruct (advance_effect s t th F' th' HI Hq Ht Hk Ha) as [[Hw Hsil]|(ino & data & off & now & ext & exts & -> & -> & Hw)].
  - left. split_and!; [done| |apply Hsil]. intros j o. by apply silent_content.
  - right. exists ino, data, off, now, ext, exts. split_and!; [done|done|by eapply wr_old|..].
    + intros Hn o. by eapply written_content.
    + intros nd En. destruct (wr_size _ _ _ _ _ _ _ _ Hw nd En) as (_ & n' & -> & _ & Es). by rw /= Es.
    + intros j Hj. destruct (wr_others _ _ _ _ _ _ _ _ Hw j Hj) as [Ee En]. split; [done|].
      intros o. by apply file_content_extends.
Qed.

(** ** A request that is alone *)

(** The thread that holds the answer of a handler. *)
Definition answers {A} (at_ : res Errno A → thread) (m : outcome Errno (Fusey W) A) (x : Fusey W * thread) : Prop :=
  match m with
  | Ret a F => x = (F, at_ (Ok a))
  | Fail e F => x = (F, at_ (Err e))
  | Crash => x.2 = TPanicked
  end.

Lemma drive_loop ino n off now end_ exts buf F :
  ∃ k, answers (λ r, TRead ino n off now (RDone r))
    (let! buf, F := read_loop off end_ exts buf F in Ret buf (set_idx (TouchAtime ino now (idx F)) F))
    (drive k (TRead ino n off now (RLoop end_ exts buf)) F).
Proof.
  revert buf F. induction exts as [|e exts IH]; intros buf F; simpl.
  - by exists 1%nat.
  - destruct (read_one off end_ e buf F) as [buf' F'|er F'|] eqn:E; simpl.
    + destruct (IH buf' F') as [k Hk]. exists (Datatypes.S k). simpl. by rw E.
    + exists 1%nat. by rw /= E.
    + exists 1%nat. by rw /= E.
Qed.

(** The answer of a handler, reached by the thread of its request. *)
Definition served_alone (r : request) F : Prop :=
  ∃ k, match handle r F with
       | Some (a, F') => drive k (TTree r PStart) F = (F', TTree r (PDone a))
       | None => (drive k (TTree r PStart) F).2 = TPanicked
       end.

Lemma drive_S n th F :
  drive (Datatypes.S n) th F = match advance th F with Some (F, th) => drive n th F | None => (F, th) end.
Proof. done. Qed.

Lemma drive_entries ino es l F :
  drive (Datatypes.S (length es)) (TTree (RReaddir ino) (PEntries es l)) F =
  (F, TTree (RReaddir ino) (PDone (ADir (l ++ omap (λ e,
     match GetInode (idx F) (DirEntry.ChildIno e) with
     | (_, false) => None
     | (c, true) => Some (Inode.FileType c, DirEntry.Name e, DirEntry.ChildIno e)
     end) es)))).
Proof.
  revert l. induction es as [|e es IH]; intros l; [by rw /= app_nil_r|].
  rw drive_S. cbn [advance tree_step length]. destruct (GetInode (idx F) (DirEntry.ChildIno e)) as [n []] eqn:E.
  - rw IH /= E. by rw - (assoc_L (++)).
  - by rw IH /= E.
Qed.

Lemma made_alone r ft perm caller p nm now (finish : Z → Fusey W → option (answer * Fusey W)) F k :
  birth r = Some (ft, perm, caller) → new_name r = Some (p, nm, now) →
  tree_start r F = (let (uid, gid) := caller_ids caller in
    Some (then_ (on_idx (CreateInode ft perm uid gid 0 now) (λ _, EIO) F) (λ c, TTree r (PAdd c)) (λ e, TTree r (PDone (AErr e))) F)) →
  handle r F = match create_entry ft perm caller p nm now F with
               | Ret c F => finish c F
               | Fail e F => Some (AErr e, F)
               | Crash => None
               end →
  (∀ c F1, match finish c F1 with
           | Some (a, F') => drive k (TTree r (match r with RSymlink _ _ _ _ _ => PTarget c | _ => PAttr c end)) F1 = (F', TTree r (PDone a))
           | None => (drive k (TTree r (match r with RSymlink _ _ _ _ _ => PTarget c | _ => PAttr c end)) F1).2 = TPanicked
           end) →
  served_alone r F.
Proof.
  intros Eb En Es Eh Hf. rw /served_alone Eh /create_entry. revert Es. destruct (caller_ids caller) as [uid gid]. intros Es.
  destruct (on_idx (CreateInode ft perm uid gid 0 now) (λ _, EIO) F) as [c F1|e F1|] eqn:E1.
  - cbn [obind]. destruct (on_idx (AddDirEntry p nm c now) (λ _, EEXIST) F1) as [u F2|e F2|] eqn:E2; cbn [obind].
    + exists (Datatypes.S (Datatypes.S k)). cbn [drive advance tree_step]. rw Es. cbn [then_ drive advance tree_step].
      rw En. cbn [mbind option_bind]. rw E2. cbn [then_]. apply Hf.
    + exists 2%nat. cbn [drive advance tree_step]. rw Es. cbn [then_ drive advance tree_step].
      rw En. cbn [mbind option_bind]. by rw E2.
    + exists 2%nat. cbn [drive advance tree_step]. rw Es. cbn [then_ drive advance tree_step].
      rw En. cbn [mbind option_bind]. by rw E2.
  - exists 1%nat. cbn [drive advance tree_step]. by rw Es.
  - exists 1%nat. cbn [drive advance tree_step]. by rw Es.
Qed.

Lemma create_answer {A} (f : A → answer) (m : outcome Errno (Fusey W) Z) (k : Z → Fusey W → outcome Errno (Fusey W) A) :
  reply f (obind m k) = match m with Ret c F => reply f (k c F) | Fail e F => Some (AErr e, F) | Crash => None end.
Proof. by destruct m. Qed.

Lemma tree_alone r F : many_calls r = true → served_alone r F.
Proof.
  destruct r; try done; intros _.
  - rw /served_alone /= /Setattr. change (on_idx _ _ F) with (on_idx (SetAttr ino (w_mode (wants B inp)) (w_uid (wants B inp))
      (w_gid (wants B inp)) (w_size (wants B inp)) (w_atime (wants B inp)) (w_mtime (wants B inp)) now) (λ _, EIO) F).
    exists 2%nat. cbn [drive advance tree_step tree_start]. destruct (on_idx _ _ F) as [u F1|e F1|]; [|done..].
    cbn [then_ drive advance tree_step obind]. by destruct (GetInode (idx F1) ino) as [n []].
  - exists 2%nat. rw /= /Lookup. destruct (Index_Lookup _ _ _) as [c []]; [|done]. rw /=. by destruct (GetInode _ _) as [n []].
  - rw /served_alone /= /Readdir. destruct (GetInode (idx F) ino) as [n []] eqn:E; [|by exists 1%nat; rw /= E].
    destruct (decide (Inode.FileType n ≠ Directory)) as [Hd|Hd]; [by exists 1%nat; rw /= E decide_True|].
    destruct (Index_Readdir (idx F) ino) as [es|] eqn:Er; [|by exists 2%nat; rw /= E decide_False //= Er].
    exists (3 + Datatypes.S (length es))%nat. cbn [reply].
    cbn [Nat.add drive advance tree_step tree_start]. rw E decide_False //. cbn [drive advance tree_step]. rw Er.
    cbn [drive advance tree_step]. exact (drive_entries ino es _ F).
  - eapply (made_alone _ _ _ _ _ _ _ _ _ 1); [done|done|done|by rw /= create_answer|done].
  - eapply (made_alone _ _ _ _ _ _ _ _ _ 1); [done|done|done|by rw /= create_answer|done].
  - eapply (made_alone _ _ _ _ _ _ _ _ _ 2); [done|done|done|by rw /= create_answer|].
    intros c F1. cbn [drive advance tree_step]. by destruct (on_idx (SetSymlink c target now) (λ _, EIO) F1).
  - rw /served_alone /= /Link. destruct target as [t|]; [|by exists 1%nat].
    destruct (GetInode (idx F) t) as [n []] eqn:E; [|by exists 1%nat; rw /= E].
    destruct (decide (Inode.FileType n = Directory)) as [Hd|Hd]; [by exists 1%nat; rw /= E decide_True|].
    exists 3%nat. cbn [drive advance tree_step tree_start]. rw E decide_False //. cbn [drive advance tree_step new_name mbind option_bind].
    by destruct (on_idx (AddDirEntry ino name t now) (λ _, EEXIST) F).
  - rw /served_alone /= /Rmdir. destruct (Index_Lookup (idx F) ino name) as [c []] eqn:El; [|by exists 1%nat; rw /= El].
    destruct (GetInode (idx F) c) as [n []] eqn:E; [|by exists 2%nat; rw /= El /= E].
    destruct (decide (Inode.FileType n ≠ Directory)) as [Hd|Hd]; [by exists 2%nat; rw /= El /= E decide_True|].
    exists 3%nat. cbn [drive advance tree_step tree_start]. rw El. cbn [drive advance tree_step]. rw E decide_False //.
    cbn [drive advance tree_step]. by destruct (on_idx (RemoveDirEntry ino name now) _ F).
Qed.

(** C31: A request that no other request interleaves computes its handler: run by
    itself, step by step, it reaches the answer and the file system of
    [FileHandle_Read], [FileHandle_Write] and [Fsync] and of every handler of a
    node that makes more than one call, on every branch, a panic included. *)
Theorem requests_alone F :
  (∀ ino n off now, ∃ k, answers (λ r, TRead ino n off now (RDone r)) (FileHandle_Read ino n off now F)
     (drive k (TRead ino n off now RInode) F)) ∧
  (∀ ino data off now, ∃ k, answers (λ r, TWrite ino data off now (WDone r)) (FileHandle_Write ino data off now F)
     (drive k (TWrite ino data off now WInode) F)) ∧
  (∃ k, answers (λ r, TFsync (SDone r)) (Fsync F) (drive k (TFsync SFlush) F)) ∧
  (∀ r, many_calls r = true → ∃ k,
     match handle r F with
     | Some (a, F') => drive k (TTree r PStart) F = (F', TTree r (PDone a))
     | None => (drive k (TTree r PStart) F).2 = TPanicked
     end).
Proof.
  split_and!.
  - intros ino n off now. rw /FileHandle_Read. destruct (GetInode (idx F) ino) as [nd []] eqn:En; last by exists 1%nat; rw /= En.
    destruct (off >=? Inode.Size nd) eqn:Eo; [by exists 1%nat; rw /= En Eo|].
    destruct (GetExtents (idx F) ino) as [exts|] eqn:Ex; [|by exists 2%nat; rw /= En Eo /= Ex].
    set (end_ := if off +! n >? Inode.Size nd then Inode.Size nd else off +! n).
    destruct (end_ -! off <? 0) eqn:El; [by exists 2%nat; rw /= En Eo /= Ex -/end_ El|].
    destruct (drive_loop ino n off now end_ exts (replicate (Z.to_nat (end_ -! off)) zero_byte) F) as [k Hk].
    exists (Datatypes.S (Datatypes.S k)). by rw /= En Eo /= Ex -/end_ El.
  - intros ino data off now. rw /FileHandle_Write. destruct (GetInode (idx F) ino) as [nd []] eqn:En; last by exists 1%nat; rw /= En.
    assert (∃ k, answers (λ r, TWrite ino data off now (WDone r))
      (let! ext, F := on_chunks (Append data off) EIO F in
       let! _, F := on_idx (WriteExtent ino ext now) (λ _, EIO) F in Ret (u32 (len data)) F)
      (drive k (TWrite ino data off now WAppend) F)) as [k Hk].
    { exists 2%nat. simpl. destruct (on_chunks (Append data off) EIO F) as [ext F1|e F1|] => //=.
      by destruct (on_idx (WriteExtent ino ext now) (λ _, EIO) F1). }
    destruct (off +! len data >? Inode.Size nd) eqn:Eg; simpl.
    + destruct (_ >? maxFSSize F) eqn:Em; [by exists 2%nat; rw /= En Eg /= Em|].
      exists (Datatypes.S (Datatypes.S k)). by rw /= En Eg /= Em.
    + exists (Datatypes.S k). by rw /= En Eg.
  - exists 2%nat. rw /Fsync /= /on_chunks. destruct (FlushActive (chunks F)) as [[] s1|e s1|] => //=.
    destruct (decide (cacheDir F ≠ ""%string)) => //=. by destruct (save_index _ _) as [[] ?|?|].
  - intros r. apply tree_alone.
Qed.

(** Runs under a schedule. *)
Fixpoint run (l : list nat) s : option (csys W) :=
  match l with
  | [] => Some s
  | t :: l =>
      match threads s !! t with
      | Some th =>
          if counters th (fs s) then
            match advance th (fs s) with
            | Some (F', th') => run l (mkC F' (<[t := th']> (threads s)))
            | None => None
            end
          else None
      | None => None
      end
  end.

Lemma schedule_steps l s s' : run l s = Some s' → rtc step s s'.
Proof.
  revert s. induction l as [|t l IH]; intros s; simpl; [by intros [= ->]|].
  destruct (threads s !! t) as [th|] eqn:Ht; [|done]. destruct (counters th (fs s)) eqn:Hq; [|done].
  destruct (advance th (fs s)) as [[F' th']|] eqn:Ha; [|done]. intros Hr.
  apply rtc_l with (mkC F' (<[t := th']> (threads s))); [by eapply step_run|by apply IH].
Qed.
End conc.
