(* ===== verification/FuseConcDemo.v ===== *)
(** Concurrent requests on the concrete file system of FuseWitness.v: a read
    that an overwrite overtakes, and two writes that pass the check of the
    capacity together. *)
From S2P Require Import Prelude Types Extents Index IndexInv OS Decimal Persist Store Cache ChunkStore.
From S2P Require Import ChunkProps Fuse FuseData FuseInv FuseProps FuseWitness Durable FuseConc FuseConcProps.
#[local] Open Scope Z_scope.

#[local] Existing Instance demo_store.
#[local] Existing Instance demo_laws.
#[local] Existing Instance count_codec.

(** Thread 0 reads the file, which holds [ab]; thread 1 overwrites it with
    [cde]; thread 2 syncs. *)
Definition overtaken : csys Disk :=
  mkC demo_written [TRead 2 10 0 5 RInode; TWrite 2 cde 0 6 WInode; TFsync SFlush].

Definition reached (s : csys Disk) (l : list nat) : csys Disk := default s (run l s).

Lemma reached_steps s l : bool_decide (is_Some (run l s)) = true → rtc step s (reached s l).
Proof. rw /reached. destruct (run l s) as [s'|] eqn:E => // _. by apply (schedule_steps l). Qed.

Lemma overtaken_begins : begins demo_obj overtaken.
Proof.
  split; [exact demo_written_inv|]. repeat apply Forall_cons_2; [..|by apply Forall_nil];
    (split; [reflexivity|]); [by split_and!; vm_compute..|done].
Qed.

(** The read fetches the extents, the write commits, then the read copies: it
    has the bytes of before the overwrite. *)
Definition overtaken_schedule : list nat := [0; 0; 1; 1; 2; 1; 1; 0; 2; 0]%nat.

Lemma reads_see_one_version_witness :
  threads (reached overtaken overtaken_schedule) !! 0%nat = Some (TRead 2 10 0 5 (RDone (Ok ab))) ∧
  read_result demo_obj overtaken (reached overtaken overtaken_schedule) 0 2 10 0 5 ab.
Proof.
  assert (threads (reached overtaken overtaken_schedule) !! 0%nat = Some (TRead 2 10 0 5 (RDone (Ok ab)))) as Ht
    by (vm_compute; reflexivity).
  split; [exact Ht|].
  assert (rtc step overtaken (reached overtaken overtaken_schedule)) as Hr by (apply reached_steps; vm_compute; reflexivity).
  destruct (reads_see_one_version demo_obj (L:=demo_laws) _ _ overtaken_begins Hr) as (_ & _ & H).
  exact (H _ _ _ _ _ _ Ht).
Defined.

(** The commit of that write. *)
Definition before_commit : csys Disk := reached overtaken [0; 0; 1; 1; 2; 1]%nat.

Definition commit_ext : Extent.t :=
  match threads before_commit !! 1%nat with
  | Some (TWrite _ _ _ _ (WCommit ext)) => ext
  | _ => Extent.mk "" 0 0 0
  end.

Definition committed : Fusey Disk * thread :=
  default (fs before_commit, TPanicked) (advance (TWrite 2 cde 0 6 (WCommit commit_ext)) (fs before_commit)).

Lemma commit_args {ino data off now ext ino' data' off' now' ext'} :
  TWrite ino data off now (WCommit ext) = TWrite ino' data' off' now' (WCommit ext') →
  ino = ino' ∧ data = data' ∧ off = off'.
Proof. by intros [= -> -> -> _ _]. Qed.

(** One byte inside a written range, and one behind it. *)
Lemma written_points (f g : Z → option byte) off (data : bytes) o1 o2 :
  (∀ o, f o = if decide (off <= o < off + len data) then data !! Z.to_nat (o - off) else g o) →
  off <= o1 < off + len data → off + len data <= o2 → f o1 = data !! Z.to_nat (o1 - off) ∧ f o2 = g o2.
Proof. intros H H1 H2. rw !H decide_True // decide_False //. lia. Qed.

Lemma writes_commit_atomically_witness :
  file_content demo_obj committed.1 2 1 = cde !! Z.to_nat (1 - 0) ∧
  file_content demo_obj committed.1 2 7 = file_content demo_obj (fs before_commit) 2 7.
Proof.
  assert (rtc step overtaken before_commit) as Hr by (apply reached_steps; vm_compute; reflexivity).
  assert (threads before_commit !! 1%nat = Some (TWrite 2 cde 0 6 (WCommit commit_ext))) as Ht by (vm_compute; reflexivity).
  assert (advance (TWrite 2 cde 0 6 (WCommit commit_ext)) (fs before_commit) = Some (committed.1, committed.2)) as Ha
    by (vm_compute; reflexivity).
  assert (counters (TWrite 2 cde 0 6 (WCommit commit_ext)) (fs before_commit) = true) as Hq by (vm_compute; reflexivity).
  destruct (writes_commit_atomically demo_obj (L:=demo_laws) overtaken before_commit 1 _ _ _ overtaken_begins Hr Hq Ht eq_refl Ha)
    as [[Hw _]|(ino & data & off & now & ext & exts & Hth & _ & He & Hc & _)].
  - assert (wrote committed.2 = true) as Hw' by (vm_compute; reflexivity). rw Hw' in Hw. discriminate Hw.
  - destruct (commit_args Hth) as (<- & <- & <-).
    assert (extents (idx (fs before_commit)) !! 2 = Some demo_exts) as He' by (vm_compute; reflexivity).
    rw He' in He. apply (inj Some) in He as <-.
    assert (no_inner_split 0 (0 + len cde) demo_exts = true) as Hn by (vm_compute; reflexivity).
    clear -Hc Hn. revert Hc. generalize committed.1 (fs before_commit). intros F1 F0 Hc.
    apply (written_points (file_content demo_obj F1 2) (file_content demo_obj F0 2) 0 cde 1 7 (Hc Hn)); [by vm_compute|].
    by vm_compute.
Defined.

(** ** The capacity *)

Definition two_files : Fusey Disk := after (Create RootIno "g" 0x1A4 None 4 demo_written).

(** Two writes, each of which grows a file of its own by less than what is left
    of the 100 bytes. *)
Definition racing : csys Disk := mkC two_files [TWrite 2 ab 58 5 WInode; TWrite 3 ab 58 6 WInode].

Lemma after_inv {A} (m : outcome Errno (Fusey Disk) A) : fs_safe demo_obj m → fs_inv demo_obj (after m).
Proof. rw /after /fs_safe. by destruct (out_state m). Qed.

Lemma two_files_inv : fs_inv demo_obj two_files.
Proof. apply after_inv, (Create_safe demo_obj); [exact demo_written_inv|]. by vm_compute. Qed.

Lemma racing_begins : begins demo_obj racing.
Proof.
  split; [exact two_files_inv|]. repeat apply Forall_cons_2; [..|by apply Forall_nil];
    (split; [reflexivity|]); by split_and!; vm_compute.
Qed.

(** The capacity does not bound concurrent writes: the check of a write and
    its commit are separate calls, and two writes of which either, after the
    other, is refused with ENOSPC both pass the check and both succeed; the
    files then use more than [maxFSSize]. *)
Theorem capacity_race :
  begins demo_obj racing ∧
  (∃ s, rtc step racing s ∧
     threads s = [TWrite 2 ab 58 5 (WDone (Ok 2)); TWrite 3 ab 58 6 (WDone (Ok 2))] ∧
     maxFSSize (fs s) < UsedBytes (idx (fs s))) ∧
  threads (reached racing [0; 0; 0; 0; 1; 1]%nat) =
    [TWrite 2 ab 58 5 (WDone (Ok 2)); TWrite 3 ab 58 6 (WDone (Err ENOSPC))].
Proof.
  split; [exact racing_begins|]. split; [|by vm_compute].
  exists (reached racing [0; 0; 1; 1; 0; 1; 0; 1]%nat). split_and!.
  - apply reached_steps. by vm_compute.
  - by vm_compute.
  - by vm_compute.
Qed.
