(* ===== verification/Session.v ===== *)
(** A daemon as its users see it: the answers over its life are a run of the
    specification, and the next daemon continues with the tree that the last
    one persisted. This composes the refinement (SpecRefine.v) with durability
    (Life.v). *)
From S2P Require Import Prelude Types Extents Index IndexInv IndexProps OS Decimal Persist Store Cache ChunkStore.
From S2P Require Import ChunkProps Fuse FuseData FuseInv FuseProps Compaction CompactProps Config Main MainProps Durable Life CompactRun.
From S2P Require Import FsSpec SpecAbs SpecIndex SpecNames SpecRefine.
#[local] Open Scope Z_scope.

(** ** Trees up to access times *)

Definition forget_atime (t : tree) : tree := mkTree (accessed 0 <$> nodes t) (names t).
Definition same_tree (t t' : tree) : Prop := forget_atime t = forget_atime t'.

#[global] Instance same_tree_equiv : Equivalence same_tree.
Proof. split; rw /same_tree; [done|by intros ???|by intros ??? -> ->]. Qed.

(** A tree with nothing but an empty root directory. *)
Definition blank (t : tree) : Prop := ∃ nd, n_kind nd = Dir ∧ n_xattrs nd = ∅ ∧ t = mkTree {[RootIno := nd]} ∅.

(** The file a tree holds at a place. *)
Definition tree_data (t : tree) (ino : Z) : option bytes :=
  match n_kind <$> nodes t !! ino with Some (File data) => Some data | _ => None end.

#[global] Instance tree_data_proper : Proper (same_tree ==> (=) ==> (=)) tree_data.
Proof.
  intros t t' Ht ino _ <-. apply (f_equal (λ t, n_kind <$> nodes t !! ino)) in Ht. simpl in Ht.
  rw !lookup_fmap - !option_fmap_compose in Ht. rw /tree_data.
  by destruct (nodes t !! ino), (nodes t' !! ino); simplify_eq/=; rw ?Ht.
Qed.

#[global] Instance names_proper : Proper (same_tree ==> (=)) names.
Proof. intros t t' Ht. by injection Ht. Qed.

Lemma sizes_same_atime i j : same_but_atime i j → sizes_ok i → sizes_ok j.
Proof.
  intros H Hs ino n En. pose proof (f_equal (lookup ino) (sa_inodes _ _ H)) as E. rw !lookup_fmap En in E.
  destruct (inodes i !! ino) as [m|] eqn:Em; [|done]. pose proof (Hs ino m Em) as Hm. simpl in E. injection E as _ Et _ _ _ _ Es _ _ _ Eb _.
  by rw /sized_right - (sa_symlinks _ _ H) - Et - Es - Eb.
Qed.

#[global] Instance blank_proper : Proper (same_tree ==> iff) blank.
Proof.
  assert (∀ t t', same_tree t t' → blank t → blank t') as H; [|intros t t' Ht; split; apply H; [done|by symmetry]].
  intros t [N' E'] Ht (nd & Hk & Hx & ->). rw /same_tree /forget_atime /= in Ht. injection Ht as HN HE.
  rw map_fmap_singleton in HN. symmetry in HN. apply map_fmap_singleton_inv in HN as (nd' & Ea & ->).
  exists nd'. injection Ea as E1 _ _ _ _ _ E2. split_and!; [congruence|congruence|]. by rw - HE.
Qed.

Section session.
Context {W : Type} {S : Store W} {O : ObjectStore W} {C : CborCodec}.
Context (obj : W → string → option bytes) (raw_ : W → option bytes).
Context {L : StoreLaws S obj} {LO : ObjectLaws O obj raw_} {LC : CborLaws C}.
Variable cfg : Config.
Implicit Types k : kstate W unit.

(** The tree that a daemon serves. *)
Definition serves_tree k : tree := abs obj (fusey_of cfg k).

(** Two daemons with the same index, access times apart, and the same contents
    serve the same tree. *)
Lemma same_index_tree k k2 : k_inv obj cfg k → same_but_atime (k_idx k) (k_idx k2) →
  (∀ ino o, file_content obj (fusey_of cfg k2) ino o = file_content obj (fusey_of cfg k) ino o) →
  same_tree (serves_tree k) (serves_tree k2).
Proof.
  intros Hi Hs Hc. rw /same_tree /forget_atime /serves_tree /abs /=.
  assert (entries (k_idx k2) = entries (k_idx k)) as Ee by (rw /entries (sa_dirs _ _ Hs) //).
  rw Ee. f_equal. apply map_eq => ino. rw !lookup_fmap.
  pose proof (tree_lookup obj (k_cs k) (k_idx k) ino) as E1. pose proof (tree_lookup obj (k_cs k2) (k_idx k2) ino) as E2.
  simpl in E1, E2. rw Ee in E2. rw E1 E2. destruct (linked _ ino); [|done].
  pose proof (f_equal (lookup ino) (sa_inodes _ _ Hs)) as E. rw !lookup_fmap in E.
  destruct (inodes (k_idx k) !! ino) as [n|] eqn:En, (inodes (k_idx k2) !! ino) as [m|] eqn:Em; [|done..].
  simpl in E |- *. injection E as _ Et Emo _ Eu Eg Es Emt Ect _ _ _. f_equal.
  rw /accessed /node_of /= Emo Eu Eg Emt Ect /GetXattrs (sa_xattrs _ _ Hs). f_equal.
  rw /kind_of - Et - Es (sa_symlinks _ _ Hs). case_decide as Ht; [|done]. f_equal.
  destruct (fi_data _ _ Hi ino _ _ (finfo_regular _ _ _ En Ht)) as (exts & Ex & _). simpl in Ex.
  rw - (sa_extents _ _ Hs) Ex /data_of /=. apply list_fmap_ext => j o _. f_equal.
  specialize (Hc ino o). by rw /file_content /= - (sa_extents _ _ Hs) Ex in Hc.
Qed.

Lemma same_but_atime_blank k t : same_but_atime (New (BlockSize cfg) t) (k_idx k) → blank (serves_tree k).
Proof.
  intros Hs. rw /serves_tree /abs /=.
  assert (∃ n, inodes (k_idx k) = {[RootIno := n]} ∧ Inode.FileType n = Directory) as (n & En & Ht).
  { pose proof (sa_inodes _ _ Hs) as E. simpl in E. rw map_fmap_singleton in E. symmetry in E.
    apply map_fmap_singleton_inv in E as (n & E & ->). exists n. split; [done|]. by injection E. }
  exists (node_of obj (k_cs k) (k_idx k) RootIno n). split_and!.
  - by rw /= /kind_of Ht.
  - by rw /= /GetXattrs - (sa_xattrs _ _ Hs).
  - assert (entries (k_idx k) = ∅) as Ee.
    { rw /entries - (sa_dirs _ _ Hs). apply map_empty => -[p nm]. rw flat_lookup lookup_singleton. by case_decide. }
    pose proof (tree_lookup obj (k_cs k) (k_idx k)) as El. rw /tree_of /prune /= in El |- *. rw Ee in El |- *. f_equal.
    apply map_eq => ino. rw El En !lookup_singleton. case_decide as E; [by subst ino|]. by destruct (linked _ _).
Qed.

(** ** Sessions *)

(** What a serving daemon does, with the answers it gives: requests, and the
    goroutines that persist the index, as in [work]. *)
Inductive session (st0 : list ppc * kstate W unit) : list (request * answer) → list ppc * kstate W unit → Prop :=
  | session_nil : session st0 [] st0
  | session_request l ts k r a F' :
      session st0 l (ts, k) → req_ok r (fusey_of cfg k) → kernel_ok r (fusey_of cfg k) →
      avoids_split r (fusey_of cfg k) → handle r (fusey_of cfg k) = Some (a, F') →
      nextSeq (cs (chunks F')) <= 10 ^ 8 → Forall (fun pc => calm cfg pc k (mkK (idx F') (chunks F') tt)) ts →
      session st0 (l ++ [(r, a)]) (ts, mkK (idx F') (chunks F') tt)
  | session_persist l st st' : session st0 l st → persisting cfg st st' → session st0 l st'.

Lemma session_work st0 l st : session st0 l st → rtc (work cfg) st0 st.
Proof.
  induction 1 as [|l ts k r a F' _ IH Hok _ _ Hh Hn Hc|l st st' _ IH Hp]; [done|..]; (eapply rtc_r; [exact IH|]).
  - apply (work_request cfg ts k r F'); [done| |done|done]. by rw - handle_serve Hh.
  - by apply work_persist.
Qed.

(** Persisting does not change the tree. *)
Lemma same_index_sizes i j : same_index i j → sizes_ok i → sizes_ok j.
Proof. by intros [->|[->|[->| ->]]]. Qed.

Lemma same_index_tree_of s i j : same_index i j → tree_of obj s j = tree_of obj s i.
Proof. by intros [->|[->|[->| ->]]]. Qed.

Lemma unseen_tree k k' : k_inv obj cfg k → unseen obj raw_ cfg k k' →
  serves_tree k' = serves_tree k ∧ (sizes_ok (k_idx k) → sizes_ok (k_idx k')).
Proof.
  intros Hi [Hs Hx _ _ _]. split; [|by apply same_index_sizes]. rw /serves_tree /abs /= (same_index_tree_of _ (k_idx k)) //.
  apply tree_extends; [done|apply Hi].
Qed.

Lemma session_refines st0 l st : Life.sound obj raw_ cfg st0 → sizes_ok (k_idx st0.2) → session st0 l st →
  sizes_ok (k_idx st.2) ∧ spec_run (serves_tree st0.2) l (serves_tree st.2).
Proof.
  intros Hl Hs Hr. induction Hr as [|l ts k r a F' Hr IH Hok Hk Hns Hh Hn Hc|l st st' Hr IH Hp]; [by split; [|constructor]|..];
    destruct IH as [Hs1 Hsp]; pose proof (life_sound obj raw_ cfg _ _ (session_work _ _ _ Hr) Hl) as Hl1;
    pose proof (lv_inv _ _ _ _ (sd_live _ _ _ _ Hl1)) as Hi1.
  - destruct (step_refines obj r (fusey_of cfg k) a F' (conj Hi1 Hs1) Hok Hk Hns Hh) as [[_ Hs2] Ha]. split; [done|].
    eapply spec_snoc; [exact Hsp|]. exact Ha.
  - destruct (persisting_sound obj raw_ cfg st st' Hp Hl1) as [_ Hu].
    destruct (unseen_tree st.2 st'.2 Hi1 Hu) as [Et Hs2]. rw Et. split; [by apply Hs2|done].
Qed.

(** The tree of the next daemon. *)
Lemma same_files_tree k1 k2 : k_inv obj cfg k1 → sizes_ok (k_idx k1) → same_files obj cfg k1 k2 →
  sizes_ok (k_idx k2) ∧
  (same_tree (serves_tree k1) (serves_tree k2) ∨ blank (serves_tree k1) ∧ blank (serves_tree k2)).
Proof.
  intros Hi Hs [[Ha|[[t Ht] [t2 Ht2]]] Hc].
  - split; [by eapply sizes_same_atime|]. left. by apply same_index_tree.
  - split; [eapply sizes_same_atime; [exact Ht2|apply New_sizes]|]. right. by split; eapply same_but_atime_blank.
Qed.

(** A daemon that continues with the tree of [k1] (access times apart, or a new
    root where nothing was ever made). *)
Definition continues k1 k2 : Prop :=
  live obj raw_ cfg k2 ∧ sizes_ok (k_idx k2) ∧
  (same_tree (serves_tree k1) (serves_tree k2) ∨ blank (serves_tree k1) ∧ blank (serves_tree k2)).


(** ** A compaction between two daemons *)

Lemma continues_trans k1 k k2 : live obj raw_ cfg k1 → sizes_ok (k_idx k1) → live obj raw_ cfg k →
  same_files obj cfg k1 k → live obj raw_ cfg k2 → same_files obj cfg k k2 → continues k1 k2.
Proof.
  intros Hl Hs Hlk Hsf1 Hl2 Hsf. split; [done|].
  destruct (same_files_tree k1 k (lv_inv _ _ _ _ Hl) Hs Hsf1) as [Hsk Ht1].
  destruct (same_files_tree k k2 (lv_inv _ _ _ _ Hlk) Hsk Hsf) as [Hs2 Ht2]. split; [done|].
  destruct Ht1 as [Ht1|[B1 Bk]], Ht2 as [Ht2|[Bk' B2]]; [left; by etrans|right..]; (split; [|]); try done.
  - by rw Ht1.
  - by rw - Ht2.
Qed.

Lemma same_files_loadable k1 k2 : same_files obj cfg k1 k2 → loadable (k_idx k2) = loadable (k_idx k1).
Proof.
  intros [[Ha|[[t Ht] [t2 Ht2]]] _]; [symmetry; by apply loadable_same|].
  by rw - (loadable_same _ _ Ht) - (loadable_same _ _ Ht2).
Qed.

End session.
