(* ===== verification/TreeConc.v ===== *)
(** Requests on the tree that interleave call by call: the inode that a request
    has made and not yet named is its own, and each request changes the tree at
    one of its calls (a symbolic link at two). *)
From S2P Require Import Prelude Types Extents Index IndexInv OS Decimal Persist Store Cache ChunkStore.
From S2P Require Import ChunkProps Fuse FuseData FuseInv FuseProps Durable.
From S2P Require Import FsSpec SpecAbs SpecIndex SpecNames SpecRefine Frame FuseConc FuseConcProps.
#[local] Open Scope Z_scope.

(** ** Changes of the tree *)

(** A whole request with its answer; or one half of a symbolic link, which gets
    its name before its target. *)
Inductive change :=
  | Whole (r : request) (a : answer)
  | Named (r : request) (c : Z)
  | Targeted (r : request) (c : Z).

Definition makes (ch : change) (t t' : tree) : Prop :=
  match ch with
  | Whole r a => allowed r t a t'
  | Named (RSymlink p _ nm caller now) c =>
      is_dir t p = true ∧ names t !! (p, nm) = None ∧ nodes t !! c = None ∧
      t' = add_node p nm c (fresh_node Special 0x1FF caller now) now t
  | Targeted (RSymlink _ target _ _ now) c => t' = on_node c (λ nd, changed now (with_kind (Lnk target) nd)) t
  | _ => False
  end.

(** The two halves, one after the other, are the whole request. *)
Lemma halves_make_symlink p target nm caller now c t t1 t2 at_ :
  makes (Named (RSymlink p target nm caller now) c) t t1 → makes (Targeted (RSymlink p target nm caller now) c) t1 t2 →
  shows t2 c (fresh_node (Lnk target) 0x1FF caller now) at_ → allowed (RSymlink p target nm caller now) t (AEntry c at_) t2.
Proof.
  intros (Hp & Hn & Hc & ->) -> Hs. rw /= /creates decide_True //. exists c, at_. split_and!; [done| |done|done].
  assert (p ≠ c) as Hpc by (intros ->; by rw /is_dir Hc in Hp).
  rw /on_node /add_node /=. f_equal. by rw alter_alter_ne // alter_insert_eq.
Qed.

Section conc.
Context {W : Type} {S : Store W} {C : CborCodec}.
Context (obj : W → string → option bytes) {L : StoreLaws S obj}.
Implicit Types F : Fusey W.

(** What a call changes: the answer is the one that the request would give if
    nothing came between this call and the one that fills the answer. *)
Definition effect (t : nat) (th : thread) F' (th' : thread) : list (option nat * change) :=
  match th, th' with
  | TWrite ino data off now (WCommit _), TWrite _ _ _ _ (WDone (Ok n)) =>
      [(Some t, Whole (RWrite ino data off now) (ACount n))]
  | TTree r PStart, TTree _ (PAttr c) => [(Some t, Whole r (AAttr (fillAttr (GetInode (idx F') c).1)))]
  | TTree r (PAdd c), TTree _ (PAttr _) => [(Some t, Whole r (AEntry c (fillAttr (GetInode (idx F') c).1)))]
  | TTree r (PAdd c), TTree _ (PTarget _) => [(Some t, Named r c)]
  | TTree r (PTarget c), TTree _ (PAttr _) => [(Some t, Targeted r c)]
  | TTree r PRemove, TTree _ (PDone AOk) => [(Some t, Whole r AOk)]
  | _, _ => []
  end.

(** What the kernel guarantees when a call is made: it names nodes that it was
    told of; a name whose removal has begun still leads to the directory that was
    found under it (the kernel holds the lock of the parent). *)
Definition commit_ok (th : thread) F : Prop :=
  match th with
  | TRead ino _ _ _ _ => is_Some (inodes (idx F) !! ino) → linked (entries (idx F)) ino = true
  | TWrite ino data off _ (WCommit _) => is_Some (inodes (idx F) !! ino) → linked (entries (idx F)) ino = true
  | TTree r p => kernel_ok r F ∧
      match r, p with
      | RRmdir d nm _, PRemove => ∀ c n, dir_lookup (idx F) d nm = Some c → inodes (idx F) !! c = Some n →
          Inode.FileType n = Directory
      | _, _ => True
      end
  | _ => True
  end.

(** The call does not commit a write strictly inside an extent that is not the
    last of its file, as [avoids_split] for whole requests. *)
Definition commit_avoids (th : thread) F : Prop :=
  match th with
  | TWrite ino data off now (WCommit _) => avoids_split (RWrite ino data off now) F
  | _ => True
  end.

(** ** Inodes that have no name yet *)

Definition newborn (i : Index) (c : Z) (nd : node) : Prop :=
  linked (entries i) c = false ∧ ∀ s : cstate W, raw obj s i !! c = Some nd.

(** The inode that a request has made, until its entry is complete. *)
Definition own (th : thread) : option Z :=
  match th with
  | TTree r (PAdd c) => match birth r with Some _ => Some c | None => None end
  | TTree _ (PTarget c) => Some c
  | _ => None
  end.

(** What a request relies on between its calls. *)
Definition pending F (th : thread) : Prop :=
  match th with
  | TTree r (PAdd c) => c < nextIno (idx F) ∧
      match birth r, r with
      | Some (ft, perm, caller), _ =>
          ∀ p nm now, new_name r = Some (p, nm, now) → newborn (idx F) c (born ft perm caller now)
      | None, RLink _ target _ _ => target = Some c ∧
          ∀ n, inodes (idx F) !! c = Some n → Inode.FileType n ≠ Directory
      | None, _ => True
      end
  | TTree _ (PTarget c) => c < nextIno (idx F)
  | _ => True
  end.

Lemma raw_cell s i j c : cell j c = cell i c → raw obj s j !! c = raw obj s i !! c.
Proof.
  rw /cell. intros [= E1 E2 E3 E4]. rw !raw_lookup E1. destruct (inodes i !! c) as [n|]; [|done].
  by rw /= /node_of /kind_of /GetXattrs E2 E3 E4.
Qed.

Lemma pending_touch F F' l th : pending F th → touch l (idx F) (idx F') → (∀ c, own th = Some c → c ∉ l) → pending F' th.
Proof.
  intros Hp [Hn Ht Hc Hl] Ho. destruct th as [| | |r p|]; try done. destruct p; try done; simpl in *; [|lia].
  destruct Hp as [Hlt Hp]. split; [lia|]. destruct (birth r) as [[[ft perm] caller]|] eqn:Eb.
  - intros p nm now En. destruct (Hp p nm now En) as [Hu Hr].
    assert (~ hits l (idx F) c) as Hh by (intros [?|[? _]]; [congruence|by apply (Ho c)]).
    split; [by apply Hl|]. intros s. rw (raw_cell s (idx F)) //. by apply Hc.
  - destruct r; try done. destruct Hp as [-> Hp]. split; [done|]. intros n En.
    destruct (Ht c n Hlt En) as (n0 & E0 & ->). by apply (Hp n0).
Qed.

(** ** What a call touches *)

Lemma touch_of_same l i j : (∀ c, cell j c = cell i c) → nextIno j = nextIno i → dirIndex j = dirIndex i → touch l i j.
Proof.
  intros Hc Hn Hd. apply touch_same; [|by rw /entries Hd]. split; [done|done|].
  intros c n. specialize (Hc c). rw /cell in Hc. injection Hc as -> _ _ _. eauto.
Qed.

(** A call of the index, its errors included. *)
Lemma on_idx_touch {A} l (m : Index → outcome IdxErr Index A) err ret fail F F' th' :
  leaves (touch l (idx F)) (m (idx F)) → then_ (on_idx m err F) ret fail F = (F', th') → touch l (idx F) (idx F').
Proof.
  rw /leaves /on_idx. destruct (m (idx F)) as [a j|e j|]; simpl; intros Hl [= <- _]; simpl;
    [by apply Hl|by apply Hl|apply touch_refl].
Qed.

Lemma on_chunks_touch {A} l (m : cstate W → outcome ChunkErr (cstate W) A) err ret fail F F' th' :
  then_ (on_chunks m err F) ret fail F = (F', th') → touch l (idx F) (idx F').
Proof. rw /on_chunks. destruct (m (chunks F)); intros [= <- _]; apply touch_refl. Qed.

Lemma read_touch ino n off now p F F' th' : (is_Some (inodes (idx F) !! ino) → linked (entries (idx F)) ino = true) →
  read_step ino n off now p F = Some (F', th') → touch [] (idx F) (idx F').
Proof.
  intros Hl. destruct p as [|end_|end_ [|e exts] buf|r]; simpl; [| | | |done].
  - destruct (GetInode _ _) as [nd []]; [destruct (_ >=? _)|]; intros [= <- _]; apply touch_refl.
  - destruct (GetExtents _ _); [destruct (_ <? 0)|]; intros [= <- _]; apply touch_refl.
  - intros [= <- _]. simpl. eapply touch_linked; [|apply (TouchAtime_touch ino)]. set_solver.
  - rw /read_one. destruct (_ || _); [intros [= <- _]; apply touch_refl|]. rw /on_chunks.
    destruct (Read _ _ _ _); simpl; [destruct (copy_at _ _ _)|..]; intros [= <- _]; apply touch_refl.
Qed.

Lemma fsync_touch p F F' th' : fsync_step p F = Some (F', th') → touch [] (idx F) (idx F').
Proof.
  destruct p; simpl; [| |done].
  - intros Ha%(inj Some). by eapply on_chunks_touch.
  - rw /save_index. destruct (Save (cacheDir F) (idx F, local (wd (chunks F)))) as [u [i d]|e [i d]|] eqn:E; simpl;
      [| |intros [= <- _]; apply touch_refl]; intros [= <- _]; simpl;
      (destruct (Save_cases (cacheDir F) (idx F) (local (wd (chunks F))) i d) as [(?&_&->&_)|(?&_&->&_)];
        [by rw E|apply touch_refl|by apply touch_of_same]).
Qed.

Lemma write_touch ino data off now p F F' th' : commit_ok (TWrite ino data off now p) F →
  write_step ino data off now p F = Some (F', th') → touch [] (idx F) (idx F').
Proof.
  destruct p as [|size| |ext|r]; cbn [write_step commit_ok]; [| | | |done].
  - intros _. destruct (GetInode _ _) as [nd []]; [destruct (_ >? _)|]; intros [= <- _]; apply touch_refl.
  - intros _ [= <- _]. apply touch_refl.
  - intros _ Ha%(inj Some). by eapply on_chunks_touch.
  - intros Hl Ha%(inj Some). eapply touch_linked; [|eapply on_idx_touch; [apply (WriteExtent_touch ino)|exact Ha]]. set_solver.
Qed.

(** The nodes that a request names are linked, or gone. *)
Lemma named_linked r F (l k : list Z) : kernel_ok r F → (∀ c, c ∈ l → c ∈ k ∨ c ∈ request_nodes r) →
  ∀ c, c ∈ l → c ∈ k ∨ (is_Some (inodes (idx F) !! c) → linked (entries (idx F)) c = true).
Proof. intros [Hk _] Hl c Hc. destruct (Hl c Hc) as [?|Hr]; [by left|right]. by apply Hk. Qed.

Lemma made_touch r ft perm caller now F F' th' : fs_inv obj F → nextIno (idx F) < 2 ^ 64 - 1 →
  (let (uid, gid) := caller_ids caller in
   Some (then_ (on_idx (CreateInode ft perm uid gid 0 now) (λ _, EIO) F) (λ c, TTree r (PAdd c))
     (λ e, TTree r (PDone (AErr e))) F)) = Some (F', th') → touch [] (idx F) (idx F').
Proof.
  intros H Hn. destruct (caller_ids caller) as [uid gid]. intros Ha%(inj Some).
  eapply on_idx_touch; [|exact Ha]. apply CreateInode_touch; [apply H|done].
Qed.

Lemma start_touch r F F' th' : fs_inv obj F → kernel_ok r F → counters (TTree r PStart) F = true →
  tree_start r F = Some (F', th') → touch [] (idx F) (idx F').
Proof.
  intros H Hk [_ Hc]%andb_true_iff Ha.
  assert (∀ x, Some (F, x) = Some (F', th') → touch [] (idx F) (idx F')) as Hsame by (intros x [= <- _]; apply touch_refl).
  destruct r; try done; cbn [tree_start birth mbind option_bind] in Ha, Hc;
    try (apply Z.ltb_lt in Hc; by eapply made_touch);
    try (revert Ha; repeat case_match; by apply Hsame).
  apply (inj Some) in Ha. eapply touch_linked; [|eapply on_idx_touch; [apply (SetAttr_touch ino)|exact Ha]].
  apply (named_linked _ F _ _ Hk). set_solver.
Qed.

Lemma tree_touch r p F F' th' : fs_inv obj F → many_calls r = true → commit_ok (TTree r p) F →
  counters (TTree r p) F = true → pending F (TTree r p) →
  tree_step r p F = Some (F', th') → touch (option_list (own (TTree r p))) (idx F) (idx F').
Proof.
  intros H Hm [Hk _] Hc Hp Ha.
  assert (∀ x l, Some (F, x) = Some (F', th') → touch l (idx F) (idx F')) as Hsame by (intros x l [= <- _]; apply touch_refl).
  destruct p as [|c|c|c| |c| |es|[|e es] l|a]; cbn [tree_step] in Ha.
  - by eapply (start_touch r).
  - revert Ha. destruct r; try done; repeat case_match; by apply Hsame.
  - destruct (new_name r) as [[[q nm] now]|] eqn:En; [|done]. apply (inj Some) in Ha.
    eapply touch_linked; [|eapply on_idx_touch; [apply (AddDirEntry_touch q nm c now)|exact Ha]].
    apply (named_linked r F _ _ Hk). destruct r; simplify_eq/=; try set_solver.
    destruct Hp as [_ [-> _]]. set_solver.
  - destruct r; try done. apply (inj Some) in Ha. eapply on_idx_touch; [apply SetSymlink_touch|exact Ha].
  - destruct r; try done. apply (inj Some) in Ha.
    eapply touch_linked; [|eapply on_idx_touch; [by apply (RemoveDirEntry_touch obj (chunks F)), H|exact Ha]].
    apply (named_linked _ F _ _ Hk). set_solver.
  - revert Ha. destruct r; repeat case_match; by apply Hsame.
  - revert Ha. destruct r; try done; repeat case_match; by apply Hsame.
  - revert Ha. destruct r; try done; by apply Hsame.
  - revert Ha. destruct r; try done; by apply Hsame.
  - revert Ha. destruct r; try done; repeat case_match; by apply Hsame.
  - by destruct r.
Qed.

Lemma advance_touch th F F' th' : fs_inv obj F → call_ok th → commit_ok th F → counters th F = true → pending F th →
  advance th F = Some (F', th') → touch (option_list (own th)) (idx F) (idx F').
Proof.
  intros H Hm Hk Hc Hp. destruct th as [ino n off now p|ino data off now p|p|r p|]; [| | | |done].
  - by apply read_touch.
  - by apply write_touch.
  - apply fsync_touch.
  - by apply tree_touch.
Qed.

(** A request of one call. *)
Lemma one_call_touch r F F' : fs_inv obj F → one_call r = true → req_ok r F → kernel_ok r F → serve r F = Some F' →
  touch [] (idx F) (idx F').
Proof.
  intros H Ho Hr Hk.
  assert (∀ l A (m : Index → outcome IdxErr Index A) err, (∀ c, c ∈ l → c ∈ request_nodes r) →
    leaves (touch l (idx F)) (m (idx F)) → out_state (on_idx m err F) = Some F' → touch [] (idx F) (idx F')) as Hi.
  { intros l A m err Hl Ht. rw /on_idx. intros Hs. apply touch_linked with l; [apply (named_linked r F _ _ Hk); auto|].
    revert Hs Ht. rw /leaves. destruct (m (idx F)); intros [= <-] Ht; by apply Ht. }
  assert (Some F = Some F' → touch [] (idx F) (idx F')) as Hsame by (intros [= <-]; apply touch_refl).
  destruct r; try done; cbn [serve].
  - rw /Getattr. case_match; case_match; apply Hsame.
  - rw /Readlink. case_match; apply Hsame.
  - apply (Hi [ino]); [set_solver|]. by apply (RemoveDirEntry_touch obj (chunks F)), H.
  - rw /Node_Rename. destruct newParent as [np|]; [|apply Hsame]. destruct Hr as [Hd Hne]. destruct Hk as [Hk _].
    apply (Hi []); [set_solver|]. apply (Rename_touch obj (chunks F)); [apply H|done|done|..]; apply Hk; set_solver.
  - rw /Open. case_match; case_match; apply Hsame.
  - rw /Statfs. destruct (_ =? 0); [done|apply Hsame].
  - rw /Getxattr. case_match; [rw copy_out_state|]; apply Hsame.
  - apply (Hi [ino]); [set_solver|]. apply SetXattr_touch.
  - rw /Listxattr copy_out_state. apply Hsame.
  - apply (Hi [ino]); [set_solver|]. apply RemoveXattr_touch.
Qed.

(** ** What a call does to the tree *)

(** Nothing, or one change. *)
Definition moves (t : nat) F F' (ef : list (option nat * change)) : Prop :=
  sizes_ok (idx F') ∧
  (ef = [] ∧ abs obj F' = abs obj F ∨ ∃ ch, ef = [(Some t, ch)] ∧ makes ch (abs obj F) (abs obj F')).

Lemma moves_same t F : sizes_ok (idx F) → moves t F F [].
Proof. intros. split; [done|by left]. Qed.

(** A call that the whole request makes at this moment, too. *)
Lemma moves_whole t r F a F' : sound obj F → req_ok r F → kernel_ok r F → many_calls r = true → handle r F = Some (a, F') →
  moves t F F' [(Some t, Whole r a)].
Proof.
  intros Hs Hr Hk Hm Hh. destruct (step_refines obj r F a F' Hs Hr Hk ltac:(by destruct r) Hh) as [[_ Hs'] Ha].
  split; [done|]. right. by exists (Whole r a).
Qed.

Lemma made_moves t r ft perm caller now F F' th' : sound obj F →
  (let (uid, gid) := caller_ids caller in
   Some (then_ (on_idx (CreateInode ft perm uid gid 0 now) (λ _, EIO) F) (λ c, TTree r (PAdd c))
     (λ e, TTree r (PDone (AErr e))) F)) = Some (F', th') →
  moves t F F' (effect t (TTree r PStart) F' th') ∧ th' = TTree r (PAdd (nextIno (idx F))) ∧
  newborn (idx F') (nextIno (idx F)) (born ft perm caller now).
Proof.
  intros [H Hs]. destruct (caller_ids caller) as [uid gid] eqn:Ec. rw /on_idx.
  destruct (CreateInode ft perm uid gid 0 now (idx F)) as [c j|e j|] eqn:E; [|done|done]. intros [= <- <-].
  pose proof (fi_idx _ _ H) as Hwf. pose proof (CreateInode_sizes _ _ _ _ _ _ _ _ Hwf Hs E) as Hs1.
  destruct (CreateInode_raw obj (chunks F) _ _ _ _ _ _ _ _ Hwf E) as (-> & Ee & Er).
  pose proof (fresh_unlinked _ Hwf) as Hu. split; [|split; [done|]].
  - split; [done|]. left. split; [done|]. by rw /abs !tree_unfold /= Er Ee prune_fresh.
  - change (idx (set_idx j F)) with j. split; [by rw Ee|]. intros s. destruct (CreateInode_raw obj s _ _ _ _ _ _ _ _ Hwf E) as (_ & _ & ->).
    by rw lookup_insert_eq /born Ec.
Qed.

(** The new entry of an inode without a name. *)
Lemma add_newborn r p nm c now ft perm caller F u j : fs_inv obj F → kernel_ok r F → p ∈ request_nodes r →
  newborn (idx F) c (born ft perm caller now) → AddDirEntry p nm c now (idx F) = Ret u j →
  is_dir (abs obj F) p = true ∧ names (abs obj F) !! (p, nm) = None ∧ nodes (abs obj F) !! c = None ∧ p ≠ c ∧
  abs obj (set_idx j F) = add_node p nm c (born ft perm caller now) now (abs obj F).
Proof.
  intros H Hk Hp [Hu Hr] E. destruct (AddDirEntry_raw obj (chunks F) _ _ _ _ _ _ _ E) as (Hd & Hf & _ & Ee & Er).
  destruct (proj2 (dir_free obj F r p nm Hk Hp)) as [Hdir Hfree]; [done|]. split_and!; [done|done|..].
  - by rw /abs tree_lookup Hu.
  - intros ->. destruct Hd as (n & Hn & _). destruct Hk as [Hk _].
    rw (proj2 (Hk c Hp)) in Hu; [done|]. by eexists.
  - rw /abs /= (tree_add_name obj (chunks F) (idx F) j p nm c now (born ft perm caller now) (raw obj (chunks F) (idx F))) //.
    rw /add_node. f_equal. by rw alter_insert_eq.
Qed.

Lemma add_moves t r c F F' th' : sound obj F → fs_inv obj F' → many_calls r = true → commit_ok (TTree r (PAdd c)) F →
  counters (TTree r (PAdd c)) F = true → pending F (TTree r (PAdd c)) → tree_step r (PAdd c) F = Some (F', th') →
  moves t F F' (effect t (TTree r (PAdd c)) F' th').
Proof.
  intros [H Hs] H' Hm [Hk _] Hc Hp Ha. cbn [tree_step] in Ha. destruct (new_name r) as [[[p nm] now]|] eqn:En; [|done].
  apply (inj Some) in Ha. revert Ha. rw /on_idx. destruct (AddDirEntry p nm c now (idx F)) as [u j|e j|] eqn:E; simpl; [| |].
  - intros [= <- <-]. pose proof (AddDirEntry_sizes _ _ _ _ _ _ _ Hs E) as Hs2.
    destruct Hp as [Hlt Hp]. destruct (birth r) as [[[ft perm] caller]|] eqn:Eb.
    + specialize (Hp p nm now En). assert (p ∈ request_nodes r) as Hin by (destruct r; simplify_eq/=; set_solver).
      destruct (add_newborn r p nm c now ft perm caller F u j H Hk Hin Hp E) as (Hd & Hf & Hn & Hpc & Et).
      assert (shows (abs obj (set_idx j F)) c (born ft perm caller now) (fillAttr (GetInode (idx (set_idx j F)) c).1)) as Hsh.
      { apply shows_read; [done|done|]. by rw Et /= lookup_alter_ne // lookup_insert_eq. }
      split; [done|]. right. destruct r; simplify_eq/=; eexists; (split; [done|]); simpl; try by split_and!.
      all: rw /creates decide_True //; eexists _, _; split_and!; done.
    + destruct r; simplify_eq/=. destruct Hp as [-> Hp].
      destruct (AddDirEntry_raw obj (chunks F) _ _ _ _ _ _ _ E) as (_ & _ & [n En] & _ & _).
      apply moves_whole; [done| |done|done|].
      * apply andb_true_iff in Hc as [_ Hc]. intros m Em. rw Em in Hc. by apply Z.ltb_lt.
      * rw /= /Link /GetInode En decide_False; [|by apply Hp]. rw /on_idx E /=. by destruct (inodes j !! c).
  - intros [= <- <-]. assert (j = idx F) as ->.
    { revert E. rw /AddDirEntry. by repeat case_match; intros [= _ <-]. }
    split; [done|]. left. by destruct F.
  - intros [= <- <-]. by apply moves_same.
Qed.

Lemma setattr_moves t B ino inp now F F' th' : sound obj F → kernel_ok (RSetattr B ino inp now) F →
  tree_start (RSetattr B ino inp now) F = Some (F', th') →
  moves t F F' (effect t (TTree (RSetattr B ino inp now) PStart) F' th').
Proof.
  intros Hs Hk Ha. pose proof (moves_whole t (RSetattr B ino inp now) F) as Hw. revert Ha Hw.
  cbn [tree_start handle]. rw /Setattr. change (on_idx (SetAttr ino (when_bit _ _ _) _ _ _ _ _ now) _ F) with
    (on_idx (SetAttr ino (w_mode (wants B inp)) (w_uid (wants B inp)) (w_gid (wants B inp)) (w_size (wants B inp))
      (w_atime (wants B inp)) (w_mtime (wants B inp)) now) (λ _, EIO) F).
  rw /on_idx. destruct (SetAttr ino _ _ _ _ _ _ now (idx F)) as [u j|e j|] eqn:E; simpl.
  - intros [= <- <-] Hw. simpl. destruct (GetInode j ino) as [n []]; [by eapply Hw|].
    destruct (Hw _ _ Hs I Hk eq_refl eq_refl) as [_ [[? _]|(ch & [= <-] & Hal)]]; [done|]. exfalso. revert Hal. rw /makes /allowed.
    destruct (nodes (abs obj F) !! ino); cbv zeta; [by intros (_ & at_ & ? & _)|by intros [? _]].
  - intros [= <- <-] _. assert (j = idx F) as ->.
    { revert E. rw /SetAttr. by case_match; intros [= _ <-]. }
    split; [apply Hs|]. left. by destruct F.
  - intros [= <- <-] _. by apply moves_same, Hs.
Qed.

Lemma rmdir_moves t p nm now F F' th' : sound obj F → commit_ok (TTree (RRmdir p nm now) PRemove) F →
  tree_step (RRmdir p nm now) PRemove F = Some (F', th') →
  moves t F F' (effect t (TTree (RRmdir p nm now) PRemove) F' th').
Proof.
  intros [H Hs] [Hk Hd] Ha. cbn [tree_step] in Ha. apply (inj Some) in Ha. revert Ha. rw /on_idx.
  pose proof (RemoveDirEntry_cases obj p nm now F H) as HC.
  destruct (RemoveDirEntry p nm now (idx F)) as [u j|e j|] eqn:E; simpl; [| |done]; intros [= <- <-].
  - destruct (HC Hs) as (_ & c & n & Hc & Hn & _ & _). apply moves_whole; [done|done|done|done|].
    rw /= /Rmdir Index_Lookup_dir Hc /GetInode Hn decide_False; [|intros Hx; by apply Hx, (Hd c n)]. by rw /on_idx E.
  - destruct HC as [-> _]. split; [done|]. left. split; [|by destruct F]. by destruct (mentions_not_empty e).
Qed.

Lemma target_moves t p target nm caller now c F F' th' : sound obj F →
  tree_step (RSymlink p target nm caller now) (PTarget c) F = Some (F', th') →
  moves t F F' (effect t (TTree (RSymlink p target nm caller now) (PTarget c)) F' th').
Proof.
  intros [H Hs] Ha. cbn [tree_step] in Ha. apply (inj Some) in Ha. revert Ha. rw /on_idx.
  destruct (SetSymlink c target now (idx F)) as [u j|e j|] eqn:E; simpl; [| |]; intros [= <- <-].
  - split; [by eapply SetSymlink_sizes; [apply H|done|exact E]|]. right. eexists. split; [done|]. simpl.
    destruct (inodes (idx F) !! c) as [n|] eqn:En; [|by rw /SetSymlink En in E].
    destruct (decide (Inode.FileType n = Symlink)) as [Ht|Ht]; [|by rw /SetSymlink En decide_True in E].
    by rw /abs /= (SetSymlink_tree obj (chunks F) _ _ _ _ _ _ n En Ht E).
  - assert (j = idx F) as ->; [|split; [done|left; by destruct F]].
    revert E. rw /SetSymlink. by repeat case_match; intros [= _ <-].
  - by apply moves_same.
Qed.

Lemma tree_moves t r p F F' th' : sound obj F → fs_inv obj F' → many_calls r = true → commit_ok (TTree r p) F →
  counters (TTree r p) F = true → pending F (TTree r p) → tree_step r p F = Some (F', th') →
  moves t F F' (effect t (TTree r p) F' th').
Proof.
  intros Hs H' Hm Hk Hc Hp Ha. pose proof Hs as [H Hsz].
  assert (∀ x, (∀ c, p ≠ PStart ∨ x ≠ PAttr c) → (∀ c, x ≠ PTarget c) → (∀ c, p ≠ PAdd c ∧ p ≠ PTarget c) → p ≠ PRemove →
    Some (F, TTree r x) = Some (F', th') → moves t F F' (effect t (TTree r p) F' th')) as Hsame.
  { intros x H1 H2 H3 H4 [= <- <-]. assert (effect t (TTree r p) F (TTree r x) = []) as ->; [|by apply moves_same].
    destruct p; simpl; try done; [destruct x; try done; by destruct (H1 c)|by destruct (H3 c)|by destruct (H3 c)]. }
  destruct p as [|c|c|c| |c| |es|[|e es] l|a]; cbn [tree_step] in Ha.
  - destruct r; try done; cbn [tree_start birth mbind option_bind] in Ha;
      try (by eapply made_moves); try (revert Ha; repeat case_match; apply Hsame; try done; by right).
    by apply setattr_moves; [|apply Hk|].
  - revert Ha. destruct r; try done; repeat case_match; apply Hsame; try done; by left.
  - by apply add_moves.
  - destruct r; try done. by apply target_moves.
  - destruct r; try done. by apply rmdir_moves.
  - revert Ha. destruct r; repeat case_match; apply Hsame; try done; by left.
  - revert Ha. destruct r; try done; repeat case_match; apply Hsame; try done; by left.
  - revert Ha. destruct r; try done; apply Hsame; try done; by left.
  - revert Ha. destruct r; try done; apply Hsame; try done; by left.
  - revert Ha. destruct r; try done; repeat case_match; apply Hsame; try done; by left.
  - by destruct r.
Qed.

(** ** What a thread relies on after its call *)

Lemma file_stays th F F' th' : is_tree th = false → advance th F = Some (F', th') → ∀ r p, th' ≠ TTree r p.
Proof.
  intros Hk Ha r p ->. revert Ha. destruct th as [? ? ? ? [| |? []|]|? ? ? ? []|[]| |]; try done; simpl; rw ?/then_;
    by repeat case_match.
Qed.

Lemma made_pending r ft perm caller p nm now F F' th' : sound obj F → nextIno (idx F) < 2 ^ 64 - 1 →
  birth r = Some (ft, perm, caller) → new_name r = Some (p, nm, now) →
  (let (uid, gid) := caller_ids caller in
   Some (then_ (on_idx (CreateInode ft perm uid gid 0 now) (λ _, EIO) F) (λ c, TTree r (PAdd c))
     (λ e, TTree r (PDone (AErr e))) F)) = Some (F', th') →
  pending F' th' ∧ ∀ c, own th' = Some c → c = nextIno (idx F).
Proof.
  intros Hs Hn Eb En Ha. destruct (made_moves 0 r ft perm caller now F F' th' Hs Ha) as (_ & -> & Hb).
  assert (nextIno (idx F') = nextIno (idx F) + 1) as E.
  { revert Ha. destruct (caller_ids caller) as [uid gid]. rw /on_idx.
    destruct (CreateInode ft perm uid gid 0 now (idx F)) as [c j|e j|] eqn:Ec; [|done|done]. intros [= <- _].
    by apply (CreateInode_next _ _ _ _ _ _ _ _ (fi_idx _ _ (proj1 Hs)) Hn Ec). }
  split; [|by simpl; rw Eb; intros c [= <-]]. simpl. split; [lia|]. rw Eb. intros p' nm' now'. rw En. by intros [= <- <- <-].
Qed.

Lemma advance_pending th F F' th' : sound obj F → call_ok th → pending F th → counters th F = true →
  touch (option_list (own th)) (idx F) (idx F') → advance th F = Some (F', th') →
  pending F' th' ∧ ∀ c, own th' = Some c → own th = Some c ∨ c = nextIno (idx F).
Proof.
  intros Hs Hm Hp Hc Ht Ha. destruct (is_tree th) eqn:Ek; last first.
  { pose proof (file_stays th F F' th' Ek Ha) as Hf. destruct th' as [| | |r p|]; try done. by destruct (Hf r p). }
  destruct th as [| | |r p|]; try done. cbn [advance] in Ha.
  assert (∀ x y, (∀ c, x ≠ PAdd c ∧ x ≠ PTarget c) → Some (y, TTree r x) = Some (F', th') →
    pending F' th' ∧ ∀ c, own th' = Some c → own (TTree r p) = Some c ∨ c = nextIno (idx F)) as Hnone.
  { intros x y Hx [= _ <-]. destruct x; try done; by destruct (Hx c). }
  destruct p as [|c|c|c| |c| |es|[|e es] l|a]; cbn [tree_step] in Ha.
  - simpl in Hm. apply andb_true_iff in Hc as [_ Hc]. destruct r; try done; cbn [tree_start birth mbind option_bind] in Ha, Hc;
      try (apply Z.ltb_lt in Hc; eapply made_pending in Ha; [|done..]; destruct Ha; split; [done|]; by auto);
      try (revert Ha; repeat case_match; by apply Hnone).
    + revert Ha. rw /on_idx. destruct (SetAttr _ _ _ _ _ _ _ _ _); simpl; try (by apply Hnone). by intros [= _ <-].
    + destruct target as [t|]; [|by revert Ha; apply Hnone]. revert Ha. rw /GetInode.
      destruct (inodes (idx F) !! t) as [n|] eqn:En; [|by apply Hnone]. case_decide; [by apply Hnone|]. intros [= <- <-].
      split; [|done]. simpl. split; [|split; [done|by rw En; intros m [= <-]]].
      by apply (core_key _ _ _ _ (wf_struct _ (fi_idx _ _ (proj1 Hs))) _ _ (skeleton_Some _ _ _ En)).
  - revert Ha. destruct r; try done; repeat case_match; by apply Hnone.
  - destruct (new_name r) as [[[q nm] now]|] eqn:En; [|done]. apply (inj Some) in Ha. revert Ha. rw /on_idx.
    destruct (AddDirEntry _ _ _ _ _); simpl; intros [= <- <-]; try done.
    destruct r; try done. split; [|by left]. simpl in *. destruct Hp, Ht. simpl in *. lia.
  - destruct r; try done. revert Ha. rw /on_idx. destruct (SetSymlink _ _ _ _); simpl; try (by apply Hnone). by intros [= _ <-].
  - destruct r; try done. revert Ha. rw /on_idx. destruct (RemoveDirEntry _ _ _ _); simpl; try (by apply Hnone). by intros [= _ <-].
  - revert Ha. destruct r; repeat case_match; by apply Hnone.
  - revert Ha. destruct r; try done; repeat case_match; by apply Hnone.
  - revert Ha. destruct r; try done; by apply Hnone.
  - revert Ha. destruct r; try done; by apply Hnone.
  - revert Ha. destruct r; try done; repeat case_match; by apply Hnone.
  - by destruct r.
Qed.
End conc.
