(* ===== verification/FuseConcSpec.v ===== *)
(** Concurrent requests against the specification: the trees that a run of
    interleaved requests goes through are those of a sequence of whole requests,
    each taking effect at one of its own calls. *)
From S2P Require Import Prelude Types Extents Index IndexInv OS Decimal Persist Store Cache ChunkStore.
From S2P Require Import ChunkProps Fuse FuseData FuseInv FuseProps MainProps Durable FuseConc FuseConcProps.
From S2P Require Import FsSpec SpecAbs SpecIndex SpecNames SpecRefine Session Frame TreeConc.
#[local] Open Scope Z_scope.

(** ** The specification up to access times *)

Inductive evolves : tree → list change → tree → Prop :=
  | evolves_nil t t' : same_tree t t' → evolves t [] t'
  | evolves_snoc t l t1 ch t2 t3 : evolves t l t1 → makes ch t1 t2 → same_tree t2 t3 → evolves t (l ++ [ch]) t3.

Lemma evolves_same t l t1 t2 : evolves t l t1 → same_tree t1 t2 → evolves t l t2.
Proof.
  destruct 1 as [t t1 H|t l t1 ch t3 t4 H Ha Hs]; intros Ht; [constructor; by etrans|].
  eapply evolves_snoc; [exact H|exact Ha|]. by etrans.
Qed.

Lemma same_tree_accessed t ino now : same_tree t (on_node ino (accessed now) t).
Proof.
  rw /same_tree /forget_atime /on_node /=. f_equal. apply map_eq => j. rw !lookup_fmap.
  destruct (decide (j = ino)) as [->|]; [rw lookup_alter_eq|by rw lookup_alter_ne]. by destruct (nodes t !! ino).
Qed.

Section conc.
Context {W : Type} {S : Store W} {C : CborCodec}.
Context (obj : W → string → option bytes) {L : StoreLaws S obj}.
Implicit Types F : Fusey W.
Implicit Types s : csys W.

(** ** Runs with the requests that take effect *)

(** Threads make their calls, and requests of one call are served. *)
Inductive crun s0 : list (option nat * change) → csys W → Prop :=
  | crun_nil : crun s0 [] s0
  | crun_thread l s t th F' th' :
      crun s0 l s → counters th (fs s) = true → threads s !! t = Some th →
      advance th (fs s) = Some (F', th') → commit_ok th (fs s) → commit_avoids th (fs s) →
      crun s0 (l ++ effect t th F' th') (mkC F' (<[t := th']> (threads s)))
  | crun_call l s r a F' :
      crun s0 l s → one_call r = true → req_ok r (fs s) → kernel_ok r (fs s) →
      handle r (fs s) = Some (a, F') → crun s0 (l ++ [(None, Whole r a)]) (mkC F' (threads s)).

Lemma crun_steps s0 l s : crun s0 l s → rtc step s0 s.
Proof.
  induction 1 as [|l s t th F' th' _ IH Hq Ht Ha _ _|l s r a F' _ IH Hm Hr _ Hh]; [done|..]; (eapply rtc_r; [exact IH|]).
  - by eapply step_run.
  - apply (step_meta r); [done..|]. by rw - handle_serve Hh.
Qed.

(** ** Steps on the tree *)

Definition keeps_tree F F' : Prop :=
  (sizes_ok (idx F) → sizes_ok (idx F')) ∧ same_tree (abs obj F) (abs obj F').

Lemma keeps_refl F : keeps_tree F F.
Proof. by split. Qed.

Lemma keeps_chunks F F' : fs_inv obj F → same_index (idx F) (idx F') → extends obj (chunks F) (chunks F') → keeps_tree F F'.
Proof.
  intros H Ei Hx. split; [by apply same_index_sizes|].
  rw /same_tree /abs (same_index_tree_of obj _ _ _ Ei) (tree_extends obj (chunks F)); [done|done|apply H].
Qed.

Lemma read_keeps ino n off now p F F' th' : fs_inv obj F → call_ok (TRead ino n off now p) →
  thread_ok obj F (TRead ino n off now p) → read_step ino n off now p F = Some (F', th') → keeps_tree F F'.
Proof.
  intros H Hc Ht Ha. destruct (read_stepped obj ino n off now p F F' th' H Hc Ht Ha) as [[_ Hx _ _] _]. revert Ha.
  destruct p as [|end_|end_ [|e exts] buf|r]; simpl; [| | | |done].
  - destruct (GetInode _ _) as [nd []]; [destruct (_ >=? _)|]; intros [= <- _]; apply keeps_refl.
  - destruct (GetExtents _ _); [destruct (_ <? 0)|]; intros [= <- _]; apply keeps_refl.
  - intros [= <- _]. split; [apply TouchAtime_sizes|]. rw {2}/abs /= TouchAtime_tree. apply same_tree_accessed.
  - intros Ha. apply keeps_chunks; [done|left|done]. revert Ha. rw /read_one. destruct (_ || _); [by intros [= <- _]|].
    rw /on_chunks. destruct (Read _ _ _ _); simpl; [destruct (copy_at _ _ _)|..]; by intros [= <- _].
Qed.

Lemma fsync_keeps p F F' th' : fs_inv obj F → fsync_step p F = Some (F', th') → keeps_tree F F'.
Proof.
  intros H Ha. destruct (fsync_stepped obj p F F' th' H Ha) as [[_ Hx _ _] _]. revert Ha.
  destruct p; simpl; [| |done].
  - intros Ha. apply keeps_chunks; [done|left|done]. revert Ha. rw /on_chunks.
    by destruct (FlushActive _); simpl; intros [= <- _].
  - rw /save_index. destruct (Save (cacheDir F) (idx F, local (wd (chunks F)))) as [u [i d]|e [i d]|] eqn:E; simpl;
      [| |intros [= <- _]; apply keeps_refl]; intros [= <- _];
      (apply keeps_chunks; [done| |done]);
      (destruct (Save_cases (cacheDir F) (idx F) (local (wd (chunks F))) i d) as [(?&_&->&_)|(?&_&->&_)]; [by rw E|by left|by right; left]).
Qed.

(** A write keeps the tree until it commits; the commit is the whole request. *)
Lemma write_effect_tree ino data off now p F F' th' : fs_inv obj F → sizes_ok (idx F) →
  call_ok (TWrite ino data off now p) → thread_ok obj F (TWrite ino data off now p) →
  nextSeq (cs (chunks F)) + 1 < 2 ^ 63 → commit_ok (TWrite ino data off now p) F →
  commit_avoids (TWrite ino data off now p) F → write_step ino data off now p F = Some (F', th') →
  (∀ t, effect t (TWrite ino data off now p) F' th' = []) ∧ keeps_tree F F' ∨
  (∃ ext, p = WCommit ext) ∧ th' = TWrite ino data off now (WDone (Ok (u32 (len data)))) ∧ sizes_ok (idx F') ∧
    allowed (RWrite ino data off now) (abs obj F) (ACount (u32 (len data))) (abs obj F').
Proof.
  intros H Hs Hc Ht Hq Hlk Hns Ha. destruct (write_stepped obj ino data off now p F F' th' H Hc Ht Hq Ha) as [[_ Hx _ _] _].
  revert Ha. destruct p as [|size| |ext|r]; simpl; [| | | |done].
  - destruct (GetInode _ _) as [nd []]; [destruct (_ >? _)|]; intros [= <- <-]; left; (split; [done|apply keeps_refl]).
  - destruct (_ >? _); intros [= <- <-]; left; (split; [done|apply keeps_refl]).
  - intros Ha. left. rw /on_chunks in Ha. destruct (Append data off (chunks F)); simpl in Ha; injection Ha as <- <-;
      (split; [done|]); by [apply keeps_chunks; [done|left|]|apply keeps_refl].
  - destruct Ht as (Hg & Hd & Ef). rw /on_idx.
    destruct (inodes (idx F) !! ino) as [n|] eqn:En; last first.
    { rw /WriteExtent En /=. intros [= <- <-]. left. split; [done|]. apply keeps_chunks; [done|by left|done]. }
    subst off. pose proof (commit_tree obj ino data now F (chunks F) ext n H Hs En ltac:(done) Hg Hd Hns) as HC.
    destruct (WriteExtent ino ext now (idx F)) as [u j|e j|]; simpl; [| |done]; intros [= <- <-].
    + right. destruct HC as (Hsj & old & Ek & Et). split; [by eauto|]. split; [done|]. split; [done|].
      rw /allowed (node_at obj F ino); [|exact Hlk]. rw En /=. right. right. by exists old.
    + left. split; [done|]. subst j. apply keeps_chunks; [done|by left|done].
Qed.

(** ** All requests together *)

(** A call keeps the tree, access times apart, or makes one change. *)
Lemma advance_moves t th F F' th' : sound obj F → fs_inv obj F' → call_ok th → thread_ok obj F th → pending obj F th →
  counters th F = true → commit_ok th F → commit_avoids th F → advance th F = Some (F', th') →
  sizes_ok (idx F') ∧
  (effect t th F' th' = [] ∧ same_tree (abs obj F) (abs obj F') ∨
   ∃ ch, effect t th F' th' = [(Some t, ch)] ∧ makes ch (abs obj F) (abs obj F')).
Proof.
  intros Hso H' Hc Ht Hp Hq Hk Hav Ha. pose proof Hso as [H Hs]. destruct th as [ino n off now p|ino data off now p|p|r p|]; [| | | |done].
  - destruct (read_keeps ino n off now p F F' th' H Hc Ht Ha) as [Hs' Hkt]. split; [by apply Hs'|]. by left.
  - destruct (write_effect_tree ino data off now p F F' th' H Hs Hc Ht (counters_seq _ _ Hq) Hk Hav Ha)
      as [[E [Hs' Hkt]]|([ext ->] & -> & Hs' & Hal)].
    + split; [by apply Hs'|]. by left.
    + split; [done|]. right. by eexists.
  - destruct (fsync_keeps p F F' th' H Ha) as [Hs' Hkt]. split; [by apply Hs'|]. by left.
  - destruct (tree_moves obj t r p F F' th' Hso H' Hc Hk Hq Hp Ha) as [Hs' [[E ->]|Hch]]; (split; [done|]); by [left|right].
Qed.

(** The requests that have begun to take effect, by their threads. *)
Definition begun (l : list (option nat * change)) : list nat :=
  omap (λ e, match e.2 with Targeted _ _ => None | _ => e.1 end) l.

(** A request that has taken effect is in the list, one that has not or that
    has failed is not. An answer is filled by a call of its own, so its
    attributes may be later ones than those in the list; a [Setattr] whose file
    is removed in between has taken effect and answers ENOENT, and so a
    [Symlink] whose link is removed before it has a target answers EIO. *)
Definition accounted (l : list (option nat * change)) (t : nat) (th : thread) : Prop :=
  match th with
  | TWrite ino data off now (WDone (Ok n)) => (Some t, Whole (RWrite ino data off now) (ACount n)) ∈ l
  | TTree r p =>
      match r, p with
      | RSetattr _ _ _ _, (PAttr _ | PDone (AAttr _) | PDone (AErr ENOENT)) => ∃ at_, (Some t, Whole r (AAttr at_)) ∈ l
      | (RCreate _ _ _ _ _ | RMkdir _ _ _ _ _ | RLink _ _ _ _), (PAttr c | PDone (AEntry c _)) =>
          ∃ at_, (Some t, Whole r (AEntry c at_)) ∈ l
      | RSymlink _ _ _ _ _, PTarget c => (Some t, Named r c) ∈ l
      | RSymlink _ _ _ _ _, PDone (AErr EIO) => ∃ c, (Some t, Named r c) ∈ l
      | RSymlink _ _ _ _ _, (PAttr c | PDone (AEntry c _)) => (Some t, Named r c) ∈ l ∧ (Some t, Targeted r c) ∈ l
      | RRmdir _ _ _, PDone AOk => (Some t, Whole r AOk) ∈ l
      | _, _ => t ∉ begun l
      end
  | _ => t ∉ begun l
  end.

Lemma begun_app l l' : begun (l ++ l') = begun l ++ begun l'.
Proof. apply omap_app. Qed.

(** Changes of others. *)
Lemma accounted_app l l' t th : accounted l t th → t ∉ begun l' → accounted (l ++ l') t th.
Proof.
  intros Ha Hn. assert (∀ e, e ∈ l → e ∈ l ++ l') as Hin by set_solver.
  assert (t ∉ begun l → t ∉ begun (l ++ l')) as Hno by (rw begun_app; set_solver).
  revert Ha. rw /accounted. repeat case_match; try done; naive_solver.
Qed.

Lemma begun_effect t th F' th' x : x ∈ begun (effect t th F' th') → x = t.
Proof.
  rw /effect. repeat case_match; simpl; rw ?elem_of_nil ?list_elem_of_singleton //; by intros [].
Qed.

(** Where a call takes the account of its own thread. *)
Definition accounts l t th (x : Fusey W * thread) : Prop :=
  accounted (l ++ effect t th x.1 x.2) t x.2 ∧ (begun (effect t th x.1 x.2) ≠ [] → t ∉ begun l).

Lemma in_last {A} (l : list A) x : x ∈ l ++ [x].
Proof. set_solver. Qed.

Lemma accounts_panic l t th F : t ∉ begun l → accounts l t th (F, TPanicked).
Proof.
  intros Hn. assert (effect t th F TPanicked = []) as E by by destruct th as [|? ? ? ? []| |? []|].
  by rw /accounts /= E app_nil_r.
Qed.

Lemma accounts_then {A} l t th (m : outcome Errno (Fusey W) A) ret fail F :
  t ∉ begun l → (∀ a F1, accounts l t th (F1, ret a)) → (∀ e F1, accounts l t th (F1, fail e)) →
  accounts l t th (then_ m ret fail F).
Proof.
  intros Hn Hr Hf. destruct m; simpl; auto. by apply accounts_panic.
Qed.

Lemma accounts_idx {A} l t th (m : Index → outcome IdxErr Index A) err ret fail F :
  t ∉ begun l → (∀ a F1, accounts l t th (F1, ret a)) → (∀ e F1, accounts l t th (F1, fail (err e))) →
  accounts l t th (then_ (on_idx m err F) ret fail F).
Proof.
  intros Hn Hr Hf. rw /on_idx. destruct (m (idx F)); simpl; auto. by apply accounts_panic.
Qed.

(** A call that is not the one at which the request takes effect. *)
Lemma accounts_none l t th F th' : effect t th F th' = [] → accounted l t th' → accounts l t th (F, th').
Proof. intros E Ha. rw /accounts /= E app_nil_r. split; [done|by intros []]. Qed.

Lemma accounted_start l t r F F' th' : many_calls r = true → accounted l t (TTree r PStart) →
  tree_start r F = Some (F', th') → accounts l t (TTree r PStart) (F', th').
Proof.
  intros Hm Ha. assert (t ∉ begun l) as Hn by by destruct r.
  assert (∀ ft perm caller now, ((let (uid, gid) := caller_ids caller in
   Some (then_ (on_idx (CreateInode ft perm uid gid 0 now) (λ _, EIO) F) (λ c, TTree r (PAdd c))
     (λ e, TTree r (PDone (AErr e))) F)) = Some (F', th')) → accounts l t (TTree r PStart) (F', th')) as Hmade.
  { intros ft perm caller now. destruct (caller_ids caller) as [uid gid]. rw /on_idx.
    destruct (CreateInode ft perm uid gid 0 now (idx F)) as [c j|e j|] eqn:E; [|done|done]. intros [= <- <-].
    apply accounts_none; [done|]. by destruct r. }
  destruct r; try done; cbn [tree_start birth mbind option_bind]; try apply Hmade;
    try (repeat case_match; intros [= <- <-]; by apply accounts_none).
  intros E%(inj Some). rw - E. apply accounts_idx; [done|..]; intros; [|by apply accounts_none].
  split; [|done]. simpl. eexists. apply in_last.
Qed.

Lemma accounted_tree l t r p F F' th' : many_calls r = true → accounted l t (TTree r p) →
  tree_step r p F = Some (F', th') → accounts l t (TTree r p) (F', th').
Proof.
  intros Hm Ha. destruct p as [|c|c|c| |c| |es|[|e es] li|a]; cbn [tree_step].
  - by apply accounted_start.
  - destruct r; try done; repeat case_match; intros [= <- <-]; by apply accounts_none.
  - destruct (new_name r) as [[[q nm] now]|] eqn:En; [|done]. assert (t ∉ begun l) as Hn by by destruct r.
    intros E%(inj Some). rw - E. apply accounts_idx; [done|..]; intros; [|by apply accounts_none; [|destruct r]].
    split; [|done]. destruct r; try done; simpl; try eexists; apply in_last.
  - destruct r; try done. simpl in Ha. rw /on_idx. destruct (SetSymlink _ _ _ _) eqn:E; simpl; intros [= <- <-].
    + split; [|done]. simpl. set_solver.
    + apply accounts_none; [done|]. simpl. by eexists.
    + revert E. rw /SetSymlink. by repeat case_match.
  - destruct r; try done. intros E%(inj Some). rw - E. apply accounts_idx; [done|..]; intros.
    + split; [|done]. simpl. set_solver.
    + apply accounts_none; [done|]. simpl. by destruct (mentions_not_empty e).
  - destruct r; try done; repeat case_match; intros [= <- <-]; by apply accounts_none.
  - destruct r; try done; repeat case_match; intros [= <- <-]; by apply accounts_none.
  - destruct r; try done; intros [= <- <-]; by apply accounts_none.
  - destruct r; try done; intros [= <- <-]; by apply accounts_none.
  - destruct r; try done; repeat case_match; intros [= <- <-]; by apply accounts_none.
  - by destruct r.
Qed.

Lemma accounted_step l t th F F' th' : call_ok th → accounted l t th → advance th F = Some (F', th') →
  accounts l t th (F', th').
Proof.
  intros Hc Ha. destruct th as [ino n off now p|ino data off now p|p|r p|]; simpl in Hc; [| | | |done].
  - destruct p as [| |? []|]; simpl; try done; rw ?/then_; repeat case_match; intros [= <- <-]; by apply accounts_none.
  - destruct p; cbn [advance write_step]; try done.
    + repeat case_match; intros [= <- <-]; by apply accounts_none.
    + repeat case_match; intros [= <- <-]; by apply accounts_none.
    + intros E%(inj Some). rw - E. apply accounts_then; [done|..]; intros; by apply accounts_none.
    + intros E%(inj Some). rw - E. apply accounts_then; [done|..]; intros; [|by apply accounts_none].
      split; [simpl; set_solver|done].
  - destruct p; simpl; try done; rw ?/then_; repeat case_match; intros [= <- <-]; by apply accounts_none.
  - by apply accounted_tree.
Qed.

(** What holds after every step of a run. *)
Record recorded (s0 : csys W) l s : Prop := {
  rc_sizes : sizes_ok (idx (fs s));
  rc_tree : evolves (abs obj (fs s0)) l.*2 (abs obj (fs s));
  rc_once : NoDup (begun l);
  rc_account t th : threads s !! t = Some th → accounted l t th;
  rc_pending t th : threads s !! t = Some th → pending obj (fs s) th;
  rc_own t1 t2 th1 th2 c : threads s !! t1 = Some th1 → threads s !! t2 = Some th2 →
    own th1 = Some c → own th2 = Some c → t1 = t2;
}.

Lemma own_old F th c : pending obj F th → own th = Some c → c < nextIno (idx F).
Proof.
  destruct th as [| | |r []|]; try done; simpl; [|by intros Hp [= ->]].
  intros [Hp _]. by destruct (birth r); intros [= ->].
Qed.

Lemma recorded_begins s0 : begins obj s0 → sizes_ok (idx (fs s0)) → recorded s0 [] s0.
Proof.
  intros [H Hb] Hs. rw Forall_forall in Hb.
  assert (∀ t th, threads s0 !! t = Some th → starting th = true) as Hst.
  { intros t th Hin%list_elem_of_lookup_2. by apply Hb. }
  split; [done|by constructor|apply NoDup_nil_2|..].
  - intros t th Ht%Hst. destruct th as [? ? ? ? []|? ? ? ? []|[]|[] []|]; try done; apply not_elem_of_nil.
  - intros t th Ht%Hst. by destruct th as [? ? ? ? []|? ? ? ? []|[]|? []|].
  - intros t1 t2 th1 th2 c Ht%Hst _. by destruct th1 as [? ? ? ? []|? ? ? ? []|[]|? []|].
Qed.

Lemma recorded_thread s0 l s t th F' th' : recorded s0 l s → inv obj s → fs_inv obj F' →
  threads s !! t = Some th → counters th (fs s) = true → commit_ok th (fs s) → commit_avoids th (fs s) →
  advance th (fs s) = Some (F', th') →
  recorded s0 (l ++ effect t th F' th') (mkC F' (<[t := th']> (threads s))).
Proof.
  intros [Hsz Htr Ho Hac Hpe Hown] [H Hcall Hth] H' Ht Hq Hk Hav Ha.
  pose proof (conj H Hsz : sound obj (fs s)) as Hso.
  pose proof (Hcall t th Ht) as Hc. pose proof (Hpe t th Ht) as Hp.
  pose proof (advance_touch obj th (fs s) F' th' H Hc Hk Hq Hp Ha) as Hto.
  destruct (advance_pending obj th (fs s) F' th' Hso Hc Hp Hq Hto Ha) as [Hp' Hnew].
  destruct (advance_moves t th (fs s) F' th' Hso H' Hc (Hth t th Ht) Hp Hq Hk Hav Ha) as [Hs' Hmv].
  destruct (accounted_step l t th (fs s) F' th' Hc (Hac t th Ht) Ha) as [Hacc Hfirst]. simpl in Hacc, Hfirst.
  assert (∀ t1 th1 c, t1 ≠ t → threads s !! t1 = Some th1 → own th1 = Some c → own th' ≠ Some c) as Hdis.
  { intros t1 th1 c Hne H1 Hc1 Hc2. destruct (Hnew c Hc2) as [Hc3| ->]; [by eapply Hne, Hown|].
    pose proof (own_old (fs s) th1 _ (Hpe t1 th1 H1) Hc1). lia. }
  split; simpl; [done|..].
  - rw fmap_app. destruct Hmv as [[-> Hsame]|(ch & -> & Hch)]; [rw app_nil_r; by eapply evolves_same|].
    by eapply evolves_snoc.
  - rw begun_app. apply NoDup_app. split_and!; [done| |].
    + intros x Hx Hx'. pose proof (begun_effect _ _ _ _ _ Hx') as ->. apply Hfirst; [|done]. intros E. rw E in Hx'. by apply not_elem_of_nil in Hx'.
    + destruct Hmv as [[-> _]|(ch & -> & _)]; [apply NoDup_nil_2|]. destruct ch; [apply NoDup_singleton..|apply NoDup_nil_2].
  - intros t1 th1 [[-> ->]|[Hne H1]]%thread_moved; [done|]. apply accounted_app; [by apply Hac|].
    intros ->%begun_effect. done.
  - intros t1 th1 [[-> ->]|[Hne H1]]%thread_moved; [done|]. eapply pending_touch; [by apply (Hpe t1)|exact Hto|].
    intros c Hc1 Hin. destruct (own th) as [c'|] eqn:Eo; simpl in Hin; [|by apply not_elem_of_nil in Hin].
    apply list_elem_of_singleton in Hin as ->. by eapply Hne, Hown.
  - intros t1 t2 th1 th2 c [[-> ->]|[Hne1 H1]]%thread_moved [[-> ->]|[Hne2 H2]]%thread_moved Hc1 Hc2; [done|..].
    + by destruct (Hdis t2 th2 c).
    + by destruct (Hdis t1 th1 c).
    + by eapply Hown.
Qed.

Lemma recorded_call s0 l s r a F' : recorded s0 l s → inv obj s → one_call r = true → req_ok r (fs s) →
  kernel_ok r (fs s) → handle r (fs s) = Some (a, F') → recorded s0 (l ++ [(None, Whole r a)]) (mkC F' (threads s)).
Proof.
  intros [Hsz Htr Ho Hac Hpe Hown] [H _ _] Hone Hr Hk Hh.
  destruct (step_refines obj r (fs s) a F' (conj H Hsz) Hr Hk ltac:(by destruct r) Hh) as [[_ Hs'] Hal].
  assert (touch [] (idx (fs s)) (idx F')) as Hto.
  { apply (one_call_touch obj r); try done. by rw - handle_serve Hh. }
  assert (begun (l ++ [(None, Whole r a)]) = begun l) as Eb by (rw begun_app /=; apply app_nil_r).
  split; simpl; [done|..].
  - rw fmap_app. by eapply evolves_snoc; [exact Htr|exact Hal|].
  - by rw Eb.
  - intros t th Ht. apply accounted_app; [by apply Hac|]. apply not_elem_of_nil.
  - intros t th Ht. eapply pending_touch; [by apply (Hpe t)|exact Hto|]. intros c _. apply not_elem_of_nil.
  - done.
Qed.

Lemma crun_recorded s0 l s : begins obj s0 → sizes_ok (idx (fs s0)) → crun s0 l s → recorded s0 l s.
Proof.
  intros Hb Hs0. induction 1 as [|l s t th F' th' Hr IH Hq Ht Ha Hok Hav|l s r a F' Hr IH Hm Hrq Hk Hh].
  - by apply recorded_begins.
  - destruct (steps_inv obj s0 s (begins_inv obj s0 Hb) (crun_steps s0 l s Hr)) as [HI _].
    by apply recorded_thread; [..|apply (thread_stepped obj s t th F' th')| | | | |].
  - destruct (steps_inv obj s0 s (begins_inv obj s0 Hb) (crun_steps s0 l s Hr)) as [HI _].
    by apply recorded_call.
Qed.

End conc.
