(* ===== verification/LinearDemo.v ===== *)
(** Requests that overtake each other, as a sequence of changes of the tree: two
    writes to one file, a new file and a symbolic link; and what the two calls
    of a symbolic link leave between them. *)
From S2P Require Import Prelude Types Extents Index IndexInv OS Decimal Persist Store Cache ChunkStore.
From S2P Require Import ChunkProps Fuse FuseData FuseInv FuseProps FuseWitness Durable FuseConc FuseConcProps FuseConcDemo.
From S2P Require Import FsSpec SpecAbs SpecIndex SpecNames SpecRefine SpecDemo Session Frame TreeConc FuseConcSpec.
#[local] Open Scope Z_scope.

#[local] Existing Instance demo_store.
#[local] Existing Instance demo_laws.
#[local] Existing Instance count_codec.

(** Thread 0 writes [cde] over the file, thread 1 writes [ab] behind its first
    byte, thread 2 reads, thread 3 creates a file, thread 4 makes a link. *)
Definition new_file : request := RCreate RootIno "g" 0x1A4 None 9.
Definition new_link : request := RSymlink RootIno "f" "l" None 9.

Definition duel : csys Disk :=
  mkC demo_written [TWrite 2 cde 0 6 WInode; TWrite 2 ab 1 7 WInode; TRead 2 10 0 8 RInode;
                    TTree new_file PStart; TTree new_link PStart].

(** Thread 0 begins first and commits last; the inode of thread 3 is older than
    that of thread 4 and gets its name later; a write commits between the name
    and the target of the link. *)
Definition duel_schedule : list nat := [0; 1; 3; 0; 4; 2; 1; 4; 3; 0; 1; 1; 4; 2; 3; 0; 4]%nat.

Definition nodes_okb (r : request) (F : Fusey Disk) : bool :=
  forallb (λ ino, (ino <? nextIno (idx F)) && linked (entries (idx F)) ino) (request_nodes r).

Definition commit_okb (th : thread) (F : Fusey Disk) : bool :=
  match th with
  | TRead ino _ _ _ _ => linked (entries (idx F)) ino
  | TWrite ino data off _ (WCommit _) => linked (entries (idx F)) ino &&
      match extents (idx F) !! ino with Some exts => no_inner_split off (off + len data) exts | None => true end
  | TTree (RCreate _ _ _ _ _ as r) _ | TTree (RSymlink _ _ _ _ _ as r) _ => nodes_okb r F
  | TTree _ _ => false
  | _ => true
  end.

Lemma nodes_okb_ok r F : nodes_okb r F = true → ∀ ino, ino ∈ request_nodes r →
  ino < nextIno (idx F) ∧ (is_Some (inodes (idx F) !! ino) → linked (entries (idx F)) ino = true).
Proof.
  rw /nodes_okb forallb_forall. intros H ino Hin%list_elem_of_In. apply H in Hin as [Hlt%Z.ltb_lt Hl]%andb_true_iff. done.
Qed.

Lemma commit_okb_ok th F : commit_okb th F = true → commit_ok th F ∧ commit_avoids th F.
Proof.
  destruct th as [|ino data off now []| |r p|]; simpl; try done.
  - intros [Hl Hx]%andb_true_iff. split; [done|]. intros exts E. by rw E in Hx.
  - destruct r; try done; intros Hn; (split; [split; [split; [by apply nodes_okb_ok|done]|done]|done]).
Qed.

(** A schedule with the changes that it makes. *)
Fixpoint record (sch : list nat) (l : list (option nat * change)) (s : csys Disk)
    : option (list (option nat * change) * csys Disk) :=
  match sch with
  | [] => Some (l, s)
  | t :: sch =>
      match threads s !! t with
      | Some th =>
          match advance th (fs s) with
          | Some (F', th') =>
              if counters th (fs s) && commit_okb th (fs s)
              then record sch (l ++ effect t th F' th') (mkC F' (<[t := th']> (threads s))) else None
          | None => None
          end
      | None => None
      end
  end.

Lemma record_crun s0 sch : ∀ l s l' s', crun s0 l s → record sch l s = Some (l', s') → crun s0 l' s'.
Proof.
  induction sch as [|t sch IH]; intros l s l' s' Hr; simpl; [by intros [= <- <-]|].
  destruct (threads s !! t) as [th|] eqn:Ht; [|done]. destruct (advance th (fs s)) as [[F' th']|] eqn:Ha; [|done].
  destruct (_ && _) eqn:E; [|done]. apply andb_true_iff in E as [Hq [Hc Hav]%commit_okb_ok].
  apply IH. by eapply crun_thread.
Qed.

Definition duel_result : list (option nat * change) * csys Disk := default ([], duel) (record duel_schedule [] duel).
Definition duel_changes : list (option nat * change) := duel_result.1.
Definition duel_end : csys Disk := duel_result.2.

Lemma duel_begins : begins demo_obj duel.
Proof.
  split; [exact demo_written_inv|]. repeat apply Forall_cons_2; [..|by apply Forall_nil];
    (split; [reflexivity|]); [by split_and!; vm_compute..|done|done].
Qed.

Lemma duel_sizes : sizes_ok (idx (fs duel)).
Proof.
  assert (demo_written = demo_end 2) as E by (vm_compute; reflexivity).
  change (sizes_ok (idx demo_written)). rw E. apply (demo_end_sound 2). lia.
Qed.

Lemma duel_run : crun duel duel_changes duel_end.
Proof.
  apply (record_crun duel duel_schedule [] duel); [constructor|]. rw /duel_changes /duel_end /duel_result.
  destruct (record duel_schedule [] duel) as [[l s]|] eqn:E; [reflexivity|vm_compute in E; discriminate].
Qed.


(** ** A symbolic link without a target *)

(** A link is made while another request syncs. *)
Definition half_made : csys Disk := mkC demo_written [TTree new_link PStart; TFsync SFlush].

Lemma half_made_begins : begins demo_obj half_made.
Proof. split; [exact demo_written_inv|]. by repeat constructor. Qed.

(** [Symlink] names the inode before it stores the target: an [fsync] that falls
    between the two calls answers success and saves a link without a target.
    After a crash the next process finds the link under its name and answers
    EINVAL to [readlink]. *)
Theorem symlink_saved_without_target :
  begins demo_obj half_made ∧
  ∃ s, rtc step half_made s ∧ threads s = [TTree new_link (PTarget 3); TFsync (SDone (Ok tt))] ∧
    let F := mkFusey (reloaded (idx (fs s)) 4096) (chunks (fs s)) (maxFSSize (fs s)) (cacheDir (fs s)) in
    dir_lookup (idx F) RootIno "l" = Some 3 ∧ Readlink 3 F = Fail EINVAL F.
Proof.
  split; [exact half_made_begins|]. exists (reached half_made [0; 0; 1; 1]%nat). split_and!.
  - apply reached_steps. by vm_compute.
  - by vm_compute.
  - by vm_compute.
Qed.
