(* ===== verification/Daemon.v ===== *)
(** The two processes of a mount (src/cmd/fusey/main.go, [runMount] and
    [runDaemon]), as a step relation on the parent, the daemon, the pipe
    between them and the kernel's mount.

    [runMount] starts the daemon and waits on a pipe for the line "ready"; the
    daemon opens the stores, loads the index, mounts, writes its pid file,
    announces itself and serves; on a signal it unmounts, persists for the last
    time, removes the pid file and exits. Beside the main goroutine runs the
    ticker's, and both run the persist function one call at a time. A call that
    can fail for reasons outside the model (making a directory, opening a log,
    forking, mounting, unmounting) has a step for each outcome; that such a call
    returns at all is assumed. [io.ReadAll] on the pipe returns when its write
    end is closed in both processes. [time.NewTicker] panics for an interval that
    is not positive, which ends the daemon. *)
From S2P Require Import Prelude Types Index OS Decimal Persist Store Cache ChunkStore Fuse FuseProps Compaction.
From S2P Require Import Config Command Main MainProps Durable Life.
#[local] Open Scope Z_scope.

(** [runMount], up to the pipe; then until [cmd.Start] has returned; then
    [w.Close()]; then in [io.ReadAll]. *)
Inductive parent_pc := PSetup | PForking | PClosing | PWaiting | PExited (ok : bool).

(** [runDaemon]: what it has built so far, and the call it makes next. *)
Inductive daemon_pc (W : Type) :=
| DNone                                        (* not started *)
| DSetup (w : world W)                         (* configuration, directory, log *)
| DStore (w : world W)                         (* mustBuildStore *)
| DIndex (s : cstate W)                        (* loadIndex *)
| DMounting (k : kstate W unit)                (* gofs.Mount *)
| DPidFile (k : kstate W unit)                 (* os.WriteFile(pidPath) *)
| DAnnouncing (k : kstate W unit)              (* fmt.Fprint(readyPipe, "ready\n") *)
| DServing (k : kstate W unit)                 (* the ticker runs; <-sig *)
| DStopping (k : kstate W unit)                (* cancel(); server.Unmount() *)
| DFlushing (k : kstate W unit) (unmounted : bool) (pc : ppc)  (* in persistFn(flushCtx) *)
| DRemoving (k : kstate W unit) (unmounted : bool) (pc : ppc)  (* os.Remove(pidPath) *)
| DExited (last : option (kstate W unit * bool * ppc)).
   (* what it served, whether it had unmounted that, and how its last persist ended *)
Arguments DNone {W}. Arguments DSetup {W}. Arguments DStore {W}. Arguments DIndex {W}. Arguments DMounting {W}.
Arguments DPidFile {W}. Arguments DAnnouncing {W}. Arguments DServing {W}. Arguments DStopping {W}.
Arguments DFlushing {W}. Arguments DRemoving {W}. Arguments DExited {W}.

(** The pipe: what was written to it, and whether the daemon and the parent
    have its write end open. *)
Record pipe_t := mkPipe { written : string; daemon_end : bool; parent_end : bool }.

Definition ready_line : string := "ready" +:+ String (Ascii.ascii_of_N 10) "".

Definition open_pipe : pipe_t := mkPipe "" false true.                               (* os.Pipe() *)
Definition inherit (q : pipe_t) : pipe_t := mkPipe (written q) true (parent_end q).   (* cmd.ExtraFiles *)
Definition close_parent (q : pipe_t) : pipe_t := mkPipe (written q) (daemon_end q) false.
Definition close_daemon (q : pipe_t) : pipe_t := mkPipe (written q) false (parent_end q).
Definition say_ready (q : pipe_t) : pipe_t := mkPipe ready_line false (parent_end q).

Record sys W := mkSys {
  parent : parent_pc;
  daemon : daemon_pc W;
  pipe : pipe_t;
  mounted : bool;       (* whether the kernel sends requests *)
  mount_log : bool;     (* whether mount.log exists *)
  ticker : ppc;         (* where the ticker's goroutine is in the persist function *)
}.
Arguments mkSys {W}. Arguments parent {W}. Arguments daemon {W}. Arguments pipe {W}. Arguments mounted {W}.
Arguments mount_log {W}. Arguments ticker {W}.

(** [cfg.CacheDir = filepath.Join(cfg.CacheDir, daemonID)]. *)
Definition scope_config (daemonID : string) (cfg : Config) : Config :=
  mkConfig (ChunkSize cfg) (BlockSize cfg) (MaxFSSize cfg) (Join (CacheDir cfg) daemonID) (Bucket cfg) (Endpoint cfg)
    (Region cfg) (AccessKey cfg) (SecretKey cfg) (ForcePathStyle cfg) (Prefix cfg) (BrokerURL cfg)
    (BrokerAuthHeader cfg) (BrokerAuthValue cfg) (CompactionThreshold cfg) (PersistInterval cfg) (AllowOther cfg).

Section processes.
Context {W : Type} {S : Store W} {O : ObjectStore W} {C : CborCodec} {J : InfoCodec}.
(** The configuration of the daemon, scoped to its own directory; the
    world it is started in, its process id and its mountpoint. *)
Variables (cfg : Config) (w0 : world W) (pid : Z) (mountpoint : string).

Definition on_disk (f : Disk → outcome OsErr Disk unit) (k : kstate W unit) : kstate W unit :=
  let w := wd (k_cs k) in
  set_k_cs (mkCState (cs (k_cs k)) (mkWorld (backing w) (default (local w) (out_state (f (local w)))))) k.

Definition pid_path : string := Join (CacheDir cfg) "daemon.pid".

(** What the daemon serves while it has something to serve. *)
Definition serving_state (p : daemon_pc W) : option (kstate W unit) :=
  match p with
  | DPidFile k | DAnnouncing k | DServing k | DStopping k | DFlushing k _ _ | DRemoving k _ _ => Some k
  | _ => None
  end.

(** Whether the goroutine that persists the index has been started. *)
Definition ticking (p : daemon_pc W) : bool :=
  match p with DServing _ | DStopping _ | DFlushing _ _ _ | DRemoving _ _ _ => true | _ => false end.

(** Where the main goroutine is in the persist function. *)
Definition main_pc (p : daemon_pc W) : ppc :=
  match p with DFlushing _ _ pc | DRemoving _ _ pc => pc | _ => Finished end.

Definition with_state (k : kstate W unit) (p : daemon_pc W) : daemon_pc W :=
  match p with
  | DPidFile _ => DPidFile k | DAnnouncing _ => DAnnouncing k | DServing _ => DServing k
  | DStopping _ => DStopping k | DFlushing _ u pc => DFlushing k u pc | DRemoving _ u pc => DRemoving k u pc
  | p => p
  end.

(** The steps of the two programs. *)
Inductive life_step : sys W → sys W → Prop :=
| p_setup d q m l t : life_step (mkSys PSetup d q m l t) (mkSys PForking d open_pipe m true t)
| p_setup_fails d q m l t : life_step (mkSys PSetup d q m l t) (mkSys (PExited false) d q m l t)
| p_forks q m l t : life_step (mkSys PForking DNone q m l t) (mkSys PClosing (DSetup w0) (inherit q) m l t)
| p_fork_fails q m l t : life_step (mkSys PForking DNone q m l t) (mkSys (PExited false) DNone (close_parent q) m l t)
| p_closes d q m l t : life_step (mkSys PClosing d q m l t) (mkSys PWaiting d (close_parent q) m l t)
| p_reads d q m l t : daemon_end q = false → parent_end q = false →
    life_step (mkSys PWaiting d q m l t) (mkSys (PExited (bool_decide (written q = ready_line))) d q m l t)
| p_read_fails d q m l t : life_step (mkSys PWaiting d q m l t) (mkSys (PExited false) d (close_parent q) m l t)
| d_setup p w q m l t : life_step (mkSys p (DSetup w) q m l t) (mkSys p (DStore w) q m l t)
| d_setup_fails p w q m l t : life_step (mkSys p (DSetup w) q m l t) (mkSys p (DExited None) (close_daemon q) m l t)
| d_store p w s q m l t :
    mustBuildStore cfg w = Ret tt s → life_step (mkSys p (DStore w) q m l t) (mkSys p (DIndex s) q m l t)
| d_store_fails p w e s q m l t :
    mustBuildStore cfg w = Fail e s →
    life_step (mkSys p (DStore w) q m l t) (mkSys p (DExited None) (close_daemon q) m l t)
| d_index p s now i w q m l t :
    loadIndex cfg now (wd s) = Ret i w →
    life_step (mkSys p (DIndex s) q m l t) (mkSys p (DMounting (mkK i (mkCState (cs s) w) tt)) q m l t)
| d_index_fails p s now e w q m l t :
    loadIndex cfg now (wd s) = Fail e w →
    life_step (mkSys p (DIndex s) q m l t) (mkSys p (DExited None) (close_daemon q) m l t)
| d_mounts p k q m l t : life_step (mkSys p (DMounting k) q m l t) (mkSys p (DPidFile k) q true l t)
| d_mount_fails p k q m l t :
    life_step (mkSys p (DMounting k) q m l t) (mkSys p (DExited None) (close_daemon q) m l t)
| d_pid p k q m l t :
    life_step (mkSys p (DPidFile k) q m l t)
      (mkSys p (DAnnouncing (on_disk (os_WriteFile pid_path (pid_data pid mountpoint)) k)) q m l t)
| d_announces p k q m l t :
    life_step (mkSys p (DAnnouncing k) q m l t) (mkSys p (DServing k) (say_ready q) m l t)
| d_announce_fails p k q m l t :
    life_step (mkSys p (DAnnouncing k) q m l t) (mkSys p (DServing k) (close_daemon q) m l t)
| d_unmounts p k q m l t :
    life_step (mkSys p (DStopping k) q m l t) (mkSys p (DFlushing k true AtSave) q false l t)
| d_unmount_fails p k q m l t :
    life_step (mkSys p (DStopping k) q m l t) (mkSys p (DFlushing k false AtSave) q m l t)
| d_flush_call p k u pc pc' k' q m l t :
    ended pc = false → pstep cfg pc k = (pc', k') →
    life_step (mkSys p (DFlushing k u pc) q m l t) (mkSys p (DFlushing k' u pc') q m l t)
| d_flushed p k u pc q m l t :
    ended pc = true → life_step (mkSys p (DFlushing k u pc) q m l t) (mkSys p (DRemoving k u pc) q m l t)
| d_exits p k u pc q m l t :
    life_step (mkSys p (DRemoving k u pc) q m l t)
      (mkSys p (DExited (Some (on_disk (os_Remove pid_path) k, u, pc))) q false l t)
| d_ticker_panics p d k q m l t :
    serving_state d = Some k → ticking d = true → PersistInterval cfg <= 0 →
    life_step (mkSys p d q m l t) (mkSys p (DExited (Some (k, false, Panicked))) (close_daemon q) false l t).

(** SIGINT or SIGTERM. *)
Inductive signal_step : sys W → sys W → Prop :=
| d_signalled p k q m l t : signal_step (mkSys p (DServing k) q m l t) (mkSys p (DStopping k) q m l t).

(** A request of the kernel while the file system is mounted; a tick; a call of
    the ticker's goroutine in the persist function, which [cancel()] does not
    wait for, so that it may still go on when the daemon is on its way out. A
    request that changes the index does not come at the places of the persist
    function that do not bear it ([calm]), in either goroutine. *)
Inductive work_step : sys W → sys W → Prop :=
| d_request p d k r F' q l t :
    serving_state d = Some k → req_ok r (fusey_of cfg k) → serve r (fusey_of cfg k) = Some F' →
    nextSeq (cs (chunks F')) <= 10 ^ 8 →
    calm cfg t k (mkK (idx F') (chunks F') tt) → calm cfg (main_pc d) k (mkK (idx F') (chunks F') tt) →
    work_step (mkSys p d q true l t) (mkSys p (with_state (mkK (idx F') (chunks F') tt) d) q true l t)
| d_tick p d k q m l t :
    serving_state d = Some k → ticking d = true → 0 < PersistInterval cfg →
    work_step (mkSys p d q m l t) (mkSys p d q m l (tick k t))
| d_tick_call p d k k' q m l t t' :
    serving_state d = Some k → ticking d = true → ended t = false → pstep cfg t k = (t', k') →
    work_step (mkSys p d q m l t) (mkSys p (with_state k' d) q m l t').

Definition sys_step (s s' : sys W) : Prop := life_step s s' ∨ signal_step s s' ∨ work_step s s'.

Definition initial : sys W := mkSys PSetup DNone (mkPipe "" false false) false false Finished.
End processes.
