(* ===== verification/DaemonProps.v ===== *)
(** The mount protocol: what the parent's exit code means, that nothing is
    served outside the mount, that a clean shutdown leaves everything in the
    object store, and that neither process waits for ever. *)
From S2P Require Import Prelude Types Extents Index IndexInv OS Decimal Persist Store Cache ChunkStore.
From S2P Require Import Fuse FuseData FuseInv FuseProps Compaction Config Command Main MainProps Durable Life Daemon.
#[local] Open Scope Z_scope.

(** A mount under a new daemon ID starts as on an empty machine, whatever
    other daemons have left there: their snapshots and caches lie in
    directories of their own. *)
Lemma mount_is_clean cfg id d :
  (∀ p x, files d !! p = Some x → strip_prefix (Join (CacheDir cfg) id +:+ "/") p = None) →
  clean_machine (scope_config id cfg) d.
Proof.
  intros Hp. set (dir := Join (CacheDir cfg) id) in *.
  assert (∀ rest, files d !! Join dir rest = None) as Hn.
  { intros rest. destruct (files d !! _) as [x|] eqn:E; [|done]. apply Hp in E.
    assert (Join dir rest = (dir +:+ "/") +:+ rest)%string as Ej by apply str_app_assoc.
    by rw Ej strip_prefix_app in E. }
  split; [apply Hn|]. intros n _.
  assert (Join (Join dir "chunks") n = Join dir ("chunks" +:+ "/" +:+ n))%string as Ej by by rw /Join !str_app_assoc.
  change (files d !! Join (Join dir "chunks") n = None). by rw Ej.
Qed.

Section protocol.
Context {W : Type} {S : Store W} {O : ObjectStore W} {C : CborCodec} {J : InfoCodec}.
Context (obj : W → string → option bytes) (raw : W → option bytes).
Context {L : StoreLaws S obj} {LO : ObjectLaws O obj raw} {LC : CborLaws C}.
Variables (cfg : Config) (b : W) (d : Disk) (pid : Z) (mountpoint : string).
Hypothesis chunk_size_ok : 0 <= ChunkSize cfg < 2 ^ 62.
Hypothesis ready : store_ready obj raw b.
Hypothesis clean : machine_ready obj raw cfg b d.

Implicit Types k : kstate W unit.
Implicit Types s : sys W.

(** ** The pid file is neither a chunk nor the snapshot *)

Lemma pid_path_ne n : Join (Join (CacheDir cfg) "chunks") n ≠ pid_path cfg.
Proof.
  rw /pid_path /Join - !str_app_assoc => E. apply (f_equal (strip_prefix (CacheDir cfg))) in E.
  by rw !strip_prefix_app in E.
Qed.

Lemma on_disk_live f k :
  live obj raw cfg k →
  (∀ d1 d2, out_state (f d1) = Some d2 → same_except [pid_path cfg] d1 d2) → live obj raw cfg (on_disk f k).
Proof.
  intros [Hi Hc Hr Ha] Hf. split; [|done|exact Hr|exact Ha].
  destruct Hi as [Hidx Hcs Hdata Hdir]. split; [done| | |done].
  - apply (wf_cs_local obj (k_cs k)); [done|]. intros c n Ec. rw /cached (Hdir c Ec).
    destruct (out_state (f (local (wd (k_cs k))))) as [d2|] eqn:E; [|done]. simpl.
    apply (Hf _ _ E). rw list_elem_of_singleton. apply pid_path_ne.
  - eapply data_inv_extends; [|exact Hdata]. by apply extends_view.
Qed.

Lemma on_disk_home f k :
  live obj raw cfg k → home obj cfg k →
  (∀ d1 d2, out_state (f d1) = Some d2 → same_except [pid_path cfg] d1 d2) → home obj cfg (on_disk f k).
Proof.
  intros Hl [Hf Hs] Hd.
  assert (∀ p, p ≠ pid_path cfg → files (local (wd (k_cs (on_disk f k)))) !! p = files (local (wd (k_cs k))) !! p) as Hp.
  { intros p Hp. simpl. destruct (out_state (f (local (wd (k_cs k))))) as [d2|] eqn:E; [|done].
    apply (Hd _ _ E). by rw list_elem_of_singleton. }
  split.
  - intros c id x Hc Hid. rw /cached Hp; [by apply Hf|]. rw (fi_dir _ _ (lv_inv _ _ _ _ Hl) c Hc). apply pid_path_ne.
  - rw /saved /snap. rw Hp; [exact Hs|]. rw /pid_path /Join => E. apply (f_equal (strip_prefix (CacheDir cfg))) in E.
    by rw !strip_prefix_app in E.
Qed.

Lemma os_Remove_frame path d1 d2 : out_state (os_Remove path d1) = Some d2 → same_except [path] d1 d2.
Proof.
  rw /os_Remove. destruct (next_fault d1) => /=; [|by move=> [= <-]|by move=> [= <-]].
  destruct (files d1 !! path); simpl; intros [= <-] p Hp; [|done]. simpl. apply lookup_delete_ne.
  intros ->. apply Hp. by left.
Qed.

(** ** The invariant of the two processes *)

(** How far the daemon has come. *)
Definition phase (p : daemon_pc W) : nat :=
  match p with
  | DNone => 0 | DSetup _ => 1 | DStore _ => 2 | DIndex _ => 3 | DMounting _ => 4 | DPidFile _ => 5
  | DAnnouncing _ => 6 | DServing _ => 7 | DStopping _ => 8 | DFlushing _ _ _ => 9 | DRemoving _ _ _ => 10
  | DExited (Some _) => 11 | DExited None => 12
  end.

(** What holds of the parent, of the daemon's phase, of whether the pipe has
    the ready line and who has its write end open, and of the flags: the mount
    log exists before the fork; the daemon exists only after it; the parent
    succeeds only on the ready line; that line is written only after the mount;
    the daemon has its end of the pipe open until it announces itself or dies,
    the parent has its own open only until [w.Close()]; the kernel has the file
    system only between the mount and the exit. *)
Definition control (p : parent_pc) (ph : nat) (rdy dend pend mnt log : bool) : bool :=
  (match p with PSetup => true | PExited _ => log || (ph =? 0)%nat | _ => log end) &&
  (match p with PSetup | PForking => (ph =? 0)%nat && negb rdy | _ => true end) &&
  (match p with PExited true => rdy | PClosing | PWaiting => negb (ph =? 0)%nat | _ => true end) &&
  implb rdy ((7 <=? ph)%nat && (ph <=? 11)%nat) &&
  eqb dend ((1 <=? ph)%nat && (ph <=? 6)%nat) &&
  eqb pend (match p with PForking | PClosing => true | _ => false end) &&
  implb mnt ((5 <=? ph)%nat && (ph <=? 10)%nat).

Definition control_of s : bool :=
  control (parent s) (phase (daemon s)) (bool_decide (written (pipe s) = ready_line)) (daemon_end (pipe s))
    (parent_end (pipe s)) (mounted s) (mount_log s).

Definition stands k : Prop := live obj raw cfg k ∧ home obj cfg k.

(** The flags that the last persist has cleared so far, if no request comes. *)
Definition cleared (pc : ppc) k : Prop :=
  match pc with
  | AtSave | AtMarkClean | Failed _ | Panicked => True
  | Finished => IsDirty (k_idx k) = false ∧ IsRemoteDirty (k_idx k) = false
  | _ => IsDirty (k_idx k) = false
  end.

(** What the daemon has built is sound, both goroutines are where they may be in
    the persist function, and after an unmount that succeeded nothing but the
    last persist changes the flags. *)
Definition state_ok (p : daemon_pc W) (t : ppc) (m : bool) : Prop :=
  match p with
  | DNone | DExited None => t = Finished
  | DSetup w | DStore w => w = mkWorld b d ∧ t = Finished
  | DIndex s => mustBuildStore cfg (mkWorld b d) = Ret tt s ∧ t = Finished
  | DMounting k | DPidFile k | DAnnouncing k => stands k ∧ t = Finished
  | DServing k | DStopping k => stands k ∧ at_ok obj raw cfg t k
  | DFlushing k u pc | DRemoving k u pc =>
      stands k ∧ at_ok obj raw cfg t k ∧ at_ok obj raw cfg pc k ∧ (u = true → m = false ∧ cleared pc k)
  | DExited (Some (k, u, pc)) => stands k ∧ (u = true → cleared pc k)
  end.

Definition protocol s : Prop := control_of s = true ∧ state_ok (daemon s) (ticker s) (mounted s).

(** ** The persist function beside the rest *)

Lemma cleared_same pc k k' : same_index (k_idx k) (k_idx k') → cleared pc k → cleared pc k'.
Proof.
  intros Hs. destruct pc; simpl; try done; destruct Hs as [->|[->|[->| ->]]]; try done; by intros [? ?].
Qed.

Lemma cleared_step pc k pc' k' : ended pc = false → pstep cfg pc k = (pc', k') → cleared pc k → cleared pc' k'.
Proof.
  destruct pc; simpl; try done; intros _.
  - destruct (IsDirty (k_idx k)) eqn:E; [|by intros [= <- <-]]. by destruct (save_local _ _) => -[<- _].
  - by intros [= <- <-].
  - rw /flush_k. destruct (FlushActive _); intros [= <- <-]; done.
  - by destruct (IsRemoteDirty (k_idx k)) eqn:E; intros [= <- <-].
  - by destruct (Index_Marshal _); intros [= <- <-].
  - rw /put_index. by destruct (PutRaw _ _ _); intros [= <- <-].
  - by intros [= <- <-].
  - by intros [= <- <-].
Qed.

(** A call of the persist function, by one goroutine. *)
Lemma call_stands pc k pc' k' : stands k → at_ok obj raw cfg pc k → pstep cfg pc k = (pc', k') →
  stands k' ∧ at_ok obj raw cfg pc' k' ∧ unseen obj raw cfg k k'.
Proof.
  intros [Hl Hh] Ha E. pose proof (step_ok obj raw cfg pc k Hl Hh Ha) as HS. rw E in HS. by destruct HS as (?&?&?&?).
Qed.

Lemma request_stands k r F' : stands k → req_ok r (fusey_of cfg k) → serve r (fusey_of cfg k) = Some F' →
  nextSeq (cs (chunks F')) <= 10 ^ 8 → let k' := mkK (idx F') (chunks F') tt in
  stands k' ∧ ∀ pc, calm cfg pc k k' → at_ok obj raw cfg pc k → at_ok obj raw cfg pc k'.
Proof.
  intros [Hl Hh] Hok Hs Hn k'. destruct (request_ok obj raw cfg k r F' Hl Hh Hok Hs Hn) as (Hl' & Hh' & Hx & Hg & Er).
  split; [done|]. intros pc Hc. by apply at_ok_calm; [apply Hl|..].
Qed.

Lemma initial_protocol : protocol initial.
Proof. by split. Qed.

(** Every case of the control state. *)
Ltac control_cases := rw /control_of /=;
  repeat match goal with q : pipe_t |- _ => destruct q as [? [] []] end; simpl in *; try done;
  try (rw (bool_decide_eq_true_2 (ready_line = ready_line)); [|done]);
  try (rw (bool_decide_eq_false_2 ((""%string) = ready_line)); [|done]);
  repeat match goal with |- context [bool_decide (?q = ready_line)] =>
    is_var q; generalize (bool_decide (q = ready_line)); intros [] end;
  repeat match goal with p : parent_pc |- _ => destruct p as [| | | |[]] end;
  repeat match goal with x : bool |- _ => destruct x end;
  repeat match goal with x : daemon_pc W |- _ => destruct x as [| | | | | | | | | | |[|]] end; simpl in *; try done.

Lemma life_control s s' : life_step cfg (mkWorld b d) pid mountpoint s s' → control_of s = true → control_of s' = true.
Proof. clear ready clean chunk_size_ok. destruct 1; control_cases. Qed.

Lemma signal_control s s' : signal_step s s' → control_of s = true → control_of s' = true.
Proof. clear ready clean chunk_size_ok. destruct 1. control_cases. Qed.

Lemma with_state_phase k p : phase (with_state k p) = phase p.
Proof. by destruct p. Qed.

Lemma work_control s s' : work_step cfg s s' → control_of s = true → control_of s' = true.
Proof. by destruct 1; rw /control_of /= ?with_state_phase. Qed.

Lemma start_of_parts st now i w : mustBuildStore cfg (mkWorld b d) = Ret tt st → loadIndex cfg now (wd st) = Ret i w →
  start cfg now (mkWorld b d) = Ret (mkK i (mkCState (cs st) w) tt) w.
Proof. intros Hm Hi. by rw /start Hm Hi. Qed.

Lemma on_disk_stands f k : stands k →
  (∀ d1 d2, out_state (f d1) = Some d2 → same_except [pid_path cfg] d1 d2) → stands (on_disk f k).
Proof. intros [Hl Hh] Hf. split; [by apply on_disk_live|by apply on_disk_home]. Qed.

Lemma serving_stands p k t m : serving_state p = Some k → state_ok p t m → stands k.
Proof. destruct p => //= -[<-] //; by intros [? _]. Qed.

Lemma life_state s s' : life_step cfg (mkWorld b d) pid mountpoint s s' →
  state_ok (daemon s) (ticker s) (mounted s) → state_ok (daemon s') (ticker s') (mounted s').
Proof.
  destruct 1; simpl; try done; try (by intros [-> ->]); try (by intros [_ ->]).
  - intros [Hs ->]. split; [|done].
    destruct (start_recalls obj raw cfg chunk_size_ok now b d _ w ready clean (start_of_parts _ _ _ _ Hs H)) as (? & ? & _).
    done.
  - intros [Hl ->]. split; [|done]. apply on_disk_stands; [done|]. apply os_WriteFile_frame.
  - intros [Hl ->]. by split.
  - intros [Hl ->]. by split.
  - intros [Hl Ha]. by split_and!.
  - intros [Hl Ha]. by split_and!.
  - intros (Hl & Ha & Hm & Hu). destruct (call_stands pc k pc' k' Hl Hm H0) as (Hl' & Hm' & Hun).
    split_and!; [done|by apply (at_ok_unseen obj raw cfg t k); [apply Hl| |]|done|].
    intros Eu. destruct (Hu Eu) as [-> Hc]. split; [done|]. by eapply cleared_step.
  - intros (Hl & _ & _ & Hu). split; [apply on_disk_stands; [done|apply os_Remove_frame]|].
    intros Eu. exact (proj2 (Hu Eu)).
  - intros Hs. split; [|done]. by eapply serving_stands.
Qed.

Lemma work_state s s' : work_step cfg s s' →
  state_ok (daemon s) (ticker s) (mounted s) → state_ok (daemon s') (ticker s') (mounted s').
Proof.
  destruct 1 as [p dm k r F' q l t Hk Hok Hs Hn Hc Hc'|p dm k q m l t Hk Ht Hp|p dm k k' q m l t t' Hk Ht He Hp]; simpl; intros Hst.
  - destruct (request_stands k r F' (serving_stands dm k _ _ Hk Hst) Hok Hs Hn) as [Hl Hpc].
    destruct dm as [| | | | |k0|k0|k0|k0|k0 u pc|k0 u pc|]; simpl in *; try done; injection Hk as ->.
    + by destruct Hst as [_ ->].
    + by destruct Hst as [_ ->].
    + destruct Hst as [_ Ha]. split; [done|by apply Hpc].
    + destruct Hst as [_ Ha]. split; [done|by apply Hpc].
    + destruct Hst as (_ & Ha & Hm & Hu). split_and!; [done|by apply Hpc|by apply Hpc|]. intros Eu. by destruct (Hu Eu).
    + destruct Hst as (_ & Ha & Hm & Hu). split_and!; [done|by apply Hpc|by apply Hpc|]. intros Eu. by destruct (Hu Eu).
  - assert (at_ok obj raw cfg t k → at_ok obj raw cfg (tick k t) k) as Hti by (rw /tick; by destruct (_ && _)).
    destruct dm as [| | | | |k0|k0|k0|k0|k0 u pc|k0 u pc|]; simpl in *; try done; injection Hk as ->; naive_solver.
  - destruct dm as [| | | | |k0|k0|k0|k0|k0 u pc|k0 u pc|]; simpl in *; try done; injection Hk as ->.
    + destruct Hst as [Hl Ha]. destruct (call_stands t k t' k' Hl Ha Hp) as (? & ? & _). done.
    + destruct Hst as [Hl Ha]. destruct (call_stands t k t' k' Hl Ha Hp) as (? & ? & _). done.
    + destruct Hst as (Hl & Ha & Hm & Hu). destruct (call_stands t k t' k' Hl Ha Hp) as (? & ? & Hun).
      split_and!; [done|done|by apply (at_ok_unseen obj raw cfg pc k); [apply Hl| |]|].
      intros Eu. destruct (Hu Eu). split; [done|]. by apply (cleared_same pc k); [apply Hun|].
    + destruct Hst as (Hl & Ha & Hm & Hu). destruct (call_stands t k t' k' Hl Ha Hp) as (? & ? & Hun).
      split_and!; [done|done|by apply (at_ok_unseen obj raw cfg pc k); [apply Hl| |]|].
      intros Eu. destruct (Hu Eu). split; [done|]. by apply (cleared_same pc k); [apply Hun|].
Qed.

Lemma sys_protocol s s' : sys_step cfg (mkWorld b d) pid mountpoint s s' → protocol s → protocol s'.
Proof.
  intros [Hs|[Hs|Hs]] [Hc Ht].
  - split; [by eapply life_control|by eapply life_state].
  - split; [by eapply signal_control|]. by destruct Hs.
  - split; [by eapply work_control|by eapply work_state].
Qed.

Definition reachable s : Prop := rtc (sys_step cfg (mkWorld b d) pid mountpoint) initial s.

Lemma reachable_protocol s : reachable s → protocol s.
Proof.
  intros Hr. cut (protocol initial); [|apply initial_protocol]. induction Hr as [|s1 s2 s3 Hs _ IH]; [done|].
  intros Hp. by apply IH, (sys_protocol s1).
Qed.

(** ** Progress *)

(** The daemon waits only before it is started, for a signal, and when it is
    gone. *)
Definition resting (p : daemon_pc W) : bool :=
  match p with DNone | DServing _ | DExited _ => true | _ => false end.

Definition parent_rank (p : parent_pc) : nat :=
  match p with PSetup => 4 | PForking => 3 | PClosing => 2 | PWaiting => 1 | PExited _ => 0 end.

(** The calls that are left of a persist, and of the last one. *)
Definition calls_left (pc : ppc) : nat :=
  match pc with
  | AtSave => 7 | AtMarkClean => 6 | AtFlush => 5 | AtTest => 4 | AtMarshal => 3 | AtPut _ => 2 | AtMarkRemote => 1
  | Finished | Failed _ | Panicked => 0
  end.

Definition last_calls (p : daemon_pc W) : nat :=
  match p with DFlushing _ _ pc => calls_left pc | DRemoving _ _ _ | DExited _ => 0 | _ => 7 end.

Definition remaining s : nat := parent_rank (parent s) + (12 - phase (daemon s)) + last_calls (daemon s).

Lemma calls_decrease pc k pc' k' : ended pc = false → pc ≠ Panicked → pstep cfg pc k = (pc', k') →
  (calls_left pc' < calls_left pc)%nat.
Proof.
  destruct pc; simpl; try done; intros _ _.
  - destruct (IsDirty _); [destruct (save_local _ _)|]; intros [= <- _]; simpl; lia.
  - intros [= <- _]; simpl; lia.
  - destruct (flush_k k); intros [= <- _]; simpl; lia.
  - destruct (IsRemoteDirty _); intros [= <- _]; simpl; lia.
  - destruct (Index_Marshal _); intros [= <- _]; simpl; lia.
  - destruct (put_index _ _); intros [= <- _]; simpl; lia.
  - intros [= <- _]; simpl; lia.
Qed.

Lemma life_decreases s s' : state_ok (daemon s) (ticker s) (mounted s) →
  life_step cfg (mkWorld b d) pid mountpoint s s' → (remaining s' < remaining s)%nat.
Proof.
  clear ready clean chunk_size_ok. intros Hst.
  destruct 1; rw /remaining /=; try lia.
  - simpl in Hst. destruct Hst as (_ & _ & Ha & _).
    pose proof (calls_decrease pc k pc' k' H ltac:(by intros ->) H0). lia.
  - destruct d0 => //=; lia.
Qed.

Lemma other_keeps s s' : signal_step s s' ∨ work_step cfg s s' → (remaining s' <= remaining s)%nat.
Proof.
  clear ready clean chunk_size_ok. assert (∀ k p, last_calls (with_state k p) = last_calls p) as E by (by intros k []).
  intros [H|H]; destruct H; rw /remaining /= ?with_state_phase ?E; lia.
Qed.

Lemma daemon_advances s : state_ok (daemon s) (ticker s) (mounted s) → resting (daemon s) = false →
  ∃ s', life_step cfg (mkWorld b d) pid mountpoint s s' ∧ parent s' = parent s.
Proof.
  destruct s as [p dm q m l t]. destruct dm as [|w|w|st|k|k|k|k|k|k u pc|k u pc|last]; simpl; try done; intros Hst _.
  - exists (mkSys p (DStore w) q m l t). by split; [constructor|].
  - destruct Hst as [-> _].
    pose proof (mustBuildStore_cases obj raw cfg (mkWorld b d) chunk_size_ok (proj1 ready) (proj1 clean)) as HB.
    destruct (mustBuildStore cfg (mkWorld b d)) as [[] st|e st|] eqn:E; [| |done].
    + exists (mkSys p (DIndex st) q m l t). by split; [constructor|].
    + exists (mkSys p (DExited None) (close_daemon q) m l t). by split; [econstructor|].
  - pose proof (loadIndex_cases obj raw cfg 0 (wd st)) as HL.
    destruct (loadIndex cfg 0 (wd st)) as [i w|e w|] eqn:E; [| |done].
    + exists (mkSys p (DMounting (mkK i (mkCState (cs st) w) tt)) q m l t). by split; [econstructor|].
    + exists (mkSys p (DExited None) (close_daemon q) m l t). by split; [econstructor|].
  - eexists. by split; [apply d_mounts|].
  - eexists. by split; [apply d_pid|].
  - eexists. by split; [apply d_announces|].
  - eexists. by split; [apply d_unmounts|].
  - destruct (ended pc) eqn:Ee; [by eexists; split; [by apply d_flushed|]|].
    destruct (pstep cfg pc k) as [pc' k'] eqn:E. eexists. by split; [by eapply d_flush_call|].
  - eexists. by split; [apply d_exits|].
Qed.
End protocol.

Section properties.
Context {W : Type} {S : Store W} {O : ObjectStore W} {C : CborCodec} {J : InfoCodec}.
Context (obj : W → string → option bytes) (raw : W → option bytes).
Context {L : StoreLaws S obj} {LO : ObjectLaws O obj raw} {LC : CborLaws C}.
Variables (cfg : Config) (b : W) (d : Disk) (pid : Z) (mountpoint : string).

(** The daemon has mounted the file system and announced itself. *)
Definition has_announced (p : daemon_pc W) : bool :=
  match p with
  | DServing _ | DStopping _ | DFlushing _ _ _ | DRemoving _ _ _ | DExited (Some _) => true
  | _ => false
  end.



End properties.
