(* ===== verification/MainDemo.v ===== *)
(** The command on a concrete object store, a directory store with the index
    object in a directory of its own: the hypotheses of MainProps.v hold
    there, and two interleavings of the persist function with requests show
    what the sequential theorems do not cover. *)
From S2P Require Import Prelude Types Extents Index IndexInv IndexProps OS Decimal Persist Store Cache ChunkStore.
From S2P Require Import ChunkProps Fuse FuseData FuseInv FuseProps FuseWitness Compaction CompactProps CompactWitness.
From S2P Require Import Config Main MainProps.
From Stdlib Require Import Floats.SpecFloat.
#[local] Open Scope Z_scope.

#[local] Existing Instance demo_store.
#[local] Existing Instance demo_laws.
#[local] Existing Instance count_codec.

(** ** An object store *)

#[local] Instance demo_object : ObjectStore Disk := {|
  PutRaw key data d := LocalStore.Put "meta" key data d;
  GetRaw key d :=
    match os_ReadFile (Join "meta" key) d with
    | Ret data d => Ret data d
    | Fail ErrNotExist d => Fail ErrNotFound d
    | Fail ErrIO d => Fail ErrStore d
    | Crash => Crash
    end;
  IndexKey := "index";
|}.

Definition demo_raw (d : Disk) : option bytes := files d !! Join "meta" "index".

Lemma LocalPut_frame dir id data d :
  match LocalStore.Put dir id data d with
  | Ret _ d' | Fail _ d' => same_except [Join dir id; tmp_name (Join dir id)] d d'
  | Crash => False
  end.
Proof.
  rw /LocalStore.Put /LocalStore.path. set p := Join dir id.
  destruct (os_WriteFile (tmp_name p) data d) as [u d1|e d1|] eqn:E1; last first.
  { revert E1. rw /os_WriteFile. by destruct (next_fault d). }
  { move=> x Hx. apply (os_WriteFile_frame (tmp_name p) data d); [by rw E1|set_solver]. }
  apply os_WriteFile_ret in E1.
  destruct (os_Rename (tmp_name p) p d1) as [u2 d2|e2 d2|] eqn:E2; last first.
  { revert E2. rw /os_Rename. destruct (next_fault d1) => //=. by destruct (files d1 !! _). }
  { apply os_Rename_fail in E2. move=> x Hx. rw E2 E1 lookup_insert_ne //. set_solver. }
  apply os_Rename_ret in E2 as (data' & _ & E2). move=> x Hx. rw E2.
  rw lookup_insert_ne; [|set_solver]. rw lookup_delete_ne; [|set_solver].
  rw E1 lookup_insert_ne //. set_solver.
Qed.

Lemma LocalGet_files dir id off n d :
  match LocalStore.GetRange dir id off n d with Ret _ d' | Fail _ d' => files d' = files d | Crash => True end.
Proof.
  rw /LocalStore.GetRange /os_ReadAt /os_ReadFile. destruct (next_fault d) => //=.
  destruct (files d !! _) => //=. by repeat case_match; simplify_eq/=.
Qed.

Lemma demo_paths id n :
  (Join "meta" "index" ∉ [Join "store" id; tmp_name (Join "store" id)]) ∧
  (Join "store" n ∉ [Join "meta" "index"; tmp_name (Join "meta" "index")]).
Proof. split; rw !not_elem_of_cons; (split_and!; [done|done|apply not_elem_of_nil]). Qed.

#[local] Instance demo_object_laws : ObjectLaws demo_object demo_obj demo_raw.
Proof.
  split.
  - move=> id data w _. change (Put id data w) with (LocalStore.Put "store" id data w).
    pose proof (LocalPut_frame "store" id data w) as H.
    destruct (LocalStore.Put _ _ _ _) => //; apply H; by destruct (demo_paths id "").
  - move=> id off n w _. change (GetRange id off n w) with (LocalStore.GetRange "store" id off n w).
    pose proof (LocalGet_files "store" id off n w) as H.
    by destruct (LocalStore.GetRange _ _ _ _ _); rw /demo_raw ?H.
  - move=> id w _. change (Delete id w) with (LocalStore.Delete "store" id w).
    rw /LocalStore.Delete /os_Remove /LocalStore.path.
    destruct (next_fault w) => //=. rw /demo_raw /=. destruct (files w !! Join "store" id) => //=.
    apply lookup_delete_ne. destruct (demo_paths id "") as [H _]. set_solver.
  - move=> id w _. change (Size id w) with (LocalStore.Size "store" id w).
    rw /LocalStore.Size /os_Stat_Size /os_ReadFile. destruct (next_fault w) => //=.
    by destruct (files w !! _).
  - move=> w. change (List w) with (LocalStore.List "store" w). rw /LocalStore.List.
    by destruct (next_fault w).
  - move=> data w. change (PutRaw IndexKey data w) with (LocalStore.Put "meta" "index" data w).
    pose proof (LocalPut_frame "meta" "index" data w) as H.
    pose proof (Put_law (StoreLaws:=LocalStore.laws "meta") "index" data w eq_refl) as HP.
    change (Store.Put "index" data w) with (LocalStore.Put "meta" "index" data w) in HP.
    destruct (LocalStore.Put _ _ _ _) as [u w'|e w'|] => //.
    + split; [exact (HP "index" eq_refl)|]. move=> n _. apply H. by destruct (demo_paths "" n).
    + split; [apply HP|]. move=> n _. apply H. by destruct (demo_paths "" n).
  - move=> w. change (GetRaw IndexKey w) with
      (match os_ReadFile (Join "meta" "index") w with
       | Ret data d => Ret data d | Fail ErrNotExist d => Fail ErrNotFound d
       | Fail ErrIO d => Fail ErrStore d | Crash => Crash end).
    rw /os_ReadFile. destruct (next_fault w) => //.
    change (files (pop_fault w)) with (files w).
    destruct (files w !! Join "meta" "index") eqn:E; by split_and!.
Qed.

(** ** A daemon *)

Definition demo_cfg : Config :=
  mkConfig 4 4096 100 "cache" "bucket" "" "us-east-1" "" "" false "" "" "X-SESSION-API-KEY" ""
    (SFdiv 53 1024 (float64 1) (float64 2)) (30 * 10 ^ 9) true.

(** The file system with one file of two bytes, as the daemon holds it. *)
Definition demo_daemon : kstate Disk unit := mkK (idx demo_written) (chunks demo_written) tt.

Lemma demo_daemon_inv : k_inv demo_obj demo_cfg demo_daemon.
Proof. exact demo_written_inv. Qed.

(** The machine on which it is started again: nothing on the local disk. *)
Definition elsewhere (k : kstate Disk unit) : world Disk := mkWorld (backing (wd (k_cs k))) (mkDisk ∅ []).

Lemma persistFn_publishes_witness :
  match persistFn demo_cfg demo_daemon with
  | Ret _ k' => published demo_obj demo_raw demo_daemon k'
  | _ => False
  end.
Proof.
  pose proof (persistFn_publishes demo_obj demo_raw demo_cfg demo_daemon demo_daemon_inv) as H.
  assert (match persistFn demo_cfg demo_daemon with Ret _ _ => true | _ => false end = true) as Hr
    by (vm_compute; reflexivity).
  destruct (persistFn demo_cfg demo_daemon) as [u k'|e k'|]; [|discriminate..].
  destruct H as (_ & _ & _ & _ & _ & Hp & _). exact Hp.
Defined.

Lemma remote_restart_witness :
  ∃ k' k2 w, persistFn demo_cfg demo_daemon = Ret tt k' ∧ start demo_cfg 9 (elsewhere k') = Ret k2 w ∧
    k_idx k2 = reloaded (k_idx demo_daemon) 4096 ∧
    file_content demo_obj (fusey_of demo_cfg k2) 2 1 =
      file_content demo_obj (fusey_of demo_cfg demo_daemon) 2 1.
Proof.
  assert (match persistFn demo_cfg demo_daemon with
    | Ret _ k' => match start demo_cfg 9 (elsewhere k') with Ret _ _ => true | _ => false end
    | _ => false end = true) as Hr by (vm_compute; reflexivity).
  destruct (persistFn demo_cfg demo_daemon) as [[] k'|e k'|] eqn:E1; [|discriminate..].
  destruct (start demo_cfg 9 (elsewhere k')) as [k2 w|e w|] eqn:E2; [|discriminate..].
  exists k', k2, w. split; [reflexivity|]. split; [exact E2|].
  assert (IsRemoteDirty (k_idx demo_daemon) = true) as Hd by by vm_compute.
  assert (loadable (k_idx demo_daemon) = true) as Hld by by vm_compute.
  assert (nextSeq (cs (k_cs demo_daemon)) <= 10 ^ 8) as Hq by by vm_compute.
  assert (0 <= ChunkSize demo_cfg < 2 ^ 62) as Hz by (simpl; lia).
  pose proof (remote_restart demo_obj demo_raw (LO:=demo_object_laws) (CborLaws0:=count_codec_laws)
    demo_cfg demo_daemon k' (mkDisk ∅ []) 9
    demo_daemon_inv demo_written_canonical Hld Hd Hz Hq E1 (lookup_empty _) (fun n _ => lookup_empty _)) as H.
  change (mkWorld (backing (wd (k_cs k'))) (mkDisk ∅ [])) with (elsewhere k') in H. rw E2 in H.
  destruct H as (H1 & _ & H2). split; [exact H1|]. exact (H2 2 1).
Defined.

(** An empty object store and no local snapshot. *)
Lemma loadIndex_priority_witness :
  match loadIndex demo_cfg 9 demo_world with Ret i _ => i = New 4096 9 | _ => False end.
Proof.
  pose proof (loadIndex_priority demo_obj demo_raw demo_cfg 9 demo_world) as H.
  assert (match loadIndex demo_cfg 9 demo_world with Ret _ _ => true | _ => false end = true) as Hr
    by (vm_compute; reflexivity).
  destruct (loadIndex demo_cfg 9 demo_world) as [i w|e w|]; [|discriminate..].
  destruct H as [H _]. exact H.
Defined.

(** A sealed chunk of which no byte is live any more. *)
Definition demo_garbage : kstate Disk unit := mkK (New 4096 0) demo_sealed tt.

Lemma Compact_never_moves_witness :
  match Compact demo_clock [] (compactor_of demo_cfg) demo_garbage with
  | Ret _ k' => extents (k_idx k') = ∅
  | _ => False
  end.
Proof.
  assert (match Compact demo_clock [] (compactor_of demo_cfg) demo_garbage with
    | Ret _ _ => true | _ => false end = true) as Hr by (vm_compute; reflexivity).
  destruct (Compact demo_clock [] (compactor_of demo_cfg) demo_garbage) as [[] k'|e k'|] eqn:E;
    [|discriminate..].
  exact (proj1 (Compact_never_moves demo_clock demo_cfg [] demo_garbage k' (Permutation_refl []) E)).
Defined.

(** ** Races *)

(** A write after the flush and before the index is marshalled. *)
Definition race_write : list pevent :=
  [Step; Step; Step; Step; Req (RWrite 2 cde 2 9); Step; Step; Step].

(** A race in the persist function. With a write between the flush of the
    active chunk and the snapshot of the index, the persist function finishes
    without an error and clears the remote dirty flag, and the index object
    names a chunk that the object store does not have: on another machine the
    written bytes are lost, and the file cannot be read. *)
Theorem persist_race_dangling :
  match interleave demo_cfg race_write (AtSave, demo_daemon) with
  | Some (Finished, k') =>
      IsRemoteDirty (k_idx k') = false ∧
      match start demo_cfg 9 (elsewhere k') with
      | Ret k2 _ =>
          extents (k_idx k2) !! 2 = Some [Extent.mk "chunk-00000000" 0 2 0; Extent.mk "chunk-00000001" 0 3 2] ∧
          demo_obj (backing (wd (k_cs k2))) "chunk-00000001" = None ∧
          match FileHandle_Read 2 5 0 9 (fusey_of demo_cfg k2) with Fail e _ => e = EIO | _ => False end
      | _ => False
      end
  | _ => False
  end.
Proof. vm_compute. split_and!; reflexivity. Qed.

(** A file created after the index was marshalled and before the flag is
    cleared. *)
Definition race_create : list pevent :=
  [Step; Step; Step; Step; Step; Req (RCreate RootIno "g" 0x1A4 None 9); Step; Step].

(** Another race. A change between the snapshot of the index and the
    clearing of the remote dirty flag loses its flag: the persist function
    that the daemon runs at shutdown then returns without writing the index
    object, and the file that was created is missing on the next machine. *)
Theorem persist_race_lost_update :
  match interleave demo_cfg race_create (AtSave, demo_daemon) with
  | Some (Finished, k1) =>
      match persistFn demo_cfg k1 with
      | Ret _ k2 =>
          match start demo_cfg 9 (elsewhere k2) with
          | Ret k3 _ => dir_lookup (k_idx k2) RootIno "g" = Some 3 ∧ dir_lookup (k_idx k3) RootIno "g" = None
          | _ => False
          end
      | _ => False
      end
  | _ => False
  end.
Proof. vm_compute. split_and!; reflexivity. Qed.
