(* ===== verification/MachineDemo.v ===== *)
(** What is left on a machine, and what a later run of the command makes of
    it: runs on a concrete store that lie outside the hypotheses of
    Session.v. The daemons are scoped to a directory of their own as [runDaemon]
    does it; [runCompact] works in the directory above. *)
From S2P Require Import Prelude Types Extents Index IndexInv OS Decimal Persist Store Cache ChunkStore.
From S2P Require Import ChunkProps Fuse FuseData FuseInv FuseProps FuseWitness Compaction CompactWitness.
From S2P Require Import Config Command Main MainProps Daemon MainDemo.
#[local] Open Scope Z_scope.

#[local] Existing Instance demo_store.
#[local] Existing Instance count_codec.
#[local] Existing Instance demo_object.

Definition daemon_cfg (id : string) : Config := scope_config id demo_cfg.

(** The requests of a daemon, one after the other. *)
Definition requests (cfg : Config) (rs : list request) (k : kstate Disk unit) : option (kstate Disk unit) :=
  foldl (fun ok r => k ← ok; with_fusey cfg (serve r) k) (Some k) rs.

(** A daemon that starts and answers requests. *)
Definition serving (id : string) (rs : list request) (w : world Disk) : option (kstate Disk unit) :=
  match start (daemon_cfg id) 1 w with Ret k _ => requests (daemon_cfg id) rs k | _ => None end.

(** A new file, and what it holds. *)
Definition put_file (name : string) (ino : Z) (data : bytes) : list request :=
  [RCreate RootIno name 0x1A4 None 9; RWrite ino data 0 9].

(** A daemon that serves, and persists before it stops. *)
Definition daemon_life (id : string) (rs : list request) (w : world Disk) : option (world Disk) :=
  k ← serving id rs w;
  match persistFn (daemon_cfg id) k with Ret _ k => Some (wd (k_cs k)) | _ => None end.

Definition compact_on (order : list Z) (w : world Disk) : option (world Disk) :=
  match runCompact demo_cfg 5 demo_clock order w with Ret _ w => Some w | _ => None end.

(** The first six bytes of a file. *)
Definition read_in (cfg : Config) (ino : Z) (k : kstate Disk unit) : option (bytes + Errno) :=
  match FileHandle_Read ino 6 0 9 (fusey_of cfg k) with
  | Ret b _ => Some (inl b) | Fail e _ => Some (inr e) | Crash => None
  end.

Definition read_after (id : string) (ino : Z) (w : world Disk) : option (bytes + Errno) :=
  k ← serving id [] w; read_in (daemon_cfg id) ino k.

(** ** Two compactions on one machine *)

Definition before_second : option (world Disk) :=
  w ← daemon_life "a" (put_file "f" 2 ab) demo_world;
  w ← compact_on [2] w;
  daemon_life "b" (put_file "g" 3 cde) w.

(** A second compaction on the same machine rolls the file system back. The
    first one leaves its snapshot in the cache directory, where [loadIndex]
    prefers it to the index object; the second one takes the chunks that were
    written since for garbage, deletes them, and publishes the old index. A
    file that the next daemon could read before is gone after it. *)
Theorem compact_twice_rolls_back :
  match before_second with
  | Some w => read_after "c" 3 w = Some (inl cde) ∧
      match compact_on [2] w with
      | Some w' => read_after "c" 3 w' = Some (inr ENOENT) ∧ read_after "c" 2 w' = Some (inl ab) ∧
          demo_obj (backing w') "chunk-00000001" = None
      | None => False
      end
  | None => False
  end.
Proof. vm_compute. split_and!; reflexivity. Qed.

(** ** A compaction beside a daemon *)

(** A daemon has sealed a chunk and not yet persisted its index. *)
Definition before_persist : option (kstate Disk unit) :=
  serving "a" (put_file "f" 2 cde ++ [RWrite 2 cde 3 9]) demo_world.

(** A compaction that runs meanwhile, on another machine, deletes the chunk:
    no index object names it. The daemon then persists without an error, and
    the next daemon cannot read the file. *)
Theorem compact_beside_daemon_loses :
  match before_persist with
  | Some k => read_in (daemon_cfg "a") 2 k = Some (inl (cde ++ cde)) ∧
      match compact_on [] (elsewhere k) with
      | Some w =>
          match persistFn (daemon_cfg "a") (set_backing (backing w) k) with
          | Ret _ k' => read_after "b" 2 (wd (k_cs k')) = Some (inr EIO)
          | _ => False
          end
      | None => False
      end
  | None => False
  end.
Proof. vm_compute. split; reflexivity. Qed.

(** ** A persist that fails half way *)

(** The store is unreachable when the daemon persists for the last time. *)
Definition half_persisted : option (world Disk) :=
  k ← serving "a" (put_file "f" 2 ab) demo_world;
  match persistFn (daemon_cfg "a") (set_backing (mkDisk (files (backing (wd (k_cs k)))) [FaultNow]) k) with
  | Fail (FlushErr _) k => Some (wd (k_cs k))
  | _ => None
  end.

(** The local snapshot does not make up for a failed write to the store. The
    next mount on that machine draws another daemon ID and does not look at
    it; a daemon with the same ID finds the file but not its bytes, which were
    only in memory, and when it writes another file under the chunk id that was
    not stored, the first file shows the bytes of the second. *)
Theorem failed_persist_not_recovered :
  match half_persisted with
  | Some w => files (local w) !! Join (Join (CacheDir demo_cfg) "a") snapshotFile ≠ None ∧
      read_after "b" 2 w = Some (inr ENOENT) ∧ read_after "a" 2 w = Some (inr EIO) ∧
      (k ← serving "a" (put_file "g" 3 cde) w; read_in (daemon_cfg "a") 2 k) = Some (inl [Byte.x63; Byte.x64])
  | None => False
  end.
Proof. vm_compute. split_and!; [discriminate|reflexivity..]. Qed.
