(* ===== verification/S3Demo.v ===== *)
(** A bucket on which the hypotheses of S3Props.v hold, listed two keys at a
    time, with calls that can fail before or after their effect; and what
    sharing a bucket does when one prefix begins another. *)
From S2P Require Import Prelude Types Index OS Decimal Persist Store Broker BrokerProps BrokerService S3 S3Props.
From S2P Require Import Cache ChunkStore Fuse Compaction CompactWitness Config Main MainDemo.
#[local] Open Scope Z_scope.

Definition s3_failed : S3Err := mkS3Err false (Some 500).

(** A call through a network that can lose it or its answer. *)
Definition s3_call {A} (ok : service → outcome S3Err service A) (w : service) : outcome S3Err service A :=
  let w1 := mkService (sfiles w) (tail (network w)) in
  match default Delivered (head (network w)) with
  | Delivered => ok w1
  | LostResponse => match ok w1 with Ret _ w | Fail _ w => Fail s3_failed w | Crash => Crash end
  | LostRequest | ServerError => Fail s3_failed w1
  end.

Definition keys_under (prefix : string) (w : service) : list string :=
  filter (fun k => is_Some (strip_prefix prefix k) ∧ is_Some (stored w k)) (map_to_list (sfiles w)).*1.

(** The token is as long as the number of keys given. *)
Definition keys_after (prefix : string) (w : service) (token : option string) : list string :=
  drop (match token with Some t => String.length t | None => 0%nat end) (keys_under prefix w).

Definition list_page (prefix : string) (token : option string) (w : service) : Page :=
  let keys := keys_after prefix w token in
  mkPage (Some <$> take 2 keys) (Some (bool_decide (drop 2 keys ≠ [])))
    (Some ("kk" +:+ default "" token)%string).

#[global] Instance bucket_client : S3Client service := {|
  PutObject _ key data := s3_call (fun w =>
    if len data <? 2 ^ 63 then Ret tt (mkService (<[key := data]> (sfiles w)) (network w)) else Fail s3_failed w);
  GetObject _ key range := s3_call (fun w =>
    match stored w key with
    | None => Fail (mkS3Err true None) w
    | Some data =>
        let resp := serve_range data (default ""%string range) in
        if ok_status (StatusCode resp) then Ret (RespBody resp) w else Fail s3_failed w
    end);
  DeleteObject _ key := s3_call (fun w => Ret tt (mkService (delete key (sfiles w)) (network w)));
  ListObjectsV2 _ prefix token := s3_call (fun w => Ret (list_page prefix token w) w);
  HeadObject _ key := s3_call (fun w =>
    match stored w key with Some b => Ret (Some (len b)) w | None => Fail (mkS3Err false (Some 404)) w end);
|}.

Definition bucket_pages (prefix : string) (w : service) (token : option string) : nat :=
  length (keys_after prefix w token).
Definition bucket_max (prefix : string) (w : service) : nat := S (length (keys_under prefix w)).

(** A law of a call, from the law of the call that gets through: it may only
    look at the files. *)
Lemma s3_call_law {A} (ok : service → outcome S3Err service A) w (R : service → Prop)
    (Q : A → service → Prop) (E : S3Err → Prop) :
  let w1 := mkService (sfiles w) (tail (network w)) in
  match ok w1 with Ret a w' => Q a w' ∧ R w' | Fail e w' => R w' ∧ E e | Crash => False end →
  R w1 → E s3_failed →
  match s3_call ok w with Ret a w' => Q a w' | Fail e w' => R w' ∧ E e | Crash => False end.
Proof.
  move=> w1 Hok HR HE. rw /s3_call -/w1. destruct (default Delivered (head (network w))); [|done| |done].
  - destruct (ok w1) => //. by destruct Hok.
  - destruct (ok w1) => //; [by destruct Hok|]. by destruct Hok.
Qed.

(** The same where nothing is known of errors. *)
Lemma s3_call_effect {A} (ok : service → outcome S3Err service A) w (R : service → Prop) (Q : A → service → Prop) :
  let w1 := mkService (sfiles w) (tail (network w)) in
  match ok w1 with Ret a w' => Q a w' ∧ R w' | Fail e w' => R w' | Crash => False end →
  R w1 →
  match s3_call ok w with Ret a w' => Q a w' | Fail e w' => R w' | Crash => False end.
Proof.
  move=> w1 Hok HR. pose proof (s3_call_law ok w R Q (fun _ => True)) as H. simpl in H. fold w1 in H.
  destruct (s3_call ok w); apply H => //; by destruct (ok w1).
Qed.

Lemma strlen_token token : String.length ("kk" +:+ default ""%string token) =
  (2 + match token with Some t => String.length t | None => 0 end)%nat.
Proof. by destruct token. Qed.

Lemma omap_id_Some {A} (l : list A) : omap id (Some <$> l) = l.
Proof. elim: l => [//|x l IH]. exact (f_equal (cons x) IH). Qed.

Lemma list_page_next prefix token w :
  keys_after prefix w (NextContinuationToken (list_page prefix token w)) = drop 2 (keys_after prefix w token).
Proof.
  rw /keys_after drop_drop. f_equal.
  transitivity (String.length ("kk" +:+ default ""%string token)); [done|]. rw strlen_token. lia.
Qed.

(** The four calls of the SDK on the bucket, and the pages of a listing. *)
Lemma bucket_put bk key data w :
  match PutObject bk key data w with
  | Ret _ w' => (∀ k, k ≠ key → stored w' k = stored w k) ∧ stored w' key = Some data
  | Fail _ w' => (∀ k, k ≠ key → stored w' k = stored w k) ∧ (stored w' key = stored w key ∨ stored w' key = Some data)
  | Crash => False
  end.
Proof.
  destruct w as [m n].
  apply (s3_call_effect _ (mkService m n) (fun w' => (∀ k, k ≠ key → stored w' k = stored (mkService m n) k) ∧
       (stored w' key = stored (mkService m n) key ∨ stored w' key = Some data))
    (fun _ w' => (∀ k, k ≠ key → stored w' k = stored (mkService m n) k) ∧ stored w' key = Some data)); [|by split; [|left]].
  destruct (Z.ltb_spec (len data) (2 ^ 63)); simpl; [|by split; [|left]].
  assert (∀ k, k ≠ key → stored (mkService (<[key := data]> m) (tail n)) k = stored (mkService m n) k)
    by (move=> k ?; by rw stored_insert // decide_False).
  assert (stored (mkService (<[key := data]> m) (tail n)) key = Some data) by by rw stored_insert // decide_True.
  auto 10.
Qed.

Lemma bucket_get bk key range w :
  match GetObject bk key range w with
  | Ret body w' => (∀ k, stored w' k = stored w k) ∧ ∃ data, stored w key = Some data ∧
      ∀ b, body = Some b → (range = None → b = data) ∧
        ∀ off n, range = Some (BrokerStore.range_header off n) → 0 <= off → 0 < n → off + n <= len data →
          b = slice data off n
  | Fail e w' => (∀ k, stored w' k = stored w k) ∧ (isS3NotFound e = true → stored w key = None)
  | Crash => False
  end.
Proof.
  destruct w as [m n].
  apply (s3_call_law _ (mkService m n) (fun w' => ∀ k, stored w' k = stored (mkService m n) k)
    (fun body w' => (∀ k, stored w' k = stored (mkService m n) k) ∧ ∃ data, stored (mkService m n) key = Some data ∧
      ∀ b, body = Some b → (range = None → b = data) ∧
        ∀ off n0, range = Some (BrokerStore.range_header off n0) → 0 <= off → 0 < n0 → off + n0 <= len data →
          b = slice data off n0)
    (fun e => isS3NotFound e = true → stored (mkService m n) key = None)); [|done|done]. simpl.
  change (stored (mkService m n) key) with (stored (mkService m (tail n)) key).
  destruct (stored (mkService m (tail n)) key) as [data|] eqn:Es; [|done].
  destruct (serve_range_cases data (default ""%string range) (stored_small _ _ _ Es)) as [_ Hok].
  destruct (ok_status _) eqn:E; [|done]. split; [|done]. split; [done|]. exists data. split; [done|].
  move=> b Hb. destruct (Hok eq_refl b Hb) as [Hw Hr].
  split; [move=> E1; apply Hw; by rw E1|]. move=> off n0 E1. apply Hr. by rw E1.
Qed.

Lemma bucket_delete bk key w :
  match DeleteObject bk key w with
  | Ret _ w' => (∀ k, k ≠ key → stored w' k = stored w k) ∧ stored w' key = None
  | Fail _ w' => (∀ k, k ≠ key → stored w' k = stored w k) ∧ (stored w' key = stored w key ∨ stored w' key = None)
  | Crash => False
  end.
Proof.
  destruct w as [m n].
  apply (s3_call_effect _ (mkService m n) (fun w' => (∀ k, k ≠ key → stored w' k = stored (mkService m n) k) ∧
       (stored w' key = stored (mkService m n) key ∨ stored w' key = None))
    (fun _ w' => (∀ k, k ≠ key → stored w' k = stored (mkService m n) k) ∧ stored w' key = None)); [|by split; [|left]].
  assert (∀ k, k ≠ key → stored (mkService (delete key m) (tail n)) k = stored (mkService m n) k)
    by (move=> k ?; by rw stored_delete decide_False).
  assert (stored (mkService (delete key m) (tail n)) key = None) by by rw stored_delete decide_True.
  simpl. auto 10.
Qed.

Lemma bucket_list bk prefix token w :
  match ListObjectsV2 bk prefix token w with
  | Ret page w' => (∀ k, stored w' k = stored w k) ∧
      if default false (IsTruncated page) then
        keys_after prefix w token = omap id (Contents page) ++ keys_after prefix w' (NextContinuationToken page) ∧
        (bucket_pages prefix w' (NextContinuationToken page) < bucket_pages prefix w token)%nat
      else keys_after prefix w token = omap id (Contents page)
  | Fail _ w' => ∀ k, stored w' k = stored w k
  | Crash => False
  end.
Proof.
  destruct w as [m n].
  apply (s3_call_effect _ (mkService m n) (fun w' => ∀ k, stored w' k = stored (mkService m n) k)
    (fun page w' => (∀ k, stored w' k = stored (mkService m n) k) ∧
      if default false (IsTruncated page) then
        keys_after prefix (mkService m n) token =
          omap id (Contents page) ++ keys_after prefix w' (NextContinuationToken page) ∧
        (bucket_pages prefix w' (NextContinuationToken page) <
         bucket_pages prefix (mkService m n) token)%nat
      else keys_after prefix (mkService m n) token = omap id (Contents page))); [|done].
  split; [|done]. split; [done|]. rw /bucket_pages list_page_next.
  change (mkService (sfiles (mkService m n)) (tail (network (mkService m n)))) with (mkService m (tail n)).
  change (keys_after prefix (mkService m n) token) with (keys_after prefix (mkService m (tail n)) token).
  rw /list_page. simpl. rw !omap_id_Some. set (l := keys_after _ _ _).
  case_bool_decide as Hd; [|rw - {1}(take_drop 2 l); by rw Hd app_nil_r].
  split; [by rw take_drop|]. rw length_drop. destruct l; [done|simpl; lia].
Qed.

Lemma bucket_laws s :
  S3Laws bucket_client s stored (keys_after (S3Store.prefix s)) (bucket_pages (S3Store.prefix s)).
Proof.
  split.
  - intros. apply bucket_put.
  - intros. apply bucket_get.
  - intros. apply bucket_delete.
  - move=> key [m n].
    apply (s3_call_effect _ (mkService m n) (fun w' => ∀ k, stored w' k = stored (mkService m n) k)
      (fun r w' => (∀ k, stored w' k = stored (mkService m n) k) ∧ ∃ data,
         stored (mkService m n) key = Some data ∧ r = Some (len data))); [|done].
    change (stored (mkService (sfiles (mkService m n)) (tail (network (mkService m n)))) key) with (stored (mkService m n) key).
    destruct (stored (mkService m n) key) as [b|]; [|done]. split; [|done]. split; [done|]. by exists b.
  - intros. apply bucket_list.
  - move=> w key. rw /keys_after drop_0 /keys_under list_elem_of_filter list_elem_of_fmap. split; [by move=> [? _]|].
    move=> Hk. split; [done|]. destruct Hk as [_ [x Hx]]. revert Hx. rw /stored.
    destruct (sfiles w !! key) as [y|] eqn:E; [|done]. move=> _. exists (key, y). split; [done|]. by apply elem_of_map_to_list.
Qed.

(** ** Witness *)

Definition demo_bucket : S3Store.t := S3Store.mk "bucket" "pod-a/".

(** Three chunks and the index, listed in two pages, with a lost response. *)
Definition demo_objects : service :=
  mkService {[ "pod-a/chunk-00000000" := [Byte.x61]; "pod-a/chunk-00000001" := [Byte.x62];
               "pod-a/chunk-00000002" := [Byte.x63]; "pod-a/index.cbor" := [Byte.x64] ]} [].

Lemma S3Store_laws_witness :
  match List (Store := S3Store.store demo_bucket (bucket_max "pod-a/")) demo_objects with
  | Ret ids _ => "chunk-00000002"%string ∈ ids
  | _ => False
  end.
Proof.
  assert (∀ w, (bucket_pages (S3Store.prefix demo_bucket) w None < bucket_max "pod-a/" w)%nat) as Hp.
  { move=> w. rw /bucket_pages /bucket_max /keys_after drop_0. simpl. lia. }
  destruct (S3Store_laws demo_bucket stored _ _ (L := bucket_laws demo_bucket) (bucket_max "pod-a/") Hp) as [HS _].
  pose proof (List_law (StoreLaws := HS) demo_objects) as H.
  assert (match List (Store := S3Store.store demo_bucket (bucket_max "pod-a/")) demo_objects with
    | Ret _ _ => true | _ => false end = true) as Hr by (vm_compute; reflexivity).
  destruct (List (Store := S3Store.store demo_bucket (bucket_max "pod-a/")) demo_objects) as [ids w|e w|];
    [|discriminate..].
  destruct H as [_ H]. apply (H "chunk-00000002"%string eq_refl). exists [Byte.x63]. vm_compute. reflexivity.
Defined.

(** ** Overlapping prefixes *)

Definition root_bucket : S3Store.t := S3Store.mk "bucket" "".

(** The objects of an instance with the prefix "pod-b/". *)
Definition other_pod : service :=
  mkService {[ "pod-b/chunk-00000000" := [Byte.x61]; "pod-b/index.cbor" := [Byte.x62] ]} [].

#[local] Instance root_store : Store service := S3Store.store root_bucket (bucket_max "").
#[local] Instance root_object : ObjectStore service := S3Store.object_store root_bucket (bucket_max "").
#[local] Existing Instance count_codec.

(** Prefixes do not isolate instances when one begins another. Compaction
    run for an instance with the empty prefix takes the objects of an instance
    with the prefix "pod-b/" in the same bucket for chunks without live data,
    and deletes them, its index object included. *)
Theorem prefix_overlap_deletes :
  match runCompact demo_cfg 9 demo_clock [] (mkWorld other_pod (mkDisk ∅ [])) with
  | Ret _ w => stored (backing w) "pod-b/chunk-00000000" = None ∧ stored (backing w) "pod-b/index.cbor" = None
  | _ => False
  end.
Proof. vm_compute. split; reflexivity. Qed.
