(* ===== verification/CommandDemo.v ===== *)
(** The command's helpers at concrete inputs, and two of their surprises: a
    pid file with a relative mountpoint, and sizes and intervals of zero. *)
From S2P Require Import Prelude Types Index OS Decimal Persist Store Cache ChunkStore ChunkProps Fuse Compaction Strconv Config ConfigProps.
From S2P Require Import Broker BrokerProps BrokerService S3 S3Props Command CommandProps Main MainDemo S3Demo Daemon.
From Stdlib Require Import Strings.Ascii.
#[local] Open Scope Z_scope.

(** A codec for pid files: the process id, a space, the mountpoint. *)
Fixpoint split_space (s : string) : option (string * string) :=
  match s with
  | EmptyString => None
  | String c s => if Ascii.eqb c " " then Some ("", s)
                  else match split_space s with Some (a, b) => Some (String c a, b) | None => None end
  end%string.

Fixpoint drop_last (s : string) : string :=
  match s with
  | EmptyString | String _ EmptyString => EmptyString
  | String c s => String c (drop_last s)
  end.

#[global] Instance line_codec : InfoCodec := {|
  info_Marshal i := String.list_byte_of_string (Sprintf_d (PID i) +:+ " " +:+ Mountpoint i);
  info_Unmarshal b :=
    match split_space (drop_last (String.string_of_list_byte b)) with
    | Some (n, mp) => match ParseInt 64 n with Some pid => Some (mkDaemonInfo pid mp) | None => None end
    | None => None
    end;
|}.

Lemma daemon_dirs_isolated_witness :
  ∀ f f', Join (Join "/var/cache/fusey" "0000000000000000") f ≠ Join (Join "/var/cache/fusey" "00000000000000ff") f'.
Proof.
  destruct (daemon_dirs_isolated "/var/cache/fusey" (replicate 8 Byte.x00) (replicate 7 Byte.x00 ++ [Byte.xff])
    "0000000000000000" "00000000000000ff" eq_refl eq_refl eq_refl eq_refl) as (_ & _ & H).
  apply H. discriminate.
Defined.

(** ** Unmounting *)

(** An environment that names a bucket. *)
Definition bucket_env (key : string) : string := if String.eqb key "FUSEY_BUCKET" then "bucket" else "".

(** The disk of a machine on which [fusey mount mnt] was run in [/a]: the
    daemon's pid file has the mountpoint as it was given. *)
Definition mounted_in_a : Disk :=
  mkDisk {[ pidPath "/var/cache/fusey" "00000000000000aa" := pid_data 17 "mnt" ]} [].
Definition one_daemon (dir : string) : option (list DirEntry) := Some [mkDirEntry "00000000000000aa" true].

(** [fusey unmount] can stop the wrong file system. The pid file keeps the
    mountpoint as it was typed, and [fusey unmount] resolves it in its own
    working directory: with a daemon mounted on the relative path [mnt] in [/a],
    unmounting [mnt] in [/b], which is another directory and not mounted, stops
    that daemon, while unmounting [/a/mnt] from [/b] does not find it. *)
Theorem unmount_wrong_daemon :
  Abs (Some "/a") "mnt" = Some "/a/mnt"%string ∧ Abs (Some "/b") "mnt" = Some "/b/mnt"%string ∧
  runUnmount bucket_env (Some "/b"%string) one_daemon (fun _ => true) "mnt" mounted_in_a =
    Ret ("00000000000000aa"%string, 17) mounted_in_a ∧
  runUnmount bucket_env (Some "/b"%string) one_daemon (fun _ => true) "/a/mnt" mounted_in_a =
    Fail NoDaemon mounted_in_a.
Proof. split_and!; vm_compute; reflexivity. Qed.

(** ** The store that is picked *)

Definition broker_env (key : string) : string :=
  assoc [("FUSEY_BROKER_URL", "http://localhost:8000/"); ("FUSEY_BROKER_AUTH_VALUE", "changeThis")]%string key.

Lemma bucket_enough prefix w : (bucket_pages prefix w None < bucket_max prefix w)%nat.
Proof. rw /bucket_pages /bucket_max /keys_after drop_0. lia. Qed.

Lemma chooseStore_laws_witness :
  ∃ cfg b, mustLoadConfig broker_env = Ok cfg ∧ chooseStore (fun _ _ => true) cfg = Ok b ∧
    StoreLaws (backend_store (H := demo_http) (C := bucket_client) (bucket_max "") b)
      (backend_obj sfile stored b).
Proof.
  assert (∃ cfg, mustLoadConfig broker_env = Ok cfg ∧ chooseStore (fun _ _ => true) cfg = Ok (UseBroker demo_broker))
    as (cfg & E1 & E2) by (eexists; split; reflexivity).
  exists cfg, (UseBroker demo_broker). split; [exact E1|]. split; [exact E2|].
  destruct (chooseStore_laws (H := demo_http) (C := bucket_client) (bucket_max "")
    sfile (presigned demo_settings) (presigned demo_settings) stored (keys_after "") (bucket_pages "") (bucket_enough "")
    broker_env (fun _ _ => true) cfg (UseBroker demo_broker) E1 E2
    (reference_broker_ok demo_settings demo_platform demo_broker eq_refl)) as (_ & _ & H & _).
  exact H.
Defined.

(** ** Zeros *)

Definition zero_block_env (key : string) : string :=
  assoc [("FUSEY_BUCKET", "bucket"); ("FUSEY_BLOCK_SIZE", "0"); ("FUSEY_CHUNK_SIZE", "0");
         ("FUSEY_PERSIST_INTERVAL", "0s")]%string key.

#[local] Existing Instance demo_store.
#[local] Existing Instance count_codec.
#[local] Existing Instance demo_object.

(** Sizes and intervals of zero are accepted. With a block size of zero in
    the environment the configuration loads, and the first [statfs] on a new
    file system divides by zero; with a chunk size of zero every write to a
    file fails; with a persist interval of zero the ticker of a daemon that has
    announced itself panics, and the daemon is gone without having persisted. *)
Theorem zero_sizes_accepted :
  match mustLoadConfig zero_block_env with
  | Err _ => False
  | Ok cfg => BlockSize cfg = 0 ∧ ChunkSize cfg = 0 ∧ PersistInterval cfg = 0 ∧
      (∀ p k q m l t, life_step cfg (mkWorld (mkDisk ∅ []) (mkDisk ∅ [])) 17 "/mnt" (mkSys p (DServing k) q m l t)
         (mkSys p (DExited (Some (k, false, Panicked))) (close_daemon q) false l t)) ∧
      match start cfg 1 (mkWorld (mkDisk ∅ []) (mkDisk ∅ [])) with
      | Ret k _ => Statfs (fusey_of cfg k) = Crash ∧
          match Create RootIno "f" 0x1A4 None 1 (fusey_of cfg k) with
          | Ret _ F => ∃ F', FileHandle_Write 2 [Byte.x61] 0 2 F = Fail EIO F'
          | _ => False
          end
      | _ => False
      end
  end.
Proof.
  destruct (mustLoadConfig zero_block_env) as [cfg|e] eqn:E; [|vm_compute in E; discriminate E].
  vm_compute in E. injection E as <-. do 3 (split; [reflexivity|]). split.
  - intros p k q m l t. apply (d_ticker_panics _ _ _ _ _ _ k); [reflexivity..|simpl; lia].
  - vm_compute. split; [reflexivity|]. eexists. reflexivity.
Qed.
