(* ===== verification/DurableDemo.v ===== *)
(** The whole system on the reference broker, over a network that loses
    messages: a daemon starts on an empty store, creates a file, writes to it
    and persists; another machine takes over. The write comes while the persist is
    running. The hypotheses of Life.v and of DaemonProps.v hold of every step.
    At last a file whose name is not UTF-8, which no daemon loads. *)
From S2P Require Import Prelude Types Extents Index IndexInv IndexProps OS Decimal Persist Store Cache ChunkStore.
From S2P Require Import ChunkProps Fuse FuseData FuseInv FuseProps Compaction Broker BrokerProps BrokerService.
From S2P Require Import Config Command CommandDemo Main MainProps Durable Life Daemon DaemonProps.
From Stdlib Require Import Floats.SpecFloat.
#[local] Open Scope Z_scope.

#[local] Existing Instance count_codec.
#[local] Existing Instance demo_http.
#[local] Instance broker_store : Store service := BrokerStore.store demo_broker.
#[local] Instance broker_object : ObjectStore service := BrokerStore.object_store demo_broker.

Definition broker_cfg : Config :=
  mkConfig 4 4096 100 "cache" "" "" "us-east-1" "" "" false "" "http://localhost:8000/" "X-SESSION-API-KEY"
    "changeThis" (SFdiv 53 1024 (float64 1) (float64 2)) (30 * 10 ^ 9) true.

Definition broker_raw (sv : service) : option bytes := sfile sv brokerIndexKey.

Lemma broker_ok : StoreLaws broker_store sfile ∧ ObjectLaws broker_object sfile broker_raw.
Proof.
  apply (BrokerStore_ok demo_broker sfile (presigned demo_settings) (presigned demo_settings)
    (L := reference_broker_ok demo_settings demo_platform demo_broker eq_refl)).
  simpl. rw /defaultMaxAttempts. lia.
Qed.

#[local] Instance broker_laws : StoreLaws broker_store sfile := proj1 broker_ok.
#[local] Instance broker_object_laws : ObjectLaws broker_object sfile broker_raw := proj2 broker_ok.
#[local] Existing Instance count_codec_laws.

Definition empty_disk : Disk := mkDisk ∅ [].

Lemma empty_clean : clean_machine broker_cfg empty_disk.
Proof. split; [apply lookup_empty|]. intros n _. apply lookup_empty. Qed.

Lemma empty_ready : machine_ready sfile broker_raw broker_cfg shaky empty_disk.
Proof. apply clean_ready, empty_clean. Qed.

Lemma shaky_ready : store_ready sfile broker_raw shaky.
Proof. split; [move=> r _; apply shaky_empty|by left]. Qed.

(** A request as a piece of work. *)
Definition step_to (r : request) (k : kstate service unit) : option (kstate service unit) :=
  F ← serve r (fusey_of broker_cfg k); Some (mkK (idx F) (chunks F) tt).

Definition few_chunks (k : kstate service unit) : bool := nextSeq (cs (k_cs k)) <? 10.

Lemma step_work r k k' pc : step_to r k = Some k' → req_ok r (fusey_of broker_cfg k) → few_chunks k' = true →
  calm broker_cfg pc k k' → work broker_cfg ([pc], k) ([pc], k').
Proof.
  rw /step_to /few_chunks. destruct (serve r (fusey_of broker_cfg k)) as [F|] eqn:E; [|done]. simpl.
  intros [= <-] Hok Hn%Z.ltb_lt Hc. eapply work_request; [done|done|simpl in Hn; lia|by apply Forall_singleton].
Qed.

(** Some calls of the persist function. *)
Fixpoint calls_fit (n : nat) (st : ppc * kstate service unit) : bool :=
  match n with
  | O => true
  | Datatypes.S n => let st' := pstep broker_cfg st.1 st.2 in few_chunks st'.2 && calls_fit n st'
  end.

Lemma calls_persisting n pc k : calls_fit n (pc, k) = true →
  rtc (persisting broker_cfg) ([pc], k) ([(psteps n broker_cfg (pc, k)).1], (psteps n broker_cfg (pc, k)).2).
Proof.
  elim: n pc k => [|n IH] pc k; [done|]. cbn [calls_fit psteps fst snd].
  destruct (pstep broker_cfg pc k) as [pc' k'] eqn:E. intros [Hn%Z.ltb_lt Hf]%andb_true_iff. simpl in Hn.
  eapply rtc_l; [|by apply IH]. apply (persist_call broker_cfg [pc] 0 pc pc' k k'); [done|done|lia].
Qed.

Lemma begin_persisting k : persisting broker_cfg ([Finished], k) ([AtSave], k).
Proof. exact (persist_begin broker_cfg [Finished] 0 Finished k eq_refl eq_refl). Qed.

Lemma persisting_work st st' : rtc (persisting broker_cfg) st st' → rtc (work broker_cfg) st st'.
Proof. elim=> [//|st1 st2 st3 H _ IH]. eapply rtc_l; [by apply work_persist|done]. Qed.

Definition make_file : request := RCreate RootIno "f" 0x1A4 None 1.
Definition fill_file : request := RWrite 2 [Byte.x61; Byte.x62] 0 2.

Lemma make_file_ok (k : kstate service unit) : nextIno (k_idx k) < 2 ^ 62 → req_ok make_file (fusey_of broker_cfg k).
Proof. rw /make_file /= /room /=. lia. Qed.

Lemma fill_file_ok (k : kstate service unit) : few_chunks k = true → req_ok fill_file (fusey_of broker_cfg k).
Proof. move=> /Z.ltb_lt H. rw /fill_file /=. split_and!; [done|lia|done|lia]. Qed.

(** The run: a file is made; a goroutine calls the persist function, which saves
    the snapshot and marks it; then the file is written to; then the persist
    goes on to its end. *)
Abbreviation demo_states := (kstate service unit * kstate service unit * kstate service unit * kstate service unit * kstate service unit)%type.

Definition demo_run : option demo_states :=
  match start broker_cfg 1 (mkWorld shaky empty_disk) with
  | Ret k _ =>
      k1 ← step_to make_file k;
      match psteps 2 broker_cfg (AtSave, k1) with
      | (AtFlush, k2) =>
          k3 ← step_to fill_file k2;
          match psteps 5 broker_cfg (AtFlush, k3) with (Finished, k4) => Some (k, k1, k2, k3, k4) | _ => None end
      | _ => None
      end
  | _ => None
  end.

Definition starts_on (b : service) (d : Disk) : bool :=
  match start broker_cfg 9 (mkWorld b d) with Ret _ _ => true | _ => false end.

Definition run_ok : bool :=
  match demo_run with
  | Some (k, k1, k2, k3, k4) =>
      (nextIno (k_idx k) <? 2 ^ 62) && few_chunks k1 && calls_fit 2 (AtSave, k1) && few_chunks k2 && few_chunks k3 &&
      calls_fit 5 (AtFlush, k3) && few_chunks k4 && negb (IsRemoteDirty (k_idx k4)) && IsDirty (k_idx k4) &&
      starts_on (backing (wd (k_cs k4))) empty_disk
  | None => false
  end.

Lemma run_ok_true : run_ok = true.
Proof. vm_compute. reflexivity. Qed.

Lemma demo_run_steps : ∃ k w k1 k3 k4,
  start broker_cfg 1 (mkWorld shaky empty_disk) = Ret k w ∧ rtc (work broker_cfg) ([Finished], k) ([AtSave], k1) ∧
  rtc (work broker_cfg) ([AtSave], k1) ([AtFlush], k3) ∧ rtc (work broker_cfg) ([AtFlush], k3) ([Finished], k4) ∧
  few_chunks k4 = true ∧ IsRemoteDirty (k_idx k4) = false ∧ starts_on (backing (wd (k_cs k4))) empty_disk = true.
Proof.
  pose proof run_ok_true as H. revert H. rw /run_ok /demo_run.
  destruct (start broker_cfg 1 (mkWorld shaky empty_disk)) as [k w|e w|] eqn:E0; [|done..].
  destruct (step_to make_file k) as [k1|] eqn:E1; [|done]. change (Some k1 ≫= ?f) with (f k1). cbv beta.
  destruct (psteps 2 broker_cfg (AtSave, k1)) as [[] k2] eqn:E2; try done.
  destruct (step_to fill_file k2) as [k3|] eqn:E3; [|done]. change (Some k3 ≫= ?f) with (f k3). cbv beta.
  destruct (psteps 5 broker_cfg (AtFlush, k3)) as [[] k4] eqn:E4; try done.
  intros [[[[[[[[[Hi H1]%andb_true_iff H2]%andb_true_iff H3]%andb_true_iff H4]%andb_true_iff H5]%andb_true_iff H6]%andb_true_iff H7%negb_true_iff]%andb_true_iff _]%andb_true_iff H8]%andb_true_iff.
  apply Z.ltb_lt in Hi.
  pose proof (calls_persisting 2 AtSave k1 H2) as P2. pose proof (calls_persisting 5 AtFlush k3 H5) as P5. rw E2 in P2. rw E4 in P5.
  exists k, w, k1, k3, k4. split_and!; [done| | |by apply persisting_work|done..].
  - eapply rtc_l; [apply (step_work make_file k k1 Finished); [done|by apply make_file_ok|done|done]|].
    apply rtc_once, work_persist, begin_persisting.
  - etrans; [apply persisting_work, P2|]. apply rtc_once. by apply (step_work fill_file); [|apply fill_file_ok| |].
Qed.



(** ** The two processes *)

Definition demo_pid_file : Disk → outcome OsErr Disk unit :=
  os_WriteFile (pid_path broker_cfg) (pid_data 17 "/mnt").

(** From the fork to the exit, with the two requests in between. *)
Definition demo_life : option (cstate service * Index * world service * kstate service unit * kstate service unit * kstate service unit) :=
  match mustBuildStore broker_cfg (mkWorld shaky empty_disk) with
  | Ret _ st =>
      match loadIndex broker_cfg 1 (wd st) with
      | Ret i w =>
          k1 ← step_to make_file (on_disk demo_pid_file (mkK i (mkCState (cs st) w) tt));
          k2 ← step_to fill_file k1;
          match psteps 7 broker_cfg (AtSave, k2) with (Finished, k3) => Some (st, i, w, k1, k2, k3) | _ => None end
      | _ => None
      end
  | _ => None
  end.

(** The persist makes all of its seven calls. *)
Fixpoint calls_made (n : nat) (st : ppc * kstate service unit) : bool :=
  match n with O => true | Datatypes.S n => negb (ended st.1) && calls_made n (pstep broker_cfg st.1 st.2) end.

Definition life_ok : bool :=
  match demo_life with
  | Some (st, i, w, k1, k2, k3) =>
      (nextIno i <? 2 ^ 62) && few_chunks k1 && few_chunks k2 && calls_made 7 (AtSave, k2) && few_chunks k3 &&
      starts_on (backing (wd (k_cs k3))) empty_disk
  | None => false
  end.

Lemma life_ok_true : life_ok = true.
Proof. vm_compute. reflexivity. Qed.

Abbreviation demo_step := (sys_step broker_cfg (mkWorld shaky empty_disk) 17 "/mnt").

Lemma request_step p dm k r k' q l : serving_state dm = Some k → main_pc dm = Finished → step_to r k = Some k' →
  req_ok r (fusey_of broker_cfg k) → few_chunks k' = true →
  demo_step (mkSys p dm q true l Finished) (mkSys p (with_state k' dm) q true l Finished).
Proof.
  rw /step_to /few_chunks. destruct (serve r (fusey_of broker_cfg k)) as [F|] eqn:E; [|done]. simpl.
  intros Hk Hm [= <-] Hok Hn%Z.ltb_lt. simpl in Hn. right. right. eapply d_request; try done; [lia|by rw Hm].
Qed.

Lemma flush_steps n p u pc k q m l t : calls_made n (pc, k) = true →
  rtc demo_step (mkSys p (DFlushing k u pc) q m l t)
    (mkSys p (DFlushing (psteps n broker_cfg (pc, k)).2 u (psteps n broker_cfg (pc, k)).1) q m l t).
Proof.
  elim: n pc k => [|n IH] pc k; [done|]. cbn [calls_made psteps fst snd]. intros [He%negb_true_iff Hm]%andb_true_iff.
  destruct (pstep broker_cfg pc k) as [pc' k'] eqn:E. eapply rtc_l; [left; by apply d_flush_call|by apply IH].
Qed.

Abbreviation demo_exit k :=
  (mkSys (PExited true) (DExited (Some (k, true, Finished))) (mkPipe ready_line false false) false true Finished).

Lemma demo_life_reachable : ∃ k, reachable broker_cfg shaky empty_disk 17 "/mnt" (demo_exit k) ∧
  nextSeq (cs (k_cs k)) <= 10 ^ 8 ∧ starts_on (backing (wd (k_cs k))) empty_disk = true.
Proof.
  pose proof life_ok_true as H. revert H. rw /life_ok /demo_life.
  destruct (mustBuildStore broker_cfg (mkWorld shaky empty_disk)) as [[] st|e st|] eqn:E0; [|done..].
  destruct (loadIndex broker_cfg 1 (wd st)) as [i w|e w|] eqn:E1; [|done..].
  destruct (step_to make_file _) as [k1|] eqn:E2; [|done]. change (Some k1 ≫= ?f) with (f k1). cbv beta.
  destruct (step_to fill_file k1) as [k2|] eqn:E3; [|done]. change (Some k2 ≫= ?f) with (f k2). cbv beta.
  destruct (psteps 7 broker_cfg (AtSave, k2)) as [[] k3] eqn:E4; try done.
  intros [[[[[Hi H1]%andb_true_iff H2]%andb_true_iff H3]%andb_true_iff H4]%andb_true_iff H5]%andb_true_iff. apply Z.ltb_lt in Hi, H4.
  exists (on_disk (os_Remove (pid_path broker_cfg)) k3). split; [|split; [simpl; lia|exact H5]].
  eapply rtc_l; [left; apply p_setup|]. eapply rtc_l; [left; apply p_forks|]. eapply rtc_l; [left; apply p_closes|].
  eapply rtc_l; [left; apply d_setup|]. eapply rtc_l; [left; by apply d_store|].
  eapply rtc_l; [left; by eapply d_index|]. eapply rtc_l; [left; apply d_mounts|].
  eapply rtc_l; [left; apply d_pid|]. eapply rtc_l; [left; apply d_announces|].
  eapply rtc_l; [left; by apply p_reads|]. rw bool_decide_true //.
  eapply rtc_l; [eapply (request_step _ _ (on_disk demo_pid_file (mkK i (mkCState (cs st) w) tt)) make_file k1);
    [reflexivity|reflexivity|exact E2|by apply make_file_ok|done]|].
  eapply rtc_l; [eapply (request_step _ _ k1 fill_file k2); [reflexivity|reflexivity|exact E3|by apply fill_file_ok|done]|].
  eapply rtc_l; [right; left; apply d_signalled|]. eapply rtc_l; [left; apply d_unmounts|].
  etrans; [apply (flush_steps 7), H3|]. rw E4. simpl.
  eapply rtc_l; [left; by apply d_flushed|]. eapply rtc_l; [left; apply d_exits|]. apply rtc_refl.
Qed.




(** ** A name that is not UTF-8 *)

Definition foreign_name : string := String (Ascii.ascii_of_N 255) "".

Definition make_foreign : request := RCreate RootIno foreign_name 0x1A4 None 1.

Definition foreign_ok : bool :=
  match start broker_cfg 1 (mkWorld shaky empty_disk) with
  | Ret k _ =>
      match step_to make_foreign k with
      | Some k1 =>
          (nextIno (k_idx k) <? 2 ^ 62) && few_chunks k1 && IsRemoteDirty (k_idx k1) &&
          bool_decide (entries (k_idx k1) !! (RootIno, foreign_name) ≠ None) &&
          match persistFn broker_cfg k1 with
          | Ret _ k2 => match start broker_cfg 9 (mkWorld (backing (wd (k_cs k2))) empty_disk) with Fail (ParseErr _) _ => true | _ => false end
          | _ => false
          end
      | None => false
      end
  | _ => false
  end.

Lemma foreign_ok_true : foreign_ok = true.
Proof. vm_compute. reflexivity. Qed.

Lemma foreign_text_never_loads_witness : ∃ k1 k2 : kstate service unit,
  text_of (k_idx k1) foreign_name ∧ persistFn broker_cfg k1 = Ret tt k2 ∧
  match start broker_cfg 9 (mkWorld (backing (wd (k_cs k2))) empty_disk) with
  | Fail (ParseErr e) _ => e = UnmarshalFailed
  | _ => False
  end.
Proof.
  pose proof foreign_ok_true as H. revert H. rw /foreign_ok.
  destruct (start broker_cfg 1 (mkWorld shaky empty_disk)) as [k w|e w|] eqn:E0; [|done..].
  destruct (step_to make_foreign k) as [k1|] eqn:E1; [|done].
  destruct (persistFn broker_cfg k1) as [[] k2|e k2|] eqn:E2; [|by rw andb_false_r..].
  intros [[[[Hi%Z.ltb_lt Hn]%andb_true_iff Hd]%andb_true_iff He%bool_decide_eq_true]%andb_true_iff Hs]%andb_true_iff.
  assert (work broker_cfg ([Finished], k) ([Finished], k1)) as Hw.
  { apply (step_work make_foreign); [done| |done|done]. rw /make_foreign /= /room /=. lia. }
  pose proof (start_sound sfile broker_raw broker_cfg ltac:(by split) 1 shaky empty_disk k w [Finished] shaky_ready
    empty_ready E0 ltac:(by apply Forall_singleton)) as Hso.
  destruct (life_sound sfile broker_raw broker_cfg _ _ (rtc_once _ _ Hw) Hso) as [Hl _ _].
  assert (text_of (k_idx k1) foreign_name) as Ht
    by (destruct (entries (k_idx k1) !! (RootIno, foreign_name)) as [c|] eqn:Ec; [by apply (text_name _ _ RootIno c)|done]).
  assert (nextSeq (cs (k_cs k1)) <= 10 ^ 8) as Hn' by (apply Z.ltb_lt in Hn; lia).
  exists k1, k2. split; [exact Ht|]. split; [exact E2|].
  pose proof (foreign_text_never_loads sfile broker_raw broker_cfg k1 k2 foreign_name 9 empty_disk
    ltac:(by split) Hl Hn' Ht eq_refl Hd E2 empty_clean) as HP.
  destruct (start broker_cfg 9 _) as [k3 w3|[] w3|]; try discriminate Hs. exact HP.
Defined.

(** ** A change that comes too late *)

Definition make_late : request := RCreate RootIno "g" 0x1A4 None 3.

Lemma quiet_request r k k' : step_to r k = Some k' → req_ok r (fusey_of broker_cfg k) → few_chunks k' = true →
  work broker_cfg ([], k) ([], k').
Proof.
  rw /step_to /few_chunks. destruct (serve r (fusey_of broker_cfg k)) as [F|] eqn:E; [|done]. simpl.
  intros [= <-] Hok Hn%Z.ltb_lt. eapply work_request; [done|done|simpl in Hn; lia|done].
Qed.

Definition late_ok : bool :=
  match start broker_cfg 1 (mkWorld shaky empty_disk) with
  | Ret k0 _ =>
      match step_to make_file k0 with
      | Some k =>
          match Index_Marshal (k_idx k), step_to make_late k with
          | Ok data, Some k1 =>
              (nextIno (k_idx k0) <? 2 ^ 62) && (nextIno (k_idx k) <? 2 ^ 62) && few_chunks k && few_chunks k1 &&
              match psteps 2 broker_cfg (AtPut data, k1) with
              | (Finished, k3) =>
                  match persistFn broker_cfg k3 with
                  | Ret _ k4 => bool_decide (entries (k_idx k) !! (RootIno, "g"%string) = None ∧ entries (k_idx k4) !! (RootIno, "g"%string) ≠ None) &&
                      starts_on (backing (wd (k_cs k4))) empty_disk
                  | _ => false
                  end
              | _ => false
              end
          | _, _ => false
          end
      | None => false
      end
  | _ => false
  end.

Lemma late_ok_true : late_ok = true.
Proof. vm_compute. reflexivity. Qed.

Lemma late_change_not_published_witness : ∃ (k k4 k5 : kstate service unit) w5,
  entries (k_idx k) !! (RootIno, "g"%string) = None ∧ entries (k_idx k4) !! (RootIno, "g"%string) ≠ None ∧
  IsRemoteDirty (k_idx k4) = false ∧
  start broker_cfg 9 (mkWorld (backing (wd (k_cs k4))) empty_disk) = Ret k5 w5 ∧ same_but_atime (k_idx k) (k_idx k5).
Proof.
  pose proof late_ok_true as H. revert H. rw /late_ok.
  destruct (start broker_cfg 1 (mkWorld shaky empty_disk)) as [k0 w|e w|] eqn:E0; [|done..].
  destruct (step_to make_file k0) as [k|] eqn:E1; [|done]. destruct (Index_Marshal (k_idx k)) as [data|e] eqn:EM; [|done].
  destruct (step_to make_late k) as [k1|] eqn:E2; [|done].
  destruct (psteps 2 broker_cfg (AtPut data, k1)) as [[] k3] eqn:E3; try (by rw andb_false_r).
  destruct (persistFn broker_cfg k3) as [[] k4|e k4|] eqn:E4; [|by rw andb_false_r..].
  intros [[[[Hi%Z.ltb_lt Hj%Z.ltb_lt]%andb_true_iff Hn]%andb_true_iff Hn1]%andb_true_iff [[He0 He]%bool_decide_eq_true Hs]%andb_true_iff]%andb_true_iff.
  pose proof (start_sound sfile broker_raw broker_cfg ltac:(by split) 1 shaky empty_disk k0 w [] shaky_ready
    empty_ready E0 ltac:(by apply Forall_nil)) as Hso.
  pose proof (life_sound sfile broker_raw broker_cfg _ _ (rtc_once _ _ (quiet_request make_file k0 k E1 (make_file_ok k0 Hi) Hn)) Hso) as Hk.
  assert (req_ok make_late (fusey_of broker_cfg k)) as Hok by (rw /make_late /= /room /=; lia).
  assert (nextSeq (cs (k_cs k1)) <= 10 ^ 8) as Hn' by (apply Z.ltb_lt in Hn1; lia).
  destruct (late_change_not_published sfile broker_raw broker_cfg k data k1 k3 k4 ltac:(by split) Hk EM
    (rtc_once _ _ (quiet_request make_late k k1 E2 Hok Hn1)) Hn' E3 E4) as (_ & _ & Hf & _ & Hst).
  specialize (Hst 9 empty_disk empty_clean). rw /starts_on in Hs.
  destruct (start broker_cfg 9 (mkWorld (backing (wd (k_cs k4))) empty_disk)) as [k5 w5|e w5|] eqn:E5; [|discriminate Hs..].
  exists k, k4, k5, w5. split; [exact He0|]. split; [exact He|]. split; [exact Hf|]. split; [exact E5|]. exact (proj2 Hst).
Defined.
