(* ===== verification/SessionDemo.v ===== *)
(** The run of DurableDemo.v as a session: the answers are a run of the
    specification, and the second machine serves the tree at its end. Then a
    longer one, after which a compaction deletes a dead chunk. *)
From S2P Require Import Prelude Types Extents Index IndexInv IndexProps OS Decimal Persist Store Cache ChunkStore.
From S2P Require Import ChunkProps Fuse FuseData FuseInv FuseProps Compaction CompactProps CompactWitness CompactRun Broker BrokerProps BrokerService.
From S2P Require Import Config Command CommandDemo Main MainProps Durable Life Daemon DurableDemo.
From S2P Require Import FsSpec SpecAbs SpecIndex SpecNames SpecRefine Session.
#[local] Open Scope Z_scope.

#[local] Existing Instance count_codec.
#[local] Existing Instance demo_http.
#[local] Existing Instance broker_store.
#[local] Existing Instance broker_object.
#[local] Existing Instance broker_laws.
#[local] Existing Instance broker_object_laws.
#[local] Existing Instance count_codec_laws.

(** What has to be checked of a creation in the root, and of a write to the
    file that it made. *)
Definition create_fits (k k' : kstate service unit) : bool :=
  (RootIno <? nextIno (k_idx k)) && (nextIno (k_idx k) <? 2 ^ 62) && (nextSeq (cs (k_cs k')) <? 10).

Definition write_fits (data : bytes) (off : Z) (k k' : kstate service unit) : bool :=
  (2 <? nextIno (k_idx k)) && linked (entries (k_idx k)) 2 && (nextSeq (cs (k_cs k)) <? 10) && (nextSeq (cs (k_cs k')) <? 10) &&
  match extents (k_idx k) !! 2 with Some exts => no_inner_split off (off + len data) exts | None => true end.

Lemma step_answer r k k' : step_to r k = Some k' →
  ∃ a F', handle r (fusey_of broker_cfg k) = Some (a, F') ∧ k' = mkK (idx F') (chunks F') tt.
Proof.
  rw /step_to - handle_serve. destruct (handle r (fusey_of broker_cfg k)) as [[a F']|]; [|done]. simpl. intros [= <-]. by eauto.
Qed.

Abbreviation at_rest k := ([Finished], k).

Lemma session_step st l k1 r k2 : session broker_cfg st l (at_rest k1) → req_ok r (fusey_of broker_cfg k1) →
  kernel_ok r (fusey_of broker_cfg k1) → avoids_split r (fusey_of broker_cfg k1) → step_to r k1 = Some k2 →
  nextSeq (cs (k_cs k2)) <= 10 ^ 8 → ∃ a, session broker_cfg st (l ++ [(r, a)]) (at_rest k2).
Proof.
  intros Hs Hok Hk Ha (a & F' & Hh & ->)%step_answer Hn. exists a.
  eapply session_request; try done. by apply Forall_singleton.
Qed.

(** The persist function from its first call to its last. *)
Lemma session_calls st l st1 st2 : session broker_cfg st l st1 → rtc (persisting broker_cfg) st1 st2 →
  session broker_cfg st l st2.
Proof. intros Hs Hp. induction Hp as [|st1 st2 st3 H _ IH]; [done|]. apply IH. by eapply session_persist. Qed.

Lemma session_whole_persist st l k k' : session broker_cfg st l (at_rest k) → calls_fit 7 (AtSave, k) = true →
  persistFn broker_cfg k = Ret tt k' → session broker_cfg st l (at_rest k').
Proof.
  intros Hs Hf E. apply (session_calls st l (at_rest k)); [done|]. eapply rtc_l; [apply begin_persisting|].
  pose proof (calls_persisting 7 AtSave k Hf) as H. pose proof (persist_steps_sequential broker_cfg k) as HP.
  rw E in HP. by rw HP in H.
Qed.

Lemma one_node r ino (F : Fusey service) : request_nodes r = [ino] → ino < nextIno (idx F) →
  linked (entries (idx F)) ino = true →
  ∀ j, j ∈ request_nodes r → j < nextIno (idx F) ∧ (is_Some (inodes (idx F) !! j) → linked (entries (idx F)) j = true).
Proof. intros -> Hi Hl j ->%list_elem_of_singleton. done. Qed.

Lemma create_session st l k1 nm mode now k2 : session broker_cfg st l (at_rest k1) → create_fits k1 k2 = true →
  step_to (RCreate RootIno nm mode None now) k1 = Some k2 →
  ∃ a, session broker_cfg st (l ++ [(RCreate RootIno nm mode None now, a)]) (at_rest k2).
Proof.
  rw /create_fits. repeat setoid_rewrite andb_true_iff. rw !Z.ltb_lt. intros Hs [[Hr Hi] Hn] E.
  apply (session_step st l k1); [done| | |done|done|lia].
  - rw /= /room /=. lia.
  - split; [|done]. apply (one_node _ RootIno (fusey_of broker_cfg k1)); [done|done|]. apply linked_spec. by left.
Qed.

Lemma write_session st l k1 data off now k2 : session broker_cfg st l (at_rest k1) → write_fits data off k1 k2 = true →
  data ≠ [] → 0 <= off → off + len data <= int64_max → step_to (RWrite 2 data off now) k1 = Some k2 →
  ∃ a, session broker_cfg st (l ++ [(RWrite 2 data off now, a)]) (at_rest k2).
Proof.
  rw /write_fits. repeat setoid_rewrite andb_true_iff. intros Hs ((((H2 & Hl) & Hn1) & Hn2) & Hx) Hd Ho Hm E.
  apply Z.ltb_lt in H2, Hn1, Hn2. apply (session_step st l k1); [done| | | |done|lia].
  - rw /=. split_and!; [done|done|done|lia].
  - split; [exact (one_node (RWrite 2 data off now) 2 (fusey_of broker_cfg k1) eq_refl H2 Hl)|done].
  - intros exts He. simpl in He. by rw He in Hx.
Qed.

Definition left_clean (k : kstate service unit) : bool :=
  few_chunks k && negb (IsDirty (k_idx k)) && negb (IsRemoteDirty (k_idx k)).

Lemma left_clean_spec k : left_clean k = true →
  nextSeq (cs (k_cs k)) <= 10 ^ 8 ∧ IsDirty (k_idx k) = false ∧ IsRemoteDirty (k_idx k) = false.
Proof. rw /left_clean. intros [[Hn%Z.ltb_lt ?%negb_true_iff]%andb_true_iff ?%negb_true_iff]%andb_true_iff. split_and!; [lia|done..]. Qed.

Definition requests_ok : bool :=
  match start broker_cfg 1 (mkWorld shaky empty_disk) with
  | Ret k _ =>
      match step_to make_file k with
      | Some k1 => create_fits k k1 &&
          match step_to fill_file k1 with
          | Some k2 => write_fits [Byte.x61; Byte.x62] 0 k1 k2 && (nextSeq (cs (k_cs k2)) <? 10) &&
              calls_fit 7 (AtSave, k2) &&
              match persistFn broker_cfg k2 with
              | Ret _ k3 => left_clean k3 && starts_on (backing (wd (k_cs k3))) empty_disk &&
                  starts_on (backing (wd (k_cs k3))) (local (wd (k_cs k3)))
              | _ => false
              end
          | None => false
          end
      | None => false
      end
  | _ => false
  end.

Lemma requests_ok_true : requests_ok = true.
Proof. vm_compute. reflexivity. Qed.

Lemma demo_session : ∃ k w a1 a2 k3,
  start broker_cfg 1 (mkWorld shaky empty_disk) = Ret k w ∧
  session broker_cfg (at_rest k) [(make_file, a1); (fill_file, a2)] (at_rest k3) ∧ left_clean k3 = true ∧
  starts_on (backing (wd (k_cs k3))) empty_disk = true ∧ starts_on (backing (wd (k_cs k3))) (local (wd (k_cs k3))) = true.
Proof.
  pose proof requests_ok_true as H. revert H. rw /requests_ok.
  destruct (start broker_cfg 1 (mkWorld shaky empty_disk)) as [k w|e w|] eqn:E0; [|done..].
  destruct (step_to make_file k) as [k1|] eqn:E1; [|done].
  destruct (step_to fill_file k1) as [k2|] eqn:E2; [|by rw andb_false_r].
  destruct (persistFn broker_cfg k2) as [[] k3|e k3|] eqn:E3; [|by rw !andb_false_r..].
  intros [C1 [[C2 C3]%andb_true_iff [[C4 C5]%andb_true_iff C6]%andb_true_iff]%andb_true_iff]%andb_true_iff.
  apply andb_true_iff in C2 as [C2 _].
  destruct (create_session (at_rest k) [] k "f" 420 1 k1 (session_nil _ _) C1 E1) as [a1 S1].
  destruct (write_session (at_rest k) _ k1 _ 0 2 k2 S1 C2 ltac:(done) ltac:(done) ltac:(done) E2) as [a2 S2].
  exists k, w, a1, a2, k3. split_and!; [done| |done..]. by apply (session_whole_persist _ _ k2).
Qed.

Lemma demo_start_sizes k w : start broker_cfg 1 (mkWorld shaky empty_disk) = Ret k w → sizes_ok (k_idx k).
Proof.
  intros E. pose proof (start_fresh sfile broker_raw broker_cfg ltac:(by split) 1 shaky empty_disk
    (proj1 shaky_ready) (clean_ready _ _ _ _ _ empty_clean) (shaky_empty _)) as H. rw E in H.
  destruct H as (_ & [t Ht] & _). eapply sizes_same_atime; [exact Ht|apply New_sizes].
Qed.


(** ** A compaction that deletes a chunk *)

(** The file is written again, which fills the first chunk and leaves nothing
    alive in it. *)
Definition refill_file : request := RWrite 2 [Byte.x63; Byte.x64; Byte.x65] 0 3.

(** What the last persist leaves, and what the compaction on a clean machine
    finds and leaves. *)
Definition listed_ok (b : service) : bool :=
  match List b with
  | Ret ids _ => bool_decide (NoDup ids) && bool_decide (Forall (fun i => chunk_name i = true) ids)
  | _ => true
  end.

Definition compaction_ok (b : service) : bool :=
  match start broker_cfg 5 (mkWorld b empty_disk) with
  | Ret k _ => bool_decide ((map_to_list (extents (k_idx k))).*1 = [2]) && listed_ok (backing (wd (k_cs k)))
  | _ => false
  end &&
  match runCompact broker_cfg 5 demo_clock [2] (mkWorld b empty_disk) with
  | Ret _ w => bool_decide (sfile b "chunk-00000000" ≠ None ∧ sfile (backing w) "chunk-00000000" = None) &&
      match start broker_cfg 9 (mkWorld (backing w) empty_disk) with Ret _ _ => true | _ => false end
  | _ => false
  end.

Definition refill_ok : bool :=
  match start broker_cfg 1 (mkWorld shaky empty_disk) with
  | Ret k _ =>
      match step_to make_file k with
      | Some k1 => create_fits k k1 &&
          match step_to fill_file k1 with
          | Some k2 => write_fits [Byte.x61; Byte.x62] 0 k1 k2 &&
              match step_to refill_file k2 with
              | Some k3 => write_fits [Byte.x63; Byte.x64; Byte.x65] 0 k2 k3 && calls_fit 7 (AtSave, k3) &&
                  match persistFn broker_cfg k3 with
                  | Ret _ k4 => left_clean k4 && compaction_ok (backing (wd (k_cs k4)))
                  | _ => false
                  end
              | None => false
              end
          | None => false
          end
      | None => false
      end
  | _ => false
  end.

Lemma refill_ok_true : refill_ok = true.
Proof. vm_compute. reflexivity. Qed.

Lemma refill_session : ∃ k w l k4,
  start broker_cfg 1 (mkWorld shaky empty_disk) = Ret k w ∧ session broker_cfg (at_rest k) l (at_rest k4) ∧
  left_clean k4 = true ∧ compaction_ok (backing (wd (k_cs k4))) = true.
Proof.
  pose proof refill_ok_true as H. revert H. rw /refill_ok.
  destruct (start broker_cfg 1 (mkWorld shaky empty_disk)) as [k w|e w|] eqn:E0; [|done..].
  destruct (step_to make_file k) as [k1|] eqn:E1; [|done].
  destruct (step_to fill_file k1) as [k2|] eqn:E2; [|by rw andb_false_r].
  destruct (step_to refill_file k2) as [k3|] eqn:E3; [|by rw !andb_false_r].
  destruct (persistFn broker_cfg k3) as [[] k4|e k4|] eqn:E4; [|by rw !andb_false_r..].
  intros [C1 [C2 [[C3 Hf]%andb_true_iff [Hc HC]%andb_true_iff]%andb_true_iff]%andb_true_iff]%andb_true_iff.
  destruct (create_session (at_rest k) [] k "f" 420 1 k1 (session_nil _ _) C1 E1) as [a1 S1].
  destruct (write_session (at_rest k) _ k1 _ 0 2 k2 S1 C2 ltac:(done) ltac:(done) ltac:(done) E2) as [a2 S2].
  destruct (write_session (at_rest k) _ k2 _ 0 3 k3 S2 C3 ltac:(done) ltac:(done) ltac:(done) E3) as [a3 S3].
  eexists k, w, _, k4. split_and!; [done| |done..]. eapply (session_whole_persist _ _ k3); [exact S3|done|done].
Qed.

Lemma listed_ok_lists b : listed_ok b = true → lists_chunks b.
Proof.
  rw /listed_ok => H ids w' E. rw E in H. apply andb_true_iff in H as [H1 H2].
  by apply bool_decide_eq_true in H1, H2.
Qed.

Lemma compaction_run_ok b : compaction_ok b = true → may_run broker_cfg 5 [2] (mkWorld b empty_disk).
Proof.
  rw /compaction_ok => /andb_true_iff [H _] k w' E. rw E in H. apply andb_true_iff in H as [H1 H2].
  apply bool_decide_eq_true in H1. split; [by rw H1|by apply listed_ok_lists].
Qed.

