(* ===== verification/CacheConcDemo.v ===== *)
(** Concurrent reads on a directory store: one goroutine fetches a chunk, a
    second waits for that fetch, a third reads another chunk while the local
    disk fails once. *)
From S2P Require Import Prelude OS Decimal Store Cache CacheConc CacheConcProps.
#[local] Open Scope Z_scope.

Definition demo_c : chunkCache := mkCache "/c".
#[local] Instance demo_dir : Store Disk := LocalStore.store "/s".

Definition demo_chunk : bytes := [Byte.x61; Byte.x62; Byte.x63; Byte.x64].

Definition demo_world : world Disk :=
  mkWorld (mkDisk (<["/s/one" := demo_chunk]> (<["/s/two" := rev demo_chunk]> ∅)) [])
          (mkDisk ∅ [NoFault; NoFault; NoFault; FaultNow]).

Definition demo_calls : list call := [mkCall "one" 1 2; mkCall "one" 0 4; mkCall "two" 2 2].

(** Goroutine 0 misses, takes the lock and starts to fetch; goroutine 1 joins;
    goroutine 2 fetches its own chunk beside them. *)
Definition demo_schedule : list (nat * bool) :=
  (λ t, (t, false)) <$> [0; 1; 2; 0; 0; 0; 1; 1; 1; 2; 2; 2; 0; 2; 0; 2; 0; 2; 0; 2; 0; 1; 0; 1; 0; 0; 2; 2; 2; 2]%nat.

Definition demo_after (n : nat) : conc Disk :=
  default (entering demo_world demo_calls) (run demo_c (take n demo_schedule) (entering demo_world demo_calls)).

Lemma demo_after_steps n : bool_decide (is_Some (run demo_c (take n demo_schedule) (entering demo_world demo_calls))) = true →
  rtc (step demo_c) (entering demo_world demo_calls) (demo_after n).
Proof.
  rw /demo_after. destruct (run _ _ _) as [s|] eqn:E => // _. by apply (run_steps demo_c (take n demo_schedule)).
Qed.

Lemma demo_coherent k : chunk_name k = true → coherent_at (LocalStore.obj "/s") demo_c demo_world k.
Proof. intros _ f data H. by rw /cached /demo_world /= lookup_empty in H. Qed.

Ltac exists_range data :=
  split; [reflexivity|]; split; [done|]; split; [done|]; split; [done|];
  exists data; split; [vm_compute; reflexivity|done].

Lemma demo_in_range : Forall (in_range (LocalStore.obj "/s") demo_world) demo_calls.
Proof.
  repeat apply Forall_cons_2; [exists_range demo_chunk|exists_range demo_chunk|exists_range (rev demo_chunk)|].
  by apply Forall_nil.
Qed.

(** At the end of the schedule every call has its bytes: the waiter the four of
    the chunk that another goroutine fetched. *)
Lemma concurrent_reads_witness :
  (at_ <$> threads (demo_after 30)) =
    [Returned (Got [Byte.x62; Byte.x63]); Returned (Got demo_chunk); Returned (Got [Byte.x62; Byte.x61])] ∧
  ∀ k, chunk_name k = true →
    LocalStore.obj "/s" (backing (sw (sh (demo_after 30)))) k = LocalStore.obj "/s" (backing demo_world) k.
Proof.
  split; [vm_compute; reflexivity|].
  assert (rtc (step demo_c) (entering demo_world demo_calls) (demo_after 30)) as Hr.
  { apply demo_after_steps. vm_compute. reflexivity. }
  pose proof (concurrent_reads (LocalStore.obj "/s") demo_c demo_world demo_calls (demo_after 30)
    demo_coherent demo_in_range Hr) as (_ & _ & H).
  intros k Hk. apply H. exact Hk.
Defined.

(** In the middle of it, with one goroutine waiting and two fetching. *)
Lemma all_calls_return_witness :
  (at_ <$> threads (demo_after 13)) = [Getting 0 4; Waiting 0; Sizing 1] ∧
  ∃ s', rtc (step demo_c) (demo_after 13) s' ∧ ∀ t th, threads s' !! t = Some th → returned (at_ th) = true.
Proof.
  split; [vm_compute; reflexivity|].
  assert (rtc (step demo_c) (entering demo_world demo_calls) (demo_after 13)) as Hr.
  { apply demo_after_steps. vm_compute. reflexivity. }
  exact (proj2 (proj2 (all_calls_return (LocalStore.obj "/s") demo_c demo_world demo_calls (demo_after 13)
    demo_coherent demo_in_range Hr))).
Defined.
